(* ===== verification/_CoqProject ===== *)
-Q . S2P
Prelude.v
Memory.v
OS.v
FreeList.v
FreeListRep.v
Arena.v
ClientSpec.v
MyMalloc.v
MyMallocSpec.v
ThreadCache.v
HeapAlloc.v
HeapAllocSpec.v
Buffer.v
BufferSpec.v
BufferStream.v
CppString.v
HttpParser.v
HttpParserSpec.v
RequestStats.v
ParamMap.v
FileCache.v
FileCacheSpec.v
Threads.v
Locks.v
Monitor.v
Programs.v
TestPrograms.v
Spinlock.v
SpinlockMCS.v
Barrier.v
ThreadLocal.v
ThreadPool.v
ThreadPoolFast.v
ThreadPoolNormal.v
IOManager.v
Connection.v
ConnectionSpec.v
HttpConnection.v
HttpConnectionSpec.v
HttpClientSpec.v
Acceptor.v
IOService.v
SbrkAlloc.v
Poller.v
Callback.v
BinsMgr.v
BinsMgrSpec.v
Notification.v
FdStream.v
SignalHandler.v
Support.v
TestUnit.v
Server.v
Benchmarks.v
BufferBench.v
CallbackBench.v
MemBench.v
