(* ===== verification/Prelude.v ===== *)
(** * A verification of the MCP servers and memory allocators

    The repository holds two memory allocators and an HTTP server with the
    library it is built on.  This development models them as Rocq functions and
    transition systems and proves what they guarantee.

    ** The program and the files that model it

    The allocators.  [myAlloc_1Layer/MyMalloc.cpp] replaces [malloc], [free] and
    [realloc] by an allocator with 65 segregated free lists and boundary tags;
    [myAlloc_2Layer_lock/] puts a cache per thread ([thread_cache.cpp]) in front
    of a central heap of pages ([heap_alloc.cpp]).
    - [Memory]: byte-addressed memory; [OS]: what [sbrk] and [getenv] are.
    - [FreeList], [FreeListRep]: the free lists the three classes share
      (definitions; representation predicate [fl_rep] and refinement lemmas).
    - [Arena]: the parts of [allocateObject] and [freeObject] they share.
    - [ClientSpec]: the abstract heap, the specification of both allocators.
    - [MyMalloc], [MyMallocSpec]: the one-layer allocator and its theorems.
    - [ThreadCache]: the cache, against the interface [CentralHeap].
    - [HeapAlloc], [HeapAllocSpec]: the central heap, which implements that
      interface, the C functions on top, and their theorems.

    The server library.
    - [Buffer], [BufferSpec], [BufferStream]: the chunked stream buffer
      ([buffer.cpp]) and its specification as a queue of bytes.
    - [CppString]: what is used of [std::string].
    - [HttpParser], [HttpParserSpec]: requests, responses and their parser
      ([http_parser.cpp], [http_request.cpp], [http_response.hpp]).
    - [RequestStats]: requests per second ([request_stats.cpp]).
    - [ParamMap]: command-line parameters ([param_map.cpp]).
    - [FileCache], [FileCacheSpec]: the cache of files ([file_cache.cpp]).
    - [Threads]: interleavings, the interface [Lock], counting lemmas.
    - [Locks], [Monitor]: mutexes, condition variables and reader-writer locks
      ([lock.hpp]), and why a section under a lock is one step.
    - [Spinlock], [SpinlockMCS], [Barrier]: [spinlock.hpp], [spinlock_mcs.hpp],
      [thread_barrier.hpp].
    - [ThreadPool], [ThreadPoolFast], [ThreadPoolNormal]: the two thread pools
      behind one interface, the class [PoolLaws].
    - [IOManager]: descriptors, timers, polling and stopping ([io_manager.cpp]).
    - [Connection], [ConnectionSpec]: connections ([connection.cpp]).
    - [HttpConnection], [HttpConnectionSpec]: the HTTP server and client sides
      ([http_connection.cpp]).
    - [HttpClientSpec]: what the client side guarantees, and the composition of
      a client and a server.
    - [Acceptor], [IOService]: accepting connections and starting and stopping
      the service ([acceptor.cpp], [http_service.cpp], [io_service.cpp]).
    - [Poller]: the wrapper of epoll ([descriptor_poller_epoll.cpp]).
    - [ThreadLocal]: thread-local storage and the registry of threads
      ([thread_local.hpp], [thread_registry.cpp]).
    - [SbrkAlloc]: aligned memory from the system ([sbrk_alloc.cpp]).
    - [Callback]: the callback classes and their factories, who owns a callback,
      and threads that run one ([callback_instances.hpp], [thread.cpp]).
    - [Notification]: the notification of [lock.hpp], and the blocking connect of
      [http_service.cpp] and send of [http_connection.cpp], which use it.
    - [FdStream]: the stream buffer on a descriptor ([ifdstream.hpp]).
    - [SignalHandler]: the report after a crash ([signal_handler.cpp]).
    - [Server]: [main] of [server.cpp], on top of [ThreadPoolFast],
      [RequestStats], [Acceptor] and [IOService].
    - [Support]: logging, timers, the clock, child processes ([log_message.cpp],
      [log_writer.cpp], [timer.hpp], [ticks_clock.cpp], [child_process.cpp]).

    The test programs.
    - [BinsMgr], [BinsMgrSpec]: the memory test ([memtest_binsmgr.cpp]), a client of
      the interface [Allocator] with the laws [AllocatorLaws].
    - [TestUnit]: the unit-test framework ([test_unit.hpp]).
    - [Programs], [TestPrograms]: programs with threads on top of an allocator, and
      [test1.cc] to [test5.cc] of the two directories.
    - [Benchmarks], [BufferBench], [CallbackBench], [MemBench]: what the benchmarks
      compute and call ([thread_pool_benchmark.cpp], [false_sharing_benchmark.cpp],
      [buffer_benchmark.cpp], [callback_benchmark.cpp], [test_util.hpp],
      [memalloc_benchmark.cpp]).

    ** How code becomes definitions

    A method is a function in the monad [M] of this file: a state is passed
    along, and a run ends with a value or with a [fault] (a segmentation fault,
    an index out of bounds, an assertion, a deadlock, [exit], the use of an
    indeterminate value).  Machine integers are [Z] with the wrap-around written
    out ([wrap32], [wrap64]); bytes are [Z]; a record models a class, with the
    names of its members.  Loops that are not structural take fuel; running out
    of it is the fault [OutOfFuel], and the theorems show that the stated amount
    is enough: the number of blocks for a free list, one more than the
    characters left for the parser, the number of reads for [doRead()].

    Code that several threads run is a transition system ([Threads]): a step is
    one access to shared memory for the locks and the barrier, in a
    sequentially consistent order, and one critical section for the code that
    uses mutexes, which [Locks] and [Monitor] justify.  A claim about it is an invariant of every reachable state or
    a bound on the length of every run.  Fields marked as ghosts record history
    and are never read by the code.

    System calls, the file system, the clock and callbacks are parameters.  What
    the code relies on is a hypothesis of the theorem (or a class of laws:
    [SbrkLaws], [CentralLaws], [InputLaws], [SubclassLaws], [AllocatorLaws],
    [ClientLaws], [PoolAccounts]), and a witness shows each hypothesis to hold for a
    concrete instance.

    ** What the theorems show

    - Allocators: every sequence of valid calls returns and refines the abstract
      heap ([client_refines], [client2_refines]), unless the system refuses memory for
      the very object that is asked for; the consistency checks at exit hold; the accounting adds up; the placement policy is best fit by class.
    - Buffer: any sequence of operations, on it or from other buffers, behaves like
      a queue of bytes; what a reader is shown is a prefix of the queue.
    - Parser: it accepts exactly the grammar, waits for the rest of a prefix,
      and reads back what is written; on a text that stops inside the line end of a
      header it reads behind its input.
    - Statistics, parameters, file cache: functional specifications.
    - Locks and barrier: mutual exclusion, progress, rounds.
    - Thread pools: every task is handed out once and in order, no wake-up is
      lost, stopping ends and drains the pool unless its only worker stops it, and
      every run of a stopped pool is finite.  The workers of all fast pools of a process
      share the 16 slots of [worker_num_]: [room] says that they suffice, and
      [seventeenth_worker] what happens if not.
    - I/O manager and connections: no event is lost, timers run when they are
      due, what is sent is what was written, references balance.
    - HTTP: the server answers every request in order however the bytes arrive,
      as long as no piece ends in a carriage return, and the client reads the replies
      back.  What a connection says is what the socket has accepted followed by what
      its output buffer holds ([streams], [client_streams]).
      [http_end_to_end] composes the two: requests sent with [asyncSend()] are
      answered to their callbacks, in order.
    - Service: every connection is accepted once; stopping is safe under any
      interleaving, ends when no worker waits inside [stop()], and hangs
      otherwise ([worker_stop_hangs]); the program, with 1 to 16
      workers, ends cleanly ([server_quits]).
    - Thread-local storage is a variable per thread for at most 16 threads.
    - Callbacks: every factory makes a callback that runs its target on the right
      arguments, once or as often as it is called; ownership is an exact type
      system: a program that passes the checker, and only such a program, runs
      without a fault, and leaks nothing it no longer owns.
    - Notifications lose no wake-up; the blocking connect and send return exactly when
      their callback is run, with its value stored and nobody using the notification.
    - The stream buffer is an abstract stream with four characters to put back, fewer
      once [read()] has given nothing;
      the crash report prints every stack once; the test runner runs what is asked.
    - The memory test, on any allocator with the laws, ends, makes only valid calls
      and leaves no block; its random numbers have period 2^64, which bounds the
      fuel of its loop.
    - Critical sections: sections under a reader-writer lock, and sections under a
      mutex that wait on a condition variable, refine systems of whole sections
      ([rw_sections_atomic], [monitor_atomic]); runs of the former end
      ([rw_sections_end]), and the latter lose no wake-up when every section that
      can make a condition true wakes all sleepers ([monitor_no_lost_wakeup]).
    - The test programs of the allocators end, with their threads in any order, on
      both allocators, and give their memory back ([allocator_tests_run]); the
      client of the pool benchmark has its task run exactly as often as it adds it
      ([consumer_exact]); the four counters of the callback benchmark agree.

    Where the code does not do what it seems meant to do, a theorem shows the
    behaviour (for instance [append_breaks_source], [evict_corrupts],
    [conn_write_stalls], [parse_reads_past_end], [unget_after_eof], [third_round]).

    ** What is not modelled

    [circular_buffer] and [list_set] are empty, and [page_map.hpp] only declares.
    [test6.cc] is not a valid program.  Of the benchmarks, timing, output and the
    making of the threads are left out; the unit tests themselves are not modelled.
    Callbacks appear in most components as identities or as their effect, and the
    symbols of stack frames are text.  Threads can be created and [new] does not
    run out of memory.  One fast pool at a time uses [worker_num_].  The models do not cover
    weak memory, and
    calls into the two-layer allocator interleave as whole calls. *)

From stdpp Require Import base numbers list gmap sorting.
From Stdlib Require Import ZArith Lia.
Open Scope Z_scope.

(** ** Faults and the error-state monad *)

(** What can stop a run of the C++ code abnormally. *)
Inductive fault : Type :=
| Segv (a : Z)        (* access to an address that is not mapped *)
| OutOfBounds (i : Z) (* index outside a fixed-size array *)
| AssertFail          (* assert() evaluated to false: abort() *)
| Deadlock            (* locking a default mutex the caller already holds *)
| Fatal               (* LOG(FATAL), exit(1) *)
| Uninit              (* use of an indeterminate value *)
| DivByZero           (* an integer division by zero: SIGFPE *)
| IntOverflow         (* a signed operation whose result is not representable *)
| OutOfMemory         (* exit(1) because no memory was left *)
| Terminate           (* an exception that nobody catches: abort() *)
| OutOfFuel.          (* the bound given to a loop was too small *)

(** The outcome of running a piece of code from a state: a value and the
    next state, or a fault. *)
Inductive res (S A : Type) : Type :=
| Ok (a : A) (s : S)
| Err (e : fault).
Arguments Ok {S A} a s.
Arguments Err {S A} e.

Lemma Ok_inj {S A} (a b : A) (s t : S) : Ok a s = Ok b t → a = b ∧ s = t.
Proof. by intros [= -> ->]. Qed.

(** The final state of a run, and a test that it returned [a]; they let a run
    be evaluated without normalising its state. *)
Definition final {S A} (s0 : S) (r : res S A) : S :=
  match r with Ok _ s => s | Err _ => s0 end.

Definition returns {S} (r : res S Z) (a : Z) : bool :=
  match r with Ok b _ => b =? a | Err _ => false end.

Lemma returns_ok {S} (s0 : S) (r : res S Z) a : returns r a = true → r = Ok a (final s0 r).
Proof. destruct r as [b s|]; simpl; [|done]. by intros ->%Z.eqb_eq. Qed.

Definition out_of_bounds {S A} (r : res S A) (i : Z) : bool :=
  match r with Err (OutOfBounds j) => j =? i | _ => false end.

Lemma out_of_bounds_true {S A} (r : res S A) i :
  out_of_bounds r i = true → r = Err (OutOfBounds i).
Proof. destruct r as [|[]]; simpl; try done. by intros ->%Z.eqb_eq. Qed.

(** State-passing code over the state type [S]. *)
Definition M (S A : Type) : Type := S → res S A.

Section monad.
Context {S : Type}.

#[export] Instance M_ret : MRet (M S) := λ A a s, Ok a s.
#[export] Instance M_bind : MBind (M S) := λ A B k c s,
  match c s with Ok a s' => k a s' | Err e => Err e end.

Definition fail {A} (e : fault) : M S A := λ _, Err e.
Definition get : M S S := λ s, Ok s s.
Definition gets {A} (f : S → A) : M S A := λ s, Ok (f s) s.
Definition modify (f : S → S) : M S unit := λ s, Ok tt (f s).
Definition assert_ (b : bool) : M S unit := if b then mret tt else fail AssertFail.

Lemma bind_ok {A B} (c : M S A) (k : A → M S B) s a s' :
  c s = Ok a s' → (c ≫= k) s = k a s'.
Proof. intros H. unfold mbind, M_bind. by rewrite H. Qed.

Lemma bind_err {A B} (c : M S A) (k : A → M S B) s e :
  c s = Err e → (c ≫= k) s = Err e.
Proof. intros H. unfold mbind, M_bind. by rewrite H. Qed.

Lemma bind_bind {A B C} (c : M S A) (k : A → M S B) (k' : B → M S C) s :
  ((c ≫= k) ≫= k') s = (c ≫= λ a, k a ≫= k') s.
Proof. unfold mbind, M_bind. by destruct (c s). Qed.

Lemma bind_inv {A B} (c : M S A) (k : A → M S B) s b s' :
  (c ≫= k) s = Ok b s' → ∃ a s1, c s = Ok a s1 ∧ k a s1 = Ok b s'.
Proof. unfold mbind, M_bind. destruct (c s); naive_solver. Qed.
End monad.

Lemma gets_ok {S A} (f : S → A) s : gets f s = Ok (f s) s.
Proof. done. Qed.

Lemma ret_ok {S A} (a : A) (s : S) : (mret a : M S A) s = Ok a s.
Proof. done. Qed.

Lemma assert_ok {S} (b : bool) (s : S) : b = true → assert_ b s = Ok tt s.
Proof. by intros ->. Qed.

(** A sequence of three steps in front of [d]. *)
Lemma seq3_ok {S X} (a b c : M S unit) (d : M S X) s s' :
  (a;; b;; c) s = Ok tt s' → (a;; b;; c;; d) s = d s'.
Proof.
  unfold mbind, M_bind. destruct (a s) as [[] s1|]; [|done]. destruct (b s1) as [[] s2|]; [|done].
  by intros ->.
Qed.

(** Runs [c] on a part of a larger state: [getp] reads the part and [putp]
    writes it back. *)
Definition zoom {S T A} (getp : S → T) (putp : T → S → S) (c : M T A) : M S A :=
  λ s, match c (getp s) with
       | Ok a t => Ok a (putp t s)
       | Err e => Err e
       end.

Lemma zoom_ok {S T A} (getp : S → T) (putp : T → S → S) (c : M T A) s a t :
  c (getp s) = Ok a t → zoom getp putp c s = Ok a (putp t s).
Proof. intros H. unfold zoom. by rewrite H. Qed.

Lemma zoom_err {S T A} (getp : S → T) (putp : T → S → S) (c : M T A) s e :
  c (getp s) = Err e → zoom getp putp c s = Err e.
Proof. intros H. unfold zoom. by rewrite H. Qed.

(** ** Machine integers *)

(** [size_t] and [uint64_t] arithmetic wraps modulo 2^64. *)
Definition wrap64 (x : Z) : Z := x `mod` 2 ^ 64.
Definition wrap32 (x : Z) : Z := x `mod` 2 ^ 32.

(** Conversion of a [size_t] to [int]: the low 32 bits, as a signed value. *)
Definition to_int32 (x : Z) : Z :=
  let y := wrap32 x in if y <? 2 ^ 31 then y else y - 2 ^ 32.

Lemma wrap64_small x : 0 ≤ x < 2 ^ 64 → wrap64 x = x.
Proof. intros. unfold wrap64. by apply Z.mod_small. Qed.

Lemma wrap64_range x : 0 ≤ wrap64 x < 2 ^ 64.
Proof. unfold wrap64. apply Z.mod_pos_bound. lia. Qed.

Lemma wrap32_small x : 0 ≤ x < 2 ^ 32 → wrap32 x = x.
Proof. intros. unfold wrap32. by apply Z.mod_small. Qed.

Lemma wrap32_range x : 0 ≤ wrap32 x < 2 ^ 32.
Proof. unfold wrap32. apply Z.mod_pos_bound. lia. Qed.

Lemma to_int32_small x : 0 ≤ x < 2 ^ 31 → to_int32 x = x.
Proof.
  intros Hx. unfold to_int32. rewrite wrap32_small by lia.
  destruct (Z.ltb_spec x (2 ^ 31)); lia.
Qed.

Lemma wrap64_add_l x y : wrap64 (wrap64 x + y) = wrap64 (x + y).
Proof. unfold wrap64. by rewrite Zplus_mod_idemp_l. Qed.

Lemma wrap64_add_r x y : wrap64 (x + wrap64 y) = wrap64 (x + y).
Proof. unfold wrap64. by rewrite Zplus_mod_idemp_r. Qed.

(** Congruence modulo 2^64, as an equation for [lia]. *)
Lemma wrap64_cong x y : wrap64 x = wrap64 y ↔ ∃ k, x = y + k * 2 ^ 64.
Proof.
  unfold wrap64. split.
  - intros E. exists (x / 2 ^ 64 - y / 2 ^ 64).
    pose proof (Z.div_mod x (2 ^ 64)). pose proof (Z.div_mod y (2 ^ 64)). lia.
  - intros [k ->]. by rewrite Z_mod_plus_full.
Qed.

(** [x & ~(2^k - 1)] on 64-bit values clears the low [k] bits. *)
Definition mask_low (k x : Z) : Z := Z.land x (2 ^ 64 - 2 ^ k).

Lemma mask_low_spec k x :
  0 ≤ k < 64 → 0 ≤ x < 2 ^ 64 → mask_low k x = x - x `mod` 2 ^ k.
Proof.
  intros Hk Hx. unfold mask_low.
  assert (x - x `mod` 2 ^ k = Z.shiftl (Z.shiftr x k) k) as ->.
  { rewrite Z.shiftl_mul_pow2, Z.shiftr_div_pow2 by lia.
    pose proof (Z.div_mod x (2 ^ k)). lia. }
  assert (2 ^ 64 - 2 ^ k = Z.shiftl (Z.ones (64 - k)) k) as ->.
  { rewrite Z.shiftl_mul_pow2, Z.ones_equiv by lia.
    replace 64 with ((64 - k) + k) at 1 by lia.
    rewrite Z.pow_add_r by lia. unfold Z.pred. lia. }
  apply Z.bits_inj'. intros i Hi.
  rewrite Z.land_spec, !Z.shiftl_spec by lia.
  destruct (decide (i < k)).
  - rewrite (Z.testbit_neg_r _ (i - k)), (Z.testbit_neg_r _ (i - k)) by lia.
    apply andb_false_r.
  - rewrite Z.shiftr_spec by lia. replace (i - k + k) with i by lia.
    rewrite Z.testbit_ones_nonneg by lia.
    destruct (Z.ltb_spec (i - k) (64 - k)); [apply andb_true_r|].
    assert (Z.testbit x i = false) as ->; [|done].
    destruct (decide (x = 0)) as [->|]; [apply Z.bits_0|].
    apply Z.bits_above_log2; [lia|].
    apply Z.log2_lt_pow2; [lia|].
    apply Z.lt_le_trans with (2 ^ 64); [lia|]. apply Z.pow_le_mono_r; lia.
Qed.

(** ** Sums of sizes *)

(** The sum of a list of integers. *)
Definition zsum (l : list Z) : Z := foldr Z.add 0 l.

Lemma zsum_cons x l : zsum (x :: l) = x + zsum l.
Proof. done. Qed.

Lemma zsum_app l k : zsum (l ++ k) = zsum l + zsum k.
Proof. induction l as [|x l IH]; simpl; [done|]. fold (zsum (l ++ k)) (zsum l). lia. Qed.

#[export] Instance zsum_perm : Proper ((≡ₚ) ==> (=)) zsum.
Proof. induction 1; unfold zsum in *; simpl in *; lia. Qed.

Lemma zsum_nonneg l : Forall (λ x, 0 ≤ x) l → 0 ≤ zsum l.
Proof. induction 1; unfold zsum in *; simpl in *; lia. Qed.

#[global] Arguments zsum : simpl never.
