(* ===== verification/Memory.v ===== *)
(** * Byte-addressed memory

    The heap that the allocators carve up: a finite map from addresses to
    bytes, little-endian loads and stores of [n]-byte integers, the mapping of
    a fresh zero-filled region (what a successful [sbrk] does) and the frame
    lemmas the components use.  A load or store that touches an unmapped byte
    is a segmentation fault. *)

From S2P Require Import Prelude.
From stdpp Require Import base numbers list gmap.
Open Scope Z_scope.

Abbreviation mem := (gmap Z Z).

(** ** Raw access *)

(** Whether the [n] bytes from [a] on are mapped. *)
Fixpoint mappedb (n : nat) (a : Z) (m : mem) : bool :=
  match n with
  | O => true
  | S n' => match m !! a with Some _ => mappedb n' (a + 1) m | None => false end
  end.

(** Little-endian value of the [n] bytes from [a] on. *)
Fixpoint load (n : nat) (a : Z) (m : mem) : option Z :=
  match n with
  | O => Some 0
  | S n' =>
    match m !! a, load n' (a + 1) m with
    | Some b, Some r => Some (b + 256 * r)
    | _, _ => None
    end
  end.

(** Writes the [n] low bytes of [v] from [a] on. *)
Fixpoint put (n : nat) (a v : Z) (m : mem) : mem :=
  match n with
  | O => m
  | S n' => put n' (a + 1) (v / 256) (<[a := v `mod` 256]> m)
  end.

(** Maps [n] zero bytes from [a] on. *)
Fixpoint map_zero (n : nat) (a : Z) (m : mem) : mem :=
  match n with
  | O => m
  | S n' => map_zero n' (a + 1) (<[a := 0]> m)
  end.

(** Copies [n] bytes from [src] to [dst] in increasing order, faulting on the
    first unmapped byte. *)
Fixpoint copy_bytes (n : nat) (dst src : Z) (m : mem) : option mem :=
  match n with
  | O => Some m
  | S n' =>
    match m !! src, m !! dst with
    | Some b, Some _ => copy_bytes n' (dst + 1) (src + 1) (<[dst := b]> m)
    | _, _ => None
    end
  end.

(** ** Predicates *)

(** Every address of [lo, hi) is mapped. *)
Definition mapped (m : mem) (lo hi : Z) : Prop := ∀ a, lo ≤ a < hi → is_Some (m !! a).

(** No address of [lo, hi) is mapped. *)
Definition unmapped (m : mem) (lo hi : Z) : Prop := ∀ a, lo ≤ a < hi → m !! a = None.

(** [m] and [m'] hold the same bytes on [lo, hi). *)
Definition agree (m m' : mem) (lo hi : Z) : Prop := ∀ a, lo ≤ a < hi → m !! a = m' !! a.

(** Memory only grows: what is mapped stays mapped. *)
Definition grows (m m' : mem) : Prop := ∀ a, is_Some (m !! a) → is_Some (m' !! a).

#[export] Instance grows_preorder : PreOrder grows.
Proof. split; [by intros m a|]. intros m1 m2 m3 H1 H2 a Ha. auto. Qed.

Lemma agree_refl m lo hi : agree m m lo hi.
Proof. by intros a Ha. Qed.

Lemma agree_trans m1 m2 m3 lo hi :
  agree m1 m2 lo hi → agree m2 m3 lo hi → agree m1 m3 lo hi.
Proof. intros H1 H2 a Ha. rewrite H1 by done. by apply H2. Qed.

Lemma agree_sym m1 m2 lo hi : agree m1 m2 lo hi → agree m2 m1 lo hi.
Proof. intros H a Ha. by rewrite H. Qed.

Lemma agree_sub m m' lo hi lo' hi' :
  agree m m' lo hi → lo ≤ lo' → hi' ≤ hi → agree m m' lo' hi'.
Proof. intros H H1 H2 a Ha. apply H. lia. Qed.

Lemma mapped_sub m lo hi lo' hi' :
  mapped m lo hi → lo ≤ lo' → hi' ≤ hi → mapped m lo' hi'.
Proof. intros H H1 H2 a Ha. apply H. lia. Qed.

Lemma mapped_grows m m' lo hi : grows m m' → mapped m lo hi → mapped m' lo hi.
Proof. intros Hg Hm a Ha. auto. Qed.

(** ** Lemmas on loads and stores *)

Lemma mappedb_true n a m : mapped m a (a + Z.of_nat n) → mappedb n a m = true.
Proof.
  revert a. induction n as [|n IH]; intros a Hm; simpl; [done|].
  destruct (Hm a) as [b ->]; [lia|]. apply IH. eapply mapped_sub; [done|lia|lia].
Qed.

Lemma mappedb_false n a m : (0 < n)%nat → m !! a = None → mappedb n a m = false.
Proof. destruct n; simpl; [lia|]. by intros _ ->. Qed.

Lemma load_agree n a m m' :
  agree m m' a (a + Z.of_nat n) → load n a m = load n a m'.
Proof.
  revert a. induction n as [|n IH]; intros a Hag; simpl; [done|].
  rewrite (Hag a) by lia. rewrite IH; [done|].
  eapply agree_sub; [done|lia|lia].
Qed.

Lemma load_mapped n a m : mapped m a (a + Z.of_nat n) → is_Some (load n a m).
Proof.
  revert a. induction n as [|n IH]; intros a Hm; simpl; [by eexists|].
  destruct (Hm a) as [b ->]; [lia|].
  destruct (IH (a + 1)) as [r ->]; [eapply mapped_sub; [done|lia|lia]|]. by eexists.
Qed.

Lemma put_out n a v m x : x < a ∨ a + Z.of_nat n ≤ x → put n a v m !! x = m !! x.
Proof.
  revert a v m. induction n as [|n IH]; intros a v m Hx; simpl; [done|].
  rewrite IH by lia. by rewrite lookup_insert_ne by lia.
Qed.

Lemma put_grows n a v m : grows m (put n a v m).
Proof.
  revert a v m. induction n as [|n IH]; intros a v m x Hx; simpl; [done|].
  apply IH. destruct (decide (a = x)) as [->|].
  - rewrite lookup_insert_eq. by eexists.
  - by rewrite lookup_insert_ne.
Qed.

Lemma put_agree n a v m lo hi :
  hi ≤ a ∨ a + Z.of_nat n ≤ lo → agree m (put n a v m) lo hi.
Proof. intros H x Hx. rewrite put_out by lia. done. Qed.

Lemma load_put_same n a v m : load n a (put n a v m) = Some (v `mod` 256 ^ Z.of_nat n).
Proof.
  revert a v m. induction n as [|n IH]; intros a v m.
  - simpl. by rewrite Z.mod_1_r.
  - cbn [load put]. rewrite IH, put_out, lookup_insert_eq by lia. f_equal.
    rewrite Nat2Z.inj_succ, Z.pow_succ_r by lia.
    rewrite Z.rem_mul_r by lia. done.
Qed.

Lemma load_put_ne n k a b v m :
  a + Z.of_nat n ≤ b ∨ b + Z.of_nat k ≤ a →
  load n a (put k b v m) = load n a m.
Proof. intros H. symmetry. apply load_agree, put_agree. lia. Qed.

Lemma load8_put8 a v m : 0 ≤ v < 2 ^ 64 → load 8 a (put 8 a v m) = Some v.
Proof. intros Hv. rewrite load_put_same. by rewrite Z.mod_small. Qed.

Lemma load4_put4 a v m : 0 ≤ v < 2 ^ 32 → load 4 a (put 4 a v m) = Some v.
Proof. intros Hv. rewrite load_put_same. by rewrite Z.mod_small. Qed.

(** ** Mapping a region *)

Lemma map_zero_out n a m x : x < a ∨ a + Z.of_nat n ≤ x → map_zero n a m !! x = m !! x.
Proof.
  revert a m. induction n as [|n IH]; intros a m Hx; simpl; [done|].
  rewrite IH by lia. by rewrite lookup_insert_ne by lia.
Qed.

Lemma map_zero_in n a m x : a ≤ x < a + Z.of_nat n → map_zero n a m !! x = Some 0.
Proof.
  revert a m. induction n as [|n IH]; intros a m Hx; simpl; [lia|].
  destruct (decide (a = x)) as [->|].
  - rewrite map_zero_out by lia. by rewrite lookup_insert_eq.
  - apply IH. lia.
Qed.

Lemma map_zero_grows n a m : grows m (map_zero n a m).
Proof.
  intros x Hx. destruct (decide (a ≤ x < a + Z.of_nat n)).
  - rewrite map_zero_in by done. by eexists.
  - rewrite map_zero_out by lia. done.
Qed.

Lemma map_zero_mapped n a m : mapped (map_zero n a m) a (a + Z.of_nat n).
Proof. intros x Hx. rewrite map_zero_in by done. by eexists. Qed.

Lemma map_zero_agree n a m lo hi :
  hi ≤ a ∨ a + Z.of_nat n ≤ lo → agree m (map_zero n a m) lo hi.
Proof. intros H x Hx. rewrite map_zero_out by lia. done. Qed.

(** A fresh region cannot overlap a mapped one. *)
Lemma fresh_apart m lo hi lo' hi' :
  lo < hi → lo' < hi' → mapped m lo hi → unmapped m lo' hi' → hi ≤ lo' ∨ hi' ≤ lo.
Proof.
  intros H1 H2 Hm Hu. destruct (decide (hi ≤ lo' ∨ hi' ≤ lo)) as [?|Hno]; [done|].
  exfalso. assert (Hx : lo ≤ Z.max lo lo' < hi) by lia.
  destruct (Hm _ Hx) as [b Hb]. rewrite Hu in Hb by lia. done.
Qed.

(** ** Copying *)

Lemma copy_bytes_spec n dst src m :
  mapped m src (src + Z.of_nat n) → mapped m dst (dst + Z.of_nat n) →
  src + Z.of_nat n ≤ dst ∨ dst + Z.of_nat n ≤ src →
  ∃ m', copy_bytes n dst src m = Some m' ∧ grows m m' ∧
    (∀ x, x < dst ∨ dst + Z.of_nat n ≤ x → m' !! x = m !! x) ∧
    (∀ i, 0 ≤ i < Z.of_nat n → m' !! (dst + i) = m !! (src + i)).
Proof.
  revert dst src m. induction n as [|n IH]; intros dst src m Hs Hd Hdisj.
  - exists m. simpl. split_and!; [done..|lia].
  - simpl. destruct (Hs src) as [b Hb]; [lia|]. destruct (Hd dst) as [b' Hb']; [lia|].
    rewrite Hb, Hb'.
    assert (Hg : grows m (<[dst:=b]> m)).
    { intros x Hx. destruct (decide (dst = x)) as [->|];
        [rewrite lookup_insert_eq; by eexists | by rewrite lookup_insert_ne]. }
    destruct (IH (dst + 1) (src + 1) (<[dst:=b]> m)) as (m' & Hc & Hg' & Hout & Hin).
    + eapply mapped_grows; [done|]. eapply mapped_sub; [exact Hs|lia|lia].
    + eapply mapped_grows; [done|]. eapply mapped_sub; [exact Hd|lia|lia].
    + lia.
    + exists m'. split_and!; [done|by etrans| |].
      * intros x Hx. rewrite Hout by lia. by rewrite lookup_insert_ne by lia.
      * intros i Hi. destruct (decide (i = 0)) as [->|].
        -- rewrite !Z.add_0_r, Hout by lia. by rewrite lookup_insert_eq.
        -- replace (dst + i) with (dst + 1 + (i - 1)) by lia.
           rewrite Hin by lia. rewrite lookup_insert_ne by lia.
           f_equal. lia.
Qed.

(** ** Automation *)

Create HintDb memdb.
#[export] Hint Resolve agree_refl mappedb_true load_agree put_grows map_zero_grows
  map_zero_mapped : memdb.

#[global] Arguments load : simpl never.
#[global] Arguments put : simpl never.
#[global] Arguments mappedb : simpl never.
#[global] Arguments map_zero : simpl never.
#[global] Arguments copy_bytes : simpl never.
