(* ===== verification/OS.v ===== *)
(** * The operating system under the allocators

    [sbrk] and [getenv] are not part of the repository: they are fields of the
    class [OS] that the allocator models take as a parameter.  [SbrkLaws] is the
    documented behaviour of [sbrk] that the code relies on: a successful call
    returns memory that the process did not have before.  [bump_os] is an
    instance used to run the models. *)

From S2P Require Import Prelude Memory.
From stdpp Require Import base numbers list gmap strings.
Open Scope Z_scope.

(** [sbrk] fails with [(void* )-1]. *)
Definition SBRK_FAILED : Z := -1.

Class OS : Type := mkOS {
  os_sbrk : mem → Z → Z;              (* what sbrk(n) returns *)
  os_getenv : string → option string; (* getenv *)
}.

Class SbrkLaws (os : OS) : Prop := {
  sbrk_fresh m n :
    0 < n → os_sbrk m n ≠ SBRK_FAILED →
    4096 ≤ os_sbrk m n ∧ os_sbrk m n + n ≤ 2 ^ 64 ∧
    unmapped m (os_sbrk m n) (os_sbrk m n + n);
}.

(** The memory after [sbrk(n)]: a successful call maps [n] zero bytes. *)
Definition after_sbrk `{OS} (m : mem) (n : Z) : mem :=
  if os_sbrk m n =? SBRK_FAILED then m else map_zero (Z.to_nat n) (os_sbrk m n) m.

(** The system refused memory for an object of [size] bytes: a call of [sbrk] in the memory
    [m], for at least the object with its header and footer and at most [slack] bytes more
    than the object, failed. *)
Definition refused `{OS} (slack : Z) (m : mem) (size : Z) : Prop :=
  ∃ n, size + 32 ≤ n ≤ size + slack ∧ os_sbrk m n = SBRK_FAILED.

(** ** A concrete system *)

(** The lowest address above 4096 with nothing mapped from it on. *)
Definition brk_of (m : mem) : Z := map_fold (λ a _ acc, Z.max acc (a + 1)) 4096 m.

Definition bump_sbrk (m : mem) (n : Z) : Z :=
  if brk_of m + n <=? 2 ^ 47 then brk_of m else SBRK_FAILED.

Definition bump_os : OS := mkOS bump_sbrk (λ _, None).

Lemma brk_of_spec m : 4096 ≤ brk_of m ∧ ∀ a, is_Some (m !! a) → a < brk_of m.
Proof.
  unfold brk_of. apply (map_fold_weak_ind (λ r m, 4096 ≤ r ∧ ∀ a, is_Some (m !! a) → a < r)).
  - split; [done|]. intros a [? Ha]. by rewrite lookup_empty in Ha.
  - intros i x m' r _ [H1 H2]. split; [lia|]. intros a Ha.
    destruct (decide (i = a)) as [->|Hne]; [lia|].
    rewrite lookup_insert_ne in Ha by done. specialize (H2 a Ha). lia.
Qed.

#[export] Instance bump_laws : SbrkLaws bump_os.
Proof.
  split. intros m n Hn. simpl. unfold bump_sbrk. destruct (brk_of_spec m) as [H1 H2].
  destruct (Z.leb_spec (brk_of m + n) (2 ^ 47)); [|done]. intros _.
  split_and!; [done|lia|]. intros a Ha. apply eq_None_not_Some. intros Hs.
  specialize (H2 a Hs). lia.
Qed.
