(* ===== verification/FreeList.v ===== *)
(** * Segregated free lists with boundary tags

    The data structure that the three allocator classes of the repository
    share: [myAlloc_1Layer/MyMalloc.cpp] (class [Allocator]),
    [myAlloc_2Layer_lock/heap_alloc.cpp] (class [Allocator]) and
    [myAlloc_2Layer_lock/thread_cache.cpp] (class [ThreadCache]).  Each keeps an
    array [freels_] of 65 doubly linked lists threaded through the free blocks;
    a block starts with an [ObjHeader] and ends with a footer of the same
    layout.  The operations below work on the array and on memory. *)

From S2P Require Import Prelude Memory.
From stdpp Require Import base numbers list gmap sorting.
Open Scope Z_scope.

(** ** Layout *)

Definition NUMOFSIZECLASSES : Z := 65.
Definition NULL : Z := 0.
Definition ObjFree : Z := 0.
Definition ObjAllocated : Z := 1.

(** [struct ObjHeader { int _flags; size_t _objectSize; }]: offsets and size
    on an LP64 machine. *)
Definition off_flags : Z := 0.
Definition off_objectSize : Z := 8.
Definition sizeof_ObjHeader : Z := 16.

(** [struct DualLnkNode { DualLnkNode* next_; DualLnkNode* prev_; }]. *)
Definition off_next : Z := 0.
Definition off_prev : Z := 8.
Definition sizeof_DualLnkNode : Z := 16.

(** ** State and primitive accesses *)

(** The array [freels_] of one allocator object, and memory. *)
Record FL : Type := mkFL { freels_ : list Z; fmem : mem }.

Definition rd (n : nat) (a : Z) : M FL Z := λ s,
  match load n a (fmem s) with Some v => Ok v s | None => Err (Segv a) end.

Definition wr (n : nat) (a v : Z) : M FL unit := λ s,
  if mappedb n a (fmem s) then Ok tt (mkFL (freels_ s) (put n a v (fmem s)))
  else Err (Segv a).

Definition get_head (i : Z) : M FL Z := λ s,
  match freels_ s !! Z.to_nat i with Some p => Ok p s | None => Err (OutOfBounds i) end.

Definition set_head (i p : Z) : M FL unit := λ s,
  Ok tt (mkFL (<[Z.to_nat i := p]> (freels_ s)) (fmem s)).

(** Fields of the node at [p] and of the header in front of it. *)
Definition get_next (p : Z) : M FL Z := rd 8 (p + off_next).
Definition get_prev (p : Z) : M FL Z := rd 8 (p + off_prev).
Definition set_next (p v : Z) : M FL unit := wr 8 (p + off_next) v.
Definition set_prev (p v : Z) : M FL unit := wr 8 (p + off_prev) v.

(** A list of free blocks is never longer than the number of mapped bytes,
    so this many iterations are enough for every traversal. *)
Definition fuel_of (s : FL) : nat := S (size (fmem s)).

(** [Allocator::getFreeNodeSize] *)
Definition getFreeNodeSize (node : Z) : M FL Z :=
  rd 8 (node - sizeof_ObjHeader + off_objectSize).

(** ** insertFreeBlock *)

(** The [while (iter != NULL)] loop of [insertFreeBlock]: stops at the first
    node that is at least as large as the new one; result [(iter, preiter)]. *)
Fixpoint insert_walk (fuel : nat) (toinsertSize iter preiter : Z) : M FL (Z * Z) :=
  match fuel with
  | O => fail OutOfFuel
  | S fuel' =>
    if iter =? NULL then mret (iter, preiter) else
    sz ← getFreeNodeSize iter;
    if toinsertSize <=? sz then mret (iter, preiter) else
    nx ← get_next iter;
    insert_walk fuel' toinsertSize nx iter
  end.

Definition insertFreeBlock (toinsert pos : Z) : M FL bool :=
  if pos <? 0 then mret false else
  let pos := if NUMOFSIZECLASSES - 1 <? pos then NUMOFSIZECLASSES - 1 else pos in
  hd ← get_head pos;
  if (pos =? NUMOFSIZECLASSES - 1) && negb (hd =? NULL) then
    toinsertSize ← getFreeNodeSize toinsert;
    fuel ← gets fuel_of;
    '(iter, preiter) ← insert_walk fuel toinsertSize hd NULL;
    if iter =? NULL then
      set_next preiter toinsert;;
      set_prev toinsert preiter;;
      set_next toinsert NULL;;
      mret true
    else if preiter =? NULL then
      set_head pos toinsert;;
      set_next toinsert iter;;
      set_prev toinsert NULL;;
      set_prev iter toinsert;;
      mret true
    else
      set_next preiter toinsert;;
      set_next toinsert iter;;
      set_prev iter toinsert;;
      set_prev toinsert preiter;;
      mret true
  else
    tmpnext ← get_head pos;
    set_next toinsert tmpnext;;
    (if negb (tmpnext =? NULL) then set_prev tmpnext toinsert else mret tt);;
    set_prev toinsert NULL;;
    set_head pos toinsert;;
    mret true.

(** ** rmFromFreeLs *)

(** The search loop for the last size class. *)
Fixpoint rm_walk (fuel : nat) (totsize iter : Z) : M FL Z :=
  match fuel with
  | O => fail OutOfFuel
  | S fuel' =>
    if iter =? NULL then mret iter else
    sz ← getFreeNodeSize iter;
    if totsize <=? sz then mret iter else
    nx ← get_next iter;
    rm_walk fuel' totsize nx
  end.

Definition rmFromFreeLs (pos totsize : Z) : M FL Z :=
  if pos <? 0 then mret NULL else
  let pos := if NUMOFSIZECLASSES - 1 <? pos then NUMOFSIZECLASSES - 1 else pos in
  hd ← get_head pos;
  if hd =? NULL then mret NULL else
  if pos =? NUMOFSIZECLASSES - 1 then
    fuel ← gets fuel_of;
    iter ← rm_walk fuel totsize hd;
    if iter =? NULL then mret NULL
    else if iter =? hd then
      nx ← get_next iter;
      set_head pos nx;;
      nx ← get_next iter;
      (if negb (nx =? NULL) then set_prev nx NULL else mret tt);;
      mret iter
    else
      pv ← get_prev iter;
      nx ← get_next iter;
      set_next pv nx;;
      nx ← get_next iter;
      (if negb (nx =? NULL) then pv ← get_prev iter; set_prev nx pv else mret tt);;
      mret iter
  else
    let firstNode := hd in
    nx ← get_next firstNode;
    set_head pos nx;;
    nx ← get_next firstNode;
    (if negb (nx =? NULL) then set_prev nx NULL else mret tt);;
    mret firstNode.

(** ** Debugging traversals *)

(** The inner loop of [sumFreeListSize]: the sizes of one list, added to a
    [size_t] accumulator. *)
Fixpoint sum_walk (fuel : nat) (iter sumsize : Z) : M FL Z :=
  match fuel with
  | O => fail OutOfFuel
  | S fuel' =>
    if iter =? NULL then mret sumsize else
    sz ← getFreeNodeSize iter;
    nx ← get_next iter;
    sum_walk fuel' nx (wrap64 (sumsize + sz))
  end.

(** The [for] loop of [sumFreeListSize] over the remaining class indices. *)
Fixpoint sum_classes (is_ : list Z) (sumsize : Z) : M FL Z :=
  match is_ with
  | [] => mret sumsize
  | i :: is' =>
    iter ← get_head i;
    fuel ← gets fuel_of;
    sumsize ← sum_walk fuel iter sumsize;
    sum_classes is' sumsize
  end.

(** The class indices [0 .. NUMOFSIZECLASSES - 1] in increasing order. *)
Definition classes : list Z := Z.of_nat <$> seq 0 65.

Definition sumFreeListSize : M FL Z := sum_classes classes 0.

(** [checkDualLnkList]: asserts [iter->prev_ == preiter] along the list. *)
Fixpoint check_links (fuel : nat) (iter preiter : Z) : M FL unit :=
  match fuel with
  | O => fail OutOfFuel
  | S fuel' =>
    if iter =? NULL then mret tt else
    pv ← get_prev iter;
    assert_ (pv =? preiter);;
    nx ← get_next iter;
    check_links fuel' nx iter
  end.

Definition checkDualLnkList (index : Z) : M FL unit :=
  assert_ (index <? NUMOFSIZECLASSES);;
  iter ← get_head index;
  fuel ← gets fuel_of;
  check_links fuel iter NULL.

(** [getHeadFootInfo] prints four fields; here they are the result
    [(h_size, h_flag, f_size, f_flag)]. *)
Definition getHeadFootInfo (node : Z) : M FL (Z * Z * Z * Z) :=
  let obj := node - sizeof_ObjHeader in
  objsize ← rd 8 (obj + off_objectSize);
  hflag ← rd 4 (obj + off_flags);
  let foot := node + objsize - 2 * sizeof_ObjHeader in
  fsize ← rd 8 (foot + off_objectSize);
  fflag ← rd 4 (foot + off_flags);
  mret (objsize, hflag, fsize, fflag).

(** The loop of [checkFreeLsConsist].  The copies in the repository differ in
    two assertions: [page_check] is [assert(totsize % BASICALLOCSIZE == 0)]
    (only in [heap_alloc.cpp]), [order_check] is
    [assert(totsize >= prenodesize)] (not in [MyMalloc.cpp]). *)
Fixpoint check_consist (page_check order_check : bool) (u : Z) (fuel : nat)
    (index prenodesize iter : Z) : M FL unit :=
  match fuel with
  | O => fail OutOfFuel
  | S fuel' =>
    if iter =? NULL then mret tt else
    let head := iter - sizeof_ObjHeader in
    hflags ← rd 4 (head + off_flags);
    assert_ (hflags =? ObjFree);;
    totsize ← rd 8 (head + off_objectSize);
    assert_ (if page_check then totsize `mod` u =? 0 else true);;
    prenodesize ←
      (if index <=? NUMOFSIZECLASSES - 2 then
         assert_ (totsize =? index * u);; mret prenodesize
       else
         assert_ (index * u <=? totsize);;
         assert_ (if order_check then prenodesize <=? totsize else true);;
         mret totsize);
    let foot := iter + totsize - 2 * sizeof_ObjHeader in
    fflags ← rd 4 (foot + off_flags);
    assert_ (fflags =? ObjFree);;
    fsize ← rd 8 (foot + off_objectSize);
    assert_ (fsize =? totsize);;
    nx ← get_next iter;
    check_consist page_check order_check u fuel' index prenodesize nx
  end.

Definition check_class (page_check order_check : bool) (u index : Z) : M FL unit :=
  assert_ (index <? NUMOFSIZECLASSES);;
  iter ← get_head index;
  fuel ← gets fuel_of;
  check_consist page_check order_check u fuel index 0 iter.

(** The loop of [checkALL] over the remaining class indices. *)
Fixpoint check_all (check : Z → M FL unit) (is_ : list Z) : M FL unit :=
  match is_ with
  | [] => mret tt
  | i :: is' => check i;; checkDualLnkList i;; check_all check is'
  end.
