(* ===== verification/FreeListRep.v ===== *)
(** * Representation of free lists and correctness of their operations

    The abstract state of an allocator object is a list [F] of 65 lists of
    blocks.  [fl_rep u h m F] says that the array [h] and the memory [m]
    represent [F] for size classes of [u] bytes.  The lemmas show that
    [insertFreeBlock] and [rmFromFreeLs] refine the functions [fl_insert] and
    [fl_remove] on [F] and touch only link fields. *)

From S2P Require Import Prelude Memory FreeList.
From stdpp Require Import base numbers list gmap sorting.
Open Scope Z_scope.

(** ** Blocks *)

(** A block of memory, header and footer included. *)
Record chunk : Type := mkChunk { addr : Z; csize : Z }.

#[export] Instance chunk_eq_dec : EqDecision chunk.
Proof. solve_decision. Defined.

Definition cend (c : chunk) : Z := addr c + csize c.
Definition node (c : chunk) : Z := addr c + sizeof_ObjHeader.

(** The two blocks do not overlap. *)
Definition disj (c d : chunk) : Prop := cend c ≤ addr d ∨ cend d ≤ addr c.

(** Pairwise disjoint blocks. *)
Fixpoint apart (L : list chunk) : Prop :=
  match L with
  | [] => True
  | c :: L' => Forall (disj c) L' ∧ apart L'
  end.

(** A usable block: not at address 0, inside the 64-bit address space, large
    enough for both tags and a node, small enough for an [int] class index,
    and mapped. *)
Definition max_chunk : Z := 2 ^ 34.
Definition cvalid (m : mem) (c : chunk) : Prop :=
  0 < addr c ∧ cend c ≤ 2 ^ 64 ∧ 48 ≤ csize c < max_chunk ∧ mapped m (addr c) (cend c).

(** Header and footer hold the flag [f] and the size of the block. *)
Definition tagged (m : mem) (f : Z) (c : chunk) : Prop :=
  load 4 (addr c) m = Some f ∧ load 8 (addr c + 8) m = Some (csize c) ∧
  load 4 (cend c - 16) m = Some f ∧ load 8 (cend c - 8) m = Some (csize c).

Lemma disj_sym c d : disj c d → disj d c.
Proof. unfold disj. lia. Qed.

Lemma apart_app L K :
  apart (L ++ K) ↔ apart L ∧ apart K ∧ Forall (λ c, Forall (disj c) K) L.
Proof.
  induction L as [|c L IH]; simpl.
  - rewrite Forall_nil. tauto.
  - rewrite IH, Forall_app, Forall_cons. tauto.
Qed.

#[export] Instance apart_perm : Proper ((≡ₚ) ==> iff) apart.
Proof.
  intros L K HLK. induction HLK as [|c L K HLK IH|c d L|L K J _ IH1 _ IH2]; simpl.
  - done.
  - by rewrite IH, HLK.
  - rewrite !Forall_cons. split; intros [[H1 H2] [H3 H4]];
      split_and!; auto using disj_sym.
  - by rewrite IH1.
Qed.

Lemma apart_cons_disj c L d : apart (c :: L) → d ∈ L → disj c d.
Proof. intros [H _] Hd. rewrite Forall_forall in H. auto. Qed.

Lemma apart_disj L c d : apart L → c ∈ L → d ∈ L → c ≠ d → disj c d.
Proof.
  induction L as [|e L IH]; [by intros _ ?%elem_of_nil|].
  intros [H1 H2] [->|Hc]%elem_of_cons [->|Hd]%elem_of_cons Hne; [done| | |auto].
  - rewrite Forall_forall in H1. auto.
  - rewrite Forall_forall in H1. apply disj_sym. auto.
Qed.

(** Splitting a block in two keeps everything disjoint. *)
Lemma apart_split a s t L :
  0 ≤ t ≤ s → apart (mkChunk a s :: L) →
  apart (mkChunk a t :: mkChunk (a + t) (s - t) :: L).
Proof.
  intros Ht [H1 H2]. simpl. rewrite Forall_cons. unfold disj, cend in *. simpl in *.
  split_and!; [lia| | |done]; eapply Forall_impl; [exact H1| |exact H1|];
    intros d Hd; simpl in *; lia.
Qed.

#[global] Arguments apart : simpl never.

Lemma tagged_agree m m' f c :
  32 ≤ csize c → agree m m' (addr c) (addr c + 16) → agree m m' (cend c - 16) (cend c) →
  tagged m f c → tagged m' f c.
Proof.
  unfold tagged, cend. intros Hs H1 H2 (Ha & Hb & Hc & Hd).
  split_and!; (erewrite <-load_agree; [eassumption|]).
  1,2: (eapply agree_sub; [exact H1|simpl; lia|simpl; lia]).
  all: (eapply agree_sub; [exact H2|simpl; lia|simpl; lia]).
Qed.

(** ** Doubly linked lists *)

Definition first_node (L : list chunk) (d : Z) : Z :=
  match L with [] => d | c :: _ => node c end.

Fixpoint last_node (L : list chunk) (d : Z) : Z :=
  match L with [] => d | c :: L' => last_node L' (node c) end.

(** The nodes of [L] are linked in order; the first one points back to [pv]
    and the last one forward to [nx]. *)
Fixpoint dll (m : mem) (pv : Z) (L : list chunk) (nx : Z) : Prop :=
  match L with
  | [] => True
  | c :: L' =>
    load 8 (node c) m = Some (first_node L' nx) ∧
    load 8 (node c + 8) m = Some pv ∧ dll m (node c) L' nx
  end.

Lemma dll_cons m pv c L nx :
  dll m pv (c :: L) nx ↔
  load 8 (node c) m = Some (first_node L nx) ∧
  load 8 (node c + 8) m = Some pv ∧ dll m (node c) L nx.
Proof. done. Qed.

Lemma first_node_app L K d : first_node (L ++ K) d = first_node L (first_node K d).
Proof. by destruct L. Qed.

Lemma last_node_app L K d : last_node (L ++ K) d = last_node K (last_node L d).
Proof. revert d. induction L as [|c L IH]; intros d; simpl; auto. Qed.

Lemma dll_app m pv L K nx :
  dll m pv (L ++ K) nx ↔ dll m pv L (first_node K nx) ∧ dll m (last_node L pv) K nx.
Proof.
  revert pv. induction L as [|c L IH]; intros pv; simpl; [tauto|].
  rewrite IH, first_node_app. tauto.
Qed.

#[global] Arguments dll : simpl never.

(** Only link fields of the blocks in [K] differ between [m] and [m']. *)
Definition node_frame (K : list chunk) (m m' : mem) : Prop :=
  grows m m' ∧
  ∀ a, (∀ c, c ∈ K → a < node c ∨ node c + 16 ≤ a) → m' !! a = m !! a.

Lemma node_frame_refl K m : node_frame K m m.
Proof. done. Qed.

Lemma node_frame_trans K m1 m2 m3 :
  node_frame K m1 m2 → node_frame K m2 m3 → node_frame K m1 m3.
Proof.
  intros [G1 H1] [G2 H2]. split; [by etrans|].
  intros a Ha. rewrite H2 by done. by apply H1.
Qed.

Lemma node_frame_mono K K' m m' : K ⊆ K' → node_frame K m m' → node_frame K' m m'.
Proof. intros HK [G H]. split; [done|]. intros a Ha. apply H. intros c Hc. auto. Qed.

Lemma node_frame_put K c m o v :
  c ∈ K → 0 ≤ o ≤ 8 → node_frame K m (put 8 (node c + o) v m).
Proof.
  intros Hc Ho. split; [apply put_grows|]. intros a Ha.
  specialize (Ha c Hc). apply put_out. simpl. lia.
Qed.

(** A link field is inside its block and away from both tags. *)
Lemma node_frame_agree_body K m m' c :
  node_frame K m m' → Forall (λ d, 48 ≤ csize d) K → Forall (disj c) K →
  agree m m' (addr c) (cend c).
Proof.
  intros [_ H] Hs Hd a Ha. symmetry. apply H. intros d HdK.
  rewrite Forall_forall in Hs, Hd. specialize (Hs d HdK). specialize (Hd d HdK).
  unfold disj, cend, node, sizeof_ObjHeader in *. lia.
Qed.

Lemma node_frame_agree_tags K m m' c lo hi :
  node_frame K m m' → Forall (λ d, 48 ≤ csize d) K → apart K → c ∈ K →
  (lo = addr c ∧ hi = addr c + 16 ∨ lo = cend c - 16 ∧ hi = cend c) →
  agree m m' lo hi.
Proof.
  intros [_ H] Hs Hap Hc Hlo a Ha. symmetry. apply H. intros d Hd.
  rewrite Forall_forall in Hs. pose proof (Hs c Hc). pose proof (Hs d Hd).
  destruct (decide (c = d)) as [<-|Hne].
  - unfold cend, node, sizeof_ObjHeader in *. lia.
  - pose proof (apart_disj K c d Hap Hc Hd Hne).
    unfold disj, cend, node, sizeof_ObjHeader in *. lia.
Qed.

(** Tags of every block, linked or not, survive link updates. *)
Lemma tagged_node_frame K m m' f c :
  node_frame K m m' → Forall (λ d, 48 ≤ csize d) K → apart K → c ∈ K →
  tagged m f c → tagged m' f c.
Proof.
  intros HF Hs Hap Hc. pose proof Hs as Hs'. rewrite Forall_forall in Hs'.
  apply tagged_agree.
  - specialize (Hs' c Hc). simpl in *. lia.
  - eapply node_frame_agree_tags; eauto.
  - eapply node_frame_agree_tags; eauto.
Qed.

Lemma dll_agree m m' pv L nx :
  (∀ c, c ∈ L → agree m m' (node c) (node c + 16)) → dll m pv L nx → dll m' pv L nx.
Proof.
  revert pv. induction L as [|c L IH]; intros pv Hag; [done|].
  rewrite !dll_cons. intros (H1 & H2 & H3).
  assert (Hc : agree m m' (node c) (node c + 16)) by (apply Hag; left).
  split_and!.
  - rewrite <-H1. symmetry. apply load_agree. eapply agree_sub; [done|lia|lia].
  - rewrite <-H2. symmetry. apply load_agree. eapply agree_sub; [done|lia|lia].
  - apply IH; [|done]. intros d Hd. apply Hag. by right.
Qed.

(** Link updates in other blocks do not disturb a list. *)
Lemma dll_node_frame K m m' pv L nx :
  node_frame K m m' → Forall (λ d, 48 ≤ csize d) (K ++ L) → apart (K ++ L) →
  dll m pv L nx → dll m' pv L nx.
Proof.
  intros HF Hs Hap. apply dll_agree. intros c Hc.
  apply Forall_app in Hs as [HsK HsL]. apply apart_app in Hap as (_ & _ & HKL).
  rewrite Forall_forall in HsL. specialize (HsL c Hc). simpl in HsL.
  eapply agree_sub; [eapply (node_frame_agree_body K m m' c); [done|done|]| |].
  - rewrite Forall_forall in HKL |- *. intros d Hd. apply disj_sym.
    specialize (HKL d Hd). rewrite Forall_forall in HKL. auto.
  - unfold node, sizeof_ObjHeader. lia.
  - unfold node, cend, sizeof_ObjHeader. lia.
Qed.

(** ** Updating one link *)

(** Disjoint blocks that are large enough to be linked. *)
Definition good (L : list chunk) : Prop := Forall (λ c, 48 ≤ csize c) L ∧ apart L.

Lemma good_sub L K : L ⊆+ K → good K → good L.
Proof.
  intros [J HJ]%submseteq_Permutation [H1 H2].
  rewrite HJ in H1, H2. apply Forall_app in H1 as [? _]. apply apart_app in H2 as [? _].
  done.
Qed.

(** Shows [good L] from a hypothesis [good K] where [L] is a part of [K]. *)
Ltac good_from := eapply good_sub; [|eassumption]; solve_submseteq.

Section links.
Context (m : mem).

Lemma dll_set_next pv L d x v :
  good (L ++ [d]) → 0 ≤ v < 2 ^ 64 →
  dll m pv (L ++ [d]) x → dll (put 8 (node d) v m) pv (L ++ [d]) v.
Proof.
  intros [Hs Hap] Hv. rewrite !dll_app. rewrite !dll_cons. simpl.
  intros (H1 & H2 & H3 & _). split_and!.
  - eapply (dll_node_frame [d]); [| | |done].
    + rewrite <-(Z.add_0_r (node d)). apply node_frame_put; [left|lia].
    + by rewrite Permutation_app_comm.
    + by rewrite Permutation_app_comm.
  - by rewrite load8_put8.
  - by rewrite load_put_ne by (simpl; lia).
  - done.
Qed.

Lemma dll_set_prev pv L d x v :
  good (d :: L) → 0 ≤ v < 2 ^ 64 →
  dll m pv (d :: L) x → dll (put 8 (node d + 8) v m) v (d :: L) x.
Proof.
  intros [Hs Hap] Hv. rewrite !dll_cons. intros (H1 & H2 & H3). split_and!.
  - by rewrite load_put_ne by (simpl; lia).
  - by rewrite load8_put8.
  - eapply (dll_node_frame [d]); [|done..]. apply node_frame_put; [left|lia].
Qed.

(** Writing a link of a block outside the list. *)
Lemma dll_put_prev_out pv L d x v :
  good (d :: L) → dll m pv L x → dll (put 8 (node d + 8) v m) pv L x.
Proof.
  intros [Hs Hap]. apply (dll_node_frame [d]); [|done..].
  apply node_frame_put; [left|lia].
Qed.

Lemma dll_put_next_out pv L d x v :
  good (d :: L) → dll m pv L x → dll (put 8 (node d) v m) pv L x.
Proof.
  intros [Hs Hap]. apply (dll_node_frame [d]); [|done..].
  rewrite <-(Z.add_0_r (node d)). apply node_frame_put; [left|lia].
Qed.
End links.

(** The link fields of two disjoint blocks are apart. *)
Lemma good_far c d : good [c; d] → node c + 16 ≤ node d ∨ node d + 16 ≤ node c.
Proof.
  intros [Hs [Hd _]]. rewrite !Forall_cons in Hs. rewrite !Forall_cons in Hd.
  unfold disj, cend, node, sizeof_ObjHeader in *. lia.
Qed.
Ltac far c d :=
  let H := fresh "Hfar" in
  assert (H : node c + 16 ≤ node d ∨ node d + 16 ≤ node c) by (apply good_far; good_from).

Lemma node_frame_next K c m m' v :
  c ∈ K → node_frame K m m' → node_frame K m (put 8 (node c) v m').
Proof.
  intros. eapply node_frame_trans; [done|].
  rewrite <-(Z.add_0_r (node c)). apply node_frame_put; [done|lia].
Qed.

Lemma node_frame_prev K c m m' v :
  c ∈ K → node_frame K m m' → node_frame K m (put 8 (node c + 8) v m').
Proof. intros. eapply node_frame_trans; [done|]. apply node_frame_put; [done|lia]. Qed.

(** ** Monadic accesses on valid blocks *)

Lemma cvalid_grows m m' c : grows m m' → cvalid m c → cvalid m' c.
Proof. intros Hg (?&?&?&?). split_and!; eauto using mapped_grows. all: lia. Qed.

Lemma cvalid_node c m : cvalid m c → 0 < node c < 2 ^ 64.
Proof. unfold cvalid, cend, node, sizeof_ObjHeader. lia. Qed.

Lemma cvalid_size c m : cvalid m c → 48 ≤ csize c.
Proof. unfold cvalid. lia. Qed.

Lemma rd_ok n a h m v : load n a m = Some v → rd n a (mkFL h m) = Ok v (mkFL h m).
Proof. unfold rd. simpl. by intros ->. Qed.

Lemma wr_ok n a v h m :
  mapped m a (a + Z.of_nat n) → wr n a v (mkFL h m) = Ok tt (mkFL h (put n a v m)).
Proof. intros H. unfold wr. simpl. by rewrite mappedb_true. Qed.

Lemma node_mapped m c o : cvalid m c → 0 ≤ o ≤ 8 →
  mapped m (node c + o) (node c + o + Z.of_nat 8).
Proof.
  intros (?&?&?&Hm) Ho. eapply mapped_sub; [done| |];
    unfold node, cend, sizeof_ObjHeader in *; simpl in *; lia.
Qed.

Lemma get_next_ok h m c x :
  load 8 (node c) m = Some x → get_next (node c) (mkFL h m) = Ok x (mkFL h m).
Proof. intros H. apply rd_ok. unfold off_next. by rewrite Z.add_0_r. Qed.

Lemma get_prev_ok h m c x :
  load 8 (node c + 8) m = Some x → get_prev (node c) (mkFL h m) = Ok x (mkFL h m).
Proof. intros H. by apply rd_ok. Qed.

Lemma set_next_ok h m c v :
  cvalid m c → set_next (node c) v (mkFL h m) = Ok tt (mkFL h (put 8 (node c) v m)).
Proof.
  intros H. unfold set_next, off_next. rewrite Z.add_0_r. apply wr_ok.
  pose proof (node_mapped m c 0 H). rewrite Z.add_0_r in *. apply H0. lia.
Qed.

Lemma set_prev_ok h m c v :
  cvalid m c → set_prev (node c) v (mkFL h m) = Ok tt (mkFL h (put 8 (node c + 8) v m)).
Proof. intros H. apply wr_ok. apply node_mapped; [done|lia]. Qed.

Lemma getFreeNodeSize_ok h m c f :
  tagged m f c → getFreeNodeSize (node c) (mkFL h m) = Ok (csize c) (mkFL h m).
Proof.
  intros (_ & H & _). apply rd_ok. unfold node, sizeof_ObjHeader, off_objectSize.
  by replace (addr c + 16 - 16 + 8) with (addr c + 8) by lia.
Qed.

Lemma get_head_ok h m k i p :
  h !! k = Some p → i = Z.of_nat k → get_head i (mkFL h m) = Ok p (mkFL h m).
Proof. intros H ->. unfold get_head. simpl. by rewrite Nat2Z.id, H. Qed.

Lemma set_head_ok h m k i p :
  i = Z.of_nat k → set_head i p (mkFL h m) = Ok tt (mkFL (<[k := p]> h) m).
Proof. intros ->. unfold set_head. simpl. by rewrite Nat2Z.id. Qed.


(** Runs the next command of a monadic goal with the lemma [L]. *)
Create HintDb fldb.
#[export] Hint Resolve cvalid_grows put_grows : fldb.
Ltac mside :=
  first [eassumption | reflexivity | lia | solve [unfold fuel_of; simpl; lia]
        | solve [eauto 8 with fldb]].
Ltac mrun L := erewrite bind_ok by (eapply L; mside); cbv beta match.

(** ** Traversals *)

(** The prefix of blocks smaller than [sz], and the rest. *)
Fixpoint take_small (sz : Z) (L : list chunk) : list chunk :=
  match L with
  | [] => []
  | c :: L' => if sz <=? csize c then [] else c :: take_small sz L'
  end.

Fixpoint drop_small (sz : Z) (L : list chunk) : list chunk :=
  match L with
  | [] => []
  | c :: L' => if sz <=? csize c then L else drop_small sz L'
  end.

Lemma take_drop_small sz L : take_small sz L ++ drop_small sz L = L.
Proof. induction L as [|c L IH]; simpl; [done|]. case_match; simpl; congruence. Qed.

Lemma take_small_lt sz L : Forall (λ c, csize c < sz) (take_small sz L).
Proof. induction L as [|c L IH]; simpl; [done|]. case_match; constructor; [lia|done]. Qed.

Lemma drop_small_head sz L c R : drop_small sz L = c :: R → sz ≤ csize c.
Proof. induction L as [|d L IH]; simpl; [done|]. case_match; intros; simplify_eq; [lia|auto]. Qed.

Lemma insert_walk_spec m h sz L fuel pv :
  (length L < fuel)%nat → dll m pv L 0 →
  Forall (cvalid m) L → Forall (tagged m ObjFree) L →
  insert_walk fuel sz (first_node L 0) pv (mkFL h m) =
  Ok (first_node (drop_small sz L) 0, last_node (take_small sz L) pv) (mkFL h m).
Proof.
  revert fuel pv. induction L as [|c L IH]; intros fuel pv Hf Hd Hv Ht.
  - destruct fuel; simpl in *; [lia|done].
  - destruct fuel as [|fuel]; simpl in Hf; [lia|].
    apply Forall_cons in Hv as [Hv Hvs]. apply Forall_cons in Ht as [Ht Hts].
    destruct Hd as (Hn & Hp & Hd). simpl.
    pose proof (cvalid_node _ _ Hv).
    destruct (Z.eqb_spec (node c) NULL) as [E|_]; [unfold NULL in E; lia|].
    mrun getFreeNodeSize_ok.
    destruct (sz <=? csize c); [done|].
    mrun get_next_ok. rewrite IH; [done|lia|done..].
Qed.

Lemma rm_walk_spec m h sz L fuel pv :
  (length L < fuel)%nat → dll m pv L 0 →
  Forall (cvalid m) L → Forall (tagged m ObjFree) L →
  rm_walk fuel sz (first_node L 0) (mkFL h m) =
  Ok (first_node (drop_small sz L) 0) (mkFL h m).
Proof.
  revert fuel pv. induction L as [|c L IH]; intros fuel pv Hf Hd Hv Ht.
  - destruct fuel; simpl in *; [lia|done].
  - destruct fuel as [|fuel]; simpl in Hf; [lia|].
    apply Forall_cons in Hv as [Hv Hvs]. apply Forall_cons in Ht as [Ht Hts].
    destruct Hd as (Hn & Hp & Hd). simpl.
    pose proof (cvalid_node _ _ Hv).
    destruct (Z.eqb_spec (node c) NULL) as [E|_]; [unfold NULL in E; lia|].
    mrun getFreeNodeSize_ok.
    destruct (sz <=? csize c); [done|].
    mrun get_next_ok. eapply IH; [lia|done..].
Qed.

(** The fuel of the traversals is enough: disjoint mapped blocks are at most
    as many as the mapped bytes. *)
Lemma length_le_size m L : apart L → Forall (cvalid m) L → (length L ≤ size m)%nat.
Proof.
  intros Hap Hv. rewrite <-(length_fmap addr), <-(size_dom m).
  unfold size, set_size. simpl. apply submseteq_length, NoDup_submseteq.
  - induction L as [|c L IH]; [constructor|].
    apply Forall_cons in Hv as [Hc Hv]. destruct Hap as [Hd Hap].
    simpl. constructor; [|auto]. intros (d & Heq & Hin)%list_elem_of_fmap.
    rewrite Forall_forall in Hd, Hv. specialize (Hd d Hin). specialize (Hv d Hin).
    unfold disj, cvalid, cend in *. lia.
  - intros a (c & -> & Hin)%list_elem_of_fmap. rewrite Forall_forall in Hv.
    destruct (Hv c Hin) as (?&?&?&Hm). apply elem_of_elements, elem_of_dom, Hm.
    unfold cend. lia.
Qed.

(** ** The abstract free lists *)

(** Index of the class for blocks of unbounded size. *)
Definition last_class : nat := 64.

Definition size_le (c d : chunk) : Prop := csize c ≤ csize d.

(** Blocks that may sit in class [i] when classes are [u] bytes apart. *)
Definition in_class (u : Z) (i : nat) (c : chunk) : Prop :=
  if decide (i = last_class) then u * 64 ≤ csize c
  else u * Z.of_nat i ≤ csize c < u * (Z.of_nat i + 1).

Definition class_ok (u : Z) (i : nat) (L : list chunk) : Prop :=
  Forall (in_class u i) L ∧ (i = last_class → Sorted size_le L).

(** The class [insertFreeBlock] puts a block of [sz] bytes in. *)
Definition class_of (u sz : Z) : nat := Z.to_nat (Z.min 64 (sz / u)).

(** Insertion in one list: at the front, or in increasing order of size in
    the last class. *)
Definition ins (k : nat) (c : chunk) (L : list chunk) : list chunk :=
  if decide (k = last_class)
  then take_small (csize c) L ++ c :: drop_small (csize c) L
  else c :: L.

Definition fl_insert (k : nat) (c : chunk) (F : list (list chunk)) : list (list chunk) :=
  match F !! k with None => F | Some L => <[k := ins k c L]> F end.

(** Removal from one list: the first block, or the first one of at least
    [sz] bytes in the last class. *)
Definition rem (k : nat) (sz : Z) (L : list chunk) : option (chunk * list chunk) :=
  if decide (k = last_class) then
    match drop_small sz L with [] => None | c :: R => Some (c, take_small sz L ++ R) end
  else match L with [] => None | c :: R => Some (c, R) end.

Definition fl_remove (k : nat) (sz : Z) (F : list (list chunk)) :
    option (chunk * list (list chunk)) :=
  match F !! k with
  | None => None
  | Some L =>
    match rem k sz L with None => None | Some (c, R) => Some (c, <[k := R]> F) end
  end.

Record fl_rep (u : Z) (h : list Z) (m : mem) (F : list (list chunk)) : Prop := {
  fr_heads : length h = 65%nat;
  fr_lists : length F = 65%nat;
  fr_class i L : F !! i = Some L →
    h !! i = Some (first_node L 0) ∧ dll m 0 L 0 ∧ class_ok u i L;
  fr_valid : Forall (cvalid m) (concat F);
  fr_free : Forall (tagged m ObjFree) (concat F);
  fr_apart : apart (concat F);
}.

Lemma concat_alter_perm (F : list (list chunk)) k L :
  F !! k = Some L →
  ∃ K, concat F ≡ₚ L ++ K ∧ ∀ L', concat (<[k := L']> F) ≡ₚ L' ++ K.
Proof.
  revert k. induction F as [|L0 F IH]; intros [|k] HL; simplify_eq/=.
  - exists (concat F). by split.
  - destruct (IH k HL) as (K & H1 & H2). exists (L0 ++ K). split.
    + rewrite H1. solve_Permutation.
    + intros L'. rewrite H2. solve_Permutation.
Qed.

Lemma elem_of_concat {A} (x : A) ls : x ∈ concat ls ↔ ∃ l, x ∈ l ∧ l ∈ ls.
Proof.
  rewrite list_elem_of_In, in_concat. setoid_rewrite list_elem_of_In.
  split; intros (l & ? & ?); eauto.
Qed.

Lemma ins_perm k c L : ins k c L ≡ₚ c :: L.
Proof.
  unfold ins. case_decide; [|done].
  rewrite <-Permutation_middle, take_drop_small. done.
Qed.

Lemma rem_perm k sz L c R : rem k sz L = Some (c, R) → L ≡ₚ c :: R.
Proof.
  unfold rem. case_decide.
  - rewrite <-(take_drop_small sz L) at 2. case_match; [done|].
    intros. simplify_eq. by rewrite Permutation_middle.
  - case_match; intros; by simplify_eq.
Qed.

Lemma fl_insert_perm k c F :
  (k < length F)%nat → concat (fl_insert k c F) ≡ₚ c :: concat F.
Proof.
  intros [L HL]%lookup_lt_is_Some. destruct (concat_alter_perm F k L HL) as (K & H1 & H2).
  unfold fl_insert. by rewrite HL, H2, H1, ins_perm.
Qed.

Lemma fl_remove_perm k sz F c F' :
  fl_remove k sz F = Some (c, F') → concat F ≡ₚ c :: concat F'.
Proof.
  unfold fl_remove. destruct (F !! k) as [L|] eqn:HL; [|done].
  destruct (rem k sz L) as [[d R]|] eqn:HR; [|done]. intros [= <- <-].
  destruct (concat_alter_perm F k L HL) as (K & H1 & H2).
  by rewrite H1, H2, (rem_perm _ _ _ _ _ HR).
Qed.

(** ** Class conditions *)

Lemma Sorted_ins c L :
  Sorted size_le L → Sorted size_le (take_small (csize c) L ++ c :: drop_small (csize c) L).
Proof.
  induction L as [|d L IH]; intros Hs; simpl; [by repeat constructor|].
  destruct (Z.leb_spec (csize c) (csize d)); simpl.
  - constructor; [done|]. by constructor.
  - apply Sorted_inv in Hs as [Hs Hd]. constructor; [auto|].
    destruct L as [|e L]; simpl; [constructor; unfold size_le; lia|].
    case_match; simpl; constructor; unfold size_le; [lia|].
    by apply HdRel_inv in Hd.
Qed.

Lemma Sorted_rem c L R : Sorted size_le (L ++ c :: R) → Sorted size_le (L ++ R).
Proof.
  intros Hs. apply Sorted_StronglySorted in Hs; [|intros x y z; unfold size_le; lia].
  apply StronglySorted_Sorted. induction L as [|d L IH]; simpl in *.
  - by apply StronglySorted_inv in Hs as [? _].
  - apply StronglySorted_inv in Hs as [Hs Hd]. constructor; [auto|].
    apply Forall_app in Hd as [H1 H2]. apply Forall_cons in H2 as [_ H2].
    by apply Forall_app.
Qed.

Lemma class_ok_ins u k c L : in_class u k c → class_ok u k L → class_ok u k (ins k c L).
Proof.
  intros Hc [HL Hs]. split.
  - rewrite ins_perm. by constructor.
  - intros ->. unfold ins. rewrite decide_True by done. auto using Sorted_ins.
Qed.

Lemma class_ok_rem u k sz c L R :
  rem k sz L = Some (c, R) → class_ok u k L → in_class u k c ∧ class_ok u k R.
Proof.
  intros Hr [HL Hs]. rewrite (rem_perm _ _ _ _ _ Hr), Forall_cons in HL.
  destruct HL as [Hc HR]. split; [done|split; [done|]].
  intros ->. unfold rem in Hr. rewrite decide_True in Hr by done.
  specialize (Hs eq_refl). rewrite <-(take_drop_small sz L) in Hs.
  destruct (drop_small sz L) as [|d R'] eqn:E; simplify_eq.
  eauto using Sorted_rem.
Qed.

Lemma class_of_in u sz c :
  0 < u → 0 ≤ sz → csize c = sz → in_class u (class_of u sz) c.
Proof.
  intros Hu Hsz Hc. unfold in_class, class_of, last_class.
  pose proof (Z.div_mod sz u). pose proof (Z.mod_pos_bound sz u).
  assert (0 ≤ sz / u) by (apply Z.div_pos; lia).
  case_decide as Hd.
  - assert (64 ≤ sz / u) by lia. nia.
  - rewrite Z2Nat.id by lia. rewrite Z.min_r by lia. nia.
Qed.

Lemma class_of_le u sz : (class_of u sz ≤ last_class)%nat.
Proof. unfold class_of, last_class. lia. Qed.

(** ** Re-establishing the representation after one list changed *)

Lemma fl_rep_update u h m F k L L' N K m' :
  fl_rep u h m F → F !! k = Some L →
  concat F ≡ₚ L ++ K → (∀ J, concat (<[k := J]> F) ≡ₚ J ++ K) →
  node_frame N m m' → apart (N ++ K) → Forall (λ d, 48 ≤ csize d) N → L' ⊆ N →
  dll m' 0 L' 0 → class_ok u k L' → apart L' →
  Forall (cvalid m) L' → Forall (tagged m ObjFree) L' →
  fl_rep u (<[k := first_node L' 0]> h) m' (<[k := L']> F).
Proof.
  intros Hrep HL HK HK' HF Hap HN HLN Hd Hc HapL Hv Ht.
  destruct Hrep as [Hh Hl Hcl HvF HtF HapF].
  rewrite HK in HvF, HtF, HapF.
  apply Forall_app in HvF as [_ HvK]. apply Forall_app in HtF as [_ HtK].
  assert (HKs : Forall (λ d, 48 ≤ csize d) K)
    by (eapply Forall_impl; [exact HvK|]; intros; by eapply cvalid_size).
  assert (HNK : Forall (λ d, 48 ≤ csize d) (N ++ K)) by (by apply Forall_app).
  pose proof (lookup_lt_Some _ _ _ HL) as Hlt.
  assert (HF' : node_frame (N ++ K) m m') by (eapply node_frame_mono; [|done]; intros ??; apply elem_of_app; auto).
  split.
  - by rewrite length_insert.
  - by rewrite length_insert.
  - intros i J HJ. destruct (decide (i = k)) as [->|Hne].
    + rewrite list_lookup_insert_eq in HJ by done. simplify_eq.
      rewrite list_lookup_insert_eq by lia. done.
    + rewrite list_lookup_insert_ne in HJ by done.
      rewrite list_lookup_insert_ne by done.
      destruct (Hcl i J HJ) as (H1 & H2 & H3). split_and!; [done| |done].
      assert (HJK : J ⊆ K).
      { intros d Hd'. assert (Hin : d ∈ concat (<[k := []]> F)).
        { apply elem_of_concat. exists J. split; [done|].
          apply list_elem_of_lookup. exists i. by rewrite list_lookup_insert_ne. }
        rewrite HK' in Hin. done. }
      apply (dll_agree m); [|done]. intros d Hd'.
      eapply agree_sub; [eapply (node_frame_agree_body N); [done|done|]| |].
      * apply apart_app in Hap as (_ & _ & Hap). rewrite Forall_forall in Hap |- *.
        intros e He. apply disj_sym. specialize (Hap e He).
        rewrite Forall_forall in Hap. apply Hap, HJK, Hd'.
      * unfold node, sizeof_ObjHeader. lia.
      * rewrite Forall_forall in HKs. specialize (HKs d (HJK d Hd')).
        unfold node, cend, sizeof_ObjHeader. simpl in *. lia.
  - rewrite HK'. apply Forall_app. destruct HF as [HG _].
    split; [eapply Forall_impl; [exact Hv|]|eapply Forall_impl; [exact HvK|]];
      intros; by eapply cvalid_grows.
  - rewrite HK'. rewrite Forall_forall. intros d Hd'.
    eapply (tagged_node_frame (N ++ K)); [done|done|done| |].
    + apply elem_of_app in Hd' as [Hd'|Hd']; apply elem_of_app; [left; by apply HLN|by right].
    + rewrite Forall_forall in Ht, HtK. apply elem_of_app in Hd' as [?|?]; auto.
  - rewrite HK'. apply apart_app in Hap as (_ & HapK & HNK').
    apply apart_app. split_and!; [done|done|].
    rewrite Forall_forall in HNK' |- *. intros d Hd'. apply HNK', HLN, Hd'.
Qed.

(** ** Correctness of insertFreeBlock *)

(** Discharges membership of a block in an explicit list. *)
Ltac in_list := repeat first [rewrite elem_of_cons | rewrite elem_of_app]; tauto.

(** The front insertion used for every class but a non-empty last one. *)
Lemma push_front_run h m c L k :
  (k < 65)%nat → good (c :: L) → cvalid m c → Forall (cvalid m) L → dll m 0 L 0 →
  ∃ m',
    (set_next (node c) (first_node L 0);;
     (if negb (first_node L 0 =? NULL) then set_prev (first_node L 0) (node c) else mret tt);;
     set_prev (node c) NULL;;
     set_head (Z.of_nat k) (node c);;
     mret true) (mkFL h m) = Ok true (mkFL (<[k := node c]> h) m') ∧
    dll m' 0 (c :: L) 0 ∧ node_frame (c :: L) m m'.
Proof.
  intros Hk Hg Hc HL Hd. pose proof (cvalid_node _ _ Hc) as Hn.
  mrun set_next_ok. destruct L as [|d L]; simpl.
  - mrun (@ret_ok FL unit). mrun set_prev_ok.
    mrun set_head_ok. eexists. split; [done|]. split; [apply dll_cons; split_and!|]; [| |done|].
    + rewrite load_put_ne by (simpl; lia). apply load8_put8; simpl; unfold NULL; lia.
    + apply load8_put8; simpl; unfold NULL; lia.
    + apply node_frame_prev; [left|]. apply node_frame_next; [left|]. apply node_frame_refl.
  - apply Forall_cons in HL as [Hvd HL]. pose proof (cvalid_node _ _ Hvd) as Hnd.
    destruct (Z.eqb_spec (node d) NULL) as [E|_]; [unfold NULL in E; lia|]. simpl.
    mrun set_prev_ok.
    mrun set_prev_ok.
    mrun set_head_ok. eexists. split; [done|]. split.
    + apply dll_cons. split_and!.
      * rewrite load_put_ne by (simpl; lia).
        far c d. rewrite load_put_ne by (simpl; lia). apply load8_put8; simpl; unfold NULL; lia.
      * apply load8_put8; simpl; unfold NULL; lia.
      * apply dll_put_prev_out; [done|]. eapply dll_set_prev; [good_from|lia|].
        apply dll_put_next_out; done.
    + repeat (apply node_frame_prev; [in_list|]).
      apply node_frame_next; [in_list|]. apply node_frame_refl.
Qed.

(** Turns an equality test of a block's address with [NULL] into [false]. *)
Ltac not_null :=
  match goal with
  | H : cvalid _ ?c |- context [node ?c =? NULL] =>
    destruct (Z.eqb_spec (node c) NULL) as [?E|_];
    [exfalso; pose proof (cvalid_node _ _ H); unfold NULL in *; lia|]
  end.

(** The three insertions in increasing order of size. *)
Lemma insert_sorted_run h m c L1 L2 k :
  h !! k = Some (first_node (L1 ++ L2) 0) → L1 ++ L2 ≠ [] →
  good (c :: L1 ++ L2) → cvalid m c → Forall (cvalid m) (L1 ++ L2) → dll m 0 (L1 ++ L2) 0 →
  ∃ m',
    (let iter := first_node L2 0 in
     let preiter := last_node L1 0 in
     if iter =? NULL then
       set_next preiter (node c);; set_prev (node c) preiter;; set_next (node c) NULL;; mret true
     else if preiter =? NULL then
       set_head (Z.of_nat k) (node c);; set_next (node c) iter;; set_prev (node c) NULL;;
       set_prev iter (node c);; mret true
     else
       set_next preiter (node c);; set_next (node c) iter;; set_prev iter (node c);;
       set_prev (node c) preiter;; mret true) (mkFL h m) =
    Ok true (mkFL (<[k := first_node (L1 ++ c :: L2) 0]> h) m') ∧
    dll m' 0 (L1 ++ c :: L2) 0 ∧ node_frame (c :: L1 ++ L2) m m'.
Proof.
  intros Hh Hne Hg Hc HL Hd. cbv zeta. pose proof (cvalid_node _ _ Hc) as Hnc.
  apply Forall_app in HL as [HL1 HL2]. apply dll_app in Hd as [Hd1 Hd2].
  destruct L1 as [|d L1 _] using rev_ind; [|clear Hne; rewrite last_node_app in *];
    destruct L2 as [|e L2]; [done|..]; simpl in *.
  - (* in front of everything *)
    apply Forall_cons in HL2 as [He HL2]. not_null. simpl.
    pose proof (cvalid_node _ _ He). far c e.
    mrun set_head_ok. mrun set_next_ok. mrun set_prev_ok. mrun set_prev_ok.
    eexists. split; [done|]. split.
    + apply dll_cons. split_and!.
      * do 2 rewrite load_put_ne by (simpl; lia). apply load8_put8; simpl; lia.
      * rewrite load_put_ne by (simpl; lia). apply load8_put8; simpl; unfold NULL; lia.
      * eapply dll_set_prev; [good_from|lia|].
        apply dll_put_prev_out; [done|]. apply dll_put_next_out; done.
    + do 2 (apply node_frame_prev; [in_list|]). apply node_frame_next; [in_list|].
      apply node_frame_refl.
  - (* at the end *)
    apply Forall_app in HL1 as [HL1 Hdv]. apply Forall_cons in Hdv as [Hdv _].
    pose proof (cvalid_node _ _ Hdv). far c d.
    mrun set_next_ok. mrun set_prev_ok. mrun set_next_ok.
    rewrite list_insert_id by (rewrite Hh, !first_node_app; done).
    eexists. split; [done|]. split.
    + apply dll_app. rewrite last_node_app. simpl. split.
      * do 2 (first [apply dll_put_prev_out; [good_from|] | apply dll_put_next_out; [good_from|]]).
        eapply dll_set_next; [good_from|lia|done].
      * apply dll_cons. split_and!; [..|done].
        -- apply load8_put8; simpl; unfold NULL; lia.
        -- rewrite load_put_ne by (simpl; lia). apply load8_put8; simpl; lia.
    + apply node_frame_next; [in_list|]. apply node_frame_prev; [in_list|].
      apply node_frame_next; [in_list|]. apply node_frame_refl.
  - (* between two nodes *)
    apply Forall_app in HL1 as [HL1 Hdv]. apply Forall_cons in Hdv as [Hdv _].
    apply Forall_cons in HL2 as [He HL2].
    pose proof (cvalid_node _ _ Hdv). pose proof (cvalid_node _ _ He).
    far c d. far c e. far d e. do 2 (not_null; simpl).
    mrun set_next_ok. mrun set_next_ok. mrun set_prev_ok. mrun set_prev_ok.
    rewrite list_insert_id by (rewrite Hh, !first_node_app; done).
    eexists. split; [done|]. split.
    + apply dll_app. rewrite last_node_app. simpl. split.
      * apply dll_put_prev_out; [good_from|]. apply dll_put_prev_out; [good_from|].
        apply dll_put_next_out; [good_from|]. eapply dll_set_next; [good_from|lia|done].
      * apply dll_cons. split_and!.
        -- do 2 rewrite load_put_ne by (simpl; lia). apply load8_put8; simpl; lia.
        -- apply load8_put8; simpl; lia.
        -- apply dll_put_prev_out; [good_from|]. eapply dll_set_prev; [good_from|lia|].
           apply dll_put_next_out; [good_from|]. apply dll_put_next_out; [good_from|done].
    + do 2 (apply node_frame_prev; [in_list|]). do 2 (apply node_frame_next; [in_list|]).
      apply node_frame_refl.
Qed.

Lemma good_of_valid m L : Forall (cvalid m) L → apart L → good L.
Proof.
  intros Hv Hap. split; [|done]. eapply Forall_impl; [exact Hv|].
  intros. by eapply cvalid_size.
Qed.

Lemma fl_rep_sizes u h m F : fl_rep u h m F → Forall (λ c, 48 ≤ csize c) (concat F).
Proof.
  intros [_ _ _ Hv _ _]. eapply Forall_impl; [exact Hv|]. intros. by eapply cvalid_size.
Qed.

(** What [fl_rep] says about one class, in the form the specs use. *)
Lemma fl_rep_class u h m F k :
  fl_rep u h m F → (k < 65)%nat →
  ∃ L K, F !! k = Some L ∧ h !! k = Some (first_node L 0) ∧ dll m 0 L 0 ∧ class_ok u k L ∧
    concat F ≡ₚ L ++ K ∧ (∀ J, concat (<[k := J]> F) ≡ₚ J ++ K) ∧
    Forall (cvalid m) L ∧ Forall (cvalid m) K ∧ Forall (tagged m ObjFree) L ∧
    apart L ∧ (length L ≤ size m)%nat.
Proof.
  intros Hr Hk. pose proof Hr as [Hh Hl Hcl Hv Ht Hap].
  destruct (lookup_lt_is_Some_2 F k) as [L HL]; [lia|].
  destruct (concat_alter_perm F k L HL) as (K & H1 & H2).
  destruct (Hcl k L HL) as (Hhd & Hd & Hc).
  rewrite H1 in Hv, Ht, Hap. apply Forall_app in Hv as [HvL HvK].
  apply Forall_app in Ht as [HtL _]. apply apart_app in Hap as (HapL & _ & _).
  exists L, K. split_and!; auto using length_le_size.
Qed.

Lemma insertFreeBlock_spec u h m F c pos k :
  fl_rep u h m F → 0 ≤ pos → k = Z.to_nat (Z.min 64 pos) → in_class u k c →
  cvalid m c → tagged m ObjFree c → apart (c :: concat F) →
  ∃ h' m', insertFreeBlock (node c) pos (mkFL h m) = Ok true (mkFL h' m') ∧
    fl_rep u h' m' (fl_insert k c F) ∧ node_frame (c :: concat F) m m'.
Proof.
  intros Hr Hpos Hk Hin Hc Ht Hap.
  destruct (fl_rep_class u h m F k) as
    (L & K & HL & Hhd & Hd & Hcl & HK & HK' & HvL & HvK & HtL & HapL & Hsz); [done|lia|].
  assert (HapLK : apart ((c :: L) ++ K)) by (by rewrite HK in Hap).
  assert (HapcL : apart (c :: L)) by (apply apart_app in HapLK; tauto).
  assert (Hg : good (c :: L)) by (eapply good_of_valid; [|done]; by constructor).
  assert (Hupd : ∀ m', node_frame (c :: L) m m' → dll m' 0 (ins k c L) 0 →
    fl_rep u (<[k := first_node (ins k c L) 0]> h) m' (fl_insert k c F)).
  { intros m' HF Hd'. unfold fl_insert. rewrite HL.
    eapply (fl_rep_update u h m F k L _ (c :: L)); try done.
    - apply Hg.
    - intros d. by rewrite ins_perm.
    - by apply class_ok_ins.
    - by rewrite ins_perm.
    - rewrite ins_perm. by constructor.
    - rewrite ins_perm. by constructor. }
  assert (Hfr : ∀ m', node_frame (c :: L) m m' → node_frame (c :: concat F) m m').
  { intros m'. apply node_frame_mono. intros d. rewrite HK, !elem_of_cons, elem_of_app. tauto. }
  unfold insertFreeBlock. destruct (Z.ltb_spec pos 0); [lia|].
  assert ((if NUMOFSIZECLASSES - 1 <? pos then NUMOFSIZECLASSES - 1 else pos) = Z.of_nat k)
    as -> by (unfold NUMOFSIZECLASSES; destruct (Z.ltb_spec (65 - 1) pos); lia).
  cbv zeta. mrun get_head_ok.
  destruct ((Z.of_nat k =? NUMOFSIZECLASSES - 1) && negb (first_node L 0 =? NULL)) eqn:Hb.
  - apply andb_true_iff in Hb as [Hk64 Hnn].
    assert (k = last_class) as Hlast
      by (apply Z.eqb_eq in Hk64; unfold last_class, NUMOFSIZECLASSES in *; lia).
    assert (Hne : L ≠ []) by (intros ->; by rewrite Z.eqb_refl in Hnn).
    mrun getFreeNodeSize_ok. mrun (@gets_ok FL nat).
    mrun insert_walk_spec.
    destruct (insert_sorted_run h m c (take_small (csize c) L) (drop_small (csize c) L) k)
      as (m' & Hrun & Hdll & HF); rewrite ?take_drop_small; try done.
    rewrite take_drop_small in HF.
    unfold ins in Hupd. rewrite decide_True in Hupd by done.
    eexists _, _. split; [exact Hrun|]. split; [auto|auto].
  - assert (Hins : ins k c L = c :: L).
    { unfold ins. case_decide as Hk64; [|done].
      assert (L = []) as ->; [|done]. destruct L as [|d L]; [done|].
      rewrite Hk64 in Hb. apply Forall_cons in HvL as [Hvd _].
      pose proof (cvalid_node _ _ Hvd). simpl in Hb.
      destruct (Z.eqb_spec (node d) NULL); [unfold NULL in *; lia|done]. }
    rewrite Hins in Hupd. mrun get_head_ok.
    destruct (push_front_run h m c L k) as (m' & Hrun & Hdll & HF); [lia|done..|].
    eexists _, _. split; [exact Hrun|]. split; auto.
Qed.

(** ** Correctness of rmFromFreeLs *)

(** Unlinking the first node of a list. *)
Lemma remove_front_run h m c L k :
  good (c :: L) → Forall (cvalid m) (c :: L) → dll m 0 (c :: L) 0 →
  ∃ m',
    (nx ← get_next (node c);
     set_head (Z.of_nat k) nx;;
     nx ← get_next (node c);
     (if negb (nx =? NULL) then set_prev nx NULL else mret tt);;
     mret (node c)) (mkFL h m) = Ok (node c) (mkFL (<[k := first_node L 0]> h) m') ∧
    dll m' 0 L 0 ∧ node_frame (c :: L) m m'.
Proof.
  intros Hg Hv (Hn & Hp & Hd)%dll_cons. apply Forall_cons in Hv as [Hc HL].
  mrun get_next_ok. mrun set_head_ok. mrun get_next_ok. destruct L as [|d L]; simpl.
  - mrun (@ret_ok FL unit). exists m. split_and!; auto using node_frame_refl.
  - apply Forall_cons in HL as [Hvd HL]. not_null. simpl. mrun set_prev_ok.
    eexists. split; [done|]. split.
    + eapply dll_set_prev; [good_from|done|done].
    + apply node_frame_prev; [in_list|]. apply node_frame_refl.
Qed.

(** Unlinking a node that has a predecessor. *)
Lemma remove_mid_run h m c d L1 L2 :
  good (L1 ++ d :: c :: L2) → Forall (cvalid m) (L1 ++ d :: c :: L2) →
  dll m 0 (L1 ++ d :: c :: L2) 0 →
  ∃ m',
    (pv ← get_prev (node c);
     nx ← get_next (node c);
     set_next pv nx;;
     nx ← get_next (node c);
     (if negb (nx =? NULL) then pv ← get_prev (node c); set_prev nx pv else mret tt);;
     mret (node c)) (mkFL h m) = Ok (node c) (mkFL h m') ∧
    dll m' 0 (L1 ++ d :: L2) 0 ∧ node_frame (L1 ++ d :: c :: L2) m m'.
Proof.
  intros Hg Hv Hd. apply dll_app in Hd as [Hd1 Hd2].
  apply dll_cons in Hd2 as (Hdn & Hdp & Hd3). apply dll_cons in Hd3 as (Hcn & Hcp & Hd4).
  rewrite !Forall_app, !Forall_cons in Hv. destruct Hv as (Hv1 & Hvd & Hvc & Hv2).
  simpl in *. far c d. mrun get_prev_ok. mrun get_next_ok. mrun set_next_ok.
  set (m1 := put 8 (node d) (first_node L2 0) m) in *.
  assert (Hcn1 : load 8 (node c) m1 = Some (first_node L2 0))
    by (unfold m1; by rewrite load_put_ne by (simpl; lia)).
  assert (Hcp1 : load 8 (node c + 8) m1 = Some (node d))
    by (unfold m1; by rewrite load_put_ne by (simpl; lia)).
  assert (HF1 : node_frame (L1 ++ d :: c :: L2) m m1)
    by (apply node_frame_next; [in_list|apply node_frame_refl]).
  assert (H1 : ∀ pv, dll m pv L1 (node d) → load 8 (node d + 8) m = Some (last_node L1 pv) →
                dll m1 pv (L1 ++ [d]) (first_node L2 0)).
  { intros pv HL1 Hld. eapply dll_set_next; [good_from| |].
    - destruct L2 as [|e L2]; simpl; [lia|].
      apply Forall_cons in Hv2 as [Hve _]. pose proof (cvalid_node _ _ Hve). lia.
    - apply dll_app. split; [exact HL1|]. apply dll_cons. done. }
  specialize (H1 0 Hd1 Hdp).
  mrun get_next_ok. destruct L2 as [|e L2]; simpl in *.
  - mrun (@ret_ok FL unit). exists m1. split_and!; done.
  - apply Forall_cons in Hv2 as [Hve Hv2]. far d e. far c e. not_null. simpl.
    rewrite bind_bind. mrun get_prev_ok.
    erewrite bind_ok by (eapply set_prev_ok, cvalid_grows; [apply put_grows|exact Hve]).
    eexists. split; [done|]. split.
    + replace (L1 ++ d :: e :: L2) with ((L1 ++ [d]) ++ e :: L2) by (by rewrite <-app_assoc).
      apply dll_app. rewrite last_node_app. simpl. split.
      * apply dll_put_prev_out; [good_from|done].
      * eapply dll_set_prev; [good_from| |].
        -- pose proof (cvalid_node _ _ Hvd). lia.
        -- apply dll_put_next_out; [good_from|done].
    + apply node_frame_prev; [in_list|done].
Qed.

Lemma rem_tagged u h m F k sz c F' :
  fl_rep u h m F → fl_remove k sz F = Some (c, F') →
  cvalid m c ∧ tagged m ObjFree c ∧ apart (c :: concat F').
Proof.
  intros Hr Hp%fl_remove_perm. destruct Hr as [_ _ _ Hv Ht Hap].
  rewrite Hp in Hv, Ht, Hap. by inversion Hv; inversion Ht.
Qed.

Lemma first_node_ne T d c R : good (T ++ d :: c :: R) → node c ≠ first_node (T ++ d :: c :: R) 0.
Proof. intros Hg. destruct T as [|x T]; simpl in *; [far c d|far c x]; lia. Qed.

Lemma first_node_nonnull m L : Forall (cvalid m) L → L ≠ [] → (first_node L 0 =? NULL) = false.
Proof. intros HL Hne. destruct HL; [done|]. simpl. by not_null. Qed.

(** Best fit in the last class. *)
Lemma rm_last_run h m L sz k :
  good L → Forall (cvalid m) L → Forall (tagged m ObjFree) L → dll m 0 L 0 →
  h !! k = Some (first_node L 0) → (length L ≤ size m)%nat →
  let run := (
    fuel ← gets fuel_of;
    iter ← rm_walk fuel sz (first_node L 0);
    if iter =? NULL then mret NULL
    else if iter =? first_node L 0 then
      nx ← get_next iter;
      set_head (Z.of_nat k) nx;;
      nx ← get_next iter;
      (if negb (nx =? NULL) then set_prev nx NULL else mret tt);;
      mret iter
    else
      pv ← get_prev iter;
      nx ← get_next iter;
      set_next pv nx;;
      nx ← get_next iter;
      (if negb (nx =? NULL) then pv ← get_prev iter; set_prev nx pv else mret tt);;
      mret iter) in
  match rem last_class sz L with
  | None => run (mkFL h m) = Ok NULL (mkFL h m)
  | Some (c, R) =>
    ∃ m', run (mkFL h m) = Ok (node c) (mkFL (<[k := first_node R 0]> h) m') ∧
      dll m' 0 R 0 ∧ node_frame L m m'
  end.
Proof.
  intros Hg Hv Ht Hd Hh Hsz run. unfold run, rem. rewrite decide_True by done.
  erewrite bind_ok by (apply gets_ok). cbv beta.
  erewrite bind_ok by (eapply (rm_walk_spec m h sz L); [unfold fuel_of; simpl; lia|done..]).
  cbv beta. clear Ht Hsz run. pose proof (take_drop_small sz L) as HLL. revert HLL.
  generalize (take_small sz L) (drop_small sz L). intros T [|c R] <-; simpl; [done|].
  destruct T as [|d T _] using rev_ind; simpl in *.
  - assert (Hvc : cvalid m c) by (by apply Forall_cons in Hv as [? _]).
    not_null. rewrite Z.eqb_refl. by apply remove_front_run.
  - rewrite <-!app_assoc in *. simpl in *.
    assert (Hvc : cvalid m c) by (rewrite Forall_app, !Forall_cons in Hv; tauto).
    not_null. pose proof (first_node_ne T d c R Hg).
    destruct (Z.eqb_spec (node c) (first_node (T ++ d :: c :: R) 0)); [done|].
    destruct (remove_mid_run h m c d T R) as (m' & Hrun & Hd' & HF); [done..|].
    exists m'. split_and!; [|done..]. rewrite Hrun. do 2 f_equal.
    symmetry. apply list_insert_id. by rewrite Hh, !first_node_app.
Qed.

(** Specification of a removal, common to both cases. *)
Lemma rm_update u h m F k L sz c R m' :
  fl_rep u h m F → F !! k = Some L → rem k sz L = Some (c, R) →
  node_frame L m m' → dll m' 0 R 0 →
  fl_rep u (<[k := first_node R 0]> h) m' (<[k := R]> F) ∧
  node_frame (concat F) m m' ∧ in_class u k c.
Proof.
  intros Hr HL Hrem HF Hd'. pose proof (rem_perm _ _ _ _ _ Hrem) as HpL.
  destruct (fl_rep_class u h m F k) as
    (L' & K & HL' & Hhd & Hd & Hcl & HK & HK' & HvL & HvK & HtL & HapL & Hsz);
    [done|apply lookup_lt_Some in HL; destruct Hr; lia|]. simplify_eq.
  assert (HapLK : apart (L ++ K)) by (rewrite <-HK; apply Hr).
  assert (Hg : good L) by (by eapply good_of_valid).
  destruct (class_ok_rem u k sz c L R) as [Hin Hcl']; [done..|].
  split_and!; [|eapply node_frame_mono; [|done]; intros d; rewrite HK, elem_of_app; tauto|done].
  rewrite HpL in HapL, HvL, HtL.
  eapply (fl_rep_update u h m F k L R L); try done.
  - apply Hg.
  - intros d. rewrite HpL. by right.
  - apply HapL.
  - by apply Forall_cons in HvL as [_ ?].
  - by apply Forall_cons in HtL as [_ ?].
Qed.

Lemma rmFromFreeLs_spec u h m F pos sz k :
  fl_rep u h m F → 0 ≤ pos → k = Z.to_nat (Z.min 64 pos) →
  match fl_remove k sz F with
  | None => rmFromFreeLs pos sz (mkFL h m) = Ok NULL (mkFL h m)
  | Some (c, F') =>
    ∃ h' m', rmFromFreeLs pos sz (mkFL h m) = Ok (node c) (mkFL h' m') ∧
      fl_rep u h' m' F' ∧ node_frame (concat F) m m' ∧ in_class u k c
  end.
Proof.
  intros Hr Hpos Hk.
  destruct (fl_rep_class u h m F k) as
    (L & K & HL & Hhd & Hd & Hcl & HK & HK' & HvL & HvK & HtL & HapL & Hsz); [done|lia|].
  assert (Hg : good L) by (by eapply good_of_valid).
  unfold fl_remove. rewrite HL. unfold rmFromFreeLs. destruct (Z.ltb_spec pos 0); [lia|].
  assert ((if NUMOFSIZECLASSES - 1 <? pos then NUMOFSIZECLASSES - 1 else pos) = Z.of_nat k)
    as -> by (unfold NUMOFSIZECLASSES; destruct (Z.ltb_spec (65 - 1) pos); lia).
  cbv zeta. erewrite bind_ok by (eapply get_head_ok; done). cbv beta.
  destruct (decide (L = [])) as [->|Hne].
  { unfold rem. by destruct (decide (k = last_class)). }
  rewrite (first_node_nonnull m) by done. unfold NUMOFSIZECLASSES.
  destruct (Z.eqb_spec (Z.of_nat k) (65 - 1)) as [E|E].
  - assert (k = last_class) as Hlast by (unfold last_class; lia).
    pose proof (rm_last_run h m L sz k Hg HvL HtL Hd Hhd Hsz) as Hrun.
    rewrite <-Hlast in Hrun. cbv zeta in Hrun.
    destruct (rem k sz L) as [[c R]|] eqn:Hrem; [|exact Hrun].
    destruct Hrun as (m' & Hrun & Hd' & HF). eexists _, m'. split; [exact Hrun|].
    by eapply rm_update.
  - destruct L as [|c0 L0]; [done|].
    assert (Hrem : rem k sz (c0 :: L0) = Some (c0, L0))
      by (unfold rem; by rewrite decide_False by (unfold last_class; lia)).
    rewrite Hrem. destruct (remove_front_run h m c0 L0 k) as (m' & Hrun & Hd' & HF); [done..|].
    eexists _, m'. split; [exact Hrun|]. by eapply rm_update.
Qed.

(** ** Correctness of the traversals *)

(** Total size of some blocks. *)
Definition sizes (L : list chunk) : Z := zsum (csize <$> L).

Lemma sizes_cons c L : sizes (c :: L) = csize c + sizes L.
Proof. done. Qed.

Lemma sizes_app L K : sizes (L ++ K) = sizes L + sizes K.
Proof. unfold sizes. by rewrite fmap_app, zsum_app. Qed.

#[export] Instance sizes_perm : Proper ((≡ₚ) ==> (=)) sizes.
Proof. intros L K H. unfold sizes. by rewrite H. Qed.

#[global] Arguments sizes : simpl never.

Lemma sum_walk_spec m h L fuel pv acc :
  (length L < fuel)%nat → dll m pv L 0 → Forall (cvalid m) L → Forall (tagged m ObjFree) L →
  0 ≤ acc < 2 ^ 64 →
  sum_walk fuel (first_node L 0) acc (mkFL h m) = Ok (wrap64 (acc + sizes L)) (mkFL h m).
Proof.
  revert fuel pv acc. induction L as [|c L IH]; intros fuel pv acc Hf Hd Hv Ht Hacc;
    (destruct fuel as [|fuel]; simpl in Hf; [lia|]); simpl.
  - change (sizes []) with 0. by rewrite Z.add_0_r, wrap64_small.
  - apply Forall_cons in Hv as [Hv Hvs]. apply Forall_cons in Ht as [Ht Hts].
    apply dll_cons in Hd as (Hn & Hp & Hd). not_null.
    mrun getFreeNodeSize_ok. mrun get_next_ok.
    erewrite IH; [|lia|done..|apply wrap64_range].
    rewrite wrap64_add_l, sizes_cons. do 2 f_equal. lia.
Qed.

Lemma sum_classes_spec u h m F n i acc :
  fl_rep u h m F → (i + n = 65)%nat → 0 ≤ acc < 2 ^ 64 →
  sum_classes (Z.of_nat <$> seq i n) acc (mkFL h m) =
  Ok (wrap64 (acc + sizes (concat (drop i F)))) (mkFL h m).
Proof.
  intros Hr. revert i acc. induction n as [|n IH]; intros i acc Hi Hacc.
  - simpl. rewrite drop_ge by (destruct Hr; lia). change (sizes (concat [])) with 0.
    by rewrite Z.add_0_r, wrap64_small.
  - destruct (fl_rep_class u h m F i) as
      (L & K & HL & Hhd & Hd & _ & _ & _ & HvL & _ & HtL & _ & Hsz); [done|lia|].
    simpl. mrun get_head_ok. mrun (@gets_ok FL nat). mrun sum_walk_spec.
    rewrite IH; [|lia|apply wrap64_range].
    rewrite (drop_S F L i HL). simpl.
    rewrite wrap64_add_l, sizes_app. do 2 f_equal. lia.
Qed.

Lemma sumFreeListSize_ok u h m F :
  fl_rep u h m F →
  sumFreeListSize (mkFL h m) = Ok (wrap64 (sizes (concat F))) (mkFL h m).
Proof. intros Hr. unfold sumFreeListSize, classes. by erewrite (sum_classes_spec u h m F 65 0). Qed.

Lemma check_links_spec m h L fuel pv :
  (length L < fuel)%nat → dll m pv L 0 → Forall (cvalid m) L →
  check_links fuel (first_node L 0) pv (mkFL h m) = Ok tt (mkFL h m).
Proof.
  revert fuel pv. induction L as [|c L IH]; intros fuel pv Hf Hd Hv;
    (destruct fuel as [|fuel]; simpl in Hf; [lia|]); simpl; [done|].
  apply Forall_cons in Hv as [Hv Hvs]. apply dll_cons in Hd as (Hn & Hp & Hd). not_null.
  mrun get_prev_ok. erewrite bind_ok by (apply assert_ok, Z.eqb_refl).
  mrun get_next_ok. apply IH; [lia|done..].
Qed.

Lemma checkDualLnkList_ok u h m F k :
  fl_rep u h m F → (k < 65)%nat →
  checkDualLnkList (Z.of_nat k) (mkFL h m) = Ok tt (mkFL h m).
Proof.
  intros Hr Hk. destruct (fl_rep_class u h m F k) as
    (L & K & HL & Hhd & Hd & _ & _ & _ & HvL & _ & HtL & _ & Hsz); [done..|].
  unfold checkDualLnkList. erewrite bind_ok
    by (apply assert_ok; unfold NUMOFSIZECLASSES; apply Z.ltb_lt; lia).
  mrun get_head_ok. mrun (@gets_ok FL nat). apply check_links_spec; [unfold fuel_of; simpl; lia|done..].
Qed.

(** ** Framing whole blocks *)

(** Only bytes of the blocks in [L] differ. *)
Definition chunk_frame (L : list chunk) (m m' : mem) : Prop :=
  grows m m' ∧ ∀ a, (∀ c, c ∈ L → a < addr c ∨ cend c ≤ a) → m' !! a = m !! a.

Lemma chunk_frame_refl L m : chunk_frame L m m.
Proof. done. Qed.

Lemma chunk_frame_trans L m1 m2 m3 :
  chunk_frame L m1 m2 → chunk_frame L m2 m3 → chunk_frame L m1 m3.
Proof.
  intros [G1 H1] [G2 H2]. split; [by etrans|].
  intros a Ha. rewrite H2 by done. by apply H1.
Qed.

Lemma chunk_frame_mono L L' m m' : L ⊆ L' → chunk_frame L m m' → chunk_frame L' m m'.
Proof. intros HL [G H]. split; [done|]. intros a Ha. apply H. intros c Hc. auto. Qed.

Lemma chunk_frame_join A B X m1 m2 m3 :
  chunk_frame A m1 m2 → chunk_frame B m2 m3 → A ⊆ X → B ⊆ X → chunk_frame X m1 m3.
Proof.
  intros HA HB SA SB. eapply chunk_frame_trans.
  - by eapply chunk_frame_mono; [|exact HA].
  - by eapply chunk_frame_mono; [|exact HB].
Qed.

#[export] Instance chunk_frame_perm : Proper ((≡ₚ) ==> (=) ==> (=) ==> iff) chunk_frame.
Proof.
  intros L K HLK m ? <- m' ? <-. split; apply chunk_frame_mono; intros d; by rewrite HLK.
Qed.

Lemma node_chunk_frame L m m' :
  Forall (λ c, 48 ≤ csize c) L → node_frame L m m' → chunk_frame L m m'.
Proof.
  intros Hs [G H]. split; [done|]. intros a Ha. apply H. intros c Hc.
  rewrite Forall_forall in Hs. specialize (Hs c Hc). specialize (Ha c Hc).
  unfold node, cend, sizeof_ObjHeader in *. simpl in Hs. lia.
Qed.

Lemma chunk_frame_agree L m m' d :
  chunk_frame L m m' → Forall (disj d) L → agree m m' (addr d) (cend d).
Proof.
  intros [_ H] Hd a Ha. symmetry. apply H. intros c Hc.
  rewrite Forall_forall in Hd. specialize (Hd c Hc). unfold disj, cend in *. lia.
Qed.

Lemma tagged_frame L m m' f d :
  chunk_frame L m m' → Forall (disj d) L → 32 ≤ csize d → tagged m f d → tagged m' f d.
Proof.
  intros HF Hd Hs. pose proof (chunk_frame_agree _ _ _ _ HF Hd) as Hag.
  apply tagged_agree; [done|..]; (eapply agree_sub; [exact Hag|unfold cend; lia|unfold cend; lia]).
Qed.

(** Every block of [L] is disjoint from every block of [K]. *)
Definition away (L K : list chunk) : Prop := Forall (λ c, Forall (disj c) K) L.

Lemma away_elem L K c d : away L K → c ∈ L → d ∈ K → disj c d.
Proof.
  unfold away. rewrite Forall_forall. intros H Hc Hd. specialize (H c Hc).
  rewrite Forall_forall in H. auto.
Qed.

Lemma away_intro L K : (∀ c d, c ∈ L → d ∈ K → disj c d) → away L K.
Proof. intros H. apply Forall_forall. intros c Hc. apply Forall_forall. auto. Qed.

(** Disjointness of two parts of a list of blocks, and of one part. *)
Lemma apart_away R X L K : apart X → X ≡ₚ L ++ K ++ R → away L K.
Proof.
  intros Hap HX. rewrite HX, app_assoc in Hap. apply apart_app in Hap as (Hap & _ & _).
  by apply apart_app in Hap as (_ & _ & ?).
Qed.

Lemma apart_part R X L : apart X → X ≡ₚ L ++ R → apart L.
Proof. intros Hap HX. rewrite HX in Hap. by apply apart_app in Hap as (? & _ & _). Qed.

(** Memory changes outside the free blocks keep the representation. *)
Lemma fl_rep_away u h m F L m' :
  fl_rep u h m F → chunk_frame L m m' → away L (concat F) → fl_rep u h m' F.
Proof.
  intros [Hh Hl Hc Hv Ht Ha] HF HLF. unfold away in HLF.
  assert (Hdis : ∀ d, d ∈ concat F → Forall (disj d) L).
  { intros d Hd. apply Forall_forall. intros c Hc'. apply disj_sym.
    rewrite Forall_forall in HLF. specialize (HLF c Hc'). rewrite Forall_forall in HLF. auto. }
  assert (Hsz : ∀ d, d ∈ concat F → 48 ≤ csize d).
  { intros d Hd. rewrite Forall_forall in Hv. eapply cvalid_size; auto. }
  split; try done.
  - intros i J HJ. destruct (Hc i J HJ) as (H1 & H2 & H3). split_and!; [done| |done].
    apply (dll_agree m); [|done]. intros d Hd.
    assert (Hin : d ∈ concat F).
    { apply elem_of_concat. exists J. split; [done|]. apply list_elem_of_lookup. eauto. }
    specialize (Hsz d Hin). eapply agree_sub; [eapply chunk_frame_agree; eauto|..];
      unfold node, cend, sizeof_ObjHeader; lia.
  - eapply Forall_impl; [exact Hv|]. intros. eapply cvalid_grows; [apply HF|done].
  - rewrite Forall_forall in Ht |- *. intros d Hd. specialize (Hsz d Hd).
    eapply tagged_frame; eauto. lia.
Qed.

Lemma fl_rep_frame u h m F L m' :
  fl_rep u h m F → chunk_frame L m m' → apart (L ++ concat F) → fl_rep u h m' F.
Proof. intros Hr HF (_ & _ & H)%apart_app. by eapply fl_rep_away. Qed.

(** ** Correctness of the consistency checks *)

Lemma in_class_exact u i c :
  0 < u → i ≠ last_class → in_class u i c → csize c `mod` u = 0 → csize c = Z.of_nat i * u.
Proof.
  intros Hu Hi Hc Hm. unfold in_class in Hc. rewrite decide_False in Hc by done.
  pose proof (Z.div_mod (csize c) u). assert (csize c / u = Z.of_nat i); [|nia].
  apply Z.le_antisymm.
  - apply Z.lt_succ_r. apply Z.div_lt_upper_bound; lia.
  - apply Z.div_le_lower_bound; lia.
Qed.

Lemma tagged_reads h m f c :
  tagged m f c →
  rd 4 (node c - sizeof_ObjHeader + off_flags) (mkFL h m) = Ok f (mkFL h m) ∧
  rd 8 (node c - sizeof_ObjHeader + off_objectSize) (mkFL h m) = Ok (csize c) (mkFL h m) ∧
  rd 4 (node c + csize c - 2 * sizeof_ObjHeader + off_flags) (mkFL h m) = Ok f (mkFL h m) ∧
  rd 8 (node c + csize c - 2 * sizeof_ObjHeader + off_objectSize) (mkFL h m)
    = Ok (csize c) (mkFL h m).
Proof.
  intros (H1 & H2 & H3 & H4). unfold node, cend, sizeof_ObjHeader, off_flags, off_objectSize in *.
  split_and!; apply rd_ok; [rewrite <-H1|rewrite <-H2|rewrite <-H3|rewrite <-H4]; f_equal; lia.
Qed.

Lemma check_consist_ok b1 b2 u m h L i fuel pv pre :
  0 < u → (length L < fuel)%nat → (i ≤ 64)%nat → dll m pv L 0 →
  Forall (cvalid m) L → Forall (tagged m ObjFree) L →
  Forall (in_class u i) L → Forall (λ c, csize c `mod` u = 0) L →
  (i = last_class → StronglySorted size_le L ∧ Forall (λ c, pre ≤ csize c) L) →
  check_consist b1 b2 u fuel (Z.of_nat i) pre (first_node L 0) (mkFL h m) = Ok tt (mkFL h m).
Proof.
  intros Hu. revert fuel pv pre. induction L as [|c L IH];
    intros fuel pv pre Hf Hi Hd Hv Ht Hc Hm Hs;
    (destruct fuel as [|fuel]; simpl in Hf; [lia|]); simpl; [done|].
  apply Forall_cons in Hv as [Hv Hvs]. apply Forall_cons in Ht as [Ht Hts].
  apply Forall_cons in Hc as [Hc Hcs]. apply Forall_cons in Hm as [Hm Hms].
  apply dll_cons in Hd as (Hn & Hp & Hd). not_null.
  destruct (tagged_reads h m ObjFree c Ht) as (R1 & R2 & R3 & R4).
  erewrite bind_ok by exact R1. erewrite bind_ok by (by apply assert_ok).
  erewrite bind_ok by exact R2.
  erewrite bind_ok by (apply assert_ok; destruct b1; [by apply Z.eqb_eq|done]).
  assert (Hstep : ∃ pre', (if Z.of_nat i <=? NUMOFSIZECLASSES - 2 then
         assert_ (csize c =? Z.of_nat i * u);; mret pre
       else
         assert_ (Z.of_nat i * u <=? csize c);;
         assert_ (if b2 then pre <=? csize c else true);;
         mret (csize c)) (mkFL h m) = Ok pre' (mkFL h m) ∧
    (i = last_class → StronglySorted size_le L ∧ Forall (λ c, pre' ≤ csize c) L)).
  { unfold NUMOFSIZECLASSES. destruct (Z.leb_spec (Z.of_nat i) (65 - 2)).
    - erewrite bind_ok by (apply assert_ok, Z.eqb_eq, in_class_exact;
        [lia|unfold last_class; lia|done|done]).
      exists pre. split; [done|]. unfold last_class. lia.
    - assert (i = last_class) as Hl by (unfold last_class; lia).
      destruct (Hs Hl) as [Hss Hpre]. apply Forall_cons in Hpre as [Hpre _].
      unfold in_class in Hc. rewrite decide_True in Hc by done.
      erewrite bind_ok by (apply assert_ok, Z.leb_le; unfold last_class in *; lia).
      erewrite bind_ok by (apply assert_ok; destruct b2; [by apply Z.leb_le|done]).
      exists (csize c). split; [done|]. intros _.
      by apply StronglySorted_inv in Hss as [? ?]. }
  destruct Hstep as (pre' & Hrun & Hs'). erewrite bind_ok by exact Hrun.
  erewrite bind_ok by exact R3. erewrite bind_ok by (by apply assert_ok).
  erewrite bind_ok by exact R4. erewrite bind_ok by (apply assert_ok, Z.eqb_refl).
  mrun get_next_ok. eapply IH; [lia|done..].
Qed.

Lemma check_class_ok b1 b2 u h m F k :
  0 < u → fl_rep u h m F → (k < 65)%nat → Forall (λ c, csize c `mod` u = 0) (concat F) →
  check_class b1 b2 u (Z.of_nat k) (mkFL h m) = Ok tt (mkFL h m).
Proof.
  intros Hu Hr Hk Hm. destruct (fl_rep_class u h m F k) as
    (L & K & HL & Hhd & Hd & [Hc Hs] & HK & _ & HvL & _ & HtL & _ & Hsz); [done..|].
  rewrite HK in Hm. apply Forall_app in Hm as [Hm _].
  unfold check_class. erewrite bind_ok
    by (apply assert_ok; unfold NUMOFSIZECLASSES; apply Z.ltb_lt; lia).
  mrun get_head_ok. mrun (@gets_ok FL nat).
  eapply check_consist_ok; [done|unfold fuel_of; simpl; lia|lia|done..|].
  intros Hl. split.
  - apply Sorted_StronglySorted; [intros ???; unfold size_le; lia|auto].
  - eapply Forall_impl; [exact HvL|]. intros c Hv%cvalid_size. simpl in *. lia.
Qed.

Lemma check_all_ok b1 b2 u h m F n i :
  0 < u → fl_rep u h m F → (i + n = 65)%nat → Forall (λ c, csize c `mod` u = 0) (concat F) →
  check_all (check_class b1 b2 u) (Z.of_nat <$> seq i n) (mkFL h m) = Ok tt (mkFL h m).
Proof.
  intros Hu Hr Hi Hm. revert i Hi. induction n as [|n IH]; intros i Hi; simpl; [done|].
  erewrite bind_ok by (eapply check_class_ok; [done|done|lia|done]).
  erewrite bind_ok by (eapply checkDualLnkList_ok; [done|lia]). apply IH. lia.
Qed.
