(* ===== verification/Arena.v ===== *)
(** * Allocation from segregated free lists

    The parts of [allocateObject] and [freeObject] that the three allocator
    classes have in common, on the array [freels_] and memory, with their
    specifications: the search for a larger class, the split of a larger
    block, writing and flipping the boundary tags.  [u] is the distance
    between size classes: 8 for [MyMalloc.cpp] and [thread_cache.cpp],
    [BASICALLOCSIZE] for [heap_alloc.cpp]. *)

From S2P Require Import Prelude Memory OS FreeList FreeListRep.
From stdpp Require Import base numbers list gmap sorting.
Open Scope Z_scope.

(** ** Definitions *)

(** [while (index < NUMOFSIZECLASSES) { if (freels_[index] != NULL) break;
    ++index; }]; 66 iterations are enough since [index] starts at 0 or above. *)
Fixpoint search_larger (fuel : nat) (index : Z) : M FL Z :=
  match fuel with
  | O => fail OutOfFuel
  | S fuel' =>
    if index <? NUMOFSIZECLASSES then
      hd ← get_head index;
      if negb (hd =? NULL) then mret index else search_larger fuel' (index + 1)
    else mret index
  end.

(** "Split larger free slot": result [(mem, totalSize)]. *)
Definition split_larger (u index totalSize : Z) : M FL (Z * Z) :=
  toSplit ← rmFromFreeLs index (wrap64 (index * u));
  realSize ← rd 8 (toSplit - sizeof_ObjHeader + off_objectSize);
  if wrap64 (totalSize + sizeof_DualLnkNode + 2 * sizeof_ObjHeader) <=? realSize then
    let newclass := (realSize - totalSize) / u in
    let splitobj := toSplit + totalSize - sizeof_ObjHeader in
    wr 8 (splitobj + off_objectSize) (realSize - totalSize);;
    wr 4 (splitobj + off_flags) ObjFree;;
    let splitobj := toSplit + realSize - 2 * sizeof_ObjHeader in
    wr 8 (splitobj + off_objectSize) (realSize - totalSize);;
    wr 4 (splitobj + off_flags) ObjFree;;
    b ← insertFreeBlock (toSplit + totalSize) (to_int32 newclass);
    assert_ b;;
    mret (toSplit - sizeof_ObjHeader, totalSize)
  else mret (toSplit - sizeof_ObjHeader, realSize).

(** The end of [allocateObject]: header and footer of the block at [mem]. *)
Definition set_allocated (mem_ totalSize : Z) : M FL Z :=
  wr 8 (mem_ + off_objectSize) totalSize;;
  wr 4 (mem_ + off_flags) ObjAllocated;;
  let obj := mem_ + totalSize - sizeof_ObjHeader in
  wr 8 (obj + off_objectSize) totalSize;;
  wr 4 (obj + off_flags) ObjAllocated;;
  let obj := obj - totalSize + sizeof_ObjHeader in
  mret (obj + sizeof_ObjHeader).

(** The [else] branch of [freeObject]: flags of header and footer, then the
    insertion. *)
Definition set_free (u ptr totalSize : Z) : M FL unit :=
  let obj := ptr - sizeof_ObjHeader in
  wr 4 (obj + off_flags) ObjFree;;
  let obj := obj + totalSize - sizeof_ObjHeader in
  wr 4 (obj + off_flags) ObjFree;;
  b ← insertFreeBlock ptr (to_int32 (totalSize / u));
  assert_ b.

(** [(size + (sizeof(ObjHeader) << 1) + 7) & ~7], at least 48. *)
Definition total_size (size : Z) : Z :=
  let totalSize := mask_low 3 (wrap64 (size + Z.shiftl sizeof_ObjHeader 1 + 7)) in
  if totalSize <? 48 then 48 else totalSize.

(** Index of the class a request starts from. *)
Definition start_class (u totalSize : Z) : Z :=
  if NUMOFSIZECLASSES - 1 <? totalSize / u then NUMOFSIZECLASSES - 1 else totalSize / u.

(** The branches of [allocateObject] that use the free lists: [Some (mem,
    totalSize)], or [None] where the code asks [getMemoryFromOS] (or
    [getMemoryFromCentHeap]) for [totalSize] bytes. *)
Definition take_from_lists (u totalSize : Z) : M FL (option (Z * Z)) :=
  let index := start_class u totalSize in
  hd ← get_head index;
  let index := index + 1 in
  if negb (hd =? NULL) then
    mem_ ← rmFromFreeLs (to_int32 (totalSize / u)) totalSize;
    if negb (mem_ =? NULL) then
      let mem_ := mem_ - sizeof_ObjHeader in
      osz ← rd 8 (mem_ + off_objectSize);
      mret (Some (mem_, if totalSize <? osz then osz else totalSize))
    else mret None
  else
    index ← search_larger 66 index;
    if index =? NUMOFSIZECLASSES then mret None
    else r ← split_larger u index totalSize; mret (Some r).

(** ** Abstract counterparts *)

(** The first class at or above [i] that is not empty. *)
Fixpoint first_nonempty (fuel i : nat) (F : list (list chunk)) : option nat :=
  match fuel with
  | O => None
  | S fuel' =>
    match F !! i with
    | Some (_ :: _) => Some i
    | Some [] => first_nonempty fuel' (S i) F
    | None => None
    end
  end.

(** Splitting [c] for a request of [total] bytes: the allocated part and the
    new free lists. *)
Definition split_chunk (u total : Z) (c : chunk) (F : list (list chunk)) :
    chunk * list (list chunk) :=
  if total + 48 <=? csize c then
    (mkChunk (addr c) total,
     fl_insert (class_of u (csize c - total)) (mkChunk (addr c + total) (csize c - total)) F)
  else (c, F).

(** What the free lists give for a request of [total] bytes; [None] means
    that memory has to come from elsewhere. *)
Definition take_block (u total : Z) (F : list (list chunk)) :
    option (chunk * list (list chunk)) :=
  let k := class_of u total in
  match F !! k with
  | Some (_ :: _) => fl_remove k total F
  | _ =>
    match first_nonempty 66 (S k) F with
    | None => None
    | Some j =>
      match fl_remove j (u * Z.of_nat j) F with
      | None => None
      | Some (c, F') => Some (split_chunk u total c F')
      end
    end
  end.

(** ** Size computation *)

Lemma total_size_spec size :
  0 ≤ size < 2 ^ 64 - 39 →
  total_size size `mod` 8 = 0 ∧ Z.max 48 (size + 32) ≤ total_size size < Z.max 49 (size + 40).
Proof.
  intros Hs. unfold total_size, sizeof_ObjHeader. change (Z.shiftl 16 1) with 32.
  rewrite wrap64_small, mask_low_spec by lia. change (2 ^ 3) with 8.
  set (x := size + 32 + 7). pose proof (Z.mod_pos_bound x 8).
  assert ((x - x `mod` 8) `mod` 8 = 0) as Hm.
  { pose proof (Z.div_mod x 8). replace (x - x `mod` 8) with (x / 8 * 8) by lia. by apply Z.mod_mul. }
  destruct (Z.ltb_spec (x - x `mod` 8) 48); unfold x in *; split; [done|lia|done|lia].
Qed.

(** ** Tags *)

Lemma tags_put m f c :
  48 ≤ csize c < 2 ^ 64 → 0 ≤ f < 2 ^ 32 →
  tagged (put 4 (cend c - 16) f (put 8 (cend c - 8) (csize c)
           (put 4 (addr c) f (put 8 (addr c + 8) (csize c) m)))) f c.
Proof.
  intros Hs Hf. unfold tagged, cend. split_and!.
  - do 2 rewrite load_put_ne by (simpl; lia). by apply load4_put4.
  - do 3 rewrite load_put_ne by (simpl; lia). apply load8_put8. lia.
  - by apply load4_put4.
  - rewrite load_put_ne by (simpl; lia). apply load8_put8. lia.
Qed.

Lemma flags_put m f g c :
  48 ≤ csize c < 2 ^ 64 → 0 ≤ f < 2 ^ 32 → tagged m g c →
  tagged (put 4 (cend c - 16) f (put 4 (addr c) f m)) f c.
Proof.
  intros Hs Hf (H1 & H2 & H3 & H4). unfold tagged, cend in *. split_and!.
  - rewrite load_put_ne by (simpl; lia). by apply load4_put4.
  - by do 2 rewrite load_put_ne by (simpl; lia).
  - by apply load4_put4.
  - by do 2 rewrite load_put_ne by (simpl; lia).
Qed.

Lemma chunk_frame_put L c m m' n a v :
  c ∈ L → addr c ≤ a → a + Z.of_nat n ≤ cend c →
  chunk_frame L m m' → chunk_frame L m (put n a v m').
Proof.
  intros Hc Ha Hn [G H]. split; [etrans; [done|apply put_grows]|].
  intros x Hx. specialize (Hx c Hc) as Hxc. rewrite put_out by lia. auto.
Qed.

(** Writes both tags of the block [c]. *)
Lemma write_tags_run f c h m :
  cvalid m c → 0 ≤ f < 2 ^ 32 →
  ∃ m', (∀ A (k : M FL A),
    (wr 8 (addr c + off_objectSize) (csize c);;
     wr 4 (addr c + off_flags) f;;
     wr 8 (cend c - sizeof_ObjHeader + off_objectSize) (csize c);;
     wr 4 (cend c - sizeof_ObjHeader + off_flags) f;; k) (mkFL h m) = k (mkFL h m')) ∧
    tagged m' f c ∧ chunk_frame [c] m m' ∧ agree m m' (addr c + 16) (cend c - 16).
Proof.
  intros Hv Hf. pose proof Hv as (Hp & He & Hs & Hm). unfold max_chunk in Hs.
  assert (Hmap : ∀ m1 n a, grows m m1 → addr c ≤ a → a + Z.of_nat n ≤ cend c →
                 mapped m1 a (a + Z.of_nat n)).
  { intros m1 n a Hg H1 H2. eapply mapped_grows; [done|]. eapply mapped_sub; [done|lia|lia]. }
  unfold off_objectSize, off_flags, sizeof_ObjHeader. rewrite !Z.add_0_r.
  replace (cend c - 16 + 8) with (cend c - 8) by lia.
  eexists. split_and!.
  - intros A k. unfold cend in *.
    erewrite bind_ok by (apply wr_ok, Hmap; [done|lia|simpl; lia]).
    erewrite bind_ok by (apply wr_ok, Hmap; [eauto with memdb|lia|simpl; lia]).
    erewrite bind_ok by (apply wr_ok, Hmap; [do 2 (etrans; [|apply put_grows]); done|lia|simpl; lia]).
    erewrite bind_ok by (apply wr_ok, Hmap; [do 3 (etrans; [|apply put_grows]); done|lia|simpl; lia]).
    reflexivity.
  - apply tags_put; lia.
  - do 4 (apply (chunk_frame_put _ c); [left|unfold cend; lia|unfold cend; simpl; lia|]).
    apply chunk_frame_refl.
  - intros x Hx. unfold cend in *. by rewrite !put_out by (simpl; lia).
Qed.

Lemma set_allocated_spec h m c :
  cvalid m c →
  ∃ m', set_allocated (addr c) (csize c) (mkFL h m) = Ok (node c) (mkFL h m') ∧
    tagged m' ObjAllocated c ∧ chunk_frame [c] m m'.
Proof.
  intros Hv. destruct (write_tags_run ObjAllocated c h m) as (m' & Hrun & Ht & HF & _);
    [done|unfold ObjAllocated; lia|].
  exists m'. split_and!; [|done..]. unfold set_allocated. fold (cend c). cbv zeta.
  rewrite Hrun. unfold cend, node, sizeof_ObjHeader. unfold mret, M_ret. f_equal. lia.
Qed.

Lemma set_free_spec u h m F c k :
  0 < u → 8 ≤ u → fl_rep u h m F → cvalid m c → tagged m ObjAllocated c →
  apart (c :: concat F) → k = class_of u (csize c) →
  ∃ h' m', set_free u (node c) (csize c) (mkFL h m) = Ok tt (mkFL h' m') ∧
    fl_rep u h' m' (fl_insert k c F) ∧ chunk_frame (c :: concat F) m m'.
Proof.
  intros Hu Hu8 Hr Hv Ht Hap Hk. pose proof Hv as (Hp & He & Hs & Hm). unfold max_chunk in Hs.
  unfold set_free, off_flags, sizeof_ObjHeader. rewrite !Z.add_0_r. cbv zeta.
  replace (node c - 16) with (addr c) by (unfold node, sizeof_ObjHeader; lia). fold (cend c).
  erewrite bind_ok by (apply wr_ok; eapply mapped_sub; [done|lia|unfold cend; simpl; lia]).
  erewrite bind_ok by (apply wr_ok; eapply mapped_grows; [apply put_grows|];
    eapply mapped_sub; [done|unfold cend; lia|unfold cend; simpl; lia]).
  set (m1 := put 4 (cend c - 16) ObjFree (put 4 (addr c) ObjFree m)).
  assert (Ht1 : tagged m1 ObjFree c) by (eapply flags_put; [lia|done|done]).
  assert (HF1 : chunk_frame [c] m m1).
  { do 2 (apply (chunk_frame_put _ c); [left|unfold cend; lia|unfold cend; simpl; lia|]).
    apply chunk_frame_refl. }
  assert (Hr1 : fl_rep u h m1 F) by (by eapply fl_rep_frame).
  assert (Hv1 : cvalid m1 c) by (eapply cvalid_grows; [apply HF1|done]).
  assert (Hdiv : 0 ≤ csize c / u < 2 ^ 31).
  { split; [apply Z.div_pos; lia|]. apply Z.div_lt_upper_bound; lia. }
  rewrite to_int32_small by done.
  destruct (insertFreeBlock_spec u h m1 F c (csize c / u) k) as (h' & m' & Hrun & Hr' & HF');
    [done|lia|by rewrite Hk|rewrite Hk; apply class_of_in; lia|done..|].
  erewrite bind_ok by exact Hrun. exists h', m'. split_and!; [done|done|].
  eapply chunk_frame_trans.
  - eapply chunk_frame_mono; [|exact HF1]. intros d. rewrite list_elem_of_singleton. intros ->. left.
  - apply node_chunk_frame; [|done]. constructor; [lia|]. by eapply fl_rep_sizes.
Qed.

(** ** Search and split *)

Lemma search_larger_spec u h m F fuel i :
  fl_rep u h m F → (65 < fuel + i)%nat → (i ≤ 65)%nat →
  search_larger fuel (Z.of_nat i) (mkFL h m) =
  Ok (from_option Z.of_nat 65 (first_nonempty fuel i F)) (mkFL h m).
Proof.
  intros Hr. revert i. induction fuel as [|fuel IH]; intros i Hf Hi; [lia|]. simpl.
  destruct (decide (i = 65%nat)) as [->|Hne].
  - rewrite lookup_ge_None_2 by (destruct Hr; lia). done.
  - destruct (Z.ltb_spec (Z.of_nat i) NUMOFSIZECLASSES) as [_|]; [|unfold NUMOFSIZECLASSES in *; lia].
    destruct (fl_rep_class u h m F i) as
      (L & K & HL & Hhd & _ & _ & _ & _ & HvL & _ & _ & _ & _); [done|lia|].
    mrun get_head_ok. rewrite HL. destruct L as [|c L]; simpl.
    + replace (Z.of_nat i + 1) with (Z.of_nat (S i)) by lia. apply IH; lia.
    + apply Forall_cons in HvL as [Hv _]. by not_null.
Qed.

Lemma first_nonempty_Some fuel i F j :
  first_nonempty fuel i F = Some j → (i ≤ j)%nat ∧ ∃ c L, F !! j = Some (c :: L).
Proof.
  revert i. induction fuel as [|fuel IH]; intros i; simpl; [done|].
  destruct (F !! i) as [[|c L]|] eqn:HF; [|intros [= <-]; eauto|done].
  intros [? ?]%IH. split; [lia|done].
Qed.

Lemma first_nonempty_None fuel i F j L :
  (length F < fuel + i)%nat → first_nonempty fuel i F = None →
  (i ≤ j)%nat → F !! j = Some L → L = [].
Proof.
  revert i. induction fuel as [|fuel IH]; intros i Hf; simpl.
  - intros _ Hij Hj. apply lookup_lt_Some in Hj. lia.
  - destruct (F !! i) as [[|c L']|] eqn:HF; [|done|].
    + intros Hn Hij Hj. destruct (decide (i = j)) as [->|]; [congruence|].
      eapply (IH (S i)); [lia|done|lia|done].
    + intros _ Hij Hj. apply lookup_lt_Some in Hj. apply lookup_ge_None in HF. lia.
Qed.

(** A non-empty class always gives its first block when asked for the
    smallest size of the class. *)
Lemma fl_remove_nonempty u h m F j c L :
  fl_rep u h m F → F !! j = Some (c :: L) →
  fl_remove j (u * Z.of_nat j) F = Some (c, <[j := L]> F).
Proof.
  intros Hr HL. destruct (fr_class _ _ _ _ Hr j _ HL) as (_ & _ & Hc & _).
  unfold fl_remove. rewrite HL. unfold rem. case_decide as Hj; [|done]. subst j. simpl.
  apply Forall_cons in Hc as [Hc _]. unfold in_class in Hc. rewrite decide_True in Hc by done.
  destruct (Z.leb_spec (u * Z.of_nat last_class) (csize c)); [done|].
  unfold last_class in *. lia.
Qed.

Lemma class_of_start u total : 0 < u → 0 ≤ total →
  start_class u total = Z.of_nat (class_of u total).
Proof.
  intros Hu Ht. unfold start_class, class_of, NUMOFSIZECLASSES.
  assert (0 ≤ total / u) by (apply Z.div_pos; lia).
  destruct (Z.ltb_spec (65 - 1) (total / u)); lia.
Qed.

(** Blocks of a higher class are larger than the request. *)
Lemma higher_class_larger u total j c :
  0 < u → 0 ≤ total → (class_of u total < j ≤ 64)%nat → in_class u j c → total < csize c.
Proof.
  intros Hu Ht Hj Hc. unfold class_of in Hj. unfold in_class, last_class in Hc.
  assert (0 ≤ total / u) by (apply Z.div_pos; lia).
  assert (total / u + 1 ≤ Z.of_nat j) by lia.
  assert (total < u * (total / u + 1)) by (pose proof (Z.mul_succ_div_gt total u); lia).
  assert (u * (total / u + 1) ≤ u * Z.of_nat j) by (apply Z.mul_le_mono_nonneg_l; lia).
  case_decide as E; [rewrite E in *; lia|lia].
Qed.

(** The remainder of a split: tags, then insertion. *)
Lemma split_rest_run u h m F c total :
  8 ≤ u → fl_rep u h m F → cvalid m c → apart (c :: concat F) →
  48 ≤ total → total + 48 ≤ csize c →
  let r := mkChunk (addr c + total) (csize c - total) in
  ∃ h' m',
    (wr 8 (addr r + off_objectSize) (csize r);;
     wr 4 (addr r + off_flags) ObjFree;;
     wr 8 (cend r - sizeof_ObjHeader + off_objectSize) (csize r);;
     wr 4 (cend r - sizeof_ObjHeader + off_flags) ObjFree;;
     b ← insertFreeBlock (node r) (to_int32 (csize r / u));
     assert_ b;;
     mret (addr c, total)) (mkFL h m) = Ok (addr c, total) (mkFL h' m') ∧
    fl_rep u h' m' (fl_insert (class_of u (csize r)) r F) ∧
    chunk_frame (c :: concat F) m m' ∧ cvalid m' (mkChunk (addr c) total) ∧
    apart (mkChunk (addr c) total :: r :: concat F).
Proof.
  intros Hu Hr Hv Hap Ht Hsp r. pose proof Hv as (Hp & He & Hs & Hm). unfold max_chunk in Hs.
  destruct c as [a s]. simpl in *. unfold cend in *. simpl in *.
  assert (Hap2 : apart (mkChunk a total :: r :: concat F)) by (apply apart_split; [lia|done]).
  assert (Hvr : cvalid m r).
  { unfold cvalid, cend, r, max_chunk. simpl. split_and!; [lia..|]. eapply mapped_sub; [done|lia|lia]. }
  destruct (write_tags_run ObjFree r h m) as (m1 & Hrun & Htr & HF1 & _); [done|unfold ObjFree; lia|].
  unfold cend in Hrun. rewrite Hrun. clear Hrun.
  assert (Hr1 : fl_rep u h m1 F) by (eapply fl_rep_frame; [done|done|apply Hap2]).
  assert (Hdiv : 0 ≤ csize r / u < 2 ^ 31).
  { unfold r. simpl. split; [apply Z.div_pos; lia|]. apply Z.div_lt_upper_bound; lia. }
  rewrite to_int32_small by done.
  destruct (insertFreeBlock_spec u h m1 F r (csize r / u) (class_of u (csize r)))
    as (h' & m' & Hins & Hr' & HF'); [done|lia|done|apply class_of_in; unfold r; simpl; lia| |done|apply Hap2|].
  { eapply cvalid_grows; [apply HF1|done]. }
  erewrite bind_ok by exact Hins. exists h', m'. split; [done|]. split; [done|].
  assert (HF2 : chunk_frame (r :: concat F) m m').
  { eapply chunk_frame_trans.
    - eapply chunk_frame_mono; [|exact HF1]. intros d. rewrite list_elem_of_singleton. intros ->. left.
    - apply node_chunk_frame; [|done]. constructor; [unfold r; simpl; lia|]. by eapply fl_rep_sizes. }
  destruct HF2 as [HG HF2]. split_and!; [| |done].
  - split; [done|]. intros x Hx. apply HF2. intros d [->|Hd]%elem_of_cons.
    + specialize (Hx (mkChunk a s)). unfold cend, r in *. simpl in *.
      destruct Hx; [left|lia|lia].
    + apply Hx. by right.
  - unfold cvalid, cend, max_chunk. simpl. split_and!; [lia..|].
    eapply mapped_grows; [exact HG|]. eapply mapped_sub; [done|lia|lia].
Qed.

Lemma split_larger_spec u h m F total j :
  8 ≤ u < 2 ^ 30 → fl_rep u h m F → 48 ≤ total < 2 ^ 34 →
  (class_of u total < j)%nat → (∃ c L, F !! j = Some (c :: L)) →
  ∃ c F1 h' m',
    fl_remove j (u * Z.of_nat j) F = Some (c, F1) ∧
    let '(c', F') := split_chunk u total c F1 in
    split_larger u (Z.of_nat j) total (mkFL h m) = Ok (addr c', csize c') (mkFL h' m') ∧
    fl_rep u h' m' F' ∧ chunk_frame (concat F) m m' ∧ cvalid m' c' ∧ total ≤ csize c' ∧
    apart (c' :: concat F').
Proof.
  intros Hu Hr Ht Hj (c & L & HL).
  assert (Hj64 : (j ≤ 64)%nat) by (apply lookup_lt_Some in HL; destruct Hr; lia).
  pose proof (fl_remove_nonempty u h m F j c L Hr HL) as Hrem.
  pose proof (rmFromFreeLs_spec u h m F (Z.of_nat j) (u * Z.of_nat j) j Hr) as Hspec.
  rewrite Hrem in Hspec. destruct Hspec as (h1 & m1 & Hrun & Hr1 & HF1 & Hin); [lia|lia|].
  destruct (rem_tagged u h m F _ _ c _ Hr Hrem) as (Hv & Htag & Hap).
  pose proof (fl_remove_perm _ _ _ _ _ Hrem) as Hperm.
  pose proof (higher_class_larger u total j c) as Hbig.
  assert (Hcs : total < csize c) by (apply Hbig; [lia..|done]). clear Hbig.
  assert (Hsz : Forall (λ c, 48 ≤ csize c) (concat F)) by (by eapply fl_rep_sizes).
  assert (Htag1 : tagged m1 ObjFree c).
  { eapply tagged_node_frame; [done|done|apply Hr|rewrite Hperm; left|done]. }
  assert (Hv1 : cvalid m1 c) by (eapply cvalid_grows; [apply HF1|done]).
  assert (HCF : chunk_frame (concat F) m m1) by (by apply node_chunk_frame).
  exists c, (<[j := L]> F). unfold split_larger, split_chunk.
  replace (wrap64 (Z.of_nat j * u)) with (u * Z.of_nat j) by (rewrite wrap64_small; nia).
  rewrite wrap64_small by (unfold sizeof_DualLnkNode, sizeof_ObjHeader; lia).
  replace (total + sizeof_DualLnkNode + 2 * sizeof_ObjHeader) with (total + 48)
    by (unfold sizeof_DualLnkNode, sizeof_ObjHeader; lia).
  erewrite bind_ok by exact Hrun. cbv beta.
  assert (Hrd : rd 8 (node c - sizeof_ObjHeader + off_objectSize) (mkFL h1 m1) =
                Ok (csize c) (mkFL h1 m1)) by (eapply getFreeNodeSize_ok; done).
  destruct (Z.leb_spec (total + 48) (csize c)) as [Hsp|Hsp].
  - destruct (split_rest_run u h1 m1 (<[j:=L]> F) c total) as (h' & m' & Hr2 & Hr' & HF2 & Hv' & Hap');
      [lia|done..|lia|lia|].
    exists h', m'. split; [done|]. cbv beta match zeta in *. erewrite bind_ok by exact Hrd. cbv beta.
    destruct (Z.leb_spec (total + 48) (csize c)); [|lia].
    split_and!; [|done| |done|simpl; lia|].
    + etrans; [|exact Hr2]. cbv zeta. unfold node, cend, sizeof_ObjHeader. simpl.
      replace (addr c + 16 + total - 16) with (addr c + total) by lia.
      replace (addr c + 16 + csize c - 2 * 16) with (addr c + total + (csize c - total) - 16) by lia.
      replace (addr c + 16 + total) with (addr c + total + 16) by lia.
      replace (addr c + 16 - 16) with (addr c) by lia. reflexivity.
    + eapply chunk_frame_trans; [done|]. by rewrite Hperm.
    + rewrite fl_insert_perm; [done|]. rewrite length_insert.
      pose proof (class_of_le u (csize c - total)). unfold last_class in *. destruct Hr; lia.
  - exists h1, m1. split; [done|]. cbv beta match zeta. erewrite bind_ok by exact Hrd. cbv beta.
    destruct (Z.leb_spec (total + 48) (csize c)); [lia|].
    split_and!; [|done|done|done|lia|done].
    unfold mret, M_ret. repeat f_equal. unfold node. lia.
Qed.

(** ** Taking a block *)

Lemma fl_remove_fits u h m F total c F' :
  0 < u → fl_rep u h m F → 0 ≤ total → total `mod` u = 0 →
  fl_remove (class_of u total) total F = Some (c, F') → total ≤ csize c.
Proof.
  intros Hu Hr Ht Hmod Hrem. unfold fl_remove in Hrem.
  destruct (F !! class_of u total) as [L|] eqn:HL; [|done].
  destruct (rem (class_of u total) total L) as [[c' R]|] eqn:HR; [|done]. simplify_eq.
  destruct (fr_class _ _ _ _ Hr _ _ HL) as (_ & _ & Hcl).
  destruct (class_ok_rem _ _ _ _ _ _ HR Hcl) as [Hin _]. unfold in_class in Hin.
  case_decide as Hk.
  - unfold rem in HR. rewrite decide_True in HR by done.
    destruct (drop_small total L) as [|d R'] eqn:HD; simplify_eq.
    by eapply drop_small_head.
  - unfold class_of, last_class in *. assert (0 ≤ total / u) by (apply Z.div_pos; lia).
    rewrite Z2Nat.id, Z.min_r in Hin by lia. pose proof (Z.div_mod total u). lia.
Qed.

Lemma take_from_lists_spec u h m F total :
  8 ≤ u < 2 ^ 30 → fl_rep u h m F → 48 ≤ total < 2 ^ 34 → total `mod` u = 0 →
  match take_block u total F with
  | None => take_from_lists u total (mkFL h m) = Ok None (mkFL h m)
  | Some (c, F') =>
    ∃ h' m', take_from_lists u total (mkFL h m) = Ok (Some (addr c, csize c)) (mkFL h' m') ∧
      fl_rep u h' m' F' ∧ chunk_frame (concat F) m m' ∧ cvalid m' c ∧ total ≤ csize c ∧
      apart (c :: concat F')
  end.
Proof.
  intros Hu Hr Ht Hmod. set (k := class_of u total).
  assert (Hk : (k ≤ 64)%nat) by (pose proof (class_of_le u total); unfold last_class in *; lia).
  destruct (fl_rep_class u h m F k) as
    (L & K & HL & Hhd & Hd & Hcl & HK & HK' & HvL & HvK & HtL & HapL & Hsz); [done|lia|].
  unfold take_block, take_from_lists. fold k. rewrite HL, class_of_start by lia. fold k.
  cbv zeta. mrun get_head_ok.
  destruct (decide (L = [])) as [->|Hne].
  - change (negb (first_node [] 0 =? NULL)) with false. cbv match.
    replace (Z.of_nat k + 1) with (Z.of_nat (S k)) by lia.
    erewrite bind_ok by (apply (search_larger_spec u h m F 66 (S k) Hr); lia). cbv beta.
    destruct (first_nonempty 66 (S k) F) as [j|] eqn:Hfn; simpl; [|done].
    apply first_nonempty_Some in Hfn as [Hj Hex].
    destruct (Z.eqb_spec (Z.of_nat j) NUMOFSIZECLASSES) as [E|_].
    { destruct Hex as (? & ? & Hlt%lookup_lt_Some). unfold NUMOFSIZECLASSES in E. destruct Hr; lia. }
    destruct (split_larger_spec u h m F total j) as (c & F1 & h' & m' & Hrem & Hsp);
      [done|done|done|unfold k in *; lia|done|].
    rewrite Hrem. destruct (split_chunk u total c F1) as [c' F'].
    destruct Hsp as (Hrun & Hrest). exists h', m'. split; [|exact Hrest].
    by erewrite bind_ok by exact Hrun.
  - destruct L as [|c0 L0]; [done|].
    rewrite (first_node_nonnull m) by done. change (negb false) with true. cbv match.
    assert (0 ≤ total / u < 2 ^ 31).
    { split; [apply Z.div_pos; lia|]. apply Z.div_lt_upper_bound; lia. }
    rewrite to_int32_small by done.
    pose proof (rmFromFreeLs_spec u h m F (total / u) total k Hr) as Hspec.
    destruct (fl_remove k total F) as [[c F']|] eqn:Hrem.
    + destruct Hspec as (h1 & m1 & Hrun & Hr1 & HF1 & _); [lia|done|].
      destruct (rem_tagged u h m F _ _ c _ Hr Hrem) as (Hv & Htag & Hap).
      pose proof (fl_remove_perm _ _ _ _ _ Hrem) as Hperm.
      assert (Hfit : total ≤ csize c) by (eapply (fl_remove_fits u h m F); [lia|done|lia|done..]).
      assert (Hszs : Forall (λ c, 48 ≤ csize c) (concat F)) by (by eapply fl_rep_sizes).
      assert (Htag1 : tagged m1 ObjFree c).
      { eapply tagged_node_frame; [done|done|apply Hr|rewrite Hperm; left|done]. }
      assert (Hv1 : cvalid m1 c) by (eapply cvalid_grows; [apply HF1|done]).
      exists h1, m1. erewrite bind_ok by exact Hrun. cbv beta. not_null. change (negb false) with true. cbv match.
      mrun getFreeNodeSize_ok. split_and!; [|done|by apply node_chunk_frame|done|done|done].
      unfold mret, M_ret. do 3 f_equal; [unfold node; lia|].
      destruct (Z.ltb_spec total (csize c)); lia.
    + erewrite bind_ok by (apply Hspec; [lia|done]). done.
Qed.

(** Taking a block only redistributes the free memory: [c] and the blocks of
    [F'] cover the same bytes as those of [F]. *)
Definition redistributes (total : Z) (F : list (list chunk)) (c : chunk)
    (F' : list (list chunk)) : Prop :=
  sizes (concat F) = csize c + sizes (concat F') ∧
  (∀ d, Forall (disj d) (concat F) → Forall (disj d) (c :: concat F')) ∧
  (∀ v, 0 < v → total `mod` v = 0 → Forall (λ d, csize d `mod` v = 0) (concat F) →
     Forall (λ d, csize d `mod` v = 0) (c :: concat F')).

Lemma remove_redistributes k sz total F c F' :
  fl_remove k sz F = Some (c, F') → redistributes total F c F'.
Proof.
  intros Hp%fl_remove_perm. unfold redistributes. rewrite <-sizes_cons, <-Hp.
  split_and!; [done|intros d; by rewrite Hp|intros v _ _; by rewrite Hp].
Qed.

Lemma split_redistributes u total F c1 F1 c F' :
  length F1 = 65%nat → 0 ≤ total → redistributes total F c1 F1 →
  split_chunk u total c1 F1 = (c, F') → redistributes total F c F'.
Proof.
  intros Hlen Ht (H1 & H2 & H3). unfold split_chunk.
  destruct (Z.leb_spec (total + 48) (csize c1)); intros; simplify_eq; [|done].
  assert (Hk : (class_of u (csize c1 - total) < length F1)%nat).
  { pose proof (class_of_le u (csize c1 - total)). unfold last_class in *. lia. }
  split_and!.
  - rewrite fl_insert_perm, sizes_cons by done. simpl. lia.
  - intros d Hd%H2. rewrite fl_insert_perm by done.
    apply Forall_cons in Hd as [Hd1 Hd]. unfold disj, cend in Hd1.
    rewrite !Forall_cons. split_and!; [unfold disj, cend; simpl; lia..|done].
  - intros v Hv Hm Hd%H3; [|done..]. rewrite fl_insert_perm by done.
    apply Forall_cons in Hd as [Hd1 Hd]. rewrite !Forall_cons.
    split_and!; [done| |done]. simpl. rewrite Zminus_mod, Hd1, Hm. by rewrite Z.mod_0_l by lia.
Qed.

Lemma take_block_cover u total F c F' :
  length F = 65%nat → 0 ≤ total → take_block u total F = Some (c, F') →
  redistributes total F c F'.
Proof.
  intros Hlen Ht. unfold take_block.
  destruct (F !! class_of u total) as [[|e L]|] eqn:HL;
    [|by apply remove_redistributes|].
  all: destruct (first_nonempty _ _ F) as [j|]; [|done].
  all: destruct (fl_remove j (u * Z.of_nat j) F) as [[c1 F1]|] eqn:Hrem; [|done].
  all: intros [= Hsp]; eapply split_redistributes;
    [|done|by eapply remove_redistributes|done].
  all: unfold fl_remove in Hrem; repeat case_match; simplify_eq; by rewrite length_insert.
Qed.

(** ** Allocated blocks *)

(** The blocks of [U] are valid and tagged as allocated. *)
Definition used (m : mem) (U : list chunk) : Prop :=
  Forall (cvalid m) U ∧ Forall (tagged m ObjAllocated) U.

Lemma used_away L m m' U : chunk_frame L m m' → away L U → used m U → used m' U.
Proof.
  intros HF Hap [Hv Ht]. split.
  - eapply Forall_impl; [exact Hv|]. intros. eapply cvalid_grows; [apply HF|done].
  - rewrite Forall_forall in Ht, Hv |- *. intros d Hd.
    eapply tagged_frame; [done| |pose proof (cvalid_size _ _ (Hv d Hd)); lia|auto].
    apply Forall_forall. intros c Hc. apply disj_sym. by eapply away_elem.
Qed.

Lemma used_frame L m m' U :
  chunk_frame L m m' → apart (L ++ U) → used m U → used m' U.
Proof. intros HF (_ & _ & Hap)%apart_app. by apply (used_away L). Qed.

Lemma apart_cons_app c L U : apart (c :: L ++ U) → apart ([c] ++ L) ∧ apart ([c] ++ U).
Proof.
  intros Hap. split.
  - apply (proj1 (apart_app (c :: L) U)) in Hap. tauto.
  - destruct Hap as [H1 H2]. apply Forall_app in H1 as [_ H1].
    apply apart_app in H2 as (_ & H2 & _). by split.
Qed.

(** Blocks [K] that cover no more than [L] stay apart from [U]. *)
Lemma apart_replace L K U :
  apart (L ++ U) → apart K → (∀ d, Forall (disj d) L → Forall (disj d) K) → apart (K ++ U).
Proof.
  intros (_ & HaU & HLU)%apart_app HK Hd. apply apart_app. split_and!; [done..|].
  apply Forall_forall. intros c Hc. apply Forall_forall. intros e He. apply disj_sym.
  assert (Forall (disj e) K) as HeK.
  { apply Hd, Forall_forall. intros x Hx. apply disj_sym.
    rewrite Forall_forall in HLU. specialize (HLU x Hx).
    rewrite Forall_forall in HLU. auto. }
  rewrite Forall_forall in HeK. auto.
Qed.

(** The end of [allocateObject]: [c] joins the allocated blocks. *)
Lemma finish_spec u h m F c U :
  fl_rep u h m F → cvalid m c → used m U → apart (c :: concat F ++ U) →
  ∃ m', set_allocated (addr c) (csize c) (mkFL h m) = Ok (node c) (mkFL h m') ∧
    fl_rep u h m' F ∧ used m' (c :: U) ∧ chunk_frame [c] m m'.
Proof.
  intros Hr Hv HU Hap. destruct (set_allocated_spec h m c Hv) as (m' & Hrun & Ht & HF).
  destruct (apart_cons_app _ _ _ Hap) as [Hap1 Hap2].
  exists m'. split_and!; [done|by eapply fl_rep_frame| |done].
  destruct (used_frame [c] m m' U HF Hap2 HU) as [Hv' Ht'].
  split; constructor; [eapply cvalid_grows; [apply HF|done]|done..].
Qed.

(** A successful [sbrk] gives a block disjoint from all others. *)
Lemma sbrk_chunk {os : OS} {Hos : SbrkLaws os} m n L :
  48 ≤ n < max_chunk → os_sbrk m n ≠ SBRK_FAILED → Forall (cvalid m) L → apart L →
  let c := mkChunk (os_sbrk m n) n in
  chunk_frame [c] m (after_sbrk m n) ∧ cvalid (after_sbrk m n) c ∧ apart (c :: L).
Proof.
  intros Hn Hs Hv Hap c. destruct (sbrk_fresh m n) as (H1 & H2 & H3); [lia|done|].
  unfold after_sbrk. destruct (Z.eqb_spec (os_sbrk m n) SBRK_FAILED); [done|].
  split_and!.
  - split; [apply map_zero_grows|]. intros a Ha. apply map_zero_out.
    specialize (Ha c ltac:(left)). unfold cend, c in Ha. simpl in Ha. lia.
  - unfold cvalid, cend, c. simpl. split_and!; [lia..|].
    intros a Ha. apply map_zero_mapped. lia.
  - split; [|done]. rewrite Forall_forall in Hv |- *. intros d Hd.
    destruct (Hv d Hd) as (? & ? & ? & Hm). unfold disj, cend, c in *. simpl.
    destruct (fresh_apart m (addr d) (addr d + csize d) (os_sbrk m n) (os_sbrk m n + n));
      [lia|lia|done|done|lia|lia].
Qed.

Lemma unmapped_frame L m m' :
  Forall (λ c, 16 ≤ addr c) L → chunk_frame L m m' → unmapped m 0 16 → unmapped m' 0 16.
Proof.
  intros HL [_ H] Hu a Ha. rewrite H; [by apply Hu|]. intros c Hc.
  rewrite Forall_forall in HL. specialize (HL c Hc). simpl in HL. lia.
Qed.

(** Blocks do not reach into the first 16 bytes, which are not mapped. *)
Lemma cvalid_low m L : unmapped m 0 16 → Forall (cvalid m) L → Forall (λ c, 16 ≤ addr c) L.
Proof.
  intros Hu HL. eapply Forall_impl; [exact HL|]. intros c (H1 & H2 & H3 & Hm).
  destruct (decide (16 ≤ addr c)); [done|].
  destruct (Hm (addr c)) as [b Hb]; [unfold cend; lia|]. rewrite Hu in Hb; [done|lia].
Qed.

Lemma used_header m U c :
  used m U → c ∈ U → load 8 (node c - sizeof_ObjHeader + off_objectSize) m = Some (csize c).
Proof.
  intros [_ Ht] Hc. rewrite Forall_forall in Ht. destruct (Ht c Hc) as (_ & H & _).
  unfold node, sizeof_ObjHeader, off_objectSize. by replace (addr c + 16 - 16 + 8) with (addr c + 8) by lia.
Qed.

#[export] Instance used_perm m : Proper ((≡ₚ) ==> iff) (used m).
Proof. intros U U' H. unfold used. by rewrite H. Qed.

Lemma fl_rep_empty u m : fl_rep u (replicate 65 NULL) m (replicate 65 []).
Proof.
  assert (concat (replicate 65 (@nil chunk)) = []) as Hc by done.
  split; rewrite ?Hc; [done|done| |done..].
  intros i L [-> Hi]%lookup_replicate. rewrite lookup_replicate_2 by lia. done.
Qed.

(** ** Which block is taken *)

Lemma class_of_mono u total c j :
  0 < u → 0 ≤ total → total ≤ csize c → (j ≤ last_class)%nat → in_class u j c →
  (class_of u total ≤ j)%nat.
Proof.
  intros Hu Ht Hc Hj Hin. unfold in_class, class_of, last_class in *.
  case_decide as E; [lia|].
  assert (total / u < Z.of_nat j + 1) by (apply Z.div_lt_upper_bound; lia). lia.
Qed.

Lemma in_class_exists u h m F d :
  fl_rep u h m F → d ∈ concat F →
  ∃ j L, F !! j = Some L ∧ d ∈ L ∧ (j ≤ last_class)%nat ∧ in_class u j d.
Proof.
  intros Hr (L & Hd & HL)%elem_of_concat. apply list_elem_of_lookup in HL as [j HL].
  exists j, L. destruct (fr_class _ _ _ _ Hr j L HL) as (_ & _ & Hc & _).
  rewrite Forall_forall in Hc. apply lookup_lt_Some in HL as Hlt.
  pose proof (fr_lists _ _ _ _ Hr). unfold last_class. split_and!; [done|done|lia|auto].
Qed.

Lemma drop_small_nonempty sz L d : d ∈ L → sz ≤ csize d → drop_small sz L ≠ [].
Proof.
  induction L as [|c L IH]; simpl; [by intros ?%elem_of_nil|].
  intros [->|Hd]%elem_of_cons Hs.
  - by destruct (Z.leb_spec sz (csize c)); [|lia].
  - destruct (sz <=? csize c); [done|]. by apply IH.
Qed.

(** If some free block is large enough, the free lists give a block. *)
Lemma take_block_complete u h m F total d :
  0 < u → 0 ≤ total → fl_rep u h m F → d ∈ concat F → total ≤ csize d →
  is_Some (take_block u total F).
Proof.
  intros Hu Ht Hr Hd Hs. destruct (in_class_exists _ _ _ _ _ Hr Hd) as (j & L & HL & HdL & Hj & Hc).
  pose proof (class_of_mono u total d j Hu Ht Hs Hj Hc) as Hkj.
  pose proof (fr_lists _ _ _ _ Hr) as Hlen. unfold take_block, last_class in *.
  destruct (F !! class_of u total) as [[|c R]|] eqn:Hk; last first.
  { apply lookup_ge_None in Hk. lia. }
  { unfold fl_remove. rewrite Hk. unfold rem. case_decide as E; [|by eexists].
    unfold last_class in E. assert (j = class_of u total) as -> by lia. rewrite Hk in HL.
    injection HL as <-. pose proof (drop_small_nonempty total _ d HdL Hs) as Hne.
    destruct (drop_small total (c :: R)); [done|by eexists]. }
  destruct (decide (j = class_of u total)) as [->|Hne].
  { rewrite Hk in HL. injection HL as <-. by apply elem_of_nil in HdL. }
  destruct (first_nonempty 66 (S (class_of u total)) F) as [i|] eqn:Hfn.
  - apply first_nonempty_Some in Hfn as (_ & c & R & Hi).
    rewrite (fl_remove_nonempty _ _ _ _ _ _ _ Hr Hi). by eexists.
  - assert (L = []) as ->; [|by apply elem_of_nil in HdL].
    eapply first_nonempty_None; [|exact Hfn| |exact HL]; lia.
Qed.

(** The list of the last class is sorted, so the first block that fits is the
    smallest one that fits. *)
Lemma drop_small_min sz L c R d :
  Sorted size_le L → drop_small sz L = c :: R → d ∈ L → sz ≤ csize d → csize c ≤ csize d.
Proof.
  intros HS%Sorted_StronglySorted; [|intros ???; unfold size_le; lia].
  induction HS as [|b L HS IH HF]; simpl; [done|].
  destruct (Z.leb_spec sz (csize b)) as [Hb|Hb].
  - intros [= -> _] [->|Hd]%elem_of_cons _; [done|]. rewrite Forall_forall in HF. by apply HF.
  - intros E [->|Hd]%elem_of_cons Hs; [lia|]. by apply IH.
Qed.

Lemma take_block_best_fit u h m F total c F' :
  0 < u → u * 64 ≤ total → fl_rep u h m F → take_block u total F = Some (c, F') →
  c ∈ concat F ∧ ∀ d, d ∈ concat F → total ≤ csize d → csize c ≤ csize d.
Proof.
  intros Hu Ht Hr. assert (Hk : class_of u total = last_class).
  { unfold class_of, last_class. assert (64 ≤ total / u) by (apply Z.div_le_lower_bound; lia). lia. }
  unfold take_block. rewrite Hk. pose proof (fr_lists _ _ _ _ Hr) as Hlen.
  destruct (F !! last_class) as [L|] eqn:HL; [|apply lookup_ge_None in HL; unfold last_class in HL; lia].
  destruct L as [|b R].
  - unfold last_class. simpl first_nonempty.
    destruct (F !! 65%nat) eqn:E; [apply lookup_lt_Some in E; lia|done].
  - intros Hrm. split.
    { rewrite (fl_remove_perm _ _ _ _ _ Hrm). left. }
    unfold fl_remove in Hrm. rewrite HL in Hrm. unfold rem in Hrm. rewrite decide_True in Hrm by done.
    destruct (drop_small total (b :: R)) as [|c' R'] eqn:Hds; [done|]. injection Hrm as -> _.
    intros d Hd Hs. destruct (in_class_exists _ _ _ _ _ Hr Hd) as (j & L' & HL' & HdL & Hj & Hc).
    pose proof (class_of_mono u total d j Hu ltac:(lia) Hs Hj Hc) as Hkj.
    rewrite Hk in Hkj. assert (j = last_class) as -> by lia. rewrite HL in HL'. injection HL' as <-.
    destruct (fr_class _ _ _ _ Hr _ _ HL) as (_ & _ & _ & HS).
    eapply drop_small_min; [by apply HS|exact Hds|done|done].
Qed.

(** The block given is a free block or the front of one. *)
Lemma take_block_source u h m F total c F' :
  fl_rep u h m F → take_block u total F = Some (c, F') →
  ∃ d, d ∈ concat F ∧ csize c ≤ csize d.
Proof.
  intros Hr. unfold take_block.
  assert (Hsplit : ∀ j sz b F1, fl_remove j sz F = Some (b, F1) →
            Some (split_chunk u total b F1) = Some (c, F') → ∃ d, d ∈ concat F ∧ csize c ≤ csize d).
  { intros j sz b F1 Hrm [= E]. exists b. rewrite (fl_remove_perm _ _ _ _ _ Hrm). split; [left|].
    unfold split_chunk in E. destruct (Z.leb_spec (total + 48) (csize b));
      injection E as <- _; simpl; lia. }
  assert (Hlow : first_nonempty 66 (S (class_of u total)) F = None ∨
     ∃ j, first_nonempty 66 (S (class_of u total)) F = Some j).
  { destruct (first_nonempty _ _ F); eauto. }
  destruct (F !! class_of u total) as [[|b R]|] eqn:Hk.
  2: { intros Hrm. exists c. rewrite (fl_remove_perm _ _ _ _ _ Hrm). split; [left|done]. }
  all: destruct Hlow as [->|[j ->]]; [done|];
    destruct (fl_remove j _ F) as [[b F1]|] eqn:Hrm; [by eapply Hsplit|done].
Qed.

(** A small block that was just freed is the first choice for its class. *)
Lemma take_block_insert u total c F :
  length F = 65%nat → class_of u total ≠ last_class →
  take_block u total (fl_insert (class_of u total) c F) = Some (c, F).
Proof.
  intros Hlen Hk. pose proof (class_of_le u total) as Hle. unfold last_class in Hle.
  set (k := class_of u total) in *.
  destruct (lookup_lt_is_Some_2 F k) as [L HL]; [lia|].
  unfold take_block, fl_insert, ins. fold k. rewrite HL, decide_False by done.
  unfold fl_remove, rem. rewrite list_lookup_insert_eq by lia. rewrite decide_False by done.
  by rewrite list_insert_insert_eq, list_insert_id.
Qed.

Lemma take_block_empty u total : take_block u total (replicate 65 []) = None.
Proof.
  set (E := replicate 65 (@nil chunk)).
  assert (Hk : ∀ k, E !! k = Some [] ∨ E !! k = None).
  { intros k. destruct (E !! k) eqn:HE; [|by right]. left. by apply lookup_replicate in HE as [-> _]. }
  assert (Hfn : ∀ f k, first_nonempty f k E = None).
  { induction f as [|f IH]; intros k; cbn [first_nonempty]; [done|]. by destruct (Hk k) as [-> | ->]. }
  unfold take_block. destruct (Hk (class_of u total)) as [-> | ->]; by rewrite Hfn.
Qed.
