(* ===== verification/ClientSpec.v ===== *)
(** * The abstract heap that clients of an allocator see

    The abstract specification is a finite map from pointers to the bytes of the
    live blocks.  [spec_step] says what each call may do to it: [malloc] adds a
    block that overlaps no other, [free] removes one, [realloc] moves one and
    keeps its contents, loads and stores touch one byte.  [contents] relates the
    map to the allocated blocks of a concrete heap; the lemmas say how it
    changes when a block is added, removed or written to.  Both allocators are
    proved against this specification. *)

From S2P Require Import Prelude Memory FreeList FreeListRep Arena.
From stdpp Require Import base numbers list gmap sorting strings.
Open Scope Z_scope.

(** ** Calls *)

Inductive op : Type :=
| Malloc (size : Z)
| Free (p : Z)
| Realloc (p size : Z)
| Store (p : Z) (i : nat) (b : Z)
| Load (p : Z) (i : nat).

(** The size a call asks memory for. *)
Definition requested (o : op) : option Z :=
  match o with Malloc size | Realloc _ size => Some size | _ => None end.

(** ** The abstract heap *)

(** Live blocks: their address and contents. *)
Abbreviation heap := (gmap Z (list Z)).

Definition overlap_free (p : Z) (n : nat) (H : heap) : Prop :=
  ∀ q bs, H !! q = Some bs → p + Z.of_nat n ≤ q ∨ q + Z.of_nat (length bs) ≤ p.

(** The calls a correct client makes.  Requests stay below 8 GiB. *)
Definition max_request : Z := 2 ^ 33.

Definition valid_op (H : heap) (o : op) : Prop :=
  match o with
  | Malloc size => 0 < size < max_request
  | Free p => p = NULL ∨ is_Some (H !! p)
  | Realloc p size => 0 ≤ size < max_request ∧ (p = NULL ∨ is_Some (H !! p))
  | Store p i b => 0 ≤ b < 256 ∧ ∃ bs, H !! p = Some bs ∧ (i < length bs)%nat
  | Load p i => ∃ bs, H !! p = Some bs ∧ (i < length bs)%nat
  end.

(** [p] is a new block of the heap [H], able to hold [size] bytes. *)
Definition fresh_block (H : heap) (size p : Z) (bs : list Z) : Prop :=
  p ≠ NULL ∧ H !! p = None ∧ size ≤ Z.of_nat (length bs) ∧ overlap_free p (length bs) H.

Inductive spec_step (H : heap) : op → Z → heap → Prop :=
| SMalloc size p bs : fresh_block H size p bs →
    spec_step H (Malloc size) p (<[p := bs]> H)
| SFreeNull : spec_step H (Free NULL) 0 H
| SFree p : is_Some (H !! p) → spec_step H (Free p) 0 (delete p H)
| SReallocNull size p bs : fresh_block H size p bs →
    spec_step H (Realloc NULL size) p (<[p := bs]> H)
| SRealloc q size p old bs : H !! q = Some old → fresh_block H size p bs →
    let n := Nat.min (Z.to_nat size) (length old) in
    take n bs = take n old →
    spec_step H (Realloc q size) p (<[p := bs]> (delete q H))
| SStore p i b bs : H !! p = Some bs → (i < length bs)%nat →
    spec_step H (Store p i b) 0 (<[p := <[i := b]> bs]> H)
| SLoad p i b bs : H !! p = Some bs → bs !! i = Some b →
    spec_step H (Load p i) b H.

(** ** Contents of a block *)

Fixpoint bytes_at (m : mem) (a : Z) (n : nat) : list Z :=
  match n with O => [] | S n' => default 0 (m !! a) :: bytes_at m (a + 1) n' end.

(** The bytes between header and footer. *)
Definition payload (m : mem) (c : chunk) : list Z :=
  bytes_at m (node c) (Z.to_nat (csize c - 32)).

Lemma bytes_at_length m a n : length (bytes_at m a n) = n.
Proof. revert a. induction n as [|n IH]; intros a; simpl; [done|]. by rewrite IH. Qed.

Lemma payload_length m c : length (payload m c) = Z.to_nat (csize c - 32).
Proof. apply bytes_at_length. Qed.

Lemma bytes_at_lookup m a n i :
  (i < n)%nat → bytes_at m a n !! i = Some (default 0 (m !! (a + Z.of_nat i))).
Proof.
  revert a i. induction n as [|n IH]; intros a [|i] Hi; simpl; [lia|lia|by rewrite Z.add_0_r|].
  rewrite IH by lia. do 3 f_equal. lia.
Qed.

Lemma bytes_at_agree m m' a n :
  agree m m' a (a + Z.of_nat n) → bytes_at m a n = bytes_at m' a n.
Proof.
  intros H. apply list_eq. intros i. destruct (decide (i < n)%nat).
  - rewrite !bytes_at_lookup by done. do 2 f_equal. apply H. lia.
  - rewrite !lookup_ge_None_2; [done|rewrite bytes_at_length; lia..].
Qed.

Lemma payload_agree m m' c :
  32 ≤ csize c → agree m m' (addr c) (cend c) → payload m c = payload m' c.
Proof.
  intros Hs H. apply bytes_at_agree. eapply agree_sub; [exact H|..];
    unfold node, cend, sizeof_ObjHeader; lia.
Qed.

(** ** The simulation relation *)

(** The abstract heap maps exactly the allocated blocks to their payload. *)
Definition contents (m : mem) (U : list chunk) (H : heap) : Prop :=
  ∀ p bs, H !! p = Some bs ↔ ∃ c, c ∈ U ∧ p = node c ∧ bs = payload m c.

Lemma contents_lookup m U H c : contents m U H → c ∈ U → H !! node c = Some (payload m c).
Proof. intros HC Hc. apply HC. eauto. Qed.

Lemma contents_frame m m' U H L :
  contents m U H → chunk_frame L m m' → Forall (λ d, Forall (disj d) U) L →
  Forall (cvalid m) U → contents m' U H.
Proof.
  intros HC HF Hap Hv p bs. rewrite (HC p bs). rewrite Forall_forall in Hv.
  assert (∀ c, c ∈ U → payload m' c = payload m c) as Heq.
  { intros c Hc. symmetry. apply payload_agree; [pose proof (cvalid_size _ _ (Hv c Hc)); lia|].
    eapply chunk_frame_agree; [exact HF|]. apply Forall_forall. intros d Hd. apply disj_sym.
    rewrite Forall_forall in Hap. specialize (Hap d Hd). rewrite Forall_forall in Hap. auto. }
  split; intros (c & Hc & -> & ->); exists c; split_and!; try done; [symmetry|]; auto.
Qed.

Lemma apart_node_ne c U d : apart (c :: U) → 48 ≤ csize c → 48 ≤ csize d → d ∈ U → node d ≠ node c.
Proof.
  intros Hap Hc Hd Hin. pose proof (apart_cons_disj _ _ _ Hap Hin).
  unfold disj, node, cend in *. lia.
Qed.

Section blocks.
Context (m : mem) (c : chunk) (U : list chunk).
Context (Hap : apart (c :: U)) (Hv : Forall (cvalid m) (c :: U)).

Lemma block_sizes d : d ∈ c :: U → 48 ≤ csize d.
Proof. rewrite Forall_forall in Hv. intros Hd. by eapply cvalid_size, Hv. Qed.

Lemma contents_cons H : contents m U H → contents m (c :: U) (<[node c := payload m c]> H).
Proof.
  intros HC p bs. destruct (decide (p = node c)) as [->|Hne].
  - rewrite lookup_insert_eq. split; [intros [= <-]; exists c; split_and!; [left|done..]|].
    intros (d & [->|Hd]%elem_of_cons & Hn & ->); [done|]. exfalso.
    eapply (apart_node_ne c U d); [done|apply block_sizes; left|apply block_sizes; by right|done|done].
  - rewrite lookup_insert_ne by done. rewrite (HC p bs). split.
    + intros (d & ? & -> & ->). exists d. split_and!; [by right|done..].
    + intros (d & [->|?]%elem_of_cons & -> & ->); [done|]. eauto.
Qed.

Lemma contents_delete H : contents m (c :: U) H → contents m U (delete (node c) H).
Proof.
  intros HC p bs. destruct (decide (p = node c)) as [->|Hne].
  - rewrite lookup_delete_eq. split; [done|]. intros (d & Hd & Hn & ->). exfalso.
    eapply (apart_node_ne c U d); [done|apply block_sizes; left|apply block_sizes; by right|done|done].
  - rewrite lookup_delete_ne by done. rewrite (HC p bs). split.
    + intros (d & [->|?]%elem_of_cons & -> & ->); [done|]. eauto.
    + intros (d & ? & -> & ->). exists d. split_and!; [by right|done..].
Qed.

Lemma contents_fresh H size :
  contents m U H → size + 32 ≤ csize c → fresh_block H size (node c) (payload m c).
Proof.
  intros HC Hs. pose proof (block_sizes c ltac:(left)) as Hc. split_and!.
  - pose proof (Forall_inv Hv) as H1. apply cvalid_node in H1. unfold NULL. lia.
  - apply eq_None_not_Some. intros [bs Hbs]. apply HC in Hbs as (d & Hd & Hn & _).
    eapply (apart_node_ne c U d); [done|done|apply block_sizes; by right|done|done].
  - rewrite payload_length. lia.
  - intros q bs Hq. apply HC in Hq as (d & Hd & -> & ->). rewrite !payload_length.
    pose proof (block_sizes d ltac:(by right)). pose proof (apart_cons_disj _ _ _ Hap Hd).
    unfold disj, cend, node in *. lia.
Qed.
End blocks.

(** The world's view of the abstract heap after a call returned [r]. *)
Definition payload_at (m : mem) (p : Z) : list Z :=
  bytes_at m p (Z.to_nat (default 0 (load 8 (p - 8) m) - 32)).

Definition observe (m : mem) (o : op) (r : Z) (H : heap) : heap :=
  match o with
  | Malloc _ => <[r := payload_at m r]> H
  | Free p => delete p H
  | Realloc p _ => <[r := payload_at m r]> (delete p H)
  | Store p i b => alter (<[i := b]>) p H
  | Load _ _ => H
  end.

Lemma payload_at_ok m U c : used m U → c ∈ U → payload_at m (node c) = payload m c.
Proof.
  intros HU Hc. pose proof (used_header m U c HU Hc) as E.
  unfold payload_at, payload. unfold sizeof_ObjHeader, off_objectSize in E.
  replace (node c - 8) with (node c - 16 + 8) by lia. by rewrite E.
Qed.

(** ** Writes into a payload *)

#[export] Instance contents_perm m : Proper ((≡ₚ) ==> (=) ==> iff) (contents m).
Proof. intros U U' HU H ? <-. unfold contents. by setoid_rewrite HU. Qed.

(** Only the payload of [c] differs. *)
Definition payload_frame (c : chunk) (m m' : mem) : Prop :=
  grows m m' ∧ ∀ a, a < node c ∨ cend c - 16 ≤ a → m' !! a = m !! a.

Lemma payload_chunk_frame c m m' : 48 ≤ csize c → payload_frame c m m' → chunk_frame [c] m m'.
Proof.
  intros Hs [HG HF]. split; [done|]. intros a Ha. apply HF. specialize (Ha c ltac:(left)).
  unfold node, sizeof_ObjHeader, cend in *. lia.
Qed.

Lemma contents_payload m m' U c H :
  contents m (c :: U) H → payload_frame c m m' → apart (c :: U) → Forall (cvalid m) (c :: U) →
  contents m' (c :: U) (<[node c := payload m' c]> H).
Proof.
  intros HC HP Ha Hv. pose proof (cvalid_size _ _ (Forall_inv Hv)) as Hs.
  rewrite <-insert_delete_eq. apply contents_cons; [done| |].
  - eapply Forall_impl; [exact Hv|]. intros. eapply cvalid_grows; [apply HP|done].
  - eapply (contents_frame m); [by apply contents_delete|by apply payload_chunk_frame| |].
    + constructor; [apply Ha|done].
    + by apply Forall_cons in Hv as [_ ?].
Qed.

Lemma payload_store c m i b :
  48 ≤ csize c → (i < Z.to_nat (csize c - 32))%nat →
  let m' := <[node c + Z.of_nat i := b]> m in
  payload_frame c m m' ∧ payload m' c = <[i := b]> (payload m c).
Proof.
  intros Hs Hi m'. split; [split|].
  - intros a Hax. unfold m'. destruct (decide (node c + Z.of_nat i = a)) as [->|];
      [by rewrite lookup_insert_eq|by rewrite lookup_insert_ne].
  - intros a Hax. unfold m'. rewrite lookup_insert_ne; [done|].
    unfold node, sizeof_ObjHeader, cend in *. lia.
  - apply list_eq. intros j. unfold payload. destruct (decide (j < Z.to_nat (csize c - 32)))%nat.
    + rewrite bytes_at_lookup by done. unfold m'. destruct (decide (i = j)) as [->|].
      * rewrite lookup_insert_eq. rewrite list_lookup_insert_eq; [done|by rewrite bytes_at_length].
      * rewrite lookup_insert_ne by lia. rewrite list_lookup_insert_ne by done.
        by rewrite bytes_at_lookup.
    + rewrite !lookup_ge_None_2; [done|rewrite ?length_insert, bytes_at_length; lia..].
Qed.

Lemma contents_take m U H p : contents m U H → is_Some (H !! p) → ∃ c U', p = node c ∧ U ≡ₚ c :: U'.
Proof.
  intros HC [bs Hbs]. apply HC in Hbs as (c & Hc & -> & _). exists c.
  apply list_elem_of_split in Hc as (U1 & U2 & ->). exists (U1 ++ U2).
  split; [done|]. by rewrite Permutation_middle.
Qed.

(** ** Accounting *)

(** The bytes that live blocks occupy, tags included. *)
Definition live_bytes (H : heap) : Z :=
  map_fold (λ _ bs acc, Z.of_nat (length bs) + 32 + acc) 0 H.

Lemma live_bytes_insert H p bs :
  H !! p = None → live_bytes (<[p := bs]> H) = Z.of_nat (length bs) + 32 + live_bytes H.
Proof. intros Hp. unfold live_bytes. rewrite map_fold_insert_L; [done|lia|done]. Qed.

Lemma contents_live_bytes m U H :
  contents m U H → apart U → Forall (cvalid m) U → live_bytes H = sizes U.
Proof.
  revert H. induction U as [|c U IH]; intros H HC Ha Hv.
  - assert (H = ∅) as ->; [|done]. apply map_empty. intros p. apply eq_None_not_Some.
    intros [bs (c & Hc%elem_of_nil & _)%HC]. done.
  - pose proof (contents_lookup _ _ _ c HC ltac:(left)) as Hc.
    rewrite <-(insert_delete_id _ _ _ Hc), live_bytes_insert by apply lookup_delete_eq.
    rewrite (IH (delete (node c) H)).
    + rewrite payload_length, sizes_cons. pose proof (cvalid_size _ _ (Forall_inv Hv)). lia.
    + by apply contents_delete.
    + by destruct Ha.
    + by apply Forall_cons in Hv as [_ ?].
Qed.

(** ** What a client needs of a heap invariant *)

Lemma used_payload m m' U c :
  used m (c :: U) → apart (c :: U) → payload_frame c m m' → used m' (c :: U).
Proof.
  intros [[Hvc HvU]%Forall_cons [Htc HtU]%Forall_cons] Ha HP.
  pose proof (cvalid_size _ _ Hvc) as Hs.
  destruct (used_frame [c] m m' U (payload_chunk_frame _ _ _ Hs HP) Ha) as [Hv' Ht']; [done|].
  split; constructor; [eapply cvalid_grows; [apply HP|done]|done| |done].
  destruct HP as [_ HP]. eapply tagged_agree; [| | |exact Htc]; [lia|..]; intros a Ha0;
    symmetry; apply HP; unfold node, sizeof_ObjHeader, cend in *; lia.
Qed.

(** [inv w K U]: in state [w] the allocator owns the blocks [K] and has handed
    out the blocks [U].  Clients may write into the payload of their blocks. *)
Class HeapInv {W : Type} (wmem : W → mem) (put_mem : mem → W → W)
    (inv : W → list chunk → list chunk → Prop) : Prop := {
  inv_used w K U : inv w K U → used (wmem w) U;
  inv_apart w K U : inv w K U → apart (K ++ U);
  inv_perm w K U U' : U ≡ₚ U' → inv w K U → inv w K U';
  inv_payload w K U c m' :
    inv w K (c :: U) → payload_frame c (wmem w) m' → inv (put_mem m' w) K (c :: U);
  wmem_put w m' : wmem (put_mem m' w) = m';
}.

Section client.
Context {W : Type} {wmem : W → mem} {put_mem : mem → W → W}.
Context {inv : W → list chunk → list chunk → Prop} {Hinv : HeapInv wmem put_mem inv}.

Definition rep (w : W) (H : heap) : Prop := ∃ K U, inv w K U ∧ contents (wmem w) U H.

Lemma inv_valid w K U : inv w K U → Forall (cvalid (wmem w)) U.
Proof. intros H. apply (inv_used _ _ _ H). Qed.

Lemma inv_apart_used w K U : inv w K U → apart U.
Proof. intros (_ & H & _)%inv_apart%apart_app. done. Qed.

Lemma alloc_contents w w' K K' U H c size :
  inv w K U → contents (wmem w) U H → inv w' K' (c :: U) →
  chunk_frame (c :: K) (wmem w) (wmem w') → size + 32 ≤ csize c →
  contents (wmem w') (c :: U) (<[node c := payload (wmem w') c]> H) ∧
  fresh_block H size (node c) (payload (wmem w') c).
Proof.
  intros Hw HC Hw' HF Hs. pose proof (inv_apart _ _ _ Hw) as (_ & _ & HKU)%apart_app.
  pose proof (inv_apart_used _ _ _ Hw') as Hap.
  assert (HC' : contents (wmem w') U H).
  { eapply contents_frame; [done|exact HF| |by eapply inv_valid]. constructor; [apply Hap|done]. }
  pose proof (inv_valid _ _ _ Hw') as Hv.
  split; [by apply contents_cons|by eapply contents_fresh].
Qed.

Lemma free_contents w w' K U H c :
  inv w K (c :: U) → contents (wmem w) (c :: U) H →
  chunk_frame (c :: K) (wmem w) (wmem w') →
  contents (wmem w') U (delete (node c) H).
Proof.
  intros Hw HC HF. pose proof (inv_apart _ _ _ Hw) as Ha. pose proof (inv_valid _ _ _ Hw) as Hv.
  assert (Hperm : K ++ c :: U ≡ₚ (c :: K) ++ U)
    by (rewrite <-app_comm_cons; by rewrite Permutation_middle).
  rewrite Hperm in Ha. pose proof Ha as (_ & _ & HKU)%apart_app.
  apply (contents_frame (wmem w) _ _ _ (c :: K)); [|done|done|by apply Forall_cons in Hv as [_ ?]].
  apply contents_delete; [|done|done]. by destruct (apart_cons_app c K U Ha).
Qed.

Lemma delete_null w K U H : inv w K U → contents (wmem w) U H → delete NULL H = H.
Proof.
  intros Hw HC. apply delete_id, eq_None_not_Some.
  intros (c & U' & Hc & HU)%(contents_take _ _ _ _ HC).
  assert (cvalid (wmem w) c) as Hv%cvalid_node; [|unfold NULL in Hc; lia].
  pose proof (inv_valid _ _ _ Hw) as Hv. rewrite HU in Hv. by inversion Hv.
Qed.

(** A store into a live block. *)
Lemma store_contents w H p i b :
  rep w H → valid_op H (Store p i b) →
  let m' := <[p + Z.of_nat i := b]> (wmem w) in
  is_Some (wmem w !! (p + Z.of_nat i)) ∧
  spec_step H (Store p i b) 0 (observe m' (Store p i b) 0 H) ∧
  rep (put_mem m' w) (observe m' (Store p i b) 0 H).
Proof.
  intros (K & U & Hw & HC) (Hb & bs & Hbs & Hi) m'. simpl.
  assert (Hs : is_Some (H !! p)) by eauto.
  destruct (contents_take _ _ _ _ HC Hs) as (c & U' & -> & HU).
  rewrite HU in HC. apply (inv_perm _ _ _ _ HU) in Hw.
  pose proof (contents_lookup _ _ _ c HC ltac:(left)) as Hc.
  rewrite Hbs in Hc. injection Hc as ->. rewrite payload_length in Hi.
  pose proof (inv_valid _ _ _ Hw) as Hv. pose proof (Forall_inv Hv) as (_ & _ & Hsz & Hm).
  destruct (payload_store c (wmem w) i b) as [HP Heqp]; [lia|done|]. fold m' in HP, Heqp.
  assert (alter (<[i:=b]>) (node c) H = <[node c := <[i:=b]> (payload (wmem w) c)]> H) as ->.
  { apply map_eq. intros q. destruct (decide (q = node c)) as [->|].
    - by rewrite lookup_alter_eq, lookup_insert_eq, Hbs.
    - by rewrite lookup_alter_ne, lookup_insert_ne. }
  split_and!.
  - apply Hm. unfold node, sizeof_ObjHeader, cend. lia.
  - econstructor; [done|]. by rewrite payload_length.
  - exists K, (c :: U'). split; [by apply inv_payload|]. rewrite wmem_put, <-Heqp.
    eapply contents_payload; [done|done|by eapply inv_apart_used|done].
Qed.

(** A load from a live block. *)
Lemma load_contents w H p i :
  rep w H → valid_op H (Load p i) →
  ∃ b, wmem w !! (p + Z.of_nat i) = Some b ∧ spec_step H (Load p i) b H.
Proof.
  intros (K & U & Hw & HC) (bs & Hbs & Hi).
  pose proof Hbs as (c & Hc & -> & ->)%HC. rewrite payload_length in Hi.
  pose proof (inv_valid _ _ _ Hw) as Hv. rewrite Forall_forall in Hv.
  destruct (Hv c Hc) as (_ & _ & Hsz & Hm).
  destruct (Hm (node c + Z.of_nat i)) as [b Hb]; [unfold node, sizeof_ObjHeader, cend; lia|].
  exists b. split; [done|]. econstructor; [done|].
  unfold payload. rewrite bytes_at_lookup by done. by rewrite Hb.
Qed.

(** Copying [n] bytes from the payload of [d] to that of [c]. *)
Lemma copy_contents w K U c d H n :
  inv w K (c :: U) → contents (wmem w) (c :: U) H → d ∈ U →
  0 ≤ n ≤ csize c - 32 → n ≤ csize d - 32 →
  ∃ m', copy_bytes (Z.to_nat n) (node c) (node d) (wmem w) = Some m' ∧
    inv (put_mem m' w) K (c :: U) ∧
    contents m' (c :: U) (<[node c := payload m' c]> H) ∧
    take (Z.to_nat n) (payload m' c) = take (Z.to_nat n) (payload (wmem w) d).
Proof.
  intros Hw HC Hd Hn1 Hn2. pose proof (inv_valid _ _ _ Hw) as Hv.
  pose proof (inv_apart_used _ _ _ Hw) as Ha.
  pose proof (apart_cons_disj _ _ _ Ha Hd) as Hdis.
  pose proof (Forall_inv Hv) as (_ & _ & Hsc & Hmc).
  assert (cvalid (wmem w) d) as (_ & _ & Hsd & Hmd).
  { rewrite Forall_forall in Hv. apply Hv. by right. }
  unfold disj, cend in *.
  destruct (copy_bytes_spec (Z.to_nat n) (node c) (node d) (wmem w)) as (m' & Hcp & HG & Hout & Hin).
  { eapply mapped_sub; [exact Hmd|..]; unfold node, sizeof_ObjHeader; lia. }
  { eapply mapped_sub; [exact Hmc|..]; unfold node, sizeof_ObjHeader; lia. }
  { unfold node, sizeof_ObjHeader. lia. }
  assert (HP : payload_frame c (wmem w) m').
  { split; [done|]. intros a Hax. apply Hout. unfold node, sizeof_ObjHeader, cend in *. lia. }
  exists m'. split_and!; [done|by apply inv_payload|by eapply contents_payload|].
  apply list_eq. intros j. destruct (decide (j < Z.to_nat n)%nat).
  - rewrite !lookup_take_lt by done. unfold payload. rewrite !bytes_at_lookup by lia.
    by rewrite Hin by lia.
  - by rewrite !lookup_take_ge by lia.
Qed.

(** Freeing [d] after its contents moved to the new block [c]. *)
Lemma move_contents w w' K U' H c d x :
  inv w K (d :: c :: U') → contents (wmem w) (d :: c :: U') (<[node c := x]> H) →
  chunk_frame (d :: K) (wmem w) (wmem w') →
  payload (wmem w') c = payload (wmem w) c ∧
  contents (wmem w') (c :: U') (<[node c := payload (wmem w') c]> (delete (node d) H)).
Proof.
  intros Hw HC HF. pose proof (inv_valid _ _ _ Hw) as Hv.
  pose proof (inv_apart_used _ _ _ Hw) as Ha.
  assert (Hne : node c ≠ node d).
  { eapply apart_node_ne; [exact Ha|..|left]; eapply cvalid_size;
      rewrite Forall_forall in Hv; apply Hv; [left|right; left]. }
  pose proof (free_contents w w' K (c :: U') _ d Hw HC HF) as HC'.
  pose proof (contents_lookup _ _ _ c HC' ltac:(left)) as E.
  pose proof (contents_lookup _ _ _ c HC ltac:(right; left)) as E'.
  rewrite lookup_delete_ne in E by done. rewrite E in E'. injection E' as E'.
  rewrite lookup_insert_eq in E. injection E as E. split; [done|].
  rewrite <-E, <-delete_insert_ne by done. done.
Qed.
End client.
