(* ===== verification/MyMalloc.v ===== *)
(** * The one-layer allocator ([myAlloc_1Layer/MyMalloc.cpp])

    One global object [TheAllocator] with 65 size classes 8 bytes apart, a lock
    and counters; [malloc], [free] and [realloc] on top of it.  [wf] is the heap
    invariant: it relates a state to the free blocks [F] and the allocated
    blocks [U].  The theorems show that the C interface preserves it, returns
    disjoint blocks of the right size and never faults. *)

From S2P Require Import Prelude Memory OS FreeList FreeListRep Arena.
From stdpp Require Import base numbers list gmap sorting strings.
Open Scope Z_scope.

(** ** State *)

Record Allocator : Type := mkAllocator {
  a_freels : list Z;       (* freels_ *)
  a_m : bool;              (* _m: is the mutex held? *)
  a_heapSize : Z;
  a_initialized : Z;
  a_verbose : Z;
  a_mallocCalls : Z;
  a_freeCalls : Z;
  a_reallocCalls : Z;
  a_callocCalls : Z;
}.

(** The process: memory, the allocator object and the number of registered
    exit handlers. *)
Record World : Type := mkWorld {
  w_mem : mem;
  TheAllocator : Allocator;
  w_atexit : nat;
}.

(** The constructor [Allocator()]; [freels_] is zero because [TheAllocator] has
    static storage. *)
Definition Allocator_init : Allocator := mkAllocator (replicate 65 NULL) false 0 0 0 0 0 0 0.

Definition World_init : World := mkWorld ∅ Allocator_init 0.

Definition put_freels (h : list Z) (a : Allocator) : Allocator :=
  mkAllocator h (a_m a) (a_heapSize a) (a_initialized a) (a_verbose a) (a_mallocCalls a)
    (a_freeCalls a) (a_reallocCalls a) (a_callocCalls a).

Definition put_m (b : bool) (a : Allocator) : Allocator :=
  mkAllocator (a_freels a) b (a_heapSize a) (a_initialized a) (a_verbose a) (a_mallocCalls a)
    (a_freeCalls a) (a_reallocCalls a) (a_callocCalls a).

Definition put_heapSize (z : Z) (a : Allocator) : Allocator :=
  mkAllocator (a_freels a) (a_m a) z (a_initialized a) (a_verbose a) (a_mallocCalls a)
    (a_freeCalls a) (a_reallocCalls a) (a_callocCalls a).

Definition put_calls (mc fc rc cc : Z) (a : Allocator) : Allocator :=
  mkAllocator (a_freels a) (a_m a) (a_heapSize a) (a_initialized a) (a_verbose a) mc fc rc cc.

Definition on_alloc (f : Allocator → Allocator) (w : World) : World :=
  mkWorld (w_mem w) (f (TheAllocator w)) (w_atexit w).

(** Code that works on [freels_] and memory. *)
Definition get_fl (w : World) : FL := mkFL (a_freels (TheAllocator w)) (w_mem w).
Definition put_fl (s : FL) (w : World) : World :=
  mkWorld (fmem s) (put_freels (freels_ s) (TheAllocator w)) (w_atexit w).
Definition onFL {A} : M FL A → M World A := zoom get_fl put_fl.

Definition lock : M World unit := λ w,
  if a_m (TheAllocator w) then Err Deadlock else Ok tt (on_alloc (put_m true) w).
Definition unlock : M World unit := modify (on_alloc (put_m false)).

Section code.
Context {os : OS}.

(** ** Operations *)

Definition initialize : M World unit := λ w,
  let a := TheAllocator w in
  let verbose := match os_getenv "MALLOCVERBOSE" with
                 | Some s => if decide (s = "NO"%string) then 0 else 1
                 | None => 1
                 end in
  Ok tt (mkWorld (w_mem w)
    (mkAllocator (replicate 65 NULL) (a_m a) (a_heapSize a) (a_initialized a) verbose
       (a_mallocCalls a) (a_freeCalls a) (a_reallocCalls a) (a_callocCalls a))
    (S (w_atexit w))).

(** [if (!_initialized) if (CAS(&_initialized, 0, 1)) initialize();] *)
Definition ensure_initialized : M World unit := λ w,
  let a := TheAllocator w in
  if a_initialized a =? 0 then
    initialize (on_alloc (λ a, mkAllocator (a_freels a) (a_m a) (a_heapSize a) 1 (a_verbose a)
       (a_mallocCalls a) (a_freeCalls a) (a_reallocCalls a) (a_callocCalls a)) w)
  else Ok tt w.

Definition getMemoryFromOS (size : Z) : M World Z := λ w,
  let w := on_alloc (λ a, put_heapSize (wrap64 (a_heapSize a + size)) a) w in
  Ok (os_sbrk (w_mem w) size) (mkWorld (after_sbrk (w_mem w) size) (TheAllocator w) (w_atexit w)).

(** [allocateObject] from the computation of [totalSize] on. *)
Definition allocate_total (totalSize : Z) : M World Z :=
  lock;;
  o ← onFL (take_from_lists 8 totalSize);
  '(mem_, totalSize) ←
    (match o with
     | Some r => mret r
     | None => mem_ ← getMemoryFromOS totalSize; mret (mem_, totalSize)
     end);
  unlock;;
  onFL (set_allocated mem_ totalSize).

Definition allocateObject (size : Z) : M World Z :=
  ensure_initialized;;
  allocate_total (total_size size).

Definition freeObject (ptr : Z) : M World unit :=
  totalSize ← onFL (rd 8 (ptr - sizeof_ObjHeader + off_objectSize));
  lock;;
  if totalSize <? sizeof_DualLnkNode + 2 * sizeof_ObjHeader then unlock
  else onFL (set_free 8 ptr totalSize);; unlock.

Definition objectSize (ptr : Z) : M World Z :=
  sz ← onFL (rd 8 (ptr - sizeof_ObjHeader + off_objectSize));
  mret (wrap64 (sz - Z.shiftl sizeof_ObjHeader 1)).

Definition memcpy (dst src n : Z) : M World unit := λ w,
  match copy_bytes (Z.to_nat n) dst src (w_mem w) with
  | Some m => Ok tt (mkWorld m (TheAllocator w) (w_atexit w))
  | None => Err (Segv dst)
  end.

Definition increaseMallocCalls : M World unit := modify (on_alloc (λ a,
  put_calls (to_int32 (a_mallocCalls a + 1)) (a_freeCalls a) (a_reallocCalls a) (a_callocCalls a) a)).
Definition increaseFreeCalls : M World unit := modify (on_alloc (λ a,
  put_calls (a_mallocCalls a) (to_int32 (a_freeCalls a + 1)) (a_reallocCalls a) (a_callocCalls a) a)).
Definition increaseReallocCalls : M World unit := modify (on_alloc (λ a,
  put_calls (a_mallocCalls a) (a_freeCalls a) (to_int32 (a_reallocCalls a + 1)) (a_callocCalls a) a)).
Definition increaseCallocCalls : M World unit := modify (on_alloc (λ a,
  put_calls (a_mallocCalls a) (a_freeCalls a) (a_reallocCalls a) (to_int32 (a_callocCalls a + 1)) a)).

(** *** Debugging *)

Definition checkFreeLsConsist (index : Z) : M FL unit := check_class false false 8 index.
Definition checkALL : M World unit := onFL (check_all checkFreeLsConsist classes).

(** The three values of the last line printed: [_heapSize], the sum of the
    free blocks, and whether they are equal. *)
Definition print : M World (Z * Z * bool) :=
  sumfreelssize ← onFL sumFreeListSize;
  hs ← gets (λ w, a_heapSize (TheAllocator w));
  mret (hs, sumfreelssize, hs =? sumfreelssize).

Definition atExitHandler : M World unit :=
  v ← gets (λ w, a_verbose (TheAllocator w));
  if v =? 0 then mret tt else print;; checkALL.

(** *** C interface *)

Definition malloc (size : Z) : M World Z :=
  assert_ (0 <? size);;
  ptr ← allocateObject size;
  increaseMallocCalls;;
  mret ptr.

Definition free (ptr : Z) : M World unit :=
  if ptr =? NULL then mret tt else
  increaseFreeCalls;;
  freeObject ptr.

Definition realloc (ptr size : Z) : M World Z :=
  increaseReallocCalls;;
  newptr ← allocateObject size;
  (if negb (ptr =? NULL) then
     sizeToCopy ← objectSize ptr;
     let sizeToCopy := if size <? sizeToCopy then size else sizeToCopy in
     memcpy newptr ptr sizeToCopy;;
     freeObject ptr
   else mret tt);;
  mret newptr.

End code.

(** ** The invariant *)

Record wf (w : World) (F : list (list chunk)) (U : list chunk) : Prop := {
  wf_rep : fl_rep 8 (a_freels (TheAllocator w)) (w_mem w) F;
  wf_used : used (w_mem w) U;
  wf_apart : apart (concat F ++ U);
  wf_mult : Forall (λ c, csize c `mod` 8 = 0) (concat F ++ U);
  wf_heap : a_heapSize (TheAllocator w) = wrap64 (sizes (concat F ++ U));
  wf_unlocked : a_m (TheAllocator w) = false;
  wf_init : a_initialized (TheAllocator w) = 0 → F = replicate 65 [] ∧ U = [];
  wf_low : unmapped (w_mem w) 0 16;
}.

Lemma wf_World_init : wf World_init (replicate 65 []) [].
Proof. split; try done. apply fl_rep_empty. Qed.

(** ** Proofs *)

Section proofs.
Context {os : OS} {Hos : SbrkLaws os}.

Lemma ensure_initialized_ok w F U :
  wf w F U →
  ∃ w', ensure_initialized w = Ok tt w' ∧ wf w' F U ∧ w_mem w' = w_mem w ∧
    a_initialized (TheAllocator w') ≠ 0.
Proof.
  intros [Hr HU Ha Hm Hh Hl Hi Hlow]. unfold ensure_initialized.
  destruct (Z.eqb_spec (a_initialized (TheAllocator w)) 0) as [E|E].
  - eexists. split; [done|]. split; [|done]. destruct (Hi E) as [-> ->].
    split; simpl; try done. apply fl_rep_empty.
  - exists w. split_and!; done.
Qed.

(** What a successful call of [allocateObject] guarantees: the block [c] is
    new, large enough for the request and the invariant holds with [c]
    allocated; no byte outside [c] and the free blocks changed. *)
Definition allocated (w : World) (F : list (list chunk)) (U : list chunk) (total : Z)
    (c : chunk) (F' : list (list chunk)) (w' : World) : Prop :=
  wf w' F' (c :: U) ∧ total ≤ csize c ∧
  chunk_frame (c :: concat F) (w_mem w) (w_mem w').

(** The part of [allocateObject] after the free lists or the OS gave [c]. *)
Lemma allocate_finish w h m F F' U c total hs :
  fl_rep 8 h m F' → cvalid m c → used m U → apart (c :: concat F' ++ U) →
  Forall (λ d, csize d `mod` 8 = 0) (c :: concat F' ++ U) → total ≤ csize c →
  hs = wrap64 (sizes (c :: concat F' ++ U)) →
  chunk_frame (c :: concat F) (w_mem w) m → unmapped m 0 16 →
  a_initialized (TheAllocator w) ≠ 0 →
  ∃ w', (unlock;; onFL (set_allocated (addr c) (csize c)))
          (mkWorld m (put_heapSize hs (put_m true (put_freels h (TheAllocator w)))) (w_atexit w))
        = Ok (node c) w' ∧ allocated w F U total c F' w'.
Proof.
  intros Hr Hv HU Hap Hmult Htot Hhs HF Hlow Hinit.
  destruct (finish_spec 8 h m F' c U Hr Hv HU Hap) as (m' & Hrun & Hr' & HU' & HF').
  eexists. split.
  { erewrite bind_ok by reflexivity. eapply zoom_ok. exact Hrun. }
  assert (Hperm : concat F' ++ c :: U ≡ₚ c :: concat F' ++ U) by (by rewrite Permutation_middle).
  split_and!; [|done|].
  - split; simpl; rewrite ?Hperm; try done.
    eapply (unmapped_frame [c]); [|done|done]. eapply cvalid_low; [done|]. by constructor.
  - simpl. eapply chunk_frame_trans; [done|]. eapply chunk_frame_mono; [|done].
    intros d. rewrite list_elem_of_singleton. intros ->. left.
Qed.

Lemma allocate_from_lists w F U total c F' :
  wf w F U → a_initialized (TheAllocator w) ≠ 0 → 48 ≤ total < 2 ^ 34 → total `mod` 8 = 0 →
  take_block 8 total F = Some (c, F') →
  ∃ w', allocate_total total w = Ok (node c) w' ∧ allocated w F U total c F' w'.
Proof.
  intros [Hr HU Ha Hm Hh Hl _ Hlow] Hi Ht Hmod Htb.
  pose proof (take_from_lists_spec 8 _ _ F total ltac:(lia) Hr ltac:(lia) Hmod) as Htake.
  rewrite Htb in Htake. destruct Htake as (h' & m' & Htake & Hr' & HF & Hv & Hfit & Hap).
  destruct (take_block_cover 8 total F c F') as (Hs1 & Hd1 & Hm1); [destruct Hr; lia|lia|done|].
  assert (HU' : used m' U) by (by eapply used_frame).
  assert (Hap' : apart ((c :: concat F') ++ U)) by (by eapply apart_replace).
  apply Forall_app in Hm as [HmF HmU].
  destruct (allocate_finish w h' m' F F' U c total (a_heapSize (TheAllocator w)))
    as (w' & Hrun & Hres); try done.
  { rewrite app_comm_cons. apply Forall_app. split; [|done]. apply Hm1; [lia|done|done]. }
  { rewrite Hh, app_comm_cons, !sizes_app, Hs1, sizes_cons. done. }
  { eapply chunk_frame_mono; [|exact HF]. intros d Hd. by right. }
  { eapply unmapped_frame; [|exact HF|done]. eapply cvalid_low; [done|].
    by apply (fr_valid _ _ _ _ Hr). }
  exists w'. split; [|done]. unfold allocate_total.
  erewrite bind_ok by (unfold lock; rewrite Hl; reflexivity).
  erewrite bind_ok by (eapply zoom_ok; exact Htake). exact Hrun.
Qed.

Lemma allocate_from_os w F U total :
  wf w F U → a_initialized (TheAllocator w) ≠ 0 → 48 ≤ total < 2 ^ 34 → total `mod` 8 = 0 →
  take_block 8 total F = None → os_sbrk (w_mem w) total ≠ SBRK_FAILED →
  let c := mkChunk (os_sbrk (w_mem w) total) total in
  ∃ w', allocate_total total w = Ok (node c) w' ∧ allocated w F U total c F w'.
Proof.
  intros [Hr HU Ha Hm Hh Hl _ Hlow] Hi Ht Hmod Htb Hsb c.
  pose proof (take_from_lists_spec 8 _ _ F total ltac:(lia) Hr ltac:(lia) Hmod) as Htake.
  rewrite Htb in Htake.
  destruct (sbrk_chunk (w_mem w) total (concat F ++ U)) as (HF & Hv & Hap);
    [unfold max_chunk; lia|done| |done|].
  { apply Forall_app; split; [by apply (fr_valid _ _ _ _ Hr)|apply HU]. }
  fold c in HF, Hv, Hap. destruct (apart_cons_app _ _ _ Hap) as [HapF HapU].
  destruct (allocate_finish w (a_freels (TheAllocator w)) (after_sbrk (w_mem w) total) F F U c
    total (wrap64 (a_heapSize (TheAllocator w) + total))) as (w' & Hrun & Hres); try done.
  { by eapply fl_rep_frame. }
  { by eapply used_frame. }
  { by constructor. }
  { rewrite Hh, wrap64_add_l, sizes_cons. f_equal. simpl. lia. }
  { eapply chunk_frame_mono; [|exact HF]. intros d. rewrite list_elem_of_singleton. intros ->. left. }
  { eapply unmapped_frame; [|exact HF|done]. constructor; [|done].
    destruct (sbrk_fresh (w_mem w) total); simpl; [lia|done|lia]. }
  exists w'. split; [|done]. unfold allocate_total.
  erewrite bind_ok by (unfold lock; rewrite Hl; reflexivity).
  erewrite bind_ok by (eapply zoom_ok; exact Htake). exact Hrun.
Qed.

Lemma allocateObject_refines w F U size :
  wf w F U → 0 ≤ size < 2 ^ 33 →
  let total := total_size size in
  match take_block 8 total F with
  | Some (c, F') =>
    ∃ w', allocateObject size w = Ok (node c) w' ∧ allocated w F U total c F' w'
  | None =>
    os_sbrk (w_mem w) total ≠ SBRK_FAILED →
    let c := mkChunk (os_sbrk (w_mem w) total) total in
    ∃ w', allocateObject size w = Ok (node c) w' ∧ allocated w F U total c F w'
  end.
Proof.
  intros Hw0 Hsz total. destruct (total_size_spec size) as [Hmod Htot]; [lia|].
  fold total in Hmod, Htot.
  destruct (ensure_initialized_ok w F U Hw0) as (w1 & Hinit & Hw & Hmem & Hi1).
  unfold allocateObject, allocated. erewrite bind_ok by exact Hinit. fold total. rewrite <-Hmem.
  destruct (take_block 8 total F) as [[c F']|] eqn:Htb.
  - apply allocate_from_lists; [done|done|lia|done..].
  - intros Hsb. apply allocate_from_os; [done|done|lia|done..].
Qed.

(** [sbrk] failed: the header is written through [(void* )-1]. *)
Lemma allocateObject_oom w F U size :
  wf w F U → 0 ≤ size < 2 ^ 33 → take_block 8 (total_size size) F = None →
  os_sbrk (w_mem w) (total_size size) = SBRK_FAILED →
  allocateObject size w = Err (Segv 7).
Proof.
  intros Hw0 Hsz Htb Hsb. destruct (total_size_spec size) as [Hmod Htot]; [lia|].
  destruct (ensure_initialized_ok w F U Hw0) as (w1 & Hinit & Hw & Hmem & Hi1).
  unfold allocateObject, allocate_total. erewrite bind_ok by exact Hinit.
  destruct Hw as [Hr _ _ _ _ Hl _ Hlow]. rewrite <-Hmem in Hsb.
  pose proof (take_from_lists_spec 8 _ _ F (total_size size) ltac:(lia) Hr ltac:(lia) Hmod) as Htake.
  rewrite Htb in Htake.
  erewrite bind_ok by (unfold lock; rewrite Hl; reflexivity).
  erewrite bind_ok by (eapply zoom_ok; exact Htake).
  erewrite bind_ok by (unfold getMemoryFromOS; reflexivity). simpl. rewrite Hsb.
  erewrite bind_ok by reflexivity. apply zoom_err. unfold set_allocated.
  apply bind_err. unfold wr. simpl. change (SBRK_FAILED + off_objectSize) with 7.
  unfold after_sbrk. rewrite Hsb. rewrite mappedb_false; [done|lia|]. apply Hlow. lia.
Qed.

(** ** freeObject, objectSize *)

Lemma header_read w F U c :
  wf w F U → c ∈ U →
  onFL (rd 8 (node c - sizeof_ObjHeader + off_objectSize)) w = Ok (csize c) w.
Proof.
  intros Hw Hc. unfold onFL, zoom, rd. simpl.
  rewrite (used_header _ U c (wf_used _ _ _ Hw) Hc). by destruct w as [? []].
Qed.

Lemma objectSize_ok w F U c :
  wf w F U → c ∈ U → objectSize (node c) w = Ok (csize c - 32) w.
Proof.
  intros Hw Hc. unfold objectSize. erewrite bind_ok by (by eapply header_read).
  destruct (wf_used _ _ _ Hw) as [Hv _]. rewrite Forall_forall in Hv.
  destruct (Hv c Hc) as (_ & _ & Hs & _). unfold max_chunk in Hs.
  change (Z.shiftl sizeof_ObjHeader 1) with 32. by rewrite wrap64_small by lia.
Qed.

Lemma wf_perm w F U U' : U ≡ₚ U' → wf w F U → wf w F U'.
Proof.
  intros HU [? ? ? ? ? ? Hi ?]. split; rewrite <-?HU; try done.
  intros E. destruct (Hi E) as [? ->]. split; [done|]. symmetry in HU.
  by apply Permutation_nil_r in HU.
Qed.

(** What a call of [freeObject] on an allocated block guarantees. *)
Lemma freeObject_ok w F U c :
  wf w F (c :: U) →
  ∃ w', freeObject (node c) w = Ok tt w' ∧
    wf w' (fl_insert (class_of 8 (csize c)) c F) U ∧
    chunk_frame (c :: concat F) (w_mem w) (w_mem w').
Proof.
  intros Hw. pose proof Hw as [Hr [Hv Ht] Ha Hm Hh Hl Hi Hlow].
  assert (Hperm : concat F ++ c :: U ≡ₚ c :: concat F ++ U) by (by rewrite Permutation_middle).
  rewrite Hperm in Ha, Hm, Hh. apply Forall_cons in Hv as [Hvc HvU].
  apply Forall_cons in Ht as [Htc HtU]. pose proof (cvalid_size _ _ Hvc) as Hs.
  destruct (set_free_spec 8 _ _ F c (class_of 8 (csize c)) ltac:(lia) ltac:(lia) Hr Hvc Htc)
    as (h' & m' & Hrun & Hr' & HF'); [apply (apart_cons_app _ _ _ Ha)|done|].
  assert (HpF : concat (fl_insert (class_of 8 (csize c)) c F) ≡ₚ c :: concat F).
  { apply fl_insert_perm. pose proof (class_of_le 8 (csize c)). unfold last_class in *.
    destruct Hr. lia. }
  assert (Hlows : Forall (λ c, 16 ≤ addr c) (c :: concat F)).
  { eapply cvalid_low; [done|]. constructor; [done|]. apply Hr. }
  eexists. split.
  { unfold freeObject. erewrite bind_ok by (eapply header_read; [done|left]).
    erewrite bind_ok by (unfold lock; rewrite Hl; reflexivity).
    change (sizeof_DualLnkNode + 2 * sizeof_ObjHeader) with 48.
    destruct (Z.ltb_spec (csize c) 48); [lia|].
    erewrite bind_ok by (eapply zoom_ok; exact Hrun). reflexivity. }
  split; [|done]. split; simpl; rewrite ?HpF; try done.
  - eapply (used_frame (c :: concat F)); [done|done|done].
  - intros E. by destruct (Hi E).
  - by eapply unmapped_frame.
Qed.

(** Only these fields matter for the invariant. *)
Lemma wf_same w w' F U :
  wf w F U → a_freels (TheAllocator w') = a_freels (TheAllocator w) →
  a_m (TheAllocator w') = a_m (TheAllocator w) →
  a_heapSize (TheAllocator w') = a_heapSize (TheAllocator w) →
  a_initialized (TheAllocator w') = a_initialized (TheAllocator w) →
  w_mem w' = w_mem w → wf w' F U.
Proof.
  intros [? ? ? ? ? ? ? ?] E1 E2 E3 E4 E5. split; rewrite ?E1, ?E2, ?E3, ?E4, ?E5; done.
Qed.
End proofs.
