(* ===== verification/MyMallocSpec.v ===== *)
(** * What the one-layer allocator promises to its clients

    A forward simulation from the code of [MyMalloc] to the abstract heap of
    [ClientSpec]: a client that respects the preconditions of the interface
    never makes the allocator fault, unless the operating system has no memory
    left.  The file also proves the exit handler, the accounting and the
    placement policy, and ends with runs on a concrete system. *)

From S2P Require Import Prelude Memory OS FreeList FreeListRep Arena MyMalloc ClientSpec.
From stdpp Require Import base numbers list gmap sorting strings.
Open Scope Z_scope.

(** ** Clients *)

(** One byte written or read by the client itself. *)
Definition store_byte (a b : Z) : M World unit := λ w,
  match w_mem w !! a with
  | Some _ => Ok tt (mkWorld (<[a := b]> (w_mem w)) (TheAllocator w) (w_atexit w))
  | None => Err (Segv a)
  end.

Definition load_byte (a : Z) : M World Z := λ w,
  match w_mem w !! a with Some b => Ok b w | None => Err (Segv a) end.

Definition exec {os : OS} (o : op) : M World Z :=
  match o with
  | Malloc size => malloc size
  | Free p => free p;; mret 0
  | Realloc p size => realloc p size
  | Store p i b => store_byte (p + Z.of_nat i) b;; mret 0
  | Load p i => load_byte (p + Z.of_nat i)
  end.

(** The invariant of [MyMalloc] in the form clients use. *)
Definition winv (w : World) (K U : list chunk) : Prop := ∃ F, K = concat F ∧ wf w F U.

Definition put_wmem (m : mem) (w : World) : World := mkWorld m (TheAllocator w) (w_atexit w).

#[export] Instance winv_heap : HeapInv w_mem put_wmem winv.
Proof.
  split.
  - intros w K U (F & -> & Hw). apply Hw.
  - intros w K U (F & -> & Hw). apply Hw.
  - intros w K U U' HU (F & -> & Hw). exists F. split; [done|]. by eapply wf_perm.
  - intros w K U c m' (F & -> & [Hr HU Ha Hm Hh Hl Hi Hlow]) HP.
    pose proof (Forall_inv (proj1 HU)) as Hv. pose proof (cvalid_size _ _ Hv) as Hs.
    pose proof (payload_chunk_frame _ _ _ Hs HP) as HF.
    pose proof Ha as Ha'. rewrite <-Permutation_middle in Ha'.
    apply apart_cons_app in Ha' as [Ha1 Ha2].
    exists F. split; [done|]. split; simpl; try done.
    + by eapply fl_rep_frame.
    + by eapply used_payload.
    + eapply (unmapped_frame [c]); [|done|done]. eapply cvalid_low; [done|]. by constructor.
  - done.
Qed.

Definition heap_rep : World → heap → Prop := rep (wmem := w_mem) (inv := winv).

(** ** Simulation of each call *)

Section simulation.
Context {os : OS} {Hos : SbrkLaws os}.

(** The OS refused the memory the call [o] asks for: between 32 and 48 bytes more than the
    size of the object. *)
Definition out_of_memory (w : World) (o : op) : Prop :=
  ∃ size, requested o = Some size ∧ refused 48 (w_mem w) size.

Lemma allocateObject_cases w F U size :
  wf w F U → 0 ≤ size < max_request →
  (∃ c F' w', allocateObject size w = Ok (node c) w' ∧ wf w' F' (c :: U) ∧
     size + 32 ≤ csize c ∧ chunk_frame (c :: concat F) (w_mem w) (w_mem w')) ∨
  (allocateObject size w = Err (Segv 7) ∧ refused 48 (w_mem w) size).
Proof.
  intros Hw Hs. unfold max_request in Hs. destruct (total_size_spec size) as [_ Htot]; [lia|].
  pose proof (allocateObject_refines w F U size Hw ltac:(lia)) as Href. simpl in Href.
  destruct (take_block 8 (total_size size) F) as [[c F']|] eqn:Htb.
  - left. destruct Href as (w' & Hrun & ? & ? & ?). exists c, F', w'. split_and!; [done..|lia|done].
  - destruct (decide (os_sbrk (w_mem w) (total_size size) = SBRK_FAILED)) as [E|E].
    + right. split; [|exists (total_size size); split; [lia|done]].
      eapply allocateObject_oom; [done|lia|done..].
    + left. destruct (Href E) as (w' & Hrun & ? & ? & ?). eexists _, F, w'.
      split_and!; [exact Hrun|done|lia|done].
Qed.

(** The outcome of a call that the specification allows. *)
Definition simulates (w : World) (H : heap) (o : op) : Prop :=
  (∃ r w', exec o w = Ok r w' ∧ spec_step H o r (observe (w_mem w') o r H) ∧
           heap_rep w' (observe (w_mem w') o r H)) ∨
  (exec o w = Err (Segv 7) ∧ out_of_memory w o).

Lemma malloc_sim w H size : heap_rep w H → valid_op H (Malloc size) → simulates w H (Malloc size).
Proof.
  intros (K & U & (F & -> & Hw) & HC) Hval. simpl in Hval.
  unfold simulates. simpl. unfold malloc.
  rewrite (bind_ok _ _ w tt w) by (apply assert_ok, Z.ltb_lt; lia).
  destruct (allocateObject_cases w F U size Hw ltac:(lia)) as
    [(c & F' & w' & Hrun & Hw' & Hs & HF)|[Hrun Ho]].
  - left. erewrite bind_ok by exact Hrun. do 2 eexists. split; [reflexivity|]. simpl.
    destruct (alloc_contents (inv := winv) w w' (concat F) (concat F') U H c size) as [HC' Hfr];
      [by exists F|done|by exists F'|done|done|].
    rewrite (payload_at_ok _ (c :: U)) by (apply Hw' || left). split; [by constructor|].
    exists (concat F'), (c :: U). split; [|done]. exists F'. split; [done|]. by eapply wf_same.
  - right. erewrite bind_err by exact Hrun. split; [done|]. by exists size.
Qed.

Lemma free_sim w H p : heap_rep w H → valid_op H (Free p) → simulates w H (Free p).
Proof.
  intros (K & U & (F & -> & Hw) & HC) Hval. simpl in Hval. left. simpl. unfold free.
  assert (Hi : winv w (concat F) U) by (by exists F).
  destruct (Z.eqb_spec p NULL) as [->|Hne].
  - exists 0, w. split; [done|]. rewrite (delete_null w _ U H Hi HC).
    split; [constructor|]. by exists (concat F), U.
  - destruct Hval as [->|Hs]; [done|].
    destruct (contents_take _ _ _ _ HC Hs) as (c & U' & -> & HU).
    rewrite HU in HC. apply (wf_perm _ _ _ _ HU) in Hw.
    destruct (increaseFreeCalls w) as [[] w1|] eqn:E1; [|done].
    assert (Hw1 : wf w1 F (c :: U') ∧ w_mem w1 = w_mem w)
      by (injection E1 as <-; split; [by eapply wf_same|done]). destruct Hw1 as [Hw1 Em].
    destruct (freeObject_ok w1 F U' c Hw1) as (w' & Hrun & Hw' & HF).
    exists 0, w'. split; [|split; [by constructor|]].
    + rewrite bind_bind. erewrite bind_ok by exact E1. by erewrite bind_ok by exact Hrun.
    + do 2 eexists. split; [by eexists; split; [reflexivity|exact Hw']|].
      rewrite Em in HF. eapply (free_contents (inv := winv) w); [by exists F|done|done].
Qed.

Lemma store_sim w H p i b : heap_rep w H → valid_op H (Store p i b) → simulates w H (Store p i b).
Proof.
  intros Hr Hv. destruct (store_contents (inv := winv) w H p i b Hr Hv) as ([b0 Hb0] & Hs & Hr').
  left. exists 0. eexists. split; [|exact (conj Hs Hr')].
  simpl. unfold store_byte. by erewrite bind_ok by (rewrite Hb0; reflexivity).
Qed.

Lemma load_sim w H p i : heap_rep w H → valid_op H (Load p i) → simulates w H (Load p i).
Proof.
  intros Hr Hv. destruct (load_contents (inv := winv) w H p i Hr Hv) as (b & Hb & Hs).
  left. exists b, w. split; [|done]. simpl. unfold load_byte. by rewrite Hb.
Qed.

(** The part of [realloc] after the allocation, for an old block [d]. *)
Definition move_old (newptr ptr size : Z) : M World unit :=
  sizeToCopy ← objectSize ptr;
  let sizeToCopy := if size <? sizeToCopy then size else sizeToCopy in
  memcpy newptr ptr sizeToCopy;;
  freeObject ptr.

Lemma move_old_sim w F U c d H x size :
  wf w F (c :: U) → contents (w_mem w) (c :: U) (<[node c := x]> H) → d ∈ U →
  0 ≤ size ≤ csize c - 32 →
  let old := payload (w_mem w) d in
  let n := Nat.min (Z.to_nat size) (length old) in
  ∃ w' F' U', move_old (node c) (node d) size w = Ok tt w' ∧ wf w' F' (c :: U') ∧
    contents (w_mem w') (c :: U') (<[node c := payload (w_mem w') c]> (delete (node d) H)) ∧
    take n (payload (w_mem w') c) = take n old.
Proof.
  intros Hw HC Hd Hsz old n.
  assert (Hsd : 48 ≤ csize d).
  { destruct (wf_used _ _ _ Hw) as [Hv _]. rewrite Forall_forall in Hv.
    eapply cvalid_size, Hv. by right. }
  set (k := if size <? csize d - 32 then size else csize d - 32).
  assert (Hk : 0 ≤ k ≤ csize c - 32 ∧ k ≤ csize d - 32 ∧ n = Z.to_nat k).
  { unfold n, old. rewrite payload_length. unfold k.
    destruct (Z.ltb_spec size (csize d - 32)); lia. }
  destruct Hk as (Hk1 & Hk2 & ->).
  destruct (copy_contents (inv := winv) w (concat F) U c d (<[node c := x]> H) k) as
    (m' & Hcp & (F1 & EF & Hw1) & HC1 & Htk); [by exists F|done..|].
  set (w1 := put_wmem m' w) in *. rewrite insert_insert_eq in HC1.
  pose proof Hd as (U1 & U2 & EU)%list_elem_of_split.
  assert (HU : c :: U ≡ₚ d :: c :: U1 ++ U2).
  { rewrite EU, <-Permutation_middle. apply Permutation_swap. }
  pose proof (wf_perm _ _ _ _ HU Hw1) as Hw2. rewrite HU in HC1.
  destruct (freeObject_ok w1 F1 (c :: U1 ++ U2) d Hw2) as (w' & Hrun & Hw' & HF).
  destruct (move_contents (inv := winv) w1 w' (concat F1) (U1 ++ U2) H c d (payload m' c))
    as [Hp HC']; [by exists F1|done|done|].
  eexists w', _, (U1 ++ U2). split_and!; [|exact Hw'|done|by rewrite Hp].
  unfold move_old. erewrite bind_ok by (eapply objectSize_ok; [exact Hw|by right]).
  cbv zeta. fold k. erewrite bind_ok; [exact Hrun|]. unfold memcpy. by rewrite Hcp.
Qed.

Lemma realloc_sim w H p size :
  heap_rep w H → valid_op H (Realloc p size) → simulates w H (Realloc p size).
Proof.
  intros (K & U & (F & -> & Hw) & HC) (Hsz & Hp). unfold simulates. simpl. unfold realloc.
  assert (Hi : winv w (concat F) U) by (by exists F).
  destruct (increaseReallocCalls w) as [[] w1|] eqn:E1; [|done].
  assert (Hw1 : wf w1 F U ∧ w_mem w1 = w_mem w)
    by (injection E1 as <-; split; [by eapply wf_same|done]). destruct Hw1 as [Hw1 Em].
  erewrite bind_ok by exact E1.
  destruct (allocateObject_cases w1 F U size Hw1 Hsz) as
    [(c & F' & w2 & Hrun & Hw2 & Hsc & HF)|[Hrun Ho]]; last first.
  { right. rewrite Em in Ho. erewrite bind_err by exact Hrun. split; [done|]. by exists size. }
  left. erewrite bind_ok by exact Hrun. rewrite Em in HF.
  destruct (alloc_contents (inv := winv) w w2 (concat F) (concat F') U H c size) as [HC2 Hfr];
    [done|done|by exists F'|done|done|].
  destruct (Z.eqb_spec p NULL) as [->|Hne]; simpl.
  - do 2 eexists. split; [reflexivity|]. rewrite (delete_null w _ U H Hi HC).
    rewrite (payload_at_ok _ (c :: U)) by (apply Hw2 || left).
    split; [by constructor|]. exists (concat F'), (c :: U). split; [by exists F'|done].
  - destruct Hp as [->|[old Hold]]; [done|]. pose proof Hold as (d & Hd & -> & Eold)%HC.
    destruct (move_old_sim w2 F' U c d H _ size Hw2 HC2 Hd ltac:(lia)) as
      (w' & F'' & U' & Hmv & Hw' & HC' & Htk).
    assert (payload (w_mem w2) d = old) as Epd.
    { pose proof (contents_lookup _ _ _ d HC2 ltac:(by right)) as E.
      rewrite lookup_insert_ne, Hold in E; [by injection E|].
      intros Heq. destruct Hfr as (_ & Hnone & _). rewrite Heq in Hnone. congruence. }
    rewrite Epd in Htk. exists (node c), w'.
    rewrite (payload_at_ok _ (c :: U')) by (apply Hw' || left).
    split_and!; [by erewrite bind_ok by exact Hmv|eapply SRealloc; [done| |done]|].
    + unfold fresh_block in *. rewrite payload_length in *. done.
    + exists (concat F''), (c :: U'). split; [by exists F''|done].
Qed.

Lemma exec_sim w H o : heap_rep w H → valid_op H o → simulates w H o.
Proof.
  destruct o; [apply malloc_sim|apply free_sim|apply realloc_sim|apply store_sim|apply load_sim].
Qed.

(** ** Client runs *)

(** States reachable by a client that respects the preconditions, with the
    abstract heap it has seen. *)
Inductive reachable : World → heap → Prop :=
| reach_init : reachable World_init ∅
| reach_step w H o r w' :
    reachable w H → valid_op H o → exec o w = Ok r w' →
    reachable w' (observe (w_mem w') o r H).

Lemma heap_rep_init : heap_rep World_init ∅.
Proof.
  exists [], []. split; [by exists (replicate 65 []); split; [|apply wf_World_init]|]. intros p bs.
  rewrite lookup_empty. split; [done|]. by intros (? & ?%elem_of_nil & _).
Qed.

Lemma reachable_rep w H : reachable w H → heap_rep w H.
Proof.
  induction 1 as [|w H o r w' _ IH Hv Hrun]; [apply heap_rep_init|].
  destruct (exec_sim w H o IH Hv) as [(r' & w'' & Hrun' & _ & Hrep)|[Hrun' _]]; congruence.
Qed.
End simulation.

(** ** Properties *)

Section properties.
Context {os : OS} {Hos : SbrkLaws os}.

(** C1: refinement.  In every state a correct client can reach, every call it
    may make returns, does what the abstract heap allows (new blocks are large
    enough and overlap no live block, [realloc] keeps the contents, no other
    live byte changes) and leads to a state that represents the new abstract
    heap; the only other outcome is the fault at address 7 when the OS has no
    memory left: a call of [sbrk] for this object, with at most 48 bytes on top,
    has failed. *)
Theorem client_refines w H o :
  reachable w H → valid_op H o →
  (∃ r w', exec o w = Ok r w' ∧ spec_step H o r (observe (w_mem w') o r H) ∧
           reachable w' (observe (w_mem w') o r H)) ∨
  (exec o w = Err (Segv 7) ∧ out_of_memory w o).
Proof.
  intros Hr Hv. destruct (exec_sim w H o (reachable_rep w H Hr) Hv) as
    [(r & w' & Hrun & Hs & _)|?]; [left|by right].
  exists r, w'. split_and!; [done..|]. by eapply reach_step.
Qed.

Lemma onFL_read {A} (c : M FL A) w a :
  c (get_fl w) = Ok a (get_fl w) → onFL c w = Ok a w.
Proof. intros E. unfold onFL, zoom. rewrite E. by destruct w as [? []]. Qed.

Lemma print_ok w F U :
  wf w F U →
  let free := wrap64 (sizes (concat F)) in
  let hs := wrap64 (sizes (concat F) + sizes U) in
  print w = Ok (hs, free, hs =? free) w.
Proof.
  intros [Hr HU Ha Hm Hh _ _ _]. unfold print.
  erewrite bind_ok by (apply onFL_read; by eapply sumFreeListSize_ok).
  erewrite bind_ok by reflexivity. by rewrite Hh, sizes_app.
Qed.

Lemma checkALL_ok w F U : wf w F U → checkALL w = Ok tt w.
Proof.
  intros [Hr _ _ [Hm _]%Forall_app _ _ _ _]. apply onFL_read.
  unfold checkFreeLsConsist. eapply (check_all_ok _ _ 8 _ _ _ 65 0); [lia|done|done|done].
Qed.

(** safety.  The assertions that the exit handler makes on the free lists
    (flags, size classes, footers equal to headers, back links) hold in every
    reachable state; the handler changes nothing. *)
Theorem exit_handler_passes w H : reachable w H → atExitHandler w = Ok tt w.
Proof.
  intros (K & U & (F & -> & Hw) & _)%reachable_rep. unfold atExitHandler.
  erewrite bind_ok by reflexivity. destruct (_ =? 0); [done|].
  erewrite bind_ok by (by eapply print_ok). by eapply checkALL_ok.
Qed.

(** accounting.  The statistics printed at exit are consistent: the heap
    size is the sum of the free bytes and of the bytes of the live blocks, and
    the report says "Equal" when the client has freed everything. *)
Theorem print_accounts w H :
  reachable w H →
  ∃ free, 0 ≤ free ∧
    print w = Ok (wrap64 (free + live_bytes H), wrap64 free,
                  wrap64 (free + live_bytes H) =? wrap64 free) w ∧
    (H = ∅ → (wrap64 (free + live_bytes H) =? wrap64 free) = true).
Proof.
  intros (K & U & (F & -> & Hw) & HC)%reachable_rep. exists (sizes (concat F)).
  pose proof (wf_apart _ _ _ Hw) as (_ & Ha & _)%apart_app.
  rewrite (contents_live_bytes _ _ _ HC Ha (proj1 (wf_used _ _ _ Hw))). split_and!.
  - apply zsum_nonneg, Forall_fmap. eapply Forall_impl; [eapply fl_rep_sizes, Hw|].
    intros c Hc. simpl in *. lia.
  - by apply print_ok.
  - intros ->. destruct U as [|c U].
    + rewrite Z.add_0_r. apply Z.eqb_refl.
    + pose proof (contents_lookup _ _ _ c HC ltac:(left)) as Hc. done.
Qed.

(** [malloc] asks the OS for memory exactly when no free block is large
    enough; then the heap grows by the rounded size of the request. *)
Theorem malloc_heap_growth w F U size :
  wf w F U → 0 < size < max_request →
  let total := total_size size in
  ((∃ d, d ∈ concat F ∧ total ≤ csize d) →
   ∃ p w', malloc size w = Ok p w' ∧
     a_heapSize (TheAllocator w') = a_heapSize (TheAllocator w)) ∧
  ((∀ d, d ∈ concat F → csize d < total) → os_sbrk (w_mem w) total ≠ SBRK_FAILED →
   ∃ w', malloc size w = Ok (os_sbrk (w_mem w) total + 16) w' ∧
     a_heapSize (TheAllocator w') = wrap64 (a_heapSize (TheAllocator w) + total)).
Proof.
  intros Hw Hs total. unfold max_request in Hs. destruct (total_size_spec size) as [_ Ht]; [lia|].
  fold total in Ht. pose proof Hw as [Hr _ _ _ Hh _ _ _].
  pose proof (allocateObject_refines w F U size Hw ltac:(lia)) as Href. simpl in Href. fold total in Href.
  unfold malloc. rewrite (bind_ok _ _ w tt w) by (apply assert_ok, Z.ltb_lt; lia). split.
  - intros (d & Hd & Hds).
    destruct (take_block_complete 8 _ _ F total d ltac:(lia) ltac:(lia) Hr Hd Hds) as [[c F'] Htb].
    rewrite Htb in Href. destruct Href as (w' & Hrun & Hw' & _ & _).
    erewrite bind_ok by exact Hrun. do 2 eexists. split; [reflexivity|]. simpl.
    destruct (take_block_cover 8 total F c F') as (Hs1 & _); [destruct Hr; lia|lia|done|].
    rewrite Hh, (wf_heap _ _ _ Hw'), !sizes_app, sizes_cons. f_equal. lia.
  - intros Hall Hsb. destruct (take_block 8 total F) as [[c F']|] eqn:Htb.
    + destruct Href as (w' & _ & Hw' & Hfit & _).
      destruct (take_block_source 8 _ _ F total c F' Hr Htb) as (d & Hd & Hdc).
      specialize (Hall d Hd). lia.
    + destruct (Href Hsb) as (w' & Hrun & Hw' & _ & _). erewrite bind_ok by exact Hrun.
      eexists. split; [reflexivity|]. simpl.
      rewrite (wf_heap _ _ _ Hw'), Hh, wrap64_add_l, !sizes_app, sizes_cons. f_equal. simpl. lia.
Qed.

(** a freed block below 512 bytes is the next one given for a request of
    its size. *)
Theorem free_malloc_reuses w F U c size :
  wf w F (c :: U) → csize c < 512 → 0 < size < max_request → total_size size = csize c →
  ∃ w1 w2, free (node c) w = Ok tt w1 ∧ malloc size w1 = Ok (node c) w2 ∧ wf w2 F (c :: U).
Proof.
  intros Hw Hc Hs Ht. pose proof Hw as [Hr [[Hv _]%Forall_cons _] _ _ _ _ _ _].
  pose proof (cvalid_size _ _ Hv) as Hsz.
  destruct (increaseFreeCalls w) as [[] w0|] eqn:E0; [|done].
  assert (Hw0 : wf w0 F (c :: U)) by (injection E0 as <-; by eapply wf_same).
  destruct (freeObject_ok w0 F U c Hw0) as (w1 & Hrun1 & Hw1 & _).
  assert (Hsm : 0 ≤ size < 2 ^ 33) by (unfold max_request in Hs; lia).
  pose proof (allocateObject_refines w1 _ U size Hw1 Hsm) as Href. simpl in Href.
  rewrite Ht in Href. rewrite take_block_insert in Href; [|apply Hr|].
  2: { unfold class_of, last_class. assert (csize c / 8 < 64); [|lia].
    apply Z.div_lt_upper_bound; lia. }
  destruct Href as (w2 & Hrun2 & Hw2 & _). exists w1. eexists. split_and!.
  - unfold free. destruct (Z.eqb_spec (node c) NULL) as [E|_].
    { apply cvalid_node in Hv. unfold NULL in E. lia. }
    by erewrite bind_ok by exact E0.
  - unfold malloc. rewrite (bind_ok _ _ w1 tt w1) by (apply assert_ok, Z.ltb_lt; lia).
    erewrite bind_ok by exact Hrun2. reflexivity.
  - by eapply wf_same.
Qed.

(** best fit.  For a request of at least 480 bytes that the free lists can
    serve, [malloc] returns the smallest free block that is large enough. *)
Theorem malloc_best_fit w F U size d :
  wf w F U → 480 ≤ size < max_request → d ∈ concat F → total_size size ≤ csize d →
  ∃ c w', malloc size w = Ok (node c) w' ∧ c ∈ concat F ∧ total_size size ≤ csize c ≤ csize d.
Proof.
  intros Hw Hs Hd Hds. unfold max_request in Hs. destruct (total_size_spec size) as [_ Ht]; [lia|].
  pose proof Hw as [Hr _ _ _ Hh _ _ _].
  pose proof (allocateObject_refines w F U size Hw ltac:(lia)) as Href. simpl in Href.
  destruct (take_block_complete 8 _ _ F (total_size size) d ltac:(lia) ltac:(lia) Hr Hd Hds) as [[c F'] Htb].
  rewrite Htb in Href. destruct Href as (w' & Hrun & _ & Hfit & _).
  destruct (take_block_best_fit 8 _ _ F (total_size size) c F' ltac:(lia) ltac:(lia) Hr Htb) as [Hc Hmin].
  exists c. unfold malloc. rewrite (bind_ok _ _ w tt w) by (apply assert_ok, Z.ltb_lt; lia).
  erewrite bind_ok by exact Hrun. eexists. split_and!; [reflexivity|done|done|auto].
Qed.

(** the size computation wraps.  Requests within 39 bytes of the largest
    [size_t] are served as if they were tiny: they get the minimal block. *)
Theorem total_size_wraps size : 2 ^ 64 - 39 ≤ size < 2 ^ 64 → total_size size = 48.
Proof.
  intros Hs. unfold total_size, sizeof_ObjHeader. change (Z.shiftl 16 1) with 32.
  assert (wrap64 (size + 32 + 7) = size + 39 - 2 ^ 64) as ->.
  { unfold wrap64. symmetry. apply (Z.mod_unique _ _ 1); lia. }
  rewrite mask_low_spec by lia.
  pose proof (Z.mod_pos_bound (size + 39 - 2 ^ 64) (2 ^ 3) ltac:(lia)).
  destruct (Z.ltb_spec (size + 39 - 2 ^ 64 - (size + 39 - 2 ^ 64) `mod` 2 ^ 3) 48); lia.
Qed.
End properties.

(** ** Witnesses *)

(** Concrete runs with the system [bump_os]. *)
Definition is_ok {A} (r : res World A) : bool :=
  match r with Ok _ _ => true | Err _ => false end.

(** After one [malloc]; after that block was freed. *)
Definition ex_malloc (n : Z) : World :=
  final World_init (malloc (os := bump_os) n World_init).
Definition ex_free (n : Z) : World := final World_init (free 4112 (ex_malloc n)).

Lemma ex_malloc_100 : malloc (os := bump_os) 100 World_init = Ok 4112 (ex_malloc 100).
Proof. apply returns_ok. vm_compute. reflexivity. Qed.

Lemma ex_reachable :
  reachable (os := bump_os) (ex_malloc 100)
    (observe (w_mem (ex_malloc 100)) (Malloc 100) 4112 ∅).
Proof.
  eapply reach_step; [apply reach_init| |exact ex_malloc_100]. simpl. unfold max_request. lia.
Qed.

Lemma ex_wf n :
  0 < n < max_request → os_sbrk (OS := bump_os) ∅ (total_size n) = 4096 →
  wf (ex_malloc n) (replicate 65 []) [mkChunk 4096 (total_size n)].
Proof.
  intros Hn Hsb. unfold max_request in Hn.
  pose proof (allocateObject_refines (os := bump_os) World_init _ _ n wf_World_init ltac:(lia)) as H.
  cbv zeta in H. rewrite take_block_empty in H. simpl w_mem in H. rewrite Hsb in H.
  destruct (H ltac:(done)) as (w' & Hrun & Hw' & _).
  unfold ex_malloc, malloc. rewrite (bind_ok _ _ _ tt World_init) by (apply assert_ok, Z.ltb_lt; lia).
  erewrite bind_ok by exact Hrun. by eapply wf_same.
Qed.

Lemma ex_free_wf :
  wf (ex_free 1000) (fl_insert 64 (mkChunk 4096 1032) (replicate 65 [])) [].
Proof.
  pose proof (ex_wf 1000 ltac:(unfold max_request; lia) ltac:(vm_compute; reflexivity)) as Hw.
  change (total_size 1000) with 1032 in Hw.
  destruct (increaseFreeCalls (ex_malloc 1000)) as [[] w0|] eqn:E0; [|done].
  assert (Hw0 : wf w0 (replicate 65 []) [mkChunk 4096 1032]) by (injection E0 as <-; by eapply wf_same).
  destruct (freeObject_ok w0 _ _ _ Hw0) as (w1 & Hrun & Hw1 & _).
  unfold ex_free, free. change (4112 =? NULL) with false. cbv iota.
  erewrite bind_ok by exact E0. change (node (mkChunk 4096 1032)) with 4112 in Hrun.
  rewrite Hrun. exact Hw1.
Qed.

Lemma client_refines_witness :
  ∃ r w', exec (os := bump_os) (Realloc 4112 300) (ex_malloc 100) = Ok r w' ∧
    spec_step (observe (w_mem (ex_malloc 100)) (Malloc 100) 4112 ∅) (Realloc 4112 300) r
      (observe (w_mem w') (Realloc 4112 300) r
         (observe (w_mem (ex_malloc 100)) (Malloc 100) 4112 ∅)).
Proof.
  destruct (client_refines (os := bump_os) _ _ (Realloc 4112 300) ex_reachable)
    as [(r & w' & Hrun & Hs & _)|[Hrun _]].
  - split; [unfold max_request; lia|]. right. unfold observe.
    rewrite lookup_insert_eq. by eexists.
  - exists r, w'. exact (conj Hrun Hs).
  - assert (is_ok (exec (os := bump_os) (Realloc 4112 300) (ex_malloc 100)) = true) as E
      by (vm_compute; reflexivity).
    rewrite Hrun in E. discriminate.
Defined.

Lemma exit_handler_passes_witness : atExitHandler (ex_malloc 100) = Ok tt (ex_malloc 100).
Proof. apply (exit_handler_passes (os := bump_os) _ _ ex_reachable). Defined.

Lemma print_accounts_witness :
  ∃ free, 0 ≤ free ∧ ∃ b, print (ex_malloc 100) =
    Ok (wrap64 (free + live_bytes (observe (w_mem (ex_malloc 100)) (Malloc 100) 4112 ∅)),
        wrap64 free, b) (ex_malloc 100).
Proof.
  destruct (print_accounts (os := bump_os) _ _ ex_reachable) as (free & H1 & H2 & _).
  exists free. split; [exact H1|]. eexists. exact H2.
Defined.

Lemma malloc_heap_growth_witness :
  ∃ w', malloc (os := bump_os) 100 World_init = Ok (4096 + 16) w' ∧
    a_heapSize (TheAllocator w') = 136.
Proof.
  destruct (malloc_heap_growth (os := bump_os) World_init _ _ 100 wf_World_init) as [_ H].
  - unfold max_request. lia.
  - apply H; [|vm_compute; discriminate]. intros d Hd. by apply elem_of_nil in Hd.
Defined.

Lemma free_malloc_reuses_witness :
  ∃ w1 w2, free 4112 (ex_malloc 100) = Ok tt w1 ∧ malloc (os := bump_os) 97 w1 = Ok 4112 w2.
Proof.
  destruct (free_malloc_reuses (os := bump_os) (ex_malloc 100) (replicate 65 []) []
    (mkChunk 4096 136) 97) as (w1 & w2 & H1 & H2 & _).
  - apply ex_wf; [unfold max_request; lia|vm_compute; reflexivity].
  - simpl. lia.
  - unfold max_request. lia.
  - vm_compute. reflexivity.
  - exists w1, w2. exact (conj H1 H2).
Defined.

Lemma malloc_best_fit_witness :
  ∃ c w', malloc (os := bump_os) 900 (ex_free 1000) = Ok (node c) w' ∧
    932 ≤ csize c ≤ 1032.
Proof.
  destruct (malloc_best_fit (os := bump_os) (ex_free 1000) _ [] 900 (mkChunk 4096 1032) ex_free_wf)
    as (c & w' & Hrun & _ & Hc).
  - unfold max_request. lia.
  - rewrite fl_insert_perm by (rewrite length_replicate; lia). left.
  - vm_compute. discriminate.
  - exists c, w'. split; [exact Hrun|]. change (total_size 900) with 936 in Hc. simpl in Hc. lia.
Defined.

Lemma total_size_wraps_witness : total_size (2 ^ 64 - 1) = 48.
Proof. apply total_size_wraps. lia. Defined.
