(* ===== verification/ThreadCache.v ===== *)
(** * The thread cache of the two-layer allocator
    ([myAlloc_2Layer_lock/thread_cache.cpp])

    A [ThreadCache] keeps its own free lists, in classes of 8 bytes, and gets
    memory from a central heap.  The central heap is an interface here, the
    class [CentralHeap] with its laws [CentralLaws]; the cache is proved against
    it, and [HeapAlloc] provides the implementation. *)

From S2P Require Import Prelude Memory OS FreeList FreeListRep Arena.
From stdpp Require Import base numbers list gmap sorting strings.
Open Scope Z_scope.

(** ** State *)

Record Cache : Type := mkCache {
  c_freels : list Z;     (* freels_ *)
  c_cent_heap : bool;    (* _cent_heap: set, or still NULL *)
  c_m : bool;            (* _m: is the mutex held? *)
  c_heapSize : Z;
  c_initialized : Z;
  c_verbose : Z;
}.

(** The constructor [ThreadCache()] of an object with static storage. *)
Definition Cache_init : Cache := mkCache (replicate 65 NULL) false false 0 0 0.

Definition setCentralHeap (c : Cache) : Cache :=
  mkCache (c_freels c) true (c_m c) (c_heapSize c) (c_initialized c) (c_verbose c).

Definition put_cfreels (h : list Z) (c : Cache) : Cache :=
  mkCache h (c_cent_heap c) (c_m c) (c_heapSize c) (c_initialized c) (c_verbose c).

Definition put_cm (b : bool) (c : Cache) : Cache :=
  mkCache (c_freels c) (c_cent_heap c) b (c_heapSize c) (c_initialized c) (c_verbose c).

(** ** The central heap, as the cache sees it *)

(** Memory is shared by all layers and part of the central state. *)
Class CentralHeap (C : Type) : Type := {
  cent_mem : C → mem;
  cent_put_mem : mem → C → C;
  cent_allocateObject : Z → M C Z;
}.

(** What the central heap promises: [cent_inv c K] says that it owns the free
    blocks [K]; [cent_out c] counts the bytes it has handed out, modulo 2^64, given
    the bytes it owns. *)
Class CentralLaws (C : Type) (CH : CentralHeap C) : Type := {
  cent_inv : C → list chunk → Prop;
  cent_size : C → Z;
  cent_oom : C → Z → Prop;
  cent_mem_put c m : cent_mem (cent_put_mem m c) = m;
  cent_put_id c : cent_put_mem (cent_mem c) c = c;
  cent_put_put c m m' : cent_put_mem m' (cent_put_mem m c) = cent_put_mem m' c;
  cent_size_put c m : cent_size (cent_put_mem m c) = cent_size c;
  cent_valid c K : cent_inv c K → Forall (cvalid (cent_mem c)) K;
  cent_low c K : cent_inv c K → unmapped (cent_mem c) 0 16;
  cent_size_range c K : cent_inv c K → 0 ≤ cent_size c < 2 ^ 64;
  cent_frame c K L m' :
    cent_inv c K → Forall (cvalid (cent_mem c)) L → apart (L ++ K) →
    chunk_frame L (cent_mem c) m' → cent_inv (cent_put_mem m' c) K;
  cent_alloc c K L size :
    cent_inv c K → Forall (cvalid (cent_mem c)) L → apart (K ++ L) → 0 < size < 2 ^ 33 + 64 →
    (∃ ch K' c', cent_allocateObject size c = Ok (node ch) c' ∧ cent_inv c' K' ∧
       used (cent_mem c') [ch] ∧ apart (K' ++ ch :: L) ∧
       size + 32 ≤ csize ch ∧ csize ch `mod` 8 = 0 ∧
       chunk_frame (ch :: K) (cent_mem c) (cent_mem c') ∧
       wrap64 (cent_size c' - sizes K') = wrap64 (cent_size c - sizes K + csize ch)) ∨
    (cent_allocateObject size c = Err (Segv 7) ∧ cent_oom c size);
}.

(** ** Operations *)

Section code.
Context {os : OS} {C : Type} {CH : CentralHeap C}.

(** One cache and the central heap it works on. *)
Record TC : Type := mkTC { tc_cache : Cache; tc_cent : C }.

Definition get_tfl (t : TC) : FL := mkFL (c_freels (tc_cache t)) (cent_mem (tc_cent t)).
Definition put_tfl (s : FL) (t : TC) : TC :=
  mkTC (put_cfreels (freels_ s) (tc_cache t)) (cent_put_mem (fmem s) (tc_cent t)).
Definition onTFL {A} : M FL A → M TC A := zoom get_tfl put_tfl.
Definition onCent {A} : M C A → M TC A := zoom tc_cent (λ c t, mkTC (tc_cache t) c).

Definition on_cache (f : Cache → Cache) (t : TC) : TC := mkTC (f (tc_cache t)) (tc_cent t).

Definition tc_lock : M TC unit := λ t,
  if c_m (tc_cache t) then Err Deadlock else Ok tt (on_cache (put_cm true) t).
Definition tc_unlock : M TC unit := modify (on_cache (put_cm false)).

Definition tc_initialize : M TC unit := modify (on_cache (λ c,
  let verbose := match os_getenv "MALLOCVERBOSE" with
                 | Some s => if decide (s = "NO"%string) then 0 else 1
                 | None => 1
                 end in
  mkCache (replicate 65 NULL) (c_cent_heap c) (c_m c) (c_heapSize c) (c_initialized c) verbose)).

(** The free-list methods of [ThreadCache] are the same text as those of the
    one-layer allocator. *)
Definition tc_insertFreeBlock (toinsert pos : Z) : M FL bool := insertFreeBlock toinsert pos.
Definition tc_rmFromFreeLs (pos totsize : Z) : M FL Z := rmFromFreeLs pos totsize.
Definition tc_getHeadFootInfo (node : Z) : M FL (Z * Z * Z * Z) := getHeadFootInfo node.
Definition tc_checkDualLnkList (index : Z) : M FL unit := checkDualLnkList index.
Definition tc_sumFreeListSize : M FL Z := sumFreeListSize.
Definition tc_getFreeNodeSize (node : Z) : M FL Z := getFreeNodeSize node.

(** [if (!_initialized) if (CAS(&_initialized, 0, 1)) initialize();] *)
Definition tc_ensure_initialized : M TC unit := λ t,
  if c_initialized (tc_cache t) =? 0 then
    tc_initialize (on_cache (λ c,
      mkCache (c_freels c) (c_cent_heap c) (c_m c) (c_heapSize c) 1 (c_verbose c)) t)
  else Ok tt t.

Definition getMemoryFromCentHeap (size : Z) : M TC Z :=
  set ← gets (λ t, c_cent_heap (tc_cache t));
  if set : bool then
    pAvailSpace ← onCent (cent_allocateObject size);
    mret (pAvailSpace - sizeof_ObjHeader)
  else fail (Segv NULL).

(** [allocateObject] from the computation of [totalSize] on. *)
Definition tc_allocate_total (totalSize : Z) : M TC Z :=
  tc_lock;;
  o ← onTFL (take_from_lists 8 totalSize);
  '(mem_, totalSize) ←
    (match o with
     | Some r => mret r
     | None =>
       mem_ ← getMemoryFromCentHeap totalSize;
       osz ← onTFL (rd 8 (mem_ + off_objectSize));
       mret (mem_, if totalSize <? osz then osz else totalSize)
     end);
  tc_unlock;;
  onTFL (set_allocated mem_ totalSize).

Definition tc_allocateObject (size : Z) : M TC Z :=
  tc_ensure_initialized;;
  tc_allocate_total (total_size size).

Definition tc_freeObject (ptr : Z) : M TC unit :=
  totalSize ← onTFL (rd 8 (ptr - sizeof_ObjHeader + off_objectSize));
  tc_lock;;
  if totalSize <? sizeof_DualLnkNode + 2 * sizeof_ObjHeader then tc_unlock
  else onTFL (set_free 8 ptr totalSize);; tc_unlock.

Definition tc_objectSize (ptr : Z) : M TC Z :=
  sz ← onTFL (rd 8 (ptr - sizeof_ObjHeader + off_objectSize));
  mret (wrap64 (sz - Z.shiftl sizeof_ObjHeader 1)).

(** Debugging: the order of the last class is checked too. *)
Definition tc_checkFreeLsConsist (index : Z) : M FL unit := check_class false true 8 index.
Definition tc_checkALL : M TC unit := onTFL (check_all tc_checkFreeLsConsist classes).

Definition tc_print : M TC (Z * Z * bool) :=
  sumfreelssize ← onTFL tc_sumFreeListSize;
  hs ← gets (λ t, c_heapSize (tc_cache t));
  mret (hs, sumfreelssize, hs =? sumfreelssize).

Definition tc_atExitHandler : M TC unit :=
  v ← gets (λ t, c_verbose (tc_cache t));
  if v =? 0 then mret tt else tc_print;; tc_checkALL.

Definition isInitialized (c : Cache) : bool := negb (c_initialized c =? 0).
End code.
Arguments TC : clear implicits.

(** ** Correctness against the interface *)

Section proofs.
Context {os : OS} {C : Type} {CH : CentralHeap C} {Laws : CentralLaws C CH}.

(** [K]: blocks of the central heap; [F]: free lists of the cache; [L]: all
    other blocks of the process (live ones and those of other caches). *)
Record tinv (t : TC C) (K : list chunk) (F : list (list chunk)) (L : list chunk) : Prop := {
  ti_cent : cent_inv (tc_cent t) K;
  ti_rep : fl_rep 8 (c_freels (tc_cache t)) (cent_mem (tc_cent t)) F;
  ti_valid : Forall (cvalid (cent_mem (tc_cent t))) L;
  ti_apart : apart (K ++ concat F ++ L);
  ti_mult : Forall (λ c, csize c `mod` 8 = 0) (concat F);
  ti_set : c_cent_heap (tc_cache t) = true;
  ti_unlocked : c_m (tc_cache t) = false;
}.

(** Bytes outside the central heap and the cache, modulo 2^64. *)
Definition elsewhere (t : TC C) (K : list chunk) (F : list (list chunk)) : Z :=
  wrap64 (cent_size (tc_cent t) - sizes K - sizes (concat F)).

(** A successful allocation of at least [total] bytes. *)
Definition tc_allocated (t : TC C) (K : list chunk) (F : list (list chunk)) (L : list chunk)
    (total : Z) (ch : chunk) (t' : TC C) : Prop :=
  ∃ K' F' h', tinv t' K' F' (ch :: L) ∧ used (cent_mem (tc_cent t')) [ch] ∧
    total ≤ csize ch ∧ csize ch `mod` 8 = 0 ∧
    chunk_frame (ch :: concat F ++ K) (cent_mem (tc_cent t)) (cent_mem (tc_cent t')) ∧
    elsewhere t' K' F' = wrap64 (elsewhere t K F + csize ch) ∧
    tc_cache t' = put_cfreels h' (tc_cache t).

Lemma cvalid_Forall_grows m m' L : grows m m' → Forall (cvalid m) L → Forall (cvalid m') L.
Proof. intros HG HL. eapply Forall_impl; [exact HL|]. intros. by eapply cvalid_grows. Qed.

(** The part of [allocateObject] after the cache or the central heap gave the
    block [ch]. *)
Lemma tc_finish (t : TC C) K F L ch h c1 :
  cent_inv c1 K → fl_rep 8 h (cent_mem c1) F →
  Forall (cvalid (cent_mem c1)) (ch :: L) → apart (K ++ concat F ++ ch :: L) →
  Forall (λ c, csize c `mod` 8 = 0) (concat F) →
  c_cent_heap (tc_cache t) = true → c_m (tc_cache t) = false →
  ∃ m', (tc_unlock;; onTFL (set_allocated (addr ch) (csize ch)))
      (mkTC (put_cfreels h (put_cm true (tc_cache t))) c1) =
        Ok (node ch) (mkTC (put_cfreels h (tc_cache t)) (cent_put_mem m' c1)) ∧
    tinv (mkTC (put_cfreels h (tc_cache t)) (cent_put_mem m' c1)) K F (ch :: L) ∧
    used m' [ch] ∧ chunk_frame [ch] (cent_mem c1) m'.
Proof.
  intros Hc Hr Hv Ha Hm Hset Hl.
  destruct (set_allocated_spec h (cent_mem c1) ch (Forall_inv Hv)) as (m' & Hrun & Ht & HF).
  exists m'. split_and!; [|split; simpl; rewrite ?cent_mem_put|..]; try done.
  - erewrite bind_ok by reflexivity. unfold onTFL. erewrite zoom_ok by exact Hrun.
    unfold put_tfl, on_cache. simpl. destruct (tc_cache t). simpl in *. by rewrite Hl.
  - apply (cent_frame _ _ [ch]); [done|constructor; [by apply Forall_inv in Hv|done]| |done].
    apply (apart_part (concat F ++ L) _ _ Ha). solve_Permutation.
  - eapply fl_rep_away; [done|done|]. apply (apart_away (K ++ L) _ _ _ Ha). solve_Permutation.
  - eapply cvalid_Forall_grows; [apply HF|done].
  - split; constructor; [|done|done|done]. eapply cvalid_grows; [apply HF|by apply Forall_inv in Hv].
Qed.

Lemma tc_allocate_from_lists t K F L total ch F' :
  tinv t K F L → 48 ≤ total < 2 ^ 34 → total `mod` 8 = 0 →
  take_block 8 total F = Some (ch, F') →
  ∃ t', tc_allocate_total total t = Ok (node ch) t' ∧ tc_allocated t K F L total ch t'.
Proof.
  intros [Hc Hr Hv Ha Hm Hset Hl] Ht Hmod Htb.
  pose proof (take_from_lists_spec 8 _ _ F total ltac:(lia) Hr ltac:(lia) Hmod) as Htake.
  rewrite Htb in Htake. destruct Htake as (h' & m' & Htake & Hr' & HF & Hvc & Hfit & Hap).
  destruct (take_block_cover 8 total F ch F') as (Hs1 & Hd1 & Hm1); [destruct Hr; lia|lia|done|].
  specialize (Hm1 8 ltac:(lia) Hmod Hm). apply Forall_cons in Hm1 as [Hm1 Hm2].
  assert (Ha' : apart (K ++ concat F' ++ ch :: L)).
  { assert (K ++ concat F' ++ ch :: L ≡ₚ (ch :: concat F') ++ K ++ L) as -> by solve_Permutation.
    eapply (apart_replace (concat F)); [|done|done].
    by assert (concat F ++ K ++ L ≡ₚ K ++ concat F ++ L) as -> by solve_Permutation. }
  assert (Hc' : cent_inv (cent_put_mem m' (tc_cent t)) K).
  { apply (cent_frame _ _ (concat F)); [done|apply Hr| |done]. apply (apart_part L _ _ Ha). solve_Permutation. }
  destruct (tc_finish t K F' L ch h' _ Hc') as (m2 & Hrun & Hti & Hu & HF2);
    rewrite ?cent_mem_put in *; try done.
  { constructor; [done|]. eapply cvalid_Forall_grows; [apply HF|done]. }
  eexists. split.
  - unfold tc_allocate_total. erewrite bind_ok by (unfold tc_lock; rewrite Hl; reflexivity).
    erewrite bind_ok by (eapply zoom_ok; exact Htake). exact Hrun.
  - exists K, F', h'. rewrite cent_put_put in *. simpl. rewrite cent_mem_put. split_and!; try done.
    + eapply chunk_frame_join; [exact HF|exact HF2|set_solver..].
    + unfold elsewhere. simpl. rewrite cent_size_put, wrap64_add_l. f_equal. lia.
Qed.

Lemma onTFL_read {A} (c : M FL A) (t : TC C) a :
  c (get_tfl t) = Ok a (get_tfl t) → onTFL c t = Ok a t.
Proof.
  intros E. unfold onTFL, zoom. rewrite E. unfold put_tfl. simpl. rewrite cent_put_id.
  by destruct t as [[] ?].
Qed.

Lemma getMemoryFromCentHeap_ok (t : TC C) size ch c' :
  c_cent_heap (tc_cache t) = true → cent_allocateObject size (tc_cent t) = Ok (node ch) c' →
  getMemoryFromCentHeap size t = Ok (addr ch) (mkTC (tc_cache t) c').
Proof.
  intros Hset Hrun. unfold getMemoryFromCentHeap. erewrite bind_ok by reflexivity. rewrite Hset.
  erewrite bind_ok by (eapply zoom_ok; exact Hrun).
  by replace (node ch - sizeof_ObjHeader) with (addr ch) by (unfold node; lia).
Qed.

Lemma getMemoryFromCentHeap_err (t : TC C) size e :
  c_cent_heap (tc_cache t) = true → cent_allocateObject size (tc_cent t) = Err e →
  getMemoryFromCentHeap size t = Err e.
Proof.
  intros Hset Hrun. unfold getMemoryFromCentHeap. erewrite bind_ok by reflexivity. rewrite Hset.
  apply bind_err. by apply zoom_err.
Qed.

Lemma tc_allocate_from_central t K F L total :
  tinv t K F L → 48 ≤ total < 2 ^ 33 + 64 → total `mod` 8 = 0 → take_block 8 total F = None →
  (∃ ch t', tc_allocate_total total t = Ok (node ch) t' ∧ tc_allocated t K F L total ch t') ∨
  (tc_allocate_total total t = Err (Segv 7) ∧ cent_oom (tc_cent t) total).
Proof.
  intros [Hc Hr Hv Ha Hm Hset Hl] Ht Hmod Htb.
  pose proof (take_from_lists_spec 8 _ _ F total ltac:(lia) Hr ltac:(lia) Hmod) as Htake.
  rewrite Htb in Htake. unfold tc_allocate_total.
  erewrite bind_ok by (unfold tc_lock; rewrite Hl; reflexivity).
  set (t1 := on_cache (put_cm true) t).
  erewrite (bind_ok _ _ t1) by (apply onTFL_read; exact Htake).
  destruct (cent_alloc (tc_cent t) K (concat F ++ L) total Hc) as
    [(ch & K' & c' & Hrun & Hc' & Hu & Ha' & Hs & Hm8 & HF & Hsz)|[Hrun Ho]];
    [by apply Forall_app; split; [apply Hr|]|done|lia| |]; last first.
  { right. split; [|done]. by apply bind_err, bind_err, getMemoryFromCentHeap_err. }
  left. exists ch. pose proof Hu as [[Hvc _]%Forall_cons [(_ & Hsize & _) _]%Forall_cons].
  assert (Haway : away (ch :: K) (concat F)).
  { apply Forall_cons. split.
    - apply (Forall_inv (A := chunk) (P := λ c, Forall (disj c) (concat F)) (l := [])).
      apply (apart_away (K' ++ L) _ _ _ Ha'). solve_Permutation.
    - apply (apart_away L _ _ _ Ha). solve_Permutation. }
  destruct (tc_finish t K' F L ch (c_freels (tc_cache t)) c' Hc') as (m2 & Hrun2 & Hti & Hu2 & HF2);
    try done.
  { by eapply fl_rep_away. }
  { constructor; [done|]. eapply cvalid_Forall_grows; [apply HF|done]. }
  { by assert (K' ++ concat F ++ ch :: L ≡ₚ K' ++ ch :: concat F ++ L) as -> by solve_Permutation. }
  eexists. split.
  - erewrite (bind_ok _ _ t1 (addr ch, csize ch)); [exact Hrun2|].
    erewrite bind_ok by (by apply getMemoryFromCentHeap_ok).
    erewrite bind_ok by (apply onTFL_read; unfold rd, off_objectSize; simpl; by rewrite Hsize).
    destruct (Z.ltb_spec total (csize ch)); [by destruct t as [[] ?]|lia].
  - exists K', F, (c_freels (tc_cache t)). simpl. rewrite cent_mem_put. split_and!; try done; [lia|..].
    + eapply chunk_frame_join; [exact HF|exact HF2|set_solver..].
    + unfold elsewhere. simpl. rewrite cent_size_put, wrap64_add_l.
      unfold Z.sub at 1. rewrite <-wrap64_add_l, Hsz, wrap64_add_l. f_equal. lia.
Qed.

(** The free lists that survive [tc_ensure_initialized]: a cache that is not
    initialised yet forgets the blocks freed into it. *)
Definition kept (c : Cache) (F : list (list chunk)) : list (list chunk) :=
  if c_initialized c =? 0 then replicate 65 [] else F.

Lemma tc_ensure_initialized_ok t K F L :
  tinv t K F L →
  ∃ t', tc_ensure_initialized t = Ok tt t' ∧ tinv t' K (kept (tc_cache t) F) L ∧
    tc_cent t' = tc_cent t ∧ c_initialized (tc_cache t') ≠ 0 ∧
    c_heapSize (tc_cache t') = c_heapSize (tc_cache t).
Proof.
  intros [Hc Hr Hv Ha Hm Hset Hl]. unfold tc_ensure_initialized, kept.
  destruct (Z.eqb_spec (c_initialized (tc_cache t)) 0) as [E|E].
  - eexists. split; [reflexivity|]. split; [|done]. split; simpl; try done.
    + apply fl_rep_empty.
    + apply (apart_part (concat F) _ _ Ha). simpl. solve_Permutation.
  - exists t. split_and!; done.
Qed.

Lemma tc_allocateObject_ok t K F L size :
  tinv t K F L → 0 < size < 2 ^ 33 →
  ∃ t1, tc_ensure_initialized t = Ok tt t1 ∧ tc_cent t1 = tc_cent t ∧
    c_initialized (tc_cache t1) ≠ 0 ∧ c_heapSize (tc_cache t1) = c_heapSize (tc_cache t) ∧
    ((∃ ch t', tc_allocateObject size t = Ok (node ch) t' ∧
        tc_allocated t1 K (kept (tc_cache t) F) L (total_size size) ch t') ∨
     (tc_allocateObject size t = Err (Segv 7) ∧ cent_oom (tc_cent t) (total_size size))).
Proof.
  intros Hti Hs. destruct (total_size_spec size) as [Hmod Htot]; [lia|].
  destruct (tc_ensure_initialized_ok t K F L Hti) as (t1 & Hinit & Hti1 & Ec & Hi & Eh).
  exists t1. split_and!; [done..|]. unfold tc_allocateObject. rewrite (bind_ok _ _ _ _ _ Hinit).
  destruct (take_block 8 (total_size size) (kept (tc_cache t) F)) as [[ch F']|] eqn:Htb.
  - left. exists ch. eapply tc_allocate_from_lists; [done|lia|done..].
  - rewrite <-Ec. apply tc_allocate_from_central; [done|lia|done..].
Qed.

Lemma tc_freeObject_ok t K F L c :
  tinv t K F (c :: L) → used (cent_mem (tc_cent t)) [c] → csize c `mod` 8 = 0 →
  ∃ t' h', tc_freeObject (node c) t = Ok tt t' ∧
    tinv t' K (fl_insert (class_of 8 (csize c)) c F) L ∧
    chunk_frame (c :: concat F) (cent_mem (tc_cent t)) (cent_mem (tc_cent t')) ∧
    tc_cache t' = put_cfreels h' (tc_cache t) ∧
    cent_size (tc_cent t') = cent_size (tc_cent t) ∧
    (∃ m', tc_cent t' = cent_put_mem m' (tc_cent t)) ∧
    concat (fl_insert (class_of 8 (csize c)) c F) ≡ₚ c :: concat F.
Proof.
  intros [Hc Hr Hv Ha Hm Hset Hl] Hu Hmod.
  apply Forall_cons in Hv as [Hvc HvL]. pose proof (cvalid_size _ _ Hvc) as Hs.
  pose proof (used_header _ [c] c Hu ltac:(left)) as Hsz.
  destruct Hu as [_ [Htc _]%Forall_cons].
  destruct (set_free_spec 8 _ _ F c (class_of 8 (csize c)) ltac:(lia) ltac:(lia) Hr Hvc Htc)
    as (h' & m' & Hrun & Hr' & HF'); [|done|].
  { apply (apart_part (K ++ L) _ _ Ha). solve_Permutation. }
  assert (HpF : concat (fl_insert (class_of 8 (csize c)) c F) ≡ₚ c :: concat F).
  { apply fl_insert_perm. pose proof (class_of_le 8 (csize c)). unfold last_class in *.
    destruct Hr. lia. }
  exists (mkTC (put_cfreels h' (tc_cache t)) (cent_put_mem m' (tc_cent t))), h'.
  simpl. rewrite cent_mem_put, cent_size_put. split_and!; try done; [..|by eexists].
  - unfold tc_freeObject. erewrite bind_ok by (apply onTFL_read; unfold rd; simpl; by rewrite Hsz).
    erewrite bind_ok by (unfold tc_lock; rewrite Hl; reflexivity).
    change (sizeof_DualLnkNode + 2 * sizeof_ObjHeader) with 48.
    destruct (Z.ltb_spec (csize c) 48); [lia|].
    erewrite bind_ok by (eapply zoom_ok; exact Hrun).
    unfold tc_unlock, modify, on_cache, put_tfl. simpl. destruct (tc_cache t). simpl in *. by rewrite Hl.
  - split; simpl; rewrite ?cent_mem_put, ?HpF; try done.
    + apply (cent_frame _ _ (c :: concat F)); [done|by constructor; [|apply Hr]| |done].
      apply (apart_part L _ _ Ha). solve_Permutation.
    + eapply cvalid_Forall_grows; [apply HF'|done].
    + by assert (K ++ (c :: concat F) ++ L ≡ₚ K ++ concat F ++ c :: L) as -> by solve_Permutation.
    + by constructor.
Qed.

Lemma tc_objectSize_ok (t : TC C) c :
  used (cent_mem (tc_cent t)) [c] → tc_objectSize (node c) t = Ok (csize c - 32) t.
Proof.
  intros Hu. pose proof (used_header _ [c] c Hu ltac:(left)) as Hsz.
  destruct Hu as [[(_ & _ & Hs & _) _]%Forall_cons _]. unfold max_chunk in Hs.
  unfold tc_objectSize. erewrite bind_ok by (apply onTFL_read; unfold rd; simpl; by rewrite Hsz).
  change (Z.shiftl sizeof_ObjHeader 1) with 32. by rewrite wrap64_small by lia.
Qed.

Lemma tc_checkALL_ok t K F L : tinv t K F L → tc_checkALL t = Ok tt t.
Proof.
  intros [Hc Hr Hv Ha Hm Hset Hl]. apply onTFL_read.
  eapply (check_all_ok false true 8 _ _ _ 65 0); [lia|done|done|done].
Qed.

Lemma tc_print_ok t K F L :
  tinv t K F L →
  tc_print t = Ok (c_heapSize (tc_cache t), wrap64 (sizes (concat F)),
                   c_heapSize (tc_cache t) =? wrap64 (sizes (concat F))) t.
Proof.
  intros [Hc Hr Hv Ha Hm Hset Hl]. unfold tc_print.
  erewrite bind_ok by (apply onTFL_read; by eapply sumFreeListSize_ok). done.
Qed.
End proofs.
