(* ===== verification/HeapAlloc.v ===== *)
(** * The two-layer allocator ([myAlloc_2Layer_lock/heap_alloc.cpp])

    The central heap works in pages of 4096 bytes and owns 17 thread caches.
    [malloc] serves requests of at most 16384 bytes from the cache of the
    calling thread and larger ones from the central heap.  This file models the
    central heap and the C interface, proves that the central heap implements
    the interface [CentralHeap] of the caches, and states the invariant of the
    whole heap. *)

From S2P Require Import Prelude Memory OS FreeList FreeListRep Arena ClientSpec ThreadCache.
From stdpp Require Import base numbers list gmap sorting strings.
Open Scope Z_scope.

Definition BASICALLOCSIZE : Z := 4096.
Definition CENTHEAPALLOCTHRESHOLD : Z := Z.shiftl 1 14.
Definition NUMOFTHREADCACHES : Z := 17.

(** ** State *)

(** The fields that the central [allocateObject] and [freeObject] use, with the
    memory of the process. *)
Record Cent : Type := mkCent {
  h_mem : mem;
  h_freels : list Z;     (* freels_ *)
  h_m : bool;            (* _m: is the mutex held? *)
  h_heapSize : Z;
}.

(** The object [TheAllocator] and the number of registered exit handlers. *)
Record Heap : Type := mkHeap {
  hp_cent : Cent;
  hp_thr_caches : list Cache;
  hp_initialized : Z;
  hp_verbose : Z;
  hp_mallocCalls : Z;
  hp_freeCalls : Z;
  hp_reallocCalls : Z;
  hp_callocCalls : Z;
  hp_atexit : nat;
}.

Definition Heap_init : Heap :=
  mkHeap (mkCent ∅ (replicate 65 NULL) false 0) (replicate 17 Cache_init) 0 0 0 0 0 0 0.

Definition get_hfl (c : Cent) : FL := mkFL (h_freels c) (h_mem c).
Definition put_hfl (s : FL) (c : Cent) : Cent := mkCent (fmem s) (freels_ s) (h_m c) (h_heapSize c).
Definition onHFL {A} : M FL A → M Cent A := zoom get_hfl put_hfl.

Definition put_hmem (m : mem) (c : Cent) : Cent := mkCent m (h_freels c) (h_m c) (h_heapSize c).

Definition h_lock : M Cent unit := λ c,
  if h_m c then Err Deadlock else Ok tt (mkCent (h_mem c) (h_freels c) true (h_heapSize c)).
Definition h_unlock : M Cent unit :=
  modify (λ c, mkCent (h_mem c) (h_freels c) false (h_heapSize c)).

(** Code of the central heap, and of the cache [ind], run on the whole object. *)
Definition put_cent (c : Cent) (w : Heap) : Heap :=
  mkHeap c (hp_thr_caches w) (hp_initialized w) (hp_verbose w) (hp_mallocCalls w)
    (hp_freeCalls w) (hp_reallocCalls w) (hp_callocCalls w) (hp_atexit w).
Definition put_caches (l : list Cache) (w : Heap) : Heap :=
  mkHeap (hp_cent w) l (hp_initialized w) (hp_verbose w) (hp_mallocCalls w)
    (hp_freeCalls w) (hp_reallocCalls w) (hp_callocCalls w) (hp_atexit w).
Definition put_hcalls (mc fc rc cc : Z) (w : Heap) : Heap :=
  mkHeap (hp_cent w) (hp_thr_caches w) (hp_initialized w) (hp_verbose w) mc fc rc cc (hp_atexit w).

Definition onCentral {A} : M Cent A → M Heap A := zoom hp_cent put_cent.

Definition getThrCaches {A} (ind : Z) (c : M (TC Cent) A) : M Heap A := λ w,
  match hp_thr_caches w !! Z.to_nat ind with
  | None => Err (OutOfBounds ind)
  | Some ca =>
    match c (mkTC ca (hp_cent w)) with
    | Ok a t => Ok a (put_cent (tc_cent t) (put_caches (<[Z.to_nat ind := tc_cache t]> (hp_thr_caches w)) w))
    | Err e => Err e
    end
  end.

Section code.
Context {os : OS}.

(** ** The central heap *)

Definition h_getMemoryFromOS (size : Z) : M Cent Z := λ c,
  Ok (os_sbrk (h_mem c) size)
     (mkCent (after_sbrk (h_mem c) size) (h_freels c) (h_m c) (wrap64 (h_heapSize c + size))).

(** [(size + 32 + BASICALLOCSIZE - 1) & ~(BASICALLOCSIZE - 1)], at least 48. *)
Definition page_total (size : Z) : Z :=
  let totalSize := mask_low 12 (wrap64 (size + Z.shiftl sizeof_ObjHeader 1 + BASICALLOCSIZE - 1)) in
  if totalSize <? 48 then 48 else totalSize.

Definition h_allocateObject (size : Z) : M Cent Z :=
  if size =? 0 then mret NULL else
  let totalSize := page_total size in
  assert_ (totalSize `mod` BASICALLOCSIZE =? 0);;
  h_lock;;
  o ← onHFL (take_from_lists BASICALLOCSIZE totalSize);
  '(mem_, totalSize) ←
    (match o with
     | Some r => mret r
     | None => mem_ ← h_getMemoryFromOS totalSize; mret (mem_, totalSize)
     end);
  h_unlock;;
  onHFL (set_allocated mem_ totalSize).

Definition h_freeObject (ptr : Z) : M Cent unit :=
  totalSize ← onHFL (rd 8 (ptr - sizeof_ObjHeader + off_objectSize));
  h_lock;;
  if totalSize <? sizeof_DualLnkNode + 2 * sizeof_ObjHeader then h_unlock
  else onHFL (set_free BASICALLOCSIZE ptr totalSize);; h_unlock.

Definition h_objectSize (ptr : Z) : M Cent Z :=
  sz ← onHFL (rd 8 (ptr - sizeof_ObjHeader + off_objectSize));
  mret (wrap64 (sz - Z.shiftl sizeof_ObjHeader 1)).

(** The free-list methods are the same text as those of the one-layer
    allocator. *)
Definition h_insertFreeBlock (toinsert pos : Z) : M FL bool := insertFreeBlock toinsert pos.
Definition h_rmFromFreeLs (pos totsize : Z) : M FL Z := rmFromFreeLs pos totsize.
Definition h_getHeadFootInfo (node : Z) : M FL (Z * Z * Z * Z) := getHeadFootInfo node.
Definition h_checkDualLnkList (index : Z) : M FL unit := checkDualLnkList index.
Definition h_sumFreeListSize : M FL Z := sumFreeListSize.
Definition h_getFreeNodeSize (node : Z) : M FL Z := getFreeNodeSize node.

Definition h_checkFreeLsConsist (index : Z) : M FL unit := check_class true true BASICALLOCSIZE index.
Definition h_checkALL : M Cent unit := onHFL (check_all h_checkFreeLsConsist classes).

#[export] Instance central_heap : CentralHeap Cent := {|
  cent_mem := h_mem;
  cent_put_mem := put_hmem;
  cent_allocateObject := h_allocateObject;
|}.

(** ** The whole allocator *)

Definition h_initialize : M Heap unit := λ w,
  let verbose := match os_getenv "MALLOCVERBOSE" with
                 | Some s => if decide (s = "NO"%string) then 0 else 1
                 | None => 1
                 end in
  let c := hp_cent w in
  Ok tt (mkHeap (mkCent (h_mem c) (replicate 65 NULL) (h_m c) 0)
    (setCentralHeap <$> hp_thr_caches w) (hp_initialized w) verbose 0 0 0 0 (S (hp_atexit w))).

Definition h_ensure_initialized : M Heap unit := λ w,
  if hp_initialized w =? 0 then
    h_initialize (mkHeap (hp_cent w) (hp_thr_caches w) 1 (hp_verbose w) (hp_mallocCalls w)
      (hp_freeCalls w) (hp_reallocCalls w) (hp_callocCalls w) (hp_atexit w))
  else Ok tt w.

(** [self] is the value of [pthread_self()] in the calling thread. *)
Definition assignMalloc (self size : Z) : M Heap Z :=
  h_ensure_initialized;;
  let index := self `mod` NUMOFTHREADCACHES in
  if CENTHEAPALLOCTHRESHOLD <? size then onCentral (h_allocateObject size)
  else getThrCaches index (tc_allocateObject size).

Definition h_increaseMallocCalls : M Heap unit := modify (λ w, put_hcalls
  (to_int32 (hp_mallocCalls w + 1)) (hp_freeCalls w) (hp_reallocCalls w) (hp_callocCalls w) w).
Definition h_increaseFreeCalls : M Heap unit := modify (λ w, put_hcalls
  (hp_mallocCalls w) (to_int32 (hp_freeCalls w + 1)) (hp_reallocCalls w) (hp_callocCalls w) w).
Definition h_increaseReallocCalls : M Heap unit := modify (λ w, put_hcalls
  (hp_mallocCalls w) (hp_freeCalls w) (to_int32 (hp_reallocCalls w + 1)) (hp_callocCalls w) w).

Definition malloc2 (self size : Z) : M Heap Z :=
  assert_ (0 <? size);;
  ptr ← assignMalloc self size;
  h_increaseMallocCalls;;
  mret ptr.

Definition free2 (self ptr : Z) : M Heap unit :=
  if ptr =? NULL then mret tt else
  let index := self `mod` NUMOFTHREADCACHES in
  h_increaseFreeCalls;;
  freeobjsize ← onCentral (h_objectSize ptr);
  if freeobjsize `mod` CENTHEAPALLOCTHRESHOLD =? 0 then onCentral (h_freeObject ptr)
  else getThrCaches index (tc_freeObject ptr).

Definition memcpy2 (dst src n : Z) : M Heap unit := λ w,
  match copy_bytes (Z.to_nat n) dst src (h_mem (hp_cent w)) with
  | Some m => Ok tt (put_cent (put_hmem m (hp_cent w)) w)
  | None => Err (Segv dst)
  end.

Definition realloc2 (self ptr size : Z) : M Heap Z :=
  assert_ (0 <? size);;
  newptr ← malloc2 self size;
  (if negb (ptr =? NULL) then
     sizeToCopy ← onCentral (h_objectSize ptr);
     let sizeToCopy := if size <? sizeToCopy then size else sizeToCopy in
     memcpy2 newptr ptr sizeToCopy;;
     onCentral (h_freeObject ptr)
   else mret tt);;
  h_increaseReallocCalls;;
  mret newptr.

(** *** Statistics and exit *)

Fixpoint sum_caches (is_ : list Z) (sumfreelssize : Z) : M Heap Z :=
  match is_ with
  | [] => mret sumfreelssize
  | i :: is' =>
    init ← getThrCaches i (gets (λ t, isInitialized (tc_cache t)));
    sum ← (if init : bool then
             s ← getThrCaches i (onTFL tc_sumFreeListSize);
             mret (wrap64 (sumfreelssize + s))
           else mret sumfreelssize);
    sum_caches is' sum
  end.

Definition h_print : M Heap (Z * Z * bool) :=
  s0 ← onCentral (onHFL h_sumFreeListSize);
  sumfreelssize ← sum_caches (Z.of_nat <$> seq 0 17) s0;
  hs ← gets (λ w, h_heapSize (hp_cent w));
  mret (hs, sumfreelssize, hs =? sumfreelssize).

Definition h_atExitHandler : M Heap unit :=
  v ← gets hp_verbose;
  if v =? 0 then mret tt else h_print;; onCentral h_checkALL.

(** [atExitHandlerInC]: the central heap and the first cache only. *)
Definition atExitHandlerInC : M Heap unit :=
  h_atExitHandler;;
  getThrCaches 0 tc_atExitHandler.
End code.

(** ** The central heap implements the interface of the caches *)

Lemma page_total_spec size :
  0 ≤ size < 2 ^ 64 - 4127 → 
  page_total size `mod` 4096 = 0 ∧ size + 32 ≤ page_total size < size + 4128 ∧
  4096 ≤ page_total size.
Proof.
  intros Hs. unfold page_total, sizeof_ObjHeader, BASICALLOCSIZE. change (Z.shiftl 16 1) with 32.
  rewrite wrap64_small, mask_low_spec by lia. change (2 ^ 12) with 4096.
  set (x := size + 32 + 4096 - 1). pose proof (Z.mod_pos_bound x 4096).
  assert (x - x `mod` 4096 = x / 4096 * 4096) as Hx by (pose proof (Z.div_mod x 4096); lia).
  assert (1 ≤ x / 4096) by (apply Z.div_le_lower_bound; lia).
  rewrite Hx. destruct (Z.ltb_spec (x / 4096 * 4096) 48); [lia|].
  split_and!; [by apply Z.mod_mul|unfold x in *; lia..].
Qed.

Record cwf (c : Cent) (F : list (list chunk)) : Prop := {
  cw_rep : fl_rep 4096 (h_freels c) (h_mem c) F;
  cw_mult : Forall (λ d, csize d `mod` 8 = 0) (concat F);
  cw_unlocked : h_m c = false;
  cw_low : unmapped (h_mem c) 0 16;
  cw_range : 0 ≤ h_heapSize c < 2 ^ 64;
}.

Definition cinv (c : Cent) (K : list chunk) : Prop := ∃ F, K = concat F ∧ cwf c F.

Section proofs.
Context {os : OS} {Hos : SbrkLaws os}.

(** The OS refused the pages for an object of [size] bytes: less than a page more than the
    object with its header and footer. *)
Definition h_oom (c : Cent) (size : Z) : Prop := refused 4128 (h_mem c) size.

Lemma cwf_frame c F L m' :
  cwf c F → Forall (cvalid (h_mem c)) L → away L (concat F) → chunk_frame L (h_mem c) m' →
  cwf (put_hmem m' c) F.
Proof.
  intros [Hr Hm Hl Hlow Hrg] Hv Ha HF. split; simpl; try done.
  - by eapply fl_rep_away.
  - eapply unmapped_frame; [by eapply cvalid_low|done|done].
Qed.

(** The part of [allocateObject] after a block was found. *)
Lemma h_finish c F ch :
  cwf c F → cvalid (h_mem c) ch → away [ch] (concat F) →
  ∃ c', (h_unlock;; onHFL (set_allocated (addr ch) (csize ch)))
          (mkCent (h_mem c) (h_freels c) true (h_heapSize c)) = Ok (node ch) c' ∧
    cwf c' F ∧ used (h_mem c') [ch] ∧ chunk_frame [ch] (h_mem c) (h_mem c') ∧
    h_heapSize c' = h_heapSize c.
Proof.
  intros Hw Hv Ha.
  destruct (set_allocated_spec (h_freels c) (h_mem c) ch Hv) as (m' & Hrun & Ht & HF).
  eexists. split.
  { erewrite bind_ok by reflexivity. eapply zoom_ok. exact Hrun. }
  split_and!; try done.
  - pose proof (cwf_frame c F [ch] m' Hw ltac:(by constructor) Ha HF) as Hw'.
    unfold put_hmem in Hw'. by rewrite (cw_unlocked _ _ Hw) in Hw'.
  - split; constructor; try done. eapply cvalid_grows; [apply HF|done].
Qed.

Lemma h_take c F L total ch F' :
  cwf c F → apart (concat F ++ L) → 48 ≤ total < 2 ^ 34 →
  total `mod` 4096 = 0 → take_block 4096 total F = Some (ch, F') →
  ∃ c1, onHFL (take_from_lists BASICALLOCSIZE total) (mkCent (h_mem c) (h_freels c) true (h_heapSize c)) =
      Ok (Some (addr ch, csize ch)) (mkCent (h_mem c1) (h_freels c1) true (h_heapSize c1)) ∧
    cwf c1 F' ∧ cvalid (h_mem c1) ch ∧ apart (concat F' ++ ch :: L) ∧ total ≤ csize ch ∧
    csize ch `mod` 8 = 0 ∧ chunk_frame (concat F) (h_mem c) (h_mem c1) ∧
    h_heapSize c1 = h_heapSize c ∧ sizes (concat F) = csize ch + sizes (concat F').
Proof.
  intros [Hr Hm Hl Hlow Hrg] Ha Ht Hmod Htb.
  pose proof (take_from_lists_spec 4096 _ _ F total ltac:(lia) Hr ltac:(lia) Hmod) as Htake.
  rewrite Htb in Htake. destruct Htake as (h' & m' & Htake & Hr' & HF & Hvc & Hfit & Hap).
  destruct (take_block_cover 4096 total F ch F') as (Hs1 & Hd1 & Hm1); [destruct Hr; lia|lia|done|].
  assert (Hmod8 : total `mod` 8 = 0).
  { rewrite (Z.div_mod total 4096), Hmod by lia.
    replace (4096 * (total / 4096) + 0) with (512 * (total / 4096) * 8) by lia. by apply Z.mod_mul. }
  specialize (Hm1 8 ltac:(lia) Hmod8 Hm). apply Forall_cons in Hm1 as [Hm1 Hm2].
  exists (mkCent m' h' false (h_heapSize c)). split_and!; simpl; try done.
  - unfold onHFL. by erewrite zoom_ok by exact Htake.
  - split; simpl; try done. eapply unmapped_frame; [|done|done]. eapply cvalid_low; [done|]. apply Hr.
  - assert (concat F' ++ ch :: L ≡ₚ (ch :: concat F') ++ L) as -> by solve_Permutation.
    by eapply (apart_replace (concat F)).
Qed.

Lemma h_from_os c F L total :
  cwf c F → Forall (cvalid (h_mem c)) L → apart (concat F ++ L) → 48 ≤ total < 2 ^ 34 →
  os_sbrk (h_mem c) total ≠ SBRK_FAILED →
  let ch := mkChunk (os_sbrk (h_mem c) total) total in
  ∃ c1, h_getMemoryFromOS total (mkCent (h_mem c) (h_freels c) true (h_heapSize c)) =
      Ok (addr ch) (mkCent (h_mem c1) (h_freels c1) true (h_heapSize c1)) ∧
    cwf c1 F ∧ cvalid (h_mem c1) ch ∧ apart (concat F ++ ch :: L) ∧
    chunk_frame [ch] (h_mem c) (h_mem c1) ∧ h_heapSize c1 = wrap64 (h_heapSize c + total).
Proof.
  intros [Hr Hm Hl Hlow Hrg] Hv Ha Ht Hsb ch.
  destruct (sbrk_chunk (h_mem c) total (concat F ++ L)) as (HF & Hvc & Hap);
    [unfold max_chunk; lia|done|apply Forall_app; split; [apply Hr|done]|done|].
  fold ch in HF, Hvc, Hap.
  exists (mkCent (after_sbrk (h_mem c) total) (h_freels c) false (wrap64 (h_heapSize c + total))).
  split_and!; simpl; try done.
  - split; simpl; [|done|done| |apply wrap64_range].
    + eapply fl_rep_away; [done|done|]. apply (apart_away L _ _ _ Hap). solve_Permutation.
    + eapply unmapped_frame; [|exact HF|done]. constructor; [|done].
      destruct (sbrk_fresh (h_mem c) total); simpl; [lia|done|lia].
  - by assert (concat F ++ ch :: L ≡ₚ ch :: concat F ++ L) as -> by solve_Permutation.
Qed.

(** The law [cent_alloc]. *)
Lemma h_allocateObject_ok c F L size :
  cwf c F → Forall (cvalid (h_mem c)) L → apart (concat F ++ L) → 0 < size < 2 ^ 33 + 64 →
  (∃ ch F' c', h_allocateObject size c = Ok (node ch) c' ∧ cwf c' F' ∧
     used (h_mem c') [ch] ∧ apart (concat F' ++ ch :: L) ∧
     size + 32 ≤ csize ch ∧ csize ch `mod` 8 = 0 ∧
     chunk_frame (ch :: concat F) (h_mem c) (h_mem c') ∧
     wrap64 (h_heapSize c' - sizes (concat F')) =
       wrap64 (h_heapSize c - sizes (concat F) + csize ch)) ∨
  (h_allocateObject size c = Err (Segv 7) ∧ h_oom c size).
Proof.
  intros Hw Hv Ha Hs. destruct (page_total_spec size) as (Hmod & Ht & Ht'); [lia|].
  set (total := page_total size) in *. unfold h_allocateObject. fold total.
  destruct (Z.eqb_spec size 0); [lia|].
  rewrite (bind_ok _ _ c tt c) by (apply assert_ok, Z.eqb_eq; exact Hmod).
  erewrite bind_ok by (unfold h_lock; rewrite (cw_unlocked _ _ Hw); reflexivity).
  destruct (take_block 4096 total F) as [[ch F']|] eqn:Htb.
  - left. destruct (h_take c F L total ch F' Hw Ha) as
      (c1 & Hrun1 & Hw1 & Hv1 & Ha1 & Hfit & Hm8 & HF1 & Eh & Hsz); [lia|done|done|].
    destruct (h_finish c1 F' ch Hw1 Hv1) as (c' & Hrun & Hw' & Hu & HF & Eh').
    { apply (apart_away L _ _ _ Ha1). solve_Permutation. }
    exists ch, F', c'. split_and!; try done.
    + erewrite bind_ok by exact Hrun1. exact Hrun.
    + lia.
    + eapply chunk_frame_join; [exact HF1|exact HF|set_solver..].
    + rewrite Eh', Eh. f_equal. lia.
  - pose proof (take_from_lists_spec 4096 _ _ F total ltac:(lia) (cw_rep _ _ Hw) ltac:(lia) Hmod) as Htake.
    rewrite Htb in Htake.
    erewrite bind_ok by (eapply zoom_ok; exact Htake). cbv beta iota.
    destruct (decide (os_sbrk (h_mem c) total = SBRK_FAILED)) as [E|E].
    + right. split; [|exists total; split; [lia|done]].
      rewrite bind_bind. erewrite bind_ok by reflexivity. erewrite bind_ok by reflexivity.
      cbv beta iota. erewrite bind_ok by reflexivity. apply zoom_err.
      simpl. rewrite E. unfold set_allocated. apply bind_err. unfold wr. simpl.
      change (SBRK_FAILED + off_objectSize) with 7. unfold after_sbrk. rewrite E.
      rewrite mappedb_false; [done|lia|]. apply (cw_low _ _ Hw). lia.
    + left. destruct (h_from_os c F L total Hw Hv Ha) as (c1 & Hrun1 & Hw1 & Hv1 & Ha1 & HF1 & Eh);
        [lia|done|]. set (ch := mkChunk (os_sbrk (h_mem c) total) total) in *.
      destruct (h_finish c1 F ch Hw1 Hv1) as (c' & Hrun & Hw' & Hu & HF & Eh').
      { apply (apart_away L _ _ _ Ha1). solve_Permutation. }
      exists ch, F, c'. split_and!; try done.
      * rewrite bind_bind. erewrite bind_ok by exact Hrun1. exact Hrun.
      * simpl. lia.
      * simpl. rewrite (Z.div_mod total 4096), Hmod by lia.
        replace (4096 * (total / 4096) + 0) with (512 * (total / 4096) * 8) by lia. by apply Z.mod_mul.
      * eapply chunk_frame_join; [exact HF1|exact HF|set_solver..].
      * rewrite Eh', Eh. unfold Z.sub at 1. rewrite wrap64_add_l. f_equal. simpl. lia.
Qed.

#[export] Instance central_laws : CentralLaws Cent central_heap.
Proof.
  refine {| cent_inv := cinv; cent_size := h_heapSize; cent_oom := h_oom |}; simpl.
  - done.
  - by intros [].
  - done.
  - done.
  - intros c K (F & -> & Hw). apply Hw.
  - intros c K (F & -> & Hw). apply Hw.
  - intros c K (F & -> & Hw). apply Hw.
  - intros c K L m' (F & -> & Hw) Hv Ha HF. exists F. split; [done|].
    eapply cwf_frame; [done|done| |done]. apply (apart_away [] _ _ _ Ha). solve_Permutation.
  - intros c K L size (F & -> & Hw) Hv Ha Hs.
    destruct (h_allocateObject_ok c F L size Hw Hv Ha Hs) as [(ch & F' & c' & H)|?]; [|by right].
    left. exists ch, (concat F'), c'. destruct H as (?&?&H). split_and!; [done|by exists F'|apply H..].
Defined.

Lemma onHFL_read {A} (f : M FL A) c a :
  f (get_hfl c) = Ok a (get_hfl c) → onHFL f c = Ok a c.
Proof. intros E. unfold onHFL, zoom. rewrite E. by destruct c. Qed.

Lemma h_freeObject_ok c F d :
  cwf c F → used (h_mem c) [d] → csize d `mod` 8 = 0 → apart (d :: concat F) →
  ∃ c', h_freeObject (node d) c = Ok tt c' ∧
    cwf c' (fl_insert (class_of 4096 (csize d)) d F) ∧
    chunk_frame (d :: concat F) (h_mem c) (h_mem c') ∧ h_heapSize c' = h_heapSize c ∧
    concat (fl_insert (class_of 4096 (csize d)) d F) ≡ₚ d :: concat F.
Proof.
  intros [Hr Hm Hl Hlow Hrg] Hu Hmod Ha.
  pose proof (used_header _ [d] d Hu ltac:(left)) as Hsz.
  destruct Hu as [[Hvd _]%Forall_cons [Htd _]%Forall_cons]. pose proof (cvalid_size _ _ Hvd) as Hs.
  destruct (set_free_spec 4096 _ _ F d (class_of 4096 (csize d)) ltac:(lia) ltac:(lia) Hr Hvd Htd Ha)
    as (h' & m' & Hrun & Hr' & HF'); [done|].
  assert (HpF : concat (fl_insert (class_of 4096 (csize d)) d F) ≡ₚ d :: concat F).
  { apply fl_insert_perm. pose proof (class_of_le 4096 (csize d)). unfold last_class in *.
    destruct Hr. lia. }
  exists (mkCent m' h' false (h_heapSize c)). split_and!; simpl; try done.
  - unfold h_freeObject. erewrite bind_ok by (apply onHFL_read; unfold rd; simpl; by rewrite Hsz).
    erewrite bind_ok by (unfold h_lock; rewrite Hl; reflexivity).
    change (sizeof_DualLnkNode + 2 * sizeof_ObjHeader) with 48.
    destruct (Z.ltb_spec (csize d) 48); [lia|].
    by erewrite bind_ok by (eapply zoom_ok; exact Hrun).
  - split; simpl; rewrite ?HpF; try done; [by constructor|].
    eapply unmapped_frame; [|done|done]. eapply cvalid_low; [done|]. constructor; [done|apply Hr].
Qed.

Lemma h_objectSize_ok c d :
  used (h_mem c) [d] → h_objectSize (node d) c = Ok (csize d - 32) c.
Proof.
  intros Hu. pose proof (used_header _ [d] d Hu ltac:(left)) as Hsz.
  destruct Hu as [[(_ & _ & Hs & _) _]%Forall_cons _]. unfold max_chunk in Hs.
  unfold h_objectSize. erewrite bind_ok by (apply onHFL_read; unfold rd; simpl; by rewrite Hsz).
  change (Z.shiftl sizeof_ObjHeader 1) with 32. by rewrite wrap64_small by lia.
Qed.
End proofs.
