(* ===== verification/HeapAllocSpec.v ===== *)
(** * What the two-layer allocator promises to its clients

    The invariant [hwf] of the whole heap: the free blocks of the central heap,
    those of the 17 caches and the live blocks are all disjoint.  From it follows
    the same forward simulation to the abstract heap of [ClientSpec] as for the
    one-layer allocator, for any sequence of calls made by any threads.  The
    last part of the file shows what the routing of [free] and [realloc] does
    not achieve. *)

From S2P Require Import Prelude Memory OS FreeList FreeListRep Arena ClientSpec.
From S2P Require Import ThreadCache HeapAlloc.
From stdpp Require Import base numbers list gmap sorting strings.
Open Scope Z_scope.

(** ** The invariant *)

(** Blocks of all caches, and of all but the cache [i]. *)
Definition cached (Fs : list (list (list chunk))) : list chunk := concat (@concat chunk <$> Fs).
Definition others (i : nat) (Fs : list (list (list chunk))) : list chunk := cached (delete i Fs).

Definition cache_ok (init : Z) (m : mem) (ca : Cache) (F : list (list chunk)) : Prop :=
  fl_rep 8 (c_freels ca) m F ∧ Forall (λ c, csize c `mod` 8 = 0) (concat F) ∧
  c_m ca = false ∧ (init ≠ 0 → c_cent_heap ca = true).

Record hwf (w : Heap) (F0 : list (list chunk)) (Fs : list (list (list chunk)))
    (U : list chunk) : Prop := {
  hw_cent : cwf (hp_cent w) F0;
  hw_caches : Forall2 (cache_ok (hp_initialized w) (h_mem (hp_cent w))) (hp_thr_caches w) Fs;
  hw_length : length (hp_thr_caches w) = 17%nat;
  hw_used : used (h_mem (hp_cent w)) U;
  hw_mult : Forall (λ c, csize c `mod` 8 = 0) U;
  hw_apart : apart (concat F0 ++ cached Fs ++ U);
  hw_heap : ∃ leaked, 0 ≤ leaked ∧
    wrap64 (h_heapSize (hp_cent w)) = wrap64 (sizes (concat F0) + sizes (cached Fs) + sizes U + leaked);
  hw_init : hp_initialized w = 0 → F0 = replicate 65 [] ∧ cached Fs = [] ∧ U = [];
}.

Lemma cached_split i Fs F : Fs !! i = Some F → cached Fs ≡ₚ concat F ++ others i Fs.
Proof.
  intros HF. unfold others, cached. rewrite delete_take_drop.
  rewrite <-(take_drop_middle Fs i F HF) at 1.
  rewrite !fmap_app, !concat_app. simpl. solve_Permutation.
Qed.

Lemma others_insert i Fs F : others i (<[i := F]> Fs) = others i Fs.
Proof.
  unfold others. f_equal. rewrite !delete_take_drop.
  by rewrite take_insert_ge, drop_insert_lt by lia.
Qed.

Lemma cached_insert i Fs F F' :
  Fs !! i = Some F → cached (<[i := F']> Fs) ≡ₚ concat F' ++ others i Fs.
Proof.
  intros HF. rewrite (cached_split i _ F'); [by rewrite others_insert|].
  apply list_lookup_insert_eq. by eapply lookup_lt_Some.
Qed.

Lemma others_elem i j Fs F : i ≠ j → Fs !! j = Some F → concat F ⊆ others i Fs.
Proof.
  intros Hne HF d Hd. unfold others, cached. apply elem_of_concat. exists (concat F).
  split; [done|]. apply list_elem_of_fmap_2. rewrite delete_take_drop. apply elem_of_app.
  destruct (decide (j < i)%nat).
  - left. apply list_elem_of_lookup. exists j. by rewrite lookup_take_lt.
  - right. apply list_elem_of_lookup. exists (j - S i)%nat. rewrite lookup_drop.
    by replace (S i + (j - S i))%nat with j by lia.
Qed.

Lemma away_sub L K L' K' : away L K → L' ⊆ L → K' ⊆ K → away L' K'.
Proof. intros H HL HK. apply away_intro. intros c d Hc Hd. eapply away_elem; eauto. Qed.

Lemma tinv_perm {C} {CH : CentralHeap C} {Laws : CentralLaws C CH} (t : TC C) K F L L' :
  L ≡ₚ L' → tinv t K F L → tinv t K F L'.
Proof. intros HL [? ? ? ? ? ? ?]. split; rewrite <-?HL; done. Qed.

Section invariant.
Context {os : OS} {Hos : SbrkLaws os}.

Lemma caches_valid init m cas Fs :
  Forall2 (cache_ok init m) cas Fs → Forall (cvalid m) (cached Fs).
Proof.
  induction 1 as [|ca F cas Fs [Hr _] _ IH]; [constructor|].
  unfold cached. simpl. apply Forall_app. split; [apply Hr|done].
Qed.

Lemma others_valid i init m cas Fs :
  Forall2 (cache_ok init m) cas Fs → Forall (cvalid m) (others i Fs).
Proof. intros H. apply (caches_valid init m (delete i cas)). by apply Forall2_delete. Qed.

(** The cache [i] as the code of the thread cache sees it. *)
Lemma hwf_cache w F0 Fs U i ca :
  hwf w F0 Fs U → hp_initialized w ≠ 0 → hp_thr_caches w !! i = Some ca →
  ∃ F, Fs !! i = Some F ∧
    tinv (mkTC ca (hp_cent w)) (concat F0) F (others i Fs ++ U).
Proof.
  intros [Hc Hcs Hlen Hu Hm Ha Hh Hi] Hinit Hca.
  destruct (Forall2_lookup_l _ _ _ _ _ Hcs Hca) as (F & HF & Hr & HmF & Hl & Hset).
  exists F. split; [done|]. split; simpl; try done; [by exists F0| |auto|auto].
  - apply Forall_app. split; [by eapply others_valid|apply Hu].
  - rewrite (cached_split i Fs F HF) in Ha. by rewrite <-app_assoc in Ha.
Qed.

(** Back from a step of cache [i] to the whole heap. *)
Lemma hwf_step w F0 Fs U i F t' F0' F' U' X :
  hwf w F0 Fs U → hp_initialized w ≠ 0 → Fs !! i = Some F →
  tinv t' (concat F0') F' (others i Fs ++ U') → cwf (tc_cent t') F0' →
  used (h_mem (tc_cent t')) U' → Forall (λ c, csize c `mod` 8 = 0) U' →
  chunk_frame X (h_mem (hp_cent w)) (h_mem (tc_cent t')) → away X (others i Fs) →
  (∃ leaked, 0 ≤ leaked ∧ wrap64 (h_heapSize (tc_cent t')) =
     wrap64 (sizes (concat F0') + sizes (concat F') + sizes (others i Fs) + sizes U' + leaked)) →
  hwf (put_cent (tc_cent t') (put_caches (<[i := tc_cache t']> (hp_thr_caches w)) w))
    F0' (<[i := F']> Fs) U'.
Proof.
  intros [Hc Hcs Hlen Hu Hm Ha Hh Hi] Hinit HF Ht' Hc' Hu' Hm' HX Haw (lk & Hlk & Hsz).
  pose proof (cached_insert i Fs F F' HF) as Hci. split; simpl; try done.
  - apply Forall2_same_length_lookup. split; [rewrite !length_insert; by eapply Forall2_length|].
    intros j ca Fj Hj HFj. destruct (decide (i = j)) as [<-|Hne].
    + rewrite list_lookup_insert_eq in HFj by (by eapply lookup_lt_Some).
      rewrite list_lookup_insert_eq in Hj
        by (rewrite (Forall2_length _ _ _ Hcs); by eapply lookup_lt_Some).
      injection HFj as <-. injection Hj as <-.
      split_and!; [apply (ti_rep _ _ _ _ Ht')|apply Ht'|apply Ht'|intros _; apply Ht'].
    + rewrite list_lookup_insert_ne in HFj by done. rewrite list_lookup_insert_ne in Hj by done.
      destruct (Forall2_lookup_lr _ _ _ _ _ _ Hcs Hj HFj) as (Hr & HmF & Hl & Hset).
      split_and!; [|done|done|done]. eapply fl_rep_away; [done|exact HX|].
      eapply away_sub; [exact Haw|done|by eapply others_elem].
  - by rewrite length_insert.
  - rewrite Hci, <-app_assoc. apply (ti_apart _ _ _ _ Ht').
  - exists lk. split; [done|]. rewrite Hci, sizes_app, Hsz. f_equal. lia.
Qed.

Lemma h_ensure_initialized_ok w F0 Fs U :
  hwf w F0 Fs U →
  ∃ w', h_ensure_initialized w = Ok tt w' ∧ hwf w' F0 Fs U ∧
    h_mem (hp_cent w') = h_mem (hp_cent w) ∧ hp_initialized w' ≠ 0.
Proof.
  intros Hw. unfold h_ensure_initialized.
  destruct (Z.eqb_spec (hp_initialized w) 0) as [E|E]; [|by exists w].
  destruct Hw as [[Hr Hm8 Hl Hlow Hrg] Hcs Hlen Hu Hm Ha Hh Hi].
  destruct (Hi E) as (-> & Ec & ->).
  eexists. split; [reflexivity|]. split; [|done]. split; simpl; try done.
  - split; simpl; try done. apply fl_rep_empty.
  - apply Forall2_fmap_l. eapply Forall2_impl; [exact Hcs|].
    intros ca F (Hr' & HmF & Hl' & _). by split_and!.
  - by rewrite length_fmap.
  - exists 0. by rewrite Ec.
Qed.

(** A successful allocation for a request of [size] bytes. *)
Definition hallocated (w : Heap) (F0 : list (list chunk)) (Fs : list (list (list chunk)))
    (U : list chunk) (size : Z) (ch : chunk) (w' : Heap) : Prop :=
  ∃ F0' Fs', hwf w' F0' Fs' (ch :: U) ∧ size + 32 ≤ csize ch ∧
    chunk_frame (ch :: concat F0 ++ cached Fs) (h_mem (hp_cent w)) (h_mem (hp_cent w')).

(** The OS refused pages for an object of [size] bytes; a cache asks for up to 48 bytes more
    than the object. *)
Definition h_refused (w : Heap) (size : Z) : Prop := refused 4176 (h_mem (hp_cent w)) size.
Definition h_out_of_memory (w : Heap) (o : op) : Prop := ∃ size, requested o = Some size ∧ h_refused w size.

Lemma h_refused_direct w size : h_oom (hp_cent w) size → h_refused w size.
Proof. intros (n & Hn & E). exists n. split; [lia|done]. Qed.

Lemma h_refused_cached w size : 0 ≤ size < 2 ^ 33 → h_oom (hp_cent w) (total_size size) → h_refused w size.
Proof. intros Hs (n & Hn & E). destruct (total_size_spec size) as [_ Ht]; [lia|]. exists n. split; [lia|done]. Qed.


Lemma total_size_ge size : 0 ≤ size < 2 ^ 33 → size + 32 ≤ total_size size.
Proof. intros. destruct (total_size_spec size); lia. Qed.

(** What initialisation drops is counted as leaked. *)
Lemma kept_facts u h m ca F :
  fl_rep u h m F →
  concat (kept ca F) ⊆ concat F ∧
  ∃ lk, 0 ≤ lk ∧ sizes (concat F) = sizes (concat (kept ca F)) + lk.
Proof.
  intros Hr. unfold kept. destruct (_ =? 0).
  - split; [by intros d Hd%elem_of_nil|]. exists (sizes (concat F)). split; [|done].
    apply zsum_nonneg, Forall_fmap. eapply Forall_impl; [by eapply fl_rep_sizes|].
    intros c Hc. simpl in *. lia.
  - split; [done|]. exists 0. lia.
Qed.

Lemma used_cons m c U : used m [c] → used m U → used m (c :: U).
Proof. intros [[]%Forall_cons []%Forall_cons] []. by split; constructor. Qed.

(** Allocation from the cache [i] of the calling thread. *)
Lemma cache_allocate_ok w F0 Fs U i size :
  hwf w F0 Fs U → hp_initialized w ≠ 0 → 0 ≤ i < 17 → 0 < size < 2 ^ 33 →
  (∃ ch w', getThrCaches i (tc_allocateObject size) w = Ok (node ch) w' ∧
     hallocated w F0 Fs U size ch w') ∨
  (getThrCaches i (tc_allocateObject size) w = Err (Segv 7) ∧ h_refused w size).
Proof.
  intros Hw Hinit Hi Hs. pose proof (hw_length _ _ _ _ Hw) as Hlen.
  destruct (lookup_lt_is_Some_2 (hp_thr_caches w) (Z.to_nat i)) as [ca Hca]; [lia|].
  destruct (hwf_cache w F0 Fs U _ ca Hw Hinit Hca) as (F & HF & Hti).
  unfold getThrCaches. rewrite Hca. set (j := Z.to_nat i) in *.
  destruct (tc_allocateObject_ok _ _ _ _ size Hti Hs) as
    (t1 & _ & Et1 & _ & _ & [(ch & t' & Hrun & Hall)|[Hrun Ho]]); rewrite Hrun; [left|right; split; [done|apply h_refused_cached; [lia|exact Ho]]].
  destruct Hall as (K' & F' & h' & Hti' & Hu' & Htot & Hm8 & HX & Hels & _).
  pose proof (ti_cent _ _ _ _ Hti') as (F0' & -> & Hc'). rewrite Et1 in HX. simpl in HX, Hels.
  destruct (kept_facts _ _ _ ca F (ti_rep _ _ _ _ Hti)) as (Hsub & lk & Hlk & Elk).
  set (Fk := kept ca F) in *.
  assert (Haw : away (ch :: concat Fk ++ concat F0) (others j Fs ++ U)).
  { apply Forall_cons. split.
    - apply (Forall_inv (P := λ c, Forall (disj c) (others j Fs ++ U)) (l := [])).
      apply (apart_away (concat F0' ++ concat F') _ _ _ (ti_apart _ _ _ _ Hti')). solve_Permutation.
    - apply (away_sub (concat F ++ concat F0) (others j Fs ++ U)); [|set_solver|done].
      apply (apart_away [] _ _ _ (ti_apart _ _ _ _ Hti)). solve_Permutation. }
  exists ch. eexists. split; [reflexivity|].
  exists F0', (<[j := F']> Fs). split_and!.
  - apply (hwf_step w F0 Fs U _ F t' F0' F' _ (ch :: concat Fk ++ concat F0)); try done.
    + eapply tinv_perm; [|exact Hti']. solve_Permutation.
    + apply used_cons; [done|]. eapply used_away; [exact HX| |apply Hw].
      eapply away_sub; [exact Haw|done|set_solver].
    + constructor; [done|apply Hw].
    + eapply away_sub; [exact Haw|done|set_solver].
    + destruct (hw_heap _ _ _ _ Hw) as (lk0 & Hlk0 & Hsz). exists (lk0 + lk). split; [lia|].
      rewrite (cached_split _ _ _ HF), sizes_app in Hsz. unfold elsewhere in Hels.
      rewrite Et1, wrap64_add_l in Hels. simpl in Hels. rewrite sizes_cons.
      apply wrap64_cong in Hsz as [k1 Hk1]. apply wrap64_cong in Hels as [k2 Hk2].
      apply wrap64_cong. exists (k1 + k2). lia.
  - pose proof (total_size_ge size). lia.
  - simpl. eapply chunk_frame_mono; [|exact HX]. rewrite (cached_split _ _ _ HF). set_solver.
Qed.

(** Back from a step of the central heap to the whole heap. *)
Lemma hwf_central w F0 Fs U c' F0' U' X :
  hwf w F0 Fs U → hp_initialized w ≠ 0 → cwf c' F0' →
  used (h_mem c') U' → Forall (λ c, csize c `mod` 8 = 0) U' →
  apart (concat F0' ++ cached Fs ++ U') →
  chunk_frame X (h_mem (hp_cent w)) (h_mem c') → away X (cached Fs) →
  (∃ leaked, 0 ≤ leaked ∧ wrap64 (h_heapSize c') =
     wrap64 (sizes (concat F0') + sizes (cached Fs) + sizes U' + leaked)) →
  hwf (put_cent c' w) F0' Fs U'.
Proof.
  intros [Hc Hcs Hlen Hu Hm Ha Hh Hi] Hinit Hc' Hu' Hm' Ha' HX Haw Hsz. split; simpl; try done.
  apply Forall2_same_length_lookup. split; [by eapply Forall2_length|].
  intros j ca Fj Hj HFj.
  destruct (Forall2_lookup_lr _ _ _ _ _ _ Hcs Hj HFj) as (Hr & HmF & Hl & Hset).
  split_and!; [|done|done|done]. eapply fl_rep_away; [done|exact HX|].
  eapply away_sub; [exact Haw|done|]. rewrite (cached_split _ _ _ HFj).
  intros d Hd. apply elem_of_app. by left.
Qed.

Lemma central_allocate_ok w F0 Fs U size :
  hwf w F0 Fs U → hp_initialized w ≠ 0 → 0 < size < 2 ^ 33 →
  (∃ ch w', onCentral (h_allocateObject size) w = Ok (node ch) w' ∧
     hallocated w F0 Fs U size ch w') ∨
  (onCentral (h_allocateObject size) w = Err (Segv 7) ∧ h_refused w size).
Proof.
  intros Hw Hinit Hs. pose proof Hw as [Hc Hcs Hlen Hu Hm Ha (lk & Hlk & Hsz) Hi].
  destruct (h_allocateObject_ok (hp_cent w) F0 (cached Fs ++ U) size Hc) as
    [(ch & F0' & c' & Hrun & Hc' & Hu' & Ha' & Hfit & Hm8 & HX & Hsz')|[Hrun Ho]];
    [apply Forall_app; split; [by eapply caches_valid|apply Hu]|done|lia| |].
  2: { right. split; [by apply zoom_err|by apply h_refused_direct]. }
  left. exists ch. eexists. split; [by apply zoom_ok|]. exists F0', Fs.
  assert (Haw : away (ch :: concat F0) (cached Fs ++ U)).
  { apply Forall_cons. split.
    - apply (Forall_inv (P := λ c, Forall (disj c) (cached Fs ++ U)) (l := [])).
      apply (apart_away (concat F0') _ _ _ Ha'). solve_Permutation.
    - apply (apart_away [] _ _ _ Ha). solve_Permutation. }
  split_and!; [|done|].
  - apply (hwf_central w F0 Fs U c' F0' _ (ch :: concat F0)); try done.
    + apply used_cons; [done|]. eapply used_away; [exact HX| |apply Hw].
      eapply away_sub; [exact Haw|done|set_solver].
    + by constructor.
    + by assert (concat F0' ++ cached Fs ++ ch :: U ≡ₚ concat F0' ++ ch :: cached Fs ++ U)
        as -> by solve_Permutation.
    + eapply away_sub; [exact Haw|done|set_solver].
    + exists lk. split; [done|]. rewrite sizes_cons.
      apply wrap64_cong in Hsz as [k1 Hk1]. apply wrap64_cong in Hsz' as [k2 Hk2].
      apply wrap64_cong. exists (k1 + k2). lia.
  - simpl. eapply chunk_frame_mono; [|exact HX]. set_solver.
Qed.

Lemma self_index self : 0 ≤ self `mod` NUMOFTHREADCACHES < 17.
Proof. apply Z.mod_pos_bound. unfold NUMOFTHREADCACHES. lia. Qed.

Lemma assignMalloc_ok w F0 Fs U self size :
  hwf w F0 Fs U → 0 < size < 2 ^ 33 →
  (∃ ch w', assignMalloc self size w = Ok (node ch) w' ∧ hallocated w F0 Fs U size ch w') ∨
  (assignMalloc self size w = Err (Segv 7) ∧ h_refused w size).
Proof.
  intros Hw0 Hs. destruct (h_ensure_initialized_ok w F0 Fs U Hw0) as (w1 & Hinit & Hw & Em & Hi).
  unfold assignMalloc, hallocated, h_refused. rewrite (bind_ok _ _ _ _ _ Hinit), <-Em.
  destruct (_ <? size).
  - by apply central_allocate_ok.
  - apply cache_allocate_ok; [done|done|apply self_index|done].
Qed.

(** Freeing a live block into the cache [i]. *)
Lemma cache_free_ok w F0 Fs U i c :
  hwf w F0 Fs (c :: U) → hp_initialized w ≠ 0 → 0 ≤ i < 17 →
  ∃ w' F0' Fs', getThrCaches i (tc_freeObject (node c)) w = Ok tt w' ∧ hwf w' F0' Fs' U ∧
    chunk_frame (c :: concat F0 ++ cached Fs) (h_mem (hp_cent w)) (h_mem (hp_cent w')) ∧
    h_freels (hp_cent w') = h_freels (hp_cent w).
Proof.
  intros Hw Hinit Hi. pose proof (hw_length _ _ _ _ Hw) as Hlen.
  destruct (lookup_lt_is_Some_2 (hp_thr_caches w) (Z.to_nat i)) as [ca Hca]; [lia|].
  destruct (hwf_cache w F0 Fs _ _ ca Hw Hinit Hca) as (F & HF & Hti).
  unfold getThrCaches. rewrite Hca. set (j := Z.to_nat i) in *.
  pose proof (hw_used _ _ _ _ Hw) as [[Hvc HvU]%Forall_cons [Htc HtU]%Forall_cons].
  pose proof (hw_mult _ _ _ _ Hw) as [Hmc HmU]%Forall_cons.
  assert (Hti2 : tinv (mkTC ca (hp_cent w)) (concat F0) F (c :: others j Fs ++ U)).
  { eapply tinv_perm; [|exact Hti]. solve_Permutation. }
  destruct (tc_freeObject_ok _ _ _ _ _ Hti2) as (t' & h' & Hrun & Hti' & HX & _ & Esz & [m' Em'] & Hperm);
    [by split; constructor|done|]. rewrite Hrun. simpl in Esz, HX.
  pose proof (ti_cent _ _ _ _ Hti') as (F0' & EF0 & Hc'). rewrite EF0 in Hti'.
  set (F' := fl_insert _ c F) in *.
  assert (Haw : away (c :: concat F) (others j Fs ++ U)).
  { apply (apart_away (concat F0) _ _ _ (ti_apart _ _ _ _ Hti2)). solve_Permutation. }
  eexists _, F0', (<[j := F']> Fs). split; [reflexivity|]. split_and!; [| |by simpl; rewrite Em'].
  - apply (hwf_step w F0 Fs (c :: U) _ F t' F0' F' _ (c :: concat F)); try done.
    + eapply (used_away (c :: concat F)); [exact HX| |by split].
      eapply away_sub; [exact Haw|done|set_solver].
    + eapply away_sub; [exact Haw|done|set_solver].
    + destruct (hw_heap _ _ _ _ Hw) as (lk & Hlk & Hsz). exists lk. split; [done|].
      rewrite (cached_split _ _ _ HF), sizes_app, sizes_cons in Hsz.
      rewrite Esz, Hsz, Hperm, sizes_cons, <-EF0. f_equal. lia.
  - simpl. eapply chunk_frame_mono; [|exact HX]. rewrite (cached_split _ _ _ HF). set_solver.
Qed.

(** Freeing a live block into the central heap. *)
Lemma central_free_ok w F0 Fs U c :
  hwf w F0 Fs (c :: U) → hp_initialized w ≠ 0 →
  ∃ w' F0', onCentral (h_freeObject (node c)) w = Ok tt w' ∧ hwf w' F0' Fs U ∧
    chunk_frame (c :: concat F0 ++ cached Fs) (h_mem (hp_cent w)) (h_mem (hp_cent w')).
Proof.
  intros Hw Hinit. pose proof Hw as [Hc Hcs Hlen Hu Hm Ha (lk & Hlk & Hsz) Hi].
  destruct Hu as [[Hvc HvU]%Forall_cons [Htc HtU]%Forall_cons].
  apply Forall_cons in Hm as [Hmc HmU].
  destruct (h_freeObject_ok (hp_cent w) F0 c Hc) as (c' & Hrun & Hc' & HX & Esz & Hperm);
    [by split; constructor|done|apply (apart_part (cached Fs ++ U) _ _ Ha); solve_Permutation|].
  set (F0' := fl_insert _ c F0) in *.
  assert (Haw : away (c :: concat F0) (cached Fs ++ U)).
  { apply (apart_away [] _ _ _ Ha). solve_Permutation. }
  eexists _, F0'. split; [by apply zoom_ok|]. split.
  - apply (hwf_central w F0 Fs (c :: U) c' F0' _ (c :: concat F0)); try done.
    + eapply (used_away (c :: concat F0)); [exact HX| |by split].
      eapply away_sub; [exact Haw|done|set_solver].
    + rewrite Hperm.
      by assert ((c :: concat F0) ++ cached Fs ++ U ≡ₚ concat F0 ++ cached Fs ++ c :: U)
        as -> by solve_Permutation.
    + eapply away_sub; [exact Haw|done|set_solver].
    + exists lk. split; [done|]. rewrite Esz, Hsz, Hperm, !sizes_cons. f_equal. lia.
  - simpl. eapply chunk_frame_mono; [|exact HX]. set_solver.
Qed.

Lemma hwf_perm w F0 Fs U U' : U ≡ₚ U' → hwf w F0 Fs U → hwf w F0 Fs U'.
Proof.
  intros HU [? ? ? ? ? ? (lk & ? & Hsz) Hi]. split; rewrite <-?HU; try done.
  - exists lk. by rewrite <-HU.
  - intros E. destruct (Hi E) as (? & ? & ->). split_and!; [done..|].
    symmetry in HU. by apply Permutation_nil_r in HU.
Qed.

(** Counters do not matter. *)
Lemma hwf_same w w' F0 Fs U :
  hwf w F0 Fs U → hp_cent w' = hp_cent w → hp_thr_caches w' = hp_thr_caches w →
  hp_initialized w' = hp_initialized w → hwf w' F0 Fs U.
Proof. intros [? ? ? ? ? ? ? ?] E1 E2 E3. split; rewrite ?E1, ?E2, ?E3; done. Qed.

(** A heap with live blocks is initialised. *)
Lemma hwf_live_init w F0 Fs c U : hwf w F0 Fs (c :: U) → hp_initialized w ≠ 0.
Proof. intros Hw E. by destruct (hw_init _ _ _ _ Hw E) as (_ & _ & ?). Qed.

Lemma live_size w F0 Fs U c :
  hwf w F0 Fs U → c ∈ U → onCentral (h_objectSize (node c)) w = Ok (csize c - 32) w.
Proof.
  intros Hw Hc. destruct (hw_used _ _ _ _ Hw) as [Hv Ht]. rewrite Forall_forall in Hv, Ht.
  unfold onCentral, zoom. rewrite h_objectSize_ok by (split; constructor; auto).
  by destruct w.
Qed.

(** [free] reaches one of the two layers. *)
Lemma free2_ok w F0 Fs U self c :
  hwf w F0 Fs (c :: U) →
  ∃ w' F0' Fs', free2 self (node c) w = Ok tt w' ∧ hwf w' F0' Fs' U ∧
    chunk_frame (c :: concat F0 ++ cached Fs) (h_mem (hp_cent w)) (h_mem (hp_cent w')).
Proof.
  intros Hw. pose proof (hwf_live_init _ _ _ _ _ Hw) as Hinit. unfold free2.
  destruct (Z.eqb_spec (node c) NULL) as [E|_].
  { pose proof (Forall_inv (proj1 (hw_used _ _ _ _ Hw))) as Hv%cvalid_node. unfold NULL in E. lia. }
  destruct (h_increaseFreeCalls w) as [[] w1|] eqn:E1; [|done]. rewrite (bind_ok _ _ _ _ _ E1).
  assert (Hw1 : hwf w1 F0 Fs (c :: U) ∧ hp_cent w1 = hp_cent w ∧ hp_initialized w1 ≠ 0)
    by (injection E1 as <-; split; [by eapply hwf_same|done]). destruct Hw1 as (Hw1 & Em & Hi1).
  rewrite (bind_ok _ _ _ _ _ (live_size _ _ _ _ c Hw1 ltac:(left))), <-Em.
  destruct (_ =? 0).
  - destruct (central_free_ok w1 F0 Fs U c Hw1 Hi1) as (w' & F0' & H). by exists w', F0', Fs.
  - destruct (cache_free_ok w1 F0 Fs U _ c Hw1 Hi1 (self_index self))
      as (w' & F0' & Fs' & ? & ? & ? & _). by exists w', F0', Fs'.
Qed.

Lemma malloc2_ok w F0 Fs U self size :
  hwf w F0 Fs U → 0 < size < 2 ^ 33 →
  (∃ ch w', malloc2 self size w = Ok (node ch) w' ∧ hallocated w F0 Fs U size ch w') ∨
  (malloc2 self size w = Err (Segv 7) ∧ h_refused w size).
Proof.
  intros Hw Hs. unfold malloc2.
  rewrite (bind_ok _ _ w tt w) by (apply assert_ok, Z.ltb_lt; lia).
  destruct (assignMalloc_ok w F0 Fs U self size Hw Hs) as
    [(ch & w' & Hrun & F0' & Fs' & Hw' & Hfit & HX)|[Hrun Ho]].
  - left. rewrite (bind_ok _ _ _ _ _ Hrun). exists ch. eexists. split; [reflexivity|].
    exists F0', Fs'. split_and!; [by eapply hwf_same|done|done].
  - right. by rewrite (bind_err _ _ _ _ Hrun).
Qed.
End invariant.

(** ** Clients *)

Definition hmem (w : Heap) : mem := h_mem (hp_cent w).
Definition put_heap_mem (m : mem) (w : Heap) : Heap := put_cent (put_hmem m (hp_cent w)) w.

Definition store_byte2 (a b : Z) : M Heap unit := λ w,
  match hmem w !! a with
  | Some _ => Ok tt (put_heap_mem (<[a := b]> (hmem w)) w)
  | None => Err (Segv a)
  end.

Definition load_byte2 (a : Z) : M Heap Z := λ w,
  match hmem w !! a with Some b => Ok b w | None => Err (Segv a) end.

(** A call made by the thread [self]. *)
Definition exec2 {os : OS} (self : Z) (o : op) : M Heap Z :=
  match o with
  | Malloc size => malloc2 self size
  | Free p => free2 self p;; mret 0
  | Realloc p size => realloc2 self p size
  | Store p i b => store_byte2 (p + Z.of_nat i) b;; mret 0
  | Load p i => load_byte2 (p + Z.of_nat i)
  end.

(** This [realloc] asserts that the size is positive. *)
Definition valid_op2 (H : heap) (o : op) : Prop :=
  valid_op H o ∧ match o with Realloc _ size => 0 < size | _ => True end.

Definition hinv (w : Heap) (K U : list chunk) : Prop :=
  ∃ F0 Fs, K = concat F0 ++ cached Fs ∧ hwf w F0 Fs U.

#[export] Instance hinv_heap : HeapInv hmem put_heap_mem hinv.
Proof.
  split.
  - intros w K U (F0 & Fs & -> & Hw). apply Hw.
  - intros w K U (F0 & Fs & -> & Hw). rewrite <-app_assoc. apply Hw.
  - intros w K U U' HU (F0 & Fs & -> & Hw). exists F0, Fs. split; [done|]. by eapply hwf_perm.
  - intros w K U c m' (F0 & Fs & -> & Hw) HP. pose proof (hwf_live_init _ _ _ _ _ Hw) as Hinit.
    destruct Hw as [Hc Hcs Hlen Hu Hm Ha Hh Hi] eqn:E. clear E.
    pose proof (Forall_inv (proj1 Hu)) as Hv. pose proof (cvalid_size _ _ Hv) as Hs.
    pose proof (payload_chunk_frame _ _ _ Hs HP) as HF.
    exists F0, Fs. split; [done|].
    apply (hwf_central w F0 Fs (c :: U) _ F0 _ [c]); try done.
    + eapply cwf_frame; [done|by constructor| |done].
      apply (apart_away (cached Fs ++ U) _ _ _ Ha). solve_Permutation.
    + eapply used_payload; [done| |done].
      apply (apart_part (concat F0 ++ cached Fs) _ _ Ha). solve_Permutation.
    + apply (apart_away (concat F0 ++ U) _ _ _ Ha). solve_Permutation.
  - done.
Qed.

Definition heap_rep2 : Heap → heap → Prop := rep (wmem := hmem) (inv := hinv).

Section simulation.
Context {os : OS} {Hos : SbrkLaws os}.

Definition simulates2 (w : Heap) (H : heap) (self : Z) (o : op) : Prop :=
  (∃ r w', exec2 self o w = Ok r w' ∧ spec_step H o r (observe (hmem w') o r H) ∧
           heap_rep2 w' (observe (hmem w') o r H)) ∨
  (exec2 self o w = Err (Segv 7) ∧ h_out_of_memory w o).

Lemma hinv_intro w F0 Fs U : hwf w F0 Fs U → hinv w (concat F0 ++ cached Fs) U.
Proof. intros Hw. by exists F0, Fs. Qed.

Lemma malloc2_sim w H self size :
  heap_rep2 w H → valid_op H (Malloc size) → simulates2 w H self (Malloc size).
Proof.
  intros (K & U & (F0 & Fs & -> & Hw) & HC) Hval. simpl in Hval. unfold max_request in Hval.
  unfold simulates2. simpl.
  destruct (malloc2_ok w F0 Fs U self size Hw ltac:(lia)) as
    [(c & w' & Hrun & F0' & Fs' & Hw' & Hs & HF)|[Hrun Ho]]; [left|right; split; [done|by exists size]].
  exists (node c), w'. split; [done|].
  destruct (alloc_contents (inv := hinv) w w' _ _ U H c size (hinv_intro _ _ _ _ Hw) HC
    (hinv_intro _ _ _ _ Hw') HF Hs) as [HC' Hfr].
  rewrite (payload_at_ok _ (c :: U)) by (apply Hw' || left). split; [by constructor|].
  eexists _, (c :: U). split; [by apply hinv_intro|done].
Qed.

Lemma free2_sim w H self p :
  heap_rep2 w H → valid_op H (Free p) → simulates2 w H self (Free p).
Proof.
  intros (K & U & (F0 & Fs & -> & Hw) & HC) Hval. simpl in Hval. left. simpl.
  destruct (decide (p = NULL)) as [->|Hne].
  - exists 0, w. split; [done|]. rewrite (delete_null w _ U H (hinv_intro _ _ _ _ Hw) HC).
    split; [constructor|]. eexists _, U. split; [by apply hinv_intro|done].
  - destruct Hval as [->|Hs]; [done|].
    destruct (contents_take _ _ _ _ HC Hs) as (c & U' & -> & HU).
    rewrite HU in HC. apply (hwf_perm _ _ _ _ _ HU) in Hw.
    destruct (free2_ok w F0 Fs U' self c Hw) as (w' & F0' & Fs' & Hrun & Hw' & HF).
    exists 0, w'. split; [by rewrite (bind_ok _ _ _ _ _ Hrun)|]. split; [by constructor|].
    eexists _, U'. split; [by apply hinv_intro|].
    eapply (free_contents (inv := hinv) w); [by apply hinv_intro|done|done].
Qed.

(** The part of [realloc] after the allocation: the old block goes to the
    central heap, whatever its size. *)
Definition move_old2 (newptr ptr size : Z) : M Heap unit :=
  sizeToCopy ← onCentral (h_objectSize ptr);
  let sizeToCopy := if size <? sizeToCopy then size else sizeToCopy in
  memcpy2 newptr ptr sizeToCopy;;
  onCentral (h_freeObject ptr).

Lemma move_old2_sim w F0 Fs U c d H x size :
  hwf w F0 Fs (c :: U) → contents (hmem w) (c :: U) (<[node c := x]> H) → d ∈ U →
  0 ≤ size ≤ csize c - 32 →
  let old := payload (hmem w) d in
  let n := Nat.min (Z.to_nat size) (length old) in
  ∃ w' F0' Fs' U', move_old2 (node c) (node d) size w = Ok tt w' ∧ hwf w' F0' Fs' (c :: U') ∧
    contents (hmem w') (c :: U') (<[node c := payload (hmem w') c]> (delete (node d) H)) ∧
    take n (payload (hmem w') c) = take n old.
Proof.
  intros Hw HC Hd Hsz old n.
  assert (Hsd : 48 ≤ csize d).
  { destruct (hw_used _ _ _ _ Hw) as [Hv _]. rewrite Forall_forall in Hv.
    eapply cvalid_size, Hv. by right. }
  set (k := if size <? csize d - 32 then size else csize d - 32).
  assert (Hk : 0 ≤ k ≤ csize c - 32 ∧ k ≤ csize d - 32 ∧ n = Z.to_nat k).
  { unfold n, old. rewrite payload_length. unfold k.
    destruct (Z.ltb_spec size (csize d - 32)); lia. }
  destruct Hk as (Hk1 & Hk2 & ->).
  destruct (copy_contents (inv := hinv) w _ U c d (<[node c := x]> H) k (hinv_intro _ _ _ _ Hw)) as
    (m' & Hcp & (F1 & Fs1 & EF & Hw1) & HC1 & Htk); [done..|].
  set (w1 := put_heap_mem m' w) in *. rewrite insert_insert_eq in HC1.
  pose proof Hd as (U1 & U2 & EU)%list_elem_of_split.
  assert (HU : c :: U ≡ₚ d :: c :: U1 ++ U2).
  { rewrite EU, <-Permutation_middle. apply Permutation_swap. }
  pose proof (hwf_perm _ _ _ _ _ HU Hw1) as Hw2. rewrite HU in HC1.
  destruct (central_free_ok w1 F1 Fs1 (c :: U1 ++ U2) d Hw2) as (w' & F2 & Hrun & Hw' & HF);
    [by eapply hwf_live_init|].
  destruct (move_contents (inv := hinv) w1 w' (concat F1 ++ cached Fs1) (U1 ++ U2) H c d (payload m' c))
    as [Hp HC']; [by apply hinv_intro|done|done|].
  exists w', F2, Fs1, (U1 ++ U2). split_and!; [|done|done|by rewrite Hp].
  unfold move_old2. rewrite (bind_ok _ _ _ _ _ (live_size _ _ _ _ d Hw ltac:(by right))).
  cbv zeta. fold k. erewrite bind_ok; [exact Hrun|]. unfold memcpy2. unfold hmem in Hcp. by rewrite Hcp.
Qed.

Lemma realloc2_sim w H self p size :
  heap_rep2 w H → valid_op2 H (Realloc p size) → simulates2 w H self (Realloc p size).
Proof.
  intros (K & U & (F0 & Fs & -> & Hw) & HC) ((Hsz & Hp) & Hpos). unfold max_request in Hsz.
  unfold simulates2. simpl. unfold realloc2.
  rewrite (bind_ok _ _ w tt w) by (apply assert_ok, Z.ltb_lt; lia).
  destruct (malloc2_ok w F0 Fs U self size Hw ltac:(lia)) as
    [(c & w2 & Hrun & F0' & Fs' & Hw2 & Hsc & HF)|[Hrun Ho]]; last first.
  { right. rewrite (bind_err _ _ _ _ Hrun). split; [done|by exists size]. }
  left. rewrite (bind_ok _ _ _ _ _ Hrun).
  destruct (alloc_contents (inv := hinv) w w2 _ _ U H c size (hinv_intro _ _ _ _ Hw) HC
    (hinv_intro _ _ _ _ Hw2) HF Hsc) as [HC2 Hfr].
  destruct (Z.eqb_spec p NULL) as [->|Hne]; simpl.
  - do 2 eexists. split; [reflexivity|]. rewrite (delete_null w _ U H (hinv_intro _ _ _ _ Hw) HC).
    rewrite (payload_at_ok _ (c :: U)) by (apply Hw2 || left).
    split; [by constructor|]. eexists _, (c :: U). split; [apply hinv_intro; by eapply hwf_same|done].
  - destruct Hp as [->|[old Hold]]; [done|]. pose proof Hold as (d & Hd & -> & Eold)%HC.
    destruct (move_old2_sim w2 F0' Fs' U c d H _ size Hw2 HC2 Hd ltac:(lia)) as
      (w' & F3 & Fs3 & U' & Hmv & Hw' & HC' & Htk).
    assert (payload (hmem w2) d = old) as Epd.
    { pose proof (contents_lookup _ _ _ d HC2 ltac:(by right)) as E.
      rewrite lookup_insert_ne, Hold in E; [by injection E|].
      intros Heq. destruct Hfr as (_ & Hnone & _). rewrite Heq in Hnone. congruence. }
    rewrite Epd in Htk. exists (node c). eexists.
    split; [erewrite bind_ok by exact Hmv; reflexivity|].
    change (hmem (put_hcalls _ _ _ _ w')) with (hmem w').
    rewrite (payload_at_ok _ (c :: U')) by (apply Hw' || left).
    split; [eapply SRealloc; [done| |done]|].
    + unfold fresh_block in *. rewrite payload_length in *. done.
    + eexists _, (c :: U'). split; [apply hinv_intro; by eapply hwf_same|done].
Qed.

Lemma exec2_sim w H self o :
  heap_rep2 w H → valid_op2 H o → simulates2 w H self o.
Proof.
  intros Hr [Hv Hv2]. destruct o as [size|p|p size|p i b|p i];
    [by apply malloc2_sim|by apply free2_sim|by apply realloc2_sim|..]; left.
  - destruct (store_contents (inv := hinv) w H p i b Hr Hv) as ([b0 Hb0] & Hs & Hr').
    exists 0. eexists. split; [|exact (conj Hs Hr')].
    simpl. unfold store_byte2. by erewrite bind_ok by (rewrite Hb0; reflexivity).
  - destruct (load_contents (inv := hinv) w H p i Hr Hv) as (b & Hb & Hs).
    exists b, w. split; [|done]. simpl. unfold load_byte2. by rewrite Hb.
Qed.
End simulation.

(** ** Properties *)

Section properties.
Context {os : OS} {Hos : SbrkLaws os}.

(** States reachable by clients that respect the preconditions; every call may
    come from another thread. *)
Inductive reachable2 : Heap → heap → Prop :=
| reach2_init : reachable2 Heap_init ∅
| reach2_step w H self o r w' :
    reachable2 w H → valid_op2 H o → exec2 self o w = Ok r w' →
    reachable2 w' (observe (hmem w') o r H).

Lemma cached_empty n : cached (replicate n (replicate 65 [])) = [].
Proof. induction n as [|n IH]; [done|]. exact IH. Qed.

Lemma hwf_init : hwf Heap_init (replicate 65 []) (replicate 17 (replicate 65 [])) [].
Proof.
  split; rewrite ?cached_empty; try done.
  - split; try done. apply fl_rep_empty.
  - apply Forall2_replicate. split_and!; [apply fl_rep_empty|done..].
  - by exists 0.
Qed.

Lemma reachable2_rep w H : reachable2 w H → heap_rep2 w H.
Proof.
  induction 1 as [|w H self o r w' _ IH Hv Hrun].
  - eexists _, []. split; [apply hinv_intro, hwf_init|]. intros p bs.
    rewrite lookup_empty. split; [done|]. by intros (? & ?%elem_of_nil & _).
  - destruct (exec2_sim w H self o IH Hv) as [(r' & w'' & Hrun' & _ & Hrep)|[Hrun' _]]; congruence.
Qed.

(** C2: refinement for the two layers.  In every reachable state and for every
    thread, a valid call returns and does what the abstract heap allows: blocks
    from caches and central heap never overlap, contents survive [realloc] and
    the calls of other threads.  The only fault is at address 7, when a call of [sbrk] for this
    object, with at most a page and 80 bytes on top, has failed. *)
Theorem client2_refines w H self o :
  reachable2 w H → valid_op2 H o →
  (∃ r w', exec2 self o w = Ok r w' ∧ spec_step H o r (observe (hmem w') o r H) ∧
           reachable2 w' (observe (hmem w') o r H)) ∨
  (exec2 self o w = Err (Segv 7) ∧ h_out_of_memory w o).
Proof.
  intros Hr Hv. destruct (exec2_sim w H self o (reachable2_rep w H Hr) Hv) as
    [(r & w' & Hrun & Hs & _)|?]; [left|by right].
  exists r, w'. split_and!; [done..|]. by eapply reach2_step.
Qed.

(** the checks of every thread cache pass in every reachable state once
    the heap is in use: flags, exact size classes, footers, back links and the
    order of the last class. *)
Theorem cache_checks_pass w H i :
  reachable2 w H → hp_initialized w ≠ 0 → 0 ≤ i < 17 →
  ∃ w', getThrCaches i tc_checkALL w = Ok tt w' ∧ hmem w' = hmem w.
Proof.
  intros (K & U & (F0 & Fs & -> & Hw) & _)%reachable2_rep Hinit Hi.
  pose proof (hw_length _ _ _ _ Hw) as Hlen.
  destruct (lookup_lt_is_Some_2 (hp_thr_caches w) (Z.to_nat i)) as [ca Hca]; [lia|].
  destruct (hwf_cache w F0 Fs U _ ca Hw Hinit Hca) as (F & HF & Hti).
  unfold getThrCaches. rewrite Hca, (tc_checkALL_ok _ _ _ _ Hti). by eexists.
Qed.

(** accounting.  The central heap size is what the central free lists,
    all caches and the live blocks hold, plus what initialising a cache has
    lost; no byte is counted twice. *)
Theorem heap2_accounts w H :
  reachable2 w H →
  ∃ central caches leaked, 0 ≤ central ∧ 0 ≤ caches ∧ 0 ≤ leaked ∧
    h_heapSize (hp_cent w) = wrap64 (central + caches + live_bytes H + leaked) ∧
    onCentral (onHFL sumFreeListSize) w = Ok (wrap64 central) w.
Proof.
  intros (K & U & (F0 & Fs & -> & Hw) & HC)%reachable2_rep.
  pose proof Hw as [Hc Hcs Hlen Hu Hm Ha (lk & Hlk & Hsz) Hi].
  exists (sizes (concat F0)), (sizes (cached Fs)), lk.
  assert (Hpos : ∀ L, Forall (cvalid (hmem w)) L → 0 ≤ sizes L).
  { intros L HL. apply zsum_nonneg, Forall_fmap. eapply Forall_impl; [exact HL|].
    intros c Hv%cvalid_size. simpl. lia. }
  rewrite (contents_live_bytes (hmem w) U H HC); [|apply (apart_part (concat F0 ++ cached Fs) _ _ Ha);
    solve_Permutation|apply Hu].
  split_and!; [apply Hpos, Hc|eapply Hpos, caches_valid, Hcs|done| |].
  - rewrite <-Hsz. symmetry. apply wrap64_small, Hc.
  - unfold onCentral, zoom. rewrite (onHFL_read _ _ (wrap64 (sizes (concat F0)))); [by destruct w|].
    eapply sumFreeListSize_ok, Hc.
Qed.

(** a block whose size is a multiple of the page size, as every block that
    comes straight from the central heap is, never goes back to it through
    [free]: the test on the usable size, which is 32 bytes less, always sends it
    to a thread cache. *)
Theorem free_keeps_pages_out w F0 Fs U self c :
  hwf w F0 Fs (c :: U) → csize c `mod` 4096 = 0 →
  ∃ w', free2 self (node c) w = Ok tt w' ∧
    h_freels (hp_cent w') = h_freels (hp_cent w).
Proof.
  intros Hw Hpage. pose proof (hwf_live_init _ _ _ _ _ Hw) as Hinit. unfold free2.
  destruct (Z.eqb_spec (node c) NULL) as [E|_].
  { pose proof (Forall_inv (proj1 (hw_used _ _ _ _ Hw))) as Hv%cvalid_node. unfold NULL in E. lia. }
  destruct (h_increaseFreeCalls w) as [[] w1|] eqn:E1; [|done]. rewrite (bind_ok _ _ _ _ _ E1).
  assert (Hw1 : hwf w1 F0 Fs (c :: U) ∧ hp_cent w1 = hp_cent w ∧ hp_initialized w1 ≠ 0)
    by (injection E1 as <-; split; [by eapply hwf_same|done]). destruct Hw1 as (Hw1 & Em & Hi1).
  rewrite (bind_ok _ _ _ _ _ (live_size _ _ _ _ c Hw1 ltac:(left))), <-Em.
  destruct (Z.eqb_spec ((csize c - 32) `mod` CENTHEAPALLOCTHRESHOLD) 0) as [E|_].
  { exfalso. unfold CENTHEAPALLOCTHRESHOLD in E. change (Z.shiftl 1 14) with 16384 in E.
    pose proof (Z.div_mod (csize c - 32) 16384). pose proof (Z.div_mod (csize c) 4096). lia. }
  destruct (cache_free_ok w1 F0 Fs U _ c Hw1 Hi1 (self_index self))
    as (w' & F0' & Fs' & ? & _ & _ & ?). by exists w'.
Qed.
End properties.

(** C32: against any central heap that keeps its laws, a block allocated from an
    initialised cache and freed again leaves the cache well formed, its other blocks and all
    other blocks of the process untouched, and the bytes held outside the cache
    and the central heap unchanged. *)
Theorem cache_alloc_free {os : OS} {C} {CH : CentralHeap C} {Laws : CentralLaws C CH}
    (t : TC C) K F L size ch t1 :
  tinv t K F L → c_initialized (tc_cache t) ≠ 0 → 0 < size < 2 ^ 33 →
  tc_allocateObject size t = Ok ch t1 →
  ∃ t2 K' F', tc_freeObject ch t1 = Ok tt t2 ∧ tinv t2 K' F' L ∧
    elsewhere t2 K' F' = elsewhere t K F ∧
    (∀ d, d ∈ L → agree (cent_mem (tc_cent t)) (cent_mem (tc_cent t2)) (addr d) (cend d)).
Proof.
  intros Hti Hinit Hs Hrun.
  destruct (tc_allocateObject_ok t K F L size Hti Hs) as
    (t0 & Hi & Et0 & _ & _ & [(c & t' & Hrun' & Hall)|[Hrun' _]]); [|congruence].
  unfold tc_ensure_initialized in Hi. unfold kept in Hall.
  destruct (Z.eqb_spec (c_initialized (tc_cache t)) 0); [done|]. injection Hi as <-.
  rewrite Hrun in Hrun'. injection Hrun' as -> ->.
  destruct Hall as (K' & F' & h' & Hti' & Hu & Htot & Hm8 & HF & Hels & _).
  destruct (tc_freeObject_ok t' K' F' L c Hti' Hu Hm8) as
    (t2 & h2 & Hfree & Hti2 & HF2 & _ & Esz & _ & Hperm).
  exists t2, K', (fl_insert (class_of 8 (csize c)) c F'). split_and!; [done|done| |].
  - unfold elsewhere in *. rewrite Esz, Hperm, sizes_cons. rewrite wrap64_add_l in Hels.
    apply wrap64_cong in Hels as [k Hk]. apply wrap64_cong. exists k. lia.
  - pose proof (ti_apart _ _ _ _ Hti) as Ha. pose proof (ti_apart _ _ _ _ Hti') as Ha'.
    intros d Hd. apply list_elem_of_split in Hd as (L1 & L2 & ->).
    assert (H1 : away [d] (concat F ++ K))
      by (apply (apart_away (L1 ++ L2) _ _ _ Ha); solve_Permutation).
    assert (H2 : away [d] (c :: concat F'))
      by (apply (apart_away (K' ++ L1 ++ L2) _ _ _ Ha'); solve_Permutation).
    apply Forall_inv in H1, H2. pose proof (Forall_inv H2) as H3.
    eapply agree_trans; eapply chunk_frame_agree; [exact HF| |exact HF2|exact H2].
    by constructor.
Qed.

(** ** Concrete runs *)

Definition valid_opb (H : heap) (o : op) : bool :=
  let live p := match H !! p with Some _ => true | None => false end in
  let len p := match H !! p with Some bs => length bs | None => O end in
  match o with
  | Malloc size => (0 <? size) && (size <? max_request)
  | Free p => (p =? NULL) || live p
  | Realloc p size => (0 <? size) && (size <? max_request) && ((p =? NULL) || live p)
  | Store p i b => (0 <=? b) && (b <? 256) && (i <? len p)%nat
  | Load p i => (i <? len p)%nat
  end.

Lemma valid_opb_ok H o : valid_opb H o = true → valid_op2 H o.
Proof.
  assert (Hlive : ∀ p, (p =? NULL) || (match H !! p with Some _ => true | None => false end) = true →
    p = NULL ∨ is_Some (H !! p)).
  { intros p [E%Z.eqb_eq|E]%orb_true_iff; [by left|right]. destruct (H !! p); [by eexists|done]. }
  assert (Hlen : ∀ p i, (i <? match H !! p with Some bs => length bs | None => O end)%nat = true →
    ∃ bs, H !! p = Some bs ∧ (i < length bs)%nat).
  { intros p i E%Nat.ltb_lt. destruct (H !! p) as [bs|]; [by exists bs|lia]. }
  unfold valid_op2. destruct o; simpl; rewrite ?andb_true_iff, ?Z.ltb_lt, ?Z.leb_le;
    intros E; split; try done; try (by apply Hlive); try (by apply Hlen).
  - destruct E as [[? ?] ?]. split; [lia|auto].
  - by destruct E as [[? ?] ?].
  - destruct E as [[? ?] ?]. split; [lia|auto].
Qed.

#[local] Existing Instance bump_os.

(** Runs the calls of a client with the abstract heap beside them. *)
Fixpoint play (l : list (Z * op)) (w : Heap) (H : heap) : option (Heap * heap) :=
  match l with
  | [] => Some (w, H)
  | (self, o) :: l' =>
    if valid_opb H o then
      match exec2 self o w with
      | Ok r w' => play l' w' (observe (hmem w') o r H)
      | Err _ => None
      end
    else None
  end.

Lemma play_reachable l w H w' H' :
  reachable2 w H → play l w H = Some (w', H') → reachable2 w' H'.
Proof.
  revert w H. induction l as [|[self o] l IH]; intros w H Hr; simpl; [by intros [= <- <-]|].
  destruct (valid_opb H o) eqn:Ev; [|done]. destruct (exec2 self o w) as [r w1|e] eqn:Er; [|done].
  apply IH. eapply reach2_step; [done|by apply valid_opb_ok|done].
Qed.

(** [play] from the start reaches a state with the property [P]. *)
Definition play_check (l : list (Z * op)) (P : Heap → heap → bool) : bool :=
  match play l Heap_init ∅ with Some (w, H) => P w H | None => false end.

Lemma play_check_reachable l P :
  play_check l P = true → ∃ w H, reachable2 w H ∧ P w H = true.
Proof.
  unfold play_check. destruct (play l Heap_init ∅) as [[w H]|] eqn:E; [|done].
  intros HP. exists w, H. split; [|done]. eapply play_reachable; [constructor|done].
Qed.

Definition aborts (w : Heap) : bool :=
  match atExitHandlerInC w with Err AssertFail => true | _ => false end.

Lemma aborts_true w : aborts w = true → atExitHandlerInC w = Err AssertFail.
Proof. unfold aborts. by destruct (atExitHandlerInC w) as [|[]]. Qed.

(** [realloc] of a small block ends in a failed assertion at exit.
    [realloc] frees the old block into the central heap whatever its size, and
    the exit handler asserts that central blocks are multiples of a page. *)
Theorem realloc_exit_abort :
  ∃ w H, reachable2 w H ∧ atExitHandlerInC w = Err AssertFail.
Proof.
  destruct (play_check_reachable
    [(0, Malloc 10); (0, Free 4112); (0, Malloc 10); (0, Realloc 4112 20)]
    (λ w _, aborts w)) as (w & H & Hr & Ha%aborts_true); [vm_compute; reflexivity|eauto].
Qed.

(** [malloc] and [free] alone can reach the same failure: a block of 16416
    bytes split off by the cache has a usable size of exactly 16384 bytes, so
    [free] sends it to the central heap although it is not a whole number of
    pages. *)
Theorem free_exit_abort :
  ∃ w H, reachable2 w H ∧ H !! 8176 = None ∧ atExitHandlerInC w = Err AssertFail.
Proof.
  destruct (play_check_reachable
    ([(0, Malloc 16384); (0, Free 4112)] ++ replicate 10 (0, Malloc 368) ++
     [(0, Malloc 32); (0, Malloc 16000); (0, Free 8176)])
    (λ w H, aborts w && match H !! 8176 with None => true | Some _ => false end))
    as (w & H & Hr & [Ha%aborts_true E]%andb_true_iff); [vm_compute; reflexivity|].
  exists w, H. split_and!; [done| |done]. by destruct (H !! 8176).
Qed.

(** a block freed by a thread whose cache is not initialised is lost when
    that thread allocates for the first time: 4096 bytes live, none free, but a
    heap of 8192 bytes. *)
Theorem uninitialised_cache_leaks :
  ∃ w H, reachable2 w H ∧ live_bytes H = 4096 ∧
    ∃ w', h_print w = Ok (8192, 0, false) w'.
Proof.
  destruct (play_check_reachable [(0, Malloc 10); (1, Free 4112); (1, Malloc 10)]
    (λ w H, match h_print w with
            | Ok (hs, fr, b) _ => (live_bytes H =? 4096) && (hs =? 8192) && (fr =? 0) && negb b
            | Err _ => false end)) as (w & H & Hr & E); [vm_compute; reflexivity|].
  exists w, H. split; [done|]. destruct (h_print w) as [[[hs fr] b] w'|]; [|done].
  rewrite !andb_true_iff, !Z.eqb_eq in E. destruct E as [[[El ->] ->] Eb].
  split; [done|]. exists w'. by destruct b.
Qed.

(** ** Witnesses *)

Definition ex_heap : Heap := final Heap_init (malloc2 0 10 Heap_init).
Definition ex_view : heap := observe (hmem ex_heap) (Malloc 10) 4112 ∅.

Lemma ex_heap_run : malloc2 0 10 Heap_init = Ok 4112 ex_heap.
Proof. apply returns_ok. vm_compute. reflexivity. Qed.

Lemma ex_heap_reachable : reachable2 ex_heap ex_view.
Proof.
  apply (reach2_step Heap_init ∅ 0 (Malloc 10) 4112); [constructor| |exact ex_heap_run].
  apply valid_opb_ok. vm_compute. reflexivity.
Qed.

Lemma ex_heap_hwf :
  ∃ F0 Fs, hwf ex_heap F0 Fs [mkChunk 4096 4096].
Proof.
  destruct (malloc2_ok Heap_init _ _ _ 0 10 hwf_init ltac:(lia)) as
    [(ch & w' & Hrun & F0 & Fs & Hw & _ & _)|[Hrun _]]; rewrite ex_heap_run in Hrun; [|done].
  apply Ok_inj in Hrun as [En <-]. symmetry in En. exists F0, Fs.
  pose proof (used_header _ _ ch (hw_used _ _ _ _ Hw) ltac:(left)) as Hsz. rewrite En in Hsz.
  assert (load 8 (4112 - sizeof_ObjHeader + off_objectSize) (h_mem (hp_cent ex_heap)) = Some 4096) as E
    by (vm_compute; reflexivity).
  rewrite E in Hsz. injection Hsz as Hsz. destruct ch as [a s]. simpl in Hsz. subst s.
  unfold node, sizeof_ObjHeader in En. simpl in En. by assert (a = 4096) as -> by lia.
Qed.

Definition returned {A} (r : res Heap A) : bool := match r with Ok _ _ => true | Err _ => false end.

Lemma client2_refines_witness :
  ∃ r w', exec2 5 (Realloc 4112 9000) ex_heap = Ok r w' ∧
    spec_step ex_view (Realloc 4112 9000) r (observe (hmem w') (Realloc 4112 9000) r ex_view).
Proof.
  destruct (client2_refines ex_heap ex_view 5 (Realloc 4112 9000) ex_heap_reachable)
    as [(r & w' & Hrun & Hs & _)|[Hrun _]].
  - apply valid_opb_ok. vm_compute. reflexivity.
  - exists r, w'. exact (conj Hrun Hs).
  - assert (returned (exec2 5 (Realloc 4112 9000) ex_heap) = true) as E by (vm_compute; reflexivity).
    rewrite Hrun in E. discriminate E.
Defined.

Lemma cache_checks_pass_witness :
  ∃ w', getThrCaches 0 tc_checkALL ex_heap = Ok tt w' ∧ hmem w' = hmem ex_heap.
Proof.
  apply (cache_checks_pass ex_heap ex_view 0 ex_heap_reachable); [vm_compute; discriminate|lia].
Defined.

Lemma heap2_accounts_witness :
  ∃ central caches leaked, 0 ≤ central ∧ 0 ≤ caches ∧ 0 ≤ leaked ∧
    h_heapSize (hp_cent ex_heap) = wrap64 (central + caches + live_bytes ex_view + leaked) ∧
    onCentral (onHFL sumFreeListSize) ex_heap = Ok (wrap64 central) ex_heap.
Proof. exact (heap2_accounts ex_heap ex_view ex_heap_reachable). Defined.

Lemma free_keeps_pages_out_witness :
  ∃ w', free2 3 4112 ex_heap = Ok tt w' ∧ h_freels (hp_cent w') = h_freels (hp_cent ex_heap).
Proof.
  destruct ex_heap_hwf as (F0 & Fs & Hw).
  exact (free_keeps_pages_out ex_heap F0 Fs [] 3 (mkChunk 4096 4096) Hw eq_refl).
Defined.

Lemma cache_alloc_free_witness :
  ∃ t ch t1 t2, tc_allocateObject 100 t = Ok ch t1 ∧ tc_freeObject ch t1 = Ok tt t2.
Proof.
  destruct ex_heap_hwf as (F0 & Fs & Hw).
  assert (Hi : hp_initialized ex_heap ≠ 0) by (vm_compute; discriminate).
  assert (Hok : match hp_thr_caches ex_heap !! 0%nat with
                | Some ca => match tc_allocateObject 100 (mkTC ca (hp_cent ex_heap)) with
                             | Ok _ _ => negb (c_initialized ca =? 0) | Err _ => false end
                | None => false end = true) by (vm_compute; reflexivity).
  destruct (hp_thr_caches ex_heap !! 0%nat) as [ca|] eqn:Hca; [|discriminate Hok].
  destruct (hwf_cache ex_heap F0 Fs _ 0 ca Hw Hi Hca) as (F & _ & Hti).
  destruct (tc_allocateObject 100 (mkTC ca (hp_cent ex_heap))) as [ch t1|] eqn:Er; [|discriminate].
  destruct (cache_alloc_free (mkTC ca (hp_cent ex_heap)) _ F _ 100 ch t1 Hti) as (t2 & _ & _ & Hf & _).
  - intros E. simpl in E. rewrite E in Hok. discriminate.
  - lia.
  - exact Er.
  - exists (mkTC ca (hp_cent ex_heap)), ch, t1, t2. exact (conj Er Hf).
Defined.
