(* ===== verification/Buffer.v ===== *)
(** * The chunked stream buffer ([buffer.hpp], [buffer.cpp])

    A [Buffer] is a deque of chunks of 4096 bytes with a write position in the
    last chunk and a read position.  The file models all its methods and the
    iterator, then relates a buffer to the list of its unread bytes: writing
    appends, consuming drops, the iterator enumerates.  Chunk cells start
    indeterminate ([None]); reading one is a fault. *)

From S2P Require Import Prelude.
From stdpp Require Import base numbers list gmap sorting strings.
Open Scope Z_scope.

Definition BlockSize : Z := 4096.

Record Position : Type := mkPos { idx : nat; off : Z }.

Record Buffer : Type := mkBuf {
  chunks_ : list (list (option Z));
  sizes_ : list Z;
  wpos_ : Position;
  rpos_ : Position;
}.

(** [Position::operator==] *)
Definition pos_eqb (p q : Position) : bool := (idx p =? idx q)%nat && (off p =? off q).

(** [new char[BlockSize]]: indeterminate contents. *)
Definition new_chunk : list (option Z) := replicate (Z.to_nat BlockSize) None.

Definition put_wpos (p : Position) (b : Buffer) : Buffer := mkBuf (chunks_ b) (sizes_ b) p (rpos_ b).
Definition put_rpos (p : Position) (b : Buffer) : Buffer := mkBuf (chunks_ b) (sizes_ b) (wpos_ b) p.

(** ** Elements of a deque *)

Definition size_at (i : nat) : M Buffer Z := λ b,
  match sizes_ b !! i with Some s => Ok s b | None => Err (OutOfBounds (Z.of_nat i)) end.

(** [sizes_[i] += n] *)
Definition add_size (i : nat) (n : Z) : M Buffer unit := λ b,
  match sizes_ b !! i with
  | Some s => Ok tt (mkBuf (chunks_ b) (<[i := wrap64 (s + n)]> (sizes_ b)) (wpos_ b) (rpos_ b))
  | None => Err (OutOfBounds (Z.of_nat i))
  end.

(** The bytes [data] stored at [chunks_[p.idx] + p.off]. *)
Definition store_at (p : Position) (data : list Z) : M Buffer unit := λ b,
  match chunks_ b !! idx p with
  | Some c =>
    if off p + Z.of_nat (length data) <=? BlockSize then
      Ok tt (mkBuf (<[idx p := take (Z.to_nat (off p)) c ++ (Some <$> data) ++
                               drop (Z.to_nat (off p) + length data) c]> (chunks_ b))
               (sizes_ b) (wpos_ b) (rpos_ b))
    else Err (OutOfBounds (off p))
  | None => Err (OutOfBounds (Z.of_nat (idx p)))
  end.

(** ** Chunk manipulation *)

Definition addChunk : M Buffer Position := λ b,
  let chunks' := chunks_ b ++ [new_chunk] in
  Ok (mkPos (length chunks' - 1) 0) (mkBuf chunks' (sizes_ b ++ [0]) (wpos_ b) (rpos_ b)).

Definition dropChunks (n : nat) : M Buffer unit := λ b,
  if (n =? 0)%nat then Ok tt b else
  Ok tt (mkBuf (drop n (chunks_ b)) (drop n (sizes_ b))
           (mkPos (idx (wpos_ b) - n) (off (wpos_ b))) (mkPos (idx (rpos_ b) - n) (off (rpos_ b)))).

(** The removed chunk, if any; the write position is left as it was. *)
Definition maybeRemoveLastChunk : M Buffer (option (list (option Z))) := λ b,
  match sizes_ b !! idx (wpos_ b), chunks_ b !! idx (wpos_ b) with
  | Some s, Some c =>
    if s =? 0 then
      Ok (Some c) (mkBuf (take (length (chunks_ b) - 1) (chunks_ b))
                     (take (length (sizes_ b) - 1) (sizes_ b)) (wpos_ b) (rpos_ b))
    else Ok None b
  | _, _ => Err (OutOfBounds (Z.of_nat (idx (wpos_ b))))
  end.

Definition isConsumed (b : Buffer) : bool :=
  negb (idx (rpos_ b) =? 0)%nat || negb (off (rpos_ b) =? 0).

(** [Buffer::Buffer()] *)
Definition Buffer_init : Buffer := mkBuf [new_chunk] [0] (mkPos 0 0) (mkPos 0 0).

(** ** Sizes *)

Definition writeSize (b : Buffer) : Z := wrap64 (BlockSize - off (wpos_ b)).

Definition readSize : M Buffer Z := λ b,
  (s ← size_at (idx (rpos_ b)); mret (wrap64 (s - off (rpos_ b)))) b.

Definition byteCount : M Buffer Z :=
  rs ← readSize;
  szs ← gets sizes_;
  mret (wrap64 (rs + zsum (drop 1 szs))).

(** ** Writing *)

Definition reserve (bytes : Z) : M Buffer bool := λ b,
  if BlockSize <? bytes then Ok false b else
  if bytes <=? writeSize b then Ok true b else
  let should_advance := pos_eqb (rpos_ b) (wpos_ b) in
  (p ← addChunk;
   modify (put_wpos p);;
   (if should_advance then modify (put_rpos p);; dropChunks 1 else mret tt);;
   mret true) b.

Definition advance (bytes : Z) : M Buffer bool := λ b,
  if bytes <=? 0 then Ok false b else
  if bytes <=? writeSize b then
    (modify (put_wpos (mkPos (idx (wpos_ b)) (off (wpos_ b) + bytes)));;
     add_size (idx (wpos_ b)) bytes;;
     mret true) b
  else Ok false b.

(** One round of the loop of [write] on the [bytes_left] bytes of [src]. *)
Fixpoint write_loop (fuel : nat) (src : list Z) : M Buffer unit :=
  match fuel with
  | O => fail OutOfFuel
  | S fuel' =>
    match src with
    | [] => mret tt
    | _ :: _ =>
      ws ← gets writeSize;
      p ← gets wpos_;
      let n := Nat.min (Z.to_nat ws) (length src) in
      store_at p (take n src);;
      add_size (idx p) (Z.of_nat n);;
      let p' := mkPos (idx p) (off p + Z.of_nat n) in
      modify (put_wpos p');;
      let src' := drop n src in
      (if (0 <? length src')%nat || (off p' =? BlockSize)
       then q ← addChunk; modify (put_wpos q) else mret tt);;
      write_loop fuel' src'
    end
  end.

(** A round may only add a chunk, so two rounds per byte are enough. *)
Definition write (data : list Z) : M Buffer unit := write_loop (2 * length data + 2) data.

(** ** Reading *)

(** The loop of [consume] over the chunks before the last one; result: bytes
    still to consume and chunks to drop. *)
Fixpoint consume_loop (fuel : nat) (n : Z) (to_drop : nat) : M Buffer (Z * nat) :=
  match fuel with
  | O => fail OutOfFuel
  | S fuel' =>
    b ← get;
    if (0 <? n) && (idx (rpos_ b) <? idx (wpos_ b))%nat then
      rs ← readSize;
      let k := Z.min n rs in
      modify (put_rpos (mkPos (idx (rpos_ b)) (off (rpos_ b) + k)));;
      rs' ← readSize;
      if rs' =? 0 then
        modify (put_rpos (mkPos (S (idx (rpos_ b))) 0));;
        consume_loop fuel' (n - k) (S to_drop)
      else consume_loop fuel' (n - k) to_drop
    else mret (n, to_drop)
  end.

Definition consume (bytes : Z) : M Buffer unit := λ b,
  ('(n, to_drop) ← consume_loop (2 * length (chunks_ b) + 2) bytes 0;
   (if 0 <? n then
      rs ← readSize;
      r ← gets rpos_;
      modify (put_rpos (mkPos (idx r) (off r + Z.min n rs)))
    else mret tt);;
   dropChunks to_drop) b.

(** ** Two buffers *)

(** [this->appendFrom(other)]. *)
Definition appendFrom (this other : Buffer) : res Buffer Buffer :=
  if isConsumed other then Err Fatal else
  match readSize other with
  | Err e => Err e
  | Ok rs _ =>
    if rs =? 0 then Ok this other else
    match maybeRemoveLastChunk this, maybeRemoveLastChunk other with
    | Ok last_chunk this1, Ok other_last_chunk other1 =>
      let chunks1 := chunks_ this1 ++ chunks_ other1 in
      let sizes1 := sizes_ this1 ++ sizes_ other1 in
      let '(chunks2, sizes2) :=
        if default 0 (last sizes1) =? BlockSize then
          match last_chunk with
          | None => (chunks1 ++ [new_chunk], sizes1 ++ [0])
          | Some c => (chunks1 ++ [c], sizes1 ++ [0])
          end
        else (chunks1, sizes1) in
      let this2 := mkBuf chunks2 sizes2 (wpos_ this1) (rpos_ this1) in
      match readSize this2 with
      | Err e => Err e
      | Ok rs2 _ =>
        let r := if rs2 =? 0 then mkPos (idx (rpos_ this2) + 1) 0 else rpos_ this2 in
        let this3 := mkBuf chunks2 sizes2 (mkPos (length chunks2 - 1) (default 0 (last sizes2))) r in
        let other2 :=
          match other_last_chunk with
          | None => mkBuf [new_chunk] [0] (mkPos 0 0) (mkPos 0 0)
          | Some c => mkBuf [c] [0] (wpos_ other1) (wpos_ other1)
          end in
        Ok this3 other2
      end
    | Err e, _ => Err e
    | _, Err e => Err e
    end
  end.

(** The loop of [copyFrom] over the chunks of [other] from [i] on. *)
Fixpoint copy_loop (i : nat) (cs : list (list (option Z) * Z)) : M Buffer unit :=
  match cs with
  | [] => mret tt
  | (c, len) :: cs' =>
    ws ← gets writeSize;
    (if negb (i =? 0)%nat || (ws <? len) then q ← addChunk; modify (put_wpos q) else mret tt);;
    p ← gets wpos_;
    b ← get;
    (match chunks_ b !! idx p with
     | Some d =>
       if off p + len <=? BlockSize then
         modify (λ b, mkBuf (<[idx p := take (Z.to_nat (off p)) d ++ take (Z.to_nat len) c ++
                                 drop (Z.to_nat (off p + len)) d]> (chunks_ b))
                        (sizes_ b) (wpos_ b) (rpos_ b))
       else fail (OutOfBounds (off p))
     | None => fail (OutOfBounds (Z.of_nat (idx p)))
     end);;
    add_size (idx p) len;;
    modify (put_wpos (mkPos (idx p) (off p + len)));;
    copy_loop (S i) cs'
  end.

Definition copyFrom (this other : Buffer) : res Buffer unit :=
  if isConsumed other then Err Fatal else
  match readSize other with
  | Err e => Err e
  | Ok rs _ =>
    if rs =? 0 then Ok tt this else
    (copy_loop 0 (zip (chunks_ other) (sizes_ other));;
     p ← gets wpos_;
     if off p =? BlockSize then q ← addChunk; modify (put_wpos q) else mret tt) this
  end.

(** ** Iterator *)

Record Iterator : Type := mkIter {
  pos_ : Position;
  bytes_read_ : Z;
  bytes_total_ : Z;
  budget_ : Z;
  chunk_start_ : nat;   (* the chunk it points into *)
}.

Definition getBudget (p : Position) : M Buffer Z :=
  s ← size_at (idx p); mret (wrap64 (s - off p)).

Definition begin_ : M Buffer Iterator :=
  r ← gets rpos_;
  total ← byteCount;
  budget ← getBudget r;
  mret (mkIter r 0 total budget (idx r)).

(** [end()] only sets the position; budget and chunk are those of [begin()]. *)
Definition end_ : M Buffer Iterator :=
  it ← begin_;
  w ← gets wpos_;
  mret (mkIter w (bytes_read_ it) (bytes_total_ it) (budget_ it) (chunk_start_ it)).

Definition iter_eqb (i j : Iterator) : bool := pos_eqb (pos_ i) (pos_ j).

Definition eob (b : Buffer) (it : Iterator) : bool :=
  if negb (budget_ it =? 0) then false else pos_eqb (pos_ it) (wpos_ b).

Definition slowNext (it : Iterator) : M Buffer Iterator :=
  s ← size_at (idx (pos_ it));
  if off (pos_ it) <? s then
    let p := mkPos (idx (pos_ it)) (off (pos_ it) + 1) in
    w ← gets wpos_;
    let '(p', start) :=
      if (off p =? s) && (idx p <? idx w)%nat then (mkPos (S (idx p)) 0, S (idx p))
      else (p, chunk_start_ it) in
    budget ← getBudget p';
    mret (mkIter p' (bytes_read_ it + 1) (bytes_total_ it) budget start)
  else mret it.

Definition next (it : Iterator) : M Buffer Iterator :=
  if 1 <? budget_ it then
    mret (mkIter (mkPos (idx (pos_ it)) (off (pos_ it) + 1)) (bytes_read_ it + 1)
            (bytes_total_ it) (budget_ it - 1) (chunk_start_ it))
  else slowNext it.

Definition getChar (it : Iterator) : M Buffer Z := λ b,
  match chunks_ b !! chunk_start_ it with
  | None => Err (OutOfBounds (Z.of_nat (chunk_start_ it)))
  | Some c =>
    match c !! Z.to_nat (off (pos_ it)) with
    | None => Err (OutOfBounds (off (pos_ it)))
    | Some None => Err Uninit
    | Some (Some v) => Ok v b
    end
  end.
