(* ===== verification/BufferSpec.v ===== *)
(** * Correctness of the chunked buffer

    [holds b l] says that the buffer [b] is well formed and that [l] are its
    unread bytes.  Every operation is specified by what it does to [l]. *)

From S2P Require Import Prelude Buffer.
From stdpp Require Import base numbers list gmap sorting strings.
Open Scope Z_scope.

(** ** Representation *)

(** The chunk [c] starts with the bytes [d]. *)
Definition crep (c : list (option Z)) (d : list Z) : Prop :=
  length c = Z.to_nat BlockSize ∧ (length d ≤ Z.to_nat BlockSize)%nat ∧
  take (length d) c = Some <$> d.

(** The unread bytes when [ds] are the bytes of all chunks and [p] is the read
    position. *)
Definition content (ds : list (list Z)) (p : Position) : list Z :=
  drop (Z.to_nat (off p)) (concat (drop (idx p) ds)).

(** [ini]: bytes of the chunks before the last; [lst]: of the last chunk. *)
Record brep (b : Buffer) (ini : list (list Z)) (lst : list Z) : Prop := {
  br_chunks : Forall2 crep (chunks_ b) (ini ++ [lst]);
  br_sizes : sizes_ b = (λ d : list Z, Z.of_nat (length d)) <$> (ini ++ [lst]);
  br_wpos : wpos_ b = mkPos (length ini) (Z.of_nat (length lst));
  br_inner : Forall (λ d, d ≠ []) ini;
  br_rpos : ∃ d, (ini ++ [lst]) !! idx (rpos_ b) = Some d ∧
    0 ≤ off (rpos_ b) ≤ Z.of_nat (length d);
}.

Definition holds (b : Buffer) (l : list Z) : Prop :=
  ∃ ini lst, brep b ini lst ∧ l = content (ini ++ [lst]) (rpos_ b).

(** The chunks and their sizes determine the bytes. *)
Lemma crep_fun cs ds ds' : Forall2 crep cs ds → Forall2 crep cs ds' → (length <$> ds) = (length <$> ds') → ds = ds'.
Proof.
  intros H. revert ds'. induction H as [|c d cs ds (_ & _ & Ht) _ IH]; intros ds' H' E; inversion H' as [|? d' ? ds1 (_ & _ & Ht') Hr]; subst; [done|].
  injection E as El Er. f_equal; [|by apply IH]. rewrite El, Ht' in Ht. apply (list_fmap_eq_inj Some) in Ht; [done|]. by intros ?? [= ->].
Qed.

Lemma brep_fun b ini lst ini' lst' : brep b ini lst → brep b ini' lst' → ini = ini' ∧ lst = lst'.
Proof.
  intros H H'. apply app_inj_tail, (crep_fun (chunks_ b)); [apply H|apply H'|].
  pose proof (br_sizes _ _ _ H) as E. rewrite (br_sizes _ _ _ H') in E. clear -E.
  change (Z.of_nat ∘ length <$> ini' ++ [lst'] = Z.of_nat ∘ length <$> ini ++ [lst]) in E.
  rewrite !list_fmap_compose in E. apply (list_fmap_eq_inj Z.of_nat) in E; [done|]. intros x y Exy. lia.
Qed.

Lemma holds_fun b l l' : holds b l → holds b l' → l = l'.
Proof. intros (i1 & t1 & H1 & ->) (i2 & t2 & H2 & ->). by destruct (brep_fun _ _ _ _ _ H1 H2) as [-> ->]. Qed.

Lemma crep_new : crep new_chunk [].
Proof. unfold crep, new_chunk. rewrite length_replicate. split_and!; [done|apply Nat.le_0_l|done]. Qed.

Lemma holds_init : holds Buffer_init [].
Proof.
  exists [], []. split; [|done]. split; simpl; try done.
  - constructor; [apply crep_new|constructor].
  - by exists [].
Qed.

Lemma last_le (c : list (option Z)) d : crep c d → (length d ≤ 4096)%nat.
Proof. intros (_ & H & _). exact H. Qed.

Section facts.
Context {b : Buffer} {ini : list (list Z)} {lst : list Z} (Hb : brep b ini lst).

Lemma chunk_count : length (chunks_ b) = S (length ini).
Proof. rewrite (Forall2_length _ _ _ (br_chunks _ _ _ Hb)), length_app. simpl. lia. Qed.

Lemma size_lookup i d : (ini ++ [lst]) !! i = Some d → sizes_ b !! i = Some (Z.of_nat (length d)).
Proof. intros Hd. by rewrite (br_sizes _ _ _ Hb), list_lookup_fmap, Hd. Qed.

Lemma chunk_le d : d ∈ ini ++ [lst] → (length d ≤ 4096)%nat.
Proof.
  intros [i Hi]%list_elem_of_lookup.
  destruct (Forall2_lookup_r _ _ _ _ _ (br_chunks _ _ _ Hb) Hi) as (c & _ & Hc).
  by eapply last_le.
Qed.

Lemma lst_le : (length lst ≤ 4096)%nat.
Proof. apply chunk_le. apply elem_of_app. right. left. Qed.

Lemma writeSize_eq : writeSize b = 4096 - Z.of_nat (length lst).
Proof.
  unfold writeSize, BlockSize. rewrite (br_wpos _ _ _ Hb). simpl.
  pose proof lst_le. apply wrap64_small. lia.
Qed.

Lemma rpos_idx_le : (idx (rpos_ b) ≤ length ini)%nat.
Proof.
  destruct (br_rpos _ _ _ Hb) as (d & Hd & _). apply lookup_lt_Some in Hd.
  rewrite length_app in Hd. simpl in Hd. lia.
Qed.

(** The content starts with what is left of the chunk being read. *)
Lemma content_head d :
  (ini ++ [lst]) !! idx (rpos_ b) = Some d → 
  content (ini ++ [lst]) (rpos_ b) =
    drop (Z.to_nat (off (rpos_ b))) d ++ concat (drop (S (idx (rpos_ b))) (ini ++ [lst])).
Proof.
  intros Hd. unfold content. rewrite (drop_S _ _ _ Hd). simpl.
  destruct (br_rpos _ _ _ Hb) as (d' & Hd' & Ho). rewrite Hd in Hd'. injection Hd' as <-.
  rewrite drop_app_le by lia. done.
Qed.

Lemma readSize_eq :
  ∃ d, (ini ++ [lst]) !! idx (rpos_ b) = Some d ∧
    0 ≤ off (rpos_ b) ≤ Z.of_nat (length d) ∧
    readSize b = Ok (Z.of_nat (length d) - off (rpos_ b)) b.
Proof.
  destruct (br_rpos _ _ _ Hb) as (d & Hd & Ho). exists d. split_and!; [done|lia|lia|].
  unfold readSize, size_at. unfold mbind, M_bind. rewrite (size_lookup _ _ Hd).
  unfold mret, M_ret. f_equal. apply wrap64_small.
  assert (length d ≤ 4096)%nat; [|lia]. apply chunk_le, list_elem_of_lookup. eauto.
Qed.
End facts.

(** More bytes in the last chunk are more bytes at the end of the content. *)
Lemma content_snoc b ini lst data :
  brep b ini lst →
  content (ini ++ [lst ++ data]) (rpos_ b) = content (ini ++ [lst]) (rpos_ b) ++ data.
Proof.
  intros Hb. unfold content. pose proof (rpos_idx_le Hb) as Hi.
  assert (E : concat (drop (idx (rpos_ b)) (ini ++ [lst ++ data])) =
              concat (drop (idx (rpos_ b)) (ini ++ [lst])) ++ data).
  { rewrite !drop_app_le by lia. rewrite !concat_app. simpl. by rewrite !app_nil_r, app_assoc. }
  rewrite E. apply drop_app_le.
  destruct (br_rpos _ _ _ Hb) as (d & Hd & Ho). rewrite (drop_S _ _ _ Hd). simpl.
  rewrite length_app. lia.
Qed.

(** ** Writing *)

(** A new chunk behind a last chunk that is not empty. *)
Lemma addChunk_spec b ini lst :
  brep b ini lst → lst ≠ [] →
  ∃ p b1, addChunk b = Ok p b1 ∧ brep (put_wpos p b1) (ini ++ [lst]) [] ∧
    p = mkPos (S (length ini)) 0 ∧ rpos_ b1 = rpos_ b.
Proof.
  intros Hb Hne. pose proof (chunk_count Hb) as Hc. unfold addChunk. do 2 eexists.
  split; [reflexivity|]. rewrite length_app, Hc. simpl length.
  replace (S (length ini) + 1 - 1)%nat with (S (length ini)) by lia.
  split; [|done]. destruct Hb as [H1 H2 H3 H4 (d & Hd & Ho)]. split; simpl.
  - apply Forall2_app; [done|]. constructor; [apply crep_new|constructor].
  - by rewrite H2, (fmap_app _ (ini ++ [lst])).
  - rewrite length_app. simpl. f_equal. lia.
  - apply Forall_app. split; [done|by constructor].
  - exists d. split; [|done]. by apply lookup_app_l_Some.
Qed.

Lemma content_new ini p : content ((ini ++ [[]]) : list (list Z)) p = content ini p.
Proof.
  unfold content. destruct (decide (idx p ≤ length ini)%nat).
  - rewrite drop_app_le by done. rewrite concat_app. simpl. by rewrite app_nil_r.
  - rewrite !(drop_ge _ (idx p)) by (rewrite ?length_app; simpl; lia). done.
Qed.

(** [data] copied to the write position. *)
Lemma crep_store c d data :
  crep c d → (length d + length data ≤ 4096)%nat →
  crep (take (length d) c ++ (Some <$> data) ++ drop (length d + length data) c) (d ++ data).
Proof.
  intros (Hl & Hd & Ht) Hlen. unfold crep in *.
  rewrite !length_app, length_fmap, length_drop, length_take, Hl, Ht.
  change (Z.to_nat BlockSize) with (Z.to_nat 4096) in *. split_and!; [lia|lia|].
  rewrite fmap_app, app_assoc. rewrite take_app_le by (rewrite length_app, !length_fmap; lia).
  apply take_ge. rewrite length_app, !length_fmap. lia.
Qed.

Lemma brep_extend b ini lst data c' :
  brep b ini lst → crep c' (lst ++ data) →
  brep (mkBuf (<[length ini := c']> (chunks_ b))
         (<[length ini := Z.of_nat (length lst) + Z.of_nat (length data)]> (sizes_ b))
         (mkPos (length ini) (Z.of_nat (length lst) + Z.of_nat (length data))) (rpos_ b))
    ini (lst ++ data).
Proof.
  intros [H1 H2 H3 H4 (d & Hd & Ho)] Hc. split; simpl; try done.
  - apply Forall2_app_inv_r in H1 as (cs & cl & H1 & H1' & ->).
    rewrite <-(Forall2_length _ _ _ H1). inversion H1' as [|x ? ? ? Hx Hn]; subst.
    inversion Hn; subst. rewrite insert_app_r_alt, Nat.sub_diag by lia. simpl.
    apply Forall2_app; [done|]. by constructor.
  - rewrite H2, !fmap_app. rewrite insert_app_r_alt by (rewrite length_fmap; lia).
    rewrite length_fmap, Nat.sub_diag. simpl. rewrite length_app. do 2 f_equal. lia.
  - by rewrite length_app, Nat2Z.inj_add.
  - destruct (decide (idx (rpos_ b) = length ini)) as [E|E].
    + rewrite E in *. rewrite lookup_app_r, Nat.sub_diag in Hd by lia. injection Hd as <-.
      exists (lst ++ data). rewrite lookup_app_r, Nat.sub_diag by lia. split; [done|].
      rewrite length_app. lia.
    + exists d. split; [|done]. apply lookup_lt_Some in Hd as Hlt. rewrite length_app in Hlt.
      simpl in Hlt. rewrite lookup_app_l in Hd |- * by lia. done.
Qed.

Lemma chunk_last b ini lst :
  brep b ini lst → ∃ c, chunks_ b !! length ini = Some c ∧ crep c lst.
Proof.
  intros Hb. apply (Forall2_lookup_r _ _ _ _ _ (br_chunks _ _ _ Hb)).
  by rewrite lookup_app_r, Nat.sub_diag by lia.
Qed.

Lemma lst_lookup (ini : list (list Z)) lst : (ini ++ [lst]) !! length ini = Some lst.
Proof. by rewrite lookup_app_r, Nat.sub_diag by lia. Qed.

(** Every chunk of [ds] is in [ds'], with more bytes at its end. *)
Definition grows (ds ds' : list (list Z)) : Prop :=
  ∀ i d, ds !! i = Some d → ∃ e, ds' !! i = Some (d ++ e).

Lemma grows_refl ds : grows ds ds.
Proof. intros i d Hd. exists []. by rewrite app_nil_r. Qed.

Lemma grows_trans ds1 ds2 ds3 : grows ds1 ds2 → grows ds2 ds3 → grows ds1 ds3.
Proof.
  intros H1 H2 i d Hd. destruct (H1 i d Hd) as [e He]. destruct (H2 i _ He) as [e' He'].
  exists (e ++ e'). by rewrite (assoc_L (++)).
Qed.

Lemma grows_new ds x : grows ds (ds ++ [x]).
Proof. intros i d Hd. exists []. rewrite app_nil_r. by apply lookup_app_l_Some. Qed.

Lemma grows_last ini lst data : grows (ini ++ [lst]) (ini ++ [lst ++ data]).
Proof.
  intros i d Hd. apply lookup_app_Some in Hd as [Hd|[Hi Hd]].
  - exists []. rewrite app_nil_r. by apply lookup_app_l_Some.
  - exists data. rewrite lookup_app_r by done. apply list_lookup_singleton_Some in Hd as [-> <-]. done.
Qed.

(** One round of [write]: store, count, move the write position. *)
Lemma write_round b ini lst data :
  brep b ini lst → (length lst + length data ≤ 4096)%nat →
  ∃ b', (store_at (wpos_ b) data;; add_size (length ini) (Z.of_nat (length data));;
         modify (put_wpos (mkPos (length ini) (Z.of_nat (length lst) + Z.of_nat (length data))))) b
        = Ok tt b' ∧
    brep b' ini (lst ++ data) ∧ rpos_ b' = rpos_ b ∧
    wpos_ b' = mkPos (length ini) (Z.of_nat (length lst) + Z.of_nat (length data)).
Proof.
  intros Hb Hlen. destruct (chunk_last _ _ _ Hb) as (c & Hc & Hcr).
  pose proof (br_wpos _ _ _ Hb) as Hw. eexists. split.
  - unfold store_at, mbind, M_bind. rewrite Hw. simpl. rewrite Hc. unfold BlockSize.
    destruct (Z.leb_spec (Z.of_nat (length lst) + Z.of_nat (length data)) 4096); [|lia].
    unfold add_size. simpl. rewrite (size_lookup Hb _ _ (lst_lookup ini lst)).
    unfold modify, put_wpos. simpl. rewrite Nat2Z.id. rewrite wrap64_small by lia. reflexivity.
  - split; [|done]. simpl. apply brep_extend; [done|]. by apply crep_store.
Qed.

(** The end of a round: a new chunk if data is left or the chunk is full. *)
Lemma write_next b ini lst more :
  brep b ini lst → lst ≠ [] ∨ more = false → (more = false → (length lst < 4096)%nat ∨ lst ≠ []) →
  ∃ b' ini' lst',
    (if more || (Z.of_nat (length lst) =? BlockSize)
     then q ← addChunk; modify (put_wpos q) else mret tt) b = Ok tt b' ∧
    brep b' ini' lst' ∧ rpos_ b' = rpos_ b ∧
    content (ini' ++ [lst']) (rpos_ b') = content (ini ++ [lst]) (rpos_ b) ∧
    (length lst' < 4096)%nat ∧ grows (ini ++ [lst]) (ini' ++ [lst']).
Proof.
  intros Hb Hne Hroom. pose proof (lst_le Hb) as Hle.
  destruct (more || (Z.of_nat (length lst) =? BlockSize)) eqn:E.
  - assert (lst ≠ []) as Hl.
    { destruct Hne as [?|Em]; [done|]. rewrite Em in E. apply Z.eqb_eq in E.
      unfold BlockSize in E. by destruct lst. }
    destruct (addChunk_spec b ini lst Hb Hl) as (p & b1 & Hadd & Hb1 & -> & Hr).
    rewrite (bind_ok _ _ _ _ _ Hadd). eexists _, _, _. split; [reflexivity|].
    split; [exact Hb1|]. simpl. split; [done|]. rewrite content_new, Hr. split; [done|]. split; [lia|apply grows_new].
  - apply orb_false_iff in E as [Em E]. apply Z.eqb_neq in E. unfold BlockSize in E.
    eexists b, ini, lst. split_and!; [done..|lia|apply grows_refl].
Qed.

Lemma write_loop_spec fuel src b ini lst :
  brep b ini lst →
  (2 * length src + 2 ≤ fuel ∨ (2 * length src + 1 ≤ fuel ∧ length lst < 4096))%nat →
  ∃ b' ini' lst', write_loop fuel src b = Ok tt b' ∧ brep b' ini' lst' ∧
    rpos_ b' = rpos_ b ∧
    content (ini' ++ [lst']) (rpos_ b') = content (ini ++ [lst]) (rpos_ b) ++ src ∧
    (src ≠ [] ∨ (length lst < 4096)%nat → (length lst' < 4096)%nat) ∧
    grows (ini ++ [lst]) (ini' ++ [lst']).
Proof.
  revert src b ini lst. induction fuel as [|fuel IH]; intros src b ini lst Hb Hf; [lia|].
  destruct src as [|x src0].
  { exists b, ini, lst. rewrite app_nil_r. split_and!; [done..| |apply grows_refl]. by intros [?|?]. }
  set (src := x :: src0) in *. assert (Hlen : (1 ≤ length src)%nat) by (unfold src; simpl; lia).
  pose proof (lst_le Hb) as Hle. pose proof (br_wpos _ _ _ Hb) as Hw.
  assert (Hrun : write_loop (S fuel) src b =
    (ws ← gets writeSize; p ← gets wpos_;
     let n := Nat.min (Z.to_nat ws) (length src) in
     store_at p (take n src);; add_size (idx p) (Z.of_nat n);;
     let p' := mkPos (idx p) (off p + Z.of_nat n) in
     modify (put_wpos p');;
     let src' := drop n src in
     (if (0 <? length src')%nat || (off p' =? BlockSize)
      then q ← addChunk; modify (put_wpos q) else mret tt);;
     write_loop fuel src') b) by done.
  rewrite Hrun. rewrite (bind_ok _ _ b _ b (gets_ok _ _)), (bind_ok _ _ b _ b (gets_ok _ _)).
  cbv zeta. rewrite (writeSize_eq Hb). set (n := Nat.min _ (length src)).
  assert (Hn : (n ≤ length src ∧ length lst + n ≤ 4096 ∧ (length lst < 4096 → 1 ≤ n))%nat) by lia.
  destruct (write_round b ini lst (take n src) Hb) as (b1 & Hr1 & Hb1 & Hrp1 & Hwp1);
    [rewrite length_take; lia|].
  rewrite length_take, Nat.min_l in Hr1, Hwp1 by lia. rewrite Hw in Hr1. simpl in Hr1.
  rewrite Hw. simpl idx. simpl off.
  rewrite (seq3_ok _ _ _ _ _ _ Hr1).
  assert (Hdl : length (drop n src) = (length src - n)%nat) by apply length_drop.
  destruct (write_next b1 ini (lst ++ take n src) (0 <? length (drop n src))%nat Hb1)
    as (b2 & ini2 & lst2 & Hrun2 & Hb2 & Hrp2 & Hc2 & Hl2 & Hg2).
  { destruct (decide (lst ++ take n src = [])) as [E|]; [right|by left].
    apply (f_equal length) in E. rewrite length_app, length_take in E. simpl in E.
    apply Nat.ltb_ge. lia. }
  { intros E%Nat.ltb_ge. rewrite length_app, length_take. destruct (decide (n < 1)%nat); [lia|].
    right. intros E2%(f_equal length). rewrite length_app, length_take in E2. simpl in E2. lia. }
  rewrite length_app, length_take, Nat.min_l, Nat2Z.inj_add in Hrun2 by lia.
  rewrite (bind_ok _ _ _ _ _ Hrun2).
  destruct (IH (drop n src) b2 ini2 lst2 Hb2) as (b' & ini' & lst' & Hrun' & Hb' & Hrp' & Hc' & Hl' & Hg').
  { rewrite Hdl. lia. }
  exists b', ini', lst'. split_and!; [done|done|congruence| | |].
  - rewrite Hc', Hc2, Hrp1, (content_snoc _ _ _ _ Hb), <-app_assoc. by rewrite take_drop.
  - intros _. apply Hl'. by right.
  - eapply grows_trans; [apply grows_last|]. by eapply grows_trans.
Qed.

Lemma write_ok b l data :
  holds b l → ∃ b', write data b = Ok tt b' ∧ holds b' (l ++ data) ∧ rpos_ b' = rpos_ b.
Proof.
  intros (ini & lst & Hb & ->). unfold write.
  destruct (write_loop_spec (2 * length data + 2) data b ini lst Hb) as
    (b' & ini' & lst' & Hrun & Hb' & Hr & Hc & _); [lia|].
  exists b'. split_and!; [done| |done]. by exists ini', lst'.
Qed.

(** What is left of the chunk being read: [readSize()] bytes at [readPtr()]. *)
Definition head_bytes (ds : list (list Z)) (p : Position) : list Z :=
  drop (Z.to_nat (off p)) (default [] (ds !! idx p)).

(** A write does not touch them, it may add some. *)
Lemma write_grows b ini lst data :
  brep b ini lst → ∃ b' ini' lst', write data b = Ok tt b' ∧ brep b' ini' lst' ∧ rpos_ b' = rpos_ b ∧
    content (ini' ++ [lst']) (rpos_ b') = content (ini ++ [lst]) (rpos_ b) ++ data ∧
    head_bytes (ini ++ [lst]) (rpos_ b) `prefix_of` head_bytes (ini' ++ [lst']) (rpos_ b').
Proof.
  intros Hb. destruct (write_loop_spec (2 * length data + 2) data b ini lst Hb) as
    (b' & ini' & lst' & Hrun & Hb' & Hr & Hc & _ & Hg); [lia|].
  exists b', ini', lst'. split_and!; try done. unfold head_bytes. rewrite Hr.
  destruct (br_rpos _ _ _ Hb) as (d & Hd & Ho). destruct (Hg _ _ Hd) as [e He]. rewrite Hd, He. cbn.
  rewrite drop_app_le by lia. by apply prefix_app_r.
Qed.

(** A producer that fills the area at [writePtr()] itself. *)
Definition poke (data : list Z) : M Buffer unit := λ b, store_at (wpos_ b) data b.

Lemma poke_advance_ok b l data :
  holds b l → data ≠ [] → Z.of_nat (length data) ≤ writeSize b →
  ∃ b', (poke data;; advance (Z.of_nat (length data))) b = Ok true b' ∧ holds b' (l ++ data).
Proof.
  intros (ini & lst & Hb & ->) Hne Hws. rewrite (writeSize_eq Hb) in Hws.
  destruct (chunk_last _ _ _ Hb) as (c & Hc & Hcr). pose proof (br_wpos _ _ _ Hb) as Hw.
  assert (1 ≤ length data)%nat by (destruct data; [done|simpl; lia]).
  eexists. split.
  - unfold poke, store_at, mbind, M_bind. rewrite Hw. simpl. rewrite Hc. unfold BlockSize.
    destruct (Z.leb_spec (Z.of_nat (length lst) + Z.of_nat (length data)) 4096); [|lia].
    unfold advance, writeSize, BlockSize. simpl.
    destruct (Z.leb_spec (Z.of_nat (length data)) 0); [lia|].
    rewrite wrap64_small by lia.
    destruct (Z.leb_spec (Z.of_nat (length data)) (4096 - Z.of_nat (length lst))); [|lia].
    unfold add_size, mbind, M_bind. simpl. rewrite (size_lookup Hb _ _ (lst_lookup ini lst)).
    rewrite Nat2Z.id, wrap64_small by lia. reflexivity.
  - eexists ini, (lst ++ data). split; [|symmetry; by apply (content_snoc b)].
    simpl. apply brep_extend; [done|]. apply crep_store; [done|lia].
Qed.

(** ** Dropping chunks *)

Lemma dropChunks_spec b ini lst k :
  brep b ini lst → (k ≤ idx (rpos_ b))%nat →
  ∃ b', dropChunks k b = Ok tt b' ∧ brep b' (drop k ini) lst ∧
    idx (rpos_ b') = (idx (rpos_ b) - k)%nat ∧
    content (drop k ini ++ [lst]) (rpos_ b') = content (ini ++ [lst]) (rpos_ b) ∧
    wpos_ b' = mkPos (length ini - k) (Z.of_nat (length lst)).
Proof.
  intros Hb Hk. pose proof (rpos_idx_le Hb) as Hi. unfold dropChunks.
  destruct (Nat.eqb_spec k 0) as [->|Hk0].
  { exists b. rewrite !Nat.sub_0_r. split_and!; try done. apply (br_wpos _ _ _ Hb). }
  assert (Hd : drop k (ini ++ [lst]) = drop k ini ++ [lst]) by (apply drop_app_le; lia).
  eexists. split; [reflexivity|]. destruct Hb as [H1 H2 H3 H4 (d & Hd' & Ho)]. simpl.
  split_and!; [|done| |by rewrite H3].
  - split; simpl; rewrite <-?Hd.
    + by apply Forall2_drop.
    + by rewrite H2, fmap_drop.
    + rewrite H3. simpl. by rewrite length_drop.
    + by apply Forall_drop.
    + exists d. split; [|done]. rewrite lookup_drop. by replace (k + (idx (rpos_ b) - k))%nat with (idx (rpos_ b)) by lia.
  - unfold content. simpl. rewrite <-Hd, drop_drop. do 3 f_equal. lia.
Qed.

Lemma dropChunks_off k b b' : dropChunks k b = Ok tt b' → off (rpos_ b') = off (rpos_ b).
Proof. unfold dropChunks. destruct (k =? 0)%nat; by intros [= <-]. Qed.

Lemma reserve_ok b l n :
  holds b l → 0 ≤ n →
  if n <=? BlockSize
  then ∃ b', reserve n b = Ok true b' ∧ holds b' l ∧ n ≤ writeSize b'
  else reserve n b = Ok false b.
Proof.
  intros (ini & lst & Hb & ->) Hn. unfold reserve.
  destruct (Z.leb_spec n BlockSize) as [Hle|Hgt]; destruct (Z.ltb_spec BlockSize n); try lia; [|done].
  pose proof (lst_le Hb) as Hl. rewrite (writeSize_eq Hb). unfold BlockSize in Hle.
  destruct (Z.leb_spec n (4096 - Z.of_nat (length lst))).
  { exists b. split_and!; [done|by exists ini, lst|by rewrite (writeSize_eq Hb)]. }
  assert (Hne : lst ≠ []) by (intros ->; simpl in *; lia).
  destruct (addChunk_spec b ini lst Hb Hne) as (p & b1 & Hadd & Hb1 & -> & Hr1).
  rewrite (bind_ok _ _ _ _ _ Hadd), (bind_ok _ _ _ tt (put_wpos (mkPos (S (length ini)) 0) b1)) by done.
  set (b2 := put_wpos _ b1) in *. pose proof (br_wpos _ _ _ Hb) as Hw.
  destruct (pos_eqb (rpos_ b) (wpos_ b)) eqn:E.
  - apply andb_true_iff in E as [E1%Nat.eqb_eq E2%Z.eqb_eq]. rewrite Hw in E1, E2. simpl in E1, E2.
    set (b3 := put_rpos (mkPos (S (length ini)) 0) b2).
    assert (Hb3 : brep b3 (ini ++ [lst]) []).
    { destruct Hb1 as [G1 G2 G3 G4 _]. split; try done. exists []. simpl. split; [|done].
      rewrite lookup_app_r; rewrite length_app; simpl; [|lia].
      by replace (S (length ini) - (length ini + 1))%nat with O by lia. }
    destruct (dropChunks_spec b3 (ini ++ [lst]) [] 1 Hb3) as (b4 & Hrun & Hb4 & _ & Hc4 & Hw4);
      [simpl; lia|].
    rewrite (bind_ok _ _ b2 tt b4); [|by rewrite (bind_ok _ _ b2 tt b3)].
    exists b4. split_and!; [done| |rewrite (writeSize_eq Hb4); simpl; lia].
    eexists _, _. split; [exact Hb4|]. rewrite Hc4, content_new. unfold content.
    rewrite E1, E2, drop_app_length. simpl idx. simpl off.
    rewrite (drop_ge (ini ++ [lst])) by (rewrite length_app; simpl; lia).
    cbn [concat]. rewrite app_nil_r, Nat2Z.id. by rewrite drop_ge by lia.
  - rewrite (bind_ok _ _ b2 tt b2) by done.
    exists b2. split_and!; [done| |rewrite (writeSize_eq Hb1); simpl; lia].
    eexists _, _. split; [exact Hb1|]. rewrite content_new. simpl. by rewrite Hr1.
Qed.

(** ** Consuming *)

(** Moving the read position by [k] bytes inside its chunk. *)
Lemma brep_read b ini lst d k :
  brep b ini lst → (ini ++ [lst]) !! idx (rpos_ b) = Some d →
  0 ≤ k → off (rpos_ b) + k ≤ Z.of_nat (length d) →
  let b' := put_rpos (mkPos (idx (rpos_ b)) (off (rpos_ b) + k)) b in
  brep b' ini lst ∧
  content (ini ++ [lst]) (rpos_ b') = drop (Z.to_nat k) (content (ini ++ [lst]) (rpos_ b)).
Proof.
  intros [H1 H2 H3 H4 (d' & Hd' & Ho)] Hd Hk Hk2 b'. rewrite Hd in Hd'. injection Hd' as <-.
  split; [split; try done|].
  - exists d. simpl. split; [done|lia].
  - unfold content. simpl. rewrite drop_drop. f_equal. lia.
Qed.

(** From the end of a chunk to the start of the next one. *)
Lemma brep_skip b ini lst d :
  brep b ini lst → (ini ++ [lst]) !! idx (rpos_ b) = Some d →
  off (rpos_ b) = Z.of_nat (length d) → (idx (rpos_ b) < length ini)%nat →
  let b' := put_rpos (mkPos (S (idx (rpos_ b))) 0) b in
  brep b' ini lst ∧ content (ini ++ [lst]) (rpos_ b') = content (ini ++ [lst]) (rpos_ b).
Proof.
  intros Hb Hd Ho Hi b'. split.
  - destruct Hb as [H1 H2 H3 H4 _]. split; try done. simpl.
    destruct (lookup_lt_is_Some_2 (ini ++ [lst]) (S (idx (rpos_ b)))) as [e He];
      [rewrite length_app; simpl; lia|]. exists e. split; [done|lia].
  - rewrite (content_head Hb d Hd), Ho, Nat2Z.id, drop_ge by lia. done.
Qed.

(** The read position is not at the end of a chunk, unless it is the last one. *)
Definition tidy (ini : list (list Z)) (lst : list Z) (p : Position) : Prop :=
  idx p = length ini ∨ ∃ d, (ini ++ [lst]) !! idx p = Some d ∧ off p < Z.of_nat (length d).

Lemma tidy_next b ini lst i : brep b ini lst → (i ≤ length ini)%nat → tidy ini lst (mkPos i 0).
Proof.
  intros Hb Hi. destruct (decide (i = length ini)) as [->|Hne]; [by left|right].
  destruct (lookup_lt_is_Some_2 ini i) as [d Hd]; [lia|]. exists d. split; [by apply lookup_app_l_Some|]. cbn.
  pose proof (Forall_lookup_1 _ _ _ _ (br_inner _ _ _ Hb) Hd). destruct d; [done|cbn; lia].
Qed.

Lemma consume_loop_spec fuel n td b ini lst :
  brep b ini lst → 0 ≤ n → (length ini - idx (rpos_ b) + 2 ≤ fuel)%nat →
  ∃ b' n' k, consume_loop fuel n td b = Ok (n', (td + k)%nat) b' ∧ brep b' ini lst ∧
    idx (rpos_ b') = (idx (rpos_ b) + k)%nat ∧ 0 ≤ n' ∧
    drop (Z.to_nat n') (content (ini ++ [lst]) (rpos_ b')) =
      drop (Z.to_nat n) (content (ini ++ [lst]) (rpos_ b)) ∧
    (n' = 0 ∨ idx (rpos_ b') = length ini) ∧
    (tidy ini lst (rpos_ b) → tidy ini lst (rpos_ b')).
Proof.
  revert n td b. induction fuel as [|fuel IH]; intros n td b Hb Hn Hf; [lia|].
  pose proof (rpos_idx_le Hb) as Hi. cbn [consume_loop].
  rewrite (bind_ok _ _ b b b) by done. rewrite (br_wpos _ _ _ Hb). simpl idx.
  destruct (Z.ltb_spec 0 n) as [Hn0|Hn0]; simpl.
  2: { exists b, n, O. rewrite !Nat.add_0_r. split_and!; try done. left; lia. }
  destruct (Nat.ltb_spec (idx (rpos_ b)) (length ini)) as [Hlt|Hge].
  2: { exists b, n, O. rewrite !Nat.add_0_r. split_and!; try done. right; lia. }
  destruct (readSize_eq Hb) as (d & Hd & Ho & Hrs). rewrite (bind_ok _ _ _ _ _ Hrs).
  cbv zeta. set (k := Z.min n (Z.of_nat (length d) - off (rpos_ b))).
  destruct (brep_read b ini lst d k Hb Hd) as [Hb1 Hc1]; [lia|lia|].
  set (b1 := put_rpos (mkPos (idx (rpos_ b)) (off (rpos_ b) + k)) b) in *.
  rewrite (bind_ok _ _ b tt b1) by done.
  destruct (readSize_eq Hb1) as (d1 & Hd1 & Ho1 & Hrs1). rewrite (bind_ok _ _ _ _ _ Hrs1).
  simpl idx in Hd1. rewrite Hd in Hd1. injection Hd1 as <-. simpl off in *.
  change (off (rpos_ b1)) with (off (rpos_ b) + k) in *.
  destruct (Z.eqb_spec (Z.of_nat (length d) - (off (rpos_ b) + k)) 0) as [E|E].
  - destruct (brep_skip b1 ini lst d Hb1) as [Hb2 Hc2]; [done|simpl; lia|done|].
    set (b2 := put_rpos _ b1) in Hb2, Hc2. rewrite (bind_ok _ _ b1 tt b2) by done.
    destruct (IH (n - k) (S td) b2 Hb2) as (b' & n' & j & Hrun & Hb' & Hidx & Hn' & Hc & Hend & Htd);
      [lia|simpl; lia|].
    exists b', n', (S j). split_and!; [by rewrite Hrun, Nat.add_succ_comm|done|simpl in Hidx; lia|done| |done|].
    2: { intros _. apply Htd. simpl. eapply tidy_next; [exact Hb|lia]. }
    rewrite Hc, Hc2, Hc1, drop_drop. f_equal. lia.
  - assert (n = k) as <- by lia.
    destruct fuel as [|fuel]; [lia|]. cbn [consume_loop]. rewrite (bind_ok _ _ b1 b1 b1) by done.
    rewrite Z.sub_diag. simpl andb. exists b1, 0, O. rewrite !Nat.add_0_r.
    split_and!; try done; [by left|]. intros _. right. exists d. split; [done|simpl; lia].
Qed.

(** [consume(n)] drops [n] bytes and leaves the read position tidy. *)
Lemma consume_brep b ini lst n :
  brep b ini lst → 0 ≤ n → ∃ b' ini' lst', consume n b = Ok tt b' ∧ brep b' ini' lst' ∧
    content (ini' ++ [lst']) (rpos_ b') = drop (Z.to_nat n) (content (ini ++ [lst]) (rpos_ b)) ∧
    idx (rpos_ b') = idx (rpos_ b) ∧ (tidy ini lst (rpos_ b) → tidy ini' lst' (rpos_ b')).
Proof.
  intros Hb Hn. unfold consume. pose proof (rpos_idx_le Hb) as Hi.
  destruct (consume_loop_spec (2 * length (chunks_ b) + 2) n 0 b ini lst Hb Hn) as
    (b1 & n1 & k & Hrun & Hb1 & Hidx & Hn1 & Hc & Hend & Htd); [rewrite (chunk_count Hb); lia|].
  rewrite (bind_ok _ _ _ _ _ Hrun). cbv beta iota.
  assert (H2 : ∃ b2, (if 0 <? n1 then
      rs ← readSize; r ← gets rpos_; modify (put_rpos (mkPos (idx r) (off r + Z.min n1 rs)))
    else mret tt) b1 = Ok tt b2 ∧ brep b2 ini lst ∧ idx (rpos_ b2) = idx (rpos_ b1) ∧
    content (ini ++ [lst]) (rpos_ b2) = drop (Z.to_nat n1) (content (ini ++ [lst]) (rpos_ b1)) ∧
    (tidy ini lst (rpos_ b1) → tidy ini lst (rpos_ b2))).
  { destruct (Z.ltb_spec 0 n1) as [Hpos|Hz].
    2: { exists b1. split_and!; try done. by replace (Z.to_nat n1) with O by lia. }
    destruct Hend as [?|Hend]; [lia|].
    destruct (readSize_eq Hb1) as (d & Hd & Ho & Hrs).
    rewrite (bind_ok _ _ _ _ _ Hrs), (bind_ok _ _ _ _ _ (gets_ok _ _)).
    destruct (brep_read b1 ini lst d (Z.min n1 (Z.of_nat (length d) - off (rpos_ b1))) Hb1 Hd)
      as [Hb2 Hc2]; [lia|lia|].
    eexists. split; [reflexivity|]. split_and!; [exact Hb2|done| |by left]. rewrite Hc2.
    rewrite (content_head Hb1 d Hd), (drop_ge (ini ++ [lst])) by (rewrite length_app; simpl; lia).
    cbn [concat]. rewrite !app_nil_r, !drop_drop.
    destruct (decide (n1 ≤ Z.of_nat (length d) - off (rpos_ b1))).
    - by rewrite Z.min_l by lia.
    - rewrite !drop_ge by lia. done. }
  destruct H2 as (b2 & Hrun2 & Hb2 & Hidx2 & Hc2 & Htd2). rewrite (bind_ok _ _ _ _ _ Hrun2).
  destruct (dropChunks_spec b2 ini lst (0 + k) Hb2) as (b3 & Hrun3 & Hb3 & Hidx3 & Hc3 & _); [lia|].
  exists b3. eexists _, _. split; [done|]. split; [exact Hb3|]. split; [by rewrite Hc3, Hc2, Hc|].
  pose proof (rpos_idx_le Hb2) as Hi2. split; [lia|]. intros Ht. destruct (Htd2 (Htd Ht)) as [E|(d & Hd & Ho)].
  - left. rewrite Hidx3, E, length_drop. lia.
  - right. exists d. rewrite <-drop_app_le by lia. rewrite lookup_drop, Hidx3.
    replace (0 + k + (idx (rpos_ b2) - (0 + k)))%nat with (idx (rpos_ b2)) by lia. split; [done|].
    rewrite (dropChunks_off _ _ _ Hrun3). done.
Qed.

Lemma consume_ok b l n :
  holds b l → 0 ≤ n → ∃ b', consume n b = Ok tt b' ∧ holds b' (drop (Z.to_nat n) l).
Proof.
  intros (ini & lst & Hb & ->) Hn. destruct (consume_brep b ini lst n Hb Hn) as (b' & ini' & lst' & Hr & Hb' & Hc & _).
  exists b'. split; [done|]. by exists ini', lst'.
Qed.

Lemma byteCount_ok b l :
  holds b l → idx (rpos_ b) = O → Z.of_nat (length l) < 2 ^ 64 →
  byteCount b = Ok (Z.of_nat (length l)) b.
Proof.
  intros (ini & lst & Hb & ->) Hi Hl. unfold byteCount.
  destruct (readSize_eq Hb) as (d & Hd & Ho & Hrs).
  rewrite (bind_ok _ _ _ _ _ Hrs), (bind_ok _ _ _ _ _ (gets_ok _ _)).
  assert (Hz : zsum (drop 1 (sizes_ b)) = Z.of_nat (length (concat (drop 1 (ini ++ [lst]))))).
  { rewrite (br_sizes _ _ _ Hb), <-fmap_drop. generalize (drop 1 (ini ++ [lst])). clear.
    induction l as [|x l IH]; [done|]. rewrite fmap_cons, zsum_cons, IH.
    simpl concat. rewrite length_app. lia. }
  unfold mret, M_ret. f_equal. rewrite Hz. rewrite (content_head Hb d Hd), Hi, length_app, length_drop in *.
  rewrite wrap64_small by lia. lia.
Qed.

(** ** Moving chunks between buffers *)

(** What is left after [maybeRemoveLastChunk]. *)
Definition trimmed (ini : list (list Z)) (lst : list Z) : list (list Z) :=
  if decide (lst = []) then ini else ini ++ [lst].

Lemma maybeRemoveLastChunk_spec b ini lst :
  brep b ini lst →
  ∃ o b', maybeRemoveLastChunk b = Ok o b' ∧ Forall2 crep (chunks_ b') (trimmed ini lst) ∧
    sizes_ b' = (λ d : list Z, Z.of_nat (length d)) <$> trimmed ini lst ∧
    wpos_ b' = wpos_ b ∧ rpos_ b' = rpos_ b ∧
    match o with Some c => lst = [] ∧ crep c [] | None => lst ≠ [] end.
Proof.
  intros Hb. destruct (chunk_last _ _ _ Hb) as (c & Hc & Hcr).
  unfold maybeRemoveLastChunk, trimmed. rewrite (br_wpos _ _ _ Hb). simpl.
  rewrite Hc, (size_lookup Hb _ _ (lst_lookup ini lst)).
  destruct Hb as [H1 H2 H3 H4 _]. destruct (Z.eqb_spec (Z.of_nat (length lst)) 0) as [E|E].
  - assert (lst = []) as -> by (destruct lst; [done|simpl in E; lia]).
    eexists _, _. split; [reflexivity|]. rewrite decide_True by done. simpl. split_and!; try done.
    + rewrite (Forall2_length _ _ _ H1), length_app. simpl length.
      replace (length ini + 1 - 1)%nat with (length ini) by lia.
      rewrite <-(take_app_length ini [[]]) at 2. by apply Forall2_take.
    + rewrite H2, length_fmap, length_app. simpl length.
      replace (length ini + 1 - 1)%nat with (length ini) by lia.
      rewrite fmap_app, take_app_le by (rewrite length_fmap; lia).
      apply take_ge. rewrite length_fmap. lia.
  - assert (lst ≠ []) by (intros ->; done). eexists None, b.
    rewrite decide_False by done. by split_and!.
Qed.

Lemma trimmed_inner ini lst :
  Forall (λ d : list Z, d ≠ []) ini → Forall (λ d, d ≠ []) (trimmed ini lst).
Proof. intros H. unfold trimmed. case_decide; [done|]. apply Forall_app. split; [done|by constructor]. Qed.

Lemma trimmed_concat ini lst : concat (trimmed ini lst) = concat (ini ++ [lst]).
Proof. unfold trimmed. case_decide as E; [|done]. rewrite E, concat_app. simpl. by rewrite !app_nil_r. Qed.

(** The chunks [ds] as a buffer: a new chunk is added when the last is full. *)
Lemma close_chunks cs ds o :
  Forall2 crep cs ds → Forall (λ d, d ≠ []) ds → ds ≠ [] →
  match o with Some c => crep c [] | None => True end →
  let szs := (λ d : list Z, Z.of_nat (length d)) <$> ds in
  let full := default 0 (last szs) =? BlockSize in
  let cs2 := if full then cs ++ [default new_chunk o] else cs in
  let szs2 := if full then szs ++ [0] else szs in
  ∃ ini lst, Forall2 crep cs2 (ini ++ [lst]) ∧
    szs2 = (λ d : list Z, Z.of_nat (length d)) <$> (ini ++ [lst]) ∧
    length cs2 = S (length ini) ∧ default 0 (last szs2) = Z.of_nat (length lst) ∧
    Forall (λ d, d ≠ []) ini ∧ ((ini ++ [lst] = ds) ∨ (ini = ds ∧ lst = [])).
Proof.
  intros Hcs Hin Hne Ho szs full cs2 szs2. destruct full eqn:Ef; unfold cs2, szs2, szs.
  - exists ds, []. rewrite fmap_app, length_app, (Forall2_length _ _ _ Hcs), last_snoc. simpl length.
    split_and!; try done; [|lia|by right]. apply Forall2_app; [done|].
    constructor; [|constructor]. destruct o; [done|apply crep_new].
  - destruct (exists_last Hne) as (ini & lst & ->). exists ini, lst.
    rewrite (Forall2_length _ _ _ Hcs), length_app, fmap_last, last_snoc. simpl length.
    apply Forall_app in Hin as [Hin _]. split_and!; try done; [lia|by left].
Qed.

(** The read position of [this] after chunks [B] were put behind it. *)
Lemma append_rpos ini lst B i o d :
  (ini ++ [lst]) !! i = Some d → 0 ≤ o ≤ Z.of_nat (length d) → B ≠ [] → Forall (λ d, d ≠ []) B →
  Forall (λ d, d ≠ []) ini →
  ∃ e, (trimmed ini lst ++ B) !! i = Some e ∧ 0 ≤ o ≤ Z.of_nat (length e) ∧
    drop (Z.to_nat o) (concat (drop i (trimmed ini lst ++ B))) =
      content (ini ++ [lst]) (mkPos i o) ++ concat B ∧
    (o = Z.of_nat (length e) → (i < length (trimmed ini lst))%nat).
Proof.
  intros Hd Ho HB HBn Hin. unfold content. simpl.
  assert (Hle : (Z.to_nat o ≤ length (concat (drop i (ini ++ [lst]))))%nat).
  { rewrite (drop_S _ _ _ Hd). simpl. rewrite length_app. lia. }
  assert (E : concat (drop i (trimmed ini lst ++ B)) = concat (drop i (ini ++ [lst])) ++ concat B).
  { pose proof (lookup_lt_Some _ _ _ Hd) as Hlt. rewrite length_app in Hlt. simpl in Hlt.
    unfold trimmed. case_decide as El; [subst lst|].
    - rewrite !drop_app_le by lia. rewrite !concat_app. simpl. by rewrite app_nil_r.
    - rewrite drop_app_le by (rewrite length_app; simpl; lia). by rewrite concat_app. }
  rewrite E, drop_app_le by done. unfold trimmed in *. case_decide as El.
  - subst lst. destruct (decide (i < length ini)%nat) as [Hi|Hi].
    + rewrite lookup_app_l in Hd by done. exists d. rewrite lookup_app_l by done. done.
    + apply lookup_lt_Some in Hd as Hlt. rewrite length_app in Hlt. simpl in Hlt.
      assert (i = length ini) as -> by lia. rewrite lst_lookup in Hd. injection Hd as <-.
      destruct B as [|e B]; [done|]. exists e. rewrite lookup_app_r, Nat.sub_diag by lia.
      simpl in *. split_and!; [done|lia|lia|done|]. apply Forall_inv in HBn.
      destruct e; [done|]. simpl. lia.
  - apply lookup_lt_Some in Hd as Hlt. exists d. rewrite lookup_app_l by done. done.
Qed.

Lemma isConsumed_false b : isConsumed b = false → rpos_ b = mkPos 0 0.
Proof.
  unfold isConsumed. intros [H1 H2]%orb_false_iff. apply negb_false_iff in H1, H2.
  apply Nat.eqb_eq in H1. apply Z.eqb_eq in H2. destruct (rpos_ b). simpl in *. by subst.
Qed.

(** The part of [appendFrom] that builds the new [this]. *)
Lemma append_this (ini : list (list Z)) lst B cs o (w0 : Position) (r : Position) d :
  Forall2 crep cs (trimmed ini lst ++ B) → Forall (λ d, d ≠ []) ini → B ≠ [] →
  Forall (λ d, d ≠ []) B → match o with Some c => crep c [] | None => True end →
  (ini ++ [lst]) !! idx r = Some d → 0 ≤ off r ≤ Z.of_nat (length d) →
  let szs := (λ d : list Z, Z.of_nat (length d)) <$> (trimmed ini lst ++ B) in
  let full := default 0 (last szs) =? BlockSize in
  let cs2 := if full then cs ++ [default new_chunk o] else cs in
  let szs2 := if full then szs ++ [0] else szs in
  ∃ rs, readSize (mkBuf cs2 szs2 w0 r) = Ok rs (mkBuf cs2 szs2 w0 r) ∧
    holds (mkBuf cs2 szs2 (mkPos (length cs2 - 1) (default 0 (last szs2)))
             (if rs =? 0 then mkPos (idx r + 1) 0 else r))
      (content (ini ++ [lst]) r ++ concat B).
Proof.
  intros Hcs Hin HB HBn Ho Hd Hoff szs full cs2 szs2. destruct r as [i o']. simpl in Hd, Hoff.
  destruct (append_rpos ini lst B i o' d Hd Hoff HB HBn Hin) as (e & He & Hoe & Hcont & Hend).
  assert (Hne : trimmed ini lst ++ B ≠ []) by (intros [_ ?]%app_nil; done).
  destruct (close_chunks cs (trimmed ini lst ++ B) o Hcs) as (ini' & lst' & H1 & H2 & H3 & H4 & H5 & H6);
    [apply Forall_app; split; [by apply trimmed_inner|done]|done|done|].
  fold szs in H1, H2, H3, H4. fold full in H1, H2, H3, H4. fold cs2 szs2 in H1, H2, H3, H4.
  assert (Hpre : ∃ tl, ini' ++ [lst'] = (trimmed ini lst ++ B) ++ tl ∧ concat tl = []).
  { destruct H6 as [E|[-> ->]]; [exists []; by rewrite app_nil_r|by exists [[]]]. }
  destruct Hpre as (tl & Hpre & Htl).
  assert (He' : (ini' ++ [lst']) !! i = Some e) by (rewrite Hpre; by apply lookup_app_l_Some).
  assert (Hi : (i < length (trimmed ini lst ++ B))%nat) by (by eapply lookup_lt_Some).
  assert (Hc' : content (ini' ++ [lst']) (mkPos i o') = content (ini ++ [lst]) (mkPos i o') ++ concat B).
  { unfold content at 1. simpl. rewrite Hpre, drop_app_le by lia.
    by rewrite concat_app, Htl, app_nil_r. }
  assert (Hsz : szs2 !! i = Some (Z.of_nat (length e))) by (by rewrite H2, list_lookup_fmap, He').
  assert (length e ≤ 4096)%nat.
  { destruct (Forall2_lookup_r _ _ _ _ _ H1 He') as (c & _ & Hc). by eapply last_le. }
  exists (Z.of_nat (length e) - o'). split.
  { unfold readSize, size_at, mbind, M_bind. simpl. rewrite Hsz. unfold mret, M_ret.
    f_equal. apply wrap64_small. lia. }
  assert (Hbr : brep (mkBuf cs2 szs2 (mkPos (length cs2 - 1) (default 0 (last szs2))) (mkPos i o')) ini' lst').
  { split; simpl; try done; [|by exists e]. rewrite H3, H4. f_equal. lia. }
  destruct (Z.eqb_spec (Z.of_nat (length e) - o') 0) as [E|E].
  - assert (Hlt : (i < length ini')%nat).
    { specialize (Hend ltac:(lia)). apply (f_equal length) in Hpre. rewrite !length_app in Hpre.
      destruct B; [done|]. simpl in Hpre. lia. }
    destruct (brep_skip _ ini' lst' e Hbr) as [Hbr' Hcs']; [done|simpl; lia|done|].
    simpl in Hbr', Hcs'. rewrite Nat.add_1_r. eexists _, _. split; [exact Hbr'|].
    symmetry. etransitivity; [exact Hcs'|exact Hc'].
  - eexists _, _. split; [exact Hbr|]. symmetry. exact Hc'.
Qed.

Lemma appendFrom_ok this other l1 l2 :
  holds this l1 → holds other l2 → isConsumed other = false →
  ∃ this' other', appendFrom this other = Ok this' other' ∧ holds this' (l1 ++ l2) ∧
    (l2 = [] ∧ this' = this ∧ other' = other ∨
     l2 ≠ [] ∧ off (wpos_ other) ≠ 0 ∧ other' = Buffer_init ∨
     l2 ≠ [] ∧ off (wpos_ other) = 0 ∧ (0 < idx (wpos_ other))%nat ∧ wpos_ other' = wpos_ other ∧
       length (chunks_ other') = 1%nat).
Proof.
  intros (ini & lst & Hb & ->) (oini & olst & Hob & ->) Hcon. unfold appendFrom. rewrite Hcon.
  pose proof (isConsumed_false _ Hcon) as Hr0.
  destruct (readSize_eq Hob) as (d0 & Hd0 & _ & Hrs). rewrite Hrs, Hr0 in *. simpl in Hd0 |- *.
  assert (Hc0 : content (oini ++ [olst]) (mkPos 0 0) = concat (trimmed oini olst))
    by (rewrite trimmed_concat; done).
  rewrite Hc0. destruct (Z.eqb_spec (Z.of_nat (length d0) - 0) 0) as [E0|E0].
  { exists this, other. assert (d0 = []) as -> by (destruct d0; [done|simpl in E0; lia]).
    assert (oini = []) as ->.
    { destruct oini as [|x oini]; [done|]. injection Hd0 as ->.
      by pose proof (Forall_inv (br_inner _ _ _ Hob)). }
    injection Hd0 as ->. simpl. rewrite app_nil_r. split_and!; [done|by exists ini, lst|by left]. }
  destruct (maybeRemoveLastChunk_spec _ _ _ Hb) as (o & b1 & Hrm & Hcs & Hsz & Hw & Hr & Ho).
  destruct (maybeRemoveLastChunk_spec _ _ _ Hob) as (oo & ob1 & Horm & Hocs & Hosz & Howp & _ & Hoo).
  rewrite Hrm, Horm, Hsz, Hosz, <-fmap_app.
  assert (HB : trimmed oini olst ≠ []).
  { unfold trimmed. case_decide as E; [|by destruct oini]. subst olst.
    destruct oini; [|done]. injection Hd0 as <-. simpl in E0. lia. }
  destruct (br_rpos _ _ _ Hb) as (d & Hd & Hoff).
  destruct (append_this ini lst (trimmed oini olst) (chunks_ b1 ++ chunks_ ob1) o (wpos_ b1)
    (rpos_ this) d) as (rs & Hrs2 & Hh);
    [by apply Forall2_app|apply Hb|done|apply trimmed_inner, Hob|by destruct o; [apply Ho|]|done|done|].
  set (szs := _ <$> (trimmed ini lst ++ trimmed oini olst)) in *.
  assert (Elet : (if default 0 (last szs) =? BlockSize then
      match o with None => (((chunks_ b1 ++ chunks_ ob1) ++ [new_chunk]), szs ++ [0])
                 | Some c => ((chunks_ b1 ++ chunks_ ob1) ++ [c], szs ++ [0]) end
    else ((chunks_ b1 ++ chunks_ ob1), szs)) =
    (if default 0 (last szs) =? BlockSize then (chunks_ b1 ++ chunks_ ob1) ++ [default new_chunk o]
     else chunks_ b1 ++ chunks_ ob1,
     if default 0 (last szs) =? BlockSize then szs ++ [0] else szs))
    by (destruct (_ =? _), o; done).
  rewrite Elet, Hr. cbv beta iota. rewrite Hrs2. simpl. eexists _, _. split; [reflexivity|].
  split; [exact Hh|]. right.
  assert (Hne : concat (trimmed oini olst) ≠ []).
  { destruct (trimmed oini olst) as [|x t] eqn:Et; [done|].
    pose proof (trimmed_inner oini olst (br_inner _ _ _ Hob)) as Hin. rewrite Et in Hin.
    apply Forall_inv in Hin. simpl. by intros [? _]%app_nil. }
  rewrite (br_wpos _ _ _ Hob). simpl. destruct oo as [c|].
  - right. destruct Hoo as [-> _]. split_and!; [done|done| |by rewrite Howp, (br_wpos _ _ _ Hob)|done].
    unfold trimmed in HB. rewrite decide_True in HB by done. destruct oini; [done|simpl; lia].
  - left. split_and!; [done| |done]. by destruct olst.
Qed.

Lemma copy_loop_spec cs ds i b ini lst :
  brep b ini lst → Forall2 crep cs ds → (i ≠ O → lst ≠ [] ∨ ds = []) →
  (∀ pre d post, ds = pre ++ d :: post → post ≠ [] → d ≠ []) →
  ∃ b' ini' lst', copy_loop i (zip cs ((λ d : list Z, Z.of_nat (length d)) <$> ds)) b = Ok tt b' ∧
    brep b' ini' lst' ∧ rpos_ b' = rpos_ b ∧
    content (ini' ++ [lst']) (rpos_ b') = content (ini ++ [lst]) (rpos_ b) ++ concat ds.
Proof.
  intros Hb Hcs. revert i b ini lst Hb. induction Hcs as [|c d cs ds Hcd Hcs IH];
    intros i b ini lst Hb Hi Hin.
  { exists b, ini, lst. simpl. rewrite app_nil_r. by split_and!. }
  simpl zip. cbn [copy_loop]. rewrite (bind_ok _ _ _ _ _ (gets_ok _ _)), (writeSize_eq Hb).
  pose proof (last_le _ _ Hcd) as Hd. pose proof (lst_le Hb) as Hle.
  assert (H1 : ∃ b1 ini1 lst1,
    (if negb (i =? 0)%nat || (4096 - Z.of_nat (length lst) <? Z.of_nat (length d))
     then q ← addChunk; modify (put_wpos q) else mret tt) b = Ok tt b1 ∧
    brep b1 ini1 lst1 ∧ rpos_ b1 = rpos_ b ∧
    content (ini1 ++ [lst1]) (rpos_ b1) = content (ini ++ [lst]) (rpos_ b) ∧
    (length lst1 + length d ≤ 4096)%nat).
  { destruct (negb (i =? 0)%nat || _) eqn:E.
    - assert (lst ≠ []) as Hl.
      { apply orb_true_iff in E as [E|E].
        - apply negb_true_iff, Nat.eqb_neq in E. by destruct (Hi E).
        - apply Z.ltb_lt in E. intros ->. simpl in E. lia. }
      destruct (addChunk_spec b ini lst Hb Hl) as (p & b1 & Hadd & Hb1 & -> & Hr).
      rewrite (bind_ok _ _ _ _ _ Hadd). eexists _, _, _. split; [reflexivity|].
      split; [exact Hb1|]. simpl. rewrite content_new, Hr. by split_and!.
    - apply orb_false_iff in E as [_ E%Z.ltb_ge]. exists b, ini, lst. split_and!; [done..|lia]. }
  destruct H1 as (b1 & ini1 & lst1 & Hr1 & Hb1 & Hrp1 & Hc1 & Hl1).
  rewrite (bind_ok _ _ _ _ _ Hr1), (bind_ok _ _ _ _ _ (gets_ok _ _)), (bind_ok _ _ b1 b1 b1) by done.
  destruct (chunk_last _ _ _ Hb1) as (c1 & Hcl & Hcr1). rewrite (br_wpos _ _ _ Hb1). simpl idx. simpl off.
  rewrite Hcl. unfold BlockSize.
  destruct (Z.leb_spec (Z.of_nat (length lst1) + Z.of_nat (length d)) 4096); [|lia].
  erewrite bind_ok by reflexivity.
  erewrite bind_ok by (unfold add_size; simpl; rewrite (size_lookup Hb1 _ _ (lst_lookup ini1 lst1)); reflexivity).
  erewrite bind_ok by reflexivity.
  set (b2 := put_wpos _ _).
  assert (Hb2 : brep b2 ini1 (lst1 ++ d)).
  { unfold b2, put_wpos. simpl. rewrite wrap64_small by lia. apply brep_extend; [done|].
    rewrite <-Nat2Z.inj_add, !Nat2Z.id. destruct Hcd as (_ & _ & ->). by apply crep_store. }
  destruct (IH (S i) b2 ini1 (lst1 ++ d) Hb2) as (b' & ini' & lst' & Hrun & Hb' & Hrp & Hc).
  { intros _. destruct ds as [|d2 ds2]; [by right|left].
    intros [_ ?]%app_nil. by apply (Hin [] d (d2 :: ds2)). }
  { intros pre x post Heq Hpost. apply (Hin (d :: pre) x post); [by rewrite Heq|done]. }
  exists b', ini', lst'. split_and!; [done|done|by rewrite Hrp|].
  rewrite Hc. change (rpos_ b2) with (rpos_ b1). rewrite (content_snoc b1) by done.
  rewrite Hc1. simpl. by rewrite app_assoc.
Qed.

Lemma copyFrom_ok this other l1 l2 :
  holds this l1 → holds other l2 → isConsumed other = false →
  ∃ this', copyFrom this other = Ok tt this' ∧ holds this' (l1 ++ l2).
Proof.
  intros (ini & lst & Hb & ->) (oini & olst & Hob & ->) Hcon. unfold copyFrom. rewrite Hcon.
  pose proof (isConsumed_false _ Hcon) as Hr0.
  destruct (readSize_eq Hob) as (d0 & Hd0 & _ & Hrs). rewrite Hrs, Hr0 in *. simpl in Hd0 |- *.
  change (content (oini ++ [olst]) (mkPos 0 0)) with (concat (oini ++ [olst])).
  destruct (Z.eqb_spec (Z.of_nat (length d0) - 0) 0) as [E0|E0].
  { exists this. assert (d0 = []) as -> by (destruct d0; [done|simpl in E0; lia]).
    assert (oini = []) as ->.
    { destruct oini as [|x oini]; [done|]. injection Hd0 as ->.
      by pose proof (Forall_inv (br_inner _ _ _ Hob)). }
    injection Hd0 as ->. simpl. rewrite app_nil_r. split; [done|by exists ini, lst]. }
  rewrite (br_sizes _ _ _ Hob).
  destruct (copy_loop_spec (chunks_ other) (oini ++ [olst]) 0 this ini lst Hb) as
    (b1 & ini1 & lst1 & Hrun & Hb1 & Hrp & Hc); [apply Hob|done| |].
  { intros pre d post Heq Hpost. destruct (exists_last Hpost) as (q & x & ->).
    rewrite app_comm_cons, app_assoc in Heq. apply app_inj_tail in Heq as [-> ->].
    pose proof (br_inner _ _ _ Hob) as Hin. apply Forall_app in Hin as [_ Hin].
    by apply Forall_inv in Hin. }
  rewrite (bind_ok _ _ _ _ _ Hrun), (bind_ok _ _ _ _ _ (gets_ok _ _)), (br_wpos _ _ _ Hb1). simpl off.
  destruct (write_next b1 ini1 lst1 false Hb1) as (b2 & ini2 & lst2 & Hrun2 & Hb2 & Hrp2 & Hc2 & _);
    [by right|intros _; destruct (decide (lst1 = [])) as [->|]; [left; simpl; lia|by right]|].
  exists b2. split; [exact Hrun2|]. exists ini2, lst2. split; [done|]. by rewrite Hc2, Hc.
Qed.

(** ** Iterating *)

(** The iterator [it] on [b] has [rest] left to read. *)
Definition irep (b : Buffer) (it : Iterator) (rest : list Z) : Prop :=
  ∃ ini lst d, brep b ini lst ∧ (ini ++ [lst]) !! idx (pos_ it) = Some d ∧
    0 ≤ off (pos_ it) ≤ Z.of_nat (length d) ∧
    (off (pos_ it) < Z.of_nat (length d) ∨ idx (pos_ it) = length ini) ∧
    budget_ it = Z.of_nat (length d) - off (pos_ it) ∧ chunk_start_ it = idx (pos_ it) ∧
    rest = drop (Z.to_nat (off (pos_ it))) d ++ concat (drop (S (idx (pos_ it))) (ini ++ [lst])).

(** The read position is inside a chunk or at the end of the buffer. *)
Definition ready (b : Buffer) : Prop :=
  ∃ rs, readSize b = Ok rs b ∧ (rs ≠ 0 ∨ pos_eqb (rpos_ b) (wpos_ b) = true).

Lemma begin_ok b l :
  holds b l → ready b → idx (rpos_ b) = O → Z.of_nat (length l) < 2 ^ 64 →
  ∃ it, begin_ b = Ok it b ∧ irep b it l ∧ bytes_read_ it = 0 ∧
    bytes_total_ it = Z.of_nat (length l).
Proof.
  intros Hh (rs & Hrs & Hready) Hi Hl. pose proof Hh as (ini & lst & Hb & ->).
  destruct (readSize_eq Hb) as (d & Hd & Ho & Hrs'). rewrite Hrs in Hrs'. injection Hrs' as ->.
  unfold begin_. rewrite (bind_ok _ _ _ _ _ (gets_ok _ _)), (bind_ok _ _ _ _ _ (byteCount_ok b _ Hh Hi Hl)).
  unfold readSize in Hrs. unfold getBudget. rewrite (bind_ok _ _ _ _ _ Hrs).
  eexists. split; [reflexivity|]. split; [|done]. exists ini, lst, d. simpl.
  split_and!; try done; [lia..| |by apply content_head].
  destruct Hready as [?|[E1%Nat.eqb_eq E2%Z.eqb_eq]%andb_true_iff]; [left; lia|right].
  by rewrite E1, (br_wpos _ _ _ Hb).
Qed.

Lemma eob_ok b it rest : irep b it rest → eob b it = (if decide (rest = []) then true else false).
Proof.
  intros (ini & lst & d & Hb & Hd & Ho & Hst & Hbud & _ & ->). unfold eob. rewrite Hbud.
  destruct (Z.eqb_spec (Z.of_nat (length d) - off (pos_ it)) 0) as [E|E]; simpl.
  - destruct Hst as [?|Hst]; [lia|]. rewrite Hst, lst_lookup in Hd. injection Hd as <-.
    rewrite (drop_ge (ini ++ [lst])) by (rewrite length_app, Hst; simpl; lia).
    rewrite (drop_ge lst) by lia. rewrite decide_True by done.
    unfold pos_eqb. rewrite (br_wpos _ _ _ Hb). simpl. rewrite Hst, Nat.eqb_refl. simpl.
    apply Z.eqb_eq. lia.
  - rewrite decide_False; [done|]. intros [H%(f_equal length) _]%app_nil.
    rewrite length_drop in H. simpl in H. lia.
Qed.

Lemma getChar_ok b it x rest : irep b it (x :: rest) → getChar it b = Ok x b.
Proof.
  intros (ini & lst & d & Hb & Hd & Ho & Hst & _ & Hcs & Hrest). unfold getChar. rewrite Hcs.
  assert (Hlt : off (pos_ it) < Z.of_nat (length d)).
  { destruct Hst as [?|Hst]; [done|]. rewrite Hst, lst_lookup in Hd. injection Hd as <-.
    rewrite (drop_ge (ini ++ [lst])) in Hrest by (rewrite length_app, Hst; simpl; lia).
    simpl in Hrest. rewrite app_nil_r in Hrest. apply (f_equal length) in Hrest.
    rewrite length_drop in Hrest. simpl in Hrest. lia. }
  destruct (Forall2_lookup_r _ _ _ _ _ (br_chunks _ _ _ Hb) Hd) as (c & -> & _ & _ & Ht).
  assert (Hx : d !! Z.to_nat (off (pos_ it)) = Some x).
  { destruct (lookup_lt_is_Some_2 d (Z.to_nat (off (pos_ it)))) as [y Hy]; [lia|].
    rewrite (drop_S _ _ _ Hy) in Hrest. simpl in Hrest. congruence. }
  assert (E : c !! Z.to_nat (off (pos_ it)) = Some (Some x)).
  { rewrite <-(lookup_take_lt c (length d)) by lia. by rewrite Ht, list_lookup_fmap, Hx. }
  by rewrite E.
Qed.

Lemma next_ok b it x rest :
  irep b it (x :: rest) →
  ∃ it', next it b = Ok it' b ∧ irep b it' rest ∧ bytes_read_ it' = bytes_read_ it + 1 ∧
    bytes_total_ it' = bytes_total_ it.
Proof.
  intros (ini & lst & d & Hb & Hd & Ho & Hst & Hbud & Hcs & Hrest).
  assert (Hlt : off (pos_ it) < Z.of_nat (length d)).
  { destruct Hst as [?|Hst]; [done|]. rewrite Hst, lst_lookup in Hd. injection Hd as <-.
    rewrite (drop_ge (ini ++ [lst])) in Hrest by (rewrite length_app, Hst; simpl; lia).
    simpl in Hrest. rewrite app_nil_r in Hrest. apply (f_equal length) in Hrest.
    rewrite length_drop in Hrest. simpl in Hrest. lia. }
  assert (Hrest' : rest = drop (Z.to_nat (off (pos_ it) + 1)) d ++
                          concat (drop (S (idx (pos_ it))) (ini ++ [lst]))).
  { destruct (lookup_lt_is_Some_2 d (Z.to_nat (off (pos_ it)))) as [y Hy]; [lia|].
    rewrite (drop_S _ _ _ Hy) in Hrest. injection Hrest as _ ->.
    by replace (Z.to_nat (off (pos_ it) + 1)) with (S (Z.to_nat (off (pos_ it)))) by lia. }
  assert (Hd4 : (length d ≤ 4096)%nat) by (eapply (chunk_le Hb), list_elem_of_lookup; eauto).
  unfold next. rewrite Hbud. destruct (Z.ltb_spec 1 (Z.of_nat (length d) - off (pos_ it))) as [Hf|Hs].
  { eexists. split; [reflexivity|]. split; [|done]. exists ini, lst, d. simpl.
    split_and!; try done; [lia|lia|left; lia|lia]. }
  unfold slowNext. erewrite bind_ok by (unfold size_at; by rewrite (size_lookup Hb _ _ Hd)).
  destruct (Z.ltb_spec (off (pos_ it)) (Z.of_nat (length d))); [|lia].
  rewrite (bind_ok _ _ _ _ _ (gets_ok _ _)), (br_wpos _ _ _ Hb). cbv zeta. cbn [idx off].
  destruct (Z.eqb_spec (off (pos_ it) + 1) (Z.of_nat (length d))); [|lia].
  destruct (Nat.ltb_spec (idx (pos_ it)) (length ini)) as [Hi|Hi]; cbn [andb].
  - destruct (lookup_lt_is_Some_2 (ini ++ [lst]) (S (idx (pos_ it)))) as [e2 He];
      [rewrite length_app; simpl; lia|].
    assert (He4 : (length e2 ≤ 4096)%nat) by (eapply (chunk_le Hb), list_elem_of_lookup; eauto).
    erewrite bind_ok by (unfold getBudget; erewrite bind_ok by (unfold size_at; simpl;
      by rewrite (size_lookup Hb _ _ He)); reflexivity).
    eexists. split; [reflexivity|]. split; [|done]. exists ini, lst, e2. simpl.
    split_and!; try done; [lia| |by rewrite wrap64_small by lia|].
    + destruct (decide (S (idx (pos_ it)) = length ini)) as [?|Hne]; [by right|left].
      rewrite lookup_app_l in He by lia. pose proof (br_inner _ _ _ Hb) as Hin.
      rewrite Forall_forall in Hin. specialize (Hin e2 ltac:(eapply list_elem_of_lookup; eauto)).
      destruct e2; [done|simpl; lia].
    + rewrite Hrest', drop_ge by lia. simpl. rewrite (drop_S _ _ _ He). done.
  - erewrite bind_ok by (unfold getBudget; erewrite bind_ok by (unfold size_at; simpl;
      by rewrite (size_lookup Hb _ _ Hd)); reflexivity).
    apply lookup_lt_Some in Hd as Hdl. rewrite length_app in Hdl. simpl in Hdl.
    eexists. split; [reflexivity|]. split; [|done]. exists ini, lst, d. simpl.
    split_and!; try done; [lia|lia|right; lia|by rewrite wrap64_small by lia].
Qed.

(** ** Properties *)

(** What a producer and a consumer do with one buffer.  [BProduce] reserves
    room, fills it through [writePtr()] and advances. *)
Inductive bop : Type :=
| BWrite (data : list Z)
| BProduce (data : list Z)
| BReserve (n : Z)
| BConsume (n : Z).

Definition run_bop (o : bop) : M Buffer unit :=
  match o with
  | BWrite data => write data
  | BProduce data =>
    reserve (Z.of_nat (length data));; poke data;; advance (Z.of_nat (length data));; mret tt
  | BReserve n => reserve n;; mret tt
  | BConsume n => consume n
  end.

Fixpoint run_bops (l : list bop) : M Buffer unit :=
  match l with [] => mret tt | o :: l' => run_bop o;; run_bops l' end.

(** The same calls on a queue of bytes. *)
Definition queue_bop (q : list Z) (o : bop) : list Z :=
  match o with
  | BWrite data | BProduce data => q ++ data
  | BReserve _ => q
  | BConsume n => drop (Z.to_nat n) q
  end.

Definition valid_bop (o : bop) : Prop :=
  match o with
  | BWrite _ => True
  | BProduce data => data ≠ [] ∧ Z.of_nat (length data) ≤ BlockSize
  | BReserve n | BConsume n => 0 ≤ n
  end.

Lemma run_bop_ok b q o :
  holds b q → valid_bop o → ∃ b', run_bop o b = Ok tt b' ∧ holds b' (queue_bop q o).
Proof.
  intros Hb Hv. destruct o as [data|data|n|n]; simpl in *.
  - destruct (write_ok b q data Hb) as (b' & ? & ? & _). eauto.
  - destruct Hv as [Hne Hlen].
    pose proof (reserve_ok b q (Z.of_nat (length data)) Hb ltac:(lia)) as Hres.
    destruct (Z.leb_spec (Z.of_nat (length data)) BlockSize); [|lia].
    destruct Hres as (b1 & Hr1 & Hb1 & Hw1). rewrite (bind_ok _ _ _ _ _ Hr1).
    destruct (poke_advance_ok b1 q data Hb1 Hne Hw1) as (b2 & Hr2 & Hb2).
    exists b2. split; [|done]. revert Hr2. unfold mbind, M_bind.
    destruct (poke data b1); [|done]. by intros ->.
  - pose proof (reserve_ok b q n Hb Hv) as Hres. destruct (n <=? BlockSize).
    + destruct Hres as (b1 & Hr1 & Hb1 & _). exists b1. by rewrite (bind_ok _ _ _ _ _ Hr1).
    + exists b. by rewrite (bind_ok _ _ _ _ _ Hres).
  - by apply consume_ok.
Qed.

Lemma buffer_run ops :
  Forall valid_bop ops →
  ∃ b, run_bops ops Buffer_init = Ok tt b ∧ holds b (foldl queue_bop [] ops).
Proof.
  intros Hv. assert (Hgen : ∀ b q, holds b q →
    ∃ b', run_bops ops b = Ok tt b' ∧ holds b' (foldl queue_bop q ops)).
  { induction Hv as [|o ops Ho _ IH]; intros b q Hb; simpl; [by exists b|].
    destruct (run_bop_ok b q o Hb Ho) as (b1 & Hr1 & Hb1). rewrite (bind_ok _ _ _ _ _ Hr1).
    by apply IH. }
  apply Hgen, holds_init.
Qed.

Lemma byteCount_state b n b' : byteCount b = Ok n b' → b' = b.
Proof.
  unfold byteCount, readSize, size_at, mbind, M_bind. destruct (sizes_ b !! _); [|done].
  simpl. by intros [= _ <-].
Qed.

(** *** What a reader sees *)

(** The bytes from [readPtr()] on that [readSize()] announces. *)
Definition visible (b : Buffer) : option (list Z) :=
  match readSize b, chunks_ b !! idx (rpos_ b) with
  | Ok rs _, Some c => mapM id (take (Z.to_nat rs) (drop (Z.to_nat (off (rpos_ b))) c))
  | _, _ => None
  end.

(** The reader is at the end of a chunk that is not the last one. *)
Definition at_chunk_end (b : Buffer) : Prop :=
  (idx (rpos_ b) < idx (wpos_ b))%nat ∧ sizes_ b !! idx (rpos_ b) = Some (off (rpos_ b)).

Lemma mapM_Some (d : list Z) : mapM id (Some <$> d) = Some d.
Proof. induction d as [|x d IH]; [done|]. change (mapM id (Some <$> x :: d)) with (v ← mapM id (Some <$> d); Some (x :: v)). by rewrite IH. Qed.

Lemma visible_ok b l : holds b l → ∃ v, visible b = Some v ∧ readSize b = Ok (Z.of_nat (length v)) b ∧ v `prefix_of` l ∧
  (v = [] → l = [] ∨ at_chunk_end b).
Proof.
  intros (ini & lst & Hb & ->). destruct (readSize_eq Hb) as (d & Hd & Ho & Hrs).
  destruct (Forall2_lookup_r _ _ _ _ _ (br_chunks _ _ _ Hb) Hd) as (c & Hc & Hlen & Hle & Ht).
  assert (Ev : visible b = Some (drop (Z.to_nat (off (rpos_ b))) d)).
  { unfold visible. rewrite Hrs, Hc, take_drop_commute.
    replace (Z.to_nat (off (rpos_ b)) + Z.to_nat (Z.of_nat (length d) - off (rpos_ b)))%nat with (length d) by lia.
    rewrite Ht, <- fmap_drop. apply mapM_Some. }
  exists (drop (Z.to_nat (off (rpos_ b))) d). split_and!; [done|rewrite Hrs; f_equal; rewrite length_drop; lia| |].
  - rewrite (content_head Hb d Hd). by apply prefix_app_r.
  - intros E. apply (f_equal length) in E. rewrite length_drop in E. cbn in E. assert (Eo : off (rpos_ b) = Z.of_nat (length d)) by lia.
    destruct (decide (idx (rpos_ b) < length ini)%nat) as [Hi|Hi].
    + right. split; [by rewrite (br_wpos _ _ _ Hb)|]. by rewrite (size_lookup Hb _ _ Hd), Eo.
    + left. pose proof (lookup_lt_Some _ _ _ Hd) as Hlt. rewrite length_app in Hlt. cbn in Hlt.
      rewrite (content_head Hb d Hd). rewrite drop_ge by lia.
      by rewrite drop_ge by (rewrite length_app; cbn; lia).
Qed.

(** *** Buffers that take over the bytes of others *)

(** A call on a buffer; the source of [copyFrom] and [appendFrom] is a buffer on which the
    calls [os] were made. *)
Inductive call : Type :=
| Own (o : bop)
| CopyFrom (os : list bop)
| AppendFrom (os : list bop).

Definition run_call (c : call) : M Buffer unit := λ this,
  match c with
  | Own o => run_bop o this
  | CopyFrom os =>
    match run_bops os Buffer_init with Ok _ other => copyFrom this other | Err e => Err e end
  | AppendFrom os =>
    match run_bops os Buffer_init with
    | Ok _ other => match appendFrom this other with Ok this' _ => Ok tt this' | Err e => Err e end
    | Err e => Err e
    end
  end.

Fixpoint run_calls (l : list call) : M Buffer unit :=
  match l with [] => mret tt | c :: l' => run_call c;; run_calls l' end.

Definition queue_call (q : list Z) (c : call) : list Z :=
  match c with
  | Own o => queue_bop q o
  | CopyFrom os | AppendFrom os => q ++ foldl queue_bop [] os
  end.

(** A source must not have been read from. *)
Definition unread (os : list bop) : Prop :=
  match run_bops os Buffer_init with Ok _ other => isConsumed other = false | Err _ => True end.

Definition valid_call (c : call) : Prop :=
  match c with
  | Own o => valid_bop o
  | CopyFrom os | AppendFrom os => Forall valid_bop os ∧ unread os
  end.

Lemma run_call_ok b q c : holds b q → valid_call c → ∃ b', run_call c b = Ok tt b' ∧ holds b' (queue_call q c).
Proof.
  intros Hb Hv. destruct c as [o|os|os]; cbn in Hv |- *; [by apply run_bop_ok|..];
    destruct Hv as [Hv Hu]; destruct (buffer_run os Hv) as (other & Hr & Ho); unfold unread in Hu; rewrite Hr in Hu |- *.
  - by apply copyFrom_ok.
  - destruct (appendFrom_ok b other _ _ Hb Ho Hu) as (b' & other' & -> & Hb' & _). by exists b'.
Qed.

Lemma calls_run cs b q : Forall valid_call cs → holds b q → ∃ b', run_calls cs b = Ok tt b' ∧ holds b' (foldl queue_call q cs).
Proof.
  intros Hv. revert b q. induction Hv as [|c cs Hc _ IH]; intros b q Hb; cbn; [by exists b|].
  destruct (run_call_ok b q c Hb Hc) as (b1 & Hr1 & Hb1). rewrite (bind_ok _ _ _ _ _ Hr1). by apply IH.
Qed.

(** C4: a buffer is a FIFO queue of bytes.  Any sequence of calls that write, reserve room
    and fill it, consume (also beyond the end), copy from or append another buffer that was
    not read from, succeeds; the unread bytes are those that the same calls leave in a
    queue, across chunk boundaries.  What [readPtr()] and [readSize()] show are the first of
    these bytes; they show none only when the queue is empty or the reader stands at the end
    of a chunk that is not the last one, as in [full_chunk_stuck].  (The source of
    [appendFrom] is not used again; [append_breaks_source] shows what may happen if it is.) *)
Theorem buffer_refines_queue cs :
  Forall valid_call cs →
  let q := foldl queue_call [] cs in
  ∃ b v, run_calls cs Buffer_init = Ok tt b ∧ holds b q ∧
    visible b = Some v ∧ readSize b = Ok (Z.of_nat (length v)) b ∧ v `prefix_of` q ∧
    (v = [] → q = [] ∨ at_chunk_end b).
Proof.
  intros Hv q. destruct (calls_run cs Buffer_init [] Hv holds_init) as (b & Hr & Hb).
  destruct (visible_ok b _ Hb) as (v & ?). by exists b, v.
Qed.

Lemma buffer_refines_queue_witness :
  ∃ b v, run_calls [Own (BProduce [1; 2]); CopyFrom [BWrite [3]]; Own (BConsume 2); AppendFrom [BWrite [4]]] Buffer_init = Ok tt b ∧
    holds b [3; 4] ∧ visible b = Some v ∧ v `prefix_of` [3; 4].
Proof.
  destruct (buffer_refines_queue [Own (BProduce [1; 2]); CopyFrom [BWrite [3]]; Own (BConsume 2); AppendFrom [BWrite [4]]])
    as (b & v & H1 & H2 & H3 & _ & H4 & _).
  - repeat (apply Forall_cons; split); try apply Forall_nil; cbn; try exact I; unfold BlockSize;
      [split; [discriminate|lia]|split; [repeat constructor|vm_compute; reflexivity]|lia|split; [repeat constructor|vm_compute; reflexivity]].
  - exists b, v. exact (conj H1 (conj H2 (conj H3 H4))).
Defined.

(** [appendFrom] moves and [copyFrom] copies: both put the bytes of
    [other] behind those of [this]; after [appendFrom] a source whose last chunk
    was not empty is an empty buffer again. *)
Theorem append_and_copy this other l1 l2 :
  holds this l1 → holds other l2 → isConsumed other = false →
  (∃ this' other', appendFrom this other = Ok this' other' ∧ holds this' (l1 ++ l2) ∧
     (off (wpos_ other) ≠ 0 → holds other' [])) ∧
  (∃ this', copyFrom this other = Ok tt this' ∧ holds this' (l1 ++ l2)).
Proof.
  intros H1 H2 Hc. split; [|by apply copyFrom_ok].
  destruct (appendFrom_ok this other l1 l2 H1 H2 Hc) as (this' & other' & Hrun & Hh & Hcase).
  exists this', other'. split_and!; [done..|]. intros Hoff.
  destruct Hcase as [(-> & _ & ->)|[(_ & _ & ->)|(_ & ? & _)]]; [done|apply holds_init|done].
Qed.

Lemma append_and_copy_witness :
  ∃ this', copyFrom Buffer_init Buffer_init = Ok tt this' ∧ holds this' [].
Proof. exact (proj2 (append_and_copy Buffer_init Buffer_init [] [] holds_init holds_init eq_refl)). Defined.

(** when the last chunk of the source is empty, that is after a multiple of
    4096 bytes was written, [appendFrom] leaves the source with a write position
    outside its chunks: the next write to it is out of bounds. *)
Theorem append_breaks_source this other l1 l2 data :
  holds this l1 → holds other l2 → isConsumed other = false →
  l2 ≠ [] → off (wpos_ other) = 0 → data ≠ [] →
  ∃ this' other' i, appendFrom this other = Ok this' other' ∧
    write data other' = Err (OutOfBounds i).
Proof.
  intros H1 H2 Hc Hne Hoff Hd.
  destruct (appendFrom_ok this other l1 l2 H1 H2 Hc) as (this' & other' & Hrun & _ & Hcase).
  destruct Hcase as [(-> & _)|[(_ & ? & _)|(_ & _ & Hi & Hw & Hlen)]]; [done|done|].
  exists this', other', (Z.of_nat (idx (wpos_ other))). split; [done|].
  unfold write. rewrite Nat.add_comm. destruct data as [|x data]; [done|]. cbn [write_loop Nat.add].
  rewrite (bind_ok _ _ _ _ _ (gets_ok _ _)), (bind_ok _ _ _ _ _ (gets_ok _ _)).
  apply bind_err. unfold store_at. rewrite Hw, lookup_ge_None_2 by lia. done.
Qed.

Lemma append_breaks_source_witness :
  ∃ b this' other' i, run_bops [BWrite (replicate 4096 7)] Buffer_init = Ok tt b ∧
    appendFrom Buffer_init b = Ok this' other' ∧ write [1] other' = Err (OutOfBounds i).
Proof.
  destruct (write_ok Buffer_init [] (replicate 4096 7) holds_init) as (b & Hrun & Hh & _).
  assert (Hchk : match write (replicate 4096 7) Buffer_init with
                 | Ok _ b => (off (wpos_ b) =? 0) && negb (isConsumed b) | Err _ => false end = true)
    by (vm_compute; reflexivity).
  rewrite Hrun in Hchk. apply andb_true_iff in Hchk as [Hoff%Z.eqb_eq Hcon%negb_true_iff].
  destruct (append_breaks_source Buffer_init b [] (replicate 4096 7) [1] holds_init Hh Hcon
    ltac:(discriminate) Hoff ltac:(discriminate)) as (this' & other' & i & H1 & H2).
  exists b, this', other', i. split_and!; [|exact H1|exact H2].
  cbn [run_bops run_bop]. rewrite (bind_ok _ _ _ _ _ Hrun). reflexivity.
Defined.

(** [n] calls of [next()]. *)
Fixpoint nexts (n : nat) (it : Iterator) : M Buffer Iterator :=
  match n with O => mret it | S n' => it' ← next it; nexts n' it' end.

Lemma nexts_ok n b it l :
  irep b it l → (n ≤ length l)%nat →
  ∃ it', nexts n it b = Ok it' b ∧ irep b it' (drop n l) ∧
    bytes_read_ it' = bytes_read_ it + Z.of_nat n.
Proof.
  revert it l. induction n as [|n IH]; intros it l Hit Hn.
  { exists it. rewrite Z.add_0_r. done. }
  destruct l as [|x l]; [simpl in Hn; lia|]. simpl in Hn.
  destruct (next_ok b it x l Hit) as (it1 & Hr1 & Hit1 & Hb1 & _).
  cbn [nexts]. rewrite (bind_ok _ _ _ _ _ Hr1).
  destruct (IH it1 l Hit1 ltac:(lia)) as (it' & Hr & Hit' & Hb'). exists it'.
  split_and!; [done|done|lia].
Qed.

(** the iterator enumerates the unread bytes: after [n] calls of [next()]
    it is at the end iff [n] is their number, and otherwise reads the [n]-th. *)
Theorem iterator_enumerates b l n :
  holds b l → ready b → idx (rpos_ b) = O → Z.of_nat (length l) < 2 ^ 64 → (n ≤ length l)%nat →
  ∃ it it', begin_ b = Ok it b ∧ nexts n it b = Ok it' b ∧
    bytes_read_ it' = Z.of_nat n ∧
    (eob b it' = true ↔ n = length l) ∧
    (∀ x, l !! n = Some x → getChar it' b = Ok x b).
Proof.
  intros Hh Hr Hi Hl Hn. destruct (begin_ok b l Hh Hr Hi Hl) as (it & Hbeg & Hit & Hb0 & _).
  destruct (nexts_ok n b it l Hit Hn) as (it' & Hrun & Hit' & Hb').
  exists it, it'. split_and!; [done|done|lia| |].
  - rewrite (eob_ok _ _ _ Hit'). case_decide as E; split; try done.
    + intros _. apply (f_equal length) in E. rewrite length_drop in E. simpl in E. lia.
    + intros ->. by rewrite drop_all in E.
  - intros x Hx. rewrite (drop_S _ _ _ Hx) in Hit'. by eapply getChar_ok.
Qed.

Lemma iterator_enumerates_witness :
  ∃ b it it', run_bops [BWrite [5; 6]] Buffer_init = Ok tt b ∧
    begin_ b = Ok it b ∧ nexts 1 it b = Ok it' b ∧ getChar it' b = Ok 6 b.
Proof.
  destruct (write_ok Buffer_init [] [5; 6] holds_init) as (b & Hrun & Hh & Hr).
  assert (Hready : ready b).
  { assert (Hchk : match write [5; 6] Buffer_init with
                   | Ok _ b => match readSize b with Ok rs _ => rs =? 2 | Err _ => false end
                   | Err _ => false end = true) by (vm_compute; reflexivity).
    rewrite Hrun in Hchk. destruct Hh as (ini & lst & Hb & _).
    destruct (readSize_eq Hb) as (d & _ & _ & Hrs). rewrite Hrs in Hchk. eexists. split; [exact Hrs|].
    left. apply Z.eqb_eq in Hchk. rewrite Hchk. discriminate. }
  destruct (iterator_enumerates b [5; 6] 1 Hh Hready) as (it & it' & H1 & H2 & _ & _ & H3).
  - rewrite Hr. reflexivity.
  - simpl. lia.
  - simpl. lia.
  - exists b, it, it'. split_and!; [|exact H1|exact H2|apply H3; reflexivity].
    cbn [run_bops run_bop]. rewrite (bind_ok _ _ _ _ _ Hrun). reflexivity.
Defined.

(** [byteCount()] counts wrong after [appendFrom] to a buffer that was read
    to its end: the read position moves to the second chunk, and the bytes of
    that chunk are counted twice. *)
Theorem byteCount_doubles :
  ∃ this other this' other' l,
    run_bops [BWrite (replicate 10 1); BConsume 10] Buffer_init = Ok tt this ∧
    run_bops [BWrite (replicate 5 2)] Buffer_init = Ok tt other ∧
    appendFrom this other = Ok this' other' ∧ holds this' l ∧ length l = 5%nat ∧
    byteCount this' = Ok 10 this'.
Proof.
  destruct (run_bops [BWrite (replicate 10 1); BConsume 10] Buffer_init) as [[] this|] eqn:E1;
    [|by vm_compute in E1].
  destruct (run_bops [BWrite (replicate 5 2)] Buffer_init) as [[] other|] eqn:E2;
    [|by vm_compute in E2].
  assert (H1 : holds this []).
  { destruct (buffer_run [BWrite (replicate 10 1); BConsume 10] ltac:(repeat constructor; done))
      as (b & Hr & Hh). rewrite E1 in Hr. apply Ok_inj in Hr as [_ <-]. exact Hh. }
  assert (H2 : holds other (replicate 5 2)).
  { destruct (buffer_run [BWrite (replicate 5 2)] ltac:(repeat constructor))
      as (b & Hr & Hh). rewrite E2 in Hr. apply Ok_inj in Hr as [_ <-]. exact Hh. }
  assert (Hchk : match run_bops [BWrite (replicate 10 1); BConsume 10] Buffer_init,
                       run_bops [BWrite (replicate 5 2)] Buffer_init with
    | Ok _ this, Ok _ other => negb (isConsumed other) &&
        match appendFrom this other with
        | Ok this' _ => returns (byteCount this') 10 | Err _ => false end
    | _, _ => false end = true) by (vm_compute; reflexivity).
  rewrite E1, E2 in Hchk. apply andb_true_iff in Hchk as [Hc%negb_true_iff Hchk].
  destruct (appendFrom_ok this other _ _ H1 H2 Hc) as (this' & other' & Hrun & Hh & _).
  rewrite Hrun in Hchk. exists this, other, this', other', (replicate 5 2). split_and!; try done.
  destruct (byteCount this') as [n b|] eqn:Eb; [|done]. apply Z.eqb_eq in Hchk as ->.
  by rewrite (byteCount_state _ _ _ Eb).
Qed.

Lemma begin_state b it b' : begin_ b = Ok it b' → b' = b.
Proof.
  unfold begin_, getBudget, byteCount, readSize, size_at, mbind, M_bind, gets. simpl.
  destruct (sizes_ b !! _) eqn:E; [|done]. simpl. rewrite E. by intros [= _ <-].
Qed.

Lemma readSize_state b n b' : readSize b = Ok n b' → b' = b.
Proof. unfold readSize, size_at, mbind, M_bind. destruct (sizes_ b !! _); [|done]. by intros [= _ <-]. Qed.

(** a chunk filled exactly by [advance()] and then consumed leaves the
    reader stuck when more data is written: there is an unread byte, but
    [readSize()] is 0 and the iterator reads outside the chunk. *)
Theorem full_chunk_stuck :
  ∃ b it, run_bops [BProduce (replicate 4096 1); BConsume 4096; BWrite [9]] Buffer_init = Ok tt b ∧
    holds b [9] ∧ readSize b = Ok 0 b ∧ begin_ b = Ok it b ∧ eob b it = false ∧
    getChar it b = Err (OutOfBounds 4096).
Proof.
  set (ops := [BProduce (replicate 4096 1); BConsume 4096; BWrite [9]]).
  destruct (buffer_run ops) as (b & Hrun & Hh).
  { repeat constructor; done. }
  assert (E9 : foldl queue_bop [] ops = [9]) by (vm_compute; reflexivity). rewrite E9 in Hh.
  assert (Hchk : match run_bops ops Buffer_init with
    | Ok _ b => returns (readSize b) 0 &&
        match begin_ b with
        | Ok it _ => negb (eob b it) &&
            out_of_bounds (getChar it b) 4096
        | Err _ => false end
    | Err _ => false end = true) by (vm_compute; reflexivity).
  rewrite Hrun in Hchk. apply andb_true_iff in Hchk as [Hrs Hchk].
  destruct (begin_ b) as [it b'|] eqn:Eb; [|done].
  apply andb_true_iff in Hchk as [He%negb_true_iff Hg].
  apply (returns_ok b) in Hrs. pose proof (readSize_state _ _ _ Hrs) as Es. rewrite Es in Hrs.
  exists b, it. rewrite (begin_state _ _ _ Eb) in Eb. split_and!; try assumption.
  by apply out_of_bounds_true.
Qed.
