(* ===== verification/BufferStream.v ===== *)
(** * A buffer as the input of a parser

    A buffer from which an iterator can be taken: the read position is in the
    first chunk, and not behind the last byte of a chunk that is followed by
    another one.  What a connection does with its input buffer keeps it so. *)

From S2P Require Import Prelude Buffer BufferSpec.
From stdpp Require Import base numbers list gmap sorting.
Open Scope Z_scope.

Definition parsable (b : Buffer) (l : list Z) : Prop := holds b l ∧ ready b ∧ idx (rpos_ b) = O.

Lemma ready_tidy b ini lst : brep b ini lst → ready b ↔ tidy ini lst (rpos_ b).
Proof.
  intros Hb. destruct (readSize_eq Hb) as (d & Hd & Ho & Hrs). unfold ready, tidy. rewrite (br_wpos _ _ _ Hb). split.
  - intros (rs & E & Hor). rewrite Hrs in E. injection E as <-.
    destruct Hor as [?|[E1%Nat.eqb_eq _]%andb_true_iff]; [right; exists d; split; [done|lia]|by left].
  - intros Ht. eexists. split; [exact Hrs|]. destruct (decide (off (rpos_ b) = Z.of_nat (length d))) as [E|E]; [|left; lia].
    right. destruct Ht as [Hi|(d' & Hd' & Ho')]; [|simplify_eq; lia].
    rewrite Hi in Hd. rewrite lst_lookup in Hd. simplify_eq. unfold pos_eqb. cbn. by rewrite Hi, E, Nat.eqb_refl, Z.eqb_refl.
Qed.

Lemma parsable_init : parsable Buffer_init [].
Proof. split; [apply holds_init|]. split; [|done]. eexists. split; [reflexivity|]. by right. Qed.

Lemma parsable_consume b l n : parsable b l → 0 ≤ n → ∃ b', consume n b = Ok tt b' ∧ parsable b' (drop (Z.to_nat n) l).
Proof.
  intros ((ini & lst & Hb & ->) & Hr & Hi) Hn.
  destruct (consume_brep b ini lst n Hb Hn) as (b' & ini' & lst' & Hrun & Hb' & Hc & Hidx & Ht).
  exists b'. split; [done|]. split; [by exists ini', lst'|]. split; [|congruence].
  apply (ready_tidy b' ini' lst' Hb'), Ht, (ready_tidy b ini lst Hb), Hr.
Qed.

Lemma parsable_fill b l data : parsable b l → data ≠ [] → Z.of_nat (length data) ≤ writeSize b →
  ∃ b', (poke data;; advance (Z.of_nat (length data))) b = Ok true b' ∧ parsable b' (l ++ data).
Proof.
  intros (Hh & (rs & Hrs & Hor) & Hi) Hne Hw. destruct (poke_advance_ok b l data Hh Hne Hw) as (b' & Hrun & Hh').
  exists b'. split; [done|]. split; [done|].
  pose proof Hh as (ini & lst & Hb & _). rewrite (writeSize_eq Hb) in Hw. pose proof (lst_le Hb) as Hle.
  assert (Hlen : 1 ≤ Z.of_nat (length data)) by (destruct data; [done|cbn; lia]).
  assert (Hb'r : rpos_ b' = rpos_ b ∧ sizes_ b' = <[length ini := Z.of_nat (length lst) + Z.of_nat (length data)]> (sizes_ b)).
  { revert Hrun. destruct (chunk_last _ _ _ Hb) as (c & Hc & _). unfold poke, store_at, mbind, M_bind.
    rewrite (br_wpos _ _ _ Hb). simpl. rewrite Hc. unfold BlockSize.
    destruct (Z.leb_spec (Z.of_nat (length lst) + Z.of_nat (length data)) 4096); [|lia].
    unfold advance, writeSize, BlockSize. simpl. destruct (Z.leb_spec (Z.of_nat (length data)) 0); [lia|].
    rewrite wrap64_small by lia. destruct (Z.leb_spec (Z.of_nat (length data)) (4096 - Z.of_nat (length lst))); [|lia].
    unfold add_size, mbind, M_bind. simpl. rewrite (size_lookup Hb _ _ (lst_lookup ini lst)).
    rewrite wrap64_small by lia. by intros [= <-]. }
  destruct Hb'r as [Er Es]. rewrite Er. split; [|done].
  destruct (readSize_eq Hb) as (d & Hd & Ho & Hrs'). rewrite Hrs in Hrs'. injection Hrs' as ->.
  unfold ready, readSize, size_at, mbind, M_bind. rewrite Es, Er. destruct (decide (idx (rpos_ b) = length ini)) as [E|E].
  - rewrite E, list_lookup_insert_eq by (rewrite (br_sizes _ _ _ Hb), length_fmap, length_app; cbn; lia).
    eexists. split; [reflexivity|]. left. rewrite E, lst_lookup in Hd. simplify_eq. rewrite wrap64_small by lia. lia.
  - rewrite list_lookup_insert_ne by done. rewrite (size_lookup Hb _ _ Hd). eexists. split; [reflexivity|]. left.
    pose proof (chunk_le Hb d ltac:(apply list_elem_of_lookup; eauto)). rewrite wrap64_small by lia.
    destruct Hor as [?|[E1%Nat.eqb_eq _]%andb_true_iff]; [done|]. by rewrite (br_wpos _ _ _ Hb) in E1.
Qed.

Lemma parsable_reserve b l n : parsable b l → 0 ≤ n ≤ BlockSize →
  ∃ b', reserve n b = Ok true b' ∧ parsable b' l ∧ n ≤ writeSize b'.
Proof.
  intros (Hh & Hr & Hi) Hn. pose proof (reserve_ok b l n Hh ltac:(lia)) as Hres.
  destruct (Z.leb_spec n BlockSize); [|lia]. destruct Hres as (b' & Hrun & Hh' & Hw'). exists b'.
  split; [done|]. split; [|done]. split; [done|]. destruct Hr as (rs & Hrs & Hor).
  revert Hrun. unfold reserve. destruct (Z.ltb_spec BlockSize n); [lia|].
  destruct (n <=? writeSize b); [by intros [= <-]; split; [exists rs|]|].
  pose proof Hh as (ini & lst & Hb & _).
  unfold addChunk, mbind, M_bind, modify. cbn. destruct (pos_eqb (rpos_ b) (wpos_ b)) eqn:Ep; cbn.
  - rewrite length_app, (chunk_count Hb). cbn. intros [= <-]. cbn.
    apply andb_true_iff in Ep as [E1%Nat.eqb_eq _]. rewrite (br_wpos _ _ _ Hb), Hi in E1. cbn in E1. rewrite <- E1. cbn.
    split; [|done]. destruct ini; [|done]. pose proof (br_sizes _ _ _ Hb) as Hsz. cbn in Hsz.
    unfold ready, readSize, size_at, mbind, M_bind. cbn. rewrite Hsz. cbn. eexists. split; [reflexivity|]. by right.
  - intros [= <-]. cbn. split; [|done]. destruct Hor as [Hrs0|]; [|congruence].
    revert Hrs. unfold ready, readSize, size_at, mbind, M_bind. cbn. destruct (sizes_ b !! idx (rpos_ b)) as [sz|] eqn:Es; [|done].
    intros [= <-]. rewrite (lookup_app_l_Some _ _ _ _ Es). eexists. split; [reflexivity|]. by left.
Qed.
