(* ===== verification/CppString.v ===== *)
(** * Byte strings

    What the components use of [std::string] and of number extraction from a
    stream: strings are lists of bytes. *)

From S2P Require Import Prelude.
From stdpp Require Import base numbers list gmap sorting strings.
From Stdlib Require Import Ascii.
Open Scope Z_scope.

(** A [std::string] is a list of bytes. *)
Abbreviation str := (list Z) (only parsing).

Definition bytes (s : string) : str :=
  (λ a : ascii, Z.of_N (N_of_ascii a)) <$> String.list_ascii_of_string s.

(** [s.c_str()] converted to a [MemPiece]: [strlen] stops at the first NUL. *)
Fixpoint c_str (s : str) : str :=
  match s with
  | [] => []
  | c :: s' => if c =? 0 then [] else c :: c_str s'
  end.

(** [s.find(needle)] *)
Fixpoint string_find (needle s : str) : option nat :=
  if decide (take (length needle) s = needle) then Some O else
  match s with
  | [] => None
  | _ :: s' => S <$> string_find needle s'
  end.

(** [istringstream is(s); is >> n] for a [size_t n]: white space is skipped, a
    sign is accepted, a number that does not fit gives the largest value, and 0 is stored
    when there is no number (as from C++11 on).  When nothing but white space is there the
    extraction does not begin, and [n] keeps its value [old]. *)
Definition is_space (c : Z) : bool := (c =? 32) || ((9 <=? c) && (c <=? 13)).
Definition is_digit (c : Z) : bool := (48 <=? c) && (c <=? 57).

Fixpoint skip_spaces (s : str) : str :=
  match s with
  | [] => []
  | c :: s' => if is_space c then skip_spaces s' else s
  end.

Fixpoint digits (acc : Z) (s : str) : Z :=
  match s with
  | [] => acc
  | c :: s' => if is_digit c then digits (10 * acc + (c - 48)) s' else acc
  end.

Definition extract_size (old : Z) (s : str) : Z :=
  match skip_spaces s with
  | [] => old
  | c :: s' =>
    let '(neg, s') := if c =? 45 then (true, s') else if c =? 43 then (false, s') else (false, c :: s') in
    let n := digits 0 s' in
    if 2 ^ 64 <=? n then 2 ^ 64 - 1 else if neg then wrap64 (- n) else n
  end.
