(* ===== verification/HttpParser.v ===== *)
(** * The HTTP parser ([http_parser.cpp], [http_request.cpp], [http_response.hpp])

    The parser reads characters from a buffer iterator and throws
    [IncompleteInput] or [ErrorInRequest].  It is modelled over an interface of
    iterators ([Input]); the laws of the interface ([InputLaws]) are
    discharged for the iterator of [Buffer].  Loops take fuel; more fuel than
    there are characters left is always enough. *)

From S2P Require Import Prelude CppString Buffer BufferSpec.
From stdpp Require Import base numbers list gmap sorting strings.
Open Scope Z_scope.

(** ** Characters *)

Definition SP : Z := 32.
Definition SLASH : Z := 47.
Definition CR : Z := 13.
Definition LF : Z := 10.
Definition CRLF : str := [CR; LF].

(** ** Requests and responses *)

Record Request : Type := mkRequest { method : str; address : str; version : str }.

Definition Request_clear : Request := mkRequest [] [] [].

Definition cloneFrom (other : Request) : Request :=
  mkRequest (method other) (address other) (version other).

Definition toBuffer (r : Request) : M Buffer unit :=
  write (c_str (method r));;
  write (bytes " ");;
  write (c_str (address r));;
  write (bytes " ");;
  write (c_str (version r));;
  write (CRLF ++ CRLF).

Record Response : Type := mkResponse { statusLine : str; headerRemainder : str; body : str }.

Definition Response_clear : Response := mkResponse [] [] [].

(** ** Code that may throw *)

Inductive exn : Type := IncompleteInput | ErrorInRequest | out_of_range.

Inductive pres (S A : Type) : Type :=
| Done (a : A) (s : S)
| Throw (x : exn) (s : S)
| PFault (e : fault).
Arguments Done {S A} a s.
Arguments Throw {S A} x s.
Arguments PFault {S A} e.

Definition P (S A : Type) : Type := S → pres S A.

#[export] Instance P_ret {S} : MRet (P S) := λ A a s, Done a s.
#[export] Instance P_bind {S} : MBind (P S) := λ A B k c s,
  match c s with Done a s' => k a s' | Throw x s' => Throw x s' | PFault e => PFault e end.

Definition throw {S A} (x : exn) : P S A := λ s, Throw x s.
Definition crash {S A} (e : fault) : P S A := λ _, PFault e.

Definition lift {S A} (c : M S A) : P S A := λ s,
  match c s with Ok a s' => Done a s' | Err e => PFault e end.

(** The code [c] works on a part of the state. *)
Definition pzoom {S T A} (getp : S → T) (putp : T → S → S) (c : P T A) : P S A := λ s,
  match c (getp s) with
  | Done a t => Done a (putp t s)
  | Throw x t => Throw x (putp t s)
  | PFault e => PFault e
  end.

(** ** The iterator the parser reads from *)

Class Input (I : Type) : Type := {
  in_eob : I → bool;
  in_getChar : M I Z;
  in_next : M I unit;
  in_bytesTotal : I → Z;
  in_bytesRead : I → Z;
}.

(** The iterator of a buffer; it only reads the buffer. *)
Definition buffer_input (b : Buffer) : Input Iterator := {|
  in_eob := eob b;
  in_getChar := λ it, match getChar it b with Ok c _ => Ok c it | Err e => Err e end;
  in_next := λ it, match next it b with Ok it' _ => Ok tt it' | Err e => Err e end;
  in_bytesTotal := bytes_total_;
  in_bytesRead := bytes_read_;
|}.

(** ** The parser *)

Section parser.
Context {I : Type} `{Input I}.

(** The state of a function that parses into a string. *)
Definition PS : Type := I * str.

Definition at_eob : P PS bool := λ s, Done (in_eob s.1) s.
Definition peek : P PS Z := pzoom fst (λ i s, (i, s.2)) (lift in_getChar).
Definition step : P PS unit := pzoom fst (λ i s, (i, s.2)) (lift in_next).
Definition push_back (c : Z) : P PS unit := λ s, Done tt (s.1, s.2 ++ [c]).

(** [if (in->eob()) throw IncompleteInput();] *)
Definition need_input : P PS unit :=
  e ← at_eob; if e : bool then throw IncompleteInput else mret tt.

Fixpoint string_loop (fuel : nat) : P PS unit :=
  match fuel with
  | O => crash OutOfFuel
  | S fuel' =>
    e ← at_eob;
    if e : bool then mret tt else
    c ← peek;
    if c =? SP then mret tt else
    if c =? CR then mret tt else
    push_back c;; step;; string_loop fuel'
  end.

Definition parseString (fuel : nat) : P PS unit :=
  need_input;; string_loop fuel;; need_input.

(** The loop of [parseLine]; [true]: a whole line was read. *)
Fixpoint line_loop (fuel : nat) : P PS bool :=
  match fuel with
  | O => crash OutOfFuel
  | S fuel' =>
    e ← at_eob;
    if e : bool then mret false else
    c ← peek;
    if c =? CR then
      step;;
      c2 ← peek;
      if c2 =? LF then step;; mret true else throw ErrorInRequest
    else push_back c;; step;; line_loop fuel'
  end.

Definition parseLine (fuel : nat) : P PS unit :=
  need_input;;
  done ← line_loop fuel;
  if done : bool then mret tt else need_input.

Definition skipChar (skip : Z) : P PS unit :=
  need_input;;
  c ← peek;
  if negb (c =? skip) then throw ErrorInRequest else step.

Definition skipNewLine : P PS unit :=
  need_input;;
  first ← peek;
  step;;
  need_input;;
  second ← peek;
  if negb (first =? CR) || negb (second =? LF) then throw ErrorInRequest else step.

Definition isEmptyLine (line : str) : bool :=
  (length line =? 2)%nat && bool_decide (line = CRLF).

(** *** Requests *)

Definition into_method : P PS unit → P (I * Request) unit :=
  pzoom (λ s, (s.1, method s.2)) (λ t s, (t.1, mkRequest t.2 (address s.2) (version s.2))).
Definition into_address : P PS unit → P (I * Request) unit :=
  pzoom (λ s, (s.1, address s.2)) (λ t s, (t.1, mkRequest (method s.2) t.2 (version s.2))).
Definition into_version : P PS unit → P (I * Request) unit :=
  pzoom (λ s, (s.1, version s.2)) (λ t s, (t.1, mkRequest (method s.2) (address s.2) t.2)).

(** Runs [c] on a local string that starts empty and returns the string. *)
Definition local {R} (c : P PS unit) : P (I * R) str := λ s,
  match c (s.1, []) with
  | Done _ t => Done t.2 (t.1, s.2)
  | Throw x t => Throw x (t.1, s.2)
  | PFault e => PFault e
  end.

(** [while (true)]: skips header lines up to the empty one. *)
Fixpoint header_loop (fuel : nat) : P (I * Request) unit :=
  match fuel with
  | O => crash OutOfFuel
  | S fuel' =>
    dummy ← local (parseLine (S fuel'));
    if (length dummy =? 0)%nat then mret tt else header_loop fuel'
  end.

(** [try { ... return 0; } catch (IncompleteInput) ... catch (ErrorInRequest) ...] *)
Definition try_parse {R} (c : P (I * R) unit) : P (I * R) Z := λ s,
  match c s with
  | Done _ s' => Done 0 s'
  | Throw IncompleteInput s' => Done 1 s'
  | Throw ErrorInRequest s' => Done (-1) s'
  | Throw out_of_range s' => Throw out_of_range s'
  | PFault e => PFault e
  end.

Definition request_steps (fuel : nat) : P (I * Request) unit :=
  into_method (parseString fuel);;
  local (skipChar SP);;
  local (skipChar SLASH);;
  into_address (parseString fuel);;
  local (skipChar SP);;
  into_version (parseString fuel);;
  local skipNewLine;;
  header_loop fuel.

Definition parseRequest (fuel : nat) : P (I * Request) Z := λ s,
  try_parse (request_steps fuel) (s.1, Request_clear).

(** *** Responses *)

Definition lengthString : str := bytes "Content-Length:".

(** [sizeof(lengthString)] counts the terminating NUL. *)
Definition sizeof_lengthString : nat := S (length lengthString).

Definition into_statusLine : P PS unit → P (I * Response) unit :=
  pzoom (λ s, (s.1, statusLine s.2)) (λ t s, (t.1, mkResponse t.2 (headerRemainder s.2) (body s.2))).

Definition append_header (line : str) : P (I * Response) unit := λ s,
  Done tt (s.1, mkResponse (statusLine s.2) (headerRemainder s.2 ++ line) (body s.2)).

(** [string(line, sizeof(lengthString))] throws when the line is shorter. *)
Definition header_value (line : str) : P (I * Response) str :=
  if (length line <? sizeof_lengthString)%nat then throw out_of_range
  else mret (drop sizeof_lengthString line).

Fixpoint response_headers (fuel : nat) (contentSize : Z) : P (I * Response) Z :=
  match fuel with
  | O => crash OutOfFuel
  | S fuel' =>
    line ← local (parseLine (S fuel'));
    if decide (line = []) then mret contentSize else
    contentSize' ←
      match string_find lengthString line with
      | Some _ => v ← header_value line; mret (extract_size contentSize v)
      | None => mret contentSize
      end;
    append_header line;;
    response_headers fuel' contentSize'
  end.

(** [while (contentSize--)] *)
Fixpoint body_loop (n : nat) : P (I * Response) unit :=
  match n with
  | O => mret tt
  | S n' =>
    pzoom (λ s, (s.1, body s.2)) (λ t s, (t.1, mkResponse (statusLine s.2) (headerRemainder s.2) t.2))
      (c ← peek; push_back c;; step);;
    body_loop n'
  end.

(** The check that the whole body has arrived, and the body. *)
Definition read_body (contentSize : Z) : P (I * Response) unit := λ s,
  if wrap64 (in_bytesTotal s.1 - in_bytesRead s.1) <? contentSize
  then Throw IncompleteInput s else body_loop (Z.to_nat contentSize) s.

Definition response_steps (fuel : nat) : P (I * Response) unit :=
  into_statusLine (parseLine fuel);;
  contentSize ← response_headers fuel 0;
  read_body contentSize.

Definition parseResponse (fuel : nat) : P (I * Response) Z := λ s,
  try_parse (response_steps fuel) (s.1, Response_clear).
End parser.
#[global] Arguments PS : clear implicits.

(** On an iterator of the buffer [b]. *)
Definition parseRequest_in (b : Buffer) : nat → P (Iterator * Request) Z :=
  @parseRequest Iterator (buffer_input b).
Definition parseResponse_in (b : Buffer) : nat → P (Iterator * Response) Z :=
  @parseResponse Iterator (buffer_input b).
