(* ===== verification/HttpParserSpec.v ===== *)
(** * Correctness of the HTTP parser

    The grammar of a request and of a response, and that the parser accepts
    exactly the grammar, on any lawful iterator. *)

From S2P Require Import Prelude CppString Buffer BufferSpec HttpParser.
From stdpp Require Import base numbers list gmap sorting strings.
Open Scope Z_scope.

(** ** What the parser relies on *)

(** [reads i l]: the characters [l] are left on the iterator [i]. *)
Class InputLaws (I : Type) `{Input I} : Type := {
  reads : I → str → Prop;
  reads_eob : ∀ i l, reads i l → in_eob i = bool_decide (l = []);
  reads_char : ∀ i c l, reads i (c :: l) → in_getChar i = Ok c i;
  reads_next : ∀ i c l, reads i (c :: l) →
    ∃ i', in_next i = Ok tt i' ∧ reads i' l ∧ in_bytesRead i' = in_bytesRead i + 1 ∧
      in_bytesTotal i' = in_bytesTotal i;
}.

Definition buffer_laws (b : Buffer) : @InputLaws Iterator (buffer_input b).
Proof.
  refine {| reads := irep b |}.
  - intros it l Hl. simpl. rewrite (eob_ok _ _ _ Hl).
    by destruct (decide _), (bool_decide_reflect (l = [])).
  - intros it c l Hl. simpl. by rewrite (getChar_ok _ _ _ _ Hl).
  - intros it c l Hl. simpl. destruct (next_ok _ _ _ _ Hl) as (it' & -> & Hit & Hr & Ht). by exists it'.
Defined.

(** The simplest iterator: the text that is left. *)
Record TextIter : Type := mkText { text_left : str; text_read : Z; text_total : Z }.

#[export] Instance text_input : Input TextIter := {
  in_eob := λ i, bool_decide (text_left i = []);
  in_getChar := λ i, match text_left i with c :: _ => Ok c i | [] => Err Uninit end;
  in_next := λ i, Ok tt (mkText (drop 1 (text_left i)) (text_read i + 1) (text_total i));
  in_bytesTotal := text_total;
  in_bytesRead := text_read;
}.

#[export] Instance text_laws : InputLaws TextIter.
Proof.
  refine {| reads := λ i l, text_left i = l |}.
  - by intros i l <-.
  - intros i c l E. simpl. by rewrite E.
  - intros i c l E. eexists. split; [done|]. simpl. by rewrite E.
Defined.

Definition text_of (l : str) : TextIter := mkText l 0 (Z.of_nat (length l)).

Lemma text_reads l : reads (text_of l) l.
Proof. done. Qed.

(** ** The grammar *)

(** A token has no blank and no carriage return; a line has no carriage return. *)
Definition token (s : str) : Prop := Forall (λ c, c ≠ SP ∧ c ≠ CR) s.
Definition line (s : str) : Prop := Forall (λ c, c ≠ CR) s.

Definition lines (hs : list str) : str := concat ((λ h, h ++ CRLF) <$> hs).

Definition request_text (r : Request) (hs : list str) : str :=
  method r ++ [SP; SLASH] ++ address r ++ [SP] ++ version r ++ CRLF ++ lines hs ++ CRLF.

Definition request_wf (r : Request) (hs : list str) : Prop :=
  token (method r) ∧ token (address r) ∧ token (version r) ∧
  Forall (λ h, h ≠ [] ∧ line h) hs.

#[global] Instance token_dec s : Decision (token s).
Proof. unfold token. apply _. Defined.
#[global] Instance line_dec s : Decision (line s).
Proof. unfold line. apply _. Defined.

(** The texts that are no request, however they go on: the end of a line or a
    second blank in the first line, no slash, or a carriage return inside a
    header line. *)
Inductive rejected : str → Prop :=
| rej_method m l : token m → rejected (m ++ CR :: l)
| rej_slash m c l : token m → c ≠ SLASH → rejected (m ++ SP :: c :: l)
| rej_address m a l : token m → token a → rejected (m ++ [SP; SLASH] ++ a ++ CR :: l)
| rej_version m a v x y l :
    token m → token a → token v → x = SP ∨ x = CR → ¬ (x = CR ∧ y = LF) →
    rejected (m ++ [SP; SLASH] ++ a ++ [SP] ++ v ++ x :: y :: l)
| rej_headers m a v hs s x l :
    token m → token a → token v → Forall (λ h, h ≠ [] ∧ line h) hs → line s → x ≠ LF →
    rejected (m ++ [SP; SLASH] ++ a ++ [SP] ++ v ++ CRLF ++ lines hs ++ s ++ CR :: x :: l).

Definition accepted (l : str) : Prop :=
  ∃ r hs rest, request_wf r hs ∧ l = request_text r hs ++ rest.

(** A string is a token, or a token and a character that ends it. *)
Lemma token_split (l : str) :
  token l ∨ ∃ s c rest, l = s ++ c :: rest ∧ token s ∧ (c = SP ∨ c = CR).
Proof.
  induction l as [|x l [IH|(s & c & rest & -> & Hs & Hc)]].
  - left. constructor.
  - destruct (decide (x ≠ SP ∧ x ≠ CR)) as [Hx|Hx]; [left; by constructor|].
    right. exists [], x, l. split_and!; [done|constructor|].
    destruct (decide (x = SP)), (decide (x = CR)); naive_solver.
  - right. destruct (decide (x ≠ SP ∧ x ≠ CR)) as [Hx|Hx].
    + exists (x :: s), c, rest. split_and!; [done|by constructor|done].
    + exists [], x, (s ++ c :: rest). split_and!; [done|constructor|].
      destruct (decide (x = SP)), (decide (x = CR)); naive_solver.
Qed.

Lemma line_split (l : str) : line l ∨ ∃ s rest, l = s ++ CR :: rest ∧ line s.
Proof.
  induction l as [|x l [IH|(s & rest & -> & Hs)]]; [left; constructor|..].
  - destruct (decide (x = CR)) as [->|Hx]; [right; exists [], l|left; by constructor].
    split; [done|constructor].
  - right. destruct (decide (x = CR)) as [->|Hx].
    + exists [], (s ++ CR :: rest). split; [done|constructor].
    + exists (x :: s), rest. split; [done|by constructor].
Qed.

Lemma P_bind_done {S A B} (c : P S A) (k : A → P S B) s a s' :
  c s = Done a s' → (c ≫= k) s = k a s'.
Proof. intros E. unfold mbind, P_bind. by rewrite E. Qed.

Lemma P_bind_throw {S A B} (c : P S A) (k : A → P S B) s x s' :
  c s = Throw x s' → (c ≫= k) s = Throw x s'.
Proof. intros E. unfold mbind, P_bind. by rewrite E. Qed.

Lemma P_bind_fault {S A B} (c : P S A) (k : A → P S B) s e :
  c s = PFault e → (c ≫= k) s = PFault e.
Proof. intros E. unfold mbind, P_bind. by rewrite E. Qed.

Section laws.
Context {I : Type} `{Input I, !InputLaws I}.
Implicit Types (i : I) (l s : str).

(** [i'] is [i] after reading [n] characters. *)
Definition moved i i' (n : nat) : Prop :=
  in_bytesRead i' = in_bytesRead i + Z.of_nat n ∧ in_bytesTotal i' = in_bytesTotal i.

Lemma moved_trans i i' i'' n m : moved i i' n → moved i' i'' m → moved i i'' (n + m).
Proof. unfold moved. lia. Qed.

Lemma moved_refl i : moved i i 0.
Proof. unfold moved. lia. Qed.

Lemma at_eob_ok i l s : reads i l → at_eob (i, s) = Done (bool_decide (l = [])) (i, s).
Proof. intros Hl. unfold at_eob. simpl. by rewrite (reads_eob _ _ Hl). Qed.

Lemma peek_ok i c l s : reads i (c :: l) → peek (i, s) = Done c (i, s).
Proof. intros Hl. unfold peek, pzoom, lift. simpl. by rewrite (reads_char _ _ _ Hl). Qed.

Lemma step_ok i c l s :
  reads i (c :: l) → ∃ i', step (i, s) = Done tt (i', s) ∧ reads i' l ∧ moved i i' 1.
Proof.
  intros Hl. destruct (reads_next _ _ _ Hl) as (i' & Hn & Hr & Hb). exists i'.
  unfold step, pzoom, lift. simpl. by rewrite Hn.
Qed.

Lemma need_input_ok i c l s : reads i (c :: l) → need_input (i, s) = Done tt (i, s).
Proof. intros Hl. unfold need_input. by rewrite (P_bind_done _ _ _ _ _ (at_eob_ok _ _ _ Hl)). Qed.

Lemma need_input_end i s : reads i [] → need_input (i, s) = Throw IncompleteInput (i, s).
Proof. intros Hl. unfold need_input. by rewrite (P_bind_done _ _ _ _ _ (at_eob_ok _ _ _ Hl)). Qed.

(** *** [parseString] *)

Lemma string_loop_ok s : ∀ fuel i r rest,
  token s → (rest = [] ∨ ∃ c rest', rest = c :: rest' ∧ (c = SP ∨ c = CR)) →
  reads i (s ++ rest) → (length s < fuel)%nat →
  ∃ i', string_loop fuel (i, r) = Done tt (i', r ++ s) ∧ reads i' rest ∧ moved i i' (length s).
Proof.
  induction s as [|x s IH]; intros fuel i r rest Ht Hst Hi Hf; (destruct fuel as [|fuel]; [simpl in *; lia|]).
  - exists i. rewrite app_nil_r. simpl in *. rewrite (P_bind_done _ _ _ _ _ (at_eob_ok _ _ _ Hi)).
    destruct Hst as [->|(c & rest' & -> & Hc)]; [by split_and!; auto using moved_refl|].
    rewrite bool_decide_false by done. rewrite (P_bind_done _ _ _ _ _ (peek_ok _ _ _ _ Hi)).
    destruct Hc as [-> | ->]; by split_and!; auto using moved_refl.
  - apply Forall_cons in Ht as [[Hsp Hcr] Ht]. simpl in *.
    rewrite (P_bind_done _ _ _ _ _ (at_eob_ok _ _ _ Hi)). rewrite bool_decide_false by done.
    rewrite (P_bind_done _ _ _ _ _ (peek_ok _ _ _ _ Hi)).
    rewrite (proj2 (Z.eqb_neq _ _) Hsp), (proj2 (Z.eqb_neq _ _) Hcr).
    erewrite P_bind_done by reflexivity. simpl.
    destruct (step_ok _ _ _ (r ++ [x]) Hi) as (i1 & Hs1 & Hi1 & Hm1). rewrite (P_bind_done _ _ _ _ _ Hs1).
    destruct (IH fuel i1 (r ++ [x]) rest Ht Hst Hi1 ltac:(lia)) as (i' & Hr' & Hi' & Hm').
    exists i'. rewrite Hr', <-app_assoc. split_and!; [done|done|].
    apply (moved_trans _ _ _ _ _ Hm1 Hm').
Qed.

Lemma parseString_ok fuel i r s c rest :
  token s → c = SP ∨ c = CR → reads i (s ++ c :: rest) → (length s < fuel)%nat →
  ∃ i', parseString fuel (i, r) = Done tt (i', r ++ s) ∧ reads i' (c :: rest) ∧ moved i i' (length s).
Proof.
  intros Ht Hc Hi Hf.
  destruct (string_loop_ok s fuel i r (c :: rest) Ht ltac:(by eauto) Hi Hf) as (i' & Hr & Hi' & Hm).
  exists i'. split_and!; [|done|done]. unfold parseString.
  erewrite P_bind_done by (destruct s; simpl in Hi; eapply need_input_ok, Hi).
  rewrite (P_bind_done _ _ _ _ _ Hr). by apply (need_input_ok _ _ _ _ Hi').
Qed.

Lemma parseString_end fuel i r s :
  token s → reads i s → (length s < fuel)%nat →
  ∃ i', parseString fuel (i, r) = Throw IncompleteInput (i', r ++ s).
Proof.
  intros Ht Hi Hf. unfold parseString. destruct s as [|x s].
  { exists i. rewrite app_nil_r. by rewrite (P_bind_throw _ _ _ _ _ (need_input_end _ _ Hi)). }
  rewrite (P_bind_done _ _ _ _ _ (need_input_ok _ _ _ _ Hi)).
  destruct (string_loop_ok (x :: s) fuel i r [] Ht ltac:(by left) ltac:(by rewrite app_nil_r) Hf)
    as (i' & Hr & Hi' & _).
  exists i'. rewrite (P_bind_done _ _ _ _ _ Hr). by apply need_input_end.
Qed.

(** *** [parseLine] *)

Lemma line_loop_ok s : ∀ fuel i r rest,
  line s → (rest = [] ∨ ∃ rest', rest = CR :: rest') → reads i (s ++ rest) → (length s < fuel)%nat →
  ∃ i' fuel', line_loop fuel (i, r) = line_loop (S fuel') (i', r ++ s) ∧ reads i' rest ∧
    moved i i' (length s).
Proof.
  induction s as [|x s IH]; intros fuel i r rest Hl Hst Hi Hf; (destruct fuel as [|fuel]; [simpl in *; lia|]).
  - exists i, fuel. rewrite app_nil_r. by split_and!; auto using moved_refl.
  - apply Forall_cons in Hl as [Hcr Hl]. cbn [app] in Hi. cbn [line_loop].
    rewrite (P_bind_done _ _ _ _ _ (at_eob_ok _ _ _ Hi)). rewrite bool_decide_false by done.
    rewrite (P_bind_done _ _ _ _ _ (peek_ok _ _ _ _ Hi)).
    rewrite (proj2 (Z.eqb_neq _ _) Hcr).
    erewrite P_bind_done by reflexivity. simpl.
    destruct (step_ok _ _ _ (r ++ [x]) Hi) as (i1 & Hs1 & Hi1 & Hm1). rewrite (P_bind_done _ _ _ _ _ Hs1).
    destruct (IH fuel i1 (r ++ [x]) rest Hl Hst Hi1 ltac:(simpl in Hf; lia)) as (i' & fuel' & Hr' & Hi' & Hm').
    exists i', fuel'. rewrite Hr', <-app_assoc. split_and!; [done|done|].
    apply (moved_trans _ _ _ _ _ Hm1 Hm').
Qed.

Lemma line_loop_cr fuel i r c rest :
  reads i (CR :: c :: rest) →
  ∃ i' i'', line_loop (S fuel) (i, r) =
      (if c =? LF then Done true (i'', r) else Throw ErrorInRequest (i', r)) ∧
    reads i'' rest ∧ moved i i'' 2.
Proof.
  intros Hi. destruct (step_ok _ _ _ r Hi) as (i1 & Hs1 & Hi1 & Hm1).
  destruct (step_ok _ _ _ r Hi1) as (i2 & Hs2 & Hi2 & Hm2). exists i1, i2.
  split_and!; [|done|apply (moved_trans _ _ _ _ _ Hm1 Hm2)]. cbn [line_loop].
  rewrite (P_bind_done _ _ _ _ _ (at_eob_ok _ _ _ Hi)), bool_decide_false by done.
  rewrite (P_bind_done _ _ _ _ _ (peek_ok _ _ _ _ Hi)), Z.eqb_refl.
  rewrite (P_bind_done _ _ _ _ _ Hs1), (P_bind_done _ _ _ _ _ (peek_ok _ _ _ _ Hi1)).
  destruct (c =? LF); [|done]. by rewrite (P_bind_done _ _ _ _ _ Hs2).
Qed.

Lemma need_input_app i s l x r : reads i (s ++ x :: l) → need_input (i, r) = Done tt (i, r).
Proof. intros Hi. destruct s; eapply need_input_ok, Hi. Qed.

(** A line that is there, and one whose carriage return is not followed by a
    line feed. *)
Lemma parseLine_cr fuel i r s c rest :
  line s → reads i (s ++ CR :: c :: rest) → (length s < fuel)%nat →
  ∃ i' i'', parseLine fuel (i, r) =
      (if c =? LF then Done tt (i'', r ++ s) else Throw ErrorInRequest (i', r ++ s)) ∧
    reads i'' rest ∧ moved i i'' (length s + 2).
Proof.
  intros Hl Hi Hf. destruct (line_loop_ok s fuel i r _ Hl ltac:(eauto) Hi Hf) as (i1 & f & Hr & Hi1 & Hm1).
  destruct (line_loop_cr f i1 (r ++ s) c rest Hi1) as (i' & i'' & Hr' & Hi' & Hm').
  exists i', i''. split_and!; [|done|apply (moved_trans _ _ _ _ _ Hm1 Hm')].
  unfold parseLine. rewrite (P_bind_done _ _ _ _ _ (need_input_app _ _ _ _ _ Hi)).
  rewrite Hr' in Hr. destruct (c =? LF).
  - by rewrite (P_bind_done _ _ _ _ _ Hr).
  - by rewrite (P_bind_throw _ _ _ _ _ Hr).
Qed.

Lemma parseLine_end fuel i r s :
  line s → reads i s → (length s < fuel)%nat →
  ∃ i', parseLine fuel (i, r) = Throw IncompleteInput (i', r ++ s).
Proof.
  intros Hl Hi Hf. unfold parseLine. destruct s as [|x s].
  { exists i. rewrite app_nil_r. by rewrite (P_bind_throw _ _ _ _ _ (need_input_end _ _ Hi)). }
  rewrite (P_bind_done _ _ _ _ _ (need_input_ok _ _ _ _ Hi)).
  destruct (line_loop_ok (x :: s) fuel i r [] Hl ltac:(by left) ltac:(by rewrite app_nil_r) Hf)
    as (i1 & f & Hr & Hi1 & _).
  exists i1. erewrite (P_bind_done _ _ _ false (i1, r ++ x :: s)); [by apply need_input_end|].
  rewrite Hr. cbn [line_loop]. by rewrite (P_bind_done _ _ _ _ _ (at_eob_ok _ _ _ Hi1)).
Qed.

(** A line cut after its carriage return: the character behind the end is read. *)
Lemma parseLine_cut fuel i r s e :
  line s → reads i (s ++ [CR]) → (length s < fuel)%nat →
  (∀ i', reads i' [] → in_getChar i' = Err e) →
  parseLine fuel (i, r) = PFault e.
Proof.
  intros Hl Hi Hf He. destruct (line_loop_ok s fuel i r _ Hl ltac:(eauto) Hi Hf) as (i1 & f & Hr & Hi1 & _).
  destruct (step_ok _ _ _ (r ++ s) Hi1) as (i2 & Hs2 & Hi2 & _).
  unfold parseLine. rewrite (P_bind_done _ _ _ _ _ (need_input_app _ _ _ _ _ Hi)).
  apply P_bind_fault. rewrite Hr. cbn [line_loop].
  rewrite (P_bind_done _ _ _ _ _ (at_eob_ok _ _ _ Hi1)), bool_decide_false by done.
  rewrite (P_bind_done _ _ _ _ _ (peek_ok _ _ _ _ Hi1)), Z.eqb_refl, (P_bind_done _ _ _ _ _ Hs2).
  apply P_bind_fault. unfold peek, pzoom, lift. cbn [fst]. by rewrite (He _ Hi2).
Qed.

(** *** Single characters *)

Lemma skipChar_ok i r x c l :
  reads i (c :: l) →
  ∃ i', skipChar x (i, r) = (if c =? x then Done tt (i', r) else Throw ErrorInRequest (i, r)) ∧
    reads i' l ∧ moved i i' 1.
Proof.
  intros Hi. destruct (step_ok _ _ _ r Hi) as (i' & Hs & Hi' & Hm). exists i'. split; [|done].
  unfold skipChar. rewrite (P_bind_done _ _ _ _ _ (need_input_ok _ _ _ _ Hi)),
    (P_bind_done _ _ _ _ _ (peek_ok _ _ _ _ Hi)). by destruct (c =? x).
Qed.

Lemma skipChar_end i r x : reads i [] → skipChar x (i, r) = Throw IncompleteInput (i, r).
Proof. intros Hi. unfold skipChar. by rewrite (P_bind_throw _ _ _ _ _ (need_input_end _ _ Hi)). Qed.

Lemma skipNewLine_ok i r x y l :
  reads i (x :: y :: l) →
  ∃ i' i'', skipNewLine (i, r) =
      (if (x =? CR) && (y =? LF) then Done tt (i'', r) else Throw ErrorInRequest (i', r)) ∧
    reads i'' l ∧ moved i i'' 2.
Proof.
  intros Hi. destruct (step_ok _ _ _ r Hi) as (i1 & Hs1 & Hi1 & Hm1).
  destruct (step_ok _ _ _ r Hi1) as (i2 & Hs2 & Hi2 & Hm2). exists i1, i2.
  split_and!; [|done|apply (moved_trans _ _ _ _ _ Hm1 Hm2)]. unfold skipNewLine.
  rewrite (P_bind_done _ _ _ _ _ (need_input_ok _ _ _ _ Hi)), (P_bind_done _ _ _ _ _ (peek_ok _ _ _ _ Hi)),
    (P_bind_done _ _ _ _ _ Hs1), (P_bind_done _ _ _ _ _ (need_input_ok _ _ _ _ Hi1)),
    (P_bind_done _ _ _ _ _ (peek_ok _ _ _ _ Hi1)).
  by destruct (x =? CR), (y =? LF).
Qed.

Lemma skipNewLine_end i r l :
  reads i l → (length l < 2)%nat → ∃ i', skipNewLine (i, r) = Throw IncompleteInput (i', r).
Proof.
  intros Hi Hl. destruct l as [|x [|]]; [..|simpl in Hl; lia]; unfold skipNewLine.
  { exists i. by rewrite (P_bind_throw _ _ _ _ _ (need_input_end _ _ Hi)). }
  destruct (step_ok _ _ _ r Hi) as (i1 & Hs1 & Hi1 & _). exists i1.
  rewrite (P_bind_done _ _ _ _ _ (need_input_ok _ _ _ _ Hi)), (P_bind_done _ _ _ _ _ (peek_ok _ _ _ _ Hi)),
    (P_bind_done _ _ _ _ _ Hs1). by rewrite (P_bind_throw _ _ _ _ _ (need_input_end _ _ Hi1)).
Qed.

(** *** Header lines *)

Lemma header_step fuel i (r : Request) s c rest :
  line s → reads i (s ++ CR :: c :: rest) → (length s < S fuel)%nat →
  ∃ i' i'', header_loop (S fuel) (i, r) =
      (if c =? LF then if (length s =? 0)%nat then Done tt (i'', r) else header_loop fuel (i'', r)
       else Throw ErrorInRequest (i', r)) ∧
    reads i'' rest ∧ moved i i'' (length s + 2).
Proof.
  intros Hl Hi Hf. destruct (parseLine_cr (S fuel) i [] s c rest Hl Hi Hf) as (i' & i'' & Hr & Hi' & Hm).
  exists i', i''. split; [|done]. cbn [header_loop]. unfold local at 1, mbind, P_bind. cbn [fst].
  rewrite Hr. destruct (c =? LF); [|done]. simpl. by destruct (length s =? 0)%nat.
Qed.

Lemma header_loop_ok hs : ∀ fuel i (r : Request) rest,
  Forall (λ h, h ≠ [] ∧ line h) hs → reads i (lines hs ++ rest) →
  (length (lines hs) < fuel)%nat →
  ∃ i' fuel', header_loop fuel (i, r) = header_loop fuel' (i', r) ∧ reads i' rest ∧
    (fuel ≤ fuel' + length (lines hs))%nat ∧ moved i i' (length (lines hs)).
Proof.
  induction hs as [|h hs IH]; intros fuel i r rest Hwf Hi Hf.
  { exists i, fuel. split_and!; auto using moved_refl. simpl. lia. }
  apply Forall_cons in Hwf as [[Hne Hh] Hwf].
  change (lines (h :: hs)) with ((h ++ CRLF) ++ lines hs) in *. rewrite !length_app in *.
  rewrite <-!app_assoc in Hi. destruct fuel as [|fuel]; [lia|].
  destruct (header_step fuel i r h LF (lines hs ++ rest) Hh Hi ltac:(lia)) as (i0 & i1 & Hr & Hi1 & Hm1).
  rewrite Z.eqb_refl in Hr. destruct (Nat.eqb_spec (length h) 0) as [E|_]; [by destruct h|].
  cbn [length CRLF] in *.
  destruct (IH fuel i1 r rest Hwf Hi1 ltac:(lia)) as (i' & f & Hr' & Hi' & Hf' & Hm').
  exists i', f. split_and!; [by rewrite Hr|done|lia|apply (moved_trans _ _ _ _ _ Hm1 Hm')].
Qed.

(** Why the header lines [l] do not end here, or end wrongly. *)
Definition headers_more (l : str) : Prop :=
  ∃ hs s, Forall (λ h, h ≠ [] ∧ line h) hs ∧ line s ∧ l = lines hs ++ s.
Definition headers_cut (l : str) : Prop :=
  ∃ hs s, Forall (λ h, h ≠ [] ∧ line h) hs ∧ line s ∧ l = lines hs ++ s ++ [CR].
Definition headers_bad (l : str) : Prop :=
  ∃ hs s x rest, Forall (λ h, h ≠ [] ∧ line h) hs ∧ line s ∧ x ≠ LF ∧
    l = lines hs ++ s ++ CR :: x :: rest.

(** All cases of what follows the first line. *)
Lemma headers_cases n : ∀ l, (length l ≤ n)%nat →
  (∃ hs rest, Forall (λ h, h ≠ [] ∧ line h) hs ∧ l = lines hs ++ CRLF ++ rest) ∨
  headers_bad l ∨ headers_more l ∨ headers_cut l.
Proof.
  induction n as [|n IH]; intros l Hn.
  { destruct l; [|simpl in Hn; lia]. right; right; left. exists [], []. split_and!; done || constructor. }
  destruct (line_split l) as [Hl|(s & rest & -> & Hs)].
  { right; right; left. exists [], l. split_and!; done || constructor. }
  destruct rest as [|x rest].
  { right; right; right. exists [], s. split_and!; done || constructor. }
  destruct (decide (x = LF)) as [->|Hx].
  2:{ right; left. exists [], s, x, rest. split_and!; done || constructor. }
  destruct s as [|c s].
  { left. exists [], rest. split; [constructor|done]. }
  destruct (IH rest) as [(hs & rest' & Hhs & ->)|[(hs & s' & x' & rest' & Hhs & Hs' & Hx' & ->)|
    [(hs & s' & Hhs & Hs' & ->)|(hs & s' & Hhs & Hs' & ->)]]].
  { rewrite length_app in Hn. simpl in Hn. lia. }
  all: assert (Hhs' : Forall (λ h, h ≠ [] ∧ line h) ((c :: s) :: hs)) by (constructor; done).
  - left. exists ((c :: s) :: hs), rest'. split; [done|]. unfold lines. simpl. by rewrite <-!app_assoc.
  - right; left. exists ((c :: s) :: hs), s', x', rest'. split_and!; [done..|].
    unfold lines. simpl. by rewrite <-!app_assoc.
  - right; right; left. exists ((c :: s) :: hs), s'. split_and!; [done..|].
    unfold lines. simpl. by rewrite <-!app_assoc.
  - right; right; right. exists ((c :: s) :: hs), s'. split_and!; [done..|].
    unfold lines. simpl. by rewrite <-!app_assoc.
Qed.

Lemma header_loop_done hs fuel i (r : Request) rest :
  Forall (λ h, h ≠ [] ∧ line h) hs → reads i (lines hs ++ CRLF ++ rest) →
  (length (lines hs) < fuel)%nat →
  ∃ i', header_loop fuel (i, r) = Done tt (i', r) ∧ reads i' rest ∧
    moved i i' (length (lines hs ++ CRLF)).
Proof.
  intros Hwf Hi Hf. destruct (header_loop_ok hs fuel i r _ Hwf Hi Hf) as (i1 & f & Hr & Hi1 & Hf1 & Hm1).
  destruct f as [|f]; [lia|].
  destruct (header_step f i1 r [] LF rest ltac:(constructor) Hi1 ltac:(simpl; lia)) as (i0 & i2 & Hr2 & Hi2 & Hm2).
  exists i2. rewrite Hr, length_app. split_and!; [done|done|apply (moved_trans _ _ _ _ _ Hm1 Hm2)].
Qed.

Lemma header_loop_bad fuel i (r : Request) l :
  headers_bad l → reads i l → (length l < fuel)%nat →
  ∃ i', header_loop fuel (i, r) = Throw ErrorInRequest (i', r).
Proof.
  intros (hs & s & x & rest & Hwf & Hs & Hx & ->) Hi Hf. rewrite !length_app in Hf. simpl in Hf.
  destruct (header_loop_ok hs fuel i r _ Hwf Hi ltac:(lia)) as (i1 & f & Hr & Hi1 & Hf1 & _).
  destruct f as [|f]; [lia|].
  destruct (header_step f i1 r s x rest Hs Hi1 ltac:(lia)) as (i2 & i3 & Hr2 & _).
  exists i2. rewrite Hr, Hr2. by rewrite (proj2 (Z.eqb_neq _ _) Hx).
Qed.

Lemma header_loop_more fuel i (r : Request) l :
  headers_more l → reads i l → (length l < fuel)%nat →
  ∃ i', header_loop fuel (i, r) = Throw IncompleteInput (i', r).
Proof.
  intros (hs & s & Hwf & Hs & ->) Hi Hf. rewrite !length_app in Hf.
  destruct (header_loop_ok hs fuel i r _ Hwf Hi ltac:(lia)) as (i1 & f & Hr & Hi1 & Hf1 & _).
  destruct f as [|f]; [lia|].
  destruct (parseLine_end (S f) i1 [] s Hs Hi1 ltac:(lia)) as (i2 & Hr2).
  exists i2. rewrite Hr. cbn [header_loop]. unfold local at 1, mbind, P_bind. cbn [fst]. by rewrite Hr2.
Qed.

Lemma header_loop_cut fuel i (r : Request) l e :
  headers_cut l → reads i l → (length l < fuel)%nat →
  (∀ i', reads i' [] → in_getChar i' = Err e) →
  header_loop fuel (i, r) = PFault e.
Proof.
  intros (hs & s & Hwf & Hs & ->) Hi Hf He. rewrite !length_app in Hf. simpl in Hf.
  destruct (header_loop_ok hs fuel i r _ Hwf Hi ltac:(lia)) as (i1 & f & Hr & Hi1 & Hf1 & _).
  destruct f as [|f]; [lia|]. rewrite Hr. cbn [header_loop]. unfold local at 1, mbind, P_bind. cbn [fst].
  by rewrite (parseLine_cut (S f) i1 [] s e Hs Hi1 ltac:(lia) He).
Qed.

(** *** The first line *)

(** The rest of [request_steps] after the method, the slash and the address. *)
Definition after_method (fuel : nat) : P (I * Request) unit :=
  local (skipChar SP);; local (skipChar SLASH);; into_address (parseString fuel);;
  local (skipChar SP);; into_version (parseString fuel);; local skipNewLine;; header_loop fuel.
Definition after_slash (fuel : nat) : P (I * Request) unit :=
  into_address (parseString fuel);;
  local (skipChar SP);; into_version (parseString fuel);; local skipNewLine;; header_loop fuel.
Definition after_address (fuel : nat) : P (I * Request) unit :=
  local (skipChar SP);; into_version (parseString fuel);; local skipNewLine;; header_loop fuel.
Definition after_version (fuel : nat) : P (I * Request) unit :=
  local skipNewLine;; header_loop fuel.

Lemma local_char i (r : Request) x l :
  reads i (x :: l) →
  ∃ i', local (skipChar x) (i, r) = Done [] (i', r) ∧ reads i' l ∧ moved i i' 1.
Proof.
  intros Hi. destruct (skipChar_ok i [] x x l Hi) as (i' & Hr & Hi' & Hm). exists i'. split; [|done].
  unfold local. cbn [fst snd]. by rewrite Hr, Z.eqb_refl.
Qed.

Lemma local_char_bad i (r : Request) x c l :
  reads i (c :: l) → c ≠ x → local (skipChar x) (i, r) = Throw ErrorInRequest (i, r).
Proof.
  intros Hi Hc. destruct (skipChar_ok i [] x c l Hi) as (i' & Hr & _).
  unfold local. cbn [fst snd]. by rewrite Hr, (proj2 (Z.eqb_neq _ _) Hc).
Qed.

Lemma local_char_end i (r : Request) x :
  reads i [] → local (skipChar x) (i, r) = Throw IncompleteInput (i, r).
Proof. intros Hi. unfold local. cbn [fst snd]. by rewrite skipChar_end. Qed.

Lemma stage_method fuel i m c l :
  token m → c = SP ∨ c = CR → reads i (m ++ c :: l) → (length m < fuel)%nat →
  ∃ i', request_steps fuel (i, Request_clear) = after_method fuel (i', mkRequest m [] []) ∧
    reads i' (c :: l) ∧ moved i i' (length m).
Proof.
  intros Hm Hc Hi Hf. destruct (parseString_ok fuel i [] m c l Hm Hc Hi Hf) as (i' & Hr & Hi').
  exists i'. split; [|done]. unfold request_steps, into_method, pzoom at 1, mbind at 1, P_bind at 1.
  cbn [fst snd Request_clear method]. by rewrite Hr.
Qed.

Lemma stage_address fuel i m a c l :
  token a → c = SP ∨ c = CR → reads i (a ++ c :: l) → (length a < fuel)%nat →
  ∃ i', after_slash fuel (i, mkRequest m [] []) = after_address fuel (i', mkRequest m a []) ∧
    reads i' (c :: l) ∧ moved i i' (length a).
Proof.
  intros Hm Hc Hi Hf. destruct (parseString_ok fuel i [] a c l Hm Hc Hi Hf) as (i' & Hr & Hi').
  exists i'. split; [|done]. unfold after_slash, into_address, pzoom at 1, mbind at 1, P_bind at 1.
  cbn [fst snd address]. by rewrite Hr.
Qed.

Lemma stage_version fuel i m a v c l :
  token v → c = SP ∨ c = CR → reads i (SP :: v ++ c :: l) → (length v < fuel)%nat →
  ∃ i', after_address fuel (i, mkRequest m a []) = after_version fuel (i', mkRequest m a v) ∧
    reads i' (c :: l) ∧ moved i i' (S (length v)).
Proof.
  intros Hm Hc Hi Hf. unfold after_address.
  destruct (local_char i (mkRequest m a []) SP _ Hi) as (i1 & Hr1 & Hi1 & Hm1).
  rewrite (P_bind_done _ _ _ _ _ Hr1).
  destruct (parseString_ok fuel i1 [] v c l Hm Hc Hi1 Hf) as (i' & Hr & Hi' & Hm').
  exists i'. split_and!; [|done|apply (moved_trans _ _ _ _ _ Hm1 Hm')].
  unfold into_version, pzoom at 1, mbind at 1, P_bind at 1.
  cbn [fst snd version]. by rewrite Hr.
Qed.

Lemma stage_slash fuel i r l :
  reads i (SP :: SLASH :: l) →
  ∃ i', after_method fuel (i, r) = after_slash fuel (i', r) ∧ reads i' l ∧ moved i i' 2.
Proof.
  intros Hi. unfold after_method.
  destruct (local_char i r SP _ Hi) as (i1 & Hr1 & Hi1 & Hm1).
  destruct (local_char i1 r SLASH _ Hi1) as (i' & Hr & Hi' & Hm').
  exists i'. rewrite (P_bind_done _ _ _ _ _ Hr1), (P_bind_done _ _ _ _ _ Hr).
  split_and!; [done|done|apply (moved_trans _ _ _ _ _ Hm1 Hm')].
Qed.

Lemma stage_newline fuel i (r : Request) x y l :
  reads i (x :: y :: l) →
  ∃ i' i'', after_version fuel (i, r) =
      (if (x =? CR) && (y =? LF) then header_loop fuel (i'', r) else Throw ErrorInRequest (i', r)) ∧
    reads i'' l ∧ moved i i'' 2.
Proof.
  intros Hi. destruct (skipNewLine_ok i [] x y l Hi) as (i' & i'' & Hr & Hi').
  exists i', i''. split; [|done]. unfold after_version, local, mbind, P_bind. cbn [fst snd].
  rewrite Hr. by destruct (_ && _).
Qed.

(** The whole first line. *)
Lemma stage_first fuel i r l :
  token (method r) → token (address r) → token (version r) →
  reads i (method r ++ [SP; SLASH] ++ address r ++ [SP] ++ version r ++ CRLF ++ l) →
  (length (method r ++ address r ++ version r) < fuel)%nat →
  ∃ i', request_steps fuel (i, Request_clear) = header_loop fuel (i', r) ∧ reads i' l ∧
    moved i i' (length (method r ++ [SP; SLASH] ++ address r ++ [SP] ++ version r ++ CRLF)).
Proof.
  destruct r as [m a v]. cbn [method address version]. intros Hm Ha Hv Hi Hf. rewrite !length_app in Hf.
  destruct (stage_method fuel i m SP _ Hm ltac:(auto) Hi ltac:(lia)) as (i1 & -> & Hi1 & Hm1).
  destruct (stage_slash fuel i1 (mkRequest m [] []) _ Hi1) as (i2 & -> & Hi2 & Hm2).
  destruct (stage_address fuel i2 m a SP _ Ha ltac:(auto) Hi2 ltac:(lia)) as (i3 & -> & Hi3 & Hm3).
  destruct (stage_version fuel i3 m a v CR _ Hv ltac:(auto) Hi3 ltac:(lia)) as (i4 & -> & Hi4 & Hm4).
  destruct (stage_newline fuel i4 (mkRequest m a v) _ _ _ Hi4) as (i5 & i6 & -> & Hi6 & Hm6).
  exists i6. split_and!; [done|done|]. unfold moved in *. rewrite !length_app. simpl. lia.
Qed.

(** *** Whole requests *)

Lemma parse_accepts fuel i r0 r hs rest :
  request_wf r hs → reads i (request_text r hs ++ rest) →
  (length (request_text r hs) < fuel)%nat →
  ∃ i', parseRequest fuel (i, r0) = Done 0 (i', r) ∧ reads i' rest ∧
    moved i i' (length (request_text r hs)).
Proof.
  intros (Hm & Ha & Hv & Hhs) Hi Hf. unfold request_text in *. rewrite <-!app_assoc in Hi.
  rewrite !length_app in Hf. simpl in Hf.
  destruct (stage_first fuel i r _ Hm Ha Hv Hi) as (i1 & Hr1 & Hi1 & Hm1).
  { rewrite !length_app. lia. }
  destruct (header_loop_done hs fuel i1 r rest Hhs Hi1 ltac:(lia)) as (i' & Hr & Hi' & Hm').
  exists i'. split_and!; [|done|].
  - unfold parseRequest, try_parse. cbn [fst]. by rewrite Hr1, Hr.
  - unfold moved in *. rewrite !length_app in *. simpl in *. lia.
Qed.

Lemma parse_rejects fuel i r0 l :
  rejected l → reads i l → (length l < fuel)%nat →
  ∃ st, parseRequest fuel (i, r0) = Done (-1) st.
Proof.
  intros Hrej Hi Hf.
  cut (∃ st, request_steps fuel (i, Request_clear) = Throw ErrorInRequest st).
  { intros [st Hr]. exists st. unfold parseRequest, try_parse. cbn [fst]. by rewrite Hr. }
  destruct Hrej; rewrite !length_app in Hf; simpl in Hf.
  - destruct (stage_method fuel i m CR l ltac:(done) ltac:(auto) Hi ltac:(lia)) as (i1 & -> & Hi1 & _).
    eexists. by eapply P_bind_throw, local_char_bad.
  - destruct (stage_method fuel i m SP _ ltac:(done) ltac:(auto) Hi ltac:(lia)) as (i1 & -> & Hi1 & _).
    unfold after_method. destruct (local_char i1 (mkRequest m [] []) _ _ Hi1) as (i2 & Hr2 & Hi2 & _).
    rewrite (P_bind_done _ _ _ _ _ Hr2). eexists. by eapply P_bind_throw, local_char_bad.
  - destruct (stage_method fuel i m SP _ ltac:(done) ltac:(auto) Hi ltac:(lia)) as (i1 & -> & Hi1 & _).
    destruct (stage_slash fuel i1 (mkRequest m [] []) _ Hi1) as (i2 & -> & Hi2 & _).
    destruct (stage_address fuel i2 m a CR _ ltac:(done) ltac:(auto) Hi2 ltac:(lia)) as (i3 & -> & Hi3 & _).
    eexists. by eapply P_bind_throw, local_char_bad.
  - destruct (stage_method fuel i m SP _ ltac:(done) ltac:(auto) Hi ltac:(lia)) as (i1 & -> & Hi1 & _).
    destruct (stage_slash fuel i1 (mkRequest m [] []) _ Hi1) as (i2 & -> & Hi2 & _).
    destruct (stage_address fuel i2 m a SP _ ltac:(done) ltac:(auto) Hi2 ltac:(lia)) as (i3 & -> & Hi3 & _).
    destruct (stage_version fuel i3 m a v x _ ltac:(done) ltac:(done) Hi3 ltac:(lia)) as (i4 & -> & Hi4 & _).
    destruct (stage_newline fuel i4 (mkRequest m a v) _ _ _ Hi4) as (i5 & i6 & -> & _).
    destruct (Z.eqb_spec x CR), (Z.eqb_spec y LF); simpl; naive_solver.
  - destruct (stage_first fuel i (mkRequest m a v) _ ltac:(done) ltac:(done) ltac:(done) Hi)
      as (i1 & -> & Hi1 & _); [simpl; rewrite !length_app; lia|].
    destruct (header_loop_bad fuel i1 (mkRequest m a v) _ ltac:(by exists hs, s, x, l) Hi1) as (i' & ->);
      [rewrite !length_app; simpl; lia|]. eauto.
Qed.

(** A text that stops inside a header line right behind its carriage return. *)
Definition cut_off (l : str) : Prop :=
  ∃ r hs s, request_wf r hs ∧ line s ∧
    l = method r ++ [SP; SLASH] ++ address r ++ [SP] ++ version r ++ CRLF ++ lines hs ++ s ++ [CR].

Lemma cut_off_last l : cut_off l → last l = Some CR.
Proof. intros (r & hs & s & _ & _ & ->). by rewrite !(assoc_L (++)), last_snoc. Qed.

Lemma parse_waits fuel i r0 l :
  ¬ accepted l → ¬ rejected l → ¬ cut_off l → reads i l → (length l < fuel)%nat →
  ∃ st, parseRequest fuel (i, r0) = Done 1 st.
Proof.
  intros Hacc Hrej Hlast Hi Hf.
  cut (∃ st, request_steps fuel (i, Request_clear) = Throw IncompleteInput st).
  { intros [st Hr]. exists st. unfold parseRequest, try_parse. cbn [fst]. by rewrite Hr. }
  destruct (token_split l) as [Hm|(m & c & l1 & -> & Hm & Hc)].
  { destruct (parseString_end fuel i [] l Hm Hi Hf) as (i' & Hr). eexists.
    unfold request_steps, into_method, pzoom at 1, mbind at 1, P_bind at 1.
    cbn [fst snd Request_clear method]. by rewrite Hr. }
  rewrite length_app in Hf. simpl in Hf.
  destruct (stage_method fuel i m c l1 Hm Hc Hi ltac:(lia)) as (i1 & -> & Hi1 & _).
  destruct Hc as [-> | ->]; [|destruct Hrej; by constructor].
  destruct l1 as [|c l2].
  { unfold after_method. destruct (local_char i1 (mkRequest m [] []) _ _ Hi1) as (i2 & Hr2 & Hi2 & _).
    rewrite (P_bind_done _ _ _ _ _ Hr2). eexists. by eapply P_bind_throw, local_char_end. }
  destruct (decide (c = SLASH)) as [->|]; [|destruct Hrej; by constructor].
  destruct (stage_slash fuel i1 (mkRequest m [] []) _ Hi1) as (i2 & -> & Hi2 & _).
  simpl in Hf. destruct (token_split l2) as [Ha|(a & c & l3 & -> & Ha & Hc)].
  { destruct (parseString_end fuel i2 [] l2 Ha Hi2 ltac:(lia)) as (i' & Hr). eexists.
    unfold after_slash, into_address, pzoom at 1, mbind at 1, P_bind at 1. cbn [fst snd address]. by rewrite Hr. }
  rewrite length_app in Hf. simpl in Hf.
  destruct (stage_address fuel i2 m a c l3 Ha Hc Hi2 ltac:(lia)) as (i3 & -> & Hi3 & _).
  destruct Hc as [-> | ->]; [|destruct Hrej; by apply rej_address].
  destruct (token_split l3) as [Hv|(v & x & l4 & -> & Hv & Hx)].
  { unfold after_address. destruct (local_char i3 (mkRequest m a []) _ _ Hi3) as (i4 & Hr4 & Hi4 & _).
    rewrite (P_bind_done _ _ _ _ _ Hr4).
    destruct (parseString_end fuel i4 [] l3 Hv Hi4 ltac:(lia)) as (i' & Hr). eexists.
    unfold into_version, pzoom at 1, mbind at 1, P_bind at 1. cbn [fst snd version]. by rewrite Hr. }
  rewrite length_app in Hf. simpl in Hf.
  destruct (stage_version fuel i3 m a v x l4 Hv Hx Hi3 ltac:(lia)) as (i4 & -> & Hi4 & _).
  destruct l4 as [|y l5].
  { destruct (skipNewLine_end i4 [] [x] Hi4 ltac:(simpl; lia)) as (i' & Hr). eexists.
    unfold after_version, local, mbind, P_bind. cbn [fst snd]. by rewrite Hr. }
  destruct (decide (x = CR ∧ y = LF)) as [[-> ->]|Hxy]; [|destruct Hrej; by apply (rej_version m a v)].
  destruct (stage_newline fuel i4 (mkRequest m a v) _ _ _ Hi4) as (i5 & i6 & -> & Hi6 & _).
  destruct (headers_cases (length l5) l5 ltac:(done)) as [(hs & rest & Hhs & ->)|[Hb|[Hw|Hcut]]].
  - destruct Hacc. exists (mkRequest m a v), hs, rest. split; [by split_and!|].
    unfold request_text, CRLF. simpl. by repeat (rewrite <-!app_assoc || simpl).
  - destruct Hb as (hs & s & z & rest & Hhs & Hs & Hz & ->). destruct Hrej. by apply (rej_headers m a v hs s z rest).
  - simpl in Hf. destruct (header_loop_more fuel i6 (mkRequest m a v) l5 Hw Hi6 ltac:(lia)) as (i' & Hr). eauto.
  - destruct Hlast, Hcut as (hs & s & Hhs & Hs & ->). exists (mkRequest m a v), hs, s. by split_and!.
Qed.

Lemma parse_cut fuel i r0 l e : cut_off l → reads i l → (length l < fuel)%nat → (∀ i', reads i' [] → in_getChar i' = Err e) →
  parseRequest fuel (i, r0) = PFault e.
Proof.
  intros (r & hs & s & (Hm & Ha & Hv & Hhs) & Hs & ->) Hi Hf He. rewrite !length_app in Hf. simpl in Hf.
  destruct (stage_first fuel i r _ Hm Ha Hv Hi) as (i1 & Hr1 & Hi1 & _); [rewrite !length_app; lia|].
  unfold parseRequest, try_parse. cbn [fst]. rewrite Hr1.
  by rewrite (header_loop_cut fuel i1 r _ e ltac:(by exists hs, s) Hi1 ltac:(rewrite !length_app; simpl; lia) He).
Qed.

(** C8: the parser decides the grammar.  On any lawful iterator with the text
    [l] left: a request followed by anything is parsed into its three parts,
    the iterator stops behind its empty line and has counted its characters;
    a text that cannot become a request is an error; any other text is incomplete, unless
    it stops right behind the carriage return of a header line: then the parser reads the
    character behind the end of the input, and faults if that read does. *)
Theorem parse_request_exact fuel i r0 l :
  reads i l → (length l < fuel)%nat →
  (∀ r hs rest, request_wf r hs → l = request_text r hs ++ rest →
     ∃ i', parseRequest fuel (i, r0) = Done 0 (i', r) ∧ reads i' rest ∧
       in_bytesRead i' = in_bytesRead i + Z.of_nat (length (request_text r hs))) ∧
  (rejected l → ∃ st, parseRequest fuel (i, r0) = Done (-1) st) ∧
  (¬ accepted l → ¬ rejected l → ¬ cut_off l →
     ∃ st, parseRequest fuel (i, r0) = Done 1 st) ∧
  (cut_off l → ∀ e, (∀ i', reads i' [] → in_getChar i' = Err e) → parseRequest fuel (i, r0) = PFault e).
Proof.
  intros Hi Hf. split_and!.
  - intros r hs rest Hwf ->. rewrite length_app in Hf.
    destruct (parse_accepts fuel i r0 r hs rest Hwf Hi ltac:(lia)) as (i' & Hr & Hi' & Hm & _). eauto.
  - intros Hrej. by eapply parse_rejects.
  - intros. by eapply parse_waits.
  - intros Hc e He. by eapply parse_cut.
Qed.

(** A rejected text stays rejected when more arrives. *)
Lemma rejected_app l k : rejected l → rejected (l ++ k).
Proof.
  destruct 1; repeat (rewrite <-!app_assoc || simpl).
  - by constructor.
  - by constructor.
  - by apply (rej_address m a (l ++ k)).
  - by apply (rej_version m a v x y (l ++ k)).
  - by apply (rej_headers m a v hs s x (l ++ k)).
Qed.

(** A proper prefix of a request is neither a request nor an error, because
    the parser would have to give two answers on the whole. *)
Lemma prefix_undecided fuel i r hs p q :
  request_wf r hs → request_text r hs = p ++ q → q ≠ [] →
  reads i (p ++ q) → (length (p ++ q) < fuel)%nat → ¬ accepted p ∧ ¬ rejected p.
Proof.
  intros Hwf E Hq Hi Hf.
  destruct (parse_accepts fuel i r r hs [] Hwf ltac:(by rewrite app_nil_r, E) ltac:(by rewrite E))
    as (i1 & Hr1 & Hi1 & _). split.
  - intros (r' & hs' & rest & Hwf' & ->). rewrite <-app_assoc in *. rewrite length_app in Hf.
    destruct (parse_accepts fuel i r r' hs' (rest ++ q) Hwf' Hi ltac:(lia)) as (i2 & Hr2 & Hi2 & _).
    rewrite Hr1 in Hr2. injection Hr2 as <- _.
    pose proof (reads_eob _ _ Hi1) as E1. rewrite (reads_eob _ _ Hi2) in E1.
    rewrite bool_decide_false in E1; [done|]. intros [_ ?]%app_nil. done.
  - intros Hrej. destruct (parse_rejects fuel i r _ (rejected_app p q Hrej) Hi Hf) as (st & Hr2).
    by rewrite Hr1 in Hr2.
Qed.

(** a text that stops inside a header line right behind its carriage
    return makes [parseLine] read the character behind the end of the input,
    whatever that read gives: the parser faults if the read does. *)
Theorem parse_reads_past_end fuel i r0 r hs s e :
  request_wf r hs → line s → let l := method r ++ [SP; SLASH] ++ address r ++ [SP] ++ version r ++
    CRLF ++ lines hs ++ s ++ [CR] in
  reads i l → (length l < fuel)%nat → (∀ i', reads i' [] → in_getChar i' = Err e) →
  parseRequest fuel (i, r0) = PFault e.
Proof. intros Hwf Hs l Hi Hf He. apply (parse_cut fuel i r0 l e); [by exists r, hs, s|done..]. Qed.
End laws.

(** A request used in the examples. *)
Definition get_x : Request := mkRequest (bytes "GET") (bytes "x.html") (bytes "HTTP/1.1").
Definition get_x_headers : list str := [bytes "Host: localhost"].

Lemma get_x_wf : request_wf get_x get_x_headers.
Proof. unfold request_wf. split_and!; apply (bool_decide_unpack _); vm_compute; exact I. Qed.

Lemma parse_request_exact_witness :
  ∃ i', parseRequest 100 (text_of (request_text get_x get_x_headers ++ bytes "ABC"), Request_clear) =
    Done 0 (i', get_x) ∧ text_left i' = bytes "ABC".
Proof.
  destruct (parse_request_exact 100 (text_of (request_text get_x get_x_headers ++ bytes "ABC"))
    Request_clear (request_text get_x get_x_headers ++ bytes "ABC") (text_reads _)
    ltac:(vm_compute; lia)) as (H & _).
  destruct (H get_x get_x_headers (bytes "ABC") get_x_wf eq_refl) as (i' & H1 & H2 & _).
  exists i'. split; [exact H1|exact H2].
Defined.

(** The same text in a buffer: the byte behind the last one written is read. *)
Definition cut_request : str :=
  bytes "GET /x.html HTTP/1.1" ++ CRLF ++ bytes "Host: localhost" ++ CRLF ++ [CR].

Lemma parse_reads_past_end_witness :
  parseRequest 100 (text_of cut_request, Request_clear) = PFault Uninit ∧
  match (write cut_request;; begin_) Buffer_init with
  | Ok it b => parseRequest_in b 100 (it, Request_clear)
  | Err e => Throw out_of_range (mkIter (mkPos 0 0) 0 0 0 0, Request_clear)
  end = PFault Uninit.
Proof.
  split; [|vm_compute; reflexivity].
  apply (parse_reads_past_end 100 _ Request_clear get_x get_x_headers [] Uninit get_x_wf).
  - constructor.
  - vm_compute. reflexivity.
  - vm_compute. lia.
  - intros i' E. cbn in *. by rewrite E.
Defined.

Lemma parse_prefix_waits {I} `{Input I, !InputLaws I} fuel (i : I) r0 r hs p q :
  request_wf r hs → request_text r hs = p ++ q → q ≠ [] → last p ≠ Some CR →
  reads i p → (length p < fuel)%nat → ∃ st, parseRequest fuel (i, r0) = Done 1 st.
Proof.
  intros Hwf E Hq Hcr Hi Hf.
  destruct (prefix_undecided (S (length (p ++ q))) (text_of (p ++ q)) r hs p q) as [? ?]; try done.
  { lia. }
  eapply parse_waits; try done. by intros ?%cut_off_last.
Qed.

(** while a request arrives piece by piece, every proper prefix that does
    not end in a carriage return gives +1, insufficient input. *)
Theorem incomplete_prefix {I} `{Input I, !InputLaws I} fuel (i : I) r0 r hs p q :
  request_wf r hs → request_text r hs = p ++ q → q ≠ [] → last p ≠ Some CR →
  reads i p → (length p < fuel)%nat → ∃ st, parseRequest fuel (i, r0) = Done 1 st.
Proof. apply parse_prefix_waits. Qed.

Lemma incomplete_prefix_witness :
  ∃ st, parseRequest 100 (text_of (bytes "GET /x.ht"), Request_clear) = Done 1 st.
Proof.
  apply (incomplete_prefix 100 (text_of (bytes "GET /x.ht")) Request_clear get_x get_x_headers (bytes "GET /x.ht")
    (drop 9 (request_text get_x get_x_headers)) get_x_wf).
  - vm_compute. reflexivity.
  - vm_compute. discriminate.
  - vm_compute. discriminate.
  - vm_compute. reflexivity.
  - vm_compute. lia.
Defined.

(** ** Round trip *)

Lemma ready_start b l : holds b l → rpos_ b = mkPos 0 0 → ready b.
Proof.
  intros (ini & lst & Hb & _) Hr. destruct (readSize_eq Hb) as (d & Hd & Ho & Hrs).
  eexists. split; [exact Hrs|]. rewrite Hr in *. simpl in *. destruct ini as [|d' ini].
  - injection Hd as <-. destruct lst as [|x lst]; [right|left; simpl; lia].
    by rewrite (br_wpos _ _ _ Hb).
  - left. injection Hd as <-. pose proof (br_inner _ _ _ Hb) as [Hne _]%Forall_cons.
    destruct d'; [done|simpl; lia].
Qed.

Lemma c_str_id s : Forall (λ c, c ≠ 0) s → c_str s = s.
Proof. induction 1 as [|c s Hc _ IH]; simpl; [done|]. by rewrite (proj2 (Z.eqb_neq _ _) Hc), IH. Qed.

Definition no_nul (r : Request) : Prop :=
  Forall (λ c, c ≠ 0) (method r ++ address r ++ version r).

Lemma toBuffer_ok r b l :
  no_nul r → holds b l →
  ∃ b', toBuffer r b = Ok tt b' ∧ rpos_ b' = rpos_ b ∧
    holds b' (l ++ method r ++ [SP] ++ address r ++ [SP] ++ version r ++ CRLF ++ CRLF).
Proof.
  intros [Hm [Ha Hv]%Forall_app]%Forall_app Hh. unfold toBuffer. rewrite !c_str_id by done.
  destruct (write_ok b l (method r) Hh) as (b1 & Hr1 & Hh1 & E1).
  destruct (write_ok b1 _ (bytes " ") Hh1) as (b2 & Hr2 & Hh2 & E2).
  destruct (write_ok b2 _ (address r) Hh2) as (b3 & Hr3 & Hh3 & E3).
  destruct (write_ok b3 _ (bytes " ") Hh3) as (b4 & Hr4 & Hh4 & E4).
  destruct (write_ok b4 _ (version r) Hh4) as (b5 & Hr5 & Hh5 & E5).
  destruct (write_ok b5 _ (CRLF ++ CRLF) Hh5) as (b6 & Hr6 & Hh6 & E6).
  exists b6. split_and!; [|congruence|by rewrite <-!app_assoc in Hh6].
  by rewrite (bind_ok _ _ _ _ _ Hr1), (bind_ok _ _ _ _ _ Hr2), (bind_ok _ _ _ _ _ Hr3),
    (bind_ok _ _ _ _ _ Hr4), (bind_ok _ _ _ _ _ Hr5).
Qed.

(** C33: a request written by [toBuffer] and parsed back.  With an address that
    starts with a slash the parser gives the request without that slash and
    reads all of it; with any other address, such as the one of a request that
    was parsed, it is an error. *)
Theorem request_roundtrip r r0 fuel :
  token (method r) → token (address r) → token (version r) → no_nul r →
  (Z.of_nat (length (method r ++ address r ++ version r)) + 6 < Z.of_nat fuel < 2 ^ 64) →
  ∃ b it, toBuffer r Buffer_init = Ok tt b ∧ begin_ b = Ok it b ∧
    (∀ a, address r = SLASH :: a → ∃ it',
       parseRequest_in b fuel (it, r0) = Done 0 (it', mkRequest (method r) a (version r)) ∧
       eob b it' = true) ∧
    (head (address r) ≠ Some SLASH → ∃ st, parseRequest_in b fuel (it, r0) = Done (-1) st).
Proof.
  intros Hm Ha Hv Hn Hf. rewrite !length_app in Hf.
  destruct (toBuffer_ok r Buffer_init [] Hn holds_init) as (b & Hr & Hp & Hh). cbn [app] in Hh.
  destruct (begin_ok b _ Hh (ready_start _ _ Hh Hp) ltac:(by rewrite Hp)) as (it & Hbeg & Hit & _).
  { repeat (rewrite !length_app; simpl). lia. }
  exists b, it. unfold parseRequest_in. pose (L := buffer_laws b). split_and!; [done|done|..].
  - intros a E. rewrite E in *. apply Forall_cons in Ha as [_ Ha].
    edestruct (@parse_accepts Iterator (buffer_input b) L fuel it r0
      (mkRequest (method r) a (version r)) [] []) as (it' & Hrun & Hit' & _).
    + by split_and!.
    + by rewrite app_nil_r.
    + unfold request_text. repeat (rewrite !length_app; simpl in * ). lia.
    + exists it'. split; [done|]. simpl in Hit'. by rewrite (eob_ok _ _ _ Hit').
  - intros Hh'. eapply (@parse_rejects Iterator (buffer_input b) L); [|exact Hit|].
    + destruct (address r) as [|c a]; [by apply rej_slash|]. simpl in *.
      apply rej_slash; [done|naive_solver].
    + repeat (rewrite !length_app; simpl). lia.
Qed.

Lemma request_roundtrip_witness :
  ∃ b it it', toBuffer (mkRequest (bytes "GET") (bytes "/x") (bytes "HTTP/1.1")) Buffer_init = Ok tt b ∧
    begin_ b = Ok it b ∧
    parseRequest_in b 100 (it, Request_clear) = Done 0 (it', mkRequest (bytes "GET") (bytes "x") (bytes "HTTP/1.1")).
Proof.
  destruct (request_roundtrip (mkRequest (bytes "GET") (bytes "/x") (bytes "HTTP/1.1")) Request_clear 100)
    as (b & it & H1 & H2 & H3 & _).
  1-3: apply (bool_decide_unpack _); vm_compute; exact I.
  - unfold no_nul. apply (bool_decide_unpack _). vm_compute. exact I.
  - vm_compute. split; reflexivity.
  - destruct (H3 (bytes "x") eq_refl) as (it' & H4 & _). exists b, it, it'. split_and!; assumption.
Defined.

(** ** Responses *)

(** What a text says about a size that was [old] before: a blank text nothing; otherwise,
    behind white space and at most one sign, the digits up to the first other character
    count, none for 0, too large a number for the largest size, and a minus wraps around. *)
Definition spaces (ws : str) : Prop := Forall (λ c, is_space c = true) ws.
Definition decimal (ds : str) : Z := foldl (λ n d, 10 * n + (d - 48)) 0 ds.

Inductive says (old : Z) : str → Z → Prop :=
| says_nothing ws : spaces ws → says old ws old
| says_number ws sign ds rest :
    spaces ws → sign ∈ [[]; [43]; [45]] → Forall (λ c, is_digit c = true) ds →
    (∀ c rest', rest = c :: rest' → is_digit c = false) →
    (sign = [] → ds = [] → ∃ c rest', rest = c :: rest' ∧ is_space c = false ∧ c ≠ 43 ∧ c ≠ 45) →
    says old (ws ++ sign ++ ds ++ rest)
      (if decide (2 ^ 64 ≤ decimal ds) then 2 ^ 64 - 1 else if decide (sign = [45]) then wrap64 (- decimal ds) else decimal ds).

(** The body length announced by header lines, when [n] was announced before; [None]: a
    line that mentions the name and is too short to hold a value. *)
Definition mentions (h : str) : Prop := ∃ l k, h = l ++ lengthString ++ k.

Inductive announced : Z → list str → option Z → Prop :=
| announced_end n : announced n [] (Some n)
| announced_other n h hs r : ¬ mentions h → announced n hs r → announced n (h :: hs) r
| announced_short n h hs : mentions h → (length h < sizeof_lengthString)%nat → announced n (h :: hs) None
| announced_value n h name v k hs r : mentions h → h = name ++ v → length name = sizeof_lengthString →
    says n v k → announced k hs r → announced n (h :: hs) r.

(** The same as functions.  Searching a string finds the name wherever it is. *)
Lemma string_find_spec needle s : string_find needle s = None ↔ ¬ ∃ l k, s = l ++ needle ++ k.
Proof.
  induction s as [|c s IH]; cbn [string_find]; (case_decide as Ht; [split; [done|]; intros Hn; destruct Hn|]).
  - exists [], []. rewrite <- Ht at 1. by rewrite take_nil.
  - split; [|done]. intros _ (l & k & E). apply Ht. symmetry in E. apply app_nil in E as [-> E]. apply app_nil in E as [-> _]. done.
  - exists [], (drop (length needle) (c :: s)). rewrite <- Ht at 1. by rewrite take_drop.
  - rewrite fmap_None, IH. split; intros Hn (l & k & E); apply Hn.
    + destruct l as [|d l]; cbn in E; [|injection E as -> ->; by exists l, k].
      destruct Ht. rewrite E. by rewrite take_app_length.
    + exists (c :: l), k. by rewrite E.
Qed.

Lemma string_find_Some needle s n : string_find needle s = Some n → ∃ l k, s = l ++ needle ++ k.
Proof.
  revert n. induction s as [|c s IH]; intros n; cbn [string_find]; (case_decide as Ht; [intros _|]).
  - exists [], []. rewrite <- Ht at 1. by rewrite take_nil.
  - done.
  - exists [], (drop (length needle) (c :: s)). rewrite <- Ht at 1. by rewrite take_drop.
  - intros (m & Hm & _)%fmap_Some. destruct (IH m Hm) as (l & k & ->). by exists (c :: l), k.
Qed.

Lemma digits_run ds rest acc : Forall (λ c, is_digit c = true) ds → (∀ c rest', rest = c :: rest' → is_digit c = false) →
  digits acc (ds ++ rest) = foldl (λ n d, 10 * n + (d - 48)) acc ds.
Proof.
  intros Hd Hr. revert acc. induction Hd as [|d ds Hc _ IH]; intros acc; cbn.
  - destruct rest as [|c rest]; [done|]. cbn. by rewrite (Hr c rest).
  - rewrite Hc. apply IH.
Qed.

Lemma skip_run ws v : spaces ws → (∀ c v', v = c :: v' → is_space c = false) → skip_spaces (ws ++ v) = v.
Proof.
  intros Hw Hv. induction Hw as [|c ws Hc _ IH]; cbn; [|by rewrite Hc].
  destruct v as [|c v]; [done|]. cbn. by rewrite (Hv c v).
Qed.

Lemma digit_not_space c : is_digit c = true → is_space c = false ∧ (c =? 45) = false ∧ (c =? 43) = false.
Proof. unfold is_digit, is_space. intros [H1%Z.leb_le H2%Z.leb_le]%andb_true_iff. split_and!; [|lia|lia]. lia. Qed.

Lemma clamp_eq n sign : (if 2 ^ 64 <=? n then 2 ^ 64 - 1 else if bool_decide (sign = [45]) then wrap64 (- n) else n) =
  (if decide (2 ^ 64 ≤ n) then 2 ^ 64 - 1 else if decide (sign = [45]) then wrap64 (- n) else n).
Proof. destruct (Z.leb_spec (2 ^ 64) n); [by rewrite decide_True|]. rewrite decide_False by lia. by repeat case_decide; case_bool_decide. Qed.

Lemma says_extract old v k : says old v k → extract_size old v = k.
Proof.
  unfold extract_size. destruct 1 as [ws Hw|ws sign ds rest Hw Hs Hd Hr Hne].
  { rewrite <- (app_nil_r ws), skip_run by done. done. }
  pose proof (λ acc, digits_run ds rest acc Hd Hr) as Hdig. unfold decimal.
  rewrite skip_run; [|done|].
  - rewrite !elem_of_cons in Hs. destruct Hs as [->|[->|[->|[]%elem_of_nil]]]; cbn [app].
    + destruct (ds ++ rest) as [|c v] eqn:E.
      { apply app_nil in E as [-> ->]. by destruct (Hne eq_refl eq_refl) as (? & ? & ? & _). }
      assert (Hc : (c =? 45) = false ∧ (c =? 43) = false).
      { destruct ds as [|d ds]; cbn in E.
        - destruct (Hne eq_refl eq_refl) as (c' & v' & E' & _ & H1 & H2). rewrite E' in E. injection E as -> ->. lia.
        - injection E as -> _. inversion Hd; subst. by apply digit_not_space. }
      destruct Hc as [-> ->]. rewrite Hdig. apply (clamp_eq _ []).
    + cbn. rewrite Hdig. apply (clamp_eq _ [43]).
    + cbn. rewrite Hdig. apply (clamp_eq _ [45]).
  - rewrite !elem_of_cons in Hs. destruct Hs as [->|[->|[->|[]%elem_of_nil]]]; cbn [app]; intros c v' E.
    + destruct ds as [|d ds]; cbn in E.
      * destruct (Hne eq_refl eq_refl) as (c' & v & E' & Hc & _). rewrite E' in E. by injection E as -> _.
      * injection E as -> _. inversion Hd; subst. by apply digit_not_space.
    + by injection E as <- _.
    + by injection E as <- _.
Qed.

(** The body length announced by header lines, starting from [n]: the last line
    that mentions the name and has a value counts; [None]: a line too short to hold one. *)
Fixpoint content_size (n : Z) (hs : list str) : option Z :=
  match hs with
  | [] => Some n
  | h :: hs' =>
    match string_find lengthString h with
    | None => content_size n hs'
    | Some _ =>
      if decide (length h < sizeof_lengthString)%nat then None
      else content_size (extract_size n (drop sizeof_lengthString h)) hs'
    end
  end.

(** Every text says something. *)
Lemma split_while (f : Z → bool) v : ∃ l k, v = l ++ k ∧ Forall (λ c, f c = true) l ∧ (∀ c k', k = c :: k' → f c = false).
Proof.
  induction v as [|c v (l & k & -> & Hl & Hk)]; [by exists [], []|]. destruct (f c) eqn:E.
  - exists (c :: l), k. split_and!; [done|by constructor|done].
  - exists [], (c :: l ++ k). split_and!; [done|done|]. by intros d k' [= <- _].
Qed.

Lemma says_total old v : ∃ k, says old v k.
Proof.
  destruct (split_while is_space v) as (ws & t & -> & Hws & Ht).
  assert (Hnum : ∀ sign t', t = sign ++ t' → sign ∈ [[]; [43]; [45]] →
    (sign = [] → ∃ c t'', t' = c :: t'' ∧ is_space c = false ∧ c ≠ 43 ∧ c ≠ 45) → ∃ k, says old (ws ++ t) k).
  { intros sign t' -> Hs Hc. destruct (split_while is_digit t') as (ds & rest & -> & Hd & Hr).
    eexists. apply says_number; [done|done|done|done|]. intros Es ->. by apply Hc. }
  destruct t as [|c t]; [exists old; rewrite app_nil_r; by apply says_nothing|].
  destruct (decide (c = 43)) as [->|H1]; [by apply (Hnum [43] t); [|set_solver|]|].
  destruct (decide (c = 45)) as [->|H2]; [by apply (Hnum [45] t); [|set_solver|]|].
  apply (Hnum [] (c :: t)); [done|set_solver|]. intros _. exists c, t. split_and!; [done|by apply (Ht c t)|done|done].
Qed.

Lemma announced_content_size n hs r : announced n hs r ↔ r = content_size n hs.
Proof.
  split.
  - induction 1 as [n|n h hs r Hm _ IH|n h hs Hm Hl|n h name v k hs r Hm Hh Hn Hv _ IH]; cbn [content_size]; [done|..].
    + unfold mentions in Hm. apply string_find_spec in Hm. by rewrite Hm.
    + destruct (string_find lengthString h) eqn:E; [by rewrite decide_True|]. by apply string_find_spec in E.
    + destruct (string_find lengthString h) eqn:E; [|by apply string_find_spec in E].
      subst h. rewrite decide_False by (rewrite length_app; lia). rewrite <- Hn, drop_app_length. by rewrite (says_extract _ _ _ Hv).
  - intros ->. revert n. induction hs as [|h hs IH]; intros n; cbn [content_size]; [constructor|].
    destruct (string_find lengthString h) eqn:E; [|apply announced_other; [by apply string_find_spec|apply IH]].
    pose proof (string_find_Some _ _ _ E) as Hm.
    case_decide as Hl; [by apply announced_short|]. destruct (says_total n (drop sizeof_lengthString h)) as [k Hk].
    rewrite (says_extract _ _ _ Hk). apply (announced_value n h (take sizeof_lengthString h) (drop sizeof_lengthString h) k); [done|by rewrite take_drop| |done|apply IH].
    rewrite length_take. lia.
Qed.

Section responses.
Context {I : Type} `{Input I, !InputLaws I}.
Implicit Types (i : I) (l s : str).

Lemma response_line fuel n i (q : Response) s rest :
  line s → reads i (s ++ CRLF ++ rest) → (length s < S fuel)%nat → 
  ∃ i', response_headers (S fuel) n (i, q) =
      (if decide (s = []) then Done n (i', q) else
       match string_find lengthString s with
       | None => response_headers fuel n
       | Some _ => if decide (length s < sizeof_lengthString)%nat then throw out_of_range
                   else response_headers fuel (extract_size n (drop sizeof_lengthString s))
       end (i', match string_find lengthString s with
                | Some _ => if decide (length s < sizeof_lengthString)%nat then q else
                    mkResponse (statusLine q) (headerRemainder q ++ s) (body q)
                | None => mkResponse (statusLine q) (headerRemainder q ++ s) (body q)
                end)) ∧
    reads i' rest ∧ moved i i' (length s + 2).
Proof.
  intros Hl Hi Hf. destruct (parseLine_cr (S fuel) i [] s LF rest Hl Hi Hf) as (i0 & i' & Hr & Hi').
  exists i'. split; [|done]. cbn [response_headers]. rewrite Z.eqb_refl in Hr.
  unfold local at 1. unfold mbind at 1, P_bind at 1. cbn [fst snd]. rewrite Hr. cbn [app fst snd].
  destruct (decide (s = [])); [done|].
  destruct (string_find lengthString s); [|done]. unfold header_value, mbind, P_bind.
  destruct (Nat.ltb_spec (length s) sizeof_lengthString); [by rewrite !decide_True|].
  by rewrite !decide_False by lia.
Qed.

(** The header lines of a response up to its empty line. *)
Lemma response_headers_ok hs : ∀ fuel n i (q : Response) rest,
  Forall (λ h, h ≠ [] ∧ line h) hs → reads i (lines hs ++ CRLF ++ rest) →
  (length (lines hs) < fuel)%nat →
  match content_size n hs with
  | None => ∃ st, response_headers fuel n (i, q) = Throw out_of_range st
  | Some m => ∃ i', response_headers fuel n (i, q) =
      Done m (i', mkResponse (statusLine q) (headerRemainder q ++ concat hs) (body q)) ∧
      reads i' rest ∧ moved i i' (length (lines hs ++ CRLF))
  end.
Proof.
  induction hs as [|h hs IH]; intros fuel n i q rest Hwf Hi Hf; (destruct fuel as [|fuel]; [lia|]).
  - destruct (response_line fuel n i q [] rest ltac:(constructor) Hi ltac:(simpl; lia)) as (i' & Hr & Hi').
    exists i'. simpl concat. rewrite app_nil_r, Hr. by destruct q.
  - apply Forall_cons in Hwf as [[Hne Hh] Hwf].
    change (lines (h :: hs)) with ((h ++ CRLF) ++ lines hs) in *. rewrite !length_app in Hf.
    rewrite <-!app_assoc in Hi. cbn [length CRLF] in Hf.
    destruct (response_line fuel n i q h _ Hh Hi ltac:(lia)) as (i1 & Hr & Hi1 & Hm1).
    rewrite Hr. rewrite decide_False by done. cbn [content_size].
    destruct (string_find lengthString h);
      [destruct (decide (length h < sizeof_lengthString)%nat); [by eauto|]|].
    all: match goal with |- context [content_size ?k _] => pose proof (λ H, IH fuel k i1
      (mkResponse (statusLine q) (headerRemainder q ++ h) (body q)) rest Hwf Hi1 H) as IH1;
      specialize (IH1 ltac:(lia)); destruct (content_size k _) end; [|exact IH1].
    all: destruct IH1 as (i' & Hr' & Hi' & Hm'); exists i'; rewrite Hr'; cbn [statusLine headerRemainder body concat].
    all: rewrite <-app_assoc; split_and!; [done|done|].
    all: unfold moved in *; rewrite !length_app in *; cbn [length CRLF] in *; lia.
Qed.

Lemma body_loop_ok k : ∀ i (q : Response) rest,
  reads i (k ++ rest) →
  ∃ i', body_loop (length k) (i, q) =
      Done tt (i', mkResponse (statusLine q) (headerRemainder q) (body q ++ k)) ∧
    reads i' rest ∧ moved i i' (length k).
Proof.
  induction k as [|c k IH]; intros i q rest Hi.
  { exists i. rewrite app_nil_r. destruct q. by split_and!; auto using moved_refl. }
  simpl in Hi. destruct (step_ok i c _ (body q ++ [c]) Hi) as (i1 & Hs & Hi1 & Hm1).
  destruct (IH i1 (mkResponse (statusLine q) (headerRemainder q) (body q ++ [c])) rest Hi1)
    as (i' & Hr & Hi' & Hm').
  exists i'. cbn [length body_loop]. erewrite P_bind_done.
  2:{ unfold pzoom at 1. cbn [fst snd]. rewrite (P_bind_done _ _ _ _ _ (peek_ok _ _ _ _ Hi)).
      erewrite P_bind_done by reflexivity. cbn [fst snd]. rewrite Hs. reflexivity. }
  cbn [fst snd]. rewrite Hr. cbn [statusLine headerRemainder body]. rewrite <-app_assoc.
  split_and!; [done|done|apply (moved_trans _ _ _ _ _ Hm1 Hm')].
Qed.

Lemma parse_response_ok fuel i q0 status hs rest :
  line status → Forall (λ h, h ≠ [] ∧ line h) hs →
  let l := status ++ CRLF ++ lines hs ++ CRLF ++ rest in
  reads i l → in_bytesTotal i - in_bytesRead i = Z.of_nat (length l) →
  Z.of_nat (length l) < Z.of_nat fuel < 2 ^ 64 →
  match content_size 0 hs with
  | None => ∃ st, parseResponse fuel (i, q0) = Throw out_of_range st
  | Some n =>
    if decide (Z.of_nat (length rest) < n) then ∃ st, parseResponse fuel (i, q0) = Done 1 st
    else ∃ i', parseResponse fuel (i, q0) =
        Done 0 (i', mkResponse status (concat hs) (take (Z.to_nat n) rest)) ∧
      reads i' (drop (Z.to_nat n) rest) ∧
      moved i i' (length (status ++ CRLF ++ lines hs ++ CRLF) + Z.to_nat n)
  end.
Proof.
  intros Hs Hhs l Hi Htot Hf. unfold l in *. rewrite !length_app in *. cbn [length CRLF] in *.
  destruct (parseLine_cr fuel i [] status LF _ Hs Hi ltac:(lia)) as (i0 & i1 & Hr1 & Hi1 & Hm1).
  rewrite Z.eqb_refl in Hr1. cbn [app] in Hr1.
  assert (E : parseResponse fuel (i, q0) =
    try_parse (contentSize ← response_headers fuel 0; read_body contentSize) (i1, mkResponse status [] [])).
  { unfold parseResponse, try_parse. cbn [fst]. unfold response_steps at 1.
    erewrite P_bind_done; [reflexivity|]. unfold into_statusLine, pzoom. cbn. by rewrite Hr1. }
  pose proof (response_headers_ok hs fuel 0 i1 (mkResponse status [] []) rest Hhs Hi1 ltac:(lia)) as Hh.
  rewrite E. destruct (content_size 0 hs) as [n|].
  2:{ destruct Hh as [st Hh]. exists st. unfold try_parse. by rewrite (P_bind_throw _ _ _ _ _ Hh). }
  destruct Hh as (i2 & Hr2 & Hi2 & Hm2). cbn [statusLine headerRemainder body app] in Hr2.
  assert (Hb : wrap64 (in_bytesTotal i2 - in_bytesRead i2) = Z.of_nat (length rest)).
  { unfold moved in *. rewrite !length_app in *. cbn [length CRLF] in *. rewrite wrap64_small; lia. }
  unfold try_parse. rewrite (P_bind_done _ _ _ _ _ Hr2). unfold read_body. cbn [fst]. rewrite Hb.
  destruct (Z.ltb_spec (Z.of_nat (length rest)) n) as [Hn|Hn].
  { rewrite decide_True by lia. eauto. }
  rewrite decide_False by lia. rewrite <-(take_drop (Z.to_nat n) rest) in Hi2.
  destruct (body_loop_ok (take (Z.to_nat n) rest) i2 (mkResponse status (concat hs) []) _ Hi2)
    as (i' & Hr & Hi' & Hm'). exists i'.
  rewrite length_take_le in Hr, Hm' by lia. rewrite Hr. split_and!; [done|done|].
  unfold moved in *. rewrite !length_app in *. cbn [length CRLF] in *. lia.
Qed.

(** A text cut inside or behind its first line. *)
Lemma cut_line p k s t : p ++ k = s ++ CRLF ++ t → line s → last p ≠ Some CR →
  line p ∧ (length p ≤ length s)%nat ∨ ∃ p', p = s ++ CRLF ++ p' ∧ p' ++ k = t ∧ last p' ≠ Some CR.
Proof.
  intros E Hs Hcr. destruct (decide (length p ≤ length s)%nat) as [Hle|Hle]; [left|right].
  - split; [|done]. assert (Ep : p = take (length p) s).
    { rewrite <- (take_app_le s (CRLF ++ t)), <- E by done. by rewrite take_app_length. }
    rewrite Ep. by apply Forall_take.
  - assert (Ep : p = s ++ drop (length s) p).
    { rewrite <- (take_drop (length s) p) at 1. f_equal. rewrite <- (take_app_le p k), E by lia. by rewrite take_app_length. }
    set (p' := drop (length s) p) in *. clearbody p'. subst p. rewrite length_app in Hle. rewrite <- (assoc_L (++)) in E.
    apply app_inv_head in E. destruct p' as [|x [|y p']]; [cbn in Hle; lia|injection E as -> _; by rewrite last_snoc in Hcr|].
    injection E as -> -> E. exists p'. split_and!; [done|done|]. intros El. apply Hcr. rewrite last_app. cbn.
    destruct p' as [|z p']; [done|]. cbn in El |- *. by rewrite El.
Qed.

(** While the header lines arrive, the parser waits. *)
Lemma response_headers_waits hs : ∀ fuel n i (q : Response) p k,
  Forall (λ h, h ≠ [] ∧ line h) hs → content_size n hs ≠ None → p ++ k = lines hs ++ CRLF → k ≠ [] → last p ≠ Some CR →
  reads i p → (length p < fuel)%nat → ∃ st, response_headers fuel n (i, q) = Throw IncompleteInput st.
Proof.
  assert (Hend : ∀ fuel n i (q : Response) s, line s → reads i s → (length s < S fuel)%nat →
    ∃ st, response_headers (S fuel) n (i, q) = Throw IncompleteInput st).
  { intros fuel n i q s Hs Hi Hf. destruct (parseLine_end (S fuel) i [] s Hs Hi Hf) as (i' & Hr). eexists.
    cbn [response_headers]. apply P_bind_throw. unfold local. cbn [fst snd]. by rewrite Hr. }
  induction hs as [|h hs IH]; intros fuel n i q p k Hwf Hsz E Hk Hcr Hi Hf; (destruct fuel as [|fuel]; [lia|]).
  - destruct (cut_line p k [] [] E ltac:(constructor) Hcr) as [[Hl _]|(p' & -> & [-> ->]%app_nil & _)]; [|done].
    by apply (Hend fuel n i q p).
  - apply Forall_cons in Hwf as [[Hne Hh] Hwf]. change (lines (h :: hs)) with ((h ++ CRLF) ++ lines hs) in E.
    rewrite <- !(assoc_L (++)) in E. destruct (cut_line _ _ _ _ E Hh Hcr) as [[Hl _]|(p' & -> & E' & Hcr')].
    + by apply (Hend fuel n i q p).
    + rewrite !length_app in Hf. cbn [length CRLF] in Hf.
      destruct (response_line fuel n i q h p' Hh Hi ltac:(lia)) as (i1 & Hr & Hi1 & _).
      rewrite Hr, decide_False by done. cbn [content_size] in Hsz.
      destruct (string_find lengthString h); [destruct (decide (length h < sizeof_lengthString)%nat); [done|]|].
      all: by eapply IH; [..|exact Hi1|lia].
Qed.

(** Every proper prefix of a response that does not end in a carriage return
    waits for more. *)
Lemma response_waits fuel i q0 status hs bd p k :
  line status → Forall (λ h, h ≠ [] ∧ line h) hs → content_size 0 hs = Some (Z.of_nat (length bd)) →
  p ++ k = status ++ CRLF ++ lines hs ++ CRLF ++ bd → k ≠ [] → last p ≠ Some CR →
  reads i p → in_bytesTotal i - in_bytesRead i = Z.of_nat (length p) → Z.of_nat (length p) < Z.of_nat fuel < 2 ^ 64 →
  ∃ st, parseResponse fuel (i, q0) = Done 1 st.
Proof.
  intros Hs Hhs Hsz E Hk Hcr Hi Htot Hf.
  destruct (cut_line _ _ _ _ E Hs Hcr) as [[Hl _]|(p1 & -> & E1 & Hcr1)].
  { destruct (parseLine_end fuel i [] p Hl Hi ltac:(lia)) as (i' & Hr). eexists.
    unfold parseResponse, try_parse. cbn [fst]. unfold response_steps at 1. erewrite P_bind_throw.
    2:{ unfold into_statusLine, pzoom. cbn. rewrite Hr. reflexivity. } reflexivity. }
  destruct (decide (length (lines hs ++ CRLF) ≤ length p1)%nat) as [Hle|Hle].
  - assert (Ep : p1 = (lines hs ++ CRLF) ++ drop (length (lines hs ++ CRLF)) p1).
    { rewrite <- (take_drop (length (lines hs ++ CRLF)) p1) at 1. f_equal.
      by rewrite <- (take_app_le p1 k), E1, (assoc_L (++)), take_app_length by lia. }
    set (b1 := drop (length (lines hs ++ CRLF)) p1) in *. clearbody b1. subst p1. rewrite <- !(assoc_L (++)) in *.
    do 2 apply app_inv_head in E1. subst bd.
    pose proof (parse_response_ok fuel i q0 status hs b1 Hs Hhs Hi Htot Hf) as Hp. rewrite Hsz, decide_True in Hp; [done|].
    rewrite length_app. destruct k; [done|cbn; lia].
  - assert (E' : p1 ++ take (length (lines hs ++ CRLF) - length p1) k = lines hs ++ CRLF).
    { by rewrite <- take_app_ge, E1, (assoc_L (++)), take_app_length by lia. }
    rewrite !length_app in Hf. cbn [length CRLF] in Hf.
    destruct (parseLine_cr fuel i [] status LF p1 Hs Hi ltac:(lia)) as (i0 & i1 & Hr1 & Hi1 & _). rewrite Z.eqb_refl in Hr1.
    destruct (response_headers_waits hs fuel 0 i1 (mkResponse status [] []) p1 _ Hhs ltac:(by rewrite Hsz) E') as (st & Hw);
      [|done|done|lia|].
    { intros Ek. rewrite Ek, app_nil_r in E'. rewrite E' in Hle. lia. }
    eexists. unfold parseResponse, try_parse. cbn [fst]. unfold response_steps at 1.
    erewrite P_bind_done. 2:{ unfold into_statusLine, pzoom. cbn. rewrite Hr1. reflexivity. }
    cbn [fst snd app statusLine headerRemainder body Response_clear]. by rewrite (P_bind_throw _ _ _ _ _ Hw).
Qed.

(** C34: a response with header lines [hs] followed by [rest].  The lines announce one
    length, [r]: the value of the last line that mentions Content-Length and says a
    number, 0 if there is none.  When such a line has no room for a value, an exception
    that the parser does not catch escapes; when fewer bytes than announced have
    arrived the response is incomplete; otherwise it is parsed, its body has
    the announced length, and the iterator stops behind the body. *)
Theorem parse_response_exact fuel i q0 status hs rest :
  line status → Forall (λ h, h ≠ [] ∧ line h) hs →
  let l := status ++ CRLF ++ lines hs ++ CRLF ++ rest in
  reads i l → in_bytesTotal i - in_bytesRead i = Z.of_nat (length l) →
  Z.of_nat (length l) < Z.of_nat fuel < 2 ^ 64 →
  ∃ r, (∀ r', announced 0 hs r' ↔ r' = r) ∧
  match r with
  | None => ∃ st, parseResponse fuel (i, q0) = Throw out_of_range st
  | Some n =>
    if decide (Z.of_nat (length rest) < n) then ∃ st, parseResponse fuel (i, q0) = Done 1 st
    else ∃ i', parseResponse fuel (i, q0) =
        Done 0 (i', mkResponse status (concat hs) (take (Z.to_nat n) rest)) ∧
      reads i' (drop (Z.to_nat n) rest)
  end.
Proof.
  intros Hs Hhs l Hi Htot Hf. pose proof (parse_response_ok fuel i q0 status hs rest Hs Hhs Hi Htot Hf) as H1.
  exists (content_size 0 hs). split; [intros r'; apply announced_content_size|].
  destruct (content_size 0 hs) as [n|]; [|done]. case_decide; [done|]. destruct H1 as (i' & ? & ? & _). eauto.
Qed.
End responses.

(** Two Content-Length lines, of which the second is blank: the first one counts. *)
Lemma parse_response_exact_witness :
  (∃ i', parseResponse 100 (text_of (bytes "HTTP/1.1 200 OK" ++ CRLF ++ bytes "Content-Length: 2" ++ CRLF ++
     bytes "Content-Length:  " ++ CRLF ++ CRLF ++ bytes "hello"), Response_clear) =
     Done 0 (i', mkResponse (bytes "HTTP/1.1 200 OK") (bytes "Content-Length: 2Content-Length:  ") (bytes "he"))) ∧
  (∃ st, parseResponse 100 (text_of (bytes "HTTP/1.1 200 OK" ++ CRLF ++ bytes "Content-Length:" ++ CRLF ++
     CRLF), Response_clear) = Throw out_of_range st).
Proof.
  split.
  - destruct (parse_response_exact 100 (text_of (bytes "HTTP/1.1 200 OK" ++ CRLF ++
      bytes "Content-Length: 2" ++ CRLF ++ bytes "Content-Length:  " ++ CRLF ++ CRLF ++ bytes "hello")) Response_clear
      (bytes "HTTP/1.1 200 OK") [bytes "Content-Length: 2"; bytes "Content-Length:  "] (bytes "hello")) as (r & Hr & H).
    + apply (bool_decide_unpack _). vm_compute. exact I.
    + apply (bool_decide_unpack _). vm_compute. exact I.
    + vm_compute. reflexivity.
    + vm_compute. reflexivity.
    + vm_compute. split; reflexivity.
    + pose proof (proj1 (Hr _) (proj2 (announced_content_size 0 _ _) eq_refl)) as E. vm_compute in E. subst r.
      destruct H as (i' & H & _). exists i'. exact H.
  - destruct (parse_response_exact 100 (text_of (bytes "HTTP/1.1 200 OK" ++ CRLF ++
      bytes "Content-Length:" ++ CRLF ++ CRLF)) Response_clear
      (bytes "HTTP/1.1 200 OK") [bytes "Content-Length:"] []) as (r & Hr & H).
    + apply (bool_decide_unpack _). vm_compute. exact I.
    + apply (bool_decide_unpack _). vm_compute. exact I.
    + vm_compute. reflexivity.
    + vm_compute. reflexivity.
    + vm_compute. split; reflexivity.
    + pose proof (proj1 (Hr _) (proj2 (announced_content_size 0 _ _) eq_refl)) as E. vm_compute in E. subst r. exact H.
Defined.
