(* ===== verification/RequestStats.v ===== *)
(** * Requests per second ([request_stats.hpp], [request_stats.cpp])

    Each thread counts its requests in ten slots of a tenth of a second, used
    in a circle.  The number of ticks per second is measured at start-up and
    is a parameter here. *)

From S2P Require Import Prelude.
From stdpp Require Import base numbers list gmap sorting.
Open Scope Z_scope.

Definition kNumSlots : Z := 10.

Record Counts : Type := mkCounts { base_pos : Z; base_tick : Z; val : list Z }.

Section stats.
(** [TicksClock::ticksPerSecond()] *)
Context (ticksPerSecond : Z).

Definition kTicksPerSlot : Z := ticksPerSecond / kNumSlots.

Definition incPos (p : Z) : Z := wrap32 (p + 1) `mod` kNumSlots.
Definition posForTick (t : Z) : Z := (t / kTicksPerSlot) `mod` kNumSlots.
Definition roundTick (t : Z) : Z := t - t `mod` kTicksPerSlot.

(** [RequestStats::RequestStats(num_threads)] *)
Definition RequestStats_init (num_threads : nat) : list Counts :=
  replicate num_threads (mkCounts 0 0 (replicate (Z.to_nat kNumSlots) 0)).

(** [new Counts[num_threads_]] throws for a negative number; memory does not run out. *)
Definition RequestStats_new (num_threads : Z) : M unit (list Counts) :=
  if num_threads <? 0 then fail Terminate else mret (RequestStats_init (Z.to_nat num_threads)).

(** [do { curr_pos = incPos(curr_pos); val[curr_pos] = 0; } while (curr_pos != new_pos);] *)
Fixpoint zero_slots (fuel : nat) (curr_pos new_pos : Z) (v : list Z) : option (list Z) :=
  match fuel with
  | O => None
  | S fuel' =>
    let c := incPos curr_pos in
    let v' := <[Z.to_nat c := 0]> v in
    if negb (c =? new_pos) then zero_slots fuel' c new_pos v' else Some v'
  end.

(** The loop makes at most [kNumSlots] rounds. *)
Definition finish (c : Counts) (now : Z) : option Counts :=
  c' ←
    (if wrap64 (base_tick c + kTicksPerSlot) <? now then
       let new_pos := posForTick now in
       v ← (if wrap64 (base_tick c + ticksPerSecond) <? now
            then Some (replicate (Z.to_nat kNumSlots) 0)
            else zero_slots (Z.to_nat kNumSlots) (base_pos c) new_pos (val c));
       Some (mkCounts new_pos (roundTick now) v)
     else Some c);
  let p := Z.to_nat (base_pos c') in
  n ← val c' !! p;
  Some (mkCounts (base_pos c') (base_tick c') (<[p := wrap32 (n + 1)]> (val c'))).

Definition finishedRequest (thread_num : Z) (now : Z) : M (list Counts) unit := λ s,
  if Z.of_nat (length s) <=? thread_num then Err Fatal else
  match s !! Z.to_nat thread_num with
  | None => Err (OutOfBounds thread_num)
  | Some c =>
    match finish c now with
    | None => Err OutOfFuel
    | Some c' => Ok tt (<[Z.to_nat thread_num := c']> s)
    end
  end.

(** [do { curr_pos = incPos(curr_pos); reqs_acc += val[curr_pos]; } while (...);] *)
Fixpoint sum_slots (fuel : nat) (curr_pos last_pos : Z) (v : list Z) (reqs_acc : Z) : option Z :=
  match fuel with
  | O => None
  | S fuel' =>
    let c := incPos curr_pos in
    n ← v !! Z.to_nat c;
    let acc := wrap32 (reqs_acc + n) in
    if negb (c =? last_pos) then sum_slots fuel' c last_pos v acc else Some acc
  end.

Fixpoint stats_loop (now : Z) (cs : list Counts) (reqs_acc : Z) : option Z :=
  match cs with
  | [] => Some reqs_acc
  | c :: cs' =>
    if ticksPerSecond <? wrap64 (now - base_tick c) then stats_loop now cs' reqs_acc
    else
      acc ← sum_slots (Z.to_nat kNumSlots) (posForTick now) (base_pos c) (val c) reqs_acc;
      stats_loop now cs' acc
  end.

Definition getStats (now : Z) (s : list Counts) : option Z := stats_loop now s 0.

(** The accessor for tests. *)
Definition ticksPerSlot : Z := 0.

(** ** The slots as counters of a sliding window *)

(** [rep c slots]: the requests counted so far were put into the slots [slots]
    (numbered from tick 0); the array holds the counts of the ten slots up to
    the current one, [B]. *)
Record rep (c : Counts) (B : Z) (slots : list Z) : Prop := {
  rep_B : 0 ≤ B;
  rep_tick : base_tick c = B * kTicksPerSlot;
  rep_pos : base_pos c = B `mod` 10;
  rep_len : length (val c) = 10%nat;
  rep_le : Forall (λ s, s ≤ B) slots;
  rep_val : ∀ s, B - 10 < s ≤ B →
    val c !! Z.to_nat (s `mod` 10) = Some (wrap32 (Z.of_nat (length (filter (λ r, r = s) slots))));
}.

Lemma incPos_mod p : incPos (p `mod` 10) = (p + 1) `mod` 10.
Proof.
  unfold incPos, kNumSlots. pose proof (Z.mod_pos_bound p 10 ltac:(lia)).
  rewrite wrap32_small by lia. by rewrite Zplus_mod_idemp_l.
Qed.

(** Slots less than ten apart have different positions. *)
Lemma pos_inj s t : s - 10 < t < s + 10 → s `mod` 10 = t `mod` 10 → s = t.
Proof. intros H E. pose proof (Z.div_mod s 10). pose proof (Z.div_mod t 10). lia. Qed.

Lemma pos_lookup_ne (v : list Z) s t x :
  s - 10 < t < s + 10 → s ≠ t →
  <[Z.to_nat (s `mod` 10) := x]> v !! Z.to_nat (t `mod` 10) = v !! Z.to_nat (t `mod` 10).
Proof.
  intros H Hne. apply list_lookup_insert_ne. intros E. apply Hne, pos_inj; [done|].
  pose proof (Z.mod_pos_bound s 10 ltac:(lia)). pose proof (Z.mod_pos_bound t 10 ltac:(lia)). lia.
Qed.

Lemma pos_lookup_eq (v : list Z) s x :
  length v = 10%nat → <[Z.to_nat (s `mod` 10) := x]> v !! Z.to_nat (s `mod` 10) = Some x.
Proof.
  intros H. apply list_lookup_insert_eq. pose proof (Z.mod_pos_bound s 10 ltac:(lia)). lia.
Qed.

(** Zeroing from slot [C] (exclusive) to slot [N]. *)
Lemma zero_slots_ok fuel : ∀ C N v,
  C < N ≤ C + 10 → N - C ≤ Z.of_nat fuel → length v = 10%nat →
  ∃ v', zero_slots fuel (C `mod` 10) (N `mod` 10) v = Some v' ∧ length v' = 10%nat ∧
    ∀ s, N - 10 < s ≤ N → v' !! Z.to_nat (s `mod` 10) =
      if decide (C < s) then Some 0 else v !! Z.to_nat (s `mod` 10).
Proof.
  induction fuel as [|fuel IH]; intros C N v HC Hf Hv; [lia|].
  cbn [zero_slots]. rewrite incPos_mod.
  destruct (Z.eqb_spec ((C + 1) `mod` 10) (N `mod` 10)) as [E|E]; cbn [negb].
  - apply pos_inj in E; [|lia]. eexists. split; [done|]. split; [by rewrite length_insert|].
    intros s Hs. destruct (decide (s = N)) as [->|Hne].
    + rewrite E, decide_True by lia. by apply pos_lookup_eq.
    + rewrite pos_lookup_ne by lia. by rewrite decide_False by lia.
  - assert (C + 1 ≠ N) by congruence.
    destruct (IH (C + 1) N (<[Z.to_nat ((C + 1) `mod` 10) := 0]> v)) as (v' & Hr & Hl & Hv');
      [lia|lia|by rewrite length_insert|].
    exists v'. split_and!; [done|done|]. intros s Hs. rewrite Hv' by done.
    destruct (decide (C + 1 < s)); [by rewrite decide_True by lia|].
    destruct (decide (C < s)).
    + replace s with (C + 1) by lia. by apply pos_lookup_eq.
    + apply pos_lookup_ne; lia.
Qed.

(** The requests in the slots after [C]. *)
Definition since (C : Z) (slots : list Z) : Z := Z.of_nat (length (filter (λ r, C < r) slots)).
Definition between (C B : Z) (slots : list Z) : Z :=
  Z.of_nat (length (filter (λ r, C < r ≤ B) slots)).

Lemma between_step C B slots : C < B →
  between C B slots = Z.of_nat (length (filter (λ r, r = C + 1) slots)) + between (C + 1) B slots.
Proof.
  intros HC. unfold between. induction slots as [|r slots IH]; [done|].
  rewrite !filter_cons. repeat case_decide; simpl in *; lia.
Qed.

Lemma between_empty C slots : between C C slots = 0.
Proof.
  unfold between. induction slots as [|r slots IH]; [done|]. rewrite filter_cons, decide_False by lia. done.
Qed.

Lemma between_since C B slots : Forall (λ s, s ≤ B) slots → between C B slots = since C slots.
Proof.
  unfold between, since. induction 1 as [|r slots Hr _ IH]; [done|].
  rewrite !filter_cons. repeat case_decide; simpl in *; lia.
Qed.

Lemma wrap32_add_l x y : wrap32 (wrap32 x + y) = wrap32 (x + y).
Proof. unfold wrap32. by rewrite Zplus_mod_idemp_l. Qed.

Lemma wrap32_add_r x y : wrap32 (x + wrap32 y) = wrap32 (x + y).
Proof. unfold wrap32. by rewrite Zplus_mod_idemp_r. Qed.

Lemma sum_slots_ok fuel : ∀ C B v acc slots,
  C < B ≤ C + 10 → B - C ≤ Z.of_nat fuel →
  (∀ s, C < s ≤ B → v !! Z.to_nat (s `mod` 10) =
     Some (wrap32 (Z.of_nat (length (filter (λ r, r = s) slots))))) →
  sum_slots fuel (C `mod` 10) (B `mod` 10) v acc = Some (wrap32 (acc + between C B slots)).
Proof.
  induction fuel as [|fuel IH]; intros C B v acc slots HC Hf Hv; [lia|].
  cbn [sum_slots]. rewrite incPos_mod, Hv by lia. cbn.
  rewrite (between_step C B) by lia. rewrite wrap32_add_r.
  destruct (Z.eqb_spec ((C + 1) `mod` 10) (B `mod` 10)) as [E|E]; cbn [negb].
  - apply pos_inj in E; [|lia]. rewrite <-E, between_empty. do 2 f_equal. lia.
  - assert (C + 1 ≠ B) by congruence. rewrite (IH (C + 1) B _ _ slots); [|lia|lia|intros; apply Hv; lia].
    f_equal. rewrite wrap32_add_l. f_equal. lia.
Qed.

Lemma count_above s slots B : Forall (λ r, r ≤ B) slots → B < s → filter (λ r, r = s) slots = [].
Proof. induction 1 as [|r slots Hr _ IH]; intros; [done|]. rewrite filter_cons, decide_False by lia. auto. Qed.

(** Counting one more request in the current slot. *)
Lemma rep_count c B slots :
  rep c B slots →
  ∃ n, val c !! Z.to_nat (base_pos c) = Some n ∧
    rep (mkCounts (base_pos c) (base_tick c) (<[Z.to_nat (base_pos c) := wrap32 (n + 1)]> (val c)))
      B (slots ++ [B]).
Proof.
  intros [HB Ht Hp Hlen Hle Hv]. eexists. rewrite Hp. split; [apply Hv; lia|].
  split; simpl; [done|done|done|by rewrite length_insert| |].
  { apply Forall_app. split; [done|]. by repeat constructor. }
  intros s Hs. rewrite filter_app, length_app, filter_cons. destruct (decide (B = s)) as [<-|Hne]; simpl.
  - rewrite pos_lookup_eq by done. rewrite wrap32_add_l. do 2 f_equal. lia.
  - rewrite pos_lookup_ne by lia. rewrite Hv by lia. do 2 f_equal. lia.
Qed.

Hypothesis rate : 100 ≤ ticksPerSecond.

Lemma slot_size : 10 ≤ kTicksPerSlot ∧ 10 * kTicksPerSlot ≤ ticksPerSecond < 10 * kTicksPerSlot + 10.
Proof.
  unfold kTicksPerSlot, kNumSlots. pose proof (Z.div_mod ticksPerSecond 10 ltac:(lia)).
  pose proof (Z.mod_pos_bound ticksPerSecond 10 ltac:(lia)). lia.
Qed.

(** A request at tick [t] was counted in slot [s]. *)
Definition assigned (t s : Z) : Prop := s * kTicksPerSlot ≤ t ≤ (s + 1) * kTicksPerSlot.

Lemma finish_ok c B slots now :
  rep c B slots → base_tick c ≤ now → now + ticksPerSecond < 2 ^ 64 →
  ∃ c' B', finish c now = Some c' ∧ rep c' B' (slots ++ [B']) ∧ assigned now B'.
Proof.
  intros Hrep Hnow Hmax. pose proof slot_size as (HT & HS1 & HS2).
  pose proof Hrep as [HB Ht Hp Hlen Hle Hv]. unfold finish. unfold assigned.
  set (T := kTicksPerSlot) in *. rewrite !wrap64_small by nia.
  destruct (Z.ltb_spec (base_tick c + T) now) as [Hadv|Hsame].
  2:{ destruct (rep_count c B slots Hrep) as (n & Hn & Hrep'). cbn. rewrite Hn. cbn.
      eexists _, B. split; [done|]. split; [done|]. nia. }
  pose proof (Z.div_mod now T ltac:(lia)) as Hdiv. pose proof (Z.mod_pos_bound now T ltac:(lia)).
  set (N := now / T) in *. assert (HN : B < N) by nia.
  assert (Hz : ∃ v, (if base_tick c + ticksPerSecond <? now then Some (replicate (Z.to_nat kNumSlots) 0)
             else zero_slots (Z.to_nat kNumSlots) (base_pos c) (posForTick now) (val c)) = Some v ∧
      rep (mkCounts (posForTick now) (roundTick now) v) N slots).
  { destruct (Z.ltb_spec (base_tick c + ticksPerSecond) now) as [Hall|Hpart].
    - eexists. split; [done|]. split; simpl; try done; [lia|unfold roundTick; fold T; lia|..].
      + eapply Forall_impl; [exact Hle|]. simpl. lia.
      + intros s Hs. rewrite (count_above s slots B) by (done || nia). apply (lookup_replicate_2 10).
        pose proof (Z.mod_pos_bound s 10 ltac:(lia)). lia.
    - rewrite Hp. unfold posForTick, kNumSlots. fold T. fold N.
      destruct (zero_slots_ok 10 B N (val c)) as (v & Hr & Hl & Hv'); [nia|nia|done|].
      exists v. split; [exact Hr|]. split; simpl; try done; [lia|unfold roundTick; fold T; lia|..].
      + eapply Forall_impl; [exact Hle|]. simpl. lia.
      + intros s Hs. rewrite Hv' by done. case_decide.
        * by rewrite (count_above s slots B).
        * apply Hv. lia. }
  destruct Hz as (v & -> & Hrep1). cbn.
  destruct (rep_count _ N slots Hrep1) as (n & Hn & Hrep'). simpl in Hn. rewrite Hn. cbn.
  eexists _, N. split; [done|]. split; [done|]. nia.
Qed.

(** The counts of one thread in the window of ten slots that ends now. *)
Lemma stats_one c B slots now acc :
  rep c B slots → base_tick c ≤ now < 2 ^ 64 → wrap32 acc = acc →
  ticksPerSecond `mod` 10 < now `mod` kTicksPerSlot →
  (if ticksPerSecond <? wrap64 (now - base_tick c) then Some acc
   else sum_slots (Z.to_nat kNumSlots) (posForTick now) (base_pos c) (val c) acc) =
    Some (wrap32 (acc + since (now / kTicksPerSlot - 10) slots)).
Proof.
  intros Hrep Hnow Hacc Hbd. pose proof slot_size as (HT & HS1 & HS2).
  pose proof Hrep as [HB Ht Hp Hlen Hle Hv]. rewrite wrap64_small by nia.
  pose proof (Z.div_mod now kTicksPerSlot ltac:(lia)) as Hdiv.
  pose proof (Z.mod_pos_bound now kTicksPerSlot ltac:(lia)).
  pose proof (Z.div_mod ticksPerSecond 10 ltac:(lia)) as HTS.
  change (ticksPerSecond / 10) with kTicksPerSlot in HTS. set (T := kTicksPerSlot) in *.
  destruct (Z.ltb_spec ticksPerSecond (now - base_tick c)) as [Hold|Hnew].
  - rewrite <-(between_since _ B) by done. unfold between.
    assert (Hn : B ≤ now / T - 10) by nia.
    assert (E : filter (λ r, now / T - 10 < r ≤ B) slots = []); [|by rewrite E, Z.add_0_r, Hacc].
    clear -Hn. induction slots as [|r l IH]; [done|]. rewrite filter_cons, decide_False by lia. done.
  - rewrite Hp. unfold posForTick, kNumSlots. fold T.
    assert (E : (now / T) `mod` 10 = (now / T - 10) `mod` 10).
    { replace (now / T - 10) with (now / T + (-1) * 10) by lia. by rewrite Z_mod_plus_full. }
    rewrite E. rewrite (sum_slots_ok 10 _ B _ _ slots); [|nia|nia|intros; apply Hv; nia].
    by rewrite (between_since _ B).
Qed.

Lemma wrap32_idem x : wrap32 (wrap32 x) = wrap32 x.
Proof. unfold wrap32. by rewrite Zmod_mod. Qed.

(** ** All threads *)

(** The ticks of the requests of thread [i] in a log of (thread, tick). *)
Definition ticks (i : nat) (log : list (nat * Z)) : list Z := snd <$> filter (λ p, fst p = i) log.

Definition crep (c : Counts) (slots : list Z) : Prop :=
  ∃ B, rep c B slots ∧ (slots = [] ∧ B = 0 ∨ last slots = Some B).

Definition stats_inv (n : nat) (log : list (nat * Z)) (s : list Counts) : Prop :=
  ∃ slotss, Forall2 crep s slotss ∧
    Forall2 (λ i slots, Forall2 assigned (ticks i log) slots) (seq 0 n) slotss.

Fixpoint run_requests (log : list (nat * Z)) : M (list Counts) unit :=
  match log with
  | [] => mret tt
  | (i, t) :: log' => finishedRequest (Z.of_nat i) t;; run_requests log'
  end.

Lemma stats_init n : stats_inv n [] (RequestStats_init n).
Proof.
  exists (replicate n []). split.
  - apply Forall2_same_length_lookup. unfold RequestStats_init. rewrite !length_replicate. split; [done|].
    intros i c sl [-> Hi]%lookup_replicate [-> _]%lookup_replicate. exists 0. split; [|by left].
    split; simpl; try done. intros s Hs. apply (lookup_replicate_2 10).
    pose proof (Z.mod_pos_bound s 10 ltac:(lia)). lia.
  - apply Forall2_same_length_lookup. rewrite length_replicate, length_seq. split; [done|].
    intros i x sl _ [-> _]%lookup_replicate. constructor.
Qed.

Lemma ticks_snoc_eq i log t : ticks i (log ++ [(i, t)]) = ticks i log ++ [t].
Proof. unfold ticks. rewrite filter_app, fmap_app, filter_cons, decide_True by done. done. Qed.

Lemma ticks_snoc_ne i h log t : i ≠ h → ticks i (log ++ [(h, t)]) = ticks i log.
Proof.
  intros Hne. unfold ticks. rewrite filter_app, filter_cons, decide_False by (simpl; congruence).
  by rewrite app_nil_r.
Qed.

(** The current slot starts before any tick that is not older than the log. *)
Lemma crep_before c slots tks now :
  crep c slots → Forall2 assigned tks slots → Forall (λ t, t ≤ now) tks → 0 ≤ now →
  base_tick c ≤ now.
Proof.
  intros (B & Hrep & HB) Has Hle H0. rewrite (rep_tick _ _ _ Hrep). destruct HB as [[_ ->]|Hl]; [lia|].
  rewrite last_lookup in Hl. destruct (Forall2_lookup_r _ _ _ _ _ Has Hl) as (t & Ht & [Hb _]).
  rewrite Forall_lookup in Hle. specialize (Hle _ _ Ht). simpl in Hle. lia.
Qed.

Lemma finishedRequest_ok n log s i t :
  stats_inv n log s → (i < n)%nat → Forall (λ t', t' ≤ t) (ticks i log) →
  0 ≤ t → t + ticksPerSecond < 2 ^ 64 →
  ∃ s', finishedRequest (Z.of_nat i) t s = Ok tt s' ∧ stats_inv n (log ++ [(i, t)]) s'.
Proof.
  intros (slotss & Hc & Ha) Hi Hle H0 Hmax. pose proof (Forall2_length _ _ _ Ha) as Hlen.
  rewrite length_seq in Hlen. pose proof (Forall2_length _ _ _ Hc) as Hlc.
  destruct (lookup_lt_is_Some_2 slotss i) as [sl Hsl]; [lia|].
  destruct (Forall2_lookup_r _ _ _ _ _ Hc Hsl) as (c & Hcs & Hcr).
  destruct (Forall2_lookup_r _ _ _ _ _ Ha Hsl) as (i' & [Ei _]%lookup_seq & Hai). simpl in Ei. subst i'.
  pose proof (crep_before _ _ _ _ Hcr Hai Hle H0) as Hb. destruct Hcr as (B & Hrep & _).
  destruct (finish_ok c B sl t Hrep Hb Hmax) as (c' & B' & Hf & Hrep' & Has).
  exists (<[i := c']> s). split.
  { unfold finishedRequest. destruct (Z.leb_spec (Z.of_nat (length s)) (Z.of_nat i)); [lia|].
    rewrite Nat2Z.id, Hcs, Hf. done. }
  exists (<[i := sl ++ [B']]> slotss). split.
  { apply Forall2_insert; [done|]. exists B'. split; [done|]. right. by rewrite last_snoc. }
  apply Forall2_same_length_lookup. rewrite length_insert, length_seq. split; [done|].
  intros j x sl' [Ej Hj]%lookup_seq Hsl'. simpl in Ej. subst x.
  destruct (decide (j = i)) as [->|Hne].
  - rewrite list_lookup_insert_eq in Hsl' by lia. injection Hsl' as <-. rewrite ticks_snoc_eq.
    apply Forall2_app; [done|]. constructor; [done|constructor].
  - rewrite list_lookup_insert_ne in Hsl' by done. rewrite ticks_snoc_ne by done.
    destruct (Forall2_lookup_r _ _ _ _ _ Ha Hsl') as (j' & [Ej _]%lookup_seq & Haj). simpl in Ej. by subst j'.
Qed.

(** Each thread reports its requests in order, before [now]. *)
Definition log_ok (n : nat) (now : Z) (log : list (nat * Z)) : Prop :=
  Forall (λ p, (p.1 < n)%nat ∧ 0 ≤ p.2 ≤ now) log ∧
  ∀ i, StronglySorted Z.le (ticks i log).

Lemma sorted_app_le (l : list Z) x k :
  StronglySorted Z.le (l ++ x :: k) → Forall (λ y, y ≤ x) l.
Proof.
  induction l as [|y l IH]; simpl; intros Hs; [constructor|].
  apply StronglySorted_inv in Hs as [Hs Hf]. constructor; [|by apply IH].
  rewrite Forall_app in Hf. destruct Hf as [_ [Hy _]%Forall_cons]. done.
Qed.

Lemma run_requests_ok n now : now + ticksPerSecond < 2 ^ 64 → ∀ log log0 s,
  stats_inv n log0 s → log_ok n now (log0 ++ log) →
  ∃ s', run_requests log s = Ok tt s' ∧ stats_inv n (log0 ++ log) s'.
Proof.
  intros Hmax. induction log as [|[i t] log IH]; intros log0 s Hs [Hf Hst].
  { exists s. by rewrite app_nil_r. }
  pose proof Hf as [_ [[Hi Ht] _]%Forall_cons]%Forall_app. simpl in *.
  destruct (finishedRequest_ok n log0 s i t Hs Hi) as (s1 & Hr & Hs1); [|lia|lia|].
  { specialize (Hst i). unfold ticks in Hst. rewrite filter_app, fmap_app in Hst.
    rewrite filter_cons, decide_True in Hst by done. simpl in Hst. by eapply sorted_app_le. }
  rewrite (bind_ok _ _ _ _ _ Hr). replace (log0 ++ (i, t) :: log) with ((log0 ++ [(i, t)]) ++ log) in *
    by (by rewrite <-app_assoc). apply IH; [done|]. by split.
Qed.

(** The sum over the threads. *)
Lemma stats_loop_ok now slotss cs acc tkss :
  Forall2 crep cs slotss → Forall2 (λ tks slots, Forall2 assigned tks slots) tkss slotss →
  Forall (Forall (λ t, t ≤ now)) tkss → 0 ≤ now < 2 ^ 64 → wrap32 acc = acc →
  ticksPerSecond `mod` 10 < now `mod` kTicksPerSlot →
  stats_loop now cs acc = Some (wrap32 (acc + zsum (since (now / kTicksPerSlot - 10) <$> slotss))).
Proof.
  intros Hc. revert acc tkss. induction Hc as [|c slots cs slotss Hcr _ IH]; intros acc tkss Ha Hle Hnow Hacc Hbd.
  { simpl. unfold zsum. simpl. by rewrite Z.add_0_r, Hacc. }
  apply Forall2_cons_inv_r in Ha as (tks & tkss' & Has & Ha & ->). apply Forall_cons in Hle as [Hle1 Hle].
  pose proof (crep_before _ _ _ _ Hcr Has Hle1 (proj1 Hnow)) as Hb. destruct Hcr as (B & Hrep & _).
  pose proof (stats_one c B slots now acc Hrep ltac:(lia) Hacc Hbd) as H1. cbn [stats_loop].
  destruct (ticksPerSecond <? wrap64 (now - base_tick c)).
  - rewrite (IH acc tkss') by done. injection H1 as H1. rewrite fmap_cons, zsum_cons. f_equal.
    rewrite Z.add_assoc. rewrite <-(wrap32_add_l (acc + _)), <-H1. done.
  - rewrite H1. cbn. rewrite (IH _ tkss') by (done || apply wrap32_idem). f_equal.
    rewrite wrap32_add_l, zsum_cons. f_equal. lia.
Qed.

Definition later (t0 : Z) (tks : list Z) : Z := Z.of_nat (length (filter (λ t, t0 < t) tks)).

Lemma since_bounds now tks slots :
  Forall2 assigned tks slots → 0 ≤ now →
  later (now - 9 * kTicksPerSlot) tks ≤ since (now / kTicksPerSlot - 10) slots ≤
    later (now - 10 * kTicksPerSlot) tks.
Proof.
  intros Ha H0. pose proof slot_size as (HT & _ & _). pose proof (Z.div_mod now kTicksPerSlot ltac:(lia)).
  pose proof (Z.mod_pos_bound now kTicksPerSlot ltac:(lia)). unfold later, since, assigned in *.
  set (T := kTicksPerSlot) in *. induction Ha as [|t s tks slots [Hlo Hhi] _ IH]; [simpl; lia|].
  rewrite !filter_cons. repeat case_decide; simpl; try lia; nia.
Qed.

Lemma zsum_between {A B} (f h : A → Z) (g : B → Z) l k :
  Forall2 (λ a b, f a ≤ g b ≤ h a) l k → zsum (f <$> l) ≤ zsum (g <$> k) ≤ zsum (h <$> l).
Proof.
  induction 1 as [|a b l k Hab _ IH]; [done|]. rewrite !fmap_cons, !zsum_cons. lia.
Qed.

(** Every request belongs to one thread. *)
Lemma later_threads t0 n log :
  Forall (λ p : nat * Z, (p.1 < n)%nat) log →
  zsum ((λ i, later t0 (ticks i log)) <$> seq 0 n) = later t0 log.*2.
Proof.
  intros Hf. induction Hf as [|[h t] log Hh _ IH].
  { change (later t0 (snd <$> @nil (nat * Z))) with 0. generalize 0%nat.
    induction n as [|n IH]; intros k; [done|]. cbn [seq fmap list_fmap]. rewrite zsum_cons. apply IH. }
  simpl in Hh. unfold later at 2. rewrite fmap_cons, filter_cons. simpl.
  assert (E : ∀ k m, zsum ((λ i, later t0 (ticks i ((h, t) :: log))) <$> seq k m) =
    zsum ((λ i, later t0 (ticks i log)) <$> seq k m) +
    (if decide (k ≤ h < k + m)%nat then if decide (t0 < t) then 1 else 0 else 0)).
  { clear. intros k m. revert k. induction m as [|m IH]; intros k.
    - simpl. rewrite decide_False by lia. done.
    - cbn [seq fmap list_fmap]. rewrite !zsum_cons, IH.
      assert (E : later t0 (ticks k ((h, t) :: log)) = later t0 (ticks k log) +
        (if decide (k = h) then if decide (t0 < t) then 1 else 0 else 0)).
      { unfold later, ticks. rewrite filter_cons. simpl. destruct (decide (k = h)) as [->|].
        - rewrite decide_True by done. rewrite fmap_cons, filter_cons. simpl. destruct (decide (t0 < t)); simpl; lia.
        - rewrite decide_False by done. lia. }
      rewrite E. repeat case_decide; lia. }
  rewrite E, IH. rewrite decide_True by lia. unfold later. destruct (decide (t0 < t)); simpl; lia.
Qed.

(** C35: the rate reported at [now] counts every request of the last nine tenths
    of a second and none that is older than a second, over all threads,
    whatever order the threads report in, provided that [now] is not within the
    first ticks of a slot ([ticksPerSecond mod 10] + 1 of them): there
    [stats_boundary] shows requests almost two seconds old that are counted. *)
Theorem stats_window n log now :
  log_ok n now log → 0 ≤ now → now + ticksPerSecond < 2 ^ 64 →
  Z.of_nat (length log) < 2 ^ 32 → ticksPerSecond `mod` 10 < now `mod` kTicksPerSlot →
  ∃ s k, run_requests log (RequestStats_init n) = Ok tt s ∧ getStats now s = Some k ∧
    later (now - 9 * kTicksPerSlot) log.*2 ≤ k ≤ later (now - 10 * kTicksPerSlot) log.*2.
Proof.
  intros Hlog H0 Hmax Hlen Hbd. pose proof slot_size as (HT & _ & _).
  destruct (run_requests_ok n now Hmax log [] _ (stats_init n) Hlog) as (s & Hr & slotss & Hc & Ha).
  simpl in Ha. destruct Hlog as [Hf _].
  assert (Ha' : Forall2 (λ tks slots, Forall2 assigned tks slots) ((λ i, ticks i log) <$> seq 0 n) slotss)
    by by apply Forall2_fmap_l.
  assert (Hb : zsum ((λ i, later (now - 9 * kTicksPerSlot) (ticks i log)) <$> seq 0 n) ≤
      zsum (since (now / kTicksPerSlot - 10) <$> slotss) ≤
      zsum ((λ i, later (now - 10 * kTicksPerSlot) (ticks i log)) <$> seq 0 n)).
  { apply zsum_between. eapply Forall2_impl; [exact Ha|]. intros i slots Hi. by apply since_bounds. }
  rewrite !later_threads in Hb by (eapply Forall_impl; [exact Hf|]; naive_solver).
  assert (Hu : later (now - 10 * kTicksPerSlot) log.*2 ≤ Z.of_nat (length log)).
  { unfold later. pose proof (length_filter (λ t, now - 10 * kTicksPerSlot < t) log.*2) as Hl.
    rewrite length_fmap in Hl. lia. }
  assert (Hl : 0 ≤ later (now - 9 * kTicksPerSlot) log.*2) by (unfold later; lia).
  exists s, (zsum (since (now / kTicksPerSlot - 10) <$> slotss)). split_and!; [done| |lia|lia].
  unfold getStats. erewrite (stats_loop_ok now slotss s 0 ((λ i, ticks i log) <$> seq 0 n)); try done; [| |lia].
  - rewrite Z.add_0_l. f_equal. apply wrap32_small. lia.
  - apply Forall_fmap, Forall_forall. intros i _. simpl. unfold ticks. apply Forall_fmap, Forall_forall.
    intros [j t] [_ Hin]%list_elem_of_filter. rewrite Forall_forall in Hf.
    destruct (Hf _ Hin) as [_ [_ ?]]. done.
Qed.
End stats.

Lemma stats_window_witness :
  ∃ s k, run_requests 1000 [(0%nat, 150); (1%nat, 900); (0%nat, 1200)] (RequestStats_init 2) = Ok tt s ∧
    getStats 1000 1234 s = Some k ∧ 2 ≤ k ≤ 2.
Proof.
  destruct (stats_window 1000 ltac:(lia) 2 [(0%nat, 150); (1%nat, 900); (0%nat, 1200)] 1234)
    as (s & k & H1 & H2 & H3).
  - split; [repeat constructor; simpl; lia|].
    intros [|[|i]]; vm_compute; repeat constructor; discriminate.
  - lia.
  - lia.
  - simpl. lia.
  - vm_compute. reflexivity.
  - exists s, k. split; [exact H1|]. split; [exact H2|]. vm_compute in H3 |- *. exact H3.
Defined.

(** exactly one second after the start of the current slot, [getStats]
    still adds up all ten slots: requests that are almost two seconds old are
    reported as of the last second. *)
Theorem stats_boundary :
  ∃ s, run_requests 1000 [(0%nat, 110); (0%nat, 1010)] (RequestStats_init 1) = Ok tt s ∧
    getStats 1000 2000 s = Some 2 ∧ getStats 1000 2001 s = Some 0 ∧
    later (2000 - 1000) [110; 1010] = 1.
Proof.
  destruct (run_requests 1000 [(0%nat, 110); (0%nat, 1010)] (RequestStats_init 1)) as [[] s|] eqn:E;
    vm_compute in E; [|done]. exists s. injection E as <-. by vm_compute.
Qed.
