(* ===== verification/ParamMap.v ===== *)
(** * Command-line parameters ([param_map.hpp], [param_map.cpp]) *)

From S2P Require Import Prelude CppString.
From stdpp Require Import base numbers list gmap sorting strings.
Open Scope Z_scope.

Record ParamMap : Type := mkParams {
  key_to_value_map_ : gmap str str;
  key_to_description_map_ : gmap str str;
  program_name_ : str;
}.

(** [unordered_map::insert] keeps an entry that exists. *)
Definition addParam (param default_string description : str) (m : ParamMap) : bool * ParamMap :=
  match key_to_value_map_ m !! param with
  | None =>
    (true, mkParams (<[param := default_string]> (key_to_value_map_ m))
             (match key_to_description_map_ m !! param with
              | None => <[param := description]> (key_to_description_map_ m)
              | Some _ => key_to_description_map_ m
              end) (program_name_ m))
  | Some _ => (false, m)
  end.

(** [ParamMap::ParamMap()] *)
Definition ParamMap_init : ParamMap :=
  (addParam (bytes "help") [] (bytes "prints the command usage message") (mkParams ∅ ∅ [])).2.

(** The value, when the parameter exists. *)
Definition getParam (param : str) (m : ParamMap) : option str := key_to_value_map_ m !! param.

(** One round of the loop: the name and the value of an argument that is
    accepted. *)
Definition parse_arg (param : str) : option (str * str) :=
  if negb (bool_decide (string_find (bytes "--") param = Some O)) then None else
  match string_find (bytes "=") param with
  | Some 2%nat => None
  | pos =>
    let '(name, value) :=
      match pos with
      | None => (drop 2 param, [])
      | Some p => (take (p - 2) (drop 2 param), drop (p + 1) param)
      end in
    if decide (name = bytes "help") then None else Some (name, value)
  end.

Definition set_value (name value : str) (m : ParamMap) : ParamMap :=
  mkParams (<[name := value]> (key_to_value_map_ m)) (key_to_description_map_ m) (program_name_ m).

Fixpoint parse_args (args : list str) (m : ParamMap) : bool * ParamMap :=
  match args with
  | [] => (true, m)
  | param :: args' =>
    match parse_arg param with
    | None => (false, m)
    | Some (name, value) => parse_args args' (set_value name value m)
    end
  end.

(** [argv] with its program name apart. *)
Definition parseArgv (argv0 : str) (args : list str) (m : ParamMap) : bool * ParamMap :=
  parse_args args (mkParams (key_to_value_map_ m) (key_to_description_map_ m) argv0).

(** The text printed when the two maps are iterated in the orders [kvs] and
    [kds]; the order of an [unordered_map] is unspecified. *)
Definition printUsage (kvs kds : list (str * str)) (m : ParamMap) : str :=
  bytes "Usage: " ++ program_name_ m ++ bytes " " ++
  concat ((λ kv, bytes "--" ++ kv.1 ++ bytes "=[" ++ kv.2 ++ bytes "] ") <$> kvs) ++ [10] ++
  bytes "where " ++ [10] ++
  concat ((λ kd, bytes "  " ++ kd.1 ++ bytes ": " ++ kd.2 ++ [10]) <$> kds).

(** ** What is accepted *)

(** An argument as the user means it: a name with or without a value. *)
Definition print_arg (a : str * option str) : str :=
  bytes "--" ++ a.1 ++ match a.2 with Some v => bytes "=" ++ v | None => [] end.

Definition arg_ok (a : str * option str) : Prop :=
  a.1 ≠ [] ∧ 61 ∉ a.1 ∧ a.1 ≠ bytes "help".

#[global] Instance arg_ok_dec a : Decision (arg_ok a).
Proof. unfold arg_ok. apply _. Defined.

Lemma find_char c s : string_find [c] s =
  match s with
  | [] => None
  | x :: s' => if decide (x = c) then Some O else S <$> string_find [c] s'
  end.
Proof.
  destruct s as [|x s]; simpl; [done|]. rewrite take_0.
  destruct (decide (x = c)) as [->|Hne]; [by rewrite decide_True|].
  rewrite decide_False by congruence. done.
Qed.

Lemma find_char_app c s t : c ∉ s → string_find [c] (s ++ c :: t) = Some (length s).
Proof.
  induction s as [|x s IH]; intros Hc; rewrite find_char; simpl.
  - by rewrite decide_True.
  - apply not_elem_of_cons in Hc as [Hne Hc]. rewrite decide_False by done. by rewrite IH.
Qed.

Lemma find_char_none c s : c ∉ s → string_find [c] s = None.
Proof.
  induction s as [|x s IH]; intros Hc; rewrite find_char; [done|].
  apply not_elem_of_cons in Hc as [Hne Hc]. rewrite decide_False by done. by rewrite IH.
Qed.

Lemma parse_print_arg a : arg_ok a → parse_arg (print_arg a) = Some (a.1, default [] a.2).
Proof.
  destruct a as [name v]. unfold arg_ok, parse_arg. cbn [fst snd]. intros (Hne & Hc & Hh).
  set (p := print_arg (name, v)).
  assert (Hp : string_find (bytes "--") p = Some O) by done.
  rewrite Hp, bool_decide_true by done. cbn [negb].
  assert (Hc2 : 61 ∉ bytes "--" ++ name).
  { apply not_elem_of_app. split; [|done]. vm_compute. set_solver. }
  destruct v as [v|].
  - assert (E : string_find (bytes "=") p = Some (length (bytes "--" ++ name))).
    { unfold p, print_arg. cbn [fst snd]. rewrite app_assoc. by apply (find_char_app 61). }
    rewrite E. rewrite length_app. destruct name as [|x name]; [done|].
    change (length (bytes "--") + length (x :: name))%nat with (S (S (S (length name)))).
    cbv beta iota. rewrite !Nat.sub_succ, Nat.sub_0_r.
    assert (En : take (S (length name)) (drop 2 p) = x :: name).
    { unfold p, print_arg. cbn. f_equal. by apply take_app_length. }
    assert (Ev : drop (S (S (S (length name))) + 1) p = v).
    { rewrite Nat.add_1_r. unfold p, print_arg. cbn. rewrite drop_app_ge by lia.
      by replace (S (length name) - length name)%nat with 1%nat by lia. }
    rewrite En, Ev. by rewrite decide_False.
  - assert (Ep : p = bytes "--" ++ name) by (unfold p, print_arg; cbn [fst snd]; by rewrite app_nil_r).
    rewrite Ep. change (bytes "=") with [61]. rewrite find_char_none by done. cbn [drop].
    change (drop 2 (bytes "--" ++ name)) with name. by rewrite decide_False.
Qed.

(** The map after the arguments [args]: the last value of a name wins. *)
Definition apply_args (m : ParamMap) (args : list (str * option str)) : ParamMap :=
  foldl (λ m a, set_value a.1 (default [] a.2) m) m args.

Lemma parse_args_app args rest m :
  Forall arg_ok args → parse_args ((print_arg <$> args) ++ rest) m = parse_args rest (apply_args m args).
Proof.
  intros Hok. revert m. induction Hok as [|a args Ha _ IH]; intros m; [done|]. simpl.
  rewrite parse_print_arg by done. apply IH.
Qed.

(** [parseArgv] reads back well-formed arguments: every parameter has the
    value of the last argument that names it, or its earlier value; parsing
    stops with false at [--help], keeping what came before it. *)
Theorem parse_argv_spec prog args m :
  Forall arg_ok args →
  ∃ m', parseArgv prog (print_arg <$> args) m = (true, m') ∧
    (∀ v, (parseArgv prog ((print_arg <$> args) ++ print_arg (bytes "help", v) :: []) m) = (false, m')) ∧
    (∀ k, getParam k m' =
       match last (filter (λ a, a.1 = k) args) with
       | Some a => Some (default [] a.2)
       | None => getParam k m
       end).
Proof.
  intros Hok. unfold parseArgv. set (m0 := mkParams _ _ _).
  exists (apply_args m0 args). split_and!.
  - rewrite <-(app_nil_r (print_arg <$> args)). by rewrite parse_args_app.
  - intros v. rewrite parse_args_app by done. cbn [parse_args].
    assert (E : parse_arg (print_arg (bytes "help", v)) = None); [|by rewrite E].
    unfold parse_arg. destruct v; reflexivity.
  - intros k. change (getParam k m) with (getParam k m0). clear Hok. generalize m0. clear m m0.
    induction args as [|a args IH]; intros m; [done|]. cbn [apply_args foldl]. rewrite IH, filter_cons.
    destruct (decide (a.1 = k)) as [<-|Hne].
    + rewrite last_cons. destruct (last _); [done|]. unfold getParam, set_value. simpl.
      by rewrite lookup_insert_eq.
    + destruct (last _); [done|]. unfold getParam, set_value. simpl. by rewrite lookup_insert_ne.
Qed.

Lemma parse_argv_spec_witness :
  ∃ m', parseArgv (bytes "server") [bytes "--port=80"; bytes "--verbose"; bytes "--port=8080"] ParamMap_init =
    (true, m') ∧ getParam (bytes "port") m' = Some (bytes "8080") ∧ getParam (bytes "verbose") m' = Some [] ∧
    getParam (bytes "help") m' = Some [].
Proof.
  destruct (parse_argv_spec (bytes "server")
    [(bytes "port", Some (bytes "80")); (bytes "verbose", None); (bytes "port", Some (bytes "8080"))]
    ParamMap_init) as (m' & H1 & _ & H2).
  - apply (bool_decide_unpack _). vm_compute. exact I.
  - exists m'. split; [exact H1|]. split_and!; rewrite H2; vm_compute; reflexivity.
Defined.

(** The check that a parameter has a name misses an argument without an
    equals sign: [--] alone defines the parameter with the empty name. *)
Theorem nameless_accepted :
  ∃ m', parseArgv (bytes "server") [bytes "--"] ParamMap_init = (true, m') ∧
    getParam [] ParamMap_init = None ∧ getParam [] m' = Some [] ∧
    (parseArgv (bytes "server") [bytes "--=1"] ParamMap_init).1 = false.
Proof. eexists. split; [reflexivity|]. by vm_compute. Qed.
