(* ===== verification/FileCache.v ===== *)
(** * The file cache ([file_cache.hpp], [file_cache.cpp])

    Cached files are nodes of a singly linked FIFO list behind a sentinel, found
    through a hash map; the nodes live in a heap of addresses, so that a node
    that is still linked after its deletion is visible.  The reader-writer
    lock makes the parts of [pin] below atomic; a load is three such parts,
    which other threads may run between. *)

From S2P Require Import Prelude CppString Buffer BufferSpec.
From stdpp Require Import base numbers list gmap sorting strings.
Open Scope Z_scope.

Record Node : Type := mkNode {
  file_name : str;
  buf : option Buffer;
  pin_count : Z;
  size_ : Z;
  next_ : option Z;
}.

(** [Node(f, b)] *)
Definition Node_init (f : str) (b : option Buffer) : Node := mkNode f b 0 0 None.

Record FileCache : Type := mkCache {
  max_size_ : Z;
  head_ : Z;
  nodes : gmap Z Node;            (* the sentinel and the nodes that exist *)
  next_addr : Z;                      (* addresses from here on were never used *)
  cache_map_ : gmap str Z;
  bytes_used_ : Z;
  pin_total_ : Z;
  hit_total_ : Z;
  failed_total_ : Z;
}.

(** [&tail_] *)
Definition tail_ : Z := 0.

(** [FileCache::FileCache(max_size)] *)
Definition FileCache_init (max_size : Z) : FileCache :=
  mkCache max_size tail_ {[tail_ := Node_init [] None]} 1 ∅ 0 0 0 0.

Definition put_nodes (ns : gmap Z Node) (c : FileCache) : FileCache :=
  mkCache (max_size_ c) (head_ c) ns (next_addr c) (cache_map_ c)
    (bytes_used_ c) (pin_total_ c) (hit_total_ c) (failed_total_ c).
Definition put_head (h : Z) (c : FileCache) : FileCache :=
  mkCache (max_size_ c) h (nodes c) (next_addr c) (cache_map_ c)
    (bytes_used_ c) (pin_total_ c) (hit_total_ c) (failed_total_ c).
Definition put_map (m : gmap str Z) (c : FileCache) : FileCache :=
  mkCache (max_size_ c) (head_ c) (nodes c) (next_addr c) m
    (bytes_used_ c) (pin_total_ c) (hit_total_ c) (failed_total_ c).
Definition put_fresh (f : Z) (c : FileCache) : FileCache :=
  mkCache (max_size_ c) (head_ c) (nodes c) f (cache_map_ c)
    (bytes_used_ c) (pin_total_ c) (hit_total_ c) (failed_total_ c).

(** [__sync_fetch_and_add] on the counters, which are [int]s. *)
Definition count (used pin hit failed : Z) (c : FileCache) : FileCache :=
  mkCache (max_size_ c) (head_ c) (nodes c) (next_addr c) (cache_map_ c)
    (to_int32 (bytes_used_ c + used)) (to_int32 (pin_total_ c + pin))
    (to_int32 (hit_total_ c + hit)) (to_int32 (failed_total_ c + failed)).

(** Access through a pointer to a node. *)
Definition node (a : Z) : M FileCache Node := λ c,
  match nodes c !! a with Some n => Ok n c | None => Err (Segv a) end.

Definition set_next (a : Z) (nx : option Z) : M FileCache unit :=
  n ← node a;
  modify (λ c, put_nodes (<[a := mkNode (file_name n) (buf n) (pin_count n) (size_ n) nx]> (nodes c)) c).

Definition add_pin (a d : Z) : M FileCache unit :=
  n ← node a;
  modify (λ c, put_nodes (<[a := mkNode (file_name n) (buf n) (to_int32 (pin_count n + d)) (size_ n)
                                  (next_ n)]> (nodes c)) c).

(** [delete node] *)
Definition delete_node (a : Z) : M FileCache unit :=
  node a;; modify (λ c, put_nodes (delete a (nodes c)) c).

(** ** The list *)

Definition nodeInsert (a : Z) : M FileCache unit :=
  h ← gets head_;
  set_next h (Some a);;
  modify (put_head a);;
  set_next a None.

Definition nodeExtract (a prev : Z) : M FileCache unit :=
  if a =? prev then fail Fatal else
  h ← gets head_;
  (if h =? a then modify (put_head prev) else mret tt);;
  n ← node a;
  set_next prev (next_ n).

(** ** Eviction *)

(** The loop of [evict]; result: bytes still to evict, bytes evicted, nodes to
    delete.  The list has at most as many nodes as exist. *)
Fixpoint evict_loop (fuel : nat) (bytes_to_evict bytes_evicted : Z) (curr : option Z) (prev : Z)
    (to_delete : list Z) : M FileCache (Z * Z * list Z) :=
  match fuel with
  | O => fail OutOfFuel
  | S fuel' =>
    match curr with
    | Some a =>
      if 0 <? bytes_to_evict then
        n ← node a;
        if pin_count n =? 0 then
          modify (λ c, put_map (delete (file_name n) (cache_map_ c)) c);;
          nodeExtract a prev;;
          n' ← node a;
          evict_loop fuel' (wrap64 (bytes_to_evict - size_ n)) (to_int32 (bytes_evicted + size_ n))
            (next_ n') a (to_delete ++ [a])
        else evict_loop fuel' bytes_to_evict bytes_evicted (next_ n) a to_delete
      else mret (bytes_to_evict, bytes_evicted, to_delete)
    | None => mret (bytes_to_evict, bytes_evicted, to_delete)
    end
  end.

Fixpoint delete_all (l : list Z) : M FileCache unit :=
  match l with
  | [] => mret tt
  | a :: l' => delete_node a;; delete_all l'
  end.

Definition evict (bytes_to_evict : Z) : M FileCache bool :=
  h ← gets head_;
  if h =? tail_ then mret false else
  t ← node tail_;
  k ← gets (λ c, base.size (nodes c));
  '(remaining, evicted, to_delete) ← evict_loop (S k) bytes_to_evict 0 (next_ t) tail_ [];
  modify (count (- evicted) 0 0 0);;
  delete_all to_delete;;
  mret (remaining <=? 0).

(** ** Loading *)

(** What the operating system answers for a file: [open] fails with an errno,
    or it is open with [st_size] and the results of the calls of [read], after
    which the end of the file is reached and [read] returns nothing. *)
Inductive file : Type :=
| NoFile (errno : Z)
| File (st_size : Z) (reads : list (Z + list Z)).

(** The loop that reads the file into the buffer; [inl]: errno of a read. *)
Fixpoint read_loop (fuel : nat) (reads : list (Z + list Z)) (to_read : Z) : M Buffer (Z + Z) :=
  match fuel with
  | O => fail OutOfFuel
  | S fuel' =>
    if 0 <? to_read then
      reserve BlockSize;;
      ws ← gets writeSize;
      p ← gets wpos_;
      match reads with
      | inl errno :: _ => mret (inl errno)
      | inr data :: reads' =>
        let got := take (Z.to_nat ws) data in
        store_at p got;;
        read_loop fuel' reads' (wrap64 (to_read - Z.of_nat (length got)))
      | [] => read_loop fuel' [] to_read
      end
    else mret (inr to_read)
  end.

(** The new buffer, [inl] the errno. *)
Definition read_file (fuel : nat) (st_size : Z) (reads : list (Z + list Z)) : res Buffer (Z + unit) :=
  (r ← read_loop fuel reads st_size;
   match r with
   | inl errno => mret (inl errno)
   | inr to_read => advance (wrap64 (st_size - to_read));; mret (inr tt)
   end) Buffer_init.

(** Result of [pin]: handle, buffer and error code. *)
Definition pin_result : Type := option Z * option Buffer * Z.

(** First part of [load]: room for the file, or not. *)
Definition load_room (st_size : Z) : M FileCache bool :=
  free ← gets (λ c, to_int32 (max_size_ c - bytes_used_ c));
  if free <? st_size then
    ok ← evict st_size;
    if ok : bool then mret true else modify (count 0 1 0 1);; mret false
  else mret true.

(** Second part, with the file read into [b]: the node and the map.  The node
    of a duplicate load is deleted at the end. *)
Definition load_insert (name : str) (b : Buffer) (st_size : Z) : M FileCache (option Z) :=
  a ← gets next_addr;
  modify (put_fresh (a + 1));;
  m ← gets cache_map_;
  match m !! name with
  | None =>
    modify (λ c, put_nodes (<[a := mkNode name (Some b) 1 (to_int32 st_size) None]> (nodes c)) c);;
    modify (put_map (<[name := a]> m));;
    nodeInsert a;;
    mret (Some a)
  | Some _ => mret None
  end.

(** Third part: the counters. *)
Definition load_account (st_size : Z) (h : option Z) : M FileCache unit :=
  match h with
  | Some _ => modify (count st_size 1 0 0)
  | None => modify (count 0 1 0 1)
  end.

Definition load (fuel : nat) (name : str) (f : file) : M FileCache pin_result :=
  match f with
  | NoFile errno => mret (None, None, errno)
  | File st_size reads =>
    room ← load_room st_size;
    if room : bool then
      match read_file fuel st_size reads with
      | Err e => fail e
      | Ok (inl errno) _ => mret (None, None, errno)
      | Ok (inr tt) b =>
        h ← load_insert name b st_size;
        load_account st_size h;;
        mret (h, (λ _, b) <$> h, 0)
      end
    else mret (None, None, 0)
  end.

(** ** Pinning *)

Definition pin (fuel : nat) (name : str) (f : file) : M FileCache pin_result :=
  m ← gets cache_map_;
  match m !! name with
  | Some a =>
    n ← node a;
    add_pin a 1;;
    modify (count 0 1 1 0);;
    mret (Some a, buf n, 0)
  | None => load fuel name f
  end.

Definition unpin (h : option Z) : M FileCache unit :=
  match h with
  | None => mret tt
  | Some a =>
    n ← node a;
    m ← gets cache_map_;
    match m !! file_name n with
    | None => fail Fatal
    | Some a' =>
      n' ← node a';
      add_pin a' (-1);;
      if pin_count n' =? 0 then fail Fatal else mret tt
    end
  end.

(** [~FileCache]: deletes the list from the sentinel on. *)
Fixpoint destroy_loop (fuel : nat) (curr : option Z) : M FileCache unit :=
  match fuel with
  | O => fail OutOfFuel
  | S fuel' =>
    match curr with
    | None => mret tt
    | Some a => n ← node a; delete_node a;; destroy_loop fuel' (next_ n)
    end
  end.

Definition FileCache_destroy : M FileCache unit :=
  t ← node tail_;
  k ← gets (λ c, base.size (nodes c));
  destroy_loop (S k) (next_ t).
