(* ===== verification/FileCacheSpec.v ===== *)
(** * Correctness of the file cache

    [cache_rep c l] says that the list and the map of the cache hold exactly
    the files [l], in the order they were loaded.  The theorems say what
    pinning, unpinning and evicting do to [l], and where eviction and loading
    leave that specification. *)

From S2P Require Import Prelude CppString Buffer BufferSpec FileCache.
From stdpp Require Import base numbers list gmap sorting strings.
Open Scope Z_scope.

(** A cached file: a node without its link. *)
Record entry : Type := mkEntry { e_name : str; e_buf : option Buffer; e_pins : Z; e_size : Z }.

Definition node_of (e : entry) (nx : option Z) : Node :=
  mkNode (e_name e) (e_buf e) (e_pins e) (e_size e) nx.

(** The linked list segment from [from] to [to] holds the nodes [l]. *)
Fixpoint seg (ns : gmap Z Node) (from : option Z) (l : list (Z * entry)) (to : option Z) : Prop :=
  match l with
  | [] => from = to
  | (a, e) :: l' => from = Some a ∧ ∃ nx, ns !! a = Some (node_of e nx) ∧ seg ns nx l' to
  end.

(** The sentinel is the first node of the list. *)
Definition sentinel : Z * entry := (tail_, mkEntry [] None 0 0).

Record cache_rep (c : FileCache) (l : list (Z * entry)) : Prop := {
  cr_seg : seg (nodes c) (Some tail_) (sentinel :: l) None;
  cr_head : Some (head_ c) = last (sentinel :: l).*1;
  cr_nodup : NoDup (sentinel :: l).*1;
  cr_dom : ∀ a, is_Some (nodes c !! a) ↔ a ∈ (sentinel :: l).*1;
  cr_map : ∀ name a, cache_map_ c !! name = Some a ↔ ∃ e, (a, e) ∈ l ∧ e_name e = name;
  cr_fresh : Forall (λ a, a < next_addr c) (sentinel :: l).*1;
  cr_used : bytes_used_ c = zsum ((λ p, e_size p.2) <$> l);
  cr_ranges : Forall (λ p, 0 ≤ e_size p.2 ∧ 0 ≤ e_pins p.2 < 2 ^ 31) l;
  cr_max : bytes_used_ c ≤ max_size_ c < 2 ^ 31;
}.

(** ** Segments *)

Lemma seg_app ns from l1 l2 to :
  seg ns from (l1 ++ l2) to ↔ ∃ mid, seg ns from l1 mid ∧ seg ns mid l2 to.
Proof.
  revert from. induction l1 as [|[a e] l1 IH]; intros from; simpl.
  - naive_solver.
  - setoid_rewrite IH. naive_solver.
Qed.

Lemma seg_frame ns ns' from l to :
  seg ns from l to → (∀ a, a ∈ l.*1 → ns' !! a = ns !! a) → seg ns' from l to.
Proof.
  revert from. induction l as [|[a e] l IH]; intros from Hs Hf; simpl in *; [done|].
  destruct Hs as (-> & nx & Hn & Hs). split; [done|]. exists nx. rewrite Hf by set_solver.
  split; [done|]. apply IH; [done|]. set_solver.
Qed.

Lemma seg_insert ns from l to a n :
  seg ns from l to → a ∉ l.*1 → seg (<[a := n]> ns) from l to.
Proof. intros Hs Ha. eapply seg_frame; [done|]. intros b Hb. apply lookup_insert_ne. set_solver. Qed.

Lemma seg_lookup ns from l1 a e l2 to :
  seg ns from (l1 ++ (a, e) :: l2) to → ∃ nx, ns !! a = Some (node_of e nx) ∧ seg ns nx l2 to.
Proof. intros (mid & _ & _ & nx & ? & ?)%seg_app. eauto. Qed.

Lemma node_ok (c : FileCache) a n : nodes c !! a = Some n → node a c = Ok n c.
Proof. intros E. unfold node. by rewrite E. Qed.

(** ** Initial state *)

Lemma cache_init_rep n : 0 ≤ n < 2 ^ 31 → cache_rep (FileCache_init n) [].
Proof.
  intros Hn. split; simpl; try done.
  - split; [done|]. exists None. split; [|done]. apply lookup_insert_eq.
  - constructor; [set_solver|constructor].
  - intros a. unfold tail_. rewrite list_elem_of_singleton. split.
    + intros [n' Hn']. by apply lookup_singleton_Some in Hn' as [-> _].
    + intros ->. eexists. apply lookup_insert_eq.
  - intros name a. rewrite lookup_empty. split; [done|]. intros (e & He & _). by apply elem_of_nil in He.
  - repeat constructor.
Qed.

(** ** List operations *)

Lemma relink_ok (c : FileCache) a n nx :
  nodes c !! a = Some n →
  set_next a nx c = Ok tt (put_nodes (<[a := mkNode (file_name n) (buf n) (pin_count n) (size_ n) nx]> (nodes c)) c).
Proof. intros E. unfold set_next. by rewrite (bind_ok _ _ _ _ _ (node_ok _ _ _ E)). Qed.

Lemma last_split {A} (l : list A) x : last l = Some x → ∃ l', l = l' ++ [x].
Proof. intros H. by apply last_Some. Qed.

(** The list with its last node. *)
Lemma rep_last c l : cache_rep c l → ∃ L e, sentinel :: l = L ++ [(head_ c, e)].
Proof.
  intros Hr. pose proof (cr_head _ _ Hr) as Hh. rewrite fmap_last in Hh.
  destruct (last (sentinel :: l)) as [[h e]|] eqn:E; simpl in Hh; [|done]. injection Hh as <-.
  apply last_split in E as [L E]. eauto.
Qed.

(** Inserting the new node [a] behind the list. *)
Lemma nodeInsert_ok c l a e c0 :
  cache_rep c l → a ∉ (sentinel :: l).*1 →
  nodes c0 = <[a := node_of e None]> (nodes c) → head_ c0 = head_ c →
  ∃ ns, nodeInsert a c0 = Ok tt (put_head a (put_nodes ns c0)) ∧
    seg ns (Some tail_) (sentinel :: l ++ [(a, e)]) None ∧
    (∀ b, is_Some (ns !! b) ↔ b ∈ a :: (sentinel :: l).*1).
Proof.
  intros Hr Ha En Eh. destruct (rep_last c l Hr) as (L & eh & EL).
  pose proof (cr_seg _ _ Hr) as Hs. pose proof (cr_nodup _ _ Hr) as Hnd.
  pose proof (cr_dom _ _ Hr) as Hdom.
  change (sentinel :: l ++ [(a, e)]) with ((sentinel :: l) ++ [(a, e)]). rewrite EL in *.
  rewrite fmap_app in Ha, Hnd. simpl in Ha. apply not_elem_of_app in Ha as [HaL Hah].
  apply NoDup_app in Hnd as (_ & HhL & _).
  destruct (seg_lookup _ _ _ _ _ _ _ Hs) as (nx & Hh & Hend). simpl in Hend. subst nx.
  assert (Hne : head_ c ≠ a) by set_solver.
  assert (Hh0 : nodes c0 !! head_ c = Some (node_of eh None))
    by (by rewrite En, lookup_insert_ne).
  eexists. split; [|split].
  - unfold nodeInsert. rewrite (bind_ok _ _ _ _ _ (gets_ok _ _)). rewrite Eh.
    erewrite bind_ok by (by apply relink_ok). erewrite bind_ok by reflexivity.
    erewrite relink_ok by (cbn; rewrite lookup_insert_ne by done; rewrite En; apply lookup_insert_eq).
    unfold put_nodes, put_head. cbn. reflexivity.
  - rewrite En. apply seg_app in Hs as (mid & HsL & (-> & _)). apply seg_app. exists (Some a). split.
    + apply seg_app. exists (Some (head_ c)). split.
      * apply seg_insert; [|done]. apply seg_insert; [by apply seg_insert|]. intros ?.
        apply (HhL (head_ c)); [done|]. simpl. set_solver.
      * simpl. split; [done|]. eexists. rewrite lookup_insert_ne by done. rewrite lookup_insert_eq. done.
    + simpl. split; [done|]. eexists. rewrite lookup_insert_eq. done.
  - intros b. rewrite fmap_app in Hdom. rewrite En, !lookup_insert_is_Some', Hdom, fmap_app. simpl. set_solver.
Qed.

(** Taking the node [a] out behind the node [p]; the node itself stays. *)
Lemma nodeExtract_ok c p ep pn a e na :
  nodes c !! p = Some (node_of ep pn) → nodes c !! a = Some (node_of e na) → a ≠ p →
  nodeExtract a p c = Ok tt (put_head (if head_ c =? a then p else head_ c)
    (put_nodes (<[p := node_of ep na]> (nodes c)) c)).
Proof.
  intros Hp Ha Hne. unfold nodeExtract. rewrite (proj2 (Z.eqb_neq _ _) Hne).
  rewrite (bind_ok _ _ _ _ _ (gets_ok _ _)). destruct (head_ c =? a) eqn:E.
  - erewrite bind_ok by reflexivity. erewrite bind_ok by (by apply node_ok).
    erewrite relink_ok by done. done.
  - erewrite bind_ok by reflexivity. erewrite bind_ok by (by apply node_ok).
    erewrite relink_ok by done. by destruct c.
Qed.

(** ** Pinning and unpinning *)

Lemma rep_lookup c l a e :
  cache_rep c l → (a, e) ∈ l → ∃ l1 l2 nx, l = l1 ++ (a, e) :: l2 ∧ nodes c !! a = Some (node_of e nx).
Proof.
  intros Hr (l1 & l2 & ->)%list_elem_of_split. pose proof (cr_seg _ _ Hr) as Hs.
  change (sentinel :: l1 ++ (a, e) :: l2) with ((sentinel :: l1) ++ (a, e) :: l2) in Hs.
  destruct (seg_lookup _ _ _ _ _ _ _ Hs) as (nx & Hn & _). eauto.
Qed.

Lemma zsum_middle {A} (f : A → Z) l1 x y l2 :
  f x = f y → zsum (f <$> (l1 ++ x :: l2)) = zsum (f <$> (l1 ++ y :: l2)).
Proof. intros E. rewrite !fmap_app, !fmap_cons. by rewrite E. Qed.

(** The pin count of one file changes. *)
Lemma rep_pins c l1 a e l2 nx k :
  cache_rep c (l1 ++ (a, e) :: l2) → nodes c !! a = Some (node_of e nx) → 0 ≤ k < 2 ^ 31 →
  let e' := mkEntry (e_name e) (e_buf e) k (e_size e) in
  cache_rep (put_nodes (<[a := node_of e' nx]> (nodes c)) c) (l1 ++ (a, e') :: l2).
Proof.
  intros [Hs Hh Hnd Hdom Hmap Hfr Hu Hrg Hmx] Hn Hk e'.
  assert (Eaddr : (sentinel :: l1 ++ (a, e') :: l2).*1 = (sentinel :: l1 ++ (a, e) :: l2).*1)
    by (simpl; by rewrite !fmap_app).
  split; cbn [nodes head_ cache_map_ next_addr bytes_used_ max_size_ put_nodes]; rewrite ?Eaddr; try done.
  - change (sentinel :: l1 ++ (a, e) :: l2) with ((sentinel :: l1) ++ (a, e) :: l2) in *.
    change (sentinel :: l1 ++ (a, e') :: l2) with ((sentinel :: l1) ++ (a, e') :: l2).
    rewrite fmap_app in Hnd. apply NoDup_app in Hnd as (_ & H1 & H2). simpl in H2. apply NoDup_cons in H2 as [H2 _].
    apply seg_app in Hs as (mid & Hs1 & -> & nx' & Hn' & Hs2). rewrite Hn in Hn'. injection Hn' as <-.
    apply seg_app. exists (Some a). split; [|simpl; split; [done|]].
    + apply seg_insert; [done|]. intros ?. apply (H1 a); [done|]. simpl. set_solver.
    + exists nx. rewrite lookup_insert_eq. split; [done|]. by apply seg_insert.
  - intros b. rewrite lookup_insert_is_Some', Hdom. split; [|by auto]. intros [<-|?]; [|done].
    simpl. rewrite fmap_app. simpl. set_solver.
  - intros name b. rewrite Hmap. split; intros (e1 & He & En).
    + apply elem_of_app in He as [He|He]; [exists e1; split; [set_solver|done]|].
      apply elem_of_cons in He as [He|He]; [|exists e1; split; [set_solver|done]].
      injection He as -> ->. exists e'. split; [set_solver|done].
    + apply elem_of_app in He as [He|He]; [exists e1; split; [set_solver|done]|].
      apply elem_of_cons in He as [He|He]; [|exists e1; split; [set_solver|done]].
      injection He as -> ->. exists e. split; [set_solver|done].
  - rewrite Hu. by apply zsum_middle.
  - rewrite Forall_app, Forall_cons in *. naive_solver.
Qed.

(** Counters do not matter to the representation, except the bytes in use. *)
Lemma rep_count_only c l p h f : cache_rep c l → bytes_used_ c = to_int32 (bytes_used_ c) →
  cache_rep (count 0 p h f c) l.
Proof.
  intros [Hs Hh Hnd Hdom Hmap Hfr Hu Hrg Hmx] E. split; cbn; try done.
  all: rewrite Z.add_0_r, <-E; done.
Qed.

Lemma used_range c l : cache_rep c l → 0 ≤ bytes_used_ c < 2 ^ 31.
Proof.
  intros Hr. pose proof (cr_max _ _ Hr). rewrite (cr_used _ _ Hr) in *. split; [|lia].
  apply zsum_nonneg, Forall_fmap. eapply Forall_impl; [exact (cr_ranges _ _ Hr)|]. simpl. naive_solver.
Qed.

Lemma used_int c l : cache_rep c l → to_int32 (bytes_used_ c) = bytes_used_ c.
Proof. intros Hr. pose proof (used_range _ _ Hr). by apply to_int32_small. Qed.

Definition with_pins (e : entry) (k : Z) : entry := mkEntry (e_name e) (e_buf e) k (e_size e).

Lemma pin_hit fuel c l1 a e l2 f :
  cache_rep c (l1 ++ (a, e) :: l2) → e_pins e + 1 < 2 ^ 31 →
  ∃ c', pin fuel (e_name e) f c = Ok (Some a, e_buf e, 0) c' ∧
    cache_rep c' (l1 ++ (a, with_pins e (e_pins e + 1)) :: l2) ∧
    pin_total_ c' = to_int32 (pin_total_ c + 1) ∧ hit_total_ c' = to_int32 (hit_total_ c + 1).
Proof.
  intros Hr Hp. pose proof (cr_map _ _ Hr (e_name e) a) as [_ Hm].
  destruct (rep_lookup c _ a e Hr ltac:(set_solver)) as (_ & _ & nx & _ & Hn).
  assert (Hrg : 0 ≤ e_pins e).
  { pose proof (cr_ranges _ _ Hr) as Hrg. rewrite Forall_app, Forall_cons in Hrg. naive_solver. }
  pose proof (rep_pins c l1 a e l2 nx (e_pins e + 1) Hr Hn ltac:(lia)) as Hr1.
  eexists. split; [|split].
  - unfold pin. rewrite (bind_ok _ _ _ _ _ (gets_ok _ _)).
    rewrite (Hm ltac:(exists e; set_solver)). rewrite (bind_ok _ _ _ _ _ (node_ok _ _ _ Hn)).
    unfold add_pin. rewrite bind_bind, (bind_ok _ _ _ _ _ (node_ok _ _ _ Hn)).
    cbn [file_name node_of buf pin_count size_ next_].
    rewrite to_int32_small by lia. erewrite bind_ok by reflexivity. erewrite bind_ok by reflexivity.
    reflexivity.
  - apply rep_count_only; [exact Hr1|]. symmetry. apply (used_int _ _ Hr1).
  - done.
Qed.

Lemma unpin_ok c l1 a e l2 :
  cache_rep c (l1 ++ (a, e) :: l2) → 0 < e_pins e →
  ∃ c', unpin (Some a) c = Ok tt c' ∧ cache_rep c' (l1 ++ (a, with_pins e (e_pins e - 1)) :: l2).
Proof.
  intros Hr Hp. pose proof (cr_map _ _ Hr (e_name e) a) as [_ Hm].
  destruct (rep_lookup c _ a e Hr ltac:(set_solver)) as (_ & _ & nx & _ & Hn).
  assert (Hrg : e_pins e < 2 ^ 31).
  { pose proof (cr_ranges _ _ Hr) as Hrg. rewrite Forall_app, Forall_cons in Hrg. naive_solver. }
  pose proof (rep_pins c l1 a e l2 nx (e_pins e - 1) Hr Hn ltac:(lia)) as Hr1.
  eexists. split; [|exact Hr1].
  unfold unpin. rewrite (bind_ok _ _ _ _ _ (node_ok _ _ _ Hn)), (bind_ok _ _ _ _ _ (gets_ok _ _)).
  cbn [file_name node_of]. rewrite (Hm ltac:(exists e; set_solver)).
  rewrite (bind_ok _ _ _ _ _ (node_ok _ _ _ Hn)). unfold add_pin.
  rewrite bind_bind, (bind_ok _ _ _ _ _ (node_ok _ _ _ Hn)). cbn [file_name node_of buf pin_count size_ next_].
  rewrite (to_int32_small (_ + _)) by lia. erewrite bind_ok by reflexivity.
  rewrite (proj2 (Z.eqb_neq (e_pins e) 0)) by lia. done.
Qed.

(** Unpinning a file that is not pinned aborts. *)
Lemma unpin_unpinned c l a e :
  cache_rep c l → (a, e) ∈ l → e_pins e = 0 → unpin (Some a) c = Err Fatal.
Proof.
  intros Hr Hin Hp. pose proof (cr_map _ _ Hr (e_name e) a) as [_ Hm].
  destruct (rep_lookup c _ a e Hr Hin) as (l1 & l2 & nx & El & Hn).
  unfold unpin. rewrite (bind_ok _ _ _ _ _ (node_ok _ _ _ Hn)), (bind_ok _ _ _ _ _ (gets_ok _ _)).
  cbn [file_name node_of]. rewrite (Hm ltac:(eauto)).
  rewrite (bind_ok _ _ _ _ _ (node_ok _ _ _ Hn)). unfold add_pin.
  rewrite bind_bind, (bind_ok _ _ _ _ _ (node_ok _ _ _ Hn)). erewrite bind_ok by reflexivity.
  cbn [pin_count node_of]. by rewrite Hp.
Qed.

(** ** Loading *)

Lemma load_insert_run c l name b st_size :
  cache_rep c l → (∀ a e, (a, e) ∈ l → e_name e ≠ name) → 0 ≤ st_size < 2 ^ 31 →
  let a := next_addr c in let e := mkEntry name (Some b) 1 st_size in
  ∃ ns, load_insert name b st_size c =
      Ok (Some a) (put_head a (put_nodes ns (put_map (<[name := a]> (cache_map_ c)) (put_fresh (a + 1) c)))) ∧
    a ∉ (sentinel :: l).*1 ∧ seg ns (Some tail_) (sentinel :: l ++ [(a, e)]) None ∧
    (∀ x, is_Some (ns !! x) ↔ x ∈ a :: (sentinel :: l).*1).
Proof.
  intros Hr Hname Hsz a e.
  assert (Ha : a ∉ (sentinel :: l).*1).
  { intros Hin. pose proof (cr_fresh _ _ Hr) as Hf. rewrite Forall_forall in Hf. specialize (Hf _ Hin).
    unfold a in Hf. simpl in Hf. lia. }
  destruct (nodeInsert_ok c l a e
    (put_map (<[name := a]> (cache_map_ c)) (put_nodes (<[a := mkNode name (Some b) 1 st_size None]> (nodes c))
      (put_fresh (a + 1) c))) Hr Ha eq_refl eq_refl) as (ns & Hins & Hseg & Hdom).
  assert (Hnone : cache_map_ c !! name = None).
  { destruct (cache_map_ c !! name) as [a'|] eqn:E; [|done]. apply (cr_map _ _ Hr) in E as (e' & He & En).
    by destruct (Hname a' e'). }
  exists ns. split; [|done].
  unfold load_insert. rewrite (bind_ok _ _ _ _ _ (gets_ok _ _)). erewrite bind_ok by reflexivity.
  rewrite (bind_ok _ _ _ _ _ (gets_ok _ _)). cbn [cache_map_ put_fresh]. rewrite Hnone.
  erewrite bind_ok by reflexivity. erewrite bind_ok by reflexivity.
  rewrite to_int32_small by lia. rewrite (bind_ok _ _ _ _ _ Hins). reflexivity.
Qed.

Lemma load_insert_ok c l name b st_size :
  cache_rep c l → (∀ a e, (a, e) ∈ l → e_name e ≠ name) →
  0 ≤ st_size → bytes_used_ c + st_size ≤ max_size_ c →
  let a := next_addr c in
  ∃ c1 c2, load_insert name b st_size c = Ok (Some a) c1 ∧
    load_account st_size (Some a) c1 = Ok tt c2 ∧
    cache_rep c2 (l ++ [(a, mkEntry name (Some b) 1 st_size)]) ∧
    bytes_used_ c2 = bytes_used_ c + st_size ∧ max_size_ c2 = max_size_ c.
Proof.
  intros Hr Hname Hsz Hfit a. pose proof (used_range _ _ Hr) as Hur. pose proof (cr_max _ _ Hr) as Hmx.
  destruct (load_insert_run c l name b st_size Hr Hname ltac:(lia)) as (ns & Hrun & Ha & Hseg & Hdom).
  fold a in Hrun, Ha, Hseg, Hdom.
  assert (Hnd' : NoDup (sentinel :: l ++ [(a, mkEntry name (Some b) 1 st_size)]).*1).
  { change (sentinel :: l ++ _) with ((sentinel :: l) ++ [(a, mkEntry name (Some b) 1 st_size)]).
    rewrite fmap_app. apply NoDup_app. split_and!; [apply (cr_nodup _ _ Hr)| |apply NoDup_singleton].
    intros x Hx Hx2. simpl in Hx2. apply list_elem_of_singleton in Hx2 as ->. done. }
  eexists _, _. split; [exact Hrun|]. split; [reflexivity|]. split_and!.
  - split; cbn; rewrite ?Z.add_0_r.
    + exact Hseg.
    + change (tail_ :: (l ++ [(a, mkEntry name (Some b) 1 st_size)]).*1) with
        ((sentinel :: l ++ [(a, mkEntry name (Some b) 1 st_size)]).*1).
      change (sentinel :: l ++ ?x) with ((sentinel :: l) ++ x). rewrite fmap_app.
      change ([(a, mkEntry name (Some b) 1 st_size)].*1) with [a]. by rewrite last_snoc.
    + exact Hnd'.
    + intros x. rewrite Hdom. simpl. rewrite fmap_app. simpl. set_solver.
    + intros name' a'. destruct (decide (name' = name)) as [->|Hne].
      * rewrite lookup_insert_eq. split.
        -- intros [= <-]. eexists. split; [apply elem_of_app; right; left|done].
        -- intros (e & [He|He]%elem_of_app & En); [by destruct (Hname a' e)|].
           apply list_elem_of_singleton in He. by injection He as -> _.
      * rewrite lookup_insert_ne, (cr_map _ _ Hr) by done. split.
        -- intros (e & He & En). exists e. split; [set_solver|done].
        -- intros (e & [He|He]%elem_of_app & En); [eauto|].
           apply list_elem_of_singleton in He. injection He as _ ->. by destruct Hne.
    + rewrite fmap_app. apply Forall_cons. pose proof (cr_fresh _ _ Hr) as [Hf0 Hf]%Forall_cons.
      simpl in Hf0. unfold a. split; [lia|]. apply Forall_app. split.
      * eapply Forall_impl; [exact Hf|]. simpl. lia.
      * constructor; [simpl; lia|constructor].
    + rewrite to_int32_small by lia. rewrite fmap_app, zsum_app. rewrite (cr_used _ _ Hr). unfold zsum. simpl. lia.
    + apply Forall_app. split; [apply (cr_ranges _ _ Hr)|]. constructor; [simpl; lia|constructor].
    + rewrite to_int32_small by lia. lia.
  - cbn. by rewrite to_int32_small by lia.
  - done.
Qed.

(** *** Reading the file *)

(** An empty buffer whose one chunk has the contents [c]. *)
Definition blank (c : list (option Z)) : Buffer := mkBuf [c] [0] (mkPos 0 0) (mkPos 0 0).

Definition overwrite (c : list (option Z)) (data : list Z) : list (option Z) :=
  (Some <$> data) ++ drop (length data) c.

Lemma blank_holds c : length c = Z.to_nat BlockSize → holds (blank c) [].
Proof.
  intros Hc. exists [], []. split; [|done]. split; simpl; try done.
  - constructor; [|constructor]. split_and!; [done|apply Nat.le_0_l|done].
  - by exists [].
Qed.

Lemma length_overwrite c data :
  length c = Z.to_nat BlockSize → (length data ≤ 4096)%nat →
  length (overwrite c data) = Z.to_nat BlockSize.
Proof.
  intros Hc Hd. unfold overwrite. rewrite length_app, length_fmap, length_drop, Hc.
  change (Z.to_nat BlockSize) with (Z.to_nat 4096). lia.
Qed.

(** A read of at most a block goes to the start of the chunk every time. *)
Lemma read_step fuel c data reads to_read :
  0 < to_read → (length data ≤ 4096)%nat →
  read_loop (S fuel) (inr data :: reads) to_read (blank c) =
  read_loop fuel reads (wrap64 (to_read - Z.of_nat (length data))) (blank (overwrite c data)).
Proof.
  intros Ht Hd. cbn [read_loop]. destruct (Z.ltb_spec 0 to_read); [|lia].
  assert (Hres : reserve BlockSize (blank c) = Ok true (blank c)) by reflexivity.
  rewrite (bind_ok _ _ _ _ _ Hres), (bind_ok _ _ _ _ _ (gets_ok writeSize _)),
    (bind_ok _ _ _ _ _ (gets_ok wpos_ _)).
  change (writeSize (blank c)) with 4096. rewrite take_ge by lia.
  erewrite bind_ok; [reflexivity|]. unfold store_at. cbn [wpos_ blank idx off chunks_ lookup list_lookup].
  destruct (Z.leb_spec (0 + Z.of_nat (length data)) BlockSize) as [_|Hf];
    [reflexivity|unfold BlockSize in Hf; lia].
Qed.

Definition total (datas : list (list Z)) : Z := zsum ((λ d, Z.of_nat (length d)) <$> datas).

Lemma total_cons d datas : total (d :: datas) = Z.of_nat (length d) + total datas.
Proof. done. Qed.

Lemma total_nonneg datas : 0 ≤ total datas.
Proof. apply zsum_nonneg, Forall_fmap, Forall_forall. intros x _. simpl. lia. Qed.

(** The read loop when the reads give exactly the file. *)
Lemma read_loop_exact datas : ∀ fuel c,
  Forall (λ d, d ≠ [] ∧ (length d ≤ 4096)%nat) datas → total datas < 2 ^ 64 →
  (length datas < fuel)%nat → length c = Z.to_nat BlockSize →
  ∃ c', read_loop fuel (inr <$> datas) (total datas) (blank c) = Ok (inr 0) (blank c') ∧
    length c' = Z.to_nat BlockSize.
Proof.
  induction datas as [|d datas IH]; intros fuel c Hd Ht Hf Hc; (destruct fuel as [|fuel]; [simpl in Hf; lia|]).
  { exists c. done. }
  apply Forall_cons in Hd as [[Hne Hl] Hd]. rewrite total_cons in *. pose proof (total_nonneg datas).
  assert (1 ≤ length d)%nat by (destruct d; [done|simpl; lia]).
  rewrite fmap_cons, read_step, wrap64_small by lia.
  replace (Z.of_nat (length d) + total datas - Z.of_nat (length d)) with (total datas) by lia.
  apply IH; [done|lia|simpl in Hf; lia|by apply length_overwrite].
Qed.

(** The end of the file reached too early: the loop never ends. *)
Lemma read_loop_hangs fuel c to_read :
  0 < to_read → read_loop fuel [] to_read (blank c) = Err OutOfFuel.
Proof.
  intros Ht. induction fuel as [|fuel IH]; [done|]. cbn [read_loop].
  destruct (Z.ltb_spec 0 to_read); [|lia].
  assert (Hres : reserve BlockSize (blank c) = Ok true (blank c)) by reflexivity.
  rewrite (bind_ok _ _ _ _ _ Hres). exact IH.
Qed.

Lemma read_file_once fuel data :
  data ≠ [] → (length data ≤ 4096)%nat → (1 < fuel)%nat →
  ∃ b, read_file fuel (Z.of_nat (length data)) [inr data] = Ok (inr tt) b ∧ holds b data.
Proof.
  intros Hne Hl Hf. destruct fuel as [|[|fuel]]; [lia..|].
  assert (1 ≤ length data)%nat by (destruct data; [done|simpl; lia]).
  unfold read_file. change Buffer_init with (blank new_chunk).
  erewrite bind_ok.
  2:{ rewrite read_step by lia. rewrite Z.sub_diag. reflexivity. }
  set (b := blank (overwrite new_chunk data)).
  cbn beta iota. rewrite Z.sub_0_r, wrap64_small by lia.
  assert (Hadv : advance (Z.of_nat (length data)) b =
    Ok true (mkBuf [overwrite new_chunk data] [Z.of_nat (length data)]
      (mkPos 0 (Z.of_nat (length data))) (mkPos 0 0))).
  { unfold advance. destruct (Z.leb_spec (Z.of_nat (length data)) 0); [lia|].
    change (writeSize b) with 4096. destruct (Z.leb_spec (Z.of_nat (length data)) 4096); [|lia].
    unfold add_size, mbind, M_bind, modify. cbn. by rewrite wrap64_small by lia. }
  rewrite (bind_ok _ _ _ _ _ Hadv). eexists. split; [reflexivity|]. exists [], data. split.
  2:{ unfold content. simpl. by rewrite app_nil_r. }
  split; simpl; try done.
  - constructor; [|constructor]. split_and!; [by apply length_overwrite; [vm_compute; reflexivity|]| |].
    + change (Z.to_nat BlockSize) with (Z.to_nat 4096). lia.
    + unfold overwrite. rewrite take_app_le by (by rewrite length_fmap). apply take_ge. by rewrite length_fmap.
  - exists data. split; [done|]. simpl. lia.
Qed.

Lemma read_file_large fuel datas :
  Forall (λ d, d ≠ [] ∧ (length d ≤ 4096)%nat) datas → 4096 < total datas < 2 ^ 64 →
  (length datas < fuel)%nat →
  ∃ b, read_file fuel (total datas) (inr <$> datas) = Ok (inr tt) b ∧ holds b [].
Proof.
  intros Hd Ht Hf. unfold read_file. change Buffer_init with (blank new_chunk).
  destruct (read_loop_exact datas fuel new_chunk Hd ltac:(lia) Hf ltac:(by vm_compute)) as (c & Hr & Hc).
  rewrite (bind_ok _ _ _ _ _ Hr). rewrite Z.sub_0_r, wrap64_small by lia.
  assert (Hadv : advance (total datas) (blank c) = Ok false (blank c)).
  { unfold advance. destruct (Z.leb_spec (total datas) 0); [lia|].
    change (writeSize (blank c)) with 4096. destruct (Z.leb_spec (total datas) 4096); [lia|done]. }
  rewrite (bind_ok _ _ _ _ _ Hadv). eexists. split; [reflexivity|]. by apply blank_holds.
Qed.

(** ** Eviction *)

Definition pinned (p : Z * entry) : Prop := e_pins p.2 ≠ 0.

Lemma evict_stop fuel bte ev curr p td c :
  bte = 0 ∨ curr = None → evict_loop (S fuel) bte ev curr p td c = Ok (bte, ev, td) c.
Proof. intros [-> | ->]; cbn [evict_loop]; [by destruct curr|done]. Qed.

(** Pinned nodes are passed. *)
Lemma evict_skip l1 : ∀ fuel bte ev curr p td c to,
  seg (nodes c) curr l1 to → Forall pinned l1 → 0 < bte →
  evict_loop (length l1 + fuel) bte ev curr p td c =
  evict_loop fuel bte ev to (default p (last l1.*1)) td c.
Proof.
  induction l1 as [|[a e] l1 IH]; intros fuel bte ev curr p td c to Hs Hp Hb.
  { simpl in Hs. by subst to. }
  destruct Hs as (-> & nx & Hn & Hs). apply Forall_cons in Hp as [Hpe Hp].
  cbn [length Nat.add evict_loop]. destruct (Z.ltb_spec 0 bte); [|lia].
  rewrite (bind_ok _ _ _ _ _ (node_ok _ _ _ Hn)). cbn [pin_count node_of next_].
  unfold pinned in Hpe. simpl in Hpe. rewrite (proj2 (Z.eqb_neq _ _) Hpe).
  rewrite (IH _ _ _ _ _ _ _ to) by done. f_equal. cbn [fmap list_fmap fst]. rewrite last_cons.
  by destruct (last l1.*1).
Qed.

(** The state after the node [a] with entry [e] was taken out behind [p]. *)
Definition taken (c : FileCache) (p : Z) (ep : entry) (a : Z) (e : entry) (na : option Z) : FileCache :=
  put_head (if head_ c =? a then p else head_ c)
    (put_nodes (<[p := node_of ep na]> (nodes c)) (put_map (delete (e_name e) (cache_map_ c)) c)).

(** An unpinned node is taken out. *)
Lemma evict_take fuel bte ev p ep pn a e na td c :
  nodes c !! p = Some (node_of ep pn) → nodes c !! a = Some (node_of e na) → a ≠ p →
  e_pins e = 0 → 0 < bte →
  evict_loop (S fuel) bte ev (Some a) p td c =
  evict_loop fuel (wrap64 (bte - e_size e)) (to_int32 (ev + e_size e)) na a (td ++ [a])
    (taken c p ep a e na).
Proof.
  intros Hp Ha Hne H0 Hb. cbn [evict_loop]. destruct (Z.ltb_spec 0 bte); [|lia].
  rewrite (bind_ok _ _ _ _ _ (node_ok _ _ _ Ha)). cbn [pin_count node_of size_ file_name]. rewrite H0, Z.eqb_refl.
  erewrite bind_ok by reflexivity.
  rewrite (bind_ok _ _ _ _ _ (nodeExtract_ok (put_map (delete (e_name e) (cache_map_ c)) c) p ep pn a e na Hp Ha Hne)).
  rewrite (bind_ok _ _ _ (node_of e na) (taken c p ep a e na)); [reflexivity|].
  apply node_ok. unfold taken. cbn [nodes put_head put_nodes]. by rewrite lookup_insert_ne.
Qed.

(** The loop reaches the end of what is left of the list whatever it evicts,
    and touches only the nodes from [q] on. *)
Lemma evict_rest l : ∀ fuel bte ev curr q td c,
  seg (nodes c) curr l None → NoDup (q :: l.*1) → is_Some (nodes c !! q) → (length l < fuel)%nat →
  0 ≤ bte →
  ∃ bte' ev' del c', evict_loop fuel bte ev curr q td c = Ok (bte', ev', td ++ del) c' ∧
    (∀ x, x ∉ q :: l.*1 → nodes c' !! x = nodes c !! x) ∧
    (∀ x, is_Some (nodes c' !! x) ↔ is_Some (nodes c !! x)) ∧
    NoDup del ∧ (∀ x, x ∈ del → x ∈ l.*1) ∧ (head_ c' = head_ c ∨ head_ c' ∈ q :: l.*1).
Proof.
  induction l as [|[a e] l IH]; intros fuel bte ev curr q td c Hs Hnd [nq Hq] Hf Hb;
    (destruct fuel as [|fuel]; [simpl in Hf; lia|]).
  { simpl in Hs. subst curr. exists bte, ev, [], c. rewrite evict_stop by auto. rewrite app_nil_r.
    split_and!; auto using NoDup_nil_2; set_solver. }
  destruct (decide (bte = 0)) as [->|Hne].
  { exists 0, ev, [], c. rewrite evict_stop by auto. rewrite app_nil_r.
    split_and!; auto using NoDup_nil_2; set_solver. }
  destruct Hs as (-> & na & Ha & Hs). simpl in Hnd. apply NoDup_cons in Hnd as [Hqa Hnd].
  pose proof Hnd as [Hal Hndl]%NoDup_cons. simpl in Hf.
  destruct (decide (e_pins e = 0)) as [H0|Hp].
  - assert (Eq : nq = node_of (mkEntry (file_name nq) (buf nq) (pin_count nq) (size_ nq)) (next_ nq))
      by by destruct nq. rewrite Eq in Hq.
    assert (Haq : a ≠ q) by (intros ->; apply Hqa; left).
    rewrite (evict_take fuel bte ev q _ _ a e na td c Hq Ha Haq H0 ltac:(lia)).
    set (c1 := taken _ _ _ _ _ _).
    assert (Hdom : ∀ x, is_Some (nodes c1 !! x) ↔ is_Some (nodes c !! x)).
    { intros x. cbn. rewrite lookup_insert_is_Some'. split; [|auto]. intros [<-|?]; [eauto|done]. }
    destruct (IH fuel (wrap64 (bte - e_size e)) (to_int32 (ev + e_size e)) na a (td ++ [a]) c1)
      as (bte' & ev' & del & c' & Hr & Hfr & Hd & Hnd' & Hsub & Hh).
    + eapply seg_frame; [exact Hs|]. intros x Hx. cbn. apply lookup_insert_ne. set_solver.
    + done.
    + apply Hdom. eauto.
    + lia.
    + pose proof (wrap64_range (bte - e_size e)). lia.
    + exists bte', ev', (a :: del), c'. rewrite Hr, <-app_assoc. split_and!; [done|..].
      * intros x Hx. rewrite Hfr by set_solver. cbn. apply lookup_insert_ne. set_solver.
      * intros x. by rewrite Hd.
      * constructor; [|done]. intros Hin. by apply Hal, Hsub.
      * intros x [->|Hx]%elem_of_cons; [left|right; by apply Hsub].
      * destruct Hh as [->|Hh]; [|right; set_solver]. cbn. destruct (head_ c =? a); [right; left|by left].
  - cbn [evict_loop]. destruct (Z.ltb_spec 0 bte); [|lia].
    rewrite (bind_ok _ _ _ _ _ (node_ok _ _ _ Ha)). cbn [pin_count node_of next_].
    rewrite (proj2 (Z.eqb_neq _ _) Hp).
    destruct (IH fuel bte ev na a td c Hs Hnd ltac:(eauto) ltac:(lia) Hb)
      as (bte' & ev' & del & c' & Hr & Hfr & Hd & Hnd' & Hsub & Hh).
    exists bte', ev', del, c'. split_and!; [done|..]; try done.
    + intros x Hx. apply Hfr. set_solver.
    + intros x Hx. right. by apply Hsub.
    + destruct Hh as [->|Hh]; [by left|right; set_solver].
Qed.

(** The node before a position of the list; the sentinel is before the first. *)
Lemma list_prev l1 : ∃ L p ep, sentinel :: l1 = L ++ [(p, ep)] ∧ p = default tail_ (last l1.*1).
Proof.
  induction l1 as [|[p ep] l1 _] using rev_ind.
  - by exists [], tail_, sentinel.2.
  - exists (sentinel :: l1), p, ep. split; [done|]. rewrite fmap_app. cbn [fmap list_fmap fst].
    by rewrite last_snoc.
Qed.

Lemma node_bound c l : cache_rep c l → (S (length l) ≤ base.size (nodes c))%nat.
Proof.
  intros Hr. rewrite <-(size_dom (D := gset Z)). pose proof (cr_nodup _ _ Hr) as Hnd.
  assert (E : base.size (list_to_set (C := gset Z) (sentinel :: l).*1) = S (length l)).
  { rewrite size_list_to_set by done. by rewrite length_fmap. }
  rewrite <-E. apply subseteq_size. intros a Ha%elem_of_list_to_set. apply elem_of_dom. by apply (cr_dom _ _ Hr).
Qed.

(** The abstract effect of taking one node out of the cache. *)
Lemma rep_taken c l1 a e l2 L p ep na :
  cache_rep c (l1 ++ (a, e) :: l2) → sentinel :: l1 = L ++ [(p, ep)] →
  nodes c !! a = Some (node_of e na) →
  cache_rep (put_nodes (delete a (nodes (taken c p ep a e na))) (count (- e_size e) 0 0 0 (taken c p ep a e na)))
    (l1 ++ l2).
Proof.
  intros Hr EL Ha. pose proof (used_range _ _ Hr) as Hur. pose proof Hr as [Hs Hh Hnd Hdom Hmap Hfr Hu Hrg Hmx].
  assert (EL1 : ∀ l, sentinel :: l1 ++ l = L ++ (p, ep) :: l).
  { intros l. change (sentinel :: l1 ++ l) with ((sentinel :: l1) ++ l). by rewrite EL, <-app_assoc. }
  rewrite EL1 in Hs, Hh, Hnd, Hfr. setoid_rewrite EL1 in Hdom.
  rewrite fmap_app in Hnd, Hh, Hfr. cbn [fmap list_fmap fst] in Hnd, Hh, Hfr.
  pose proof Hnd as (_ & HdL & [Hpl [Hal _]%NoDup_cons]%NoDup_cons)%NoDup_app.
  assert (Hpa : p ≠ a) by (intros ->; apply Hpl; left).
  assert (HaL : a ∉ L.*1) by (intros ?; apply (HdL a); [done|right; left]).
  assert (HpL : p ∉ L.*1) by (intros ?; apply (HdL p); [done|left]).
  assert (Hpl2 : p ∉ l2.*1) by (intros ?; apply Hpl; by right).
  apply Forall_app in Hrg as [Hrg1 [Hrga Hrg2]%Forall_cons]. simpl in Hrga.
  assert (Eu : bytes_used_ c = zsum ((λ q, e_size q.2) <$> (l1 ++ l2)) + e_size e).
  { rewrite Hu, !fmap_app, !zsum_app, fmap_cons, zsum_cons. simpl. lia. }
  assert (0 ≤ zsum ((λ q, e_size q.2) <$> (l1 ++ l2))).
  { apply zsum_nonneg, Forall_fmap, Forall_app. split; (eapply Forall_impl; [eassumption|]); simpl; naive_solver. }
  split; cbn [nodes head_ cache_map_ next_addr bytes_used_ max_size_ put_nodes put_head put_map taken count]; rewrite ?EL1, ?fmap_app.
  - apply seg_app in Hs as (mid & HsL & -> & pn & Hp & -> & na' & Ha' & Hs2).
    rewrite Ha in Ha'. injection Ha' as <-.
    apply seg_app. exists (Some p). split; [|split; [done|]].
    + eapply seg_frame; [exact HsL|]. intros x Hx.
      rewrite lookup_delete_ne by (intros ->; done). apply lookup_insert_ne. intros ->. done.
    + exists na. split.
      * rewrite lookup_delete_ne by done. apply lookup_insert_eq.
      * eapply seg_frame; [exact Hs2|]. intros x Hx.
        rewrite lookup_delete_ne by (intros ->; done). apply lookup_insert_ne. intros ->. done.
  - cbn [fmap list_fmap fst]. rewrite last_app, last_cons in Hh |- *. rewrite last_cons in Hh.
    destruct (last l2.*1) as [z|] eqn:Elast; injection Hh as Eh; rewrite Eh.
    + destruct (Z.eqb_spec z a) as [->|]; [|done]. destruct Hal. rewrite last_lookup in Elast.
      by eapply list_elem_of_lookup_2.
    + by rewrite Z.eqb_refl.
  - apply NoDup_app in Hnd as (H1 & H2 & H3). apply NoDup_app. split_and!; [done|..].
    + intros x Hx. specialize (H2 x Hx). cbn [fmap list_fmap fst] in *. set_solver.
    + cbn [fmap list_fmap fst] in *. apply NoDup_cons in H3 as [? [? ?]%NoDup_cons]. constructor; [set_solver|done].
  - intros x. rewrite lookup_delete_is_Some, lookup_insert_is_Some', Hdom, fmap_app. cbn [fmap list_fmap fst].
    rewrite !elem_of_app, !elem_of_cons. split; [naive_solver|].
    intros Hx. split; [|naive_solver]. intros <-. destruct Hx as [Hx|[Hx|Hx]]; done.
  - intros name x. rewrite lookup_delete_Some, Hmap. split.
    + intros (Hne & e1 & He & En). exists e1. split; [|done]. rewrite elem_of_app, elem_of_cons in He.
      rewrite elem_of_app. destruct He as [?|[[= -> ->]|?]]; [by left|by destruct Hne|by right].
    + intros (e1 & He & En).
      assert (Hx : cache_map_ c !! name = Some x).
      { apply Hmap. exists e1. split; [|done]. set_solver. }
      split; [|exists e1; split; [set_solver|done]]. intros En'.
      assert (Hxa : cache_map_ c !! name = Some a).
      { apply Hmap. exists e. split; [set_solver|by rewrite <-En']. }
      rewrite Hx in Hxa. injection Hxa as ->.
      assert (a ∈ (l1 ++ l2).*1) as Hin by (apply (list_elem_of_fmap_2' fst _ (a, e1)); done).
      rewrite fmap_app, elem_of_app in Hin. destruct Hin as [Hin|Hin]; [|done].
      assert (a ∈ (L ++ [(p, ep)]).*1) as Hin' by (rewrite <-EL; by right).
      rewrite fmap_app, elem_of_app in Hin'. destruct Hin' as [?|[->|[]%elem_of_nil]%elem_of_cons]; done.
  - apply Forall_app in Hfr as [H1 H2]. cbn [fmap list_fmap fst] in *. apply Forall_app. split; [done|].
    apply Forall_cons in H2 as [? [? ?]%Forall_cons]. by constructor.
  - rewrite to_int32_small by lia. rewrite <-fmap_app. lia.
  - by apply Forall_app.
  - rewrite to_int32_small by lia. lia.
Qed.

(** [evict] up to its loop. *)
Lemma evict_start c l n :
  cache_rep c l → l ≠ [] →
  ∃ k first, (length l ≤ k)%nat ∧ seg (nodes c) first l None ∧
    nodes c !! tail_ = Some (node_of sentinel.2 first) ∧
    evict n c = ('(remaining, evicted, to_delete) ← evict_loop (S (S k)) n 0 first tail_ [];
                 modify (count (- evicted) 0 0 0);; delete_all to_delete;; mret (remaining <=? 0)) c.
Proof.
  intros Hr Hne. pose proof (cr_seg _ _ Hr) as (_ & first & Ht & Hs).
  pose proof (node_bound c l Hr) as Hk. pose proof (cr_head _ _ Hr) as Hh. pose proof (cr_nodup _ _ Hr) as Hnd.
  exists (base.size (nodes c) - 1)%nat, first. split_and!; [lia|done|done|].
  unfold evict. rewrite (bind_ok _ _ _ _ _ (gets_ok _ _)).
  assert (Hht : (head_ c =? tail_) = false).
  { apply Z.eqb_neq. intros E. rewrite E in Hh. apply NoDup_cons in Hnd as [Hnd _]. apply Hnd.
    change (tail_ ∈ l.*1). change ((sentinel :: l).*1) with (tail_ :: l.*1) in Hh. rewrite last_cons in Hh.
    destruct (last l.*1) as [z|] eqn:El.
    - injection Hh as Ez. rewrite Ez. rewrite last_lookup in El. by eapply list_elem_of_lookup_2.
    - apply last_None in El. by destruct l. }
  rewrite Hht. erewrite bind_ok by (by apply node_ok). rewrite (bind_ok _ _ _ _ _ (gets_ok _ _)).
  by replace (S (base.size (nodes c))) with (S (S (base.size (nodes c) - 1))) by lia.
Qed.

Lemma evict_one c l1 a e l2 n :
  cache_rep c (l1 ++ (a, e) :: l2) → Forall pinned l1 → e_pins e = 0 →
  0 < n ≤ e_size e → n = e_size e ∨ Forall pinned l2 →
  ∃ c', evict n c = Ok (bool_decide (n = e_size e)) c' ∧ cache_rep c' (l1 ++ l2).
Proof.
  intros Hr Hp1 H0 Hn Hcase. pose proof (used_range _ _ Hr) as Hur.
  destruct (list_prev l1) as (L & p & ep & EL & Ep).
  destruct (evict_start c _ n Hr ltac:(by destruct l1)) as (k & first & Hk & Hs & Ht & ->).
  pose proof (cr_seg _ _ Hr) as HsL. pose proof (cr_nodup _ _ Hr) as Hnd.
  change (sentinel :: l1 ++ (a, e) :: l2) with ((sentinel :: l1) ++ (a, e) :: l2) in HsL, Hnd.
  rewrite EL, <-app_assoc in HsL. rewrite EL, fmap_app in Hnd.
  destruct (seg_lookup _ _ _ _ _ _ _ HsL) as (pn & Hpn & -> & na & Ha & Hs2).
  assert (Hap : a ≠ p).
  { intros ->. apply NoDup_app in Hnd as (_ & Hd & _). apply (Hd p); [|by left].
    rewrite fmap_app. apply elem_of_app. right. left. }
  assert (Hsz : e_size e < 2 ^ 31).
  { pose proof (cr_max _ _ Hr). rewrite (cr_used _ _ Hr) in Hur. rewrite !fmap_app, zsum_app, fmap_cons, zsum_cons in Hur.
    pose proof (cr_ranges _ _ Hr) as [Hr1 [_ Hr2]%Forall_cons]%Forall_app.
    assert (0 ≤ zsum ((λ q, e_size q.2) <$> l1)) by (apply zsum_nonneg, Forall_fmap; eapply Forall_impl; [exact Hr1|]; naive_solver).
    assert (0 ≤ zsum ((λ q, e_size q.2) <$> l2)) by (apply zsum_nonneg, Forall_fmap; eapply Forall_impl; [exact Hr2|]; naive_solver).
    simpl in Hur. lia. }
  apply seg_app in Hs as (mid & Hs1 & Hmid & _). subst mid. rewrite length_app in Hk. simpl in Hk.
  replace (S (S k)) with (length l1 + S (S (k - length l1)))%nat by lia.
  assert (Hloop : ∃ bte, evict_loop (length l1 + S (S (k - length l1))) n 0 first tail_ [] c =
      Ok (bte, e_size e, [a]) (taken c p ep a e na) ∧ (bte <=? 0) = bool_decide (n = e_size e)).
  { rewrite (evict_skip l1 _ _ _ _ _ _ _ (Some a)) by (done || lia). rewrite <-Ep.
    rewrite (evict_take _ _ _ p ep (Some a) a e na) by (done || lia).
    rewrite Z.add_0_l, to_int32_small by lia. cbn [app].
    destruct (decide (n = e_size e)) as [->|Hne].
    - exists 0. rewrite Z.sub_diag. change (wrap64 0) with 0. rewrite evict_stop by auto.
      by rewrite bool_decide_true.
    - destruct Hcase as [?|Hp2]; [done|]. exists (wrap64 (n - e_size e)).
      assert (Ew : wrap64 (n - e_size e) = n - e_size e + 2 ^ 64).
      { rewrite <-(wrap64_small (n - e_size e + 2 ^ 64)) by lia. apply wrap64_cong. exists (-1). lia. }
      rewrite bool_decide_false by done. split; [|rewrite Ew; apply Z.leb_gt; lia].
      replace (S (k - length l1)) with (length l2 + S (k - length l1 - length l2))%nat by lia.
      rewrite (evict_skip l2 _ _ _ _ _ _ _ None); [|..|rewrite Ew; lia]; [|..|done].
      + by rewrite evict_stop by auto.
      + eapply seg_frame; [exact Hs2|]. intros x Hx. cbn. apply lookup_insert_ne. intros <-.
        apply NoDup_app in Hnd as (_ & Hd & _). apply (Hd p); [|by right].
        rewrite fmap_app. apply elem_of_app. right. left. }
  destruct Hloop as (bte & Hloop & Hb). rewrite (bind_ok _ _ _ _ _ Hloop). cbn beta iota.
  eexists. split; [|exact (rep_taken c l1 a e l2 L p ep na Hr EL Ha)].
  erewrite bind_ok by reflexivity. rewrite <-Hb. cbn [delete_all].
  erewrite bind_ok; [reflexivity|].
  assert (Ha' : nodes (taken c p ep a e na) !! a = Some (node_of e na)) by (cbn; by rewrite lookup_insert_ne).
  erewrite bind_ok; [reflexivity|]. unfold delete_node. erewrite bind_ok by (by apply node_ok). reflexivity.
Qed.

Lemma delete_all_ok dels : ∀ c,
  NoDup dels → (∀ x, x ∈ dels → is_Some (nodes c !! x)) →
  ∃ ns, delete_all dels c = Ok tt (put_nodes ns c) ∧
    (∀ x, ns !! x = if decide (x ∈ dels) then None else nodes c !! x).
Proof.
  induction dels as [|a dels IH]; intros c Hnd Hin.
  { exists (nodes c). split; [by destruct c|]. intros x. by rewrite decide_False by apply not_elem_of_nil. }
  apply NoDup_cons in Hnd as [Ha Hnd]. destruct (Hin a ltac:(left)) as [n Hn].
  destruct (IH (put_nodes (delete a (nodes c)) c) Hnd) as (ns & Hr & Hns).
  { intros x Hx. cbn. rewrite lookup_delete_ne by (intros ->; done). apply Hin. by right. }
  exists ns. split.
  - cbn [delete_all]. erewrite bind_ok; [exact Hr|]. unfold delete_node.
    by erewrite bind_ok by (by apply node_ok).
  - intros x. rewrite Hns. cbn. destruct (decide (x = a)) as [->|Hne].
    + rewrite (decide_False (P := a ∈ dels)), lookup_delete_eq by done. by rewrite decide_True by left.
    + rewrite lookup_delete_ne by done. destruct (decide (x ∈ dels)).
      * by rewrite decide_True by (by right).
      * rewrite decide_False; [done|]. by intros [?|?]%elem_of_cons.
Qed.

Lemma pin_miss fuel c l name f :
  cache_rep c l → (∀ a e, (a, e) ∈ l → e_name e ≠ name) → pin fuel name f c = load fuel name f c.
Proof.
  intros Hr Hno. unfold pin. rewrite (bind_ok _ _ _ _ _ (gets_ok _ _)).
  destruct (cache_map_ c !! name) as [a|] eqn:E; [|done].
  apply (cr_map _ _ Hr) in E as (e & He & En). by destruct (Hno a e).
Qed.

Lemma room_ok c l n :
  cache_rep c l → bytes_used_ c + n ≤ max_size_ c → load_room n c = Ok true c.
Proof.
  intros Hr Hfit. pose proof (used_range _ _ Hr). pose proof (cr_max _ _ Hr). unfold load_room.
  rewrite (bind_ok _ _ _ _ _ (gets_ok _ _)). rewrite to_int32_small by lia.
  destruct (Z.ltb_spec (max_size_ c - bytes_used_ c) n); [lia|done].
Qed.

Lemma pin_load fuel c l name data :
  cache_rep c l → (∀ a e, (a, e) ∈ l → e_name e ≠ name) → (1 < fuel)%nat →
  data ≠ [] → (length data ≤ 4096)%nat → bytes_used_ c + Z.of_nat (length data) ≤ max_size_ c →
  ∃ b c', pin fuel name (File (Z.of_nat (length data)) [inr data]) c = Ok (Some (next_addr c), Some b, 0) c' ∧
    holds b data ∧
    cache_rep c' (l ++ [(next_addr c, mkEntry name (Some b) 1 (Z.of_nat (length data)))]).
Proof.
  intros Hr Hno Hf Hne Hl Hfit. rewrite (pin_miss _ _ _ _ _ Hr Hno).
  destruct (read_file_once fuel data Hne Hl Hf) as (b & Hb & Hh).
  destruct (load_insert_ok c l name b (Z.of_nat (length data)) Hr Hno ltac:(lia) Hfit) as (c1 & c2 & H1 & H2 & H3 & _).
  exists b, c2. split_and!; [|done|done]. cbn [load].
  rewrite (bind_ok _ _ _ _ _ (room_ok _ _ _ Hr Hfit)), Hb, (bind_ok _ _ _ _ _ H1), (bind_ok _ _ _ _ _ H2). done.
Qed.

(** Two small files, loaded and unpinned again. *)
Definition two_files : M FileCache unit :=
  pin 2 (bytes "x") (File 3 [inr [1; 2; 3]]);; pin 2 (bytes "y") (File 2 [inr [4; 5]]);;
  unpin (Some 1);; unpin (Some 2).

Lemma two_files_ok : ∃ c b1 b2, two_files (FileCache_init 100) = Ok tt c ∧
  cache_rep c [(1, mkEntry (bytes "x") b1 0 3); (2, mkEntry (bytes "y") b2 0 2)].
Proof.
  destruct (pin_load 2 (FileCache_init 100) [] (bytes "x") [1; 2; 3] (cache_init_rep 100 ltac:(lia)))
    as (b1 & c1 & H1 & _ & R1); [intros a e Hin; by apply elem_of_nil in Hin|lia|done|simpl; lia|simpl; lia|].
  assert (N1 : next_addr c1 = 2 ∧ bytes_used_ c1 = 3 ∧ max_size_ c1 = 100).
  { assert (E : match pin 2 (bytes "x") (File 3 [inr [1; 2; 3]]) (FileCache_init 100) with
      | Ok _ c => (next_addr c =? 2) && (bytes_used_ c =? 3) && (max_size_ c =? 100)
      | Err _ => false end = true) by (vm_compute; reflexivity).
    simpl length in H1. change (Z.of_nat 3) with 3 in H1. rewrite H1 in E.
    apply andb_true_iff in E as [[E1%Z.eqb_eq E2%Z.eqb_eq]%andb_true_iff E3%Z.eqb_eq]. done. }
  destruct N1 as (N1 & N2 & N3).
  destruct (pin_load 2 c1 _ (bytes "y") [4; 5] R1) as (b2 & c2 & H2 & _ & R2).
  { intros a e [[= -> ->]|[]%elem_of_nil]%elem_of_cons. done. }
  1-4: try done; try lia; simpl; try lia.
  destruct (unpin_ok c2 [] 1 (mkEntry (bytes "x") (Some b1) 1 3) [(next_addr c1, mkEntry (bytes "y") (Some b2) 1 2)]
    R2 ltac:(simpl; lia)) as (c3 & H3 & R3).
  rewrite N1 in R3.
  destruct (unpin_ok c3 [(1, with_pins (mkEntry (bytes "x") (Some b1) 1 3) 0)] 2
    (mkEntry (bytes "y") (Some b2) 1 2) [] R3 ltac:(simpl; lia)) as (c4 & H4 & R4).
  exists c4, (Some b1), (Some b2). split; [|exact R4]. unfold two_files.
  rewrite (bind_ok _ _ _ _ _ H1), (bind_ok _ _ _ _ _ H2), (bind_ok _ _ _ _ _ H3). exact H4.
Qed.

(** The loop of [evict] on a list that starts with two files that are not
    pinned, when the first does not end it: the sentinel still points to the
    second. *)
Lemma evict_two_loop c a1 e1 a2 e2 l n k :
  cache_rep c ((a1, e1) :: (a2, e2) :: l) → e_pins e1 = 0 → e_pins e2 = 0 →
  0 < n < 2 ^ 64 → n ≠ e_size e1 → 0 ≤ e_size e1 < 2 ^ 31 → (length l < k)%nat →
  ∃ b' ev' del c3, evict_loop (S (S k)) n 0 (Some a1) tail_ [] c = Ok (b', ev', a1 :: a2 :: del) c3 ∧
    nodes c3 !! tail_ = Some (node_of sentinel.2 (Some a2)) ∧
    (∀ x, is_Some (nodes c3 !! x) ↔ is_Some (nodes c !! x)) ∧
    NoDup (a1 :: a2 :: del) ∧ (∀ x, x ∈ del → x ∈ l.*1) ∧ head_ c3 ≠ tail_.
Proof.
  intros Hr P1 P2 Hn Hne Hsz Hk. pose proof (cr_nodup _ _ Hr) as Hnd.
  pose proof (cr_seg _ _ Hr) as (_ & ? & Ht & -> & n1 & Ha1 & -> & n2 & Ha2 & Hs2).
  change ((sentinel :: (a1, e1) :: (a2, e2) :: l).*1) with (tail_ :: a1 :: a2 :: l.*1) in Hnd.
  apply NoDup_cons in Hnd as [Ht0 [H1 [H2 Hndl]%NoDup_cons]%NoDup_cons].
  assert (a1 ≠ tail_ ∧ a2 ≠ tail_ ∧ a1 ≠ a2) as (Ht1 & Ht2 & H12).
  { split_and!; intros ?; subst; [apply Ht0; left|apply Ht0; right; left|apply H1; left]. }
  set (bte1 := wrap64 (n - e_size e1)).
  assert (Hb1 : 0 < bte1).
  { pose proof (wrap64_range (n - e_size e1)). destruct (decide (bte1 = 0)) as [E|]; [|unfold bte1 in *; lia].
    unfold bte1 in E. change 0 with (wrap64 0) in E. apply wrap64_cong in E as [j Hj]. lia. }
  set (c1 := taken c tail_ sentinel.2 a1 e1 (Some a2)).
  set (c2 := taken c1 a1 e1 a2 e2 n2).
  assert (Ha1' : nodes c1 !! a1 = Some (node_of e1 (Some a2))) by (cbn; by rewrite lookup_insert_ne).
  assert (Ha2' : nodes c1 !! a2 = Some (node_of e2 n2)) by (cbn; by rewrite lookup_insert_ne).
  destruct (evict_rest l k (wrap64 (bte1 - e_size e2)) (to_int32 (to_int32 (0 + e_size e1) + e_size e2)) n2 a2
    [a1; a2] c2) as (b' & ev' & del & c3 & Hrest & Hfr & Hdom & Hndd & Hsub & Hh).
  { eapply seg_frame; [exact Hs2|]. intros x Hx. cbn.
    rewrite !lookup_insert_ne; [done|..]; intros <-; [apply Ht0|apply H1]; by repeat right. }
  { by constructor. }
  { cbn. rewrite !lookup_insert_ne by done. eauto. }
  { lia. }
  { pose proof (wrap64_range (bte1 - e_size e2)). lia. }
  exists b', ev', del, c3. split_and!; [..|done|].
  - rewrite (evict_take _ _ _ tail_ sentinel.2 (Some a1) a1 e1 (Some a2)) by (done || lia).
    rewrite (evict_take _ _ _ a1 e1 (Some a2) a2 e2 n2) by (done || lia). exact Hrest.
  - rewrite Hfr; [cbn; rewrite lookup_insert_ne by done; apply lookup_insert_eq|].
    intros [?|?]%elem_of_cons; [done|]. apply Ht0. by repeat right.
  - intros x. rewrite Hdom. cbn. rewrite !lookup_insert_is_Some'. split; [|auto].
    intros [<-|[<-|?]]; eauto.
  - constructor; [intros [?|Hx%Hsub]%elem_of_cons; [done|apply H1; by right]|].
    constructor; [intros Hx%Hsub; done|done].
  - intros E. destruct Hh as [Hh|Hh]; [|rewrite E in Hh; apply Ht0; by right].
    rewrite Hh in E. cbn in E. destruct (Z.eqb_spec (if head_ c =? a1 then tail_ else head_ c) a2); [done|].
    pose proof (cr_head _ _ Hr) as Hlast.
    change ((sentinel :: (a1, e1) :: (a2, e2) :: l).*1) with ([tail_; a1] ++ a2 :: l.*1) in Hlast.
    rewrite last_app_cons in Hlast. symmetry in Hlast. rewrite last_lookup in Hlast.
    apply list_elem_of_lookup_2 in Hlast. destruct (Z.eqb_spec (head_ c) a1) as [E1|E1].
    + rewrite E1 in Hlast. done.
    + rewrite E in Hlast. apply Ht0. by right.
Qed.

Lemma first_size c a e l : cache_rep c ((a, e) :: l) → 0 ≤ e_size e < 2 ^ 31.
Proof.
  intros Hr. pose proof (used_range _ _ Hr) as Hur. rewrite (cr_used _ _ Hr), fmap_cons, zsum_cons in Hur.
  pose proof (cr_ranges _ _ Hr) as [[? _] Hrg]%Forall_cons.
  assert (0 ≤ zsum ((λ q, e_size q.2) <$> l)); [|simpl in *; lia].
  apply zsum_nonneg, Forall_fmap. eapply Forall_impl; [exact Hrg|]. naive_solver.
Qed.

(** ** Properties *)

(** C29: pinning.  A cached file is a hit: its buffer is returned and only its
    pin count changes.  A file that cannot be opened changes nothing.  A file
    that fits, is not empty, has at most 4096 bytes and is read in one call of [read()]
    becomes the newest entry, pinned once, and its buffer holds the contents; the bytes
    in use never exceed the size of the cache.  (Of other files nothing is said here: a larger
    file that fits is cached with an empty buffer, and a short read is repeated for
    ever.) *)
Theorem cache_pin_spec fuel c l name f :
  cache_rep c l → (1 < fuel)%nat →
  (∀ l1 a e l2, l = l1 ++ (a, e) :: l2 → e_name e = name → e_pins e + 1 < 2 ^ 31 →
     ∃ c', pin fuel name f c = Ok (Some a, e_buf e, 0) c' ∧
       cache_rep c' (l1 ++ (a, with_pins e (e_pins e + 1)) :: l2)) ∧
  ((∀ a e, (a, e) ∈ l → e_name e ≠ name) →
     (∀ errno, f = NoFile errno → pin fuel name f c = Ok (None, None, errno) c) ∧
     (∀ data, f = File (Z.of_nat (length data)) [inr data] → data ≠ [] → (length data ≤ 4096)%nat →
        bytes_used_ c + Z.of_nat (length data) ≤ max_size_ c →
        ∃ a b c', pin fuel name f c = Ok (Some a, Some b, 0) c' ∧ holds b data ∧
          cache_rep c' (l ++ [(a, mkEntry name (Some b) 1 (Z.of_nat (length data)))]))).
Proof.
  intros Hr Hf. split.
  { intros l1 a e l2 -> <- Hp. destruct (pin_hit fuel c l1 a e l2 f Hr Hp) as (c' & ? & ? & _). eauto. }
  intros Hno. split.
  - intros errno ->. by rewrite (pin_miss _ _ _ _ _ Hr Hno).
  - intros data -> Hne Hl Hfit.
    destruct (pin_load fuel c l name data Hr Hno Hf Hne Hl Hfit) as (b & c' & ?). eauto.
Qed.

Lemma cache_pin_spec_witness :
  ∃ a b c', pin 2 (bytes "x") (File 3 [inr [1; 2; 3]]) (FileCache_init 100) = Ok (Some a, Some b, 0) c' ∧
    holds b [1; 2; 3].
Proof.
  destruct (cache_pin_spec 2 (FileCache_init 100) [] (bytes "x") (File 3 [inr [1; 2; 3]])
    (cache_init_rep 100 ltac:(lia)) ltac:(lia)) as (_ & H).
  destruct H as (_ & H); [intros a e Hin; by apply elem_of_nil in Hin|].
  destruct (H [1; 2; 3] eq_refl) as (a & b & c' & H1 & H2 & _).
  - discriminate.
  - simpl. lia.
  - simpl. lia.
  - exists a, b, c'. split; assumption.
Defined.

(** eviction of one file.  When the first file that is not pinned has
    exactly the size asked for, it is removed and [evict] succeeds.  When it is
    larger and nothing else can be evicted, it is removed as well, but [evict]
    reports failure: the unsigned count of bytes to evict has wrapped around. *)
Theorem evict_first_unpinned c l1 a e l2 n :
  cache_rep c (l1 ++ (a, e) :: l2) → Forall pinned l1 → e_pins e = 0 →
  0 < n ≤ e_size e → n = e_size e ∨ Forall pinned l2 →
  ∃ c', evict n c = Ok (bool_decide (n = e_size e)) c' ∧ cache_rep c' (l1 ++ l2) ∧
    bytes_used_ c' = bytes_used_ c - e_size e.
Proof.
  intros Hr Hp H0 Hn Hcase. destruct (evict_one c l1 a e l2 n Hr Hp H0 Hn Hcase) as (c' & H1 & H2).
  exists c'. split_and!; [done|done|]. rewrite (cr_used _ _ H2), (cr_used _ _ Hr).
  rewrite !fmap_app, !zsum_app, fmap_cons, zsum_cons. simpl. lia.
Qed.

Lemma evict_first_unpinned_witness :
  ∃ c c' b2, two_files (FileCache_init 100) = Ok tt c ∧ evict 3 c = Ok true c' ∧
    cache_rep c' [(2, mkEntry (bytes "y") b2 0 2)].
Proof.
  destruct two_files_ok as (c & b1 & b2 & H & Hr).
  destruct (evict_first_unpinned c [] 1 (mkEntry (bytes "x") b1 0 3) [(2, mkEntry (bytes "y") b2 0 2)] 3 Hr)
    as (c' & H1 & H2 & _).
  - constructor.
  - reflexivity.
  - simpl. lia.
  - left. reflexivity.
  - exists c, c', b2. split; [exact H|]. split; [exact H1|exact H2].
Defined.

(** eviction of two files in a row corrupts the list.  When the first two
    files are not pinned and the first does not have exactly the size asked
    for, [evict] deletes the second without unlinking it, and the next
    [evict] reads the deleted node. *)
Theorem evict_corrupts c a1 e1 a2 e2 l n m :
  cache_rep c ((a1, e1) :: (a2, e2) :: l) → e_pins e1 = 0 → e_pins e2 = 0 →
  0 < n < 2 ^ 64 → n ≠ e_size e1 → 0 < m →
  ∃ r c', evict n c = Ok r c' ∧ evict m c' = Err (Segv a2).
Proof.
  intros Hr P1 P2 Hn Hne Hm.
  destruct (evict_start c _ n Hr ltac:(done)) as (k & first & Hk & (-> & _) & _ & ->).
  destruct (evict_two_loop c a1 e1 a2 e2 l n k Hr P1 P2 Hn Hne (first_size _ _ _ _ Hr))
    as (b' & ev' & del & c3 & Hloop & Ht & Hdom & Hnd & Hsub & Hh); [simpl in Hk; lia|].
  pose proof (cr_nodup _ _ Hr) as [Ht0 _]%NoDup_cons.
  change (tail_ ∉ a1 :: a2 :: l.*1) in Ht0.
  destruct (delete_all_ok (a1 :: a2 :: del) (count (- ev') 0 0 0 c3)) as (ns & Hdel & Hns); [done|..].
  { intros x Hx. apply Hdom, (cr_dom _ _ Hr). set_solver. }
  eexists _, _. split.
  { rewrite (bind_ok _ _ _ _ _ Hloop). cbn beta iota. erewrite bind_ok by reflexivity.
    rewrite (bind_ok _ _ _ _ _ Hdel). reflexivity. }
  assert (Htn : ns !! tail_ = Some (node_of sentinel.2 (Some a2))).
  { rewrite Hns, decide_False by set_solver. exact Ht. }
  unfold evict. rewrite (bind_ok _ _ _ _ _ (gets_ok _ _)). cbn [head_ put_nodes count].
  rewrite (proj2 (Z.eqb_neq _ _) Hh). erewrite bind_ok by (by apply node_ok).
  rewrite (bind_ok _ _ _ _ _ (gets_ok _ _)).
  apply bind_err. cbn [evict_loop next_ node_of]. destruct (Z.ltb_spec 0 m); [|lia].
  apply bind_err. unfold node. cbn [nodes put_nodes]. by rewrite Hns, decide_True by set_solver.
Qed.

Lemma evict_corrupts_witness :
  ∃ c r c', two_files (FileCache_init 100) = Ok tt c ∧ evict 5 c = Ok r c' ∧ evict 1 c' = Err (Segv 2).
Proof.
  destruct two_files_ok as (c & b1 & b2 & H & Hr).
  destruct (evict_corrupts c 1 (mkEntry (bytes "x") b1 0 3) 2 (mkEntry (bytes "y") b2 0 2) [] 5 1 Hr)
    as (r & c' & H1 & H2); try reflexivity; try (simpl; lia).
  exists c, r, c'. split; [exact H|]. split; [exact H1|exact H2].
Defined.

(** what a loaded file looks like.  A file of at most a block read in one
    piece is there; of a larger file nothing is readable, because every read
    goes to the start of the same chunk and the final [advance] is refused;
    and when the file turns out shorter than [fstat] said, the loop never
    ends. *)
Theorem load_content :
  (∀ fuel data, data ≠ [] → (length data ≤ 4096)%nat → (1 < fuel)%nat →
     ∃ b, read_file fuel (Z.of_nat (length data)) [inr data] = Ok (inr tt) b ∧ holds b data) ∧
  (∀ fuel datas, Forall (λ d, d ≠ [] ∧ (length d ≤ 4096)%nat) datas → 4096 < total datas < 2 ^ 64 →
     (length datas < fuel)%nat →
     ∃ b, read_file fuel (total datas) (inr <$> datas) = Ok (inr tt) b ∧ holds b []) ∧
  (∀ fuel st_size, 0 < st_size → read_file fuel st_size [] = Err OutOfFuel).
Proof.
  split_and!; [exact read_file_once|exact read_file_large|].
  intros fuel st_size Hs. unfold read_file. change Buffer_init with (blank new_chunk).
  apply bind_err. by apply read_loop_hangs.
Qed.

(** two loads that run at the same time both find room before either
    accounts for its file, and together exceed the size of the cache. *)
Theorem concurrent_loads_exceed c l name1 name2 b1 b2 n1 n2 :
  cache_rep c l → name1 ≠ name2 →
  (∀ a e, (a, e) ∈ l → e_name e ≠ name1 ∧ e_name e ≠ name2) →
  0 ≤ n1 → 0 ≤ n2 → bytes_used_ c + n1 ≤ max_size_ c → bytes_used_ c + n2 ≤ max_size_ c →
  max_size_ c < bytes_used_ c + n1 + n2 < 2 ^ 31 →
  ∃ c', (load_room n1;; load_room n2;;
         h1 ← load_insert name1 b1 n1; load_account n1 h1;;
         h2 ← load_insert name2 b2 n2; load_account n2 h2) c = Ok tt c' ∧
    max_size_ c' < bytes_used_ c'.
Proof.
  intros Hr Hne Hno H1 H2 Hf1 Hf2 Hex.
  rewrite (bind_ok _ _ _ _ _ (room_ok _ _ _ Hr Hf1)), (bind_ok _ _ _ _ _ (room_ok _ _ _ Hr Hf2)).
  destruct (load_insert_ok c l name1 b1 n1 Hr ltac:(naive_solver) H1 Hf1) as (c1 & c2 & I1 & A1 & R1 & U1 & M1).
  rewrite (bind_ok _ _ _ _ _ I1), (bind_ok _ _ _ _ _ A1).
  pose proof (used_range _ _ Hr). pose proof (cr_max _ _ Hr).
  destruct (load_insert_run c2 _ name2 b2 n2 R1) as (ns & I2 & _); [|lia|].
  { intros a e [He|[[= -> ->]|[]%elem_of_nil]%elem_of_cons]%elem_of_app; [naive_solver|]. simpl. done. }
  rewrite (bind_ok _ _ _ _ _ I2). eexists. split; [reflexivity|].
  cbn. rewrite to_int32_small by lia. lia.
Qed.

Lemma concurrent_loads_exceed_witness :
  ∃ c', (load_room 60;; load_room 70;;
         h1 ← load_insert (bytes "x") Buffer_init 60; load_account 60 h1;;
         h2 ← load_insert (bytes "y") Buffer_init 70; load_account 70 h2) (FileCache_init 100) = Ok tt c' ∧
    max_size_ c' < bytes_used_ c'.
Proof.
  apply (concurrent_loads_exceed (FileCache_init 100) [] (bytes "x") (bytes "y") Buffer_init Buffer_init 60 70).
  - apply cache_init_rep. lia.
  - discriminate.
  - intros a e Hin. by apply elem_of_nil in Hin.
  - lia.
  - lia.
  - simpl. lia.
  - simpl. lia.
  - simpl. lia.
Defined.
