(* ===== verification/Threads.v ===== *)
(** * Interleaved threads

    A component used by several threads is a transition system whose steps are
    the atomic actions of one thread; a property that holds for every
    interleaving is an invariant of the reachable states.  [Lock] is what the
    locks of the repository promise to their users. *)

From S2P Require Import Prelude.
From stdpp Require Import base numbers list gmap sorting relations.
Open Scope Z_scope.

Section systems.
Context {S L : Type}.

(** [step l s] is the effect of the action [l], if it is possible in [s]. *)
Context (step : L → S → option S).

Fixpoint run (ls : list L) (s : S) : option S :=
  match ls with
  | [] => Some s
  | l :: ls' => s' ← step l s; run ls' s'
  end.

Definition reachable (s0 s : S) : Prop := ∃ ls, run ls s0 = Some s.

Lemma run_app ls ks s : run (ls ++ ks) s = (s' ← run ls s; run ks s').
Proof.
  revert s. induction ls as [|l ls IH]; intros s; [done|]. cbn.
  destruct (step l s) as [s'|]; [|done]. cbn. apply IH.
Qed.

Lemma reachable_refl s : reachable s s.
Proof. by exists []. Qed.

Lemma reachable_step s0 s l s' : reachable s0 s → step l s = Some s' → reachable s0 s'.
Proof. intros [ls Hr] Hs. exists (ls ++ [l]). rewrite run_app, Hr. cbn. by rewrite Hs. Qed.

(** Rule induction: an invariant holds in every reachable state. *)
Lemma invariant_reachable (P : S → Prop) s0 :
  P s0 → (∀ l s s', P s → step l s = Some s' → P s') → ∀ s, reachable s0 s → P s.
Proof.
  intros H0 Hstep s [ls Hr]. revert s0 H0 Hr. induction ls as [|l ls IH]; intros s0 H0 Hr.
  { by injection Hr as <-. }
  cbn in Hr. destruct (step l s0) as [s1|] eqn:E; [|done]. eapply IH; [|exact Hr]. eauto.
Qed.

(** Termination: when every action lowers a measure, but for a price [extra] that
    some actions pay, the measure and the prices paid bound the length of a run. *)
Lemma run_measure (I : S → Prop) (ok : L → Prop) (m : S → Z) (extra : L → Z) :
  (∀ l s s', ok l → I s → step l s = Some s' → I s' ∧ m s' + 1 ≤ m s + extra l) →
  ∀ ls s s', Forall ok ls → I s → run ls s = Some s' →
    I s' ∧ Z.of_nat (length ls) + m s' ≤ m s + zsum (extra <$> ls).
Proof.
  intros Hstep ls. induction ls as [|l ls IH]; intros s s' Hok Hs Hr; cbn in Hr.
  { injection Hr as <-. split; [done|]. unfold zsum. cbn. lia. }
  apply Forall_cons in Hok as [Hl Hok]. destruct (step l s) as [s1|] eqn:E; [|done]. cbn in Hr.
  destruct (Hstep l s s1 Hl Hs E) as [Hs1 Hm]. destruct (IH s1 s' Hok Hs1 Hr) as [Hs' Hm'].
  split; [done|]. rewrite fmap_cons, zsum_cons. cbn [length]. lia.
Qed.

(** The case without prices. *)
Lemma run_bounded (I : S → Prop) (ok : L → Prop) (m : S → Z) :
  (∀ l s s', ok l → I s → step l s = Some s' → I s' ∧ m s' < m s) →
  ∀ ls s s', Forall ok ls → I s → run ls s = Some s' → I s' ∧ Z.of_nat (length ls) + m s' ≤ m s.
Proof.
  intros Hstep ls s s' Hok Hs Hr. destruct (run_measure I ok m (λ _, 0)) with ls s s' as [Hs' Hm]; [|done..|].
  - intros l t t' Hl Ht Hl'. destruct (Hstep l t t' Hl Ht Hl') as [? ?]. split; [done|lia].
  - split; [done|]. assert (zsum ((λ _ : L, 0) <$> ls) = 0) as Hz; [|lia].
    clear. induction ls as [|l ls IH]; [done|]. by rewrite fmap_cons, zsum_cons, IH.
Qed.
End systems.

(** ** What a lock promises *)

Class LockSystem (S L : Type) : Type := {
  lock_start : S → Prop;
  lock_step : L → S → option S;
  holds_lock : S → nat → Prop;
}.

Class MutualExclusion (S L : Type) `{LockSystem S L} : Prop :=
  mutual_exclusion : ∀ s0 s t u, lock_start s0 → reachable lock_step s0 s →
    holds_lock s t → holds_lock s u → t = u.

(** ** Counting threads *)

(** How many threads satisfy [f]. *)
Definition count_if {A} (f : A → bool) (l : list A) : Z := zsum ((λ x, Z.b2z (f x)) <$> l).

Lemma count_if_insert {A} (f : A → bool) (l : list A) i x y :
  l !! i = Some x → count_if f (<[i := y]> l) = count_if f l - Z.b2z (f x) + Z.b2z (f y).
Proof.
  revert i. induction l as [|z l IH]; intros [|i] Hx; simplify_eq/=; unfold count_if in *.
  - rewrite !fmap_cons, !zsum_cons. lia.
  - rewrite !fmap_cons, !zsum_cons, IH by done. lia.
Qed.

Lemma count_if_nonneg {A} (f : A → bool) (l : list A) : 0 ≤ count_if f l.
Proof. apply zsum_nonneg, Forall_fmap, Forall_forall. intros x _. simpl. destruct (f x); simpl; lia. Qed.

Lemma count_if_cons {A} (f : A → bool) x l : count_if f (x :: l) = Z.b2z (f x) + count_if f l.
Proof. done. Qed.

Lemma count_if_pos {A} (f : A → bool) (l : list A) i x :
  l !! i = Some x → f x = true → 0 < count_if f l.
Proof.
  revert i. induction l as [|z l IH]; intros [|i] Hx Hf; simplify_eq/=; rewrite count_if_cons.
  - pose proof (count_if_nonneg f l). rewrite Hf. simpl. lia.
  - pose proof (IH i Hx Hf). destruct (f z); simpl; lia.
Qed.

(** Two different threads count twice. *)
Lemma count_if_two {A} (f : A → bool) (l : list A) i j x y :
  l !! i = Some x → l !! j = Some y → i ≠ j → f x = true → f y = true → 2 ≤ count_if f l.
Proof.
  revert i j. induction l as [|z l IH]; intros [|i] [|j] Hx Hy Hne Hfx Hfy; simplify_eq/=;
    rewrite count_if_cons.
  - pose proof (count_if_pos f l j y Hy Hfy). rewrite Hfx. simpl. lia.
  - pose proof (count_if_pos f l i x Hx Hfx). rewrite Hfy. simpl. lia.
  - pose proof (IH i j Hx Hy ltac:(congruence) Hfx Hfy). destruct (f z); simpl; lia.
Qed.

Lemma count_if_replicate {A} (f : A → bool) n x : f x = false → count_if f (replicate n x) = 0.
Proof.
  intros Hf. induction n as [|n IH]; [done|]. cbn [replicate]. rewrite count_if_cons, IH, Hf. done.
Qed.

Lemma count_if_witness {A} (f : A → bool) (l : list A) :
  0 < count_if f l → ∃ i x, l !! i = Some x ∧ f x = true.
Proof.
  induction l as [|z l IH]; [done|]. rewrite count_if_cons. intros H.
  destruct (f z) eqn:E; [by exists 0%nat, z|]. simpl in H. destruct IH as (i & x & ? & ?); [lia|].
  by exists (Datatypes.S i), x.
Qed.

Lemma count_if_app {A} (f : A → bool) l k : count_if f (l ++ k) = count_if f l + count_if f k.
Proof. induction l as [|x l IH]; [done|]. cbn [app]. rewrite !count_if_cons, IH. lia. Qed.

Lemma count_if_perm {A} (f : A → bool) l k : l ≡ₚ k → count_if f l = count_if f k.
Proof. intros Hp. induction Hp; rewrite ?count_if_cons; lia. Qed.

Lemma count_if_length {A} (f : A → bool) l : count_if f l ≤ Z.of_nat (length l).
Proof. induction l as [|x l IH]; [done|]. rewrite count_if_cons. cbn [length]. destruct (f x); simpl; lia. Qed.

Lemma count_if_full {A} (f : A → bool) l :
  count_if f l = Z.of_nat (length l) → ∀ i x, l !! i = Some x → f x = true.
Proof.
  induction l as [|z l IH]; [done|]. rewrite count_if_cons. cbn [length]. intros Hl [|i] x Hx; simplify_eq/=.
  - pose proof (count_if_length f l). destruct (f x); simpl in *; [done|lia].
  - apply (IH ltac:(pose proof (count_if_length f l); destruct (f z); simpl in *; lia) i x Hx).
Qed.

Lemma zsum_insert {A} (f : A → Z) l i x y :
  l !! i = Some x → zsum (f <$> <[i := y]> l) = zsum (f <$> l) - f x + f y.
Proof.
  revert i. induction l as [|z l IH]; intros [|i] Hx; simplify_eq/=; rewrite ?zsum_cons; [lia|].
  rewrite IH by done. lia.
Qed.
