(* ===== verification/Locks.v ===== *)
(** * Mutexes, condition variables and reader-writer locks: [lock.hpp]

    The classes are wrappers of pthread.  An operation of the calling thread [t]
    is a function of the state of the object: it returns at once, it blocks, or
    its behaviour is undefined.  The three copies of the file agree in them.

    The other components treat a section of code between taking and releasing a
    lock as one step.  The second part of this file justifies that for sections under
    a [RWMutex], and [Monitor] for those under a [Mutex] that may wait on a
    [ConditionVar].  A program is a list of sections for each thread; in the detailed
    system every access of a section to the shared data is a step of its own, and so
    are the calls of the lock.  Whatever the interleaving, the outcome is that of
    whole sections, one after the other.  As in [FileCache::pin], a section that holds
    the lock for reading may change data by one atomic action that leaves alone what
    the lock protects. *)
From stdpp Require Import base numbers list gmap sorting.
From S2P Require Import Prelude CppString Buffer FileCache Threads.
Open Scope Z_scope.

(** ** The classes *)

Inductive answer (A : Type) : Type :=
| Done (a : A)
| Blocks
| Undefined.
Arguments Done {A} a.
Arguments Blocks {A}.
Arguments Undefined {A}.

Definition is_Some_b {A} (x : option A) : bool := match x with Some _ => true | None => false end.
Definition now {A} (r : answer A) : option A := match r with Done a => Some a | _ => None end.

(** [Mutex]: the thread that holds it.  A thread that locks it twice blocks. *)
Record Mutex : Type := mkMutex { owner : option nat }.
Definition Mutex_init : Mutex := mkMutex None.
Definition Mutex_destroy (m : Mutex) : answer unit := match owner m with Some _ => Undefined | None => Done tt end.
Definition mutex_lock (t : nat) (m : Mutex) : answer Mutex :=
  match owner m with Some _ => Blocks | None => Done (mkMutex (Some t)) end.
Definition mutex_unlock (t : nat) (m : Mutex) : answer Mutex :=
  if decide (owner m = Some t) then Done (mkMutex None) else Undefined.

(** [ConditionVar]: the threads that sleep on it.  [wait] gives the mutex back; when
    the thread is no longer among the sleepers it takes the mutex again. *)
Record ConditionVar : Type := mkCond { sleepers : list nat }.
Definition ConditionVar_init : ConditionVar := mkCond [].
Definition ConditionVar_destroy (c : ConditionVar) : answer unit := match sleepers c with [] => Done tt | _ => Undefined end.
Definition cond_wait (t : nat) (c : ConditionVar) (m : Mutex) : answer (ConditionVar * Mutex) :=
  match mutex_unlock t m with
  | Done m' => Done (mkCond (t :: sleepers c), m')
  | Blocks => Blocks
  | Undefined => Undefined
  end.
Definition wake (u : nat) (c : ConditionVar) : ConditionVar := mkCond (filter (.≠ u) (sleepers c)).
(** The system chooses [u] among the sleepers; without one nothing happens. *)
Definition cond_signal (u : option nat) (c : ConditionVar) : answer ConditionVar :=
  match u with
  | Some u => if decide (u ∈ sleepers c) then Done (wake u c) else Undefined
  | None => match sleepers c with [] => Done c | _ => Undefined end
  end.
Definition cond_signalAll (c : ConditionVar) : ConditionVar := mkCond [].
(** [timedWait] sleeps like [wait]; when the time is over it wakes by itself. *)
Definition cond_timedWait : nat → ConditionVar → Mutex → answer (ConditionVar * Mutex) := cond_wait.
Definition time_over (t : nat) (c : ConditionVar) : ConditionVar := wake t c.

(** [RWMutex]: the threads that hold it for reading, and the one for writing. *)
Record RWMutex : Type := mkRW { readers : list nat; writer : option nat }.
Definition RWMutex_init : RWMutex := mkRW [] None.
Definition RWMutex_destroy (m : RWMutex) : answer unit :=
  match readers m, writer m with [], None => Done tt | _, _ => Undefined end.
Definition rLock (t : nat) (m : RWMutex) : answer RWMutex :=
  match writer m with Some _ => Blocks | None => Done (mkRW (t :: readers m) None) end.
Definition wLock (t : nat) (m : RWMutex) : answer RWMutex :=
  match readers m, writer m with [], None => Done (mkRW [] (Some t)) | _, _ => Blocks end.
Definition rw_unlock (t : nat) (m : RWMutex) : answer RWMutex :=
  if decide (writer m = Some t) then Done (mkRW (readers m) None)
  else match list_find (t =.) (readers m) with
       | Some (i, _) => Done (mkRW (delete i (readers m)) (writer m))
       | None => Undefined
       end.

(** [ScopedLock], [ScopedRLock] and [ScopedWLock]: the constructor takes the lock
    and the destructor, which runs wherever the scope is left, releases it. *)
Definition ScopedLock_ctor : nat → Mutex → answer Mutex := mutex_lock.
Definition ScopedLock_dtor : nat → Mutex → answer Mutex := mutex_unlock.
Definition ScopedRLock_ctor : nat → RWMutex → answer RWMutex := rLock.
Definition ScopedRLock_dtor : nat → RWMutex → answer RWMutex := rw_unlock.
Definition ScopedWLock_ctor : nat → RWMutex → answer RWMutex := wLock.
Definition ScopedWLock_dtor : nat → RWMutex → answer RWMutex := rw_unlock.

(** ** Changing one thread of many *)

Lemma fmap_insert_ext {A B} (f g : A → B) (l : list A) (t : nat) y :
  (∀ u x, u ≠ t → l !! u = Some x → f x = g x) → f <$> <[t := y]> l = <[t := f y]> (g <$> l).
Proof.
  intros Hfg. rewrite list_fmap_insert. apply list_eq. intros u. destruct (decide (u = t)) as [->|Hne].
  { destruct (decide (t < length l)%nat) as [Hlt|Hge].
    - by rewrite !list_lookup_insert_eq by (by rewrite length_fmap).
    - by rewrite !lookup_ge_None_2 by (rewrite length_insert, length_fmap; lia). }
  rewrite !list_lookup_insert_ne by done. rewrite !list_lookup_fmap. destruct (l !! u) as [x|] eqn:Hu; [|done].
  cbn. f_equal. by eapply Hfg.
Qed.

Lemma fmap_insert_same {A B} (f : A → B) (l : list A) (t : nat) x y : l !! t = Some x → f y = f x → <[t := f y]> (f <$> l) = f <$> l.
Proof. intros Hl Hf. rewrite Hf. apply list_insert_id. by rewrite list_lookup_fmap, Hl. Qed.

(** ** Sections under a reader-writer lock *)

Section rw.
(** [S]: the shared data; [P]: the part of it that the lock protects; [L]: the local
    variables of a thread. *)
Context {S P L : Type} (prot : S → P).

(** A section that holds the lock for reading looks at the protected part, acts
    once on the data, and looks at the protected part again. *)
Inductive rw_section : Type :=
| Shared (pre : list (P → L → L)) (act : S → L → S * L) (post : list (P → L → L))
| Exclusive (body : list (S → L → S * L)).

Definition look (fs : list (P → L → L)) (p : P) (l : L) : L := foldl (λ l f, f p l) l fs.
Definition perform (fs : list (S → L → S * L)) (sl : S * L) : S * L := foldl (λ sl f, f sl.1 sl.2) sl fs.

(** A section as one step. *)
Definition atomically (sec : rw_section) (s : S) (l : L) : S * L :=
  match sec with
  | Shared pre act post =>
      let sl := act s (look pre (prot s) l) in (sl.1, look post (prot sl.1) sl.2)
  | Exclusive body => perform body (s, l)
  end.

Definition well_locked (sec : rw_section) : Prop :=
  match sec with
  | Shared _ act _ => ∀ s l, prot (act s l).1 = prot s
  | Exclusive _ => True
  end.

(** *** The detailed system *)

Inductive rw_pc : Type :=
| Out
| InPre (cur : L) (rest : list (P → L → L))   (* the locals as the section has changed them *)
| InPost (rest : list (P → L → L))
| InBody (rest : list (S → L → S * L)).

Record rw_thread : Type := mkRWThread { rprog : list rw_section; rloc : L; rpc : rw_pc }.
Record rw_state : Type := mkRWState { rw_m : RWMutex; data : S; rthreads : list rw_thread }.

Definition rw_init (s : S) (progs : list (list rw_section * L)) : rw_state :=
  mkRWState RWMutex_init s ((λ pl, mkRWThread pl.1 pl.2 Out) <$> progs).

Definition rput (t : nat) (m : RWMutex) (s : S) (th : rw_thread) (st : rw_state) : option rw_state :=
  Some (mkRWState m s (<[t := th]> (rthreads st))).

(** The next step of the thread [t]; a section leaves the program of its thread
    when it acts, or when it has the lock for writing. *)
Definition rw_step (t : nat) (st : rw_state) : option rw_state :=
  th ← rthreads st !! t;
  let '(mkRWThread prog l pc) := th in
  let m := rw_m st in
  let s := data st in
  match pc, prog with
  | Out, Shared pre act post :: _ => m' ← now (ScopedRLock_ctor t m); rput t m' s (mkRWThread prog l (InPre l pre)) st
  | Out, Exclusive body :: k => m' ← now (ScopedWLock_ctor t m); rput t m' s (mkRWThread k l (InBody body)) st
  | InPre cur (f :: rest), _ => rput t m s (mkRWThread prog l (InPre (f (prot s) cur) rest)) st
  | InPre cur [], Shared _ act post :: k => rput t m (act s cur).1 (mkRWThread k (act s cur).2 (InPost post)) st
  | InPost (f :: rest), _ => rput t m s (mkRWThread prog (f (prot s) l) (InPost rest)) st
  | InPost [], _ => m' ← now (ScopedRLock_dtor t m); rput t m' s (mkRWThread prog l Out) st
  | InBody (f :: rest), _ => rput t m (f s l).1 (mkRWThread prog (f s l).2 (InBody rest)) st
  | InBody [], _ => m' ← now (ScopedWLock_dtor t m); rput t m' s (mkRWThread prog l Out) st
  | _, _ => None
  end.

(** *** The system of whole sections *)

Definition rw_abs : Type := S * list (list rw_section * L).

Definition atomic_step (t : nat) (a : rw_abs) : option rw_abs :=
  pl ← a.2 !! t;
  match pl.1 with
  | [] => None
  | sec :: k => let sl := atomically sec a.1 pl.2 in Some (sl.1, <[t := (k, sl.2)]> a.2)
  end.

(** What a state of the detailed system amounts to: a section that has acted, or
    has the lock for writing, counts as finished; any other as not begun. *)
Definition abs_thread (s : S) (th : rw_thread) : list rw_section * L :=
  (rprog th, match rpc th with
             | InPost rest => look rest (prot s) (rloc th)
             | InBody rest => (perform rest (s, rloc th)).2
             | _ => rloc th
             end).

Definition abs_data (st : rw_state) : S :=
  match writer (rw_m st) ≫= (rthreads st !!.) with
  | Some (mkRWThread _ l (InBody rest)) => (perform rest (data st, l)).1
  | _ => data st
  end.

Definition rw_abstract (st : rw_state) : rw_abs := (abs_data st, abs_thread (data st) <$> rthreads st).

(** *** The invariant *)

Definition reading (pc : rw_pc) : bool := match pc with InPre _ _ | InPost _ => true | _ => false end.
Definition writing (pc : rw_pc) : bool := match pc with InBody _ => true | _ => false end.

Definition thread_ok (s : S) (th : rw_thread) : Prop :=
  Forall well_locked (rprog th) ∧
  match rpc th with
  | InPre cur rest => ∃ pre act post k, rprog th = Shared pre act post :: k ∧
      look rest (prot s) cur = look pre (prot s) (rloc th)
  | _ => True
  end.

(** The lock is held as the places of the threads say. *)
Record lock_inv (m : RWMutex) (ths : list rw_thread) : Prop := {
  li_writer : ∀ t th, ths !! t = Some th → writing (rpc th) = true ↔ writer m = Some t;
  li_wrange : ∀ t, writer m = Some t → (t < length ths)%nat;
  li_readers : ∀ t th, ths !! t = Some th → reading (rpc th) = true ↔ t ∈ readers m;
  li_rrange : ∀ t, t ∈ readers m → (t < length ths)%nat;
  li_nodup : NoDup (readers m);
  li_apart : ∀ t, writer m = Some t → readers m = [];
}.

Definition rw_inv (st : rw_state) : Prop :=
  lock_inv (rw_m st) (rthreads st) ∧ Forall (thread_ok (data st)) (rthreads st).

Lemma rw_unlock_writer t rs : rw_unlock t (mkRW rs (Some t)) = Done (mkRW rs None).
Proof. unfold rw_unlock. cbn. by rewrite decide_True. Qed.

Lemma rw_unlock_reader t m : writer m = None → t ∈ readers m →
  ∃ rs, rw_unlock t m = Done (mkRW rs None) ∧ readers m ≡ₚ t :: rs.
Proof.
  intros Hw Ht. unfold rw_unlock. rewrite Hw, decide_False by done.
  destruct (list_find_elem_of (t =.) (readers m) t Ht eq_refl) as [[i x] Hf]. rewrite Hf.
  apply list_find_Some in Hf as (Hi & <- & _). eexists. split; [done|]. by apply delete_Permutation.
Qed.

Lemma lock_same m ths t th th' : lock_inv m ths → ths !! t = Some th →
  reading (rpc th') = reading (rpc th) → writing (rpc th') = writing (rpc th) → lock_inv m (<[t := th']> ths).
Proof.
  intros [H1 H2 H3 H4 H5 H6] Ht Hr Hw. split; try done; try (intros; rewrite length_insert; eauto; fail).
  - intros u v [(<- & <- & _)|[_ Hu]]%list_lookup_insert_Some; [rewrite Hw|]; by apply H1.
  - intros u v [(<- & <- & _)|[_ Hu]]%list_lookup_insert_Some; [rewrite Hr|]; by apply H3.
Qed.

(** Nobody holds the lock for writing. *)
Lemma lock_readers rs ths : NoDup rs → (∀ t, t ∈ rs → (t < length ths)%nat) →
  (∀ t th, ths !! t = Some th → writing (rpc th) = false ∧ (reading (rpc th) = true ↔ t ∈ rs)) →
  lock_inv (mkRW rs None) ths.
Proof.
  intros Hn Hl Hp. split; cbn; try done; intros t th Ht; destruct (Hp t th Ht) as [Hw Hr]; [|done].
  rewrite Hw. split; done.
Qed.

Lemma no_writer m ths t th : lock_inv m ths → writer m = None → ths !! t = Some th → writing (rpc th) = false.
Proof. intros Hl Hw Ht. apply not_true_is_false. intros E. apply (li_writer _ _ Hl _ _ Ht) in E. congruence. Qed.

Lemma no_reader m ths t th : lock_inv m ths → readers m = [] → ths !! t = Some th → reading (rpc th) = false.
Proof.
  intros Hl Hw Ht. apply not_true_is_false. intros E. apply (li_readers _ _ Hl _ _ Ht) in E. rewrite Hw in E.
  by apply elem_of_nil in E.
Qed.

Lemma lock_rLock m m' ths t th th' : lock_inv m ths → ths !! t = Some th → reading (rpc th) = false →
  now (rLock t m) = Some m' → reading (rpc th') = true → writer m = None ∧ writer m' = None ∧ lock_inv m' (<[t := th']> ths).
Proof.
  intros Hl Ht Hr Hm Hr'. unfold rLock in Hm. destruct (writer m) eqn:Hw; [done|]. injection Hm as <-.
  pose proof Hl as [H1 H2 H3 H4 H5 H6]. split_and!; [done..|]. apply lock_readers.
  - apply NoDup_cons. split; [|done]. rewrite <- (H3 t th Ht), Hr. done.
  - intros u [->|Hu]%elem_of_cons; rewrite length_insert; [by eapply lookup_lt_Some|auto].
  - intros u v [(<- & <- & _)|[Hne Hu]]%list_lookup_insert_Some.
    + split; [by destruct (rpc th')|]. rewrite Hr'. split; [intros _; left|done].
    + split; [by eapply no_writer|]. rewrite (H3 u v Hu), elem_of_cons. split; [by right|]. intros [->|]; done.
Qed.

Lemma lock_wLock m m' ths t th th' : lock_inv m ths → ths !! t = Some th →
  now (wLock t m) = Some m' → writing (rpc th') = true →
  writer m = None ∧ readers m = [] ∧ m' = mkRW [] (Some t) ∧ lock_inv m' (<[t := th']> ths).
Proof.
  intros Hl Ht Hm Hw'. unfold wLock in Hm. destruct (readers m) eqn:Hr; [|done]. destruct (writer m) eqn:Hw; [done|].
  injection Hm as <-. split_and!; [done..|]. pose proof (lookup_lt_Some _ _ _ Ht).
  split; cbn; try done; try (intros u Hu; set_solver); [|intros u [= <-]; by rewrite length_insert| |constructor].
  - intros u v [(<- & <- & _)|[Hne Hu]]%list_lookup_insert_Some; [done|].
    rewrite (no_writer _ _ _ _ Hl Hw Hu). split; [done|]. by intros [= ->].
  - intros u v [(<- & <- & _)|[Hne Hu]]%list_lookup_insert_Some.
    + destruct (rpc th'); try done. split; [done|]. by intros ?%elem_of_nil.
    + rewrite (no_reader _ _ _ _ Hl Hr Hu). split; [done|]. by intros ?%elem_of_nil.
Qed.

Lemma reading_no_writer m ths t th : lock_inv m ths → ths !! t = Some th → reading (rpc th) = true → writer m = None.
Proof.
  intros Hl Ht Hr. destruct (writer m) as [u|] eqn:E; [|done]. apply (li_readers _ _ Hl _ _ Ht) in Hr.
  rewrite (li_apart _ _ Hl u E) in Hr. by apply elem_of_nil in Hr.
Qed.

Lemma lock_unlock_r m m' ths t th th' : lock_inv m ths → ths !! t = Some th → reading (rpc th) = true →
  now (rw_unlock t m) = Some m' → rpc th' = Out → writer m = None ∧ writer m' = None ∧ lock_inv m' (<[t := th']> ths).
Proof.
  intros Hl Ht Hr Hm Ho. pose proof Hl as [H1 H2 H3 H4 H5 H6]. pose proof (proj1 (H3 t th Ht) Hr) as Hin.
  pose proof (reading_no_writer _ _ _ _ Hl Ht Hr) as Hw.
  destruct (rw_unlock_reader t m Hw Hin) as (rs & E & Hp). rewrite E in Hm. injection Hm as <-.
  split_and!; [done..|]. rewrite Hp in H5. apply NoDup_cons in H5 as [Hnt Hnd]. apply lock_readers; [done| |].
  - intros u Hu. rewrite length_insert. apply H4. rewrite Hp. by right.
  - intros u v [(<- & <- & _)|[Hne Hu]]%list_lookup_insert_Some; [by rewrite Ho|].
    split; [by eapply no_writer|]. rewrite (H3 u v Hu), Hp, elem_of_cons. split; [intros [->|]; done|by right].
Qed.

Lemma lock_unlock_w m m' ths t th th' : lock_inv m ths → ths !! t = Some th → writing (rpc th) = true →
  now (rw_unlock t m) = Some m' → rpc th' = Out →
  writer m = Some t ∧ writer m' = None ∧ lock_inv m' (<[t := th']> ths).
Proof.
  intros Hl Ht Hw Hm Ho. pose proof Hl as [H1 H2 H3 H4 H5 H6]. pose proof (proj1 (H1 t th Ht) Hw) as Hwt.
  destruct m as [rs w]. cbn in *. subst w. rewrite rw_unlock_writer in Hm. injection Hm as <-.
  split_and!; [done..|]. rewrite (H6 t eq_refl) in *. apply lock_readers; [constructor|by intros ? ?%elem_of_nil|].
  intros u v [(<- & <- & _)|[Hne Hu]]%list_lookup_insert_Some; [rewrite Ho; split; [done|]; split; [done|by intros ?%elem_of_nil]|].
  split; [|by apply H3]. apply not_true_is_false. rewrite (H1 u v Hu). by intros [= ->].
Qed.

(** Where the lock is held for writing, all other threads are outside. *)
Lemma alone m (ths : list rw_thread) (t u : nat) th : lock_inv m ths → writer m = Some t → ths !! u = Some th → u ≠ t → rpc th = Out.
Proof.
  intros Hl Hw Hu Hne. pose proof (no_reader _ _ _ _ Hl (li_apart _ _ Hl t Hw) Hu) as Hr.
  destruct (rpc th) eqn:E; try done. exfalso. apply Hne. pose proof (proj1 (li_writer _ _ Hl u th Hu)) as H.
  rewrite E in H. specialize (H eq_refl). congruence.
Qed.

Lemma thread_ok_prot s s' th : prot s' = prot s → thread_ok s th → thread_ok s' th.
Proof. unfold thread_ok. by intros ->. Qed.

Lemma thread_ok_out s s' th : reading (rpc th) = false → thread_ok s th → thread_ok s' th.
Proof. unfold thread_ok. destruct (rpc th); done. Qed.

Lemma ok_insert s s' (ths : list rw_thread) (t : nat) th' : Forall (thread_ok s) ths → thread_ok s' th' →
  (∀ u th, u ≠ t → ths !! u = Some th → prot s' = prot s ∨ rpc th = Out) → Forall (thread_ok s') (<[t := th']> ths).
Proof.
  intros Hok Ht Ho. apply Forall_lookup. intros u th [(<- & <- & _)|[Hne Hu]]%list_lookup_insert_Some; [done|].
  rewrite Forall_lookup in Hok. specialize (Hok u th Hu). destruct (Ho u th (not_eq_sym Hne) Hu) as [E|E].
  - by eapply thread_ok_prot.
  - eapply thread_ok_out; [|done]. by rewrite E.
Qed.

Lemma abs_insert s s' (ths : list rw_thread) (t : nat) th' :
  (∀ u th, u ≠ t → ths !! u = Some th → s' = s ∨ rpc th = Out ∨ prot s' = prot s ∧ writing (rpc th) = false) →
  abs_thread s' <$> <[t := th']> ths = <[t := abs_thread s' th']> (abs_thread s <$> ths).
Proof.
  intros Ho. apply fmap_insert_ext. intros u th Hne Hu. unfold abs_thread. f_equal.
  destruct (Ho u th Hne Hu) as [->|[->|[E Hw]]]; [done..|]. destruct (rpc th); try done. by rewrite E.
Qed.

Lemma abs_data_free st : writer (rw_m st) = None → abs_data st = data st.
Proof. unfold abs_data. by intros ->. Qed.

Lemma abs_data_writer st t prog l rest : writer (rw_m st) = Some t → rthreads st !! t = Some (mkRWThread prog l (InBody rest)) →
  abs_data st = (perform rest (data st, l)).1.
Proof. unfold abs_data. intros -> H. cbn. by rewrite H. Qed.

(** *** Every step is a step of whole sections, or none *)

Definition rw_sim (t : nat) (st st' : rw_state) : Prop :=
  rw_inv st' ∧ (rw_abstract st' = rw_abstract st ∨ atomic_step t (rw_abstract st) = Some (rw_abstract st')).

(** A step that changes neither the data nor what the thread amounts to. *)
Lemma sim_stutter st t th m' th' :
  rw_inv st → rthreads st !! t = Some th → lock_inv m' (<[t := th']> (rthreads st)) →
  thread_ok (data st) th' → abs_thread (data st) th' = abs_thread (data st) th →
  abs_data (mkRWState m' (data st) (<[t := th']> (rthreads st))) = abs_data st →
  rw_sim t st (mkRWState m' (data st) (<[t := th']> (rthreads st))).
Proof.
  intros [Hl Hok] Ht Hl' Hth Ha Hd. split; [split; [done|]|left].
  - cbn. eapply ok_insert; [done|done|]. by left.
  - unfold rw_abstract. rewrite Hd. f_equal. cbn. rewrite (abs_insert (data st)) by (by left).
    by eapply fmap_insert_same.
Qed.

(** The one action of a section that holds the lock for reading. *)
Lemma sim_act st t k l pre act post cur :
  rw_inv st → rthreads st !! t = Some (mkRWThread (Shared pre act post :: k) l (InPre cur [])) →
  rw_sim t st (mkRWState (rw_m st) (act (data st) cur).1
                 (<[t := mkRWThread k (act (data st) cur).2 (InPost post)]> (rthreads st))).
Proof.
  intros [Hl Hok] Ht. pose proof (proj1 (Forall_lookup _ _) Hok t _ Ht) as [[Hwl Hk]%Forall_cons (pre' & ? & ? & ? & [= <- <- <- <-] & E)].
  cbn in E. rewrite E. set (s' := (act (data st) (look pre (prot (data st)) l)).1).
  assert (Hp : prot s' = prot (data st)) by apply Hwl.
  pose proof (reading_no_writer _ _ _ _ Hl Ht eq_refl) as Hw.
  assert (Ho : ∀ u th, u ≠ t → rthreads st !! u = Some th → writing (rpc th) = false) by (intros; by eapply no_writer).
  split; [split; cbn|right].
  - by eapply lock_same.
  - eapply ok_insert; [done|by split|]. by left.
  - unfold atomic_step, rw_abstract. cbn [fst snd]. rewrite list_lookup_fmap, Ht. cbn.
    rewrite !abs_data_free by done. cbn. do 2 f_equal. rewrite (abs_insert (data st)); [done|]. right. right. eauto.
Qed.

(** Taking the lock for writing: the section counts as done. *)
Lemma sim_wLock st t k l body m' :
  rw_inv st → rthreads st !! t = Some (mkRWThread (Exclusive body :: k) l Out) → now (wLock t (rw_m st)) = Some m' →
  rw_sim t st (mkRWState m' (data st) (<[t := mkRWThread k l (InBody body)]> (rthreads st))).
Proof.
  intros [Hl Hok] Ht Hm. pose proof (proj1 (Forall_lookup _ _) Hok t _ Ht) as [[_ Hk]%Forall_cons _].
  destruct (lock_wLock _ _ _ _ _ (mkRWThread k l (InBody body)) Hl Ht Hm eq_refl) as (Hw & Hr & -> & Hl').
  split; [split; cbn|right]; [done|eapply ok_insert; [done|by split|]; by left|].
  unfold atomic_step, rw_abstract. cbn [fst snd]. rewrite list_lookup_fmap, Ht. cbn. rewrite (abs_data_free st) by done.
  do 2 f_equal; [|by rewrite (abs_insert (data st)) by (by left)].
  erewrite abs_data_writer; [done|done|]. cbn. apply list_lookup_insert_eq. by eapply lookup_lt_Some.
Qed.

(** A step of a section that holds the lock for writing. *)
Lemma sim_body st t k l f rest :
  rw_inv st → rthreads st !! t = Some (mkRWThread k l (InBody (f :: rest))) →
  rw_sim t st (mkRWState (rw_m st) (f (data st) l).1 (<[t := mkRWThread k (f (data st) l).2 (InBody rest)]> (rthreads st))).
Proof.
  intros [Hl Hok] Ht. pose proof (proj1 (Forall_lookup _ _) Hok t _ Ht) as [Hk _].
  pose proof (proj1 (li_writer _ _ Hl t _ Ht) eq_refl) as Hw.
  assert (Ho : ∀ u th, u ≠ t → rthreads st !! u = Some th → rpc th = Out) by (intros; by eapply alone).
  assert (Hs : ((f (data st) l).1, (f (data st) l).2) = f (data st) l) by (by destruct (f (data st) l)).
  split; [split; cbn|left]; [by eapply lock_same|eapply ok_insert; [done|by split|]; right; eauto|].
  unfold rw_abstract. f_equal.
  - rewrite (abs_data_writer st t k l (f :: rest)) by done. erewrite abs_data_writer; [|done|].
    2: { cbn. apply list_lookup_insert_eq. by eapply lookup_lt_Some. }
    cbn. by rewrite Hs.
  - cbn. rewrite (abs_insert (data st)) by (right; left; eauto). apply list_insert_id. rewrite list_lookup_fmap, Ht. cbn.
    unfold abs_thread. cbn. by rewrite Hs.
Qed.

Lemma rw_step_sim t st st' : rw_inv st → rw_step t st = Some st' → rw_sim t st st'.
Proof.
  intros Hi Hs. pose proof Hi as [Hl Hok]. unfold rw_step in Hs. destruct (rthreads st !! t) as [th|] eqn:Ht; [|done].
  pose proof (proj1 (Forall_lookup _ _) Hok t _ Ht) as [Hk Hpre]. destruct th as [prog l pc]. cbn in *.
  destruct pc as [|cur [|f rest]|[|f rest]|[|f rest]].
  - destruct prog as [|[pre act post|body] k]; [done| |];
      destruct (now _) as [m'|] eqn:Hm in Hs; try done; injection Hs as <-; [|by apply sim_wLock].
    destruct (lock_rLock _ _ _ _ _ (mkRWThread (Shared pre act post :: k) l (InPre l pre)) Hl Ht eq_refl Hm eq_refl) as (Hw & Hw' & Hl').
    eapply sim_stutter; [done..| |done|by rewrite !abs_data_free]. split; [done|]. cbn. eauto 10.
  - destruct prog as [|[pre act post|body] k]; [done| |done]. injection Hs as <-. by eapply sim_act.
  - injection Hs as <-. pose proof (reading_no_writer _ _ _ _ Hl Ht eq_refl) as Hw.
    eapply sim_stutter; [done|done|by eapply lock_same|by split|done|by rewrite !abs_data_free].
  - destruct (now _) as [m'|] eqn:Hm in Hs; [|done]. injection Hs as <-.
    destruct (lock_unlock_r _ _ _ _ _ (mkRWThread prog l Out) Hl Ht eq_refl Hm eq_refl) as (Hw & Hw' & Hl').
    eapply sim_stutter; [done|done|done|by split|done|by rewrite !abs_data_free].
  - injection Hs as <-. pose proof (reading_no_writer _ _ _ _ Hl Ht eq_refl) as Hw.
    eapply sim_stutter; [done|done|by eapply lock_same|by split|done|by rewrite !abs_data_free].
  - destruct (now _) as [m'|] eqn:Hm in Hs; [|done]. injection Hs as <-.
    destruct (lock_unlock_w _ _ _ _ _ (mkRWThread prog l Out) Hl Ht eq_refl Hm eq_refl) as (Hw & Hw' & Hl').
    eapply sim_stutter; [done|done|done|by split|done|]. rewrite abs_data_free by done. by rewrite (abs_data_writer st t prog l []).
  - injection Hs as <-. by apply sim_body.
Qed.

Lemma rw_init_inv s progs : Forall (λ pl, Forall well_locked pl.1) progs → rw_inv (rw_init s progs).
Proof.
  intros Hw. split; cbn.
  - apply lock_readers; [constructor|by intros ? ?%elem_of_nil|]. intros t th Ht. apply list_lookup_fmap_Some in Ht as (pl & -> & _).
    cbn. split; [done|]. split; [done|by intros ?%elem_of_nil].
  - apply Forall_fmap. eapply Forall_impl; [exact Hw|]. by intros pl.
Qed.

Lemma rw_run_sim ls st st' : rw_inv st → run rw_step ls st = Some st' →
  rw_inv st' ∧ ∃ ks, run atomic_step ks (rw_abstract st) = Some (rw_abstract st').
Proof.
  revert st. induction ls as [|t ls IH]; intros st Hi Hr; cbn in Hr.
  { injection Hr as <-. split; [done|]. by exists []. }
  destruct (rw_step t st) as [st1|] eqn:E; [|done]. destruct (rw_step_sim t st st1 Hi E) as [Hi1 Ha].
  destruct (IH st1 Hi1 Hr) as (Hi' & ks & Hks). split; [done|]. destruct Ha as [<-|Ha]; [by exists ks|].
  exists (t :: ks). cbn. by rewrite Ha.
Qed.

(** *** Every run comes to an end, with all sections run *)

Definition section_size (sec : rw_section) : Z :=
  match sec with
  | Shared pre _ post => Z.of_nat (length pre) + Z.of_nat (length post) + 3
  | Exclusive body => Z.of_nat (length body) + 2
  end.
Definition program_size (prog : list rw_section) : Z := zsum (section_size <$> prog).

(** The steps a thread has left. *)
Definition rw_left (th : rw_thread) : Z :=
  program_size (rprog th) +
  match rpc th with
  | Out => 0
  | InPre _ rest => match rprog th with Shared pre _ _ :: _ => Z.of_nat (length rest) - Z.of_nat (length pre) - 1 | _ => 0 end
  | InPost rest => Z.of_nat (length rest) + 1
  | InBody rest => Z.of_nat (length rest) + 1
  end.

Lemma rw_step_left t st st' : rw_inv st → rw_step t st = Some st' →
  ∃ th th', rthreads st !! t = Some th ∧ rthreads st' = <[t := th']> (rthreads st) ∧ rw_left th' = rw_left th - 1.
Proof.
  unfold rw_step. intros [_ Hok] Hs. destruct (rthreads st !! t) as [[prog l pc]|] eqn:Ht; [|done]. cbn in Hs.
  pose proof (proj1 (Forall_lookup _ _) Hok t _ Ht) as [_ Hpre]. cbn in Hpre.
  destruct pc as [|cur [|f rest]|[|f rest]|[|f rest]]; try destruct Hpre as (pre' & act' & post' & k' & -> & _);
    repeat (case_match; try done); try (destruct (now _) as [m'|] in Hs; [|done]); injection Hs as <-;
    do 2 eexists; (split; [done|]); (split; [done|]); unfold rw_left, program_size; cbn [rprog rpc];
    rewrite ?fmap_cons, ?zsum_cons; cbn [section_size length]; lia.
Qed.

Lemma rw_left_nonneg s th : thread_ok s th → 0 ≤ rw_left th.
Proof.
  intros [_ Hpre]. assert (Hp : ∀ k, 0 ≤ program_size k).
  { intros k. apply zsum_nonneg, Forall_fmap, Forall_forall. intros [] _; cbn; lia. }
  unfold rw_left. pose proof (Hp (rprog th)). destruct (rpc th); try lia.
  destruct Hpre as (pre & act & post & k & -> & _). unfold program_size in *. rewrite fmap_cons, zsum_cons in *.
  specialize (Hp k). unfold program_size in Hp. cbn [section_size] in *. lia.
Qed.

Lemma rw_run_bounded ls st st' : rw_inv st → run rw_step ls st = Some st' →
  Z.of_nat (length ls) + zsum (rw_left <$> rthreads st') ≤ zsum (rw_left <$> rthreads st).
Proof.
  intros Hi Hr. eapply (run_bounded rw_step rw_inv (λ _, True) (λ st, zsum (rw_left <$> rthreads st))); [|by apply Forall_true|done|done].
  intros t s s' _ Hs E. split; [apply (rw_step_sim t s s' Hs E)|].
  destruct (rw_step_left t s s' Hs E) as (th & th' & Ht & -> & Hl). rewrite (zsum_insert _ _ _ _ _ Ht). lia.
Qed.

(** A thread inside a section can go on. *)
Lemma inside_steps st t th : rw_inv st → rthreads st !! t = Some th → rpc th ≠ Out → is_Some (rw_step t st).
Proof.
  intros [Hl Hok] Ht Hne. pose proof (proj1 (Forall_lookup _ _) Hok t _ Ht) as [_ Hpre]. unfold rw_step. rewrite Ht.
  destruct th as [prog l pc]. cbn in *. destruct pc as [|cur [|f rest]|[|f rest]|[|f rest]]; try done.
  - by destruct Hpre as (pre & act & post & k & -> & _).
  - pose proof (reading_no_writer _ _ _ _ Hl Ht eq_refl) as Hw.
    destruct (rw_unlock_reader t _ Hw (proj1 (li_readers _ _ Hl _ _ Ht) eq_refl)) as (rs & E & _).
    unfold ScopedRLock_dtor. rewrite E. done.
  - pose proof (proj1 (li_writer _ _ Hl _ _ Ht) eq_refl) as Hw. unfold ScopedWLock_dtor, rw_unlock.
    by rewrite decide_True.
Qed.

(** The lock is free when no thread is inside a section. *)
Lemma all_out_free st : rw_inv st → Forall (λ th, rpc th = Out) (rthreads st) → rw_m st = RWMutex_init.
Proof.
  intros [Hl _] Ho. destruct (rw_m st) as [rs w] eqn:Em. rewrite Forall_lookup in Ho. unfold RWMutex_init. f_equal.
  - destruct rs as [|t rs]; [done|]. destruct (lookup_lt_is_Some_2 (rthreads st) t) as [th Ht].
    { apply (li_rrange _ _ Hl). left. }
    pose proof (proj2 (li_readers _ _ Hl t th Ht) ltac:(left)) as Hr. by rewrite (Ho t th Ht) in Hr.
  - destruct w as [t|]; [|done]. destruct (lookup_lt_is_Some_2 (rthreads st) t) as [th Ht]; [by apply (li_wrange _ _ Hl)|].
    pose proof (proj2 (li_writer _ _ Hl t th Ht) eq_refl) as Hr. by rewrite (Ho t th Ht) in Hr.
Qed.

Lemma rw_stuck_done st : rw_inv st → (∀ t, rw_step t st = None) →
  Forall (λ th, rpc th = Out ∧ rprog th = []) (rthreads st) ∧ rw_m st = RWMutex_init.
Proof.
  intros Hi Hs.
  assert (Ho : Forall (λ th, rpc th = Out) (rthreads st)).
  { apply Forall_lookup. intros t th Ht. destruct (rpc th) eqn:E; [done|exfalso..];
      (destruct (inside_steps st t th Hi Ht) as [st' Hst]; [by rewrite E|]; specialize (Hs t); congruence). }
  pose proof (all_out_free st Hi Ho) as Hm. split; [|done]. apply Forall_lookup. intros t th Ht.
  rewrite Forall_lookup in Ho. pose proof (Ho t th Ht) as Hpc. split; [done|].
  specialize (Hs t). unfold rw_step in Hs. rewrite Ht, Hm in Hs. destruct th as [[|[] k] l pc]; cbn in *; subst; done.
Qed.

(** C13: sections under a reader-writer lock are atomic.  Whatever the interleaving of
    the accesses of the threads, the state is one that whole sections, run one
    after the other, lead to; when no thread is inside a section, the data and the
    local variables are exactly those. *)
Theorem rw_sections_atomic s progs ls st :
  Forall (λ pl, Forall well_locked pl.1) progs → run rw_step ls (rw_init s progs) = Some st →
  (∃ ks, run atomic_step ks (s, progs) = Some (rw_abstract st)) ∧
  (Forall (λ th, rpc th = Out) (rthreads st) → rw_abstract st = (data st, (λ th, (rprog th, rloc th)) <$> rthreads st)).
Proof.
  intros Hw Hr. destruct (rw_run_sim ls _ _ (rw_init_inv s progs Hw) Hr) as (Hi & ks & Hks). split.
  - exists ks. rewrite <- Hks. f_equal. unfold rw_abstract. cbn. f_equal. rewrite <- list_fmap_compose.
    symmetry. rewrite <- (list_fmap_id progs) at 2. apply list_fmap_ext. by intros _ [p l] _.
  - intros Ho. pose proof (all_out_free st Hi Ho) as Hm. unfold rw_abstract. rewrite abs_data_free by (by rewrite Hm). f_equal.
    apply list_fmap_ext. intros i th Hth. rewrite Forall_lookup in Ho. unfold abs_thread. by rewrite (Ho i th Hth).
Qed.

(** every run under a reader-writer lock ends.  A run has at most as many steps as
    the sections of the programs; a run that cannot go on has run them all, and
    the lock is free and may be destroyed. *)
Theorem rw_sections_end s progs ls st :
  Forall (λ pl, Forall well_locked pl.1) progs → run rw_step ls (rw_init s progs) = Some st →
  Z.of_nat (length ls) ≤ zsum ((λ pl, program_size pl.1) <$> progs) ∧
  ((∀ t, rw_step t st = None) →
   Forall (λ th, rpc th = Out ∧ rprog th = []) (rthreads st) ∧ RWMutex_destroy (rw_m st) = Done tt).
Proof.
  intros Hw Hr. pose proof (rw_init_inv s progs Hw) as H0. destruct (rw_run_sim ls _ _ H0 Hr) as [Hi _]. split.
  - pose proof (rw_run_bounded ls _ _ H0 Hr) as Hb. cbn [rw_init rthreads] in Hb. rewrite <- list_fmap_compose in Hb.
    assert (Hz : zsum ((rw_left ∘ (λ pl, mkRWThread pl.1 pl.2 Out)) <$> progs) = zsum ((λ pl, program_size pl.1) <$> progs)).
    { f_equal. apply list_fmap_ext. intros i pl _. unfold rw_left. cbn. lia. }
    rewrite Hz in Hb. assert (0 ≤ zsum (rw_left <$> rthreads st)); [|lia].
    apply zsum_nonneg, Forall_fmap. destruct Hi as [_ Hok]. eapply Forall_impl; [exact Hok|]. intros th. apply rw_left_nonneg.
  - intros Hs. destruct (rw_stuck_done st Hi Hs) as [Hd Hm]. by rewrite Hm.
Qed.
End rw.

(** ** The sections of the file cache *)

(** The lock protects the map and the nodes but for their pin counts. *)
Definition cache_prot (c : FileCache) : gmap str Z * gmap Z (str * option Buffer * Z * option Z) :=
  (cache_map_ c, (λ n, (file_name n, buf n, size_ n, next_ n)) <$> nodes c).

Record pin_locals : Type := mkPinLocals { it : option Z; pbuf : option Buffer; pfault : option fault }.

Definition find_file (name : str) (p : gmap str Z * gmap Z (str * option Buffer * Z * option Z)) (l : pin_locals) : pin_locals :=
  mkPinLocals (p.1 !! name) (pbuf l) (pfault l).
Definition read_buf (p : gmap str Z * gmap Z (str * option Buffer * Z * option Z)) (l : pin_locals) : pin_locals :=
  match it l ≫= (p.2 !!.) with
  | Some (_, b, _, _) => mkPinLocals (it l) b (pfault l)
  | None => l
  end.
(** [__sync_fetch_and_add(&node->pin_count, d)] *)
Definition fetch_and_add (d : Z) (c : FileCache) (l : pin_locals) : FileCache * pin_locals :=
  match it l with
  | Some a => match add_pin a d c with
              | Ok _ c' => (c', l)
              | Err e => (c, mkPinLocals (it l) (pbuf l) (Some e))
              end
  | None => (c, l)
  end.

(** [pin] from [rw_m_.rLock()] to [rw_m_.unlock()]. *)
Definition pin_section (name : str) : rw_section :=
  Shared [find_file name; read_buf] (fetch_and_add 1) [].
(** [__sync_fetch_and_sub(&node->pin_count, 1)] and the check of the count before; a file
    that is not in the map, or was not pinned, is fatal. *)
Definition fetch_and_sub (c : FileCache) (l : pin_locals) : FileCache * pin_locals :=
  match it l with
  | Some a => match add_pin a (-1) c, nodes c !! a with
              | Ok _ c', Some n => (c', if pin_count n =? 0 then mkPinLocals (it l) (pbuf l) (Some Fatal) else l)
              | Ok _ c', None => (c', l)
              | Err e, _ => (c, mkPinLocals (it l) (pbuf l) (Some e))
              end
  | None => (c, mkPinLocals (it l) (pbuf l) (Some Fatal))
  end.
(** [unpin] likewise. *)
Definition unpin_section (name : str) : rw_section := Shared [find_file name] fetch_and_sub [].

Lemma add_pin_prot a d c c' u : add_pin a d c = Ok u c' → cache_prot c' = cache_prot c.
Proof.
  unfold add_pin, mbind, M_bind, node. destruct (nodes c !! a) as [n|] eqn:Hn; [|done]. cbn. intros [= <- <-].
  unfold cache_prot, put_nodes. cbn. f_equal. rewrite fmap_insert. apply insert_id. by rewrite lookup_fmap, Hn.
Qed.

(** Both are sections the theorems above speak of. *)
Lemma pin_sections_locked name : well_locked cache_prot (pin_section name) ∧ well_locked cache_prot (unpin_section name).
Proof.
  split; intros c l; cbn [well_locked unpin_section pin_section]; unfold fetch_and_add, fetch_and_sub; destruct (it l) as [a|]; try done.
  - destruct (add_pin a 1 c) as [u c'|e] eqn:E; [|done]. by eapply add_pin_prot.
  - destruct (add_pin a (-1) c) as [u c'|e] eqn:E; [|done]. apply add_pin_prot in E. by destruct (nodes c !! a).
Qed.

(** The short path of [pin] is its section, then the counters. *)
Lemma pin_is_section fuel name f c a n : cache_map_ c !! name = Some a → nodes c !! a = Some n →
  let cl := atomically cache_prot (pin_section name) c (mkPinLocals None None None) in
  pin fuel name f c = Ok (it cl.2, pbuf cl.2, 0) (count 0 1 1 0 cl.1).
Proof.
  intros Ha Hn. unfold pin, pin_section, atomically, look. cbn. unfold mbind, M_bind, gets. rewrite Ha.
  unfold read_buf. cbn. rewrite Ha. cbn. rewrite lookup_fmap, Hn. cbn. unfold fetch_and_add. cbn.
  unfold add_pin, mbind, M_bind, node. rewrite Hn. cbn. rewrite ?Hn. done.
Qed.

(** [unpin] is its section, and stops the program when that is fatal. *)
Lemma unpin_is_section c a n : nodes c !! a = Some n →
  let cl := atomically cache_prot (unpin_section (file_name n)) c (mkPinLocals None None None) in
  unpin (Some a) c = match pfault cl.2 with Some e => Err e | None => Ok tt cl.1 end.
Proof.
  intros Hn. unfold unpin, unpin_section, atomically, look. cbn. unfold mbind, M_bind, gets, node. rewrite Hn. unfold fetch_and_sub. cbn.
  destruct (cache_map_ c !! file_name n) as [b|]; [|done]. unfold add_pin, mbind, M_bind, node.
  destruct (nodes c !! b) as [n'|] eqn:Hb; [|done]. cbn. rewrite ?Hb. cbn. by destruct (pin_count n' =? 0).
Qed.

(** ** Witnesses *)

(** Two readers that count themselves, and a writer in two steps. *)
Definition ex_read : rw_section (S := Z * Z) (P := Z) (L := Z) :=
  Shared [λ p l, l + p] (λ s l, ((s.1, s.2 + 1), l)) [λ p l, l * p].
Definition ex_write : rw_section (S := Z * Z) (P := Z) (L := Z) :=
  Exclusive [λ s l, ((s.1 + 1, s.2), l); λ s l, ((s.1 * 2, s.2), l)].
Definition ex_progs : list (list rw_section * Z) := [([ex_read], 0); ([ex_write; ex_read], 0); ([ex_read], 5)].
Definition ex_schedule : list nat := [0; 2; 2; 0; 2; 0; 2; 2; 0; 0; 1; 1; 1; 1; 1; 1; 1]%nat.
Abbreviation ex_final := (run (rw_step fst) ex_schedule (rw_init (3, 0) ex_progs)).

Lemma ex_final_runs : is_Some_b ex_final = true.
Proof. vm_compute. reflexivity. Qed.

Lemma ex_locked : Forall (λ pl, Forall (well_locked fst) pl.1) ex_progs.
Proof. repeat constructor. Qed.

Lemma rw_sections_atomic_witness :
  ∃ st ks, ex_final = Some st ∧ run (atomic_step fst) ks ((3, 0), ex_progs) = Some (rw_abstract fst st).
Proof.
  destruct ex_final as [st|] eqn:Er; [|pose proof ex_final_runs as H; rewrite Er in H; discriminate H].
  destruct (rw_sections_atomic fst (3, 0) ex_progs ex_schedule st ex_locked Er) as [[ks Hks] _].
  exists st, ks. exact (conj eq_refl Hks).
Defined.

Lemma rw_sections_end_witness :
  ∃ st, ex_final = Some st ∧ Z.of_nat (length ex_schedule) ≤ zsum ((λ pl, program_size pl.1) <$> ex_progs).
Proof.
  destruct ex_final as [st|] eqn:Er; [|pose proof ex_final_runs as H; rewrite Er in H; discriminate H].
  exists st. exact (conj eq_refl (proj1 (rw_sections_end fst (3, 0) ex_progs ex_schedule st ex_locked Er))).
Defined.
