(* ===== verification/Monitor.v ===== *)
(** * Sections that wait for a condition ([lock.hpp])

    A monitor: critical sections under one [Mutex], each of which waits in a loop on
    one [ConditionVar] until its condition holds, and may signal before it leaves.
    [Notification], [ThreadPoolNormal] and [ThreadPoolFast] are used in this way.  The
    first theorem: whatever the interleaving, the outcome is that of whole sections,
    each of them run when its condition holds.  The second: no wake-up is lost, when
    every section that can make a condition true wakes all sleepers. *)
From stdpp Require Import base numbers list gmap sorting.
From S2P Require Import Prelude Threads Locks.
Open Scope Z_scope.

Inductive signalling : Type := NoSignal | Signal | SignalAll.
#[export] Instance signalling_eq : EqDecision signalling.
Proof. solve_decision. Defined.

Section monitor.
Context {S L : Type}.

(** [ScopedLock l(&m); while (! guard) cv.wait(&m); body; cv.signal();] *)
Record monitor : Type := mkMonitor {
  guard : S → L → bool;
  mbody : list (S → L → S * L);
  msignal : signalling;
}.

Inductive mon_pc : Type :=
| MOut
| MTest                                               (* while (! guard) *)
| MSleep                                              (* in cv.wait(&m) *)
| MBody (rest : list (S → L → S * L)) (sg : signalling)
| MLeave.                                             (* ~ScopedLock *)

Record mon_thread : Type := mkMonThread { mprog : list monitor; mloc : L; mpc : mon_pc }.
Record mon_state : Type := mkMonState { mm : Mutex; mcv : ConditionVar; mdata : S; mthreads : list mon_thread }.

Definition mon_init (s : S) (progs : list (list monitor * L)) : mon_state :=
  mkMonState Mutex_init ConditionVar_init s ((λ pl, mkMonThread pl.1 pl.2 MOut) <$> progs).

Inductive mon_action : Type :=
| MAct (t : nat) (woken : option nat)   (* the next step of [t]; the thread a signal wakes *)
| MSpurious (u : nat).                  (* a sleeper wakes by itself, or its time is over *)

Definition mput (t : nat) (m : Mutex) (c : ConditionVar) (s : S) (th : mon_thread) (st : mon_state) : option mon_state :=
  Some (mkMonState m c s (<[t := th]> (mthreads st))).

Definition signalled (sg : signalling) (woken : option nat) (c : ConditionVar) : option ConditionVar :=
  match sg with
  | NoSignal => Some c
  | Signal => now (cond_signal woken c)
  | SignalAll => Some (cond_signalAll c)
  end.

Definition mon_step (a : mon_action) (st : mon_state) : option mon_state :=
  match a with
  | MAct t woken =>
      th ← mthreads st !! t;
      let '(mkMonThread prog l pc) := th in
      let m := mm st in
      let c := mcv st in
      let s := mdata st in
      match pc, prog with
      | MOut, _ :: _ => m' ← now (ScopedLock_ctor t m); mput t m' c s (mkMonThread prog l MTest) st
      | MTest, sec :: k =>
          if guard sec s l then mput t m c s (mkMonThread k l (MBody (mbody sec) (msignal sec))) st
          else cm ← now (cond_wait t c m); mput t cm.2 cm.1 s (mkMonThread prog l MSleep) st
      | MSleep, _ => if decide (t ∈ sleepers c) then None else m' ← now (mutex_lock t m); mput t m' c s (mkMonThread prog l MTest) st
      | MBody (f :: rest) sg, _ => mput t m c (f s l).1 (mkMonThread prog (f s l).2 (MBody rest sg)) st
      | MBody [] sg, _ => c' ← signalled sg woken c; mput t m c' s (mkMonThread prog l MLeave) st
      | MLeave, _ => m' ← now (ScopedLock_dtor t m); mput t m' c s (mkMonThread prog l MOut) st
      | _, _ => None
      end
  | MSpurious u =>
      if decide (u ∈ sleepers (mcv st)) then Some (mkMonState (mm st) (time_over u (mcv st)) (mdata st) (mthreads st)) else None
  end.

(** *** Whole sections, each run when its condition holds *)

Definition mon_abs : Type := S * list (list monitor * L).

Definition await_step (t : nat) (a : mon_abs) : option mon_abs :=
  pl ← a.2 !! t;
  match pl.1 with
  | [] => None
  | sec :: k =>
      if guard sec a.1 pl.2 then let sl := perform (mbody sec) (a.1, pl.2) in Some (sl.1, <[t := (k, sl.2)]> a.2)
      else None
  end.

(** A section whose condition was found true counts as finished. *)
Definition abs_mthread (s : S) (th : mon_thread) : list monitor * L :=
  (mprog th, match mpc th with MBody rest _ => (perform rest (s, mloc th)).2 | _ => mloc th end).

Definition abs_mdata (st : mon_state) : S :=
  match owner (mm st) ≫= (mthreads st !!.) with
  | Some (mkMonThread _ l (MBody rest _)) => (perform rest (mdata st, l)).1
  | _ => mdata st
  end.

Definition mon_abstract (st : mon_state) : mon_abs := (abs_mdata st, abs_mthread (mdata st) <$> mthreads st).

Definition mholds (pc : mon_pc) : bool := match pc with MTest | MBody _ _ | MLeave => true | _ => false end.

Definition mlock_inv (m : Mutex) (ths : list mon_thread) : Prop :=
  (∀ t th, ths !! t = Some th → mholds (mpc th) = true ↔ owner m = Some t) ∧
  (∀ t, owner m = Some t → (t < length ths)%nat).

Lemma mlock_same m (ths : list mon_thread) (t : nat) th th' : mlock_inv m ths → ths !! t = Some th →
  mholds (mpc th') = mholds (mpc th) → mlock_inv m (<[t := th']> ths).
Proof.
  intros [H1 H2] Ht Hh. split; [|intros; rewrite length_insert; auto].
  intros u v [(<- & <- & _)|[_ Hu]]%list_lookup_insert_Some; [rewrite Hh|]; by apply H1.
Qed.

Lemma mlock_lock m m' (ths : list mon_thread) (t : nat) th th' : mlock_inv m ths → ths !! t = Some th →
  now (mutex_lock t m) = Some m' → mholds (mpc th') = true →
  owner m = None ∧ owner m' = Some t ∧ mlock_inv m' (<[t := th']> ths).
Proof.
  intros [H1 H2] Ht Hm Hh. unfold mutex_lock in Hm. destruct (owner m) eqn:E; [done|]. injection Hm as <-. split_and!; [done..|].
  split; [|intros u [= <-]; rewrite length_insert; by eapply lookup_lt_Some].
  intros u v [(<- & <- & _)|[Hne Hu]]%list_lookup_insert_Some; [done|]. rewrite (H1 u v Hu). cbn. split; [done|]. by intros [= ->].
Qed.

Lemma mlock_unlock m m' (ths : list mon_thread) (t : nat) th th' : mlock_inv m ths → ths !! t = Some th →
  now (mutex_unlock t m) = Some m' → mholds (mpc th') = false →
  owner m = Some t ∧ owner m' = None ∧ mlock_inv m' (<[t := th']> ths).
Proof.
  intros [H1 H2] Ht Hm Hh. unfold mutex_unlock in Hm. case_decide as E; [|done]. injection Hm as <-. split_and!; [done..|].
  split; [|done]. intros u v [(<- & <- & _)|[Hne Hu]]%list_lookup_insert_Some; [by rewrite Hh|].
  rewrite (H1 u v Hu), E. cbn. split; [by intros [= ->]|done].
Qed.

Lemma cond_wait_unlock t c m cm : now (cond_wait t c m) = Some cm →
  now (mutex_unlock t m) = Some cm.2 ∧ cm.1 = mkCond (t :: sleepers c).
Proof. unfold cond_wait. destruct (mutex_unlock t m); try done. by intros [= <-]. Qed.

Lemma abs_minsert s s' (ths : list mon_thread) (t : nat) th' :
  (∀ u th, u ≠ t → ths !! u = Some th → s' = s ∨ mholds (mpc th) = false) →
  abs_mthread s' <$> <[t := th']> ths = <[t := abs_mthread s' th']> (abs_mthread s <$> ths).
Proof.
  intros Ho. apply fmap_insert_ext. intros u th Hne Hu. unfold abs_mthread. f_equal.
  destruct (Ho u th Hne Hu) as [->|E]; [done|]. by destruct (mpc th).
Qed.

(** The data are in transit only while a body is run. *)
Lemma abs_mdata_body st t prog l rest sg : owner (mm st) = Some t → mthreads st !! t = Some (mkMonThread prog l (MBody rest sg)) →
  abs_mdata st = (perform rest (mdata st, l)).1.
Proof. unfold abs_mdata. intros -> H. cbn. by rewrite H. Qed.

Lemma abs_mdata_calm st : (∀ t th, owner (mm st) = Some t → mthreads st !! t = Some th → ∀ rest sg, mpc th ≠ MBody rest sg) →
  abs_mdata st = mdata st.
Proof.
  unfold abs_mdata. intros H. destruct (owner (mm st)) as [t|]; [|done]. cbn.
  destruct (mthreads st !! t) as [[prog l pc]|] eqn:Ht; [|done]. specialize (H t _ eq_refl Ht). cbn in H.
  destruct pc; try done. by exfalso; eapply H.
Qed.

Definition mplace (th : mon_thread) : Prop := match mpc th with MTest | MSleep => mprog th ≠ [] | _ => True end.

Record mon_inv (st : mon_state) : Prop := {
  mi_lock : mlock_inv (mm st) (mthreads st);
  mi_place : Forall mplace (mthreads st);
  mi_sleep : ∀ u, u ∈ sleepers (mcv st) → ∃ th, mthreads st !! u = Some th ∧ mpc th = MSleep;
}.

Definition mon_sim (st st' : mon_state) : Prop :=
  mon_inv st' ∧ (mon_abstract st' = mon_abstract st ∨ ∃ t, await_step t (mon_abstract st) = Some (mon_abstract st')).

(** Sleepers stay where they are while another thread moves. *)
Lemma sleepers_move c c' (ths : list mon_thread) (t : nat) th th' :
  (∀ u, u ∈ sleepers c → ∃ th, ths !! u = Some th ∧ mpc th = MSleep) → ths !! t = Some th →
  (∀ u, u ∈ sleepers c' → u ∈ sleepers c ∧ u ≠ t ∨ u = t ∧ mpc th' = MSleep) →
  ∀ u, u ∈ sleepers c' → ∃ v, <[t := th']> ths !! u = Some v ∧ mpc v = MSleep.
Proof.
  intros Hs Ht Hc u [[Hu Hne]|[-> E]]%Hc.
  - destruct (Hs u Hu) as (v & Hv & E). exists v. by rewrite list_lookup_insert_ne.
  - exists th'. split; [|done]. apply list_lookup_insert_eq. by eapply lookup_lt_Some.
Qed.

Lemma awake_ne st t th : mon_inv st → mthreads st !! t = Some th → mpc th ≠ MSleep → ∀ u, u ∈ sleepers (mcv st) → u ≠ t.
Proof. intros Hi Ht Hne u Hu ->. destruct (mi_sleep _ Hi t Hu) as (v & Hv & E). congruence. Qed.

(** The rest of the invariant after a step of [t]. *)
Lemma mon_inv_put st t th m' c' s' th' : mon_inv st → mthreads st !! t = Some th →
  mlock_inv m' (<[t := th']> (mthreads st)) → mplace th' →
  (∀ u, u ∈ sleepers c' → u ∈ sleepers (mcv st) ∧ u ≠ t ∨ u = t ∧ mpc th' = MSleep) →
  mon_inv (mkMonState m' c' s' (<[t := th']> (mthreads st))).
Proof.
  intros [Hl Hp Hs] Ht Hl' Hp' Hc. split; cbn; [done|by apply Forall_insert|by eapply sleepers_move].
Qed.

(** A step that changes neither the data nor what the thread amounts to. *)
Lemma mon_stutter st t th m' c' th' : mon_inv st → mthreads st !! t = Some th →
  mon_inv (mkMonState m' c' (mdata st) (<[t := th']> (mthreads st))) →
  abs_mthread (mdata st) th' = abs_mthread (mdata st) th →
  abs_mdata (mkMonState m' c' (mdata st) (<[t := th']> (mthreads st))) = abs_mdata st →
  mon_sim st (mkMonState m' c' (mdata st) (<[t := th']> (mthreads st))).
Proof.
  intros Hi Ht Hi' Ha Hd. split; [done|left]. unfold mon_abstract. rewrite Hd. f_equal. cbn.
  rewrite (abs_minsert (mdata st)) by (by left). by eapply fmap_insert_same.
Qed.

Definition calm (pc : mon_pc) : bool := match pc with MBody _ _ => false | _ => true end.

Lemma calm_at st t th : mthreads st !! t = Some th → owner (mm st) = Some t ∨ owner (mm st) = None → calm (mpc th) = true →
  abs_mdata st = mdata st.
Proof.
  intros Ht Ho Hc. apply abs_mdata_calm. intros u v Hu Hv rest sg E. destruct Ho as [Ho|Ho]; [|congruence].
  rewrite Ho in Hu. injection Hu as <-. rewrite Ht in Hv. injection Hv as <-. by rewrite E in Hc.
Qed.

Lemma calm_put st t th m' c' s' th' : mthreads st !! t = Some th → owner m' = Some t ∨ owner m' = None → calm (mpc th') = true →
  abs_mdata (mkMonState m' c' s' (<[t := th']> (mthreads st))) = s'.
Proof.
  intros Ht Ho Hc. rewrite (calm_at _ t th'); [done| |done..]. cbn. apply list_lookup_insert_eq. by eapply lookup_lt_Some.
Qed.

Lemma holds_owner st t th : mon_inv st → mthreads st !! t = Some th → mholds (mpc th) = true → owner (mm st) = Some t.
Proof. intros Hi Ht Hh. by apply (proj1 (mi_lock _ Hi) t th Ht). Qed.

(** The condition holds: the section counts as done. *)
Lemma mon_begin st t sec k l : mon_inv st → mthreads st !! t = Some (mkMonThread (sec :: k) l MTest) → guard sec (mdata st) l = true →
  mon_sim st (mkMonState (mm st) (mcv st) (mdata st) (<[t := mkMonThread k l (MBody (mbody sec) (msignal sec))]> (mthreads st))).
Proof.
  intros Hi Ht Hg. pose proof (holds_owner _ _ _ Hi Ht eq_refl) as Ho. split.
  - eapply mon_inv_put; [done|done|eapply mlock_same; [apply Hi|exact Ht|done]|done|]. intros u Hu. left. split; [done|].
    by eapply awake_ne.
  - right. exists t. unfold await_step, mon_abstract. cbn [fst snd]. rewrite list_lookup_fmap, Ht. cbn.
    rewrite (calm_at st t _ Ht) by auto. rewrite Hg. do 2 f_equal; [|by rewrite (abs_minsert (mdata st)) by (by left)].
    erewrite abs_mdata_body; [done|done|]. cbn. apply list_lookup_insert_eq. by eapply lookup_lt_Some.
Qed.

Lemma body_data st t k l f rest sg : owner (mm st) = Some t → mthreads st !! t = Some (mkMonThread k l (MBody (f :: rest) sg)) →
  abs_mdata (mkMonState (mm st) (mcv st) (f (mdata st) l).1 (<[t := mkMonThread k (f (mdata st) l).2 (MBody rest sg)]> (mthreads st))) =
  abs_mdata st.
Proof.
  intros Ho Ht. rewrite (abs_mdata_body st t k l (f :: rest) sg) by done. erewrite abs_mdata_body; [|done|].
  2: { cbn. apply list_lookup_insert_eq. by eapply lookup_lt_Some. }
  cbn. by destruct (f (mdata st) l).
Qed.

Lemma mon_body st t k l f rest sg : mon_inv st → mthreads st !! t = Some (mkMonThread k l (MBody (f :: rest) sg)) →
  mon_sim st (mkMonState (mm st) (mcv st) (f (mdata st) l).1 (<[t := mkMonThread k (f (mdata st) l).2 (MBody rest sg)]> (mthreads st))).
Proof.
  intros Hi Ht. pose proof (holds_owner _ _ _ Hi Ht eq_refl) as Ho.
  assert (Hs : ((f (mdata st) l).1, (f (mdata st) l).2) = f (mdata st) l) by (by destruct (f (mdata st) l)).
  split; [|left].
  - eapply mon_inv_put; [done|done|eapply mlock_same; [apply Hi|exact Ht|done]|done|]. intros u Hu. left. split; [done|].
    by eapply awake_ne.
  - unfold mon_abstract. f_equal.
    + by apply body_data.
    + cbn. rewrite (abs_minsert (mdata st)).
      * apply list_insert_id. rewrite list_lookup_fmap, Ht. cbn. unfold abs_mthread. cbn. by rewrite Hs.
      * intros u th Hne Hu. right. apply not_true_is_false. rewrite (proj1 (mi_lock _ Hi) u th Hu), Ho. by intros [= ->].
Qed.

Lemma signalled_sub sg woken c c' : signalled sg woken c = Some c' → ∀ u, u ∈ sleepers c' → u ∈ sleepers c.
Proof.
  destruct sg; cbn; [by intros [= <-]| |by intros [= <-] u ?%elem_of_nil].
  unfold cond_signal. destruct woken as [v|].
  - case_decide; [|done]. intros [= <-] u [_ Hu]%list_elem_of_filter. done.
  - destruct (sleepers c) eqn:E; [|done]. intros [= <-] u Hu. by rewrite E in Hu.
Qed.

Lemma mon_step_sim a st st' : mon_inv st → mon_step a st = Some st' → mon_sim st st'.
Proof.
  intros Hi Hs. destruct a as [t woken|u]; cbn in Hs.
  2: { case_decide as Hu; [|done]. injection Hs as <-. split; [|by left]. destruct Hi as [Hl Hp Hsl]. split; [done..|].
    cbn. intros v [_ Hv]%list_elem_of_filter. auto. }
  destruct (mthreads st !! t) as [[prog l pc]|] eqn:Ht; [|done]. cbn in Hs.
  pose proof (proj1 (Forall_lookup _ _) (mi_place _ Hi) t _ Ht) as Hpl.
  assert (Hne : pc ≠ MSleep → ∀ u, u ∈ sleepers (mcv st) → u ≠ t) by (intros; by eapply awake_ne).
  destruct pc as [| | |[|f rest] sg|].
  - destruct prog as [|sec k]; [done|]. destruct (now _) as [m'|] eqn:Hm in Hs; [|done]. injection Hs as <-.
    destruct (mlock_lock _ _ _ _ _ (mkMonThread (sec :: k) l MTest) (mi_lock _ Hi) Ht Hm eq_refl) as (Ho & Ho' & Hl').
    eapply mon_stutter; [done|done| |done|]; [eapply mon_inv_put; [done|exact Ht|done|done|intros; left; eauto]|].
    rewrite (calm_put st t _ _ _ _ _ Ht), (calm_at st t _ Ht) by auto. done.
  - destruct prog as [|sec k]; [done|]. destruct (guard sec (mdata st) l) eqn:Hg; [injection Hs as <-; by apply mon_begin|].
    destruct (now _) as [[c' m']|] eqn:Hm in Hs; [|done]. injection Hs as <-. apply cond_wait_unlock in Hm as [Hm E]. cbn in *.
    destruct (mlock_unlock _ _ _ _ _ (mkMonThread (sec :: k) l MSleep) (mi_lock _ Hi) Ht Hm eq_refl) as (Ho & Ho' & Hl').
    eapply mon_stutter; [done|done| |done|].
    + eapply mon_inv_put; [done|exact Ht|done|done|]. intros u. rewrite E. intros [->|Hu]%elem_of_cons; [by right|left; eauto].
    + rewrite (calm_put st t _ _ _ _ _ Ht), (calm_at st t _ Ht) by auto. done.
  - case_decide as Hin; [done|]. destruct (now _) as [m'|] eqn:Hm in Hs; [|done]. injection Hs as <-.
    destruct (mlock_lock _ _ _ _ _ (mkMonThread prog l MTest) (mi_lock _ Hi) Ht Hm eq_refl) as (Ho & Ho' & Hl').
    eapply mon_stutter; [done|done| |done|]; [eapply mon_inv_put; [done|exact Ht|done|done|intros u Hu; left; split; [done|by intros ->]]|].
    rewrite (calm_put st t _ _ _ _ _ Ht), (calm_at st t _ Ht) by auto. done.
  - destruct (signalled sg woken (mcv st)) as [c'|] eqn:Hsg; [|done]. injection Hs as <-.
    pose proof (holds_owner _ _ _ Hi Ht eq_refl) as Ho. eapply mon_stutter; [done|done| |done|].
    + eapply mon_inv_put; [done|done|eapply mlock_same; [apply Hi|exact Ht|done]|done|]. intros u Hu. left.
      pose proof (signalled_sub _ _ _ _ Hsg u Hu). eauto.
    + rewrite (calm_put st t _ _ _ _ _ Ht) by auto. by rewrite (abs_mdata_body st t prog l [] sg).
  - injection Hs as <-. by apply mon_body.
  - destruct (now _) as [m'|] eqn:Hm in Hs; [|done]. injection Hs as <-.
    destruct (mlock_unlock _ _ _ _ _ (mkMonThread prog l MOut) (mi_lock _ Hi) Ht Hm eq_refl) as (Ho & Ho' & Hl').
    eapply mon_stutter; [done|done| |done|]; [eapply mon_inv_put; [done|exact Ht|done|done|intros; left; eauto]|].
    rewrite (calm_put st t _ _ _ _ _ Ht), (calm_at st t _ Ht) by auto. done.
Qed.

Lemma mon_init_inv s progs : mon_inv (mon_init s progs).
Proof.
  split; cbn; [split; [|done]|apply Forall_fmap, Forall_forall; done|by intros ? ?%elem_of_nil].
  intros t th Ht. by apply list_lookup_fmap_Some in Ht as (pl & -> & _).
Qed.

Lemma mon_abstract_init s progs : mon_abstract (mon_init s progs) = (s, progs).
Proof.
  unfold mon_abstract. cbn. f_equal. rewrite <- list_fmap_compose. rewrite <- (list_fmap_id progs) at 2.
  apply list_fmap_ext. by intros _ [p l] _.
Qed.

(** C21: sections of a monitor are atomic.  Whatever the interleaving, signals and
    spurious wake-ups included, the state is one that whole sections lead to, each
    of them run when its condition holds; when no body is being run, the data and
    the local variables are exactly those. *)
Theorem monitor_atomic s progs ls st : run mon_step ls (mon_init s progs) = Some st →
  (∃ ks, run await_step ks (s, progs) = Some (mon_abstract st)) ∧
  (Forall (λ th, calm (mpc th) = true) (mthreads st) →
   mon_abstract st = (mdata st, (λ th, (mprog th, mloc th)) <$> mthreads st)).
Proof.
  rewrite <- mon_abstract_init. generalize (mon_init s progs) (mon_init_inv s progs). clear s progs. intros st0 Hi0 Hr. split.
  - revert st0 Hi0 Hr. induction ls as [|a ls IH]; intros st0 Hi Hr; cbn in Hr; [injection Hr as <-; by exists []|].
    destruct (mon_step a st0) as [st1|] eqn:E; [|done]. destruct (mon_step_sim a st0 st1 Hi E) as [Hi1 Ha].
    destruct (IH st1 Hi1 Hr) as [ks Hks]. destruct Ha as [<-|[t Ha]]; [by exists ks|]. exists (t :: ks). cbn. by rewrite Ha.
  - intros Hc. rewrite Forall_lookup in Hc. unfold mon_abstract. rewrite abs_mdata_calm.
    + f_equal. apply list_fmap_ext. intros i th Hth. specialize (Hc i th Hth). unfold abs_mthread. by destruct (mpc th).
    + intros t th _ Ht rest sg E. specialize (Hc t th Ht). by rewrite E in Hc.
Qed.

(** *** No wake-up is lost *)

(** Sections that do not wake all sleepers make no condition true that was false. *)
Definition careful (progs : list (list monitor * L)) : Prop :=
  ∀ sec sec' l l' s, sec ∈ concat progs.*1 → sec' ∈ concat progs.*1 → msignal sec ≠ SignalAll →
    guard sec s l = true → guard sec' (perform (mbody sec) (s, l)).1 l' = true → guard sec' s l' = true.

Definition announced (th : mon_thread) : Prop := match mpc th with MBody _ SignalAll => True | _ => False end.

Definition waits_rightly (s : S) (th : mon_thread) : Prop :=
  match mprog th with sec :: _ => guard sec s (mloc th) = false | [] => False end.

(** Who sleeps waits for a condition that does not hold, or is about to be woken. *)
Record wake_inv (progs : list (list monitor * L)) (st : mon_state) : Prop := {
  wi_inv : mon_inv st;
  wi_progs : Forall (λ th, mprog th ⊆ concat progs.*1) (mthreads st);
  wi_sleep : ∀ u th, u ∈ sleepers (mcv st) → mthreads st !! u = Some th →
    waits_rightly (abs_mdata st) th ∨ ∃ t v, owner (mm st) = Some t ∧ mthreads st !! t = Some v ∧ announced v;
}.

Lemma wi_plain progs st t th : wake_inv progs st → mthreads st !! t = Some th → owner (mm st) = Some t ∨ owner (mm st) = None →
  ¬ announced th → ∀ u v, u ∈ sleepers (mcv st) → mthreads st !! u = Some v → waits_rightly (abs_mdata st) v.
Proof.
  intros Hw Ht Ho Hn u v Hu Hv. destruct (wi_sleep _ _ Hw u v Hu Hv) as [?|(t' & v' & Ho' & Hv' & Ha)]; [done|].
  destruct Ho as [Ho|Ho]; [|congruence]. rewrite Ho in Ho'. injection Ho' as <-. rewrite Ht in Hv'. injection Hv' as <-. done.
Qed.

(** A step of [t] whose outcome leaves the other sleepers waiting rightly. *)
Lemma wake_put progs st t th m' c' s' th' :
  let st' := mkMonState m' c' s' (<[t := th']> (mthreads st)) in
  wake_inv progs st → mthreads st !! t = Some th → mon_inv st' → mprog th' ⊆ mprog th →
  (∀ u v, u ≠ t → u ∈ sleepers c' → mthreads st !! u = Some v → u ∈ sleepers (mcv st) ∧
    (waits_rightly (abs_mdata st') v ∨ owner m' = Some t ∧ announced th')) →
  (t ∈ sleepers c' → waits_rightly (abs_mdata st') th') → wake_inv progs st'.
Proof.
  intros st' [Hi Hp Hs] Ht Hi' Hsub Ho Hself. split; [done| |].
  - apply Forall_insert; [done|]. pose proof (proj1 (Forall_lookup _ _) Hp t th Ht). cbn in *. set_solver.
  - cbn. intros u v Hu [(<- & <- & _)|[Hne Hv]]%list_lookup_insert_Some; [left; by apply Hself|].
    destruct (Ho u v (not_eq_sym Hne) Hu Hv) as [_ [?|[Hm Ha]]]; [by left|]. right. exists t, th'. split; [done|]. split; [|done].
    apply list_lookup_insert_eq. by eapply lookup_lt_Some.
Qed.

(** The case of a step that leaves the data as they are, made by a thread that
    has not announced anything. *)
Lemma wake_quiet progs st t th m' c' th' :
  let st' := mkMonState m' c' (mdata st) (<[t := th']> (mthreads st)) in
  wake_inv progs st → mthreads st !! t = Some th → owner (mm st) = Some t ∨ owner (mm st) = None → ¬ announced th →
  mon_inv st' → mprog th' ⊆ mprog th → abs_mdata st' = abs_mdata st →
  (∀ u, u ∈ sleepers c' → u ≠ t → u ∈ sleepers (mcv st)) →
  (t ∈ sleepers c' → waits_rightly (abs_mdata st) th') → wake_inv progs st'.
Proof.
  cbv zeta. intros Hw Ht Ho Hn Hi' Hsub Ha Hc Hself. eapply wake_put; [done|done|done|done| |by rewrite Ha].
  intros u v Hne Hu Hv. split; [by apply Hc|]. left. rewrite Ha. eapply (wi_plain progs st t th); eauto.
Qed.

Lemma wake_step progs a st st' : careful progs → wake_inv progs st → mon_step a st = Some st' → wake_inv progs st'.
Proof.
  intros Hcare Hw Hs. pose proof (wi_inv _ _ Hw) as Hi. destruct (mon_step_sim a st st' Hi Hs) as [Hi' _].
  destruct a as [t woken|u]; cbn in Hs.
  2: { case_decide as Hu; [|done]. injection Hs as <-. split; [done|apply Hw|]. cbn.
    intros v th [_ Hv]%list_elem_of_filter. by apply (wi_sleep _ _ Hw). }
  destruct (mthreads st !! t) as [[prog l pc]|] eqn:Ht; [|done]. cbn in Hs.
  assert (Hne : pc ≠ MSleep → t ∉ sleepers (mcv st)) by (intros Hpc Hin; by eapply (awake_ne st t _ Hi Ht)).
  destruct pc as [| | |[|f rest] sg|].
  - destruct prog as [|sec k]; [done|]. destruct (now _) as [m'|] eqn:Hm in Hs; [|done]. injection Hs as <-.
    destruct (mlock_lock _ _ _ _ _ (mkMonThread (sec :: k) l MTest) (mi_lock _ Hi) Ht Hm eq_refl) as (Ho & Ho' & _).
    eapply wake_quiet; [exact Hw|exact Ht|by auto|by intros []|exact Hi'|done|by rewrite (calm_put st t _ _ _ _ _ Ht), (calm_at st t _ Ht) by auto|done|].
    intros Hin. by destruct (Hne ltac:(done)).
  - pose proof (holds_owner _ _ _ Hi Ht eq_refl) as Ho. pose proof (calm_at st t _ Ht (or_introl Ho) eq_refl) as Hd.
    destruct prog as [|sec k]; [done|]. destruct (guard sec (mdata st) l) eqn:Hg.
    + injection Hs as <-. eapply wake_put; [done|done|done|set_solver| |intros Hin; by destruct (Hne ltac:(done))].
      intros u v Hut Hu Hv. split; [done|]. destruct (decide (msignal sec = SignalAll)) as [E|E]; [right; cbn; by rewrite E|left].
      pose proof (wi_plain progs st t _ Hw Ht (or_introl Ho) (λ x, x) u v Hu Hv) as Hr. rewrite Hd in Hr.
      erewrite abs_mdata_body; [|done|cbn; apply list_lookup_insert_eq; by eapply lookup_lt_Some]. cbn [mdata].
      pose proof (proj1 (Forall_lookup _ _) (wi_progs _ _ Hw) u v Hv) as Hpv. pose proof (proj1 (Forall_lookup _ _) (wi_progs _ _ Hw) t _ Ht) as Hpt.
      unfold waits_rightly in *. destruct (mprog v) as [|sec' kv] eqn:Ev; [done|]. apply not_true_is_false. intros Htrue.
      rewrite (Hcare sec sec' l (mloc v) (mdata st)) in Hr; [done|apply Hpt; cbn; left|apply Hpv; left|done..].
    + destruct (now _) as [[c' m']|] eqn:Hm in Hs; [|done]. injection Hs as <-. apply cond_wait_unlock in Hm as [Hm E]. cbn in *.
      destruct (mlock_unlock _ _ _ _ _ (mkMonThread (sec :: k) l MSleep) (mi_lock _ Hi) Ht Hm eq_refl) as (_ & Ho' & _).
      eapply wake_quiet; [exact Hw|exact Ht|by auto|by intros []|exact Hi'|done|by rewrite (calm_put st t _ _ _ _ _ Ht) by auto| |intros _; cbn; by rewrite Hd].
      intros u. rewrite E. intros [->|?]%elem_of_cons; done.
  - case_decide as Hin; [done|]. destruct (now _) as [m'|] eqn:Hm in Hs; [|done]. injection Hs as <-.
    destruct (mlock_lock _ _ _ _ _ (mkMonThread prog l MTest) (mi_lock _ Hi) Ht Hm eq_refl) as (Ho & Ho' & _).
    eapply wake_quiet; [exact Hw|exact Ht|by auto|by intros []|exact Hi'|done|by rewrite (calm_put st t _ _ _ _ _ Ht), (calm_at st t _ Ht) by auto|done|done].
  - destruct (signalled sg woken (mcv st)) as [c'|] eqn:Hsg; [|done]. injection Hs as <-.
    pose proof (holds_owner _ _ _ Hi Ht eq_refl) as Ho. pose proof (signalled_sub _ _ _ _ Hsg) as Hsub.
    destruct (decide (sg = SignalAll)) as [->|Hsa].
    { injection Hsg as <-. split; [done|apply Forall_insert; [apply Hw|by apply (proj1 (Forall_lookup _ _) (wi_progs _ _ Hw) t _ Ht)]|]. by intros u th ?%elem_of_nil. }
    eapply wake_quiet; [exact Hw|exact Ht|by auto|by intros Ha; destruct sg|exact Hi'|done| |eauto|intros Hin%Hsub; by destruct (Hne ltac:(done))].
    rewrite (calm_put st t _ _ _ _ _ Ht) by auto. by rewrite (abs_mdata_body st t prog l [] sg).
  - injection Hs as <-. pose proof (holds_owner _ _ _ Hi Ht eq_refl) as Ho.
    eapply wake_put; [done|exact Ht|exact Hi'|done| |intros Hin; by destruct (Hne ltac:(done))].
    intros u v Hut Hu Hv. split; [done|]. destruct (decide (sg = SignalAll)) as [->|Hsa]; [by right|left].
    rewrite body_data by done. eapply (wi_plain progs st t _ Hw Ht); [by left|by intros Ha; destruct sg|done..].
  - destruct (now _) as [m'|] eqn:Hm in Hs; [|done]. injection Hs as <-.
    destruct (mlock_unlock _ _ _ _ _ (mkMonThread prog l MOut) (mi_lock _ Hi) Ht Hm eq_refl) as (Ho & Ho' & _).
    eapply wake_quiet; [exact Hw|exact Ht|by auto|by intros []|exact Hi'|done|by rewrite (calm_put st t _ _ _ _ _ Ht), (calm_at st t _ Ht) by auto|done|].
    intros Hin. by destruct (Hne ltac:(done)).
Qed.

Lemma wake_init progs s : wake_inv progs (mon_init s progs).
Proof.
  split; [apply mon_init_inv| |by intros u th ?%elem_of_nil]. cbn. apply Forall_fmap, Forall_lookup. intros i pl Hpl sec Hsec. cbn in Hsec.
  rewrite <- (take_drop_middle progs i pl Hpl), fmap_app, concat_app. apply elem_of_app. right. cbn. apply elem_of_app. by left.
Qed.

(** A thread that holds the mutex can go on. *)
Lemma holder_steps st t th : mon_inv st → mthreads st !! t = Some th → mholds (mpc th) = true → ∃ woken, is_Some (mon_step (MAct t woken) st).
Proof.
  intros Hi Ht Hh. pose proof (holds_owner _ _ _ Hi Ht Hh) as Ho. pose proof (proj1 (Forall_lookup _ _) (mi_place _ Hi) t th Ht) as Hp.
  assert (Hu : mutex_unlock t (mm st) = Done (mkMutex None)) by (unfold mutex_unlock; by rewrite decide_True).
  exists (head (sleepers (mcv st))). cbn. rewrite Ht. destruct th as [prog l [| | |[|f rest] sg|]]; try done; cbn in *.
  - destruct prog as [|sec k]; [done|]. destruct (guard _ _ _); [done|]. unfold cond_wait. by rewrite Hu.
  - destruct sg; [done| |done]. cbn. unfold cond_signal. destruct (sleepers (mcv st)) as [|u us] eqn:E; [done|]. cbn.
    rewrite decide_True by left. done.
  - unfold ScopedLock_dtor. by rewrite Hu.
Qed.

(** C14: no wake-up is lost.  When every section that can make a condition true
    wakes all sleepers, a state in which no thread can go on by itself is one in
    which every thread has run its program or sleeps because its condition does
    not hold; nobody holds the mutex. *)
Theorem monitor_no_lost_wakeup s progs ls st :
  careful progs → run mon_step ls (mon_init s progs) = Some st → (∀ t woken, mon_step (MAct t woken) st = None) →
  owner (mm st) = None ∧
  ∀ t th, mthreads st !! t = Some th → mpc th = MOut ∧ mprog th = [] ∨ mpc th = MSleep ∧ waits_rightly (mdata st) th.
Proof.
  intros Hc Hr Hstuck. assert (Hw : wake_inv progs st).
  { eapply (invariant_reachable mon_step (wake_inv progs)); [apply wake_init| |by exists ls]. intros a s0 s1. by apply wake_step. }
  pose proof (wi_inv _ _ Hw) as Hi.
  assert (Hno : ∀ t th, mthreads st !! t = Some th → mholds (mpc th) = false).
  { intros t th Ht. apply not_true_is_false. intros Hh. destruct (holder_steps st t th Hi Ht Hh) as (w & st' & E). by rewrite Hstuck in E. }
  assert (Ho : owner (mm st) = None).
  { destruct (owner (mm st)) as [t|] eqn:E; [|done]. destruct (lookup_lt_is_Some_2 (mthreads st) t) as [th Ht]; [by apply (mi_lock _ Hi)|].
    specialize (Hno t th Ht). by rewrite (proj2 (proj1 (mi_lock _ Hi) t th Ht) E) in Hno. }
  split; [done|]. intros t th Ht. specialize (Hno t th Ht). specialize (Hstuck t None). cbn in Hstuck. rewrite Ht in Hstuck.
  destruct th as [prog l pc]; cbn in *. unfold ScopedLock_ctor, mutex_lock in Hstuck. rewrite Ho in Hstuck.
  destruct pc; try done; [left; by destruct prog|right]. case_decide as Hin; [|done]. split; [done|].
  pose proof (wi_plain progs st t _ Hw Ht (or_intror Ho) (λ x, x) t _ Hin Ht) as Hr'. by rewrite (calm_at st t _ Ht) in Hr' by auto.
Qed.
End monitor.

(** ** The end of the I/O service as a monitor *)

(** [while (! stopped_) cv_stopped_.wait(&m_stop_);] in [IOService::start()] and
    [IOService::stop()], and the last section of [stop()]. *)
Definition await_stopped : monitor (S := bool) (L := unit) := mkMonitor (λ stopped _, stopped) [] NoSignal.
Definition set_stopped : monitor (S := bool) (L := unit) := mkMonitor (λ _ _, true) [λ _ l, (true, l)] SignalAll.

Definition ex_callers : list (list monitor * unit) := [([await_stopped], tt); ([set_stopped], tt); ([await_stopped], tt)].
Definition ex_actions : list mon_action :=
  (λ t, MAct t None) <$> [0; 0; 2; 2; 1; 1; 1; 1; 1; 0; 0; 0; 0; 2; 2; 2; 2]%nat.
Abbreviation ex_end := (run mon_step ex_actions (mon_init false ex_callers)).

Lemma ex_end_runs : is_Some_b ex_end = true.
Proof. vm_compute. reflexivity. Qed.

Lemma ex_end_stuck st : ex_end = Some st → ∀ t woken, mon_step (MAct t woken) st = None.
Proof. intros E. vm_compute in E. injection E as <-. intros [|[|[|t]]] woken; reflexivity. Qed.

Lemma ex_careful : careful ex_callers.
Proof.
  intros sec sec' l l' s Hs Hs' Hn _. assert (sec = await_stopped ∨ sec = set_stopped) as [->| ->] by set_solver; [done|].
  by destruct Hn.
Qed.

(** The callers sleep, are woken and leave. *)
Lemma monitor_atomic_witness :
  ∃ st ks, ex_end = Some st ∧ run await_step ks (false, ex_callers) = Some (mon_abstract st).
Proof.
  destruct ex_end as [st|] eqn:Er; [|pose proof ex_end_runs as H; rewrite Er in H; discriminate H].
  destruct (monitor_atomic false ex_callers ex_actions st Er) as [[ks Hks] _]. exists st, ks. exact (conj eq_refl Hks).
Defined.

Lemma monitor_no_lost_wakeup_witness : ∃ st, ex_end = Some st ∧ owner (mm st) = None.
Proof.
  destruct ex_end as [st|] eqn:Er; [|pose proof ex_end_runs as H; rewrite Er in H; discriminate H]. exists st.
  pose proof (monitor_no_lost_wakeup false ex_callers ex_actions st ex_careful Er) as H.
  split; [reflexivity|]. apply H. apply ex_end_stuck. exact Er.
Defined.
