(* ===== verification/Programs.v ===== *)
(** * Programs with threads on top of an allocator

    A program calls the allocator, reads and writes its blocks, asks for random
    numbers, and makes and joins threads.  [par_step] runs its threads in any order
    on one heap, [safe] is what a program must do for this to go well: each thread
    uses only blocks it has got itself.  The main theorem: on an allocator that
    refines the abstract heap of [ClientSpec], as both allocators do, every run of a
    safe program ends, no thread is disturbed by another, and the only fault is
    that memory has run out. *)
From stdpp Require Import base numbers list gmap sorting.
From S2P Require Import Prelude Memory OS FreeList FreeListRep Arena ClientSpec MyMalloc MyMallocSpec HeapAlloc HeapAllocSpec.
From S2P Require Import Threads.
Open Scope Z_scope.

(** ** What a program uses of the allocator *)

Class ClientHeap (W : Type) : Type := {
  call : Z → op → M W Z;                (* a call made by a thread *)
  represents : W → heap → Prop;
  exhausted : W → op → Prop;            (* the system refused the memory for a call *)
}.

Class ClientLaws (W : Type) `{ClientHeap W} : Prop := {
  call_law w H t o : represents w H → valid_op2 H o →
    (∃ r w' H', call t o w = Ok r w' ∧ spec_step H o r H' ∧ represents w' H') ∨
    (call t o w = Err (Segv 7) ∧ exhausted w o);
  null_law w H : represents w H → H !! NULL = None;
}.

Lemma rep_null {W} {wmem : W → mem} {put_mem inv} {Hinv : HeapInv wmem put_mem inv} w H :
  rep (wmem := wmem) (inv := inv) w H → H !! NULL = None.
Proof.
  intros (K & U & Hw & HC). apply eq_None_not_Some. intros [bs (c & Hc & En & _)%HC].
  pose proof (inv_valid _ _ _ Hw) as Hv. rewrite Forall_forall in Hv. specialize (Hv c Hc). apply cvalid_node in Hv.
  unfold NULL in En. lia.
Qed.

(** The one-layer allocator: its mutex makes each call one step. *)
#[export] Instance one_layer {os : OS} : ClientHeap World := {
  call _ o := exec o;
  represents := heap_rep;
  exhausted := out_of_memory;
}.

#[export] Instance one_layer_laws {os : OS} {Hos : SbrkLaws os} : ClientLaws World.
Proof.
  split; [|intros w H Hr; exact (rep_null (inv := winv) w H Hr)]. intros w H t o Hr [Hv _].
  destruct (exec_sim w H o Hr Hv) as [(r & w' & ? & ? & ?)|?]; [left; eauto 10|by right].
Qed.

#[export] Instance two_layer {os : OS} : ClientHeap Heap := {
  call t o := exec2 t o;
  represents := heap_rep2;
  exhausted := h_out_of_memory;
}.

#[export] Instance two_layer_laws {os : OS} {Hos : SbrkLaws os} : ClientLaws Heap.
Proof.
  split; [|intros w H Hr; exact (rep_null (inv := hinv) w H Hr)]. intros w H t o Hr Hv.
  destruct (exec2_sim w H t o Hr Hv) as [(r & w' & ? & ? & ?)|?]; [left; eauto 10|by right].
Qed.

(** ** Programs *)

Inductive prog : Type :=
| Return
| Call (o : op) (k : Z → prog)
| Rand (k : Z → prog)                     (* rand() *)
| Fork (child : prog) (k : nat → prog)    (* pthread_create(); the number of the new thread *)
| Join (t : nat) (k : prog).              (* pthread_join() *)

Definition RAND_MAX : Z := 2 ^ 31 - 1.

Section run.
Context {W : Type} `{ClientHeap W} (tid : nat → Z).   (* pthread_self() of each thread *)

Record pstate : Type := mkPState { pw : W; pthreads : list prog; crashed : option fault }.
Definition pstart (w : W) (main : prog) : pstate := mkPState w [main] None.

(** The next step of thread [t]; [r] is what rand() answers.  A fault ends the process. *)
Definition par_step (tr : nat * Z) (s : pstate) : option pstate :=
  let '(t, r) := tr in
  match crashed s with
  | Some _ => None
  | None =>
      p ← pthreads s !! t;
      match p with
      | Return => None
      | Call o k =>
          match call (tid t) o (pw s) with
          | Ok v w' => Some (mkPState w' (<[t := k v]> (pthreads s)) None)
          | Err e => Some (mkPState (pw s) (pthreads s) (Some e))
          end
      | Rand k => if (0 <=? r) && (r <=? RAND_MAX) then Some (mkPState (pw s) (<[t := k r]> (pthreads s)) None) else None
      | Fork c k => Some (mkPState (pw s) (<[t := k (length (pthreads s))]> (pthreads s) ++ [c]) None)
      | Join u k => match pthreads s !! u with
                    | Some Return => Some (mkPState (pw s) (<[t := k]> (pthreads s)) None)
                    | _ => None
                    end
      end
  end.
End run.
Arguments pstate : clear implicits.

(** ** Safe programs *)

(** [safe p H F Q]: with the blocks [H] of its own, and having made the threads [F],
    the program makes only valid calls and leaves blocks that satisfy [Q]. A
    thread it makes starts with no block and leaves none. *)
Fixpoint safe (p : prog) (H : heap) (F : list nat) (Q : heap → Prop) : Prop :=
  match p with
  | Return => Q H
  | Call o k => valid_op2 H o ∧ ∀ r H', spec_step H o r H' → safe (k r) H' F Q
  | Rand k => ∀ r, 0 ≤ r ≤ RAND_MAX → safe (k r) H F Q
  | Fork c k => safe c ∅ [] (λ H', H' = ∅) ∧ ∀ t, Z.of_nat t < 2 ^ 64 → safe (k t) H (t :: F) Q
  | Join u k => u ∈ F ∧ safe k H F Q
  end.

(** The program and the threads it makes take at most [n] steps. *)
Fixpoint within (p : prog) (n : Z) : Prop :=
  match p with
  | Return => 0 ≤ n
  | Call _ k => ∀ r, within (k r) (n - 1)
  | Rand k => ∀ r, within (k r) (n - 1)
  | Fork c k => ∃ a, within c a ∧ ∀ t, within (k t) (n - 1 - a)
  | Join _ k => within k (n - 1)
  end.

Lemma within_nonneg p n : within p n → 0 ≤ n.
Proof.
  revert n. induction p as [|o k IH|k IH|c IHc k IH|t k IH]; intros n Hp; cbn in Hp; [done|..].
  - specialize (IH 0 _ (Hp 0)). lia.
  - specialize (IH 0 _ (Hp 0)). lia.
  - destruct Hp as (a & Hc & Hk). specialize (IHc _ Hc). specialize (IH 0%nat _ (Hk 0%nat)). lia.
  - specialize (IH _ Hp). lia.
Qed.

(** ** A heap in parts *)

(** Each thread has a part of the blocks. *)
Record splits (H : heap) (parts : list heap) : Prop := {
  sp_lookup : ∀ p bs, H !! p = Some bs ↔ ∃ t Ht, parts !! t = Some Ht ∧ Ht !! p = Some bs;
  sp_apart : ∀ t u Ht Hu p, parts !! t = Some Ht → parts !! u = Some Hu → is_Some (Ht !! p) → is_Some (Hu !! p) → t = u;
}.

Lemma splits_other H parts t u Ht Hu p : splits H parts → parts !! t = Some Ht → is_Some (Ht !! p) → parts !! u = Some Hu → u ≠ t →
  Hu !! p = None.
Proof. intros Hs Ht0 Hp Hu0 Hne. apply eq_None_not_Some. intros Hp'. apply Hne. symmetry. by eapply (sp_apart _ _ Hs). Qed.

Lemma splits_sub H parts t Ht p bs : splits H parts → parts !! t = Some Ht → Ht !! p = Some bs → H !! p = Some bs.
Proof. intros Hs Ht0 Hp. apply (sp_lookup _ _ Hs). eauto. Qed.

Lemma splits_none H parts t Ht p : splits H parts → parts !! t = Some Ht → H !! p = None → Ht !! p = None.
Proof.
  intros Hs Ht0 Hp. destruct (Ht !! p) as [bs|] eqn:E; [|done]. by rewrite (splits_sub _ _ _ _ _ _ Hs Ht0 E) in Hp.
Qed.

(** A new block, or new contents, of a thread. *)
Lemma splits_insert H parts t Ht p bs : splits H parts → parts !! t = Some Ht → (is_Some (Ht !! p) ∨ H !! p = None) →
  splits (<[p := bs]> H) (<[t := <[p := bs]> Ht]> parts).
Proof.
  intros Hs Ht0 Hp. pose proof (lookup_lt_Some _ _ _ Ht0) as Hlt.
  assert (Ho : ∀ u Hu, u ≠ t → parts !! u = Some Hu → Hu !! p = None).
  { intros u Hu Hne Hu0. destruct Hp as [Hp|Hp]; [exact (splits_other _ _ _ _ _ _ _ Hs Ht0 Hp Hu0 Hne)|exact (splits_none _ _ _ _ _ Hs Hu0 Hp)]. }
  split.
  - intros q cs. destruct (decide (q = p)) as [->|Hne].
    + rewrite lookup_insert_eq. split.
      * intros [= ->]. exists t, (<[p := cs]> Ht). by rewrite list_lookup_insert_eq, lookup_insert_eq.
      * intros (u & Hu & [(<- & <- & _)|[Hut Hu0]]%list_lookup_insert_Some & Hq); [by rewrite lookup_insert_eq in Hq|].
        by rewrite (Ho u Hu (not_eq_sym Hut) Hu0) in Hq.
    + rewrite lookup_insert_ne by done. rewrite (sp_lookup _ _ Hs). split.
      * intros (u & Hu & Hu0 & Hq). destruct (decide (u = t)) as [->|Hut].
        -- exists t, (<[p := bs]> Ht). rewrite list_lookup_insert_eq, lookup_insert_ne by done. split; [done|congruence].
        -- exists u, Hu. by rewrite list_lookup_insert_ne.
      * intros (u & Hu & [(<- & <- & _)|[Hut Hu0]]%list_lookup_insert_Some & Hq); [|by eauto].
        rewrite lookup_insert_ne in Hq by done. eauto.
  - assert (Hin : ∀ u Hu q, <[t := <[p := bs]> Ht]> parts !! u = Some Hu → is_Some (Hu !! q) →
      q = p ∧ u = t ∨ ∃ Hu', parts !! u = Some Hu' ∧ is_Some (Hu' !! q)).
    { intros u Hu q [(<- & <- & _)|[Hut Hu0]]%list_lookup_insert_Some Hq; [|eauto].
      destruct (decide (q = p)) as [->|Hne]; [by left|right]. rewrite lookup_insert_ne in Hq by done. eauto. }
    intros u v Hu Hv q Hu0 Hv0 Hqu Hqv.
    destruct (Hin u Hu q Hu0 Hqu) as [[-> ->]|(Hu' & Hu1 & Hq1)]; destruct (Hin v Hv _ Hv0 Hqv) as [[Eq ->]|(Hv' & Hv1 & Hq2)]; try done.
    + destruct (decide (v = t)) as [->|Hne]; [done|]. rewrite (Ho v Hv' Hne Hv1) in Hq2. by destruct Hq2.
    + subst q. destruct (decide (u = t)) as [->|Hne]; [done|]. rewrite (Ho u Hu' Hne Hu1) in Hq1. by destruct Hq1.
    + by eapply (sp_apart _ _ Hs).
Qed.

Lemma splits_delete H parts t Ht p : splits H parts → parts !! t = Some Ht → is_Some (Ht !! p) →
  splits (delete p H) (<[t := delete p Ht]> parts).
Proof.
  intros Hs Ht0 Hp. pose proof (lookup_lt_Some _ _ _ Ht0) as Hlt.
  assert (Hin : ∀ u Hu q cs, <[t := delete p Ht]> parts !! u = Some Hu → Hu !! q = Some cs →
    q ≠ p ∧ ∃ Hu', parts !! u = Some Hu' ∧ Hu' !! q = Some cs).
  { intros u Hu q cs [(<- & <- & _)|[Hut Hu0]]%list_lookup_insert_Some Hq.
    - apply lookup_delete_Some in Hq as [? ?]. eauto.
    - split; [|eauto]. intros ->. by rewrite (splits_other _ _ t u Ht Hu p Hs Ht0 Hp Hu0) in Hq. }
  split.
  - intros q cs. rewrite lookup_delete_Some, (sp_lookup _ _ Hs). split.
    + intros (Hne & u & Hu & Hu0 & Hq). destruct (decide (u = t)) as [->|Hut].
      * exists t, (delete p Ht). rewrite list_lookup_insert_eq, lookup_delete_ne by done. split; [done|congruence].
      * exists u, Hu. by rewrite list_lookup_insert_ne.
    + intros (u & Hu & Hu0 & Hq). destruct (Hin u Hu q cs Hu0 Hq) as (? & Hu' & ? & ?). split; eauto.
  - intros u v Hu Hv q Hu0 Hv0 [cs Hqu] [ds Hqv]. destruct (Hin u Hu q cs Hu0 Hqu) as (_ & Hu' & Hu1 & Hq1).
    destruct (Hin v Hv q ds Hv0 Hqv) as (_ & Hv' & Hv1 & Hq2). eapply (sp_apart _ _ Hs); eauto.
Qed.

(** A thread that has just been made has no block. *)
Lemma splits_fork H parts : splits H parts → splits H (parts ++ [∅]).
Proof.
  intros Hs. assert (Hin : ∀ u Hu q, (parts ++ [∅]) !! u = Some Hu → is_Some (Hu !! q) → parts !! u = Some Hu).
  { intros u Hu q [?|[_ E]]%lookup_app_Some [cs Hq]; [done|]. apply list_lookup_singleton_Some in E as [_ <-]. by rewrite lookup_empty in Hq. }
  split.
  - intros p bs. rewrite (sp_lookup _ _ Hs). split; intros (u & Hu & Hu0 & Hq); exists u, Hu; split; try done.
    + by apply lookup_app_l_Some.
    + eapply Hin; eauto.
  - intros u v Hu Hv p Hu0 Hv0 Hp1 Hp2. eapply (sp_apart _ _ Hs); eauto.
Qed.

Lemma fresh_local H parts t Ht size p bs : splits H parts → parts !! t = Some Ht → fresh_block H size p bs → fresh_block Ht size p bs.
Proof.
  intros Hs Ht0 (Hn & Hp & Hl & Ho). split_and!; [done|by eapply splits_none|done|]. intros q cs Hq. apply (Ho q). by eapply splits_sub.
Qed.

Lemma valid_local H parts t Ht o : splits H parts → parts !! t = Some Ht → valid_op2 Ht o → valid_op2 H o.
Proof.
  intros Hs Ht0 [Hv Hv2]. split; [|done]. pose proof (λ p bs, splits_sub H parts t Ht p bs Hs Ht0) as Hsub.
  destruct o; cbn in *; unfold is_Some in *; naive_solver.
Qed.

(** A call of a thread on its own blocks changes only these. *)
Lemma local_step H parts t Ht o r H' : splits H parts → parts !! t = Some Ht → H !! NULL = None → valid_op2 Ht o → spec_step H o r H' →
  ∃ Ht', spec_step Ht o r Ht' ∧ splits H' (<[t := Ht']> parts).
Proof.
  intros Hs Ht0 Hnull [Hv _] Hst. pose proof (splits_none _ _ _ _ _ Hs Ht0 Hnull) as Hnull'.
  assert (Hown : ∀ q, q = NULL ∨ is_Some (Ht !! q) → is_Some (H !! q) → is_Some (Ht !! q)).
  { intros q [->|?] Hq; [|done]. rewrite Hnull in Hq. by destruct Hq. }
  inversion Hst as [size p bs Hf|  |p Hp|size p bs Hf|q size p old bs Hq Hf n Htk|p i b bs Hp Hi|p i b bs Hp Hi]; subst; cbn in Hv.
  - exists (<[r := bs]> Ht). split; [constructor; by eapply fresh_local|]. apply splits_insert; [done..|]. right. apply Hf.
  - exists Ht. split; [constructor|]. by rewrite list_insert_id.
  - exists (delete p Ht). split; [constructor; auto|]. apply splits_delete; auto.
  - exists (<[r := bs]> Ht). split; [constructor; by eapply fresh_local|]. apply splits_insert; [done..|]. right. apply Hf.
  - destruct (Hown q ltac:(naive_solver) ltac:(eauto)) as [old' Hq']. pose proof (splits_sub _ _ _ _ _ _ Hs Ht0 Hq') as E. rewrite Hq in E.
    injection E as <-. exists (<[r := bs]> (delete q Ht)). split; [econstructor; [done|by eapply fresh_local|done]|].
    pose proof (splits_delete H parts t Ht q Hs Ht0 ltac:(eauto)) as Hs'.
    rewrite <- (list_insert_insert_eq parts t _ (delete q Ht)). apply splits_insert; [done|apply list_lookup_insert_eq; by eapply lookup_lt_Some|].
    right. rewrite lookup_delete_ne; [apply Hf|]. intros ->. destruct Hf as (_ & E & _). congruence.
  - destruct Hv as (_ & bs' & Hp' & _). pose proof (splits_sub _ _ _ _ _ _ Hs Ht0 Hp') as E. rewrite Hp in E. injection E as <-.
    eexists. split; [by econstructor|]. apply splits_insert; eauto.
  - destruct Hv as (bs' & Hp' & _). pose proof (splits_sub _ _ _ _ _ _ Hs Ht0 Hp') as E. rewrite Hp in E. injection E as <-.
    exists Ht. split; [by econstructor|]. by rewrite list_insert_id.
Qed.

(** ** Safe programs run *)

(** What is known of a thread: its blocks, the threads it has made, what it will
    leave, and the steps it has left. *)
Record part : Type := mkPart { ph : heap; pf : list nat; pq : heap → Prop; pn : Z }.

Definition part_ok (p : prog) (a : part) : Prop := safe p (ph a) (pf a) (pq a) ∧ within p (pn a).
Definition steps_left (parts : list part) : Z := zsum (pn <$> parts).

Section safety.
Context {W : Type} `{ClientLaws W} (tid : nat → Z) (Q : heap → Prop) (limit : Z).

Record par_inv (s : pstate W) (parts : list part) : Prop := {
  pi_heap : ∃ H, represents (pw s) H ∧ splits H (ph <$> parts);
  pi_threads : Forall2 part_ok (pthreads s) parts;
  pi_main : ∃ a rest, parts = a :: rest ∧ pq a = Q ∧ Forall (λ b, pq b = (λ H', H' = ∅)) rest;
  pi_forked : ∀ t a u, parts !! t = Some a → u ∈ pf a → (t < u < length parts)%nat;
  pi_limit : Z.of_nat (length parts) + steps_left parts ≤ limit;
}.

(** The call at which a thread stands was refused memory. *)
Definition refused_call (s : pstate W) : Prop := ∃ t o k, pthreads s !! t = Some (Call o k) ∧ exhausted (pw s) o.

(** A running state, or one in which memory has run out. *)
Definition par_good (s : pstate W) (n : Z) : Prop :=
  (crashed s = None ∧ ∃ parts, par_inv s parts ∧ steps_left parts = n) ∨
  (crashed s = Some (Segv 7) ∧ refused_call s ∧ 0 ≤ n).

Lemma steps_left_insert (parts : list part) (t : nat) a b : parts !! t = Some a →
  steps_left (<[t := b]> parts) = steps_left parts - pn a + pn b.
Proof. apply zsum_insert. Qed.

(** No thread has a negative number of steps left. *)
Lemma part_nonneg s parts : par_inv s parts → Forall (λ a, 0 ≤ pn a) parts.
Proof.
  intros Hi. apply Forall_lookup. intros t a Ha.
  destruct (Forall2_lookup_r _ _ _ _ _ (pi_threads _ _ Hi) Ha) as (p & _ & _ & Hw). by eapply within_nonneg.
Qed.

Lemma part_le s parts t a : par_inv s parts → parts !! t = Some a → pn a ≤ steps_left parts.
Proof.
  intros Hi%part_nonneg Ha. pose proof (steps_left_insert parts t a (mkPart ∅ [] Q 0) Ha) as E. cbn in E.
  assert (0 ≤ steps_left (<[t := mkPart ∅ [] Q 0]> parts)); [|lia]. apply zsum_nonneg, Forall_fmap, Forall_insert; done.
Qed.

(** The rest of the invariant when the thread [t] goes on. *)
Lemma par_put s parts t a p' H' w' Ht' F' n' :
  par_inv s parts → parts !! t = Some a → represents w' H' → splits H' (<[t := Ht']> (ph <$> parts)) →
  safe p' Ht' F' (pq a) → within p' n' → (∀ u, u ∈ F' → u ∈ pf a) → n' < pn a →
  par_inv (mkPState w' (<[t := p']> (pthreads s)) None) (<[t := mkPart Ht' F' (pq a) n']> parts).
Proof.
  intros [Hh Hth Hm Hf Hl] Ha Hr Hs Hsafe Hwi HF Hn. pose proof (lookup_lt_Some _ _ _ Ha) as Hlt. split; cbn.
  - exists H'. split; [done|]. by rewrite list_fmap_insert.
  - apply Forall2_insert; [done|]. by split.
  - destruct Hm as (b & rest & -> & Hb & Hrest). destruct t as [|t]; cbn in *.
    + injection Ha as <-. eauto.
    + exists b, (<[t := mkPart Ht' F' (pq a) n']> rest). split_and!; [done..|]. apply Forall_insert; [done|]. cbn.
      by eapply Forall_lookup_1 in Hrest.
  - rewrite length_insert. intros u b v [(<- & <- & _)|[_ Hu]]%list_lookup_insert_Some Hv; [eapply Hf; eauto|by eapply Hf].
  - rewrite length_insert. pose proof (steps_left_insert parts t a (mkPart Ht' F' (pq a) n') Ha). cbn in *. lia.
Qed.

(** The thread [t] makes another one. *)
Lemma par_fork s parts t a c k n1 n2 :
  par_inv s parts → parts !! t = Some a → n2 = pn a - 1 - n1 → limit < 2 ^ 64 →
  safe c ∅ [] (λ H', H' = ∅) → within c n1 →
  (∀ u, Z.of_nat u < 2 ^ 64 → safe (k u) (ph a) (u :: pf a) (pq a)) → (∀ u, within (k u) n2) →
  par_inv (mkPState (pw s) (<[t := k (length (pthreads s))]> (pthreads s) ++ [c]) None)
    (<[t := mkPart (ph a) (length parts :: pf a) (pq a) n2]> parts ++ [mkPart ∅ [] (λ H', H' = ∅) n1]).
Proof.
  intros Hi Ha Hn Hlim Hc Hcn Hk Hkn. pose proof (part_le s parts t a Hi Ha) as Hle. pose proof (within_nonneg _ _ Hcn).
  pose proof (within_nonneg _ _ (Hkn 0%nat)). destruct Hi as [(G & Hr & Hs) Hth Hm Hf Hl]. pose proof (lookup_lt_Some _ _ _ Ha) as Hlt.
  rewrite (Forall2_length _ _ _ Hth). set (b := mkPart (ph a) (length parts :: pf a) (pq a) n2).
  pose proof (steps_left_insert parts t a b Ha) as Hsl. cbn in Hsl. split; cbn.
  - exists G. split; [done|]. rewrite fmap_app, list_fmap_insert. cbn. apply splits_fork.
    rewrite list_insert_id; [done|]. by rewrite list_lookup_fmap, Ha.
  - apply Forall2_app; [|by constructor]. apply Forall2_insert; [done|]. split; [apply Hk; lia|apply Hkn].
  - destruct Hm as (b0 & rest & -> & Hb & Hrest). destruct t as [|t]; cbn in *.
    + injection Ha as <-. eexists _, (rest ++ _). split; [done|]. split; [done|]. apply Forall_app. split; [done|]. by constructor.
    + eexists b0, (<[t := b]> rest ++ _). split; [done|]. split; [done|]. apply Forall_app. split; [|by constructor].
      apply Forall_insert; [done|]. cbn. by eapply Forall_lookup_1 in Hrest.
  - rewrite length_app, length_insert. cbn. intros u d v [Hu|[_ Hu]]%lookup_app_Some Hv.
    + apply list_lookup_insert_Some in Hu as [(<- & <- & _)|[_ Hu]]; [|specialize (Hf u d v Hu Hv); lia].
      cbn in Hv. apply elem_of_cons in Hv as [->|Hv]; [lia|]. specialize (Hf t a v Ha Hv). lia.
    + apply list_lookup_singleton_Some in Hu as [_ <-]. by apply elem_of_nil in Hv.
  - unfold steps_left in *. rewrite length_app, length_insert, fmap_app, zsum_app. cbn [fmap list_fmap length pn]. rewrite zsum_cons. change (zsum []) with 0. cbn. lia.
Qed.

Lemma par_step_good tr s s' n : limit < 2 ^ 64 → par_good s n → par_step tid tr s = Some s' →
  ∃ n', n' < n ∧ par_good s' n'.
Proof.
  intros Hlim Hg Hs. destruct tr as [t r]. destruct Hg as [(Hcr & parts & Hi & <-)|[Hcr _]]; unfold par_step in Hs; rewrite Hcr in Hs; [|done].
  destruct (pthreads s !! t) as [p|] eqn:Hp; [|done]. cbn in Hs.
  destruct (Forall2_lookup_l _ _ _ _ _ (pi_threads _ _ Hi) Hp) as (a & Ha & Hsafe & Hwi).
  assert (Hleft : 0 ≤ pn a - 1 → 0 ≤ steps_left parts - 1).
  { intros Hpn. pose proof (part_le s parts t a Hi Ha). lia. }
  destruct (pi_heap _ _ Hi) as (G & Hr & Hsp). assert (Ha' : (ph <$> parts) !! t = Some (ph a)) by (by rewrite list_lookup_fmap, Ha).
  assert (Hgo : ∀ w' H' p' Ht' F' n', represents w' H' → splits H' (<[t := Ht']> (ph <$> parts)) → safe p' Ht' F' (pq a) → within p' n' →
    (∀ u, u ∈ F' → u ∈ pf a) → n' < pn a →
    ∃ n1, n1 < steps_left parts ∧ par_good (mkPState w' (<[t := p']> (pthreads s)) None) n1).
  { intros w' H' p' Ht' F' n' H1 H2 H3 H4 H5 H6. eexists. split; [|left; split; [done|]; eexists; split; [by eapply par_put|reflexivity]].
    pose proof (steps_left_insert parts t a (mkPart Ht' F' (pq a) n') Ha). cbn in *. lia. }
  assert (Hid : <[t := ph a]> (ph <$> parts) = ph <$> parts) by (by apply list_insert_id).
  destruct p as [|o k|k|c k|u k]; cbn in Hsafe, Hwi; [done|..].
  - destruct Hsafe as [Hv Hk].
    destruct (call_law (pw s) G (tid t) o Hr (valid_local _ _ _ _ _ Hsp Ha' Hv)) as [(v & w' & H' & E & Hst & Hr')|[E Hex]]; rewrite E in Hs; injection Hs as <-.
    + destruct (local_step G _ t (ph a) o v H' Hsp Ha' (null_law _ _ Hr) Hv Hst) as (Ht' & Hst' & Hsp').
      eapply Hgo; [exact Hr'|exact Hsp'|by apply Hk|by apply Hwi|done|lia].
    + exists (steps_left parts - 1). split; [lia|]. right. split_and!; [done|by exists t, o, k|].
      pose proof (Hleft (within_nonneg _ _ (Hwi 0))). lia.
  - destruct (_ && _) eqn:Hb; [|done]. injection Hs as <-. apply andb_true_iff in Hb as [H1%Z.leb_le H2%Z.leb_le].
    eapply Hgo; [exact Hr|by rewrite Hid|by apply Hsafe|by apply Hwi|done|lia].
  - destruct Hsafe as [Hc Hk], Hwi as (n1 & Hcn & Hkn). injection Hs as <-.
    eexists. split; [|left; split; [done|]; eexists; split; [by eapply par_fork|reflexivity]].
    pose proof (steps_left_insert parts t a (mkPart (ph a) (length parts :: pf a) (pq a) (pn a - 1 - n1)) Ha) as Hsl.
    unfold steps_left in *. rewrite fmap_app, zsum_app. cbn [fmap list_fmap pn] in *. rewrite zsum_cons. change (zsum []) with 0. cbn. lia.
  - destruct Hsafe as [_ Hk]. destruct (pthreads s !! u) as [[]|] eqn:Hu; try done. injection Hs as <-.
    eapply Hgo; [exact Hr|by rewrite Hid|exact Hk|exact Hwi|done|lia].
Qed.

(** A running state that cannot go on: all threads are done.  The last thread that is
    not done could go on, for the threads it has made are done. *)
Lemma par_stuck s parts : crashed s = None → par_inv s parts → (∀ tr, par_step tid tr s = None) → Forall (λ p, p = Return) (pthreads s).
Proof.
  intros Hcr Hi Hst. pose proof (Forall2_length _ _ _ (pi_threads _ _ Hi)) as Hlen.
  assert (Hback : ∀ d t p, (length (pthreads s) - t ≤ d)%nat → pthreads s !! t = Some p → p = Return).
  { induction d as [|d IH]; intros t p Hd Hp; [apply lookup_lt_Some in Hp; lia|]. pose proof (lookup_lt_Some _ _ _ Hp).
    destruct (Forall2_lookup_l _ _ _ _ _ (pi_threads _ _ Hi) Hp) as (a & Ha & Hsafe & _).
    specialize (Hst (t, 0)). unfold par_step in Hst. rewrite Hcr, Hp in Hst. cbn in Hst.
    destruct p as [|o k|k|c k|u k]; try done; [by destruct (call _ _ _)|]. destruct Hsafe as [Hu _].
    pose proof (pi_forked _ _ Hi t a u Ha Hu). destruct (lookup_lt_is_Some_2 (pthreads s) u ltac:(lia)) as [q Hq].
    rewrite (IH u q ltac:(lia) Hq) in Hq. by rewrite Hq in Hst. }
  apply Forall_lookup. intros t p Hp. by eapply Hback.
Qed.

(** When all threads are done, the blocks are those of the main thread. *)
Lemma par_end s parts : par_inv s parts → Forall (λ p, p = Return) (pthreads s) → ∃ H', represents (pw s) H' ∧ Q H'.
Proof.
  intros Hi Hd. destruct (pi_heap _ _ Hi) as (G & Hr & Hs). destruct (pi_main _ _ Hi) as (a & rest & -> & <- & Hrest).
  assert (Hall : ∀ t b, (a :: rest) !! t = Some b → pq b (ph b)).
  { intros t b Hb. destruct (Forall2_lookup_r _ _ _ _ _ (pi_threads _ _ Hi) Hb) as (p & Hp & Hsafe & _).
    rewrite Forall_lookup in Hd. by rewrite (Hd t p Hp) in Hsafe. }
  assert (Hempty : ∀ t b, rest !! t = Some b → ph b = ∅).
  { intros t b Hb. specialize (Hall (S t) b Hb). rewrite Forall_lookup in Hrest. by rewrite (Hrest t b Hb) in Hall. }
  exists (ph a). split; [|by apply (Hall 0%nat a)]. assert (G = ph a) as <-; [|done]. apply map_eq. intros q.
  destruct (G !! q) as [bs|] eqn:E; symmetry.
  - apply (sp_lookup _ _ Hs) in E as ([|t] & Ht & Ht0 & Hq); cbn in Ht0; [by injection Ht0 as ->|].
    change ((ph <$> rest) !! t = Some Ht) in Ht0. rewrite list_lookup_fmap in Ht0. destruct (rest !! t) as [b|] eqn:Eb; [|done]. cbn in Ht0. injection Ht0 as <-.
    by rewrite (Hempty t b Eb), lookup_empty in Hq.
  - by apply (splits_none _ _ 0%nat _ _ Hs).
Qed.

Lemma par_run_good ls s s' n : limit < 2 ^ 64 → par_good s n → run (par_step tid) ls s = Some s' →
  ∃ n', Z.of_nat (length ls) + n' ≤ n ∧ par_good s' n'.
Proof.
  intros Hl. revert s n. induction ls as [|tr ls IH]; intros s n Hg Hr; cbn in Hr; [injection Hr as <-; by exists n|].
  destruct (par_step tid tr s) as [s1|] eqn:E; [|done]. destruct (par_step_good tr s s1 n Hl Hg E) as (n1 & Hn & Hg1).
  destruct (IH s1 n1 Hg1 Hr) as (n' & Hle & Hg'). exists n'. split; [cbn; lia|done].
Qed.
End safety.

(** ** What a program is meant to do *)

(** The blocks of the heap are divided among the threads, and whatever call a thread is about
    to make is a valid one on its own part: no thread touches a block of another. *)
Definition kept_apart {W : Type} `{ClientHeap W} (s : pstate W) : Prop :=
  ∃ H parts, represents (pw s) H ∧ splits H parts ∧ length parts = length (pthreads s) ∧
    ∀ t o k, pthreads s !! t = Some (Call o k) → ∃ Ht, parts !! t = Some Ht ∧ valid_op2 Ht o.

(** A run has at most [n] steps; in every state before a crash the threads are kept apart;
    the only crash is that of a call which the system has refused memory for; when a run
    can go on no more, all threads have ended and left blocks that satisfy [Q]. *)
Definition ends_well {W : Type} `{ClientHeap W} (tid : nat → Z) (w : W) (p : prog) (n : Z) (Q : heap → Prop) : Prop :=
  ∀ ls s, run (par_step tid) ls (pstart w p) = Some s →
    Z.of_nat (length ls) ≤ n ∧
    (crashed s = None ∧ kept_apart s ∨ crashed s = Some (Segv 7) ∧ refused_call s) ∧
    (crashed s = None → (∀ tr, par_step tid tr s = None) →
     Forall (λ p, p = Return) (pthreads s) ∧ ∃ H', represents (pw s) H' ∧ Q H').

Lemma par_good_start {W : Type} `{ClientLaws W} p Q n w : represents w ∅ → safe p ∅ [] Q → within p n → par_good Q (n + 1) (pstart w p) n.
Proof.
  intros Hr Hs Hw. left. split; [done|]. exists [mkPart ∅ [] Q n]. split; [split; cbn|unfold steps_left, zsum; cbn; lia].
  - exists ∅. split; [done|]. split.
    + intros q bs. rewrite lookup_empty. split; [done|]. intros ([|t] & Ht & Ht0 & Hq); [|done]. injection Ht0 as <-. by rewrite lookup_empty in Hq.
    + intros t u Ht Hu q Ht0 Hu0 [bs Hq]. destruct t; [|done]. injection Ht0 as <-. by rewrite lookup_empty in Hq.
  - by constructor.
  - by eexists _, [].
  - intros [|t] a u Ha Hu; [|done]. injection Ha as <-. by apply elem_of_nil in Hu.
  - unfold steps_left, zsum. cbn. lia.
Qed.

Lemma par_apart {W : Type} `{ClientLaws W} Q limit s parts : par_inv Q limit s parts → kept_apart s.
Proof.
  intros Hi. destruct (pi_heap _ _ _ _ Hi) as (G & Hr & Hs). exists G, (ph <$> parts).
  split_and!; [done..|rewrite length_fmap; symmetry; apply (Forall2_length _ _ _ (pi_threads _ _ _ _ Hi))|].
  intros t o k Ht. destruct (Forall2_lookup_l _ _ _ _ _ (pi_threads _ _ _ _ Hi) Ht) as (a & Ha & [Hv _] & _).
  exists (ph a). by rewrite list_lookup_fmap, Ha.
Qed.

(** Safe programs end well, on every allocator that refines the abstract heap and in
    every order of the steps of their threads. *)
Lemma safe_ends_well {W : Type} `{ClientLaws W} tid p Q n w :
  represents w ∅ → safe p ∅ [] Q → within p n → n + 1 < 2 ^ 64 → ends_well tid w p n Q.
Proof.
  intros Hr Hs Hw Hn ls s Hrun. pose proof (par_good_start p Q n w Hr Hs Hw) as Hg.
  destruct (par_run_good tid Q (n + 1) ls _ s n ltac:(lia) Hg Hrun) as (n' & Hle & [(Hc & parts & Hi & <-)|(Hc & He & Hn')]).
  - pose proof (part_nonneg _ _ _ _ Hi) as Hpos. assert (0 ≤ steps_left parts) by (by apply zsum_nonneg, Forall_fmap).
    split_and!; [lia|left; split; [done|by eapply par_apart]|]. intros _ Hst. pose proof (par_stuck tid Q (n + 1) s parts Hc Hi Hst) as Hd. split; [done|].
    by eapply (par_end Q (n + 1)).
  - split_and!; [lia|by right|]. by rewrite Hc.
Qed.
