(* ===== verification/TestPrograms.v ===== *)
(** * The test programs of the allocators

    [test1.cc] to [test5.cc], which the two directories share, as [prog]s: the blocks
    they get from the allocator, what they write to and read from them, and their
    threads.  [new pthread_t[n]] is a call of [malloc], and the identities of the
    threads are kept in that block while the threads use the allocator.  Making a
    thread succeeds.  Output and time stamps are left out, and [test6.cc] is not a
    valid program (it stores pointers in [char]s). *)
From stdpp Require Import base numbers list gmap sorting.
From S2P Require Import Prelude Memory OS FreeList FreeListRep Arena ClientSpec MyMalloc MyMallocSpec HeapAlloc HeapAllocSpec.
From S2P Require Import Threads Programs.
Open Scope Z_scope.

(** ** Numbers in blocks *)

(** The [n] low bytes of [v] from the offset [i] on; the number read from there. *)
Fixpoint store_le (n : nat) (p : Z) (i : nat) (v : Z) (k : prog) : prog :=
  match n with
  | O => k
  | S n' => Call (Store p i (v `mod` 256)) (λ _, store_le n' p (S i) (v / 256) k)
  end.

Fixpoint load_le (n : nat) (p : Z) (i : nat) (k : Z → prog) : prog :=
  match n with
  | O => k 0
  | S n' => Call (Load p i) (λ b, load_le n' p (S i) (λ r, k (b + 256 * r)))
  end.

(** ** The programs *)

(** [*p = v] for an [int* p] and for a [char* p]. *)
Definition store_int (p v : Z) (k : prog) : prog := store_le 4 p 0 v k.
Definition store_char (p v : Z) (k : prog) : prog := store_le 1 p 0 v k.

Fixpoint repeat_prog (n : nat) (body : prog → prog) (k : prog) : prog :=
  match n with O => k | S n' => body (repeat_prog n' body k) end.

(** [p = malloc(size); *p = v; free(p);] *)
Definition use_int (size v : Z) (k : prog) : prog :=
  Call (Malloc size) (λ p, store_int p v (Call (Free p) (λ _, k))).

Definition test1_main : prog := use_int 520 10 (use_int 610 33 (use_int 120 33 Return)).

(** The body of the loop, for [i]. *)
Definition test2_body (i : Z) (k : prog) : prog :=
  Rand (λ r, let allocsize := r `mod` i + 1 in
  Call (Malloc allocsize) (λ p1, store_char p1 100 (
  Call (Malloc 100) (λ p2,
  Call (Free p1) (λ _, Call (Free p2) (λ _, k)))))).

(** [for (i = 1; i < allocations; ++i)]: [n] rounds left, the next one is [i]. *)
Fixpoint test2_loop (n : nat) (i : Z) (k : prog) : prog :=
  match n with O => k | S n' => test2_body i (test2_loop n' (i + 1) k) end.

Definition test2_main : prog :=
  test2_loop 1999 1 (Call (Malloc 100000) (λ p3, store_char p3 0 (Call (Free p3) (λ _, Return)))).

(** The array [t] of identities: [pthread_create] writes into it, [pthread_join] is given
    what it holds. *)
Fixpoint create_threads (n : nat) (child : prog) (t : Z) (i : nat) (k : prog) : prog :=
  match n with
  | O => k
  | S n' => Fork child (λ u, store_le 8 t (8 * i) (Z.of_nat u) (create_threads n' child t (S i) k))
  end.

Fixpoint join_threads (n : nat) (t : Z) (i : nat) (k : prog) : prog :=
  match n with
  | O => k
  | S n' => load_le 8 t (8 * i) (λ v, Join (Z.to_nat v) (join_threads n' t (S i) k))
  end.

Definition MAXALLOCSIZE : Z := Z.shiftl 1 10.

Definition test3_body (k : prog) : prog :=
  Rand (λ r, let allocsize := r `mod` MAXALLOCSIZE + 1 in
  Call (Malloc allocsize) (λ p1, store_char p1 100 (
  Call (Malloc 100) (λ p2, store_char p2 222 (
  Call (Free p1) (λ _, Call (Free p2) (λ _, k))))))).

Definition test3_thread (numAllocPerThrd : Z) : prog :=
  repeat_prog 10 (repeat_prog (Z.to_nat (numAllocPerThrd - 1)) test3_body) Return.

Definition numberOfThreads : nat := 12.
Definition numAllocPerThrd : Z := Z.shiftl 1 23 / (Z.of_nat numberOfThreads * MAXALLOCSIZE).
Definition NUMOFTESTS : nat := 30.

Definition test3_main : prog :=
  Call (Malloc 20) (λ psingle,
  Call (Malloc (8 * Z.of_nat numberOfThreads)) (λ t,
  repeat_prog NUMOFTESTS (λ k, create_threads numberOfThreads (test3_thread numAllocPerThrd) t 0
                                 (join_threads numberOfThreads t 0 k))
    (Call (Free psingle) (λ _, Call (Free t) (λ _, Return))))).

Definition MAX_BIN_ALLOC_SIZE : Z := Z.shiftl 1 10.

Definition test4_body (k : prog) : prog :=
  Rand (λ r, let allocsize := r `mod` MAX_BIN_ALLOC_SIZE + 1 in
  Call (Malloc allocsize) (λ tmp, Call (Free tmp) (λ _, k))).

Definition test4_thread (numBins : Z) : prog := repeat_prog 10 (repeat_prog (Z.to_nat numBins) test4_body) Return.

(** [main] for the value of [atoi(argv[1])].  The product is an [int]; the quotient is
    computed without sign; a negative length of the array is an exception. *)
Definition test4_main (threads : Z) : fault + prog :=
  let product := MAX_BIN_ALLOC_SIZE * threads in
  if negb ((- 2 ^ 31 <=? product) && (product <? 2 ^ 31)) then inl IntOverflow
  else if wrap64 product =? 0 then inl DivByZero
  else
    let numBins := to_int32 (Z.shiftl 1 20 / wrap64 product) in
    if threads <? 0 then inl Fatal
    else inr (
      Call (Malloc 20) (λ psingle,
      Call (Malloc (8 * threads)) (λ t,
      create_threads (Z.to_nat threads) (test4_thread numBins) t 0
        (join_threads (Z.to_nat threads) t 0
          (Call (Free psingle) (λ _, Call (Free t) (λ _, Return))))))).

Definition test5_main : prog :=
  Call (Malloc (100 * 1024 - 8)) (λ a,
  Call (Malloc (10 * 1024 - 8)) (λ b,
  Call (Malloc (50 * 1024 - 8)) (λ c,
  Call (Free a) (λ _, Call (Free c) (λ _,
  Call (Malloc (50 * 1024 - 8)) (λ c,
  Call (Malloc (100 * 1024 - 8)) (λ a, Return))))))).

(** ** Proving programs safe *)

Lemma safe_malloc H n k F Q : 0 < n < max_request →
  (∀ p bs, fresh_block H n p bs → safe (k p) (<[p := bs]> H) F Q) → safe (Call (Malloc n) k) H F Q.
Proof. intros Hn Hk. split; [done|]. intros r H' Hst. inversion Hst; subst. auto. Qed.

Lemma safe_free H p bs k F Q : H !! p = Some bs → p ≠ NULL → safe (k 0) (delete p H) F Q → safe (Call (Free p) k) H F Q.
Proof. intros Hp Hn Hk. split; [split; [right|]; eauto|]. intros r H' Hst. inversion Hst; subst; done. Qed.

Lemma safe_store H p i b bs k F Q : H !! p = Some bs → (i < length bs)%nat → 0 ≤ b < 256 →
  safe (k 0) (<[p := <[i := b]> bs]> H) F Q → safe (Call (Store p i b) k) H F Q.
Proof.
  intros Hp Hi Hb Hk. split; [split; [split; [done|]|]; eauto|]. intros r H' Hst. inversion Hst; subst. congruence.
Qed.

Lemma safe_load H p i b bs k F Q : H !! p = Some bs → bs !! i = Some b → safe (k b) H F Q → safe (Call (Load p i) k) H F Q.
Proof.
  intros Hp Hi Hk. split; [split; [exists bs; split; [done|by eapply lookup_lt_Some]|done]|]. intros r H' Hst.
  inversion Hst; subst. congruence.
Qed.

(** What the two loops do to a block. *)
Fixpoint put_le (n i : nat) (v : Z) (bs : list Z) : list Z :=
  match n with O => bs | S n' => put_le n' (S i) (v / 256) (<[i := v `mod` 256]> bs) end.

Fixpoint get_le (n i : nat) (bs : list Z) : option Z :=
  match n with
  | O => Some 0
  | S n' => match bs !! i, get_le n' (S i) bs with Some b, Some r => Some (b + 256 * r) | _, _ => None end
  end.

Lemma put_le_length n i v bs : length (put_le n i v bs) = length bs.
Proof. revert i v bs. induction n as [|n IH]; intros i v bs; [done|]. cbn. by rewrite IH, length_insert. Qed.

Lemma put_le_out n i v bs j : (j < i ∨ i + n ≤ j)%nat → put_le n i v bs !! j = bs !! j.
Proof.
  revert i v bs. induction n as [|n IH]; intros i v bs Hj; [done|]. cbn. rewrite IH by lia. apply list_lookup_insert_ne. lia.
Qed.

Lemma get_le_ext n i bs cs : (∀ j, (i ≤ j < i + n)%nat → bs !! j = cs !! j) → get_le n i bs = get_le n i cs.
Proof. revert i. induction n as [|n IH]; intros i Hj; [done|]. cbn. rewrite (Hj i), (IH (S i)) by (lia || intros; apply Hj; lia). done. Qed.

Lemma get_put_le n i v bs : (i + n ≤ length bs)%nat → 0 ≤ v < 256 ^ Z.of_nat n → get_le n i (put_le n i v bs) = Some v.
Proof.
  revert i v bs. induction n as [|n IH]; intros i v bs Hl Hv; [cbn in *; f_equal; lia|]. cbn.
  rewrite put_le_out by lia. rewrite list_lookup_insert_eq by lia. rewrite IH; [f_equal; pose proof (Z.div_mod v 256); lia|rewrite length_insert; lia|].
  rewrite Nat2Z.inj_succ, Z.pow_succ_r in Hv by lia. split; [apply Z.div_pos; lia|]. apply Z.div_lt_upper_bound; lia.
Qed.

Lemma get_put_le_ne n m i j v bs : (i + n ≤ j ∨ j + m ≤ i)%nat → get_le n i (put_le m j v bs) = get_le n i bs.
Proof. intros Hd. apply get_le_ext. intros k Hk. apply put_le_out. lia. Qed.

Lemma safe_store_le n p i v k H F Q bs : H !! p = Some bs → (i + n ≤ length bs)%nat →
  safe k (<[p := put_le n i v bs]> H) F Q → safe (store_le n p i v k) H F Q.
Proof.
  revert i v H bs. induction n as [|n IH]; intros i v H bs Hp Hl Hk; cbn; [by rewrite insert_id in Hk|].
  eapply safe_store; [done|lia|apply Z.mod_pos_bound; lia|]. eapply IH; [apply lookup_insert_eq|rewrite length_insert; lia|].
  by rewrite insert_insert_eq.
Qed.

Lemma safe_load_le n p i k H F Q bs x : H !! p = Some bs → get_le n i bs = Some x →
  safe (k x) H F Q → safe (load_le n p i k) H F Q.
Proof.
  revert i k x. induction n as [|n IH]; intros i k x Hp Hg Hk; cbn in *; [by injection Hg as <-|].
  destruct (bs !! i) as [b|] eqn:Hb; [|done]. destruct (get_le n (S i) bs) as [r|] eqn:Hr; [|done]. injection Hg as <-.
  eapply safe_load; [done..|]. by eapply IH.
Qed.

(** *** Blocks that come and go *)

Lemma delete_fresh (H : heap) p bs : H !! p = None → delete p (<[p := bs]> H) = H.
Proof. intros Hp. by rewrite delete_insert_id. Qed.

(** A [body] that gives back all it takes. *)
Definition neutral (body : prog → prog) : Prop := ∀ H F Q k, safe k H F Q → safe (body k) H F Q.

Lemma neutral_repeat n body : neutral body → neutral (repeat_prog n body).
Proof. intros Hb H F Q k Hk. induction n as [|n IH]; [done|]. cbn. by apply Hb. Qed.

Lemma use_int_neutral size v : 4 ≤ size < max_request → neutral (use_int size v).
Proof.
  intros Hs H F Q k Hk. apply safe_malloc; [lia|]. intros p bs (Hn & Hp & Hl & _).
  eapply safe_store_le; [apply lookup_insert_eq|lia|]. rewrite insert_insert_eq.
  eapply safe_free; [apply lookup_insert_eq|done|]. by rewrite delete_fresh.
Qed.

(** [malloc(n1); *p1 = v1; malloc(n2); stores; free(p1); free(p2);] *)
Lemma pair_neutral n1 n2 v1 (st : Z → prog → prog) : 0 < n1 < max_request → 0 < n2 < max_request →
  (∀ p k H F Q bs, H !! p = Some bs → n2 ≤ Z.of_nat (length bs) → (∀ bs', length bs' = length bs → safe k (<[p := bs']> H) F Q) → safe (st p k) H F Q) →
  neutral (λ k, Call (Malloc n1) (λ p1, store_char p1 v1 (Call (Malloc n2) (λ p2, st p2 (Call (Free p1) (λ _, Call (Free p2) (λ _, k))))))).
Proof.
  intros H1 H2 Hst H F Q k Hk. apply safe_malloc; [done|]. intros p1 bs1 (Hn1 & Hp1 & Hl1 & _).
  eapply safe_store_le; [apply lookup_insert_eq|lia|]. rewrite insert_insert_eq. set (cs1 := put_le _ _ _ _).
  apply safe_malloc; [done|]. intros p2 bs2 (Hn2 & Hp2 & Hl2 & _).
  assert (Hne : p2 ≠ p1) by (intros ->; by rewrite lookup_insert_eq in Hp2). rewrite lookup_insert_ne in Hp2 by done.
  eapply Hst; [apply lookup_insert_eq|done|]. intros bs' _. rewrite insert_insert_eq.
  eapply (safe_free _ p1 cs1); [rewrite lookup_insert_ne by done; apply lookup_insert_eq|done|].
  rewrite delete_insert_ne, delete_fresh by done. eapply safe_free; [apply lookup_insert_eq|done|]. by rewrite delete_fresh.
Qed.

Lemma test2_body_neutral i : 0 < i < 2 ^ 31 → neutral (test2_body i).
Proof.
  intros Hi H F Q k Hk r Hr. pose proof (Z.mod_pos_bound r i ltac:(lia)).
  apply (pair_neutral _ 100 100 (λ _ k, k)); try done; unfold max_request; [lia..|]. intros p k' H' F' Q' bs Hp _ Hk'.
  rewrite <- (insert_id H' p bs Hp). by apply Hk'.
Qed.

Lemma test3_body_neutral : neutral test3_body.
Proof.
  intros H F Q k Hk r Hr. pose proof (Z.mod_pos_bound r MAXALLOCSIZE ltac:(done)). change MAXALLOCSIZE with 1024 in *.
  apply (pair_neutral _ 100 100 (λ p, store_char p 222)); try done; unfold max_request; [lia..|]. intros p k' H' F' Q' bs Hp Hl Hk'.
  eapply safe_store_le; [done|lia|]. apply Hk', put_le_length.
Qed.

Lemma test4_body_neutral : neutral test4_body.
Proof.
  intros H F Q k Hk r Hr. pose proof (Z.mod_pos_bound r MAX_BIN_ALLOC_SIZE ltac:(done)). change MAX_BIN_ALLOC_SIZE with 1024 in *.
  apply safe_malloc; [unfold max_request; lia|]. intros p bs (Hn & Hp & _). eapply safe_free; [apply lookup_insert_eq|done|].
  by rewrite delete_fresh.
Qed.

(** *** Threads *)

(** [ids] are the identities in the array [t] from the index [i] on. *)
Definition holds_ids (bs : list Z) (i : nat) (ids : list nat) : Prop :=
  ∀ j u, ids !! j = Some u → get_le 8 (8 * (i + j)) bs = Some (Z.of_nat u).

Lemma create_threads_safe n child t i k H F Q bs : H !! t = Some bs → (8 * (i + n) ≤ length bs)%nat → safe child ∅ [] (λ H', H' = ∅) →
  (∀ ids bs', length ids = n → length bs' = length bs → holds_ids bs' i ids → (∀ m, (8 * m + 8 ≤ 8 * i)%nat → get_le 8 (8 * m) bs' = get_le 8 (8 * m) bs) →
     safe k (<[t := bs']> H) (rev ids ++ F) Q) →
  safe (create_threads n child t i k) H F Q.
Proof.
  revert i H F bs. induction n as [|n IH]; intros i H F bs Ht Hl Hc Hk.
  { cbn. rewrite <- (insert_id H t bs Ht). apply (Hk [] bs); done. }
  cbn [create_threads]. split; [done|]. intros u Hu. eapply safe_store_le; [done|lia|].
  apply (IH (S i) _ _ (put_le 8 (8 * i) (Z.of_nat u) bs)); [apply lookup_insert_eq|rewrite put_le_length; lia|done|].
  intros ids bs' Hids Hbs' Hhold Hkeep. rewrite insert_insert_eq. rewrite put_le_length in Hbs'.
  specialize (Hk (u :: ids) bs'). cbn [rev] in Hk. rewrite <- app_assoc in Hk. apply Hk; [cbn; lia|done| |].
  - intros [|j] v Hj; cbn in Hj.
    + injection Hj as <-. rewrite Nat.add_0_r, Hkeep by lia. apply get_put_le; [lia|]. change (256 ^ Z.of_nat 8) with (2 ^ 64). lia.
    + specialize (Hhold j v Hj). by replace (i + S j)%nat with (S i + j)%nat by lia.
  - intros m Hm. rewrite Hkeep by lia. apply get_put_le_ne. lia.
Qed.

Lemma join_threads_safe n t i k H F Q bs ids : H !! t = Some bs → holds_ids bs i ids → length ids = n → (∀ u, u ∈ ids → u ∈ F) →
  safe k H F Q → safe (join_threads n t i k) H F Q.
Proof.
  revert i ids. induction n as [|n IH]; intros i ids Ht Hids Hlen HF Hk; [done|]. destruct ids as [|u ids]; [done|].
  cbn [join_threads]. eapply safe_load_le; [done|rewrite <- (Nat.add_0_r i); by apply (Hids 0%nat)|].
  rewrite Nat2Z.id. split; [apply HF; left|]. apply (IH (S i) ids); [done| |by injection Hlen|intros v Hv; apply HF; by right|done].
  intros j v Hj. specialize (Hids (S j) v Hj). by replace (S i + j)%nat with (i + S j)%nat by lia.
Qed.

(** Threads are made and joined; the array keeps its length. *)
Lemma threads_round n child t k H F Q bs : H !! t = Some bs → (8 * n ≤ length bs)%nat → safe child ∅ [] (λ H', H' = ∅) →
  (∀ bs' F', length bs' = length bs → safe k (<[t := bs']> H) F' Q) →
  safe (create_threads n child t 0 (join_threads n t 0 k)) H F Q.
Proof.
  intros Ht Hl Hc Hk. eapply create_threads_safe; [done|lia|done|]. intros ids bs' Hids Hbs' Hhold _.
  eapply join_threads_safe; [apply lookup_insert_eq|done|done| |by apply Hk].
  intros u Hu. apply elem_of_app. left. by apply list_elem_of_In, in_rev, list_elem_of_In in Hu.
Qed.

(** [malloc(20)], the array, [rounds], and both blocks are freed. *)
Lemma main_safe n (rounds : Z → prog → prog) : 0 < n < 2 ^ 21 →
  (∀ t k H F Q bs, H !! t = Some bs → (8 * Z.to_nat n ≤ length bs)%nat →
     (∀ bs' F', length bs' = length bs → safe k (<[t := bs']> H) F' Q) → safe (rounds t k) H F Q) →
  safe (Call (Malloc 20) (λ psingle, Call (Malloc (8 * n)) (λ t, rounds t (Call (Free psingle) (λ _, Call (Free t) (λ _, Return)))))) ∅ [] (λ H', H' = ∅).
Proof.
  intros Hn Hr. apply safe_malloc; [done|]. intros p bs1 (Hn1 & Hp1 & _ & _).
  apply safe_malloc; [unfold max_request; lia|]. intros t bs (Hn2 & Hp2 & Hl & _).
  assert (Hne : t ≠ p) by (intros ->; by rewrite lookup_insert_eq in Hp2).
  eapply Hr; [apply lookup_insert_eq|lia|]. intros bs' F' _. rewrite insert_insert_eq.
  eapply (safe_free _ p bs1); [rewrite lookup_insert_ne by done; apply lookup_insert_eq|done|].
  rewrite delete_insert_ne, delete_fresh by done. eapply safe_free; [apply lookup_insert_eq|done|]. by rewrite delete_fresh.
Qed.

Lemma test3_thread_safe n : safe (test3_thread n) ∅ [] (λ H', H' = ∅).
Proof. apply neutral_repeat; [|done]. apply neutral_repeat, test3_body_neutral. Qed.

Lemma test4_thread_safe n : safe (test4_thread n) ∅ [] (λ H', H' = ∅).
Proof. apply neutral_repeat; [|done]. apply neutral_repeat, test4_body_neutral. Qed.

Lemma test2_loop_neutral n i : 0 < i → i + Z.of_nat n < 2 ^ 31 → neutral (test2_loop n i).
Proof.
  revert i. induction n as [|n IH]; intros i Hi Hn H F Q k Hk; [done|]. cbn [test2_loop]. apply test2_body_neutral; [lia|]. apply IH; [lia..|done].
Qed.

Lemma test1_safe : safe test1_main ∅ [] (λ H', H' = ∅).
Proof. do 3 (apply use_int_neutral; [unfold max_request; lia|]). done. Qed.

Lemma test2_safe : safe test2_main ∅ [] (λ H', H' = ∅).
Proof.
  apply test2_loop_neutral; [done..|]. apply safe_malloc; [done|]. intros p bs (Hn & Hp & Hl & _).
  eapply safe_store_le; [apply lookup_insert_eq|lia|]. rewrite insert_insert_eq. eapply safe_free; [apply lookup_insert_eq|done|].
  by rewrite delete_fresh.
Qed.

Lemma test3_safe : safe test3_main ∅ [] (λ H', H' = ∅).
Proof.
  apply (main_safe 12 (λ t, repeat_prog NUMOFTESTS (λ k, create_threads numberOfThreads (test3_thread numAllocPerThrd) t 0 (join_threads numberOfThreads t 0 k)))); [done|].
  intros t k. generalize NUMOFTESTS. induction n as [|n IH]; intros H F Q bs Ht Hl Hk.
  { cbn. rewrite <- (insert_id H t bs Ht). by apply Hk. }
  cbn [repeat_prog]. eapply threads_round; [done|unfold numberOfThreads; lia|apply test3_thread_safe|]. intros bs' F' Hbs'.
  apply (IH _ _ _ bs'); [apply lookup_insert_eq|lia|]. intros bs'' F'' Hbs''. rewrite insert_insert_eq. apply Hk. lia.
Qed.

Lemma test4_safe n p : 0 < n → test4_main n = inr p → safe p ∅ [] (λ H', H' = ∅).
Proof.
  intros Hn. unfold test4_main. change MAX_BIN_ALLOC_SIZE with 1024. destruct (_ && _) eqn:Hb; cbn [negb]; [|done].
  apply andb_true_iff in Hb as [_ Hb%Z.ltb_lt]. destruct (_ =? 0); [done|]. destruct (Z.ltb_spec n 0) as [Hneg|Hneg]; [done|]. intros [= <-].
  apply (main_safe n (λ t k, create_threads (Z.to_nat n) _ t 0 (join_threads (Z.to_nat n) t 0 k))); [lia|].
  intros t k H F Q bs Ht Hl Hk. by eapply threads_round; [..|apply test4_thread_safe|].
Qed.

(** [test5] leaves three blocks. *)
Lemma test5_safe : safe test5_main ∅ [] (λ H', size H' = 3%nat).
Proof.
  apply safe_malloc; [done|]. intros a bsa (Hna & Ha & _). apply safe_malloc; [done|]. intros b bsb (Hnb & Hb & _).
  apply safe_malloc; [done|]. intros c bsc (Hnc & Hc & _).
  assert (Hba : b ≠ a) by (intros ->; by rewrite lookup_insert_eq in Hb).
  assert (Hcb : c ≠ b) by (intros ->; by rewrite lookup_insert_eq in Hc).
  assert (Hca : c ≠ a) by (intros ->; by rewrite lookup_insert_ne, lookup_insert_eq in Hc by done).
  eapply (safe_free _ a bsa); [rewrite !lookup_insert_ne by done; apply lookup_insert_eq|done|].
  rewrite !delete_insert_ne, delete_fresh by done. eapply (safe_free _ c bsc); [apply lookup_insert_eq|done|].
  rewrite delete_fresh by (by rewrite lookup_insert_ne). apply safe_malloc; [done|]. intros c' bsc' (_ & Hc' & _).
  apply safe_malloc; [done|]. intros a' bsa' (_ & Ha' & _). cbn. rewrite !map_size_insert_None; [done|done|done|done].
Qed.

(** ** How long the programs are *)

Lemma within_mono p n m : within p n → n ≤ m → within p m.
Proof.
  revert n m. induction p as [|o k IH|k IH|c IHc k IH|t k IH]; intros n m Hp Hm; cbn in *; [lia|..].
  - intros r. eapply IH; [apply Hp|lia].
  - intros r. eapply IH; [apply Hp|lia].
  - destruct Hp as (a & Hc & Hk). exists a. split; [done|]. intros t. eapply IH; [apply Hk|lia].
  - eapply IH; [done|lia].
Qed.

(** [body] takes [c] steps. *)
Definition costs (c : Z) (body : prog → prog) : Prop := ∀ k n, within k n → within (body k) (n + c).

Lemma costs_repeat c n body : costs c body → costs (Z.of_nat n * c) (repeat_prog n body).
Proof.
  intros Hb k m Hk. induction n as [|n IH]; [cbn; by rewrite Z.add_0_r|]. cbn [repeat_prog]. eapply within_mono; [by apply Hb|]. lia.
Qed.

Lemma costs_store_le n p i v : costs (Z.of_nat n) (store_le n p i v).
Proof.
  revert i v. induction n as [|n IH]; intros i v k m Hk; cbn [store_le]; [by rewrite Z.add_0_r|]. intros _.
  eapply within_mono; [by apply IH|lia].
Qed.

Lemma within_load_le n p i (k : Z → prog) m : (∀ x, within (k x) m) → within (load_le n p i k) (m + Z.of_nat n).
Proof.
  revert i k. induction n as [|n IH]; intros i k Hk; cbn [load_le]; [rewrite Z.add_0_r; apply Hk|]. intros b.
  eapply within_mono; [by apply IH|lia].
Qed.

Lemma costs_create n child c t i : within child c → costs (Z.of_nat n * (9 + c)) (create_threads n child t i).
Proof.
  intros Hc. revert i. induction n as [|n IH]; intros i k m Hk; cbn [create_threads]; [eapply within_mono; [done|lia]|].
  exists c. split; [done|]. intros u. eapply within_mono; [apply costs_store_le; by apply IH|]. lia.
Qed.

Lemma costs_join n t i : costs (Z.of_nat n * 9) (join_threads n t i).
Proof.
  revert i. induction n as [|n IH]; intros i k m Hk; cbn [join_threads]; [eapply within_mono; [done|lia]|].
  eapply within_mono; [apply (within_load_le _ _ _ _ (m + Z.of_nat n * 9 + 1))|lia]. intros x. cbn [within].
  eapply within_mono; [by apply IH|lia].
Qed.

Lemma use_int_costs size v : costs 6 (use_int size v).
Proof. intros k n Hk p. eapply within_mono; [apply (costs_store_le 4 _ _ _ _ (n + 1))|lia]. intros _. by rewrite Z.add_simpl_r. Qed.

Lemma test2_body_costs i : costs 6 (test2_body i).
Proof.
  intros k n Hk r p1. eapply within_mono; [apply (costs_store_le 1 _ _ _ _ (n + 3))|lia]. intros p2 ? ?. eapply within_mono; [done|lia].
Qed.

Lemma test3_body_costs : costs 7 test3_body.
Proof.
  intros k n Hk r p1. eapply within_mono; [apply (costs_store_le 1 _ _ _ _ (n + 4))|lia]. intros p2.
  eapply within_mono; [apply (costs_store_le 1 _ _ _ _ (n + 2))|lia]. intros ? ?. eapply within_mono; [done|lia].
Qed.

Lemma test4_body_costs : costs 3 test4_body.
Proof. intros k n Hk r p ?. eapply within_mono; [done|lia]. Qed.

Lemma test2_loop_costs n i : costs (Z.of_nat n * 6) (test2_loop n i).
Proof.
  revert i. induction n as [|n IH]; intros i k m Hk; cbn [test2_loop]; [eapply within_mono; [done|lia]|].
  eapply within_mono; [apply test2_body_costs; by apply IH|]. lia.
Qed.

(** The steps of a thread, and of a main program with [n] threads of [c] steps in
    each of [rounds] rounds. *)
Definition thread_steps (times body : Z) : Z := 10 * (times * body).
Definition main_steps (rounds n c : Z) : Z := 4 + rounds * (n * (9 + c) + n * 9).

Lemma test3_thread_within n : 1 ≤ n → within (test3_thread n) (thread_steps (n - 1) 7).
Proof.
  intros Hn. eapply within_mono; [apply (costs_repeat _ 10 _ (costs_repeat _ _ _ test3_body_costs) Return 0); done|].
  unfold thread_steps. lia.
Qed.

Lemma test4_thread_within n : 0 ≤ n → within (test4_thread n) (thread_steps n 3).
Proof.
  intros Hn. eapply within_mono; [apply (costs_repeat _ 10 _ (costs_repeat _ _ _ test4_body_costs) Return 0); done|].
  unfold thread_steps. lia.
Qed.

Lemma main_within rounds (f : Z → prog → prog) n : (∀ t, costs rounds (f t)) →
  within (Call (Malloc 20) (λ psingle, Call (Malloc n) (λ t, f t (Call (Free psingle) (λ _, Call (Free t) (λ _, Return)))))) (4 + rounds).
Proof. intros Hf p t. eapply within_mono; [apply (Hf t _ 2)|lia]. cbn. lia. Qed.

Lemma test1_within : within test1_main 18.
Proof. exact (use_int_costs 520 10 _ 12 (use_int_costs 610 33 _ 6 (use_int_costs 120 33 Return 0 (Z.le_refl 0)))). Qed.

Lemma test2_within : within test2_main (1999 * 6 + 3).
Proof.
  unfold test2_main. set (k := Call (Malloc 100000) _). assert (Hk : within k 3).
  { intros p. apply (costs_store_le 1 _ _ _ _ 1). by intros ?. }
  eapply within_mono; [exact (test2_loop_costs 1999 1 k 3 Hk)|lia].
Qed.

Lemma test3_within : within test3_main (main_steps 30 12 (thread_steps 681 7)).
Proof.
  apply (main_within (30 * (12 * (9 + thread_steps 681 7) + 12 * 9))
    (λ t, repeat_prog NUMOFTESTS (λ k, create_threads numberOfThreads (test3_thread numAllocPerThrd) t 0 (join_threads numberOfThreads t 0 k)))).
  intros t. apply (costs_repeat _ 30). intros k m Hk. pose proof (test3_thread_within numAllocPerThrd ltac:(done)) as Ht.
  change (numAllocPerThrd - 1) with 681 in Ht.
  eapply within_mono; [exact (costs_create 12 _ _ t 0 Ht _ _ (costs_join 12 t 0 k m Hk))|lia].
Qed.

(** The number of bins of [test4]. *)
Definition bins (n : Z) : Z := 1024 / n.

Lemma test4_runs n : 0 < n < 2 ^ 21 → ∃ p, test4_main n = inr p ∧ within p (main_steps 1 n (thread_steps (bins n) 3)).
Proof.
  intros Hn. unfold test4_main. change MAX_BIN_ALLOC_SIZE with 1024. change (Z.shiftl 1 20) with (1024 * 1024).
  rewrite wrap64_small by lia. destruct (Z.leb_spec (- 2 ^ 31) (1024 * n)); [|lia]. destruct (Z.ltb_spec (1024 * n) (2 ^ 31)); [|lia]. cbn [andb negb].
  destruct (Z.eqb_spec (1024 * n) 0); [lia|]. destruct (Z.ltb_spec n 0); [lia|].
  rewrite Z.div_mul_cancel_l by lia. fold (bins n).
  assert (Hb : 0 ≤ bins n ≤ 1024) by (unfold bins; split; [apply Z.div_pos; lia|apply Z.div_le_upper_bound; nia]).
  rewrite to_int32_small by lia. eexists. split; [done|].
  apply (main_within (1 * (n * (9 + thread_steps (bins n) 3) + n * 9))
    (λ t k, create_threads (Z.to_nat n) (test4_thread (bins n)) t 0 (join_threads (Z.to_nat n) t 0 k))).
  intros t k m Hk. eapply within_mono; [apply (costs_create (Z.to_nat n) _ (thread_steps (bins n) 3)), (costs_join (Z.to_nat n) _ _ _ _ Hk)|lia].
  apply test4_thread_within. lia.
Qed.

(** ** The programs on the allocators *)

(** A program ends well on both allocators, whatever the system and the identities
    of its threads. *)
Definition runs_on_both {os : OS} (p : prog) (n : Z) (Q : heap → Prop) : Prop :=
  ∀ tid, ends_well tid World_init p n Q ∧ ends_well tid Heap_init p n Q.

Lemma safe_on_both {os : OS} {Hos : SbrkLaws os} p n Q : safe p ∅ [] Q → within p n → n + 1 < 2 ^ 64 → runs_on_both p n Q.
Proof.
  intros Hs Hw Hn tid. split; apply safe_ends_well; try done; [apply heap_rep_init|apply (reachable2_rep Heap_init ∅), reach2_init].
Qed.


(** How [test4] fails for other arguments: a division by zero, an array of negative
    length, an [int] that overflows. *)
Lemma test4_bad n : - 2 ^ 31 ≤ n < 2 ^ 31 → ¬ 0 < n < 2 ^ 21 → ∃ e, test4_main n = inl e.
Proof.
  intros Hn Hbad. unfold test4_main. change MAX_BIN_ALLOC_SIZE with 1024.
  destruct (Z.leb_spec (- 2 ^ 31) (1024 * n)), (Z.ltb_spec (1024 * n) (2 ^ 31)); cbn [andb negb]; [|eauto..].
  destruct (Z.eqb_spec (wrap64 (1024 * n)) 0) as [|Hz]; [eauto|]. destruct (Z.ltb_spec n 0); [eauto|].
  assert (n = 0) as -> by lia. done.
Qed.

