(* ===== verification/Spinlock.v ===== *)
(** * The spinning lock ([spinlock.hpp]) *)

From S2P Require Import Prelude Threads.
From stdpp Require Import base numbers list gmap sorting relations.
Open Scope Z_scope.

(** Where a thread is: outside, before the atomic exchange of the fast path,
    in the bounded spin with [wait] tries left, before the exchange of the
    sleeping loop, or in the critical section. *)
Inductive pc : Type :=
| Outside
| FastSet
| Spin (wait : Z)
| SleepSet
| Inside.

Record Spinlock : Type := mkSpin { locked_ : bool; pcs : list pc }.

(** [Spinlock()], with [n] threads. *)
Definition Spinlock_init (n : nat) : Spinlock := mkSpin false (replicate n Outside).

Definition loadLockState (s : Spinlock) : bool := locked_ s.

Definition goto (t : nat) (p : pc) (l : bool) (s : Spinlock) : Spinlock := mkSpin l (<[t := p]> (pcs s)).

(** [__sync_lock_test_and_set(&locked_, true)] by thread [t]: to [won] when the
    lock was free and to [lost] when it was taken. *)
Definition test_and_set (t : nat) (won lost : pc) (s : Spinlock) : Spinlock :=
  goto t (if locked_ s then lost else won) true s.

(** The next atomic action of thread [t]; outside it calls [lock()], inside it
    calls [unlock()]. *)
Definition spin_step (t : nat) (s : Spinlock) : option Spinlock :=
  p ← pcs s !! t;
  Some match p with
  | Outside => goto t (if loadLockState s then Spin 1000 else FastSet) (locked_ s) s
  | FastSet => test_and_set t Inside (Spin 1000) s
  | Spin wait =>
    goto t (if (0 <? wait) && loadLockState s then Spin (wait - 1) else SleepSet) (locked_ s) s
  | SleepSet => test_and_set t Inside SleepSet s
  | Inside => goto t Outside false s
  end.

Definition is_inside (p : pc) : bool := match p with Inside => true | _ => false end.

#[export] Instance spin_system : LockSystem Spinlock nat := {
  lock_start := λ s, ∃ n, s = Spinlock_init n;
  lock_step := spin_step;
  holds_lock := λ s t, pcs s !! t = Some Inside;
}.

(** The flag says how many threads are inside. *)
Definition spin_inv (s : Spinlock) : Prop := count_if is_inside (pcs s) = Z.b2z (locked_ s).

Lemma spin_inv_step t s s' : spin_inv s → spin_step t s = Some s' → spin_inv s'.
Proof.
  unfold spin_inv, spin_step. intros Hi Hs. destruct (pcs s !! t) as [p|] eqn:Hp; [|done].
  cbn in Hs. injection Hs as <-. pose proof (count_if_pos is_inside (pcs s) t p Hp) as Hpos. rewrite Hi in Hpos.
  destruct p; unfold test_and_set, goto, loadLockState; cbn [locked_ pcs];
    rewrite (count_if_insert _ _ _ _ _ Hp), Hi; destruct (locked_ s); simpl in *;
    try (destruct (0 <? wait); simpl); lia.
Qed.

Lemma spin_inv_reachable n s : reachable spin_step (Spinlock_init n) s → spin_inv s.
Proof.
  apply (invariant_reachable spin_step spin_inv).
  - unfold spin_inv, Spinlock_init. simpl. by rewrite count_if_replicate.
  - intros. by eapply spin_inv_step.
Qed.

(** C31: mutual exclusion of the spinlock: in every interleaving of any number
    of threads, at most one is between [lock()] and [unlock()]. *)
Theorem spin_exclusion : MutualExclusion Spinlock nat.
Proof.
  intros s0 s t u [n ->] Hr Ht Hu. destruct (decide (t = u)) as [|Hne]; [done|exfalso].
  assert (Hi : spin_inv s).
  { by eapply spin_inv_reachable. }
  pose proof (count_if_two is_inside (pcs s) t u Inside Inside Ht Hu Hne eq_refl eq_refl) as H2.
  unfold spin_inv in Hi. destruct (locked_ s); simpl in Hi; lia.
Qed.

(** Running thread [t] alone. *)
Lemma spin_alone s t p :
  pcs s !! t = Some p → locked_ s = false → p ≠ Inside →
  ∃ s', run spin_step (match p with Spin _ => [t; t] | Outside => [t; t] | _ => [t] end) s = Some s' ∧
    pcs s' !! t = Some Inside.
Proof.
  intros Hp Hl Hne. pose proof (lookup_lt_Some _ _ _ Hp) as Hlt.
  assert (Hins : ∀ q, <[t := q]> (pcs s) !! t = Some q) by (intros; by apply list_lookup_insert_eq).
  destruct p; try done; cbn; unfold spin_step; rewrite Hp; cbn;
    unfold test_and_set, goto, loadLockState; cbn; rewrite ?Hl, ?andb_false_r; cbn;
    rewrite ?Hins; cbn; rewrite ?Hl; cbn; eexists; (split; [reflexivity|]); cbn;
    rewrite ?list_insert_insert_eq; by apply list_lookup_insert_eq.
Qed.

(** a free lock is never out of reach: a thread that wants the lock enters
    within two of its own actions if no other thread takes the lock first. *)
Theorem spin_progress n s t p :
  reachable spin_step (Spinlock_init n) s → pcs s !! t = Some p →
  (∀ u, pcs s !! u ≠ Some Inside) →
  ∃ k s', (k ≤ 2)%nat ∧ run spin_step (replicate k t) s = Some s' ∧ pcs s' !! t = Some Inside.
Proof.
  intros Hr Hp Hfree.
  assert (Hl : locked_ s = false).
  { pose proof (spin_inv_reachable _ _ Hr) as Hi.
    unfold spin_inv in Hi. destruct (locked_ s); [|done]. simpl in Hi.
    destruct (count_if_witness is_inside (pcs s)) as (u & q & Hu & Hq); [lia|].
    destruct q; try done. by destruct (Hfree u). }
  assert (Hne : p ≠ Inside) by (intros ->; by destruct (Hfree t)).
  destruct (spin_alone s t p Hp Hl Hne) as (s' & Hrun & Hin).
  destruct p; [exists 2%nat|exists 1%nat|exists 2%nat|exists 1%nat|done]; exists s'; (split; [lia|done]).
Qed.

Lemma spin_progress_witness :
  ∃ k s', (k ≤ 2)%nat ∧ run spin_step (replicate k 1%nat) (mkSpin false [Outside; FastSet]) = Some s' ∧
    pcs s' !! 1%nat = Some Inside.
Proof.
  apply (spin_progress 2 (mkSpin false [Outside; FastSet]) 1 FastSet).
  - exists [1%nat]. reflexivity.
  - reflexivity.
  - intros [|[|u]]; discriminate.
Defined.
