(* ===== verification/SpinlockMCS.v ===== *)
(** * The queueing lock ([spinlock_mcs.hpp])

    Every thread has one queue node, [qnode_], which is static: it serves all
    locks the thread uses.  The model has any number of locks and threads; an
    action is one access to shared memory, in a sequentially consistent
    order. *)

From S2P Require Import Prelude Threads.
From stdpp Require Import functions base numbers gmap sorting relations list.
Open Scope Z_scope.

(** [SpinlockMCS::Node]; a pointer to a node is the number of its thread. *)
Record Node : Type := mkNode { locked : bool; next : option nat }.

(** Where a thread is.  [Ready] is outside [lock()] and [unlock()]. *)
Inductive pc : Type :=
| Ready
| LReset (k : nat)               (* qnode_->next = NULL *)
| LSwap (k : nat)                (* exchange of tail_ *)
| LMark (k previous : nat)       (* qnode_->locked = true *)
| LLink (k previous : nat)       (* previous->next = qnode_ *)
| LWait (k : nat)                (* while (qnode_->loadLockState()) {} *)
| UNext (k : nat)                (* if (qnode_->next == NULL) *)
| UCas (k : nat)                 (* compare and swap of tail_ *)
| UWait (k : nat)                (* while (qnode_->loadNextState() == NULL) {} *)
| URelease (k : nat).            (* __sync_lock_release(&qnode_->next->locked) *)

Record thread : Type := mkThread { at_ : pc; held : list nat; qnode_ : Node }.

Record MCS : Type := mkMCS { tails : gmap nat nat; threads : list thread }.

(** [new Node()] *)
Definition Node_init : Node := mkNode true None.

(** All locks free ([SpinlockMCS()]), [n] threads outside. *)
Definition MCS_init (n : nat) : MCS := mkMCS ∅ (replicate n (mkThread Ready [] Node_init)).

Definition set_thread (t : nat) (th : thread) (s : MCS) : MCS := mkMCS (tails s) (<[t := th]> (threads s)).
Definition set_tail (k : nat) (v : option nat) (s : MCS) : MCS :=
  mkMCS (match v with Some t => <[k := t]> (tails s) | None => delete k (tails s) end) (threads s).

Definition set_locked (t : nat) (b : bool) (s : MCS) : option MCS :=
  th ← threads s !! t;
  Some (set_thread t (mkThread (at_ th) (held th) (mkNode b (next (qnode_ th)))) s).
Definition set_next (t : nat) (n : option nat) (s : MCS) : option MCS :=
  th ← threads s !! t;
  Some (set_thread t (mkThread (at_ th) (held th) (mkNode (locked (qnode_ th)) n)) s).
Definition go (t : nat) (p : pc) (h : list nat) (s : MCS) : option MCS :=
  th ← threads s !! t;
  Some (set_thread t (mkThread p h (qnode_ th)) s).

(** What a thread does next when it is [Ready]: calls [lock()] of [k] or
    [unlock()] of a lock it holds. *)
Inductive call : Type := Lock (k : nat) | Unlock (k : nat) | Continue.

(** The action of thread [t]. *)
Definition mcs_step (l : nat * call) (s : MCS) : option MCS :=
  let '(t, c) := l in
  th ← threads s !! t;
  let h := held th in
  match at_ th, c with
  | Ready, Lock k => go t (LReset k) h s
  | Ready, Unlock k => if decide (k ∈ h) then go t (UNext k) h s else None
  | Ready, Continue => None
  | LReset k, Continue => s' ← set_next t None s; go t (LSwap k) h s'
  | LSwap k, Continue =>
    let s' := set_tail k (Some t) s in
    match tails s !! k with
    | None => go t Ready (k :: h) s'
    | Some previous => go t (LMark k previous) h s'
    end
  | LMark k previous, Continue => s' ← set_locked t true s; go t (LLink k previous) h s'
  | LLink k previous, Continue => s' ← set_next previous (Some t) s; go t (LWait k) h s'
  | LWait k, Continue => if locked (qnode_ th) then Some s else go t Ready (k :: h) s
  | UNext k, Continue =>
    match next (qnode_ th) with None => go t (UCas k) h s | Some _ => go t (URelease k) h s end
  | UCas k, Continue =>
    if decide (tails s !! k = Some t)
    then go t Ready (filter (λ j, j ≠ k) h) (set_tail k None s)
    else go t (UWait k) h s
  | UWait k, Continue =>
    match next (qnode_ th) with None => Some s | Some _ => go t (URelease k) h s end
  | URelease k, Continue =>
    match next (qnode_ th) with
    | None => None
    | Some n => s' ← set_locked n false s; go t Ready (filter (λ j, j ≠ k) h) s'
    end
  | _, _ => None
  end.

(** Threads that use one lock at a time. *)
Definition mcs_step1 (l : nat * call) (s : MCS) : option MCS :=
  let '(t, c) := l in
  th ← threads s !! t;
  match c with
  | Lock _ => if decide (held th = []) then mcs_step l s else None
  | _ => mcs_step l s
  end.

#[export] Instance mcs_system : LockSystem (MCS * nat) (nat * call) := {
  lock_start := λ s, ∃ n, s.1 = MCS_init n;
  lock_step := λ l s, s' ← mcs_step1 l s.1; Some (s', s.2);
  holds_lock := λ s t, ∃ th, threads s.1 !! t = Some th ∧ s.2 ∈ held th;
}.

(** ** The queue behind the nodes *)

Definition is_wait (p : pc) : bool := match p with LWait _ => true | _ => false end.

(** Thread [u] has linked itself behind its predecessor. *)
Definition waits (s : MCS) (u : nat) : bool :=
  match threads s !! u with Some th => is_wait (at_ th) | None => false end.

(** What [next] of a thread is when [l] is the queue behind it. *)
Definition succ (s : MCS) (l : list nat) : option nat :=
  match l with u :: _ => if waits s u then Some u else None | [] => None end.

(** The states of a thread outside the queues, at the head of the queue of [k],
    and behind [p] in it. *)
Definition free (th : thread) : Prop :=
  held th = [] ∧ (at_ th = Ready ∨ (∃ k, at_ th = LReset k) ∨
                  ((∃ k, at_ th = LSwap k) ∧ next (qnode_ th) = None)).
Definition holder (k : nat) (th : thread) : Prop :=
  (held th = [k] ∧ (at_ th = Ready ∨ at_ th = UNext k ∨ at_ th = UCas k ∨ at_ th = UWait k ∨
                    (at_ th = URelease k ∧ next (qnode_ th) ≠ None))) ∨
  (held th = [] ∧ at_ th = LWait k ∧ locked (qnode_ th) = false).
Definition waiter (k p : nat) (th : thread) : Prop :=
  held th = [] ∧ (at_ th = LMark k p ∨
    (locked (qnode_ th) = true ∧ (at_ th = LLink k p ∨ at_ th = LWait k))).

Definition placed (Q : nat → list nat) (s : MCS) (t : nat) (th : thread) : Prop :=
  ((∀ k, t ∉ Q k) ∧ free th) ∨
  (∃ k l1 l2, Q k = l1 ++ t :: l2 ∧ next (qnode_ th) = succ s l2 ∧
     match last l1 with None => holder k th | Some p => waiter k p th end).

Record mcs_inv (Q : nat → list nat) (s : MCS) : Prop := {
  mi_tail : ∀ k, tails s !! k = last (Q k);
  mi_nodup : ∀ k, NoDup (Q k);
  mi_one : ∀ k j t, t ∈ Q k → t ∈ Q j → k = j;
  mi_in : ∀ k t, t ∈ Q k → is_Some (threads s !! t);
  mi_placed : ∀ t th, threads s !! t = Some th → placed Q s t th;
}.

Lemma mcs_init_inv n : mcs_inv (λ _, []) (MCS_init n).
Proof.
  split.
  - intros k. apply lookup_empty.
  - intros k. constructor.
  - intros k j t H. by apply elem_of_nil in H.
  - intros k t H. by apply elem_of_nil in H.
  - intros t th [-> _]%lookup_replicate. left. split; [intros; apply not_elem_of_nil|]. split; [done|by left].
Qed.

Lemma waits_set s t th th' :
  threads s !! t = Some th → is_wait (at_ th') = is_wait (at_ th) →
  ∀ u, waits (set_thread t th' s) u = waits s u.
Proof.
  intros Ht Hw u. unfold waits, set_thread. cbn [threads]. destruct (decide (u = t)) as [->|Hne].
  - rewrite list_lookup_insert_eq by (by eapply lookup_lt_Some). by rewrite Ht.
  - by rewrite list_lookup_insert_ne.
Qed.

Lemma succ_ext s s' l : (∀ u, waits s' u = waits s u) → succ s' l = succ s l.
Proof. intros H. destruct l; simpl; [done|]. by rewrite H. Qed.

Lemma placed_ext Q s s' t th : (∀ u, waits s' u = waits s u) → placed Q s t th → placed Q s' t th.
Proof.
  intros H [?|(k & l1 & l2 & ? & Hn & ?)]; [by left|right]. exists k, l1, l2.
  by rewrite (succ_ext _ _ _ H).
Qed.

(** A step of [t] that changes only its own node and place. *)
Lemma inv_local Q s t th th' :
  mcs_inv Q s → threads s !! t = Some th → is_wait (at_ th') = is_wait (at_ th) →
  (placed Q s t th → placed Q s t th') → mcs_inv Q (set_thread t th' s).
Proof.
  intros Hi Ht Hw Hp. pose proof (waits_set s t th th' Ht Hw) as Hws. split.
  - apply (mi_tail _ _ Hi).
  - apply (mi_nodup _ _ Hi).
  - apply (mi_one _ _ Hi).
  - intros k u Hu. cbn. rewrite list_lookup_insert_is_Some. apply (mi_in _ _ Hi _ _ Hu).
  - intros u thu Hu. cbn in Hu. apply (placed_ext Q s); [done|].
    destruct (decide (u = t)) as [->|Hne].
    + rewrite list_lookup_insert_eq in Hu by (by eapply lookup_lt_Some). injection Hu as <-.
      by apply Hp, (mi_placed _ _ Hi).
    + rewrite list_lookup_insert_ne in Hu by done. by apply (mi_placed _ _ Hi).
Qed.

(** Positions in a queue without duplicates. *)
Lemma split_unique (l1 l2 k1 k2 : list nat) t :
  NoDup (l1 ++ t :: l2) → l1 ++ t :: l2 = k1 ++ t :: k2 → l1 = k1 ∧ l2 = k2.
Proof.
  revert k1. induction l1 as [|x l1 IH]; intros [|y k1] Hnd E; simplify_eq/=.
  - done.
  - apply NoDup_cons in Hnd as [Hn _]. destruct Hn. apply elem_of_app. right. left.
  - apply NoDup_cons in Hnd as [Hn _]. destruct Hn. apply elem_of_app. right. left.
  - apply NoDup_cons in Hnd as [_ Hnd]. destruct (IH k1 Hnd) as [-> ->]; done.
Qed.

(** A thread in the queue of [k] is placed there. *)
Lemma placed_in Q s t th k l1 l2 :
  mcs_inv Q s → threads s !! t = Some th → Q k = l1 ++ t :: l2 →
  next (qnode_ th) = succ s l2 ∧ match last l1 with None => holder k th | Some p => waiter k p th end.
Proof.
  intros Hi Ht Hq. assert (Hin : t ∈ Q k) by (rewrite Hq; apply elem_of_app; right; left).
  destruct (mi_placed _ _ Hi _ _ Ht) as [[Hno _]|(k' & l1' & l2' & Hq' & Hn & Hw)].
  { by destruct (Hno k). }
  assert (k' = k) as ->.
  { apply (mi_one _ _ Hi _ _ t); [|done]. rewrite Hq'. apply elem_of_app. right. left. }
  rewrite Hq in Hq'. destruct (split_unique l1 l2 l1' l2' t) as [-> ->]; [|done|done].
  rewrite <-Hq. apply (mi_nodup _ _ Hi).
Qed.

Lemma waits_ne s t th' u : u ≠ t → waits (set_thread t th' s) u = waits s u.
Proof. intros Hne. unfold waits, set_thread. cbn. by rewrite list_lookup_insert_ne. Qed.

Lemma lookup_set s t th th' u thu :
  threads s !! t = Some th → threads (set_thread t th' s) !! u = Some thu →
  (u = t ∧ thu = th') ∨ (u ≠ t ∧ threads s !! u = Some thu).
Proof.
  intros Ht Hu. cbn in Hu. destruct (decide (u = t)) as [->|Hne].
  - rewrite list_lookup_insert_eq in Hu by (by eapply lookup_lt_Some). injection Hu as <-. by left.
  - rewrite list_lookup_insert_ne in Hu by done. by right.
Qed.

(** The head of the queue enters. *)
Lemma inv_enter Q s t th k :
  mcs_inv Q s → threads s !! t = Some th → at_ th = LWait k → locked (qnode_ th) = false →
  mcs_inv Q (set_thread t (mkThread Ready (k :: held th) (qnode_ th)) s).
Proof.
  intros Hi Ht Hat Hl. set (th' := mkThread _ _ _).
  destruct (mi_placed _ _ Hi _ _ Ht) as [[_ Hf]|(k' & l1 & l2 & Hq & Hn & Hp)].
  { unfold free in Hf. rewrite Hat in Hf. naive_solver. }
  assert (l1 = []) as ->.
  { destruct (last l1) as [p|] eqn:E; [|by apply last_None in E].
    destruct Hp as (_ & [Hp|[Hp _]]); congruence. }
  simpl in Hp. assert (Hk : k' = k ∧ held th = []).
  { unfold holder in Hp. rewrite Hat in Hp. naive_solver. }
  destruct Hk as [-> Hh].
  assert (Hsucc : ∀ j l1' v l2', Q j = l1' ++ v :: l2' → succ (set_thread t th' s) l2' = succ s l2').
  { intros j l1' v [|u l2'] Hj; [done|]. simpl. destruct (decide (u = t)) as [->|Hne]; [exfalso|by rewrite waits_ne].
    assert (Htj : t ∈ Q j) by (rewrite Hj; apply elem_of_app; right; right; left).
    assert (j = k) as ->.
    { eapply (mi_one _ _ Hi); [exact Htj|]. rewrite Hq. left. }
    change (v :: t :: l2') with ([v] ++ t :: l2') in Hj. rewrite app_assoc, Hq in Hj. pose proof (mi_nodup _ _ Hi k) as Hnd.
    rewrite Hq in Hnd. destruct (split_unique [] l2 (l1' ++ [v]) l2' t Hnd Hj) as [E _]. by destruct l1'. }
  split; try apply Hi.
  - intros j u Hu. cbn. rewrite list_lookup_insert_is_Some. apply (mi_in _ _ Hi _ _ Hu).
  - intros u thu Hu. destruct (lookup_set _ _ _ _ _ _ Ht Hu) as [[-> ->]|[Hne Hu']].
    + right. exists k, [], l2. rewrite (Hsucc k [] t l2 Hq). split_and!; [done|done|]. left.
      unfold th'. simpl. rewrite Hh. naive_solver.
    + destruct (mi_placed _ _ Hi _ _ Hu') as [?|(j & l1' & l2' & Hj & Hnj & ?)]; [by left|right].
      exists j, l1', l2'. by rewrite (Hsucc _ _ _ _ Hj).
Qed.

(** [t] puts itself at the end of the queue of [k]. *)
Lemma inv_swap Q s t th k :
  mcs_inv Q s → threads s !! t = Some th → at_ th = LSwap k →
  let th' := match last (Q k) with
             | None => mkThread Ready (k :: held th) (qnode_ th)
             | Some p => mkThread (LMark k p) (held th) (qnode_ th)
             end in
  mcs_inv (<[k := Q k ++ [t]]> Q) (set_thread t th' (set_tail k (Some t) s)).
Proof.
  intros Hi Ht Hat th'.
  destruct (mi_placed _ _ Hi _ _ Ht) as [[Hno Hf]|(k' & l1 & l2 & Hq & Hn & Hp)].
  2:{ exfalso. destruct (last l1); unfold holder, waiter in Hp; rewrite Hat in Hp; naive_solver. }
  assert (Hfree : held th = [] ∧ next (qnode_ th) = None).
  { unfold free in Hf. rewrite Hat in Hf. naive_solver. }
  destruct Hfree as [Hh Hnx].
  assert (Hw : is_wait (at_ th') = false) by (unfold th'; by destruct (last (Q k))).
  set (s' := set_thread t th' (set_tail k (Some t) s)).
  assert (Hwt : waits s' t = false).
  { unfold waits, s'. cbn. rewrite list_lookup_insert_eq by (by eapply lookup_lt_Some). done. }
  assert (Hws : ∀ u, u ≠ t → waits s' u = waits s u) by (intros u Hu; unfold s'; by rewrite waits_ne).
  assert (Hwall : ∀ u, waits s' u = waits s u).
  { intros u. destruct (decide (u = t)) as [->|]; [|auto]. rewrite Hwt. unfold waits. by rewrite Ht, Hat. }
  split.
  - intros j. cbn. destruct (decide (j = k)) as [->|Hne].
    + rewrite lookup_insert_eq, fn_lookup_insert, last_snoc. done.
    + rewrite lookup_insert_ne, fn_lookup_insert_ne by done. apply (mi_tail _ _ Hi).
  - intros j. destruct (decide (j = k)) as [->|Hne]; rewrite ?fn_lookup_insert, ?fn_lookup_insert_ne by done;
      [|apply (mi_nodup _ _ Hi)].
    apply NoDup_app. split_and!; [apply (mi_nodup _ _ Hi)| |apply NoDup_singleton].
    intros x Hx ->%list_elem_of_singleton. by destruct (Hno k).
  - assert (Hin : ∀ j u, u ∈ <[k := Q k ++ [t]]> Q j → u ∈ Q j ∨ (j = k ∧ u = t)).
    { intros j u. destruct (decide (j = k)) as [->|Hne]; rewrite ?fn_lookup_insert, ?fn_lookup_insert_ne by done;
        [|by left]. rewrite elem_of_app, list_elem_of_singleton. naive_solver. }
    intros j j' u [Hu|[-> ->]]%Hin [Hu'|[-> E]]%Hin; subst; try done.
    + by eapply (mi_one _ _ Hi).
    + by destruct (Hno j).
    + by destruct (Hno j').
  - intros j u Hu. cbn. rewrite list_lookup_insert_is_Some. destruct (decide (u = t)) as [->|]; [eauto|].
    destruct (decide (j = k)) as [->|Hne]; rewrite ?fn_lookup_insert, ?fn_lookup_insert_ne in Hu by done; [|by eapply (mi_in _ _ Hi)].
    apply elem_of_app in Hu as [Hu|Hu]; [by eapply (mi_in _ _ Hi)|]. by apply list_elem_of_singleton in Hu.
  - intros u thu Hu. destruct (lookup_set (set_tail k (Some t) s) t th th' u thu Ht Hu) as [[-> ->]|[Hne Hu']].
    + right. exists k, (Q k), []. rewrite fn_lookup_insert. unfold th'.
      destruct (last (Q k)) as [p|]; simpl; rewrite ?Hh, ?Hnx; split_and!; try done.
      * split; [done|by left].
      * left. naive_solver.
    + cbn in Hu'. destruct (mi_placed _ _ Hi _ _ Hu') as [[Hno' Hf']|(j & l1' & l2' & Hj & Hnj & Hpj)].
      * left. split; [|done]. intros j. destruct (decide (j = k)) as [->|Hnejk];
          rewrite ?fn_lookup_insert, ?fn_lookup_insert_ne by done; [|apply Hno'].
        intros [?|Hx]%elem_of_app; [by destruct (Hno' k)|]. by apply list_elem_of_singleton in Hx.
      * right. destruct (decide (j = k)) as [->|Hnejk].
        -- exists k, l1', (l2' ++ [t]). rewrite fn_lookup_insert, Hj, <-app_assoc. split_and!; [done| |done].
           rewrite Hnj. destruct l2' as [|x l2']; simpl; [by rewrite Hwt|by rewrite Hwall].
        -- exists j, l1', l2'. rewrite fn_lookup_insert_ne by done. rewrite (succ_ext s s') by done. done.
Qed.

(** [t] links itself behind its predecessor [p]. *)
Lemma inv_link Q s t th k p thp :
  mcs_inv Q s → threads s !! t = Some th → at_ th = LLink k p → threads s !! p = Some thp →
  mcs_inv Q (set_thread t (mkThread (LWait k) (held th) (qnode_ th))
    (set_thread p (mkThread (at_ thp) (held thp) (mkNode (locked (qnode_ thp)) (Some t))) s)).
Proof.
  intros Hi Ht Hat Hp. set (th' := mkThread (LWait k) _ _). set (thp' := mkThread (at_ thp) _ _).
  destruct (mi_placed _ _ Hi _ _ Ht) as [[_ Hf]|(k' & l1 & l2 & Hq & Hn & Hw)].
  { unfold free in Hf. rewrite Hat in Hf. naive_solver. }
  destruct (last l1) as [p'|] eqn:El.
  2:{ unfold holder in Hw. rewrite Hat in Hw. naive_solver. }
  assert (Hk : k' = k ∧ p' = p ∧ held th = [] ∧ locked (qnode_ th) = true).
  { unfold waiter in Hw. rewrite Hat in Hw. naive_solver. }
  destruct Hk as (-> & -> & Hh & Hl). apply last_Some in El as [l0 ->].
  pose proof (mi_nodup _ _ Hi k) as Hnd. rewrite Hq, <-app_assoc in Hnd.
  assert (Hpt : p ≠ t).
  { intros ->. apply NoDup_app in Hnd as (_ & _ & Hnd). apply NoDup_cons in Hnd as [Hnd _]. apply Hnd. left. }
  set (s1 := set_thread p thp' s). set (s' := set_thread t th' s1).
  assert (Ht1 : threads s1 !! t = Some th) by (cbn; by rewrite list_lookup_insert_ne).
  assert (Hwt : waits s' t = true).
  { unfold waits, s'. cbn. rewrite list_lookup_insert_eq; [done|]. rewrite length_insert. by eapply lookup_lt_Some. }
  assert (Hws : ∀ u, u ≠ t → waits s' u = waits s u).
  { intros u Hu. unfold s'. rewrite waits_ne by done. by apply (waits_set s p thp). }
  assert (Hsucc : ∀ j l1' v l2', Q j = l1' ++ v :: l2' → v ≠ p → succ s' l2' = succ s l2').
  { intros j l1' v [|u l2'] Hj Hv; [done|]. simpl. destruct (decide (u = t)) as [->|Hne]; [exfalso|by rewrite Hws].
    assert (j = k) as ->.
    { eapply (mi_one _ _ Hi _ _ t); [rewrite Hj|rewrite Hq]; apply elem_of_app; right; [right|]; left. }
    change (v :: t :: l2') with ([v] ++ t :: l2') in Hj. rewrite app_assoc, Hq in Hj.
    pose proof (mi_nodup _ _ Hi k) as Hnd'. rewrite Hq in Hnd'.
    destruct (split_unique _ _ _ _ _ Hnd' Hj) as [E _]. apply app_inj_tail in E as [_ ->]. done. }
  split; try apply Hi.
  - intros j u Hu. cbn. rewrite !list_lookup_insert_is_Some. apply (mi_in _ _ Hi _ _ Hu).
  - intros u thu Hu. destruct (lookup_set s1 t th th' u thu Ht1 Hu) as [[-> ->]|[Hne Hu']].
    { right. exists k, (l0 ++ [p]), l2. rewrite last_snoc. split_and!; [done| |].
      - rewrite (Hsucc k (l0 ++ [p]) t l2) by done. done.
      - split; [done|]. right. split; [done|by right]. }
    destruct (lookup_set s p thp thp' u thu Hp Hu') as [[-> ->]|[Hnep Hu2]].
    + right. rewrite <-app_assoc in Hq.
      destruct (placed_in Q s p thp k l0 (t :: l2) Hi Hp Hq) as (_ & Hw').
      exists k, l0, (t :: l2). split_and!; [done|simpl; by rewrite Hwt|].
      destruct (last l0); [done|]. destruct Hw' as [[? Hw']|?]; [left|by right].
      split; [done|]. simpl. naive_solver.
    + destruct (mi_placed _ _ Hi _ _ Hu2) as [?|(j & l1' & l2' & Hj & Hnj & ?)]; [by left|right].
      exists j, l1', l2'. by rewrite (Hsucc _ _ _ _ Hj).
Qed.

(** The head of the queue of a thread that holds [k]. *)
Lemma holder_head Q s t th k :
  mcs_inv Q s → threads s !! t = Some th → held th = [k] →
  ∃ l2, Q k = t :: l2 ∧ next (qnode_ th) = succ s l2.
Proof.
  intros Hi Ht Hh. destruct (mi_placed _ _ Hi _ _ Ht) as [[_ [Hf _]]|(k' & l1 & l2 & Hq & Hn & Hw)]; [congruence|].
  destruct (last l1) as [p|] eqn:E.
  { destruct Hw as [Hw _]. congruence. }
  apply last_None in E as ->. unfold holder in Hw. rewrite Hh in Hw.
  destruct Hw as [[[= ->] _]|[? _]]; [|done]. eauto.
Qed.

Lemma elem_queue (Q : nat → list nat) k l j u :
  u ∈ <[k := l]> Q j → (j = k ∧ u ∈ l) ∨ (j ≠ k ∧ u ∈ Q j).
Proof.
  destruct (decide (j = k)) as [->|Hne]; rewrite ?fn_lookup_insert, ?fn_lookup_insert_ne by done; auto.
Qed.

(** The last thread of a queue leaves. *)
Lemma inv_cas Q s t th k :
  mcs_inv Q s → threads s !! t = Some th → held th = [k] → at_ th = UCas k → tails s !! k = Some t →
  mcs_inv (<[k := []]> Q) (set_thread t (mkThread Ready [] (qnode_ th)) (set_tail k None s)).
Proof.
  intros Hi Ht Hh Hat Htl. destruct (holder_head Q s t th k Hi Ht Hh) as (l2 & Hq & Hn).
  assert (l2 = []) as ->.
  { rewrite (mi_tail _ _ Hi), Hq in Htl. pose proof (mi_nodup _ _ Hi k) as Hnd. rewrite Hq in Hnd.
    apply NoDup_cons in Hnd as [Hnd _]. destruct l2 as [|x l2]; [done|]. rewrite last_cons_cons in Htl.
    destruct Hnd. rewrite last_lookup in Htl. by eapply list_elem_of_lookup_2. }
  set (th' := mkThread Ready [] _). set (s' := set_thread t th' (set_tail k None s)).
  assert (Hws : ∀ u, waits s' u = waits s u) by (apply (waits_set (set_tail k None s) t th); [done|by rewrite Hat]).
  assert (Hnot : ∀ j, j ≠ k → t ∉ Q j).
  { intros j Hne Hin. apply Hne. eapply (mi_one _ _ Hi); [exact Hin|]. rewrite Hq. left. }
  split.
  - intros j. cbn. destruct (decide (j = k)) as [->|Hne].
    + by rewrite lookup_delete_eq, fn_lookup_insert.
    + rewrite lookup_delete_ne, fn_lookup_insert_ne by done. apply (mi_tail _ _ Hi).
  - intros j. destruct (decide (j = k)) as [->|Hne]; rewrite ?fn_lookup_insert, ?fn_lookup_insert_ne by done;
      [constructor|apply (mi_nodup _ _ Hi)].
  - intros j j' u [[-> ?%elem_of_nil]|[? ?]]%elem_queue [[-> ?%elem_of_nil]|[? ?]]%elem_queue; try done.
    by eapply (mi_one _ _ Hi).
  - intros j u [[-> ?%elem_of_nil]|[? ?]]%elem_queue; [done|]. cbn. rewrite list_lookup_insert_is_Some.
    by eapply (mi_in _ _ Hi).
  - intros u thu Hu. destruct (lookup_set (set_tail k None s) t th th' u thu Ht Hu) as [[-> ->]|[Hne Hu']].
    + left. split; [|split; [done|by left]]. intros j [[-> ?%elem_of_nil]|[? ?]]%elem_queue; [done|]. by apply (Hnot j).
    + cbn in Hu'. destruct (mi_placed _ _ Hi _ _ Hu') as [[Hno Hf]|(j & l1 & l2 & Hj & Hnj & Hw)].
      * left. split; [|done]. intros j [[-> ?%elem_of_nil]|[? ?]]%elem_queue; [done|]. by apply (Hno j).
      * right. exists j, l1, l2. assert (j ≠ k).
        { intros ->. rewrite Hq in Hj. destruct l1 as [|? [|]]; simplify_eq/=. }
        rewrite fn_lookup_insert_ne by done. by rewrite (succ_ext s s').
Qed.

(** The head of a queue hands the lock to the thread [n] behind it. *)
Lemma inv_release Q s t th k n thn :
  mcs_inv Q s → threads s !! t = Some th → held th = [k] → at_ th = URelease k →
  next (qnode_ th) = Some n → threads s !! n = Some thn →
  mcs_inv (<[k := drop 1 (Q k)]> Q) (set_thread t (mkThread Ready [] (qnode_ th))
    (set_thread n (mkThread (at_ thn) (held thn) (mkNode false (next (qnode_ thn)))) s)).
Proof.
  intros Hi Ht Hh Hat Hnx Htn. destruct (holder_head Q s t th k Hi Ht Hh) as (l2 & Hq & Hn).
  rewrite Hnx in Hn. destruct l2 as [|x l3]; [done|]. simpl in Hn. destruct (waits s x) eqn:Ewx; [|done].
  injection Hn as <-. unfold waits in Ewx. rewrite Htn in Ewx.
  pose proof (mi_nodup _ _ Hi k) as Hnd. rewrite Hq in Hnd. apply NoDup_cons in Hnd as [Htl Hnd].
  assert (Hnt : n ≠ t) by (intros ->; apply Htl; left).
  destruct (placed_in Q s n thn k [t] l3 Hi Htn Hq) as (Hnn & Hwn). simpl in Hwn.
  assert (Hwait : held thn = [] ∧ at_ thn = LWait k).
  { destruct Hwn as (Hhn & [E|[_ [E|E]]]); rewrite E in Ewx; done. }
  destruct Hwait as [Hhn Hatn].
  set (th' := mkThread Ready [] _). set (thn' := mkThread (at_ thn) _ _).
  set (s1 := set_thread n thn' s). set (s' := set_thread t th' s1).
  assert (Ht1 : threads s1 !! t = Some th) by (cbn; by rewrite list_lookup_insert_ne).
  assert (Hws : ∀ u, waits s' u = waits s u).
  { intros u. unfold s'. rewrite (waits_set s1 t th) by (done || by rewrite Hat). by apply (waits_set s n thn). }
  assert (Hnot : ∀ j, j ≠ k → t ∉ Q j).
  { intros j Hne Hin. apply Hne. eapply (mi_one _ _ Hi); [exact Hin|]. rewrite Hq. left. }
  assert (Hdrop : drop 1 (Q k) = n :: l3) by by rewrite Hq.
  rewrite Hdrop.
  assert (Hsub : ∀ j u, u ∈ <[k := n :: l3]> Q j → u ∈ Q j).
  { intros j u [[-> Hu]|[_ Hu]]%elem_queue; [rewrite Hq; by right|done]. }
  split.
  - intros j. cbn. destruct (decide (j = k)) as [->|Hne].
    + rewrite fn_lookup_insert, (mi_tail _ _ Hi), Hq. by rewrite last_cons_cons.
    + rewrite fn_lookup_insert_ne by done. apply (mi_tail _ _ Hi).
  - intros j. destruct (decide (j = k)) as [->|Hne]; rewrite ?fn_lookup_insert, ?fn_lookup_insert_ne by done;
      [done|apply (mi_nodup _ _ Hi)].
  - intros j j' u Hu%Hsub Hu'%Hsub. by eapply (mi_one _ _ Hi).
  - intros j u Hu%Hsub. cbn. rewrite !list_lookup_insert_is_Some. by eapply (mi_in _ _ Hi).
  - intros u thu Hu. destruct (lookup_set s1 t th th' u thu Ht1 Hu) as [[-> ->]|[Hne Hu']].
    { left. split; [|split; [done|by left]]. intros j [[-> Hj]|[? ?]]%elem_queue; [done|]. by apply (Hnot j). }
    destruct (lookup_set s n thn thn' u thu Htn Hu') as [[-> ->]|[Hnen Hu2]].
    + right. exists k, [], l3. rewrite fn_lookup_insert, (succ_ext s s') by done. split_and!; [done|done|].
      right. done.
    + destruct (mi_placed _ _ Hi _ _ Hu2) as [[Hno Hf]|(j & l1 & l2 & Hj & Hnj & Hw)].
      * left. split; [|done]. intros j Hj%Hsub. by apply (Hno j).
      * right. destruct (decide (j = k)) as [->|Hnejk].
        -- rewrite Hq in Hj. destruct l1 as [|y [|z l1]]; simplify_eq/=.
           exists k, (z :: l1), l2. rewrite fn_lookup_insert, (succ_ext s s') by done.
           split_and!; [done|done|exact Hw].
        -- exists j, l1, l2. rewrite fn_lookup_insert_ne by done. by rewrite (succ_ext s s').
Qed.

(** A step of [t] that leaves its queue and its [next] as they are. *)
Lemma inv_move Q s t th th' :
  mcs_inv Q s → threads s !! t = Some th → is_wait (at_ th') = is_wait (at_ th) →
  next (qnode_ th') = next (qnode_ th) → (free th → free th') → (∀ k, holder k th → holder k th') →
  (∀ k p, waiter k p th → waiter k p th') → mcs_inv Q (set_thread t th' s).
Proof.
  intros Hi Ht Hw Hn Hf Hh Hwt. eapply inv_local; [done|done|done|].
  intros [[Hno Hf']|(k & l1 & l2 & Hq & Hn' & Hp)]; [left; auto|right].
  exists k, l1, l2. split_and!; [done|congruence|]. destruct (last l1); auto.
Qed.

Lemma role_of Q s t th :
  mcs_inv Q s → threads s !! t = Some th →
  free th ∨ (∃ k, holder k th) ∨ (∃ k p, waiter k p th).
Proof.
  intros Hi Ht. destruct (mi_placed _ _ Hi _ _ Ht) as [[_ ?]|(k & l1 & l2 & _ & _ & Hw)]; [by left|right].
  destruct (last l1); [right|left]; eauto.
Qed.

(** The role of a thread from where it is. *)
Lemma role_lock Q s t th k :
  mcs_inv Q s → threads s !! t = Some th → k ∈ held th → held th = [k].
Proof.
  intros Hi Ht Hk. destruct (role_of Q s t th Hi Ht) as [[E _]|[(j & [[E _]|[E _]])|(j & p & [E _])]];
    rewrite E in Hk; try by apply elem_of_nil in Hk.
  apply list_elem_of_singleton in Hk as ->. done.
Qed.

Lemma role_unlock Q s t th k :
  mcs_inv Q s → threads s !! t = Some th →
  at_ th = UNext k ∨ at_ th = UCas k ∨ at_ th = UWait k ∨ at_ th = URelease k → held th = [k].
Proof.
  intros Hi Ht Hat. destruct (role_of Q s t th Hi Ht) as [(_ & Hf)|[(j & [[E Hf]|(_ & Hf & _)])|(j & p & (_ & Hf))]].
  - destruct Hf as [E|[[? E]|[[? E] _]]]; rewrite E in Hat; naive_solver.
  - rewrite E. destruct Hf as [E'|[E'|[E'|[E'|[E' _]]]]]; rewrite E' in Hat; naive_solver.
  - rewrite Hf in Hat. naive_solver.
  - destruct Hf as [E|[_ [E|E]]]; rewrite E in Hat; naive_solver.
Qed.

(** Only the place of [t] changes, and [t] is the holder of [k] before and after. *)
Lemma inv_hold Q s t th k p :
  mcs_inv Q s → threads s !! t = Some th → held th = [k] →
  p = UNext k ∨ p = UCas k ∨ p = UWait k ∨ (p = URelease k ∧ next (qnode_ th) ≠ None) →
  mcs_inv Q (set_thread t (mkThread p [k] (qnode_ th)) s).
Proof.
  intros Hi Ht Hh Hp.
  assert (Hw1 : is_wait p = false) by (destruct Hp as [->|[->|[->|[-> _]]]]; done).
  assert (Hw2 : is_wait (at_ th) = false).
  { destruct (role_of Q s t th Hi Ht) as [[E _]|[(j & [[_ E]|[E _]])|(j & q & [E _])]]; try congruence.
    destruct E as [E|[E|[E|[E|[E _]]]]]; by rewrite E. }
  eapply inv_local; [done|done|by rewrite Hw2|].
  destruct (holder_head Q s t th k Hi Ht Hh) as (l2 & Hq & Hn). intros _. right. exists k, [], l2.
  split_and!; [done|done|]. left. split; [done|]. simpl. naive_solver.
Qed.

(** The predecessor and the successor of a thread are other threads. *)
Lemma link_other Q s t th k p :
  mcs_inv Q s → threads s !! t = Some th → at_ th = LLink k p → p ≠ t.
Proof.
  intros Hi Ht Hat ->. destruct (mi_placed _ _ Hi _ _ Ht) as [[_ [_ Hf]]|(k' & l1 & l2 & Hq & _ & Hw)].
  { rewrite Hat in Hf. naive_solver. }
  destruct (last l1) as [p|] eqn:El; [|unfold holder in Hw; rewrite Hat in Hw; naive_solver].
  assert (p = t) as -> by (unfold waiter in Hw; rewrite Hat in Hw; naive_solver).
  pose proof (mi_nodup _ _ Hi k') as Hnd. rewrite Hq in Hnd. apply NoDup_app in Hnd as (_ & Hnd & _).
  rewrite last_lookup in El. apply (Hnd t); [by eapply list_elem_of_lookup_2|left].
Qed.

Lemma next_other Q s t th k n :
  mcs_inv Q s → threads s !! t = Some th → held th = [k] → next (qnode_ th) = Some n → n ≠ t.
Proof.
  intros Hi Ht Hh Hn ->. destruct (holder_head Q s t th k Hi Ht Hh) as ([|x l2] & Hq & E); rewrite Hn in E; [done|].
  simpl in E. destruct (waits s x); [|done]. injection E as <-.
  pose proof (mi_nodup _ _ Hi k) as Hnd. rewrite Hq in Hnd. apply NoDup_cons in Hnd as [Hnd _]. apply Hnd. left.
Qed.

Section steps.
Context (Q : nat → list nat) (s : MCS) (t : nat) (th : thread) (s' : MCS).
Context (Hi : mcs_inv Q s) (Ht : threads s !! t = Some th).

Lemma go_here p h : go t p h s = Some (set_thread t (mkThread p h (qnode_ th)) s).
Proof. unfold go. by rewrite Ht. Qed.

Lemma go_set th1 p h : go t p h (set_thread t th1 s) = Some (set_thread t (mkThread p h (qnode_ th1)) s).
Proof.
  unfold go, set_thread. cbn. rewrite list_lookup_insert_eq by (by eapply lookup_lt_Some).
  cbn. by rewrite list_insert_insert_eq.
Qed.

Lemma go_other u th1 p h : u ≠ t →
  go t p h (set_thread u th1 s) = Some (set_thread t (mkThread p h (qnode_ th)) (set_thread u th1 s)).
Proof. intros Hu. unfold go. cbn. rewrite list_lookup_insert_ne by done. by rewrite Ht. Qed.

Lemma go_tail k v p h :
  go t p h (set_tail k v s) = Some (set_thread t (mkThread p h (qnode_ th)) (set_tail k v s)).
Proof. unfold go. cbn. by rewrite Ht. Qed.

(** The steps of [lock()]. *)
Lemma step_lock k :
  at_ th = LReset k ∨ at_ th = LSwap k ∨ (∃ p, at_ th = LMark k p) ∨ (∃ p, at_ th = LLink k p) ∨ at_ th = LWait k →
  mcs_step (t, Continue) s = Some s' → ∃ Q', mcs_inv Q' s'.
Proof.
  intros Hcase Hs. unfold mcs_step in Hs. rewrite Ht in Hs. cbn in Hs.
  destruct Hcase as [Hat|[Hat|[[p Hat]|[[p Hat]|Hat]]]]; rewrite Hat in Hs.
  - unfold set_next in Hs. rewrite Ht in Hs. cbn in Hs. rewrite go_set in Hs. injection Hs as <-.
    exists Q. eapply inv_local; [done|done|by rewrite Hat|].
    intros [[Hno [Hh _]]|(k' & l1 & l2 & Hq & Hn & Hw)].
    + left. split; [done|]. split; [done|]. right; right. eauto.
    + exfalso. destruct (last l1); unfold holder, waiter in Hw; rewrite Hat in Hw; naive_solver.
  - pose proof (inv_swap Q s t th k Hi Ht Hat) as Hsw. rewrite (mi_tail _ _ Hi) in Hs.
    exists (<[k := Q k ++ [t]]> Q).
    destruct (last (Q k)); rewrite go_tail in Hs; injection Hs as <-; exact Hsw.
  - unfold set_locked in Hs. rewrite Ht in Hs. cbn in Hs. rewrite go_set in Hs. injection Hs as <-.
    exists Q. eapply inv_local; [done|done|by rewrite Hat|].
    intros [[Hno [Hh Hf]]|(k' & l1 & l2 & Hq & Hn & Hw)].
    + exfalso. rewrite Hat in Hf. naive_solver.
    + right. exists k', l1, l2. split_and!; [done|done|].
      destruct (last l1); unfold holder, waiter in *; rewrite Hat in Hw; cbn; naive_solver.
  - unfold set_next in Hs. destruct (threads s !! p) as [thp|] eqn:Hp; [|done]. cbn in Hs.
    rewrite go_other in Hs by (by eapply link_other). injection Hs as <-. exists Q. by apply inv_link.
  - destruct (locked (qnode_ th)) eqn:El; [injection Hs as <-; eauto|].
    rewrite go_here in Hs. injection Hs as <-. exists Q. by apply inv_enter.
Qed.

(** The steps of [unlock()]. *)
Lemma step_unlock k :
  at_ th = UNext k ∨ at_ th = UCas k ∨ at_ th = UWait k ∨ at_ th = URelease k →
  mcs_step (t, Continue) s = Some s' → ∃ Q', mcs_inv Q' s'.
Proof.
  intros Hcase Hs. pose proof (role_unlock Q s t th k Hi Ht Hcase) as Hh.
  unfold mcs_step in Hs. rewrite Ht in Hs. cbn in Hs.
  destruct Hcase as [Hat|[Hat|[Hat|Hat]]]; rewrite Hat, Hh in Hs.
  - destruct (next (qnode_ th)) eqn:En; rewrite go_here in Hs; injection Hs as <-; exists Q;
      apply inv_hold; auto. naive_solver.
  - case_decide.
    + rewrite go_tail, filter_cons, decide_False in Hs by naive_solver. injection Hs as <-.
      eexists. by apply inv_cas.
    + rewrite go_here in Hs. injection Hs as <-. exists Q. apply inv_hold; auto.
  - destruct (next (qnode_ th)) eqn:En; [|injection Hs as <-; eauto].
    rewrite go_here in Hs. injection Hs as <-. exists Q. apply inv_hold; auto. naive_solver.
  - destruct (next (qnode_ th)) as [n|] eqn:En; [|done]. unfold set_locked in Hs.
    destruct (threads s !! n) as [thn|] eqn:Htn; [|done]. cbn in Hs.
    rewrite (decide_False (P := k ≠ k)), go_other in Hs; [|by eapply next_other|naive_solver].
    injection Hs as <-. eexists. by apply inv_release.
Qed.
End steps.

(** Every step of a disciplined thread keeps the queues. *)
Lemma mcs_inv_step Q l s s' : mcs_inv Q s → mcs_step1 l s = Some s' → ∃ Q', mcs_inv Q' s'.
Proof.
  intros Hi. destruct l as [t c]. unfold mcs_step1. destruct (threads s !! t) as [th|] eqn:Ht; [|done]. cbn.
  intros Hs. assert (Hs1 : mcs_step (t, c) s = Some s' ∧ (∀ k, c = Lock k → held th = [])).
  { destruct c; [case_decide; [|done]|..]; split; try done; congruence. }
  clear Hs. destruct Hs1 as [Hs Hlock].
  destruct (at_ th) as [|k|k|k p|k p|k|k|k|k|k] eqn:Hat; destruct c as [j|j|];
    try (unfold mcs_step in Hs; rewrite Ht in Hs; cbn in Hs; by rewrite Hat in Hs).
  3-7: eapply (step_lock Q s t th s' Hi Ht k); [|exact Hs]; naive_solver.
  3-6: eapply (step_unlock Q s t th s' Hi Ht k); [|exact Hs]; naive_solver.
  - unfold mcs_step in Hs. rewrite Ht in Hs. cbn in Hs. rewrite Hat, (go_here s t th Ht) in Hs. injection Hs as <-.
    specialize (Hlock j eq_refl). exists Q. eapply inv_local; [done|done|by rewrite Hat|].
    intros [[Hno _]|(k' & l1 & l2 & Hq & Hn & Hw)].
    + left. split; [done|]. split; [done|]. right; left. eauto.
    + exfalso. destruct (last l1); unfold holder, waiter in Hw; rewrite Hat, Hlock in Hw; naive_solver.
  - unfold mcs_step in Hs. rewrite Ht in Hs. cbn in Hs. rewrite Hat in Hs. case_decide as Hj; [|done].
    rewrite (go_here s t th Ht) in Hs. injection Hs as <-. exists Q.
    rewrite (role_lock Q s t th j Hi Ht Hj). apply inv_hold; auto. by eapply role_lock.
Qed.

Lemma mcs_reachable n s k s' :
  reachable (S := MCS * nat) lock_step (MCS_init n, k) (s, s') → s' = k ∧ ∃ Q, mcs_inv Q s.
Proof.
  intros Hr. change ((λ x : MCS * nat, x.2 = k ∧ ∃ Q, mcs_inv Q x.1) (s, s')).
  eapply invariant_reachable; [..|exact Hr]; [split; [done|]; exists (λ _, []); apply mcs_init_inv|].
  intros l x x' (<- & Q & Hi) Hs. cbn in Hs. destruct (mcs_step1 l x.1) as [y|] eqn:E; [|done].
  injection Hs as <-. split; [done|]. by eapply mcs_inv_step.
Qed.

(** C30: mutual exclusion of every queueing lock: when threads use one lock at a
    time, at most one thread holds it, in every interleaving. *)
Theorem mcs_exclusion : MutualExclusion (MCS * nat) (nat * call).
Proof.
  intros [s0 k0] [s k] t u [n E] Hr (tht & Ht & Hkt) (thu & Hu & Hku). cbn in *. subst s0.
  destruct (mcs_reachable n s k0 k Hr) as (-> & Q & Hi).
  pose proof (role_lock _ _ _ _ _ Hi Ht Hkt) as Et. pose proof (role_lock _ _ _ _ _ Hi Hu Hku) as Eu.
  destruct (holder_head Q s t tht k0 Hi Ht Et) as (l & Hq & _).
  destruct (holder_head Q s u thu k0 Hi Hu Eu) as (l' & Hq' & _). congruence.
Qed.

(** a thread that holds one lock and uses another loses its successor:
    [qnode_] is shared by all locks, and [lock()] of the second resets the link
    that a waiter of the first has made.  The thread then waits for that link
    for ever in [unlock()], and the waiter for the lock. *)
Theorem mcs_nested_stuck :
  ∃ ls s, run mcs_step ls (MCS_init 2) = Some s ∧
    (∀ ks, Forall (λ l, l.2 = Continue) ks → run mcs_step ks s = None ∨ run mcs_step ks s = Some s) ∧
    (∃ th0 th1, threads s !! 0%nat = Some th0 ∧ threads s !! 1%nat = Some th1 ∧
       at_ th0 = UWait 0 ∧ at_ th1 = LWait 0).
Proof.
  set (go0 := (0%nat, Continue)). set (go1 := (1%nat, Continue)).
  set (ls := [(0%nat, Lock 0); go0; go0;
              (1%nat, Lock 0); go1; go1; go1; go1;
              (0%nat, Lock 1); go0; go0; (0%nat, Unlock 1); go0; go0;
              (0%nat, Unlock 0); go0; go0]).
  set (s := mkMCS {[0%nat := 1%nat]} [mkThread (UWait 0) [0%nat] (mkNode true None);
                                 mkThread (LWait 0) [] (mkNode true None)]).
  exists ls, s. split; [vm_compute; reflexivity|]. split.
  - intros ks Hks. induction Hks as [|[t c] ks Hc _ IH]; [by right|]. simpl in Hc. subst c. cbn [run].
    destruct t as [|[|t]]; [exact IH|exact IH|by left].
  - do 2 eexists. split_and!; reflexivity.
Qed.
