(* ===== verification/Barrier.v ===== *)
(** * The barrier ([thread_barrier.hpp])

    Two semaphores protect one counter, first while threads arrive and then
    while they depart.  Each access to a semaphore or to the counter is one
    action.  The two totals at the end of the state are ghosts: arrivals and
    departures counted so far. *)

From S2P Require Import Prelude Threads.
From stdpp Require Import base numbers list gmap sorting relations.
Open Scope Z_scope.

(** Where a thread is in [wait()]. *)
Inductive pc : Type :=
| Out                (* not in wait() *)
| AWait              (* sem_wait(arrival_) *)
| AInc               (* counter_ += 1 *)
| APost              (* if (counter_ < num_participants_) sem_post ... *)
| DWait              (* sem_wait(departure_) *)
| DDec               (* counter_ -= 1 *)
| DPost.             (* if (counter_ > 0) sem_post ... *)

Record Barrier : Type := mkBarrier {
  arrival_ : Z;
  departure_ : Z;
  num_participants_ : Z;
  counter_ : Z;
  pcs : list pc;
  arrivals : Z;
  departures : Z;
}.

(** [Barrier(num_participants)], used by [n] threads. *)
Definition Barrier_init (num_participants : Z) (n : nat) : Barrier :=
  mkBarrier 1 0 num_participants 0 (replicate n Out) 0 0.

Definition move (t : nat) (p : pc) (da dd dc ga gd : Z) (b : Barrier) : option Barrier :=
  Some (mkBarrier (arrival_ b + da) (departure_ b + dd) (num_participants_ b) (counter_ b + dc)
          (<[t := p]> (pcs b)) (arrivals b + ga) (departures b + gd)).

(** The next action of thread [t] in [wait()]; [sem_wait] blocks at 0. *)
Definition barrier_step (t : nat) (b : Barrier) : option Barrier :=
  p ← pcs b !! t;
  match p with
  | Out => move t AWait 0 0 0 0 0 b
  | AWait => if 0 <? arrival_ b then move t AInc (-1) 0 0 0 0 b else None
  | AInc => move t APost 0 0 1 1 0 b
  | APost =>
    if counter_ b <? num_participants_ b then move t DWait 1 0 0 0 0 b
    else move t DWait 0 1 0 0 0 b
  | DWait => if 0 <? departure_ b then move t DDec 0 (-1) 0 0 0 b else None
  | DDec => move t DPost 0 0 (-1) 0 1 b
  | DPost =>
    if 0 <? counter_ b then move t Out 0 1 0 0 0 b
    else move t Out 1 0 0 0 0 b
  end.

(** ** The phases *)

Definition is_ainc (p : pc) : bool := match p with AInc => true | _ => false end.
Definition is_apost (p : pc) : bool := match p with APost => true | _ => false end.
Definition is_ddec (p : pc) : bool := match p with DDec => true | _ => false end.
Definition is_dpost (p : pc) : bool := match p with DPost => true | _ => false end.
Definition is_dwait (p : pc) : bool := match p with DWait => true | _ => false end.
Definition inside (p : pc) : bool := match p with Out => false | _ => true end.

(** One token goes around: it is in one of the semaphores or with one thread.
    In the arrival phase the round number is [k] and no thread of the round
    has departed; in the departure phase all [n] have arrived. *)
Record binv (b : Barrier) : Prop := {
  bi_pos : 0 < num_participants_ b;
  bi_sems : 0 ≤ arrival_ b ∧ 0 ≤ departure_ b;
  bi_token : arrival_ b + departure_ b + count_if is_ainc (pcs b) + count_if is_apost (pcs b) +
    count_if is_ddec (pcs b) + count_if is_dpost (pcs b) = 1;
  bi_count : counter_ b = arrivals b - departures b;
  bi_in : counter_ b = count_if is_apost (pcs b) + count_if is_dwait (pcs b) + count_if is_ddec (pcs b);
  bi_phase : ∃ k, 0 ≤ k ∧
    (departures b = k * num_participants_ b ∧ departure_ b = 0 ∧
       count_if is_ddec (pcs b) = 0 ∧ count_if is_dpost (pcs b) = 0 ∧
       (arrival_ b + count_if is_ainc (pcs b) = 1 ∧ 0 ≤ counter_ b < num_participants_ b ∨
        count_if is_apost (pcs b) = 1 ∧ 0 < counter_ b ≤ num_participants_ b) ∨
     arrivals b = (k + 1) * num_participants_ b ∧ arrival_ b = 0 ∧
       count_if is_ainc (pcs b) = 0 ∧ count_if is_apost (pcs b) = 0 ∧
       (departure_ b + count_if is_ddec (pcs b) = 1 ∧ 0 < counter_ b ≤ num_participants_ b ∨
        count_if is_dpost (pcs b) = 1 ∧ 0 ≤ counter_ b < num_participants_ b));
}.

Lemma barrier_init_inv np n : 0 < np → binv (Barrier_init np n).
Proof.
  intros Hn. split; simpl; rewrite ?count_if_replicate by done; try lia.
  exists 0. lia.
Qed.

(** Rewrites the fields of the next state and leaves the rest to [lia]. *)
Local Ltac binv_solve k :=
  match goal with H : _ ∧ _ ∧ _ ∧ _ ∧ _ ∧ _ ∧ (∀ f, _) |- _ =>
    destruct H as (E1 & E2 & E3 & E4 & E5 & E6 & E7);
    split; rewrite ?E1, ?E2, ?E3, ?E4, ?E5, ?E6, ?E7; cbn; [lia|lia|lia|lia|lia|];
    exists k; rewrite ?E1, ?E2, ?E3, ?E4, ?E5, ?E6, ?E7; cbn; lia
  end.

Lemma barrier_inv_step t b b' : binv b → barrier_step t b = Some b' → binv b'.
Proof.
  intros [Hpos [Hs1 Hs2] Htok Hcnt Hin (k & Hk & Hph)] Hs. unfold barrier_step in Hs.
  destruct (pcs b !! t) as [p|] eqn:Hp; [|done]. cbn in Hs.
  pose proof (count_if_nonneg is_ainc (pcs b)). pose proof (count_if_nonneg is_apost (pcs b)).
  pose proof (count_if_nonneg is_ddec (pcs b)). pose proof (count_if_nonneg is_dpost (pcs b)).
  pose proof (count_if_nonneg is_dwait (pcs b)).
  pose proof (count_if_pos is_ainc (pcs b) t p Hp) as P1. pose proof (count_if_pos is_apost (pcs b) t p Hp) as P2.
  pose proof (count_if_pos is_ddec (pcs b) t p Hp) as P3. pose proof (count_if_pos is_dpost (pcs b) t p Hp) as P4.
  pose proof (count_if_pos is_dwait (pcs b) t p Hp) as P5.
  assert (Hdone : ∀ q da dd dc ga gd, move t q da dd dc ga gd b = Some b' →
    arrival_ b' = arrival_ b + da ∧ departure_ b' = departure_ b + dd ∧ counter_ b' = counter_ b + dc ∧
    num_participants_ b' = num_participants_ b ∧ arrivals b' = arrivals b + ga ∧ departures b' = departures b + gd ∧
    (∀ f, count_if f (pcs b') = count_if f (pcs b) - Z.b2z (f p) + Z.b2z (f q))).
  { intros q da dd dc ga gd [= <-]. split_and!; try done. intros f. by apply count_if_insert. }
  assert (Hk1 : (k + 1) * num_participants_ b = k * num_participants_ b + num_participants_ b) by lia.
  assert (Hk2 : (k + 1 + 1) * num_participants_ b = k * num_participants_ b + 2 * num_participants_ b) by lia.
  destruct p; cbn in P1, P2, P3, P4, P5, Hs; try case_match; try done; apply Hdone in Hs;
    clear Hdone; try specialize (P1 eq_refl); try specialize (P2 eq_refl);
    try specialize (P3 eq_refl); try specialize (P4 eq_refl); try specialize (P5 eq_refl).
  all: first [binv_solve k | binv_solve (k + 1)].
Qed.

Lemma barrier_reachable_inv np n b : 0 < np → reachable barrier_step (Barrier_init np n) b → binv b.
Proof. intros Hn. apply invariant_reachable; [by apply barrier_init_inv|eauto using barrier_inv_step]. Qed.

Lemma barrier_np t b b' : barrier_step t b = Some b' → num_participants_ b' = num_participants_ b.
Proof. unfold barrier_step, move. intros Hs. destruct (pcs b !! t) as [p|]; [|done]. cbn in Hs. by destruct p; repeat case_match; simplify_eq. Qed.

(** C24: The barrier holds threads back.  After any interleaving of any number
    of threads that call [wait()] on a barrier of [np] participants, the threads
    that have passed belong to rounds of which all [np] threads have arrived,
    and no thread of the next round arrives before the last one has passed. *)
Theorem barrier_safety np n b :
  0 < np → reachable barrier_step (Barrier_init np n) b →
  departures b ≤ np * (arrivals b / np) ∧ arrivals b ≤ np * (departures b / np + 1).
Proof.
  intros Hn Hr. pose proof (barrier_reachable_inv np n b Hn Hr) as [Hpos Hs Htok Hcnt Hin (k & Hk & Hph)].
  assert (num_participants_ b = np) as E.
  { revert b Hr Hpos Hs Htok Hcnt Hin Hph. intros b Hr _ _ _ _ _ _. revert b Hr. apply invariant_reachable; [done|].
    intros t b b' <- Hst. by apply barrier_np in Hst. }
  rewrite E in *.
  assert (∀ x y, y * np ≤ x → y ≤ x / np) as Hle by (intros; apply Z.div_le_lower_bound; lia).
  destruct Hph as [(Ed & _ & _ & _ & Hc)|(Ea & _ & _ & _ & Hc)].
  - pose proof (Hle (arrivals b) k ltac:(lia)). pose proof (Hle (departures b) k ltac:(lia)). nia.
  - pose proof (Hle (arrivals b) (k + 1) ltac:(lia)). pose proof (Hle (departures b) k ltac:(lia)). nia.
Qed.

(** Two threads have arrived and the first one passes. *)
Definition two_arrive : list nat := [0; 0; 0; 0; 1; 1; 1; 1; 0; 0]%nat.

Lemma barrier_safety_witness :
  let b := mkBarrier 0 0 2 1 [DPost; DWait] 2 1 in
  0 < 2 ∧ reachable barrier_step (Barrier_init 2 2) b ∧
  departures b ≤ 2 * (arrivals b / 2) ∧ arrivals b ≤ 2 * (departures b / 2 + 1).
Proof.
  intros b. assert (Hr : reachable barrier_step (Barrier_init 2 2) b).
  { exists two_arrive. vm_compute. reflexivity. }
  split; [lia|]. split; [exact Hr|]. apply (barrier_safety 2 2 b); [lia|exact Hr].
Defined.

(** ** One round

    [np] threads call [wait()] once; a thread that has returned does not call
    it again. *)
Definition round_step (t : nat) (b : Barrier) : option Barrier :=
  p ← pcs b !! t; if inside p then barrier_step t b else None.

Definition round_start (np : nat) : Barrier := mkBarrier 1 0 (Z.of_nat np) 0 (replicate np AWait) 0 0.

Definition is_await (p : pc) : bool := match p with AWait => true | _ => false end.

(** The actions a thread still has to do. *)
Definition todo (p : pc) : Z :=
  match p with
  | Out => 0 | AWait => 6 | AInc => 5 | APost => 4 | DWait => 3 | DDec => 2 | DPost => 1
  end.

Definition passed (p : pc) : bool := match p with Out | DPost => true | _ => false end.

Record rinv (np : nat) (b : Barrier) : Prop := {
  ri_inv : binv b;
  ri_np : num_participants_ b = Z.of_nat np;
  ri_len : length (pcs b) = np;
  ri_passed : departures b = count_if passed (pcs b);
}.

Lemma round_start_inv np : (0 < np)%nat → rinv np (round_start np).
Proof.
  intros Hn. split; [|done|cbn; by rewrite length_replicate|].
  - split; simpl; rewrite ?count_if_replicate by done; try lia. exists 0. lia.
  - simpl. by rewrite count_if_replicate.
Qed.

Lemma round_step_inv np t b b' : rinv np b → round_step t b = Some b' → rinv np b'.
Proof.
  intros [Hi Hnp Hl Hpass] Hs. unfold round_step in Hs. destruct (pcs b !! t) as [p|] eqn:Hp; [|done]. cbn in Hs.
  destruct (inside p) eqn:Hin; [|done].
  split; [by eapply barrier_inv_step|by rewrite (barrier_np _ _ _ Hs)| |];
    unfold barrier_step, move in Hs; rewrite Hp in Hs; cbn in Hs;
    destruct p; cbn in Hs; repeat case_match; simplify_eq/=; rewrite ?length_insert; try done;
    erewrite count_if_insert by done; cbn; lia.
Qed.

(** Each action brings the round nearer to its end. *)
Lemma round_step_todo t b b' :
  round_step t b = Some b' → zsum (todo <$> pcs b') = zsum (todo <$> pcs b) - 1.
Proof.
  unfold round_step, barrier_step, move. destruct (pcs b !! t) as [p|] eqn:Hp; [|done]. cbn. intros Hs.
  destruct p; cbn in Hs; repeat case_match; simplify_eq/=; erewrite zsum_insert by done; cbn; lia.
Qed.

Lemma round_can t b p : pcs b !! t = Some p →
  (inside p && match p with AWait => 0 <? arrival_ b | DWait => 0 <? departure_ b | _ => true end) = true →
  is_Some (round_step t b).
Proof.
  intros Hp Hc. unfold round_step, barrier_step, move. rewrite Hp. cbn.
  destruct p; cbn in *; rewrite ?Hc; try done; repeat case_match; done.
Qed.

Lemma count_split (l : list pc) :
  Z.of_nat (length l) = count_if passed l + count_if is_await l + count_if is_ainc l + count_if is_apost l +
    count_if is_dwait l + count_if is_ddec l.
Proof. induction l as [|p l IH]; [done|]. cbn [length]. rewrite !count_if_cons. destruct p; cbn; lia. Qed.

Lemma count_inside (l : list pc) :
  count_if passed l + count_if inside l = Z.of_nat (length l) + count_if is_dpost l.
Proof. induction l as [|p l IH]; [done|]. cbn [length]. rewrite !count_if_cons. destruct p; cbn; lia. Qed.

(** While a thread is inside, some thread can go on. *)
Lemma round_progress np b :
  (0 < np)%nat → rinv np b → 0 < count_if inside (pcs b) → ∃ t, is_Some (round_step t b).
Proof.
  intros Hn [[Hpos [Hs1 Hs2] Htok Hcnt Hin (k & Hk & Hph)] Hnp Hl Hpass] Hins.
  pose proof (count_split (pcs b)) as Hsp.
  pose proof (count_if_nonneg is_ainc (pcs b)). pose proof (count_if_nonneg is_apost (pcs b)).
  pose proof (count_if_nonneg is_ddec (pcs b)). pose proof (count_if_nonneg is_dpost (pcs b)).
  pose proof (count_if_nonneg is_dwait (pcs b)). pose proof (count_if_nonneg is_await (pcs b)).
  pose proof (count_if_nonneg passed (pcs b)).
  assert (Hw : ∀ f, 0 < count_if f (pcs b) →
    (∀ p, f p = true → (inside p && match p with AWait => 0 <? arrival_ b | DWait => 0 <? departure_ b | _ => true end) = true) →
    ∃ t, is_Some (round_step t b)).
  { intros f Hf Hall. apply count_if_witness in Hf as (t & p & Hp & Hfp). exists t. eapply round_can; eauto. }
  destruct (decide (0 < count_if is_ainc (pcs b))); [eapply Hw; [done|by intros []]|].
  destruct (decide (0 < count_if is_apost (pcs b))); [eapply Hw; [done|by intros []]|].
  destruct (decide (0 < count_if is_ddec (pcs b))); [eapply Hw; [done|by intros []]|].
  destruct (decide (0 < count_if is_dpost (pcs b))); [eapply Hw; [done|by intros []]|].
  destruct (decide (0 < departure_ b)) as [Hd|Hd].
  { apply (Hw is_dwait); [lia|]. intros [] Hp; cbn in *; try done. by apply Z.ltb_lt. }
  apply (Hw is_await); [|intros [] Hp; cbn in *; try done; apply Z.ltb_lt; lia].
  rewrite Hnp in *. assert (k = 0) as ->; [|lia].
  pose proof (count_inside (pcs b)). nia.
Qed.

(** A round of the barrier ends.  When [np] threads call [wait()] once each,
    every schedule does at most [6 * np] actions, and a schedule that cannot go
    on has let all of them return, with the barrier ready for the next round. *)
Theorem barrier_round np ls b :
  (0 < np)%nat → run round_step ls (round_start np) = Some b →
  Z.of_nat (length ls) ≤ 6 * Z.of_nat np ∧
  ((∀ t, round_step t b = None) →
   pcs b = replicate np Out ∧ arrival_ b = 1 ∧ departure_ b = 0 ∧ counter_ b = 0).
Proof.
  intros Hn Hr.
  destruct (run_bounded round_step (λ _, True) (λ _, True) (λ b, zsum (todo <$> pcs b))) with ls (round_start np) b as [_ Hm];
    [intros t b0 b1 _ _ E%round_step_todo; split; [done|lia]|by apply Forall_forall|done|done|]. cbn [pcs round_start] in Hm.
  assert (zsum (todo <$> replicate np AWait) = 6 * Z.of_nat np) as E6.
  { clear. induction np as [|np IH]; [done|]. cbn [replicate]. rewrite fmap_cons, zsum_cons, IH. simpl. lia. }
  assert (0 ≤ zsum (todo <$> pcs b)).
  { apply zsum_nonneg, Forall_fmap, Forall_forall. intros [] _; simpl; lia. }
  split; [lia|]. intros Hstuck.
  assert (Hi : rinv np b).
  { eapply (invariant_reachable round_step (rinv np)); [by apply round_start_inv|intros; by eapply round_step_inv|by exists ls]. }
  assert (count_if inside (pcs b) = 0) as H0.
  { pose proof (count_if_nonneg inside (pcs b)). destruct (decide (0 < count_if inside (pcs b))) as [Hc|]; [|lia].
    destruct (round_progress np b Hn Hi Hc) as [t [b' Hb]]. by rewrite Hstuck in Hb. }
  destruct Hi as [[Hpos [Hs1 Hs2] Htok Hcnt Hin (k & _ & Hph)] _ <- _].
  assert (E : pcs b = replicate (length (pcs b)) Out).
  { clear -H0. induction (pcs b) as [|p l IH]; [done|]. rewrite count_if_cons in H0. pose proof (count_if_nonneg inside l).
    destruct p; simpl in H0; try lia. simpl. f_equal. apply IH. lia. }
  split; [done|]. rewrite E in Htok, Hin, Hph. rewrite !count_if_replicate in Htok, Hin, Hph by done. lia.
Qed.

(** Thread 1 passes first, then thread 0. *)
Definition whole_round : list nat := [0; 0; 0; 1; 1; 1; 1; 1; 1; 0; 0; 0]%nat.

Lemma barrier_round_witness :
  let b := mkBarrier 1 0 2 0 [Out; Out] 2 2 in
  run round_step whole_round (round_start 2) = Some b ∧
  Z.of_nat (length whole_round) ≤ 6 * 2 ∧ arrival_ b = 1.
Proof.
  intros b. assert (Hr : run round_step whole_round (round_start 2) = Some b) by (vm_compute; reflexivity).
  destruct (barrier_round 2 whole_round b ltac:(lia) Hr) as [Hl Hend].
  split; [exact Hr|]. split; [exact Hl|]. apply Hend. intros [|[|[|t]]]; reflexivity.
Defined.
