(* ===== verification/ThreadLocal.v ===== *)
(** * Thread-local storage ([thread_local.hpp], [thread_registry.cpp])

    A [ThreadLocal<T>] has 16 slots; a thread gets the next free slot when it
    first uses the object, and its address is kept under a pthread key.  The
    increment of [curavail_slot_] is atomic and a slot belongs to one thread, so
    each call is one action.  A value is an integer.  The second part is the
    registry of threads, a set under a mutex. *)

From S2P Require Import Prelude.
From stdpp Require Import base numbers list gmap sorting.
Open Scope Z_scope.

Definition MAXNUMOFTHREADS : nat := 16.

(** [specific] is what [pthread_getspecific(local_key_)] gives to each thread. *)
Record ThreadLocal : Type := mkLocal {
  specific : gmap nat nat;
  storageArr : list Z;
  curavail_slot_ : nat;
}.

(** The constructor clears the array; in the copy of [myAlloc_2Layer_lock] it sets all
    bits, which makes every element -1. *)
Definition ThreadLocal_fill (v : Z) : ThreadLocal := mkLocal ∅ (replicate MAXNUMOFTHREADS v) 0.
Definition ThreadLocal_init : ThreadLocal := ThreadLocal_fill 0.
Definition ThreadLocal_init_2Layer : ThreadLocal := ThreadLocal_fill (-1).

(** The index of the slot; it may lie behind the array. *)
Definition getLocalState (t : nat) : M ThreadLocal nat := λ s,
  match specific s !! t with
  | Some p => Ok p s
  | None => Ok (curavail_slot_ s) (mkLocal (<[t := curavail_slot_ s]> (specific s)) (storageArr s) (S (curavail_slot_ s)))
  end.

(** Reading and writing through a pointer into the array. *)
Definition read_slot (p : nat) : M ThreadLocal Z := λ s,
  match storageArr s !! p with Some v => Ok v s | None => Err (OutOfBounds (Z.of_nat p)) end.
Definition write_slot (p : nat) (v : Z) : M ThreadLocal unit := λ s,
  if (p <? length (storageArr s))%nat then Ok tt (mkLocal (specific s) (<[p := v]> (storageArr s)) (curavail_slot_ s))
  else Err (OutOfBounds (Z.of_nat p)).

Definition getVal (t : nat) : M ThreadLocal Z := p ← getLocalState t; read_slot p.
Definition setVal (t : nat) (v : Z) : M ThreadLocal unit := p ← getLocalState t; write_slot p v.
Definition getAddr (t : nat) : M ThreadLocal nat := getLocalState t.

(** [destroyLocalKey], run by pthread when the thread [t] exits. *)
Definition destroyLocalKey (t : nat) : M ThreadLocal unit := λ s,
  match specific s !! t with
  | None => Ok tt s
  | Some p => (write_slot p 0;; modify (λ s, mkLocal (delete t (specific s)) (storageArr s) (curavail_slot_ s))) s
  end.

(** ** What a user sees *)

Inductive local_op : Type :=
| Get (t : nat)
| Set_ (t : nat) (v : Z)
| Exit (t : nat).

Definition local_exec (o : local_op) : M ThreadLocal Z :=
  match o with
  | Get t => getVal t
  | Set_ t v => setVal t v;; mret v
  | Exit t => destroyLocalKey t;; mret 0
  end.

Fixpoint local_run (os : list local_op) : M ThreadLocal (list Z) :=
  match os with
  | [] => mret []
  | o :: os' => v ← local_exec o; vs ← local_run os'; mret (v :: vs)
  end.

Section exact.
(** What the array is filled with. *)
Context (fill : Z).

(** The specification: a variable per thread, which has the value [fill] until it is
    set, also for a thread that is started under the name of one that has exited. *)
Abbreviation vars := (gmap nat Z).

Definition var_exec (o : local_op) (m : vars) : Z * vars :=
  match o with
  | Get t => (default fill (m !! t), <[t := default fill (m !! t)]> m)
  | Set_ t v => (v, <[t := v]> m)
  | Exit t => (0, delete t m)
  end.

Fixpoint var_run (os : list local_op) (m : vars) : list Z * vars :=
  match os with
  | [] => ([], m)
  | o :: os' => let '(v, m') := var_exec o m in let '(vs, m'') := var_run os' m' in (v :: vs, m'')
  end.

(** How often a thread uses the object for the first time. *)
Fixpoint first_uses (os : list local_op) (m : vars) : nat :=
  match os with
  | [] => 0
  | o :: os' =>
    (match o with
     | Get t | Set_ t _ => if decide (is_Some (m !! t)) then 0 else 1
     | Exit _ => 0
     end + first_uses os' (var_exec o m).2)%nat
  end.

(** Each thread that has used the object owns a slot, which holds its value;
    the slots that were not given out yet hold [fill]. *)
Record local_rep (s : ThreadLocal) (m : vars) : Prop := {
  lr_len : length (storageArr s) = MAXNUMOFTHREADS;
  lr_cur : (curavail_slot_ s ≤ MAXNUMOFTHREADS)%nat;
  lr_dom : ∀ t, is_Some (specific s !! t) ↔ is_Some (m !! t);
  lr_slot : ∀ t p, specific s !! t = Some p → (p < curavail_slot_ s)%nat ∧ storageArr s !! p = m !! t;
  lr_inj : ∀ t u p, specific s !! t = Some p → specific s !! u = Some p → t = u;
  lr_fresh : ∀ p, (curavail_slot_ s ≤ p < MAXNUMOFTHREADS)%nat → storageArr s !! p = Some fill;
}.

Lemma local_init_rep : local_rep (ThreadLocal_fill fill) ∅.
Proof.
  unfold ThreadLocal_fill. split; cbn [specific storageArr curavail_slot_]; try done; try lia.
  - intros t. rewrite !lookup_empty. split; by intros [].
  - intros p Hp. apply lookup_replicate. split; [done|lia].
Qed.

(** A thread that has no slot yet and finds one free. *)
Lemma rep_claim s m t : local_rep s m → m !! t = None → (curavail_slot_ s < MAXNUMOFTHREADS)%nat →
  local_rep (mkLocal (<[t := curavail_slot_ s]> (specific s)) (storageArr s) (S (curavail_slot_ s))) (<[t := fill]> m).
Proof.
  intros [Hlen Hcur Hdom Hslot Hinj Hfresh] Ht Hlt. split; cbn; try done; try lia.
  - intros u. destruct (decide (u = t)) as [->|]; [rewrite !lookup_insert_eq; split; eauto|]. rewrite !lookup_insert_ne by done. apply Hdom.
  - intros u p. destruct (decide (u = t)) as [->|].
    + rewrite !lookup_insert_eq. intros [= <-]. split; [lia|]. apply Hfresh. lia.
    + rewrite !lookup_insert_ne by done. intros Hu. destruct (Hslot u p Hu). split; [lia|done].
  - intros u v p. rewrite !lookup_insert_Some. intros [[-> <-]|[? Hu]] [[-> E]|[? Hv]]; try done; try (by eapply Hinj).
    + destruct (Hslot v _ Hv). lia.
    + subst. destruct (Hslot u _ Hu). lia.
  - intros p Hp. apply Hfresh. lia.
Qed.

(** Writing to the slot of a thread. *)
Lemma rep_write s m t p v : local_rep s m → specific s !! t = Some p →
  ∃ s', write_slot p v s = Ok tt s' ∧ local_rep s' (<[t := v]> m) ∧ specific s' = specific s.
Proof.
  intros [Hlen Hcur Hdom Hslot Hinj Hfresh] Ht. destruct (Hslot t p Ht) as [Hp _]. unfold write_slot.
  destruct (Nat.ltb_spec p (length (storageArr s))); [|lia]. eexists. split; [done|]. split; [|done]. split; cbn; try done.
  - by rewrite length_insert.
  - intros u. rewrite Hdom. destruct (decide (u = t)) as [->|]; [|by rewrite lookup_insert_ne].
    rewrite lookup_insert_eq, <- Hdom, Ht. split; eauto.
  - intros u q Hu. destruct (Hslot u q Hu) as [Hq Eq]. split; [done|]. destruct (decide (u = t)) as [->|Hne].
    + rewrite Ht in Hu. injection Hu as <-. by rewrite list_lookup_insert_eq, lookup_insert_eq.
    + rewrite lookup_insert_ne by done. rewrite list_lookup_insert_ne; [done|]. intros ->. apply Hne. by eapply Hinj.
  - intros q Hq. rewrite list_lookup_insert_ne by lia. by apply Hfresh.
Qed.

Lemma rep_exit s m t p : local_rep s m → specific s !! t = Some p →
  local_rep (mkLocal (delete t (specific s)) (storageArr s) (curavail_slot_ s)) (delete t m).
Proof.
  intros [Hlen Hcur Hdom Hslot Hinj Hfresh] Ht. split; cbn; try done.
  - intros u. destruct (decide (u = t)) as [->|]; [rewrite !lookup_delete_eq; split; by intros []|]. rewrite !lookup_delete_ne by done. apply Hdom.
  - intros u q. rewrite lookup_delete_Some. intros [Hne Hu]. rewrite lookup_delete_ne by done. by apply Hslot.
  - intros u v q. rewrite !lookup_delete_Some. intros [_ Hu] [_ Hv]. by eapply Hinj.
Qed.

(** Whether an operation needs a new slot. *)
Definition needs_slot (o : local_op) (m : vars) : bool :=
  match o with Get t | Set_ t _ => bool_decide (m !! t = None) | Exit _ => false end.

(** Every use finds the slot of the thread, or takes the next one. *)
Lemma getLocalState_ok s m t : local_rep s m → (m !! t = None → curavail_slot_ s < MAXNUMOFTHREADS)%nat →
  ∃ p s', getLocalState t s = Ok p s' ∧ specific s' !! t = Some p ∧
    local_rep s' (<[t := default fill (m !! t)]> m) ∧
    curavail_slot_ s' = (curavail_slot_ s + if bool_decide (m !! t = None) then 1 else 0)%nat.
Proof.
  intros Hs Hfree. unfold getLocalState. destruct (specific s !! t) as [p|] eqn:Ht.
  - destruct (lr_dom _ _ Hs t) as [[v Hv] _]; [by rewrite Ht|]. exists p, s. rewrite Hv. cbn. split_and!; [done|done| |lia].
    by rewrite insert_id.
  - assert (Hm : m !! t = None).
    { apply eq_None_not_Some. intros Hm. apply (lr_dom _ _ Hs) in Hm. rewrite Ht in Hm. by destruct Hm. }
    rewrite Hm. eexists _, _. split; [done|]. cbn. split_and!; [by rewrite lookup_insert_eq| |lia]. apply rep_claim; auto.
Qed.

Lemma local_exec_ok s m o : local_rep s m → (needs_slot o m = true → curavail_slot_ s < MAXNUMOFTHREADS)%nat →
  ∃ s', local_exec o s = Ok (var_exec o m).1 s' ∧ local_rep s' (var_exec o m).2 ∧
    curavail_slot_ s' = (curavail_slot_ s + if needs_slot o m then 1 else 0)%nat.
Proof.
  intros Hs Hfree. destruct o as [t|t v|t]; cbn in *.
  - destruct (getLocalState_ok s m t Hs) as (p & s1 & Hr & Hp & Hs1 & Ec); [intros E; apply Hfree; by rewrite bool_decide_true|].
    exists s1. split; [|done]. unfold getVal. rewrite (bind_ok _ _ _ _ _ Hr). unfold read_slot.
    destruct (lr_slot _ _ Hs1 t p Hp) as [_ ->]. by rewrite lookup_insert_eq.
  - destruct (getLocalState_ok s m t Hs) as (p & s1 & Hr & Hp & Hs1 & Ec); [intros E; apply Hfree; by rewrite bool_decide_true|].
    destruct (rep_write s1 _ t p v Hs1 Hp) as (s2 & Hw & Hs2 & Esp). exists s2.
    assert (Ec2 : curavail_slot_ s2 = curavail_slot_ s1).
    { revert Hw. unfold write_slot. destruct (p <? _)%nat; [by intros [= <-]|discriminate]. }
    split; [|split; [by rewrite insert_insert_eq in Hs2|congruence]].
    unfold setVal. erewrite bind_ok; [done|]. by rewrite (bind_ok _ _ _ _ _ Hr).
  - unfold destroyLocalKey. destruct (specific s !! t) as [p|] eqn:Ht.
    + destruct (rep_write s m t p 0 Hs Ht) as (s1 & Hw & Hs1 & Esp).
      exists (mkLocal (delete t (specific s1)) (storageArr s1) (curavail_slot_ s1)). split.
      { unfold mbind, M_bind. by rewrite Ht, Hw. }
      split; [|revert Hw; unfold write_slot; destruct (p <? _)%nat; [intros [= <-]; cbn; lia|discriminate]].
      rewrite <- (delete_insert_eq m t 0). eapply rep_exit; [done|]. by rewrite Esp.
    + exists s. split; [unfold mbind, M_bind; by rewrite Ht|]. split; [|lia].
      rewrite delete_id; [done|]. apply eq_None_not_Some. intros Hm. apply (lr_dom _ _ Hs) in Hm. rewrite Ht in Hm. by destruct Hm.
Qed.

(** The seventeenth thread. *)
Lemma local_exec_full s m o : local_rep s m → needs_slot o m = true → curavail_slot_ s = MAXNUMOFTHREADS →
  local_exec o s = Err (OutOfBounds 16).
Proof.
  intros Hs Hn Hc. assert (Hnew : ∀ t, m !! t = None → getLocalState t s =
    Ok MAXNUMOFTHREADS (mkLocal (<[t := MAXNUMOFTHREADS]> (specific s)) (storageArr s) (S MAXNUMOFTHREADS))).
  { intros t Ht. unfold getLocalState. destruct (specific s !! t) as [p|] eqn:E; [|by rewrite Hc].
    destruct (lr_dom _ _ Hs t) as [[v Hv] _]; [by rewrite E|congruence]. }
  pose proof (lr_len _ _ Hs) as Hlen. destruct o as [t|t v|t]; cbn in *; try done; apply bool_decide_eq_true in Hn.
  - unfold getVal. rewrite (bind_ok _ _ _ _ _ (Hnew t Hn)). unfold read_slot. cbn [storageArr].
    by rewrite lookup_ge_None_2 by lia.
  - unfold setVal, mbind, M_bind. rewrite (Hnew t Hn). unfold write_slot. cbn [storageArr]. by rewrite Hlen.
Qed.

Lemma first_uses_cons o os m : first_uses (o :: os) m = ((if needs_slot o m then 1 else 0) + first_uses os (var_exec o m).2)%nat.
Proof.
  cbn. f_equal. destruct o as [t|t v|t]; cbn; try done; (case_decide as E; [rewrite bool_decide_false; [done|]|rewrite bool_decide_true; [done|]]);
    [by destruct E as [? ->]|by apply eq_None_not_Some|by destruct E as [? ->]|by apply eq_None_not_Some].
Qed.

(** C39: Thread-local storage is a variable per thread, for at most 16 threads in
    the life of the object.  For any sequence of reads, writes and thread exits:
    as long as no more than 16 threads have used it, counting those that have
    exited, every read gives what the thread wrote last, or what the array was filled with
    (zero, or -1 in the copy of the two-layer allocator); the seventeenth accesses
    memory behind the array. *)
Theorem thread_local_exact os :
  if decide (first_uses os ∅ ≤ MAXNUMOFTHREADS)%nat
  then ∃ s, local_run os (ThreadLocal_fill fill) = Ok (var_run os ∅).1 s ∧ local_rep s (var_run os ∅).2
  else local_run os (ThreadLocal_fill fill) = Err (OutOfBounds 16).
Proof.
  assert (H : ∀ m s, local_rep s m →
    if decide (curavail_slot_ s + first_uses os m ≤ MAXNUMOFTHREADS)%nat
    then ∃ s', local_run os s = Ok (var_run os m).1 s' ∧ local_rep s' (var_run os m).2
    else local_run os s = Err (OutOfBounds 16)); [|exact (H ∅ (ThreadLocal_fill fill) local_init_rep)].
  induction os as [|o os IH]; intros m s Hs.
  - rewrite decide_True by (pose proof (lr_cur _ _ Hs); cbn; lia). by exists s.
  - rewrite first_uses_cons. destruct (decide (needs_slot o m = true ∧ curavail_slot_ s = MAXNUMOFTHREADS)) as [[Hn Hc]|Hok].
    + rewrite Hn, Hc, decide_False by lia. cbn. unfold mbind, M_bind. by rewrite (local_exec_full s m o Hs Hn Hc).
    + destruct (local_exec_ok s m o Hs) as (s1 & Hr & Hs1 & Ec).
      { intros Hn. pose proof (lr_cur _ _ Hs). assert (curavail_slot_ s ≠ MAXNUMOFTHREADS) by naive_solver. lia. }
      specialize (IH _ s1 Hs1). rewrite Ec, <- Nat.add_assoc in IH. cbn [local_run var_run].
      destruct (var_exec o m) as [v m'] eqn:Ev. cbn in *. destruct (var_run os m') as [vs m''] eqn:Evs. cbn in *.
      unfold mbind, M_bind. rewrite Hr. case_decide; [destruct IH as (s' & -> & ?); by exists s'|by rewrite IH].
Qed.

End exact.

(** A thread that has not set its variable sees -1 in one copy of the class and 0 in
    the other. *)
Lemma copies_differ t : ∃ s s', getVal t ThreadLocal_init = Ok 0 s ∧ getVal t ThreadLocal_init_2Layer = Ok (-1) s'.
Proof. by do 2 eexists. Qed.

(** Slots are not recycled: seventeen threads that run one after the other. *)
Lemma seventeen_threads : local_run (concat ((λ t, [Set_ t 1; Exit t]) <$> seq 0 17)) ThreadLocal_init = Err (OutOfBounds 16).
Proof. vm_compute. reflexivity. Qed.

(** ** The registry of threads *)

Abbreviation ThreadRegistry := (gset Z).

Definition registerThread (tid : Z) (r : ThreadRegistry) : bool * ThreadRegistry := (bool_decide (tid ∉ r), {[tid]} ∪ r).
Definition unregisterThread (tid : Z) (r : ThreadRegistry) : bool * ThreadRegistry := (bool_decide (tid ∈ r), r ∖ {[tid]}).
Definition getAllThreadIDs (r : ThreadRegistry) : list Z := elements r.

(** Registering a new thread and taking it out again. *)
Lemma register_unregister tid r : tid ∉ r →
  (registerThread tid r).1 = true ∧ (registerThread tid (registerThread tid r).2).1 = false ∧
  unregisterThread tid (registerThread tid r).2 = (true, r).
Proof.
  intros Hr. unfold unregisterThread, registerThread. cbn.
  split_and!; [by apply bool_decide_true|apply bool_decide_false; set_solver|]. f_equal; [apply bool_decide_true|]; set_solver.
Qed.
