(* ===== verification/ThreadPool.v ===== *)
(** * Thread pools ([thread_pool.hpp])

    What the two pools share: a task is the identity of a callback, [None] is
    the [NULL] that asks a worker to stop.  A pool is a transition system in
    which each critical section is one action.  The class [ThreadPool] states
    what the abstract base class promises to its users. *)

From S2P Require Import Prelude Threads.
From stdpp Require Import base numbers list gmap sorting relations.
Open Scope Z_scope.

(** A [Callback<void>*]. *)
Abbreviation task := nat.

(** The actions of a pool: a client or a running task calls [addTask()], worker
    [i] does its next action, someone (a worker or another thread) calls
    [stop()], and the call of [stop()] goes on.  [signal] wakes one of the
    threads that wait: which one is the second argument of [AddTask]. *)
Inductive label : Type :=
| AddTask (t : task) (wake : nat)
| W (i : nat)
| Stop (caller : option nat)
| StopNext.

(** The actions the pool does by itself. *)
Definition internal (l : label) : bool :=
  match l with W _ | StopNext => true | _ => false end.

(** Where a call of [stop()] is: it still has to add [k] [NULL]s, it joins
    worker [i], or it has returned. *)
Inductive spc : Type :=
| SAdd (k : nat)
| SJoin (i : nat)
| SDone.

Instance spc_eq_dec : EqDecision spc.
Proof. solve_decision. Defined.

(** [task && task->once()] of the destructors: the tasks that are deleted. *)
Definition disposed (once : task → bool) (q : list (option task)) : list task :=
  filter (λ t, once t = true) (omap id q).

(** What the pool holds: tasks added, tasks a worker has begun (or [None] for
    the stop request it took), tasks that still wait. *)
Class ThreadPool (S : Type) : Type := {
  pool_start : nat → S → Prop;
  pool_step : label → S → option S;
  pool_added : S → list (option task);
  pool_begun : S → list (option task);
  pool_waiting : S → list (option task);
  pool_stopped : S → Prop;
  pool_before : S → list (option task);
  pool_caller : S → option (option nat);
}.

(** Nothing is lost and nothing runs twice; and when a pool whose [stop()] was
    called is at rest, the call has returned and the tasks that were added before
    it have been begun, unless the only worker of the pool is the one that stops
    it. *)
Class PoolLaws (S : Type) `{ThreadPool S} : Prop := {
  pool_conserves : ∀ n s0 s, pool_start n s0 → reachable pool_step s0 s →
    ∃ hand, pool_added s ≡ₚ pool_begun s ++ hand ++ pool_waiting s ∧ (length hand ≤ n)%nat;
  pool_drains : ∀ n s0 s c, pool_start n s0 → (0 < n)%nat → reachable pool_step s0 s →
    pool_caller s = Some c → (c = None ∨ (1 < n)%nat) →
    (∀ l, internal l = true → pool_step l s = None) →
    pool_stopped s ∧ pool_before s ⊆+ pool_begun s;
}.

(** What the lists of a pool record: the tasks in the order in which they were added,
    and what had been added when [stop()] was called. *)
Definition task_of (l : label) : list task := match l with AddTask t _ => [t] | _ => [] end.

Class PoolAccounts (S : Type) `{ThreadPool S} : Prop := {
  accounts_start : ∀ n s, pool_start n s → pool_added s = [] ∧ pool_caller s = None;
  accounts_step : ∀ l s s', pool_step l s = Some s' → omap id (pool_added s') = omap id (pool_added s) ++ task_of l;
  accounts_stop : ∀ l s s', pool_step l s = Some s' →
    match l with
    | Stop c => pool_caller s = None ∧ pool_caller s' = Some c ∧ pool_before s' = pool_added s
    | _ => pool_caller s' = pool_caller s ∧ pool_before s' = pool_before s
    end;
}.

Lemma omap_None_replicate n : omap id (replicate n (@None task)) = [].
Proof. by induction n. Qed.

(** ** What the workers hold *)
Section hands.
Context {A B : Type} (f : A → list B).

Definition hands (l : list A) : list B := concat (f <$> l).

Lemma hands_cons x l : hands (x :: l) = f x ++ hands l.
Proof. done. Qed.

Lemma hands_lookup l i x : l !! i = Some x → hands l ≡ₚ f x ++ hands (delete i l).
Proof.
  revert i. induction l as [|y l IH]; intros [|i] Hx; simplify_eq/=; [done|].
  rewrite !hands_cons, (IH i) by done. by rewrite !(assoc_L (++)), (Permutation_app_comm (f y)).
Qed.

Lemma hands_insert l i x y : l !! i = Some x → hands (<[i := y]> l) ≡ₚ f y ++ hands (delete i l).
Proof.
  intros Hx. assert (i < length l)%nat by eauto using lookup_lt_Some.
  rewrite (hands_lookup _ i y) by by rewrite list_lookup_insert_eq.
  replace (delete i (<[i:=y]> l)) with (delete i l); [done|].
  clear x Hx. revert i H. induction l as [|z l IH]; intros [|i] Hi; simpl in *; [lia..|done|]. f_equal. apply IH. lia.
Qed.

Lemma hands_nil l : (∀ i x, l !! i = Some x → f x = []) → hands l = [].
Proof.
  intros Hl. induction l as [|x l IH]; [done|]. rewrite hands_cons, (Hl 0%nat x) by done.
  apply IH. intros i y Hy. by apply (Hl (Datatypes.S i)).
Qed.
End hands.

Arguments hands {_ _} _ _ : simpl never.

Lemma hands_length {A B} (f : A → list B) l :
  (∀ x, length (f x) ≤ 1)%nat → (length (hands f l) ≤ length l)%nat.
Proof.
  intros Hf. induction l as [|x l IH]; [done|]. rewrite hands_cons, length_app. simpl. specialize (Hf x). lia.
Qed.

(** ** Stopping a pool

    Both pools stop in the same way: one [NULL] per worker, then a join with
    every worker but the caller, then [last_worker_] tells the caller to end.
    What matters of a worker is whether it runs a task, whether its thread has
    ended, and its [last_worker_]. *)

Inductive phase : Type := Busy | InTask | Ended.

Record Status : Type := mkStatus {
  phase_of : phase;
  last_of : bool;
}.

Definition ended (x : Status) : bool := match phase_of x with Ended => true | _ => false end.
Definition ended_last (x : Status) : bool := ended x && last_of x.

Definition is_null (t : option task) : bool := match t with None => true | _ => false end.
Definition nulls (l : list (option task)) : Z := count_if is_null l.

Lemma nulls_snoc l t : nulls (l ++ [t]) = nulls l + Z.b2z (is_null t).
Proof. unfold nulls. rewrite count_if_app, count_if_cons. change (count_if is_null []) with 0. lia. Qed.

(** How far [stop()] is: which [NULL]s were added, which workers are gone. *)
Record stop_ok (n : nat) (ss : list Status) (st : option (option nat * spc))
    (add con bef : list (option task)) : Prop := {
  s_gone : count_if ended ss = nulls con + count_if ended_last ss;
  s_last : ∀ i x, ss !! i = Some x → last_of x = true → st = Some (Some i, SDone) ∧ phase_of x ≠ Busy;
  s_self : ∀ i s, st = Some (Some i, s) → s ≠ SDone → ∃ x, ss !! i = Some x ∧ phase_of x = InTask;
  s_join : ∀ c s i x, st = Some (c, s) → ss !! i = Some x → c ≠ Some i →
    match s with SAdd _ => False | SJoin j => (i < j)%nat | SDone => True end → phase_of x = Ended;
  s_nulls : nulls add = match st with
    | None => 0 | Some (_, SAdd k) => Z.of_nat n - Z.of_nat k | Some _ => Z.of_nat n end;
  s_before : is_Some st → bef `prefix_of` add ∧ nulls bef = 0;
}.

Section stop_ok.
Context (n : nat).
Implicit Types (ss : list Status) (add con bef : list (option task)).

(** A worker goes on. *)
Lemma s_set ss st add con con' bef i x x' :
  stop_ok n ss st add con bef → ss !! i = Some x → last_of x' = last_of x →
  nulls con' + Z.b2z (ended_last x') + Z.b2z (ended x) = nulls con + Z.b2z (ended_last x) + Z.b2z (ended x') →
  (phase_of x = Ended → phase_of x' = Ended) → (last_of x = true → phase_of x' ≠ Busy) →
  (phase_of x = InTask → phase_of x' = InTask ∨ ∀ s, st = Some (Some i, s) → s = SDone) →
  stop_ok n (<[i := x']> ss) st add con' bef.
Proof.
  intros [Hg Hl Hs Hj Hn Hb] Hi Hlast Hcnt Hgone Hl' Hrun.
  assert (Hcase : ∀ j v, <[i := x']> ss !! j = Some v → (j = i ∧ v = x') ∨ (j ≠ i ∧ ss !! j = Some v)).
  { intros j v. destruct (decide (j = i)) as [->|Hne].
    - rewrite list_lookup_insert_eq by eauto using lookup_lt_Some. intros ?. left. by simplify_eq.
    - rewrite list_lookup_insert_ne by done. by right. }
  split; try done.
  - rewrite !(count_if_insert _ _ _ _ _ Hi). lia.
  - intros j v [[-> ->]|[? Hv]]%Hcase Hlv; [|by eapply Hl].
    rewrite Hlast in Hlv. destruct (Hl i x Hi Hlv) as [? _]. auto.
  - intros j s Hst Hsn. destruct (Hs j s Hst Hsn) as (v & Hv & Hrv). destruct (decide (j = i)) as [->|Hji].
    + exists x'. split; [apply list_lookup_insert_eq; eauto using lookup_lt_Some|]. assert (v = x) as -> by congruence.
      destruct (Hrun Hrv) as [?|Hx]; [done|]. by apply Hx in Hst.
    + exists v. by rewrite list_lookup_insert_ne.
  - intros c s j v Hst [[-> ->]|[? Hv]]%Hcase Hc Hm; [|by eapply Hj]. apply Hgone. by eapply Hj.
Qed.

Lemma s_task ss st add con bef t :
  stop_ok n ss st add con bef → stop_ok n ss st (add ++ [Some t]) con bef.
Proof.
  intros [Hg Hl Hs Hj Hn Hb]. split; try done.
  - by rewrite nulls_snoc, Hn, Z.add_0_r.
  - intros Hst. destruct (Hb Hst) as [Hp ?]. split; [by apply prefix_app_r|done].
Qed.

(** [stop()] is called. *)
Lemma s_begin ss add con bef c :
  stop_ok n ss None add con bef → (∀ i, c = Some i → ∃ x, ss !! i = Some x ∧ phase_of x = InTask) →
  stop_ok n ss (Some (c, SAdd n)) add con add.
Proof.
  intros [Hg Hl Hs Hj Hn Hb] Hrun. split; try done.
  - intros i x Hi Hlx. by destruct (Hl i x Hi Hlx).
  - intros i s [= -> <-] _. auto.
  - by intros ???? [= <- <-].
  - lia.
Qed.

(** One [NULL] is added. *)
Lemma s_null ss c k add con bef :
  stop_ok n ss (Some (c, SAdd (S k))) add con bef → stop_ok n ss (Some (c, SAdd k)) (add ++ [None]) con bef.
Proof.
  intros [Hg Hl Hs Hj Hn Hb]. split; try done.
  - intros i x Hi Hlx. by destruct (Hl i x Hi Hlx).
  - intros i s [= -> <-] _. by apply (Hs i (SAdd (S k))).
  - by intros ???? [= <- <-].
  - rewrite nulls_snoc, Hn. cbn. lia.
  - intros _. destruct (Hb ltac:(done)) as [Hp ?]. split; [by apply prefix_app_r|done].
Qed.

Lemma s_null_all ss c k add con bef :
  stop_ok n ss (Some (c, SAdd k)) add con bef → stop_ok n ss (Some (c, SAdd 0)) (add ++ replicate k None) con bef.
Proof.
  revert add. induction k as [|k IH]; intros add Hs; cbn; [by rewrite app_nil_r|].
  apply s_null, IH in Hs. by rewrite <- (assoc_L (++)) in Hs.
Qed.

Lemma s_added ss c add con bef :
  stop_ok n ss (Some (c, SAdd 0)) add con bef → stop_ok n ss (Some (c, SJoin 0)) add con bef.
Proof.
  intros [Hg Hl Hs Hj Hn Hb]. split; try done.
  - intros i x Hi Hlx. by destruct (Hl i x Hi Hlx).
  - intros i s [= -> <-] _. by apply (Hs i (SAdd 0)).
  - intros ???? [= <- <-] ???. lia.
  - lia.
  - auto.
Qed.

(** A worker has been joined, or is the caller. *)
Lemma s_joined ss c i x add con bef :
  stop_ok n ss (Some (c, SJoin i)) add con bef → ss !! i = Some x → (c ≠ Some i → phase_of x = Ended) →
  stop_ok n ss (Some (c, SJoin (S i))) add con bef.
Proof.
  intros [Hg Hl Hs Hj Hn Hb] Hi Hend. split; try done.
  - intros j v Hv Hlx. by destruct (Hl j v Hv Hlx).
  - intros j s [= -> <-] _. by apply (Hs j (SJoin i)).
  - intros c' s j v [= <- <-] Hv Hc ?. destruct (decide (j = i)) as [->|Hne]; [simplify_eq; auto|].
    apply (Hj c (SJoin i) j v); [done|done|done|]. simpl. lia.
  - auto.
Qed.

Definition mark_last (c : option nat) (ss : list Status) : list Status :=
  match c with
  | None => ss
  | Some j => match ss !! j with Some x => <[j := mkStatus (phase_of x) true]> ss | None => ss end
  end.

Lemma s_finish ss c i add con bef :
  stop_ok n ss (Some (c, SJoin i)) add con bef → length ss = n → (n ≤ i)%nat →
  stop_ok n (mark_last c ss) (Some (c, SDone)) add con bef.
Proof.
  intros [Hg Hl Hs Hj Hn Hb] Hlen Hi.
  assert (Hall : ∀ j x, ss !! j = Some x → c ≠ Some j → phase_of x = Ended).
  { intros j x Hx Hc. eapply Hj; [done|done|done|]. apply lookup_lt_Some in Hx. simpl. lia. }
  assert (Hnl : ∀ j x, ss !! j = Some x → last_of x = true → False).
  { intros j x Hx E. by destruct (Hl j x Hx E). }
  destruct c as [j|]; cbn.
  2:{ split; cbn; try done; [|by intros ???? [= <- <-] ???; eauto|auto].
      intros k x Hx Hlx. by destruct (Hnl k x Hx). }
  destruct (Hs j _ eq_refl ltac:(done)) as (x & Hx & Hrun). rewrite Hx.
  split; cbn; try done.
  - rewrite !(count_if_insert _ _ _ _ _ Hx). unfold ended_last, ended in *. cbn. rewrite Hrun. cbn. lia.
  - intros k v. destruct (decide (j = k)) as [<-|Hne].
    + rewrite list_lookup_insert_eq by eauto using lookup_lt_Some. intros ??. simplify_eq/=. by rewrite Hrun.
    + rewrite list_lookup_insert_ne by done. intros Hv Hlv. by destruct (Hnl k v Hv).
  - intros k s [= <- <-]. done.
  - intros c' s k v [= <- <-] Hv Hc _. rewrite list_lookup_insert_ne in Hv by congruence. eauto.
  - auto.
Qed.

Lemma s_one ss st add con bef : stop_ok n ss st add con bef → count_if ended_last ss ≤ 1.
Proof.
  intros [Hg Hl _ _ _ _]. assert (Huniq : ∀ i j x y, ss !! i = Some x → ss !! j = Some y →
    ended_last x = true → ended_last y = true → i = j).
  { intros i j x y Hi Hj Hx Hy. apply andb_prop in Hx as [_ Hx], Hy as [_ Hy].
    destruct (Hl i x Hi Hx) as [E1 _], (Hl j y Hj Hy) as [E2 _]. congruence. }
  clear -Huniq. induction ss as [|x l IH]; [done|]. rewrite count_if_cons. destruct (ended_last x) eqn:E.
  - assert (count_if ended_last l = 0); [|simpl; lia].
    pose proof (count_if_nonneg ended_last l). destruct (decide (0 < count_if ended_last l)) as [Hp|]; [|lia].
    apply count_if_witness in Hp as (i & w & Hi & Hw). by specialize (Huniq 0%nat (S i) x w eq_refl Hi E Hw).
  - simpl. apply IH. intros i j w v Hi Hj Hw Hv. by specialize (Huniq (S i) (S j) w v Hi Hj Hw Hv) as [=].
Qed.

Lemma prefix_until {A} (f : A → bool) (l k m : list A) :
  l `prefix_of` k ++ m → 0 < count_if f k → count_if f l = 0 → l `prefix_of` k.
Proof.
  revert k. induction l as [|x l IH]; intros k Hp Hk Hl; [apply prefix_nil|].
  rewrite count_if_cons in Hl. pose proof (count_if_nonneg f l).
  destruct k as [|y k]; [done|]. cbn in Hp. apply prefix_cons_inv_1 in Hp as Hxy. apply prefix_cons_inv_2 in Hp. subst y.
  rewrite count_if_cons in Hk. apply prefix_cons, IH; [done|..]; destruct (f x); simpl in *; lia.
Qed.

(** All have ended: what was added before [stop()] has been begun. *)
Lemma s_drained ss c add con bef asg q :
  stop_ok n ss (Some (c, SDone)) add con bef → length ss = n → (0 < n)%nat → (c = None ∨ (1 < n)%nat) →
  (∀ i x, ss !! i = Some x → phase_of x = Ended) → asg ++ q = add → asg ≡ₚ con → bef ⊆+ con.
Proof.
  intros Hs Hlen Hn0 Hc Hall Hfi Hha. pose proof (s_one _ _ _ _ _ Hs) as H1. destruct Hs as [Hg Hl _ _ Hn Hb].
  destruct (Hb ltac:(done)) as [Hpre Hnull]. rewrite <- Hha.
  assert (bef `prefix_of` asg) as [m ->]; [|by apply submseteq_inserts_r].
  rewrite <- Hfi in Hpre. apply (prefix_until is_null _ _ _ Hpre); [|done].
  rewrite (count_if_perm _ _ _ Hha). fold (nulls con).
  assert (count_if ended ss = Z.of_nat n) as Hgn.
  { rewrite <- Hlen. clear -Hall. induction ss as [|x l IH]; [done|]. rewrite count_if_cons. cbn [length].
    rewrite IH by (intros i w Hw; by apply (Hall (S i))). unfold ended. rewrite (Hall 0%nat x) by done. simpl. lia. }
  destruct Hc as [->|Hc]; [|lia]. assert (count_if ended_last ss = 0); [|lia].
  pose proof (count_if_nonneg ended_last ss). destruct (decide (0 < count_if ended_last ss)) as [Hpos|]; [|lia].
  apply count_if_witness in Hpos as (i & w & Hw & Hgl). apply andb_prop in Hgl as [_ Hgl]. by destruct (Hl i w Hw Hgl).
Qed.
End stop_ok.
