(* ===== verification/ThreadPoolFast.v ===== *)
(** * The pool that hands tasks to workers ([thread_pool_fast.cpp])

    Each worker has its own mutex, condition variable and task slot; the pool
    keeps the workers that have nothing to do.  The number of a worker is kept in the
    static [worker_num_], a [ThreadLocal] of the process: what it holds when the pool
    is built is an argument, and its 16 slots are all there are for the workers of
    all the pools of the process.  A worker that finds none left writes behind the
    array; nothing is said of it afterwards ([Overrun]).  Worker threads are named by
    their index, and no other thread uses [worker_num_] while the pool exists.
    [added], [assigned] and
    [consumed] are ghosts: the calls of [addTask()], the calls of
    [assignTask()] and what the workers took out of their slots, in order;
    [before] is what had been added when [stop()] was called. *)

From S2P Require Import Prelude Threads ThreadLocal ThreadPool.
From stdpp Require Import base numbers list gmap sorting relations.
Open Scope Z_scope.

(** ** The code *)

(** Where a worker is in [workerLoop()]. *)
Inductive wpc : Type :=
| Enter              (* worker_num_.setVal(instance) *)
| Wait               (* while (!has_task_) *)
| Asleep             (* cv_has_task_.wait(&m_) *)
| Look               (* if (task_ == NULL) *)
| Run                (* ( *task_)() *)
| Back               (* my_pool_->queueWorker(this) *)
| Gone               (* delete this; the thread has ended *)
| Overrun.           (* setVal() wrote behind storageArr *)

Instance wpc_eq_dec : EqDecision wpc.
Proof. solve_decision. Defined.

Record Worker : Type := mkWorker {
  has_task_ : bool;
  task_ : option task;
  at_ : wpc;
  last_worker_ : bool;
}.

(** [Worker(pool)]. *)
Definition Worker_init : Worker := mkWorker false None Enter false.

Record Pool : Type := mkPool {
  dispatch_queue_ : list (option task);
  workers_ : list nat;
  workers_tids_ : list Worker;
  stopping : option (option nat * spc);
  added : list (option task);
  assigned : list (option task);
  consumed : list (option task);
  before : list (option task);
  worker_num_ : ThreadLocal;
}.

(** What [signal] does to the worker it is sent to. *)
Definition woken (a : wpc) : wpc := if decide (a = Asleep) then Wait else a.

(** [Worker::assignTask(task)]; there is no such worker once it is deleted. *)
Definition assignTask (i : nat) (t : option task) (ws : list Worker) : option (list Worker) :=
  w ← ws !! i;
  match at_ w with
  | Gone => None
  | p => Some (<[i := mkWorker true t (woken p) (last_worker_ w)]> ws)
  end.

Definition queueWorker (i : nat) (p : Pool) : option Pool :=
  match dispatch_queue_ p with
  | t :: q =>
    ws ← assignTask i t (workers_tids_ p);
    Some (mkPool q (workers_ p) ws (stopping p) (added p) (assigned p ++ [t]) (consumed p) (before p) (worker_num_ p))
  | [] =>
    Some (mkPool [] (i :: workers_ p) (workers_tids_ p) (stopping p) (added p) (assigned p)
            (consumed p) (before p) (worker_num_ p))
  end.

Definition addTask (t : option task) (p : Pool) : option Pool :=
  match workers_ p with
  | i :: free =>
    ws ← assignTask i t (workers_tids_ p);
    Some (mkPool (dispatch_queue_ p) free ws (stopping p) (added p ++ [t]) (assigned p ++ [t])
            (consumed p) (before p) (worker_num_ p))
  | [] =>
    Some (mkPool (dispatch_queue_ p ++ [t]) [] (workers_tids_ p) (stopping p) (added p ++ [t])
            (assigned p) (consumed p) (before p) (worker_num_ p))
  end.

Definition count (p : Pool) : nat := length (dispatch_queue_ p).

Definition set_worker (i : nat) (w : Worker) (p : Pool) : Pool :=
  mkPool (dispatch_queue_ p) (workers_ p) (<[i := w]> (workers_tids_ p)) (stopping p) (added p)
    (assigned p) (consumed p) (before p) (worker_num_ p).

Definition consume (t : option task) (p : Pool) : Pool :=
  mkPool (dispatch_queue_ p) (workers_ p) (workers_tids_ p) (stopping p) (added p) (assigned p)
    (consumed p ++ [t]) (before p) (worker_num_ p).

Definition set_stopping (st : option nat * spc) (p : Pool) : Pool :=
  mkPool (dispatch_queue_ p) (workers_ p) (workers_tids_ p) (Some st) (added p) (assigned p)
    (consumed p) (before p) (worker_num_ p).

(** The task of worker [i] is inside [stop()]. *)
Definition in_stop (i : nat) (p : Pool) : bool :=
  match stopping p with
  | Some (Some c, SDone) => false
  | Some (Some c, _) => bool_decide (c = i)
  | _ => false
  end.

Definition set_worker_num (tl : ThreadLocal) (p : Pool) : Pool :=
  mkPool (dispatch_queue_ p) (workers_ p) (workers_tids_ p) (stopping p) (added p) (assigned p)
    (consumed p) (before p) tl.

(** The thread of worker [i] returns: pthread runs the destructor of its key. *)
Definition thread_exit (i : nat) (p : Pool) : Pool :=
  match destroyLocalKey i (worker_num_ p) with Ok _ tl => set_worker_num tl p | Err _ => p end.

(** The next action of [workerLoop()] of worker [i]. *)
Definition workerLoop (i : nat) (p : Pool) : option Pool :=
  w ← workers_tids_ p !! i;
  match at_ w with
  | Enter =>
    match setVal i (Z.of_nat i) (worker_num_ p) with
    | Ok _ tl => Some (set_worker i (mkWorker (has_task_ w) (task_ w) Wait (last_worker_ w)) (set_worker_num tl p))
    | Err _ => Some (set_worker i (mkWorker (has_task_ w) (task_ w) Overrun (last_worker_ w)) p)
    end
  | Wait =>
    if has_task_ w then Some (set_worker i (mkWorker false (task_ w) Look (last_worker_ w)) p)
    else Some (set_worker i (mkWorker false (task_ w) Asleep (last_worker_ w)) p)
  | Asleep => None
  | Look =>
    match task_ w with
    | None => Some (thread_exit i (set_worker i (mkWorker (has_task_ w) None Gone (last_worker_ w)) (consume None p)))
    | Some t => Some (set_worker i (mkWorker (has_task_ w) (Some t) Run (last_worker_ w)) (consume (Some t) p))
    end
  | Run =>
    if in_stop i p then None
    else if last_worker_ w then Some (thread_exit i (set_worker i (mkWorker (has_task_ w) (task_ w) Gone true) p))
    else Some (set_worker i (mkWorker (has_task_ w) (task_ w) Back false) p)
  | Back =>
    p' ← queueWorker i (set_worker i (mkWorker (has_task_ w) (task_ w) Wait (last_worker_ w)) p);
    Some p'
  | Gone | Overrun => None
  end.

(** [ThreadPoolFast::ME()] and [setMEForTest(i)], called by the thread [t]. *)
Definition ME (t : nat) : M ThreadLocal Z := getVal t.
Definition setMEForTest (t : nat) (i : Z) : M ThreadLocal unit := setVal t i.

(** [stop()] is called by [c], a worker that runs a task or another thread. *)
Definition stop (c : option nat) (p : Pool) : option Pool :=
  match stopping p with
  | Some _ => None
  | None =>
    let start := mkPool (dispatch_queue_ p) (workers_ p) (workers_tids_ p)
      (Some (c, SAdd (length (workers_tids_ p)))) (added p) (assigned p) (consumed p) (added p) (worker_num_ p) in
    match c with
    | None => Some start
    | Some i => w ← workers_tids_ p !! i; if decide (at_ w = Run) then Some start else None
    end
  end.

(** [last_worker_ = true] in the thread that runs [stop()]. *)
Definition set_last (c : option nat) (p : Pool) : Pool :=
  match c with
  | None => p
  | Some i =>
    match workers_tids_ p !! i with
    | Some w => set_worker i (mkWorker (has_task_ w) (task_ w) (at_ w) true) p
    | None => p
    end
  end.

(** The next action inside [stop()]: one [addTask(NULL)] or one [pthread_join]. *)
Definition stop_next (p : Pool) : option Pool :=
  match stopping p with
  | Some (c, SAdd (S k)) => p' ← addTask None p; Some (set_stopping (c, SAdd k) p')
  | Some (c, SAdd 0) => Some (set_stopping (c, SJoin 0) p)
  | Some (c, SJoin i) =>
    match workers_tids_ p !! i with
    | None => Some (set_stopping (c, SDone) (set_last c p))
    | Some w =>
      if decide (c = Some i) then Some (set_stopping (c, SJoin (S i)) p)
      else if decide (at_ w = Gone) then Some (set_stopping (c, SJoin (S i)) p)
      else None
    end
  | _ => None
  end.

Definition fast_step (l : label) (p : Pool) : option Pool :=
  match l with
  | AddTask t _ => addTask (Some t) p
  | W i => workerLoop i p
  | Stop c => stop c p
  | StopNext => stop_next p
  end.

(** [ThreadPoolFast(num_workers)]. *)
Definition start_worker (p : Pool) : option Pool :=
  let i := length (workers_tids_ p) in
  queueWorker i (mkPool (dispatch_queue_ p) (workers_ p) (workers_tids_ p ++ [Worker_init])
    (stopping p) (added p) (assigned p) (consumed p) (before p) (worker_num_ p)).

Fixpoint start_workers (n : nat) (p : Pool) : option Pool :=
  match n with
  | O => Some p
  | S n' => p' ← start_worker p; start_workers n' p'
  end.

Definition ThreadPoolFast_init (tl : ThreadLocal) (num_workers : nat) : option Pool :=
  start_workers num_workers (mkPool [] [] [] None [] [] [] [] tl).

(** There is a slot of [worker_num_] left for each of [n] more workers. *)
Definition room (tl : ThreadLocal) (n : nat) : Prop :=
  (∃ m, local_rep 0 tl m) ∧ (curavail_slot_ tl + n ≤ MAXNUMOFTHREADS)%nat.

(** [~ThreadPoolFast()]: the queue becomes empty; the tasks that are deleted. *)
Definition ThreadPoolFast_destroy (once : task → bool) (p : Pool) : Pool * list task :=
  (mkPool [] (workers_ p) (workers_tids_ p) (stopping p) (added p) (assigned p) (consumed p) (before p) (worker_num_ p),
   disposed once (dispatch_queue_ p)).

Instance fast_pool : ThreadPool Pool := {
  pool_start n p := ∃ tl, room tl n ∧ ThreadPoolFast_init tl n = Some p;
  pool_step := fast_step;
  pool_added := added;
  pool_begun := consumed;
  pool_waiting := dispatch_queue_;
  pool_stopped p := Forall (λ w, at_ w = Gone) (workers_tids_ p) ∧ ∃ c, stopping p = Some (c, SDone);
  pool_before := before;
  pool_caller p := fst <$> stopping p;
}.

(** ** Dispatching *)

(** A worker that waits for a task. *)
Definition idle (w : Worker) : bool :=
  negb (has_task_ w) && match at_ w with Enter | Wait | Asleep | Overrun => true | _ => false end.

(** Where a worker is that has a task in its slot. *)
Definition parked (a : wpc) : Prop := a = Enter ∨ a = Wait ∨ a = Overrun.

(** The task a worker has been assigned and not yet taken. *)
Definition hand (w : Worker) : list (option task) :=
  if has_task_ w || match at_ w with Look => true | _ => false end then [task_ w] else [].

(** What matters to [stop()]. *)
Definition status (w : Worker) : Status :=
  mkStatus (match at_ w with Run => InTask | Gone => Ended | _ => Busy end) (last_worker_ w).

(** The workers in the free list are those with nothing to do, none of them
    waits while there are tasks, and tasks are assigned in the order of arrival. *)
Record dispatch_ok (n : nat) (q : list (option task)) (free : list nat) (ws : list Worker)
    (asg add con : list (option task)) : Prop := {
  d_len : length ws = n;
  d_nodup : NoDup free;
  d_free : ∀ i, i ∈ free ↔ ∃ w, ws !! i = Some w ∧ idle w = true;
  d_work : free ≠ [] → q = [];
  d_has : ∀ i w, ws !! i = Some w → has_task_ w = true → parked (at_ w);
  d_fifo : asg ++ q = add;
  d_hand : asg ≡ₚ con ++ hands hand ws;
}.

Lemma d_set n q free ws asg add con con' i w w' :
  dispatch_ok n q free ws asg add con → ws !! i = Some w →
  idle w' = idle w → (has_task_ w' = true → parked (at_ w')) → con' ++ hand w' ≡ₚ con ++ hand w →
  dispatch_ok n q free (<[i := w']> ws) asg add con'.
Proof.
  intros [Hl Hnd Hf Hw Hh Hfi Hha] Hi Hid Hhas Hcon. split; [by rewrite length_insert|done| |done| |done|].
  - intros j. rewrite Hf. destruct (decide (i = j)) as [<-|Hne].
    + rewrite list_lookup_insert_eq by eauto using lookup_lt_Some. rewrite Hi.
      split; intros (? & ? & ?); simplify_eq; eexists; split; [done|congruence|done|congruence].
    + by rewrite list_lookup_insert_ne.
  - intros j v. destruct (decide (i = j)) as [<-|Hne].
    + rewrite list_lookup_insert_eq by eauto using lookup_lt_Some. intros ??. simplify_eq. auto.
    + rewrite list_lookup_insert_ne by done. apply Hh.
  - rewrite Hha, (hands_lookup hand ws i w Hi), (hands_insert hand ws i w w' Hi), !(assoc_L (++)).
    by rewrite <- Hcon.
Qed.

(** A worker that is not waiting, or the first one of the free list, gets a task. *)
Lemma d_assign n q q' free free' ws asg add add' con i w a l t :
  dispatch_ok n q free ws asg add con → ws !! i = Some w → parked a →
  i ∉ free' → (∀ j, j ≠ i → j ∈ free' ↔ j ∈ free) → NoDup free' → (free' ≠ [] → q' = []) →
  hand w = [] → (asg ++ [t]) ++ q' = add' →
  dispatch_ok n q' free' (<[i := mkWorker true t a l]> ws) (asg ++ [t]) add' con.
Proof.
  intros [Hl Hnd Hf Hw Hh Hfi Hha] Hi Hpa Hin Hsame Hnd' Hw' Hno Hadd.
  split; [by rewrite length_insert|done| |done| |done|].
  - intros j. destruct (decide (i = j)) as [<-|Hne].
    + rewrite list_lookup_insert_eq by eauto using lookup_lt_Some.
      split; [done|]. intros (? & ? & ?). by simplify_eq.
    + rewrite list_lookup_insert_ne by done. rewrite Hsame by done. apply Hf.
  - intros j v. destruct (decide (i = j)) as [<-|Hne].
    + rewrite list_lookup_insert_eq by eauto using lookup_lt_Some. intros ??. by simplify_eq.
    + rewrite list_lookup_insert_ne by done. apply Hh.
  - rewrite Hha, (hands_lookup hand ws i w Hi), (hands_insert hand ws i w _ Hi), Hno. cbn.
    by rewrite <- (assoc_L (++)), (Permutation_app_comm _ [t]).
Qed.

(** The worker of a free list entry exists and is not deleted. *)
Lemma d_head n q i free ws asg add con :
  dispatch_ok n q (i :: free) ws asg add con → ∃ w, ws !! i = Some w ∧ idle w = true ∧ hand w = [] ∧ parked (woken (at_ w)) ∧
    ∀ t, assignTask i t ws = Some (<[i := mkWorker true t (woken (at_ w)) (last_worker_ w)]> ws).
Proof.
  intros [Hl Hnd Hf Hw Hh Hfi Hha]. destruct (Hf i) as [[w [Hi Hid]] _]; [left|].
  exists w. split; [done|]. split; [done|]. unfold idle in Hid. apply andb_prop in Hid as [Hn Ha]. apply negb_true_iff in Hn.
  unfold hand, assignTask, parked. rewrite Hn, Hi. cbn. destruct (at_ w); cbn; naive_solver.
Qed.

Definition dispatches (n : nat) (p : Pool) : Prop :=
  dispatch_ok n (dispatch_queue_ p) (workers_ p) (workers_tids_ p) (assigned p) (added p) (consumed p).

(** [addTask()] always succeeds: it never meets a deleted worker. *)
Lemma addTask_ok n t p : dispatches n p → ∃ p', addTask t p = Some p' ∧ dispatches n p' ∧
  added p' = added p ++ [t] ∧ consumed p' = consumed p ∧ stopping p' = stopping p ∧ before p' = before p ∧
  (workers_tids_ p' = workers_tids_ p ∨
   ∃ i w, workers_tids_ p !! i = Some w ∧ idle w = true ∧
     workers_tids_ p' = <[i := mkWorker true t (woken (at_ w)) (last_worker_ w)]> (workers_tids_ p)).
Proof.
  unfold dispatches, addTask. intros Hd. destruct (workers_ p) as [|i free] eqn:Ef.
  - eexists. split; [done|]. cbn. split_and!; try done; [|by left]. destruct Hd as [Hl Hnd Hf Hw Hh Hfi Hha].
    split; try done. by rewrite (assoc_L (++)), Hfi.
  - destruct (d_head _ _ _ _ _ _ _ _ Hd) as (w & Hi & Hid & Hno & Hpa & Has). rewrite Has. cbn.
    eexists. split; [done|]. cbn. split_and!; try done; [|right; by exists i, w].
    pose proof Hd as [Hl Hnd Hf Hw Hh Hfi Hha]. apply NoDup_cons in Hnd as [Hni Hnd]. specialize (Hw ltac:(done)).
    eapply d_assign; [exact Hd|exact Hi|done|done|set_solver|done|done|done|]. rewrite Hw, !app_nil_r in *. by rewrite Hfi.
Qed.

(** A worker that comes back takes the first waiting task, or is free. *)
Lemma queueWorker_ok n i w p : dispatches n p → workers_tids_ p !! i = Some w → at_ w = Back →
  let w1 := mkWorker (has_task_ w) (task_ w) Wait (last_worker_ w) in
  ∃ p' w', queueWorker i (set_worker i w1 p) = Some p' ∧ dispatches n p' ∧
  added p' = added p ∧ consumed p' = consumed p ∧ stopping p' = stopping p ∧ before p' = before p ∧
  length (dispatch_queue_ p') = pred (length (dispatch_queue_ p)) ∧ at_ w' = Wait ∧ last_worker_ w' = last_worker_ w ∧
  has_task_ w' = bool_decide (dispatch_queue_ p ≠ []) ∧
  workers_tids_ p' = <[i := w']> (workers_tids_ p).
Proof.
  intros Hd Hi Hb w1. pose proof Hd as [Hl Hnd Hf Hw Hh Hfi Hha]. unfold queueWorker, dispatches in *. cbn.
  assert (Hnf : i ∉ workers_ p).
  { rewrite Hf. intros (v & Hv & Hid). simplify_eq. unfold idle in Hid. rewrite Hb in Hid. by rewrite andb_false_r in Hid. }
  assert (Hnt : has_task_ w = false).
  { destruct (has_task_ w) eqn:E; [|done]. destruct (Hh i w Hi E) as [?|[?|?]]; congruence. }
  assert (Hno : hand w = []) by (unfold hand; by rewrite Hnt, Hb).
  destruct (dispatch_queue_ p) as [|t q] eqn:Eq.
  - eexists _, w1. split; [done|]. cbn. rewrite Hnt. split_and!; try done.
    split; cbn; rewrite ?length_insert; try done.
    + by constructor.
    + intros j. rewrite elem_of_cons, Hf. destruct (decide (j = i)) as [->|Hne].
      * rewrite list_lookup_insert_eq by eauto using lookup_lt_Some. split; [|by left]. intros _. eexists. split; [done|].
        unfold w1, idle. cbn. by rewrite Hnt.
      * rewrite list_lookup_insert_ne by done. split; [intros [?|?]; [done|done]|by right].
    + intros j v. destruct (decide (i = j)) as [<-|Hne].
      * rewrite list_lookup_insert_eq by eauto using lookup_lt_Some. intros ??. simplify_eq/=. by right; left.
      * rewrite list_lookup_insert_ne by done. apply Hh.
    + rewrite Hha, (hands_lookup hand _ i w Hi), (hands_insert hand _ i w _ Hi), Hno. unfold hand at 3, w1. cbn. by rewrite Hnt.
  - eexists _, (mkWorker true t Wait (last_worker_ w)). unfold assignTask.
    rewrite list_lookup_insert_eq by eauto using lookup_lt_Some. cbn. split; [done|]. cbn.
    rewrite list_insert_insert_eq. split_and!; try done.
    eapply d_assign; try done; [by right; left| |by rewrite <- (assoc_L (++))]. intros Hne. by specialize (Hw Hne).
Qed.

(** ** Stopping *)

Definition stops (n : nat) (p : Pool) : Prop :=
  stop_ok n (status <$> workers_tids_ p) (stopping p) (added p) (consumed p) (before p).

Definition pool_inv (n : nat) (p : Pool) : Prop := dispatches n p ∧ stops n p.

Lemma status_lookup (ws : list Worker) (i : nat) w : ws !! i = Some w → (status <$> ws) !! i = Some (status w).
Proof. intros Hi. by rewrite list_lookup_fmap, Hi. Qed.

Lemma status_inv (ws : list Worker) (i : nat) x : (status <$> ws) !! i = Some x → ∃ w, ws !! i = Some w ∧ x = status w.
Proof. rewrite list_lookup_fmap. destruct (ws !! i) as [w|]; [|done]. intros [= <-]. eauto. Qed.

Lemma in_stop_done i p s : in_stop i p = false → stopping p = Some (Some i, s) → s = SDone.
Proof. unfold in_stop. intros Hi Hs. rewrite Hs in Hi. destruct s; try done; by rewrite bool_decide_true in Hi. Qed.

(** A task is added: only the list of the calls and an idle worker change. *)
Lemma s_assigned n t p p' : pool_inv n p → addTask t p = Some p' →
  stop_ok n (status <$> workers_tids_ p') (stopping p) (added p) (consumed p) (before p).
Proof.
  intros [Hd Hs] Ha. destruct (addTask_ok n t p Hd) as (p1 & E & _ & _ & _ & _ & _ & Hws). simplify_eq.
  destruct Hws as [->|(i & w & Hi & Hid & ->)]; [done|]. rewrite list_fmap_insert.
  assert (status (mkWorker true t (woken (at_ w)) (last_worker_ w)) = status w) as ->.
  { unfold idle in Hid. unfold status, woken. cbn. by destruct (at_ w); rewrite ?andb_false_r in Hid. }
  by rewrite list_insert_id by (by apply status_lookup).
Qed.

Lemma addTask_inv n t p p' : pool_inv n p → addTask (Some t) p = Some p' → pool_inv n p'.
Proof.
  intros Hp Ha. destruct (addTask_ok n (Some t) p (proj1 Hp)) as (p1 & E & Hd' & Ead & Eco & Est & Ebe & _).
  pose proof (s_assigned n _ p p' Hp Ha) as Hs'. simplify_eq. split; [done|]. unfold stops. rewrite Ead, Eco, Est, Ebe.
  by apply s_task.
Qed.

(** One action of a worker that only changes its own state. *)
Lemma worker_set n p i w w' con' :
  pool_inv n p → workers_tids_ p !! i = Some w → last_worker_ w' = last_worker_ w →
  idle w' = idle w → (has_task_ w' = true → parked (at_ w')) → con' ++ hand w' ≡ₚ consumed p ++ hand w →
  nulls con' + Z.b2z (ended_last (status w')) + Z.b2z (ended (status w)) =
    nulls (consumed p) + Z.b2z (ended_last (status w)) + Z.b2z (ended (status w')) →
  at_ w ≠ Gone → (last_worker_ w = true → at_ w' = Run ∨ at_ w' = Gone) →
  (at_ w = Run → at_ w' = Run ∨ in_stop i p = false) →
  pool_inv n (mkPool (dispatch_queue_ p) (workers_ p) (<[i := w']> (workers_tids_ p)) (stopping p) (added p)
    (assigned p) con' (before p) (worker_num_ p)).
Proof.
  intros [Hd Hs] Hi Hl Hid Hh Hcon Hcnt Hng Hl' Hrun. split; [eapply d_set; eauto|].
  unfold stops. cbn. rewrite list_fmap_insert. eapply s_set; [exact Hs|by apply status_lookup|done|done|..].
  - unfold status. cbn. by destruct (at_ w).
  - intros Hx. destruct (Hl' Hx) as [E|E]; unfold status; cbn; by rewrite E.
  - unfold status at 1. cbn. intros Hx. destruct (Hrun ltac:(by destruct (at_ w))) as [E|E].
    + left. unfold status. cbn. by rewrite E.
    + right. intros s. by apply in_stop_done.
Qed.

(** The end of a thread changes [worker_num_] only. *)
Lemma thread_exit_same i p : ∃ tl, thread_exit i p = set_worker_num tl p.
Proof. unfold thread_exit. destruct (destroyLocalKey _ _) as [[] tl|e]; [by exists tl|]. exists (worker_num_ p). by destruct p. Qed.

Lemma thread_exit_inv n i p : pool_inv n p → pool_inv n (thread_exit i p).
Proof. by destruct (thread_exit_same i p) as [tl ->]. Qed.

Lemma workerLoop_inv n i p p' : pool_inv n p → workerLoop i p = Some p' → pool_inv n p'.
Proof.
  intros Hp Hw. unfold workerLoop in Hw. destruct (workers_tids_ p !! i) as [w|] eqn:Hi; [|done]. cbn in Hw.
  pose proof (d_has _ _ _ _ _ _ _ (proj1 Hp) i w Hi) as Hh.
  pose proof (s_last _ _ _ _ _ _ (proj2 Hp) i _ (status_lookup _ _ _ Hi)) as Hl.
  assert (Hset : ∀ w' con', _) by exact (λ w' con', worker_set n p i w w' con' Hp Hi).
  destruct w as [h t a l]. destruct a; cbn in *; try done.
  - assert (l = false) as -> by (destruct l; [by destruct (Hl eq_refl) as [_ ?]|done]). unfold parked in *.
    destruct (setVal _ _ _) as [[] tl|e]; simplify_eq; (eapply Hset; unfold ended_last, ended, idle, hand; cbn; try done; auto).
  - destruct h; simplify_eq; (eapply Hset; unfold ended_last, ended, idle, hand; cbn; try done);
      intros ->; destruct (Hl eq_refl) as [_ ?]; done.
  - assert (h = false) as -> by (destruct h; [by destruct (Hh eq_refl) as [?|[?|?]]|done]).
    assert (l = false) as -> by (destruct l; [by destruct (Hl eq_refl) as [_ ?]|done]).
    destruct t as [t|]; simplify_eq; try apply thread_exit_inv; (eapply Hset; unfold ended_last, ended, idle, hand; cbn; try done);
      rewrite ?app_nil_r, ?nulls_snoc; try done; cbn; lia.
  - assert (h = false) as -> by (destruct h; [by destruct (Hh eq_refl) as [?|[?|?]]|done]).
    destruct (in_stop i p) eqn:Hin; [done|].
    destruct l; simplify_eq; try apply thread_exit_inv; (eapply Hset; unfold ended_last, ended, idle, hand; cbn; try done; auto; lia).
  - assert (l = false) as -> by (destruct l; [by destruct (Hl eq_refl) as [_ ?]|done]).
    clear Hset. destruct Hp as [Hd Hs].
    destruct (queueWorker_ok n i _ p Hd Hi eq_refl) as (p1 & w' & E & Hd' & Ead & Eco & Est & Ebe & _ & Ea & El & _ & Ews).
    cbn in E. rewrite E in Hw. simplify_eq/=. split; [done|]. unfold stops. rewrite Ead, Eco, Est, Ebe, Ews, list_fmap_insert.
    eapply s_set; [exact Hs|by apply status_lookup|..]; cbn; try done. unfold ended_last, ended, status. cbn. by rewrite Ea.
Qed.

Lemma stop_inv n c p p' : pool_inv n p → stop c p = Some p' → pool_inv n p'.
Proof.
  intros [Hd Hs] Hst. unfold stop, stops in *. destruct (stopping p) eqn:Es; [done|].
  pose proof (d_len _ _ _ _ _ _ _ Hd) as Hlen. rewrite Hlen in Hst.
  assert (Hrun : ∀ i, c = Some i → ∃ x, (status <$> workers_tids_ p) !! i = Some x ∧ phase_of x = InTask).
  { intros i ->. destruct (workers_tids_ p !! i) as [w|] eqn:Hw; [|done]. cbn in Hst. case_decide as Ha; [|done].
    exists (status w). split; [by apply status_lookup|]. unfold status. by rewrite Ha. }
  apply (s_begin _ _ _ _ _ c) in Hs; [|done].
  destruct c as [i|]; [|by simplify_eq]. destruct (workers_tids_ p !! i); [|done]. cbn in Hst. case_decide; by simplify_eq.
Qed.

Lemma set_last_dispatches n c p : dispatches n p → dispatches n (set_last c p).
Proof.
  intros Hd. destruct c as [j|]; [|done]. unfold set_last. destruct (workers_tids_ p !! j) as [w|] eqn:Hj; [|done].
  eapply d_set; [exact Hd|exact Hj|done| |done]. apply (d_has _ _ _ _ _ _ _ Hd j w Hj).
Qed.

Lemma set_last_status c p : status <$> workers_tids_ (set_last c p) = mark_last c (status <$> workers_tids_ p).
Proof.
  destruct c as [j|]; [|done]. cbn. rewrite list_lookup_fmap. destruct (workers_tids_ p !! j) as [w|]; [|done]. cbn.
  by rewrite list_fmap_insert.
Qed.

Lemma set_last_fields c p :
  added (set_last c p) = added p ∧ consumed (set_last c p) = consumed p ∧ before (set_last c p) = before p.
Proof. destruct c as [j|]; [|done]. cbn. by destruct (workers_tids_ p !! j). Qed.

Lemma stop_next_inv n p p' : pool_inv n p → stop_next p = Some p' → pool_inv n p'.
Proof.
  intros Hp Hst. unfold stop_next in Hst. destruct (stopping p) as [[c [[|k]|i|]]|] eqn:Es; [| | |done|done].
  - destruct Hp as [Hd Hs]. simplify_eq. split; [exact Hd|]. unfold stops in *. rewrite Es in Hs. by apply s_added.
  - destruct (addTask_ok n None p (proj1 Hp)) as (p1 & E & Hd' & Ead & Eco & Est & Ebe & _).
    pose proof (s_assigned n _ p p1 Hp E) as Hs'. rewrite E in Hst. simplify_eq/=. split; [exact Hd'|]. unfold stops. cbn.
    rewrite Ead, Eco, Ebe. rewrite Es in Hs'. by apply s_null.
  - destruct Hp as [Hd Hs]. unfold stops in Hs. rewrite Es in Hs. destruct (workers_tids_ p !! i) as [w|] eqn:Hi.
    + assert (p' = set_stopping (c, SJoin (S i)) p ∧ (c ≠ Some i → at_ w = Gone)) as [-> Hgo].
      { case_decide; [by simplify_eq|]. case_decide; by simplify_eq. }
      split; [exact Hd|]. eapply s_joined; [exact Hs|by apply status_lookup|]. intros Hc. unfold status. cbn. by rewrite Hgo.
    + simplify_eq. split; [by apply set_last_dispatches|]. unfold stops. cbn [set_stopping workers_tids_ stopping added consumed before].
      destruct (set_last_fields c p) as (-> & -> & ->). rewrite set_last_status.
      pose proof (d_len _ _ _ _ _ _ _ Hd) as Hlen. apply lookup_ge_None in Hi.
      eapply s_finish; [exact Hs|by rewrite length_fmap|lia].
Qed.

Lemma fast_step_inv n l p p' : pool_inv n p → fast_step l p = Some p' → pool_inv n p'.
Proof.
  destruct l; cbn; eauto using addTask_inv, workerLoop_inv, stop_inv, stop_next_inv.
Qed.

(** The constructor leaves all workers in the free list. *)
Lemma start_workers_ok tl n k :
  start_workers n (mkPool [] (rev (seq 0 k)) (replicate k Worker_init) None [] [] [] [] tl) =
  Some (mkPool [] (rev (seq 0 (n + k))) (replicate (n + k) Worker_init) None [] [] [] [] tl).
Proof.
  revert k. induction n as [|n IH]; intros k; [done|]. cbn [start_workers]. unfold start_worker, queueWorker. cbn.
  rewrite length_replicate, <- (replicate_S_end k). change (k :: rev (seq 0 k)) with ([k] ++ rev (seq 0 k)).
  change [k] with (rev [k]). rewrite <- rev_app_distr. change [k] with [(0 + k)%nat]. rewrite <- (seq_S k 0), IH.
  by rewrite Nat.add_succ_r.
Qed.

Lemma fast_init tl n :
  ThreadPoolFast_init tl n = Some (mkPool [] (rev (seq 0 n)) (replicate n Worker_init) None [] [] [] [] tl).
Proof. pose proof (start_workers_ok tl n 0) as E. by rewrite Nat.add_0_r in E. Qed.

Lemma fast_init_inv tl n p : ThreadPoolFast_init tl n = Some p → pool_inv n p.
Proof.
  rewrite fast_init. intros [= <-]. split; split; cbn; try done.
  - apply length_replicate.
  - apply NoDup_ListNoDup, NoDup_rev, seq_NoDup.
  - intros i. rewrite list_elem_of_In, <- in_rev, <- list_elem_of_In, elem_of_seq. split.
    + intros Hi. exists Worker_init. split; [|done]. apply lookup_replicate_2. lia.
    + intros (w & Hw & _). apply lookup_replicate in Hw. lia.
  - intros i w Hw Hh. apply lookup_replicate in Hw as [-> _]. by left.
  - rewrite hands_nil; [done|]. intros i w Hw. by apply lookup_replicate in Hw as [-> _].
  - by rewrite fmap_replicate, !count_if_replicate.
  - intros i x (w & Hw & ->)%status_inv Hl. by apply lookup_replicate in Hw as [-> _].
Qed.

Lemma fast_inv tl n p0 p : ThreadPoolFast_init tl n = Some p0 → reachable fast_step p0 p → pool_inv n p.
Proof. intros Hi. apply invariant_reachable; [by eapply fast_init_inv|eauto using fast_step_inv]. Qed.

(** ** The numbers of the workers *)

(** A worker that has not come to [setVal()] yet. *)
Definition entering (w : Worker) : bool := match at_ w with Enter => true | _ => false end.

Section numbers.
(** How many slots are left over. *)
Context (spare : nat).

(** There is a slot for each worker that still needs one, no worker has missed its
    own, and every worker inside its loop finds its number. *)
Definition numbered (tl : ThreadLocal) (ws : list Worker) : Prop :=
  ∃ m, local_rep 0 tl m ∧
  Z.of_nat (curavail_slot_ tl) + count_if entering ws + Z.of_nat spare ≤ Z.of_nat MAXNUMOFTHREADS ∧
  ∀ i w, ws !! i = Some w →
    match at_ w with Enter | Gone => True | Overrun => False | _ => m !! i = Some (Z.of_nat i) end.

(** A worker goes on inside its loop. *)
Lemma numbered_set tl ws i w w' : numbered tl ws → ws !! i = Some w → (at_ w = at_ w' ∨ at_ w ≠ Enter ∧ at_ w ≠ Gone) →
  at_ w' ≠ Overrun → (at_ w' = Enter → at_ w = Enter) → numbered tl (<[i := w']> ws).
Proof.
  intros (m & Hm & Hc & Hw) Hi Hsame Hno Hen. exists m. split; [done|]. split.
  - rewrite (count_if_insert _ _ _ _ _ Hi). unfold entering in *. destruct (at_ w), (at_ w'); cbn; naive_solver lia.
  - intros j v. destruct (decide (i = j)) as [<-|Hne].
    + rewrite list_lookup_insert_eq by eauto using lookup_lt_Some. intros [= <-]. specialize (Hw i w Hi).
      destruct (at_ w), (at_ w'); naive_solver.
    + rewrite list_lookup_insert_ne by done. apply Hw.
Qed.

(** A worker that enters gets its number. *)
Lemma numbered_enter tl ws i w w' : numbered tl ws → ws !! i = Some w → at_ w = Enter → at_ w' = Wait →
  ∃ tl', setVal i (Z.of_nat i) tl = Ok tt tl' ∧ numbered tl' (<[i := w']> ws).
Proof.
  intros (m & Hm & Hc & Hw) Hi Ha Ha'.
  assert (Hone : Z.of_nat (curavail_slot_ tl) + 1 + count_if entering (<[i := w']> ws) + Z.of_nat spare ≤ Z.of_nat MAXNUMOFTHREADS).
  { rewrite (count_if_insert _ _ _ _ _ Hi). unfold entering at 2 3. rewrite Ha, Ha'. cbn. lia. }
  pose proof (count_if_nonneg entering (<[i := w']> ws)) as Hnn.
  destruct (local_exec_ok 0 tl m (ThreadLocal.Set_ i (Z.of_nat i)) Hm) as (tl' & Hr & Hm' & Ec); [intros _; lia|].
  cbn [local_exec] in Hr. unfold mbind, M_bind in Hr. destruct (setVal _ _ _) as [[] tl1|e]; [|done].
  injection Hr as <-. exists tl1. split; [done|]. eexists. split; [exact Hm'|]. split; [rewrite Ec; case_match; lia|].
  intros j v. destruct (decide (i = j)) as [<-|Hne].
  - rewrite list_lookup_insert_eq by eauto using lookup_lt_Some. intros [= <-]. rewrite Ha'. cbn. apply lookup_insert_eq.
  - rewrite list_lookup_insert_ne by done. intros Hv. cbn. rewrite lookup_insert_ne by done. by apply Hw.
Qed.

(** A worker ends: the others keep their numbers. *)
Lemma numbered_exit tl ws i w w' : numbered tl ws → ws !! i = Some w → at_ w ≠ Enter → at_ w' = Gone →
  ∃ tl', destroyLocalKey i tl = Ok tt tl' ∧ numbered tl' (<[i := w']> ws).
Proof.
  intros (m & Hm & Hc & Hw) Hi Ha Ha'. destruct (local_exec_ok 0 tl m (Exit i) Hm) as (tl' & Hr & Hm' & Ec); [done|].
  cbn [local_exec] in Hr. unfold mbind, M_bind in Hr. destruct (destroyLocalKey _ _) as [[] tl1|e]; [|done].
  injection Hr as <-. exists tl1. split; [done|]. eexists. split; [exact Hm'|]. split.
  - rewrite Ec, (count_if_insert _ _ _ _ _ Hi). unfold entering at 2 3. rewrite Ha'. cbn. destruct (at_ w); cbn; naive_solver lia.
  - intros j v. destruct (decide (i = j)) as [<-|Hne].
    + rewrite list_lookup_insert_eq by eauto using lookup_lt_Some. intros [= <-]. by rewrite Ha'.
    + rewrite list_lookup_insert_ne by done. intros Hv. cbn. rewrite lookup_delete_ne by done. by apply Hw.
Qed.

Definition pool_numbered (p : Pool) : Prop := numbered (worker_num_ p) (workers_tids_ p).

Lemma addTask_numbered n t p p' : dispatches n p → pool_numbered p → addTask t p = Some p' → pool_numbered p'.
Proof.
  intros Hd Hp Ha. assert (Htl : worker_num_ p' = worker_num_ p).
  { unfold addTask in Ha. destruct (workers_ p); [by injection Ha as <-|]. destruct (assignTask _ _ _); [|done]. by injection Ha as <-. }
  destruct (addTask_ok n t p Hd) as (p1 & E & _ & _ & _ & _ & _ & Hws). rewrite E in Ha. injection Ha as ->.
  unfold pool_numbered. rewrite Htl. destruct Hws as [->|(i & w & Hi & _ & ->)]; [done|].
  pose proof Hp as (m & _ & _ & Hw). specialize (Hw i w Hi).
  eapply numbered_set; [done|done|..]; cbn; unfold woken; case_decide as Ea; rewrite ?Ea; auto; by destruct (at_ w).
Qed.

Lemma workerLoop_numbered n i p p' : dispatches n p → pool_numbered p → workerLoop i p = Some p' → pool_numbered p'.
Proof.
  intros Hd Hp Hs. unfold workerLoop in Hs. destruct (workers_tids_ p !! i) as [w|] eqn:Hi; [|done]. cbn in Hs.
  unfold pool_numbered in *. destruct (at_ w) eqn:Ha; try done.
  - destruct (numbered_enter _ _ i w (mkWorker (has_task_ w) (task_ w) Wait (last_worker_ w)) Hp Hi Ha eq_refl) as (tl & E & Hn).
    rewrite E in Hs. by simplify_eq.
  - destruct (has_task_ w); simplify_eq; eapply numbered_set; rewrite ?Ha; cbn; eauto; by rewrite ?Ha.
  - destruct (task_ w); simplify_eq; [eapply numbered_set; rewrite ?Ha; cbn; eauto; by rewrite ?Ha|].
    destruct (numbered_exit _ _ i w (mkWorker (has_task_ w) None Gone (last_worker_ w)) Hp Hi) as (tl & E & Hn); [by rewrite Ha|done|].
    unfold thread_exit. cbn. by rewrite E.
  - destruct (in_stop i p); [done|]. destruct (last_worker_ w); simplify_eq; [|eapply numbered_set; rewrite ?Ha; cbn; eauto; by rewrite ?Ha].
    destruct (numbered_exit _ _ i w (mkWorker (has_task_ w) (task_ w) Gone true) Hp Hi) as (tl & E & Hn); [by rewrite Ha|done|].
    unfold thread_exit. cbn. by rewrite E.
  - destruct (queueWorker_ok n i w p Hd Hi Ha) as (p1 & w' & E & _ & _ & _ & _ & _ & _ & Ea & _ & _ & Ews).
    cbn in E. rewrite E in Hs. injection Hs as ->. rewrite Ews. replace (worker_num_ p') with (worker_num_ p).
    + eapply numbered_set; [done|done|right; by rewrite Ha|by rewrite Ea|by rewrite Ea].
    + revert E. unfold queueWorker. cbn. destruct (dispatch_queue_ p); [by intros [= <-]|]. destruct (assignTask _ _ _); [|done].
      by intros [= <-].
Qed.

Lemma stop_next_numbered n p p' : dispatches n p → pool_numbered p → stop_next p = Some p' → pool_numbered p'.
Proof.
  intros Hd Hp Hs. unfold stop_next in Hs. destruct (stopping p) as [[c [[|k]|i|]]|]; try done.
  - by simplify_eq.
  - destruct (addTask None p) as [q|] eqn:E; [|done]. simplify_eq/=. by apply (addTask_numbered n None p q).
  - destruct (workers_tids_ p !! i); [repeat case_decide; by simplify_eq|]. simplify_eq. destruct c as [j|]; [|done].
    unfold pool_numbered, set_last in *. destruct (workers_tids_ p !! j) as [w|] eqn:Hj; [|done]. cbn.
    pose proof Hp as (m & _ & _ & Hw). specialize (Hw j w Hj). eapply numbered_set; cbn; eauto. by destruct (at_ w).
Qed.

Lemma fast_step_numbered n l p p' : dispatches n p → pool_numbered p → fast_step l p = Some p' → pool_numbered p'.
Proof.
  destruct l as [t k|i|c|]; cbn; eauto using addTask_numbered, workerLoop_numbered, stop_next_numbered.
  intros _ Hp Hs. unfold stop in Hs. destruct (stopping p); [done|]. destruct c as [i|]; [|by simplify_eq].
  destruct (workers_tids_ p !! i); [|done]. cbn in Hs. case_decide; by simplify_eq.
Qed.

Lemma fast_numbered tl n p0 p : room tl (n + spare) → ThreadPoolFast_init tl n = Some p0 → reachable fast_step p0 p → pool_numbered p.
Proof.
  intros [[m Hm] Hroom] Hi Hr. apply (invariant_reachable fast_step (λ p, pool_inv n p ∧ pool_numbered p) p0); [| |done].
  - split; [by eapply fast_init_inv|]. rewrite fast_init in Hi. injection Hi as <-. exists m. split; [done|]. cbn. split.
    + pose proof (count_if_length entering (replicate n Worker_init)) as Hle. rewrite length_replicate in Hle. lia.
    + intros i w Hw. by apply lookup_replicate in Hw as [-> _].
  - intros l q q' [Hq Hn] Hs. split; [by eapply fast_step_inv|]. by eapply fast_step_numbered; [apply Hq|..].
Qed.

Lemma no_overrun p i w : pool_numbered p → workers_tids_ p !! i = Some w → at_ w ≠ Overrun.
Proof. intros (m & _ & _ & Hw) Hi Ha. specialize (Hw i w Hi). by rewrite Ha in Hw. Qed.

(** What [ME()] gives to a worker in its loop. *)
Lemma numbered_ME p i w : pool_numbered p → workers_tids_ p !! i = Some w → at_ w ≠ Enter → at_ w ≠ Gone →
  ∃ tl, ME i (worker_num_ p) = Ok (Z.of_nat i) tl.
Proof.
  intros (m & Hm & _ & Hw) Hi H1 H2. specialize (Hw i w Hi). assert (Em : m !! i = Some (Z.of_nat i)) by (by destruct (at_ w)).
  destruct (local_exec_ok 0 _ m (Get i) Hm) as (tl & Hr & _); [cbn; by rewrite Em|]. exists tl. cbn in Hr. by rewrite Em in Hr.
Qed.

(** What is left for the next pool of the process. *)
Lemma numbered_room p : pool_numbered p → room (worker_num_ p) spare.
Proof. intros (m & Hm & Hc & _). split; [by exists m|]. pose proof (count_if_nonneg entering (workers_tids_ p)). lia. Qed.
End numbers.

Lemma fast_numbered_all tl n p0 p : room tl n → ThreadPoolFast_init tl n = Some p0 → reachable fast_step p0 p → pool_numbered 0 p.
Proof. intros Hroom. apply (fast_numbered 0 tl n). by rewrite Nat.add_0_r. Qed.

(** ** What the pool promises *)

(** C5: The fast pool neither loses nor repeats a task.  Whatever the clients,
    the running tasks and the workers do, tasks are assigned in the order in
    which they were added; each assigned task has been taken by one worker or
    waits in the slot of one; no worker is idle while a task waits in the queue;
    and [addTask()] never meets a worker that was deleted.  As long as the 16 slots of
    [worker_num_] suffice for the workers, none of them writes behind it, and [ME()]
    gives every worker in its loop its own number. *)
Theorem fast_dispatch tl n p0 p :
  ThreadPoolFast_init tl n = Some p0 → reachable fast_step p0 p →
  assigned p ++ dispatch_queue_ p = added p ∧
  assigned p ≡ₚ consumed p ++ hands hand (workers_tids_ p) ∧
  (∀ i w, workers_tids_ p !! i = Some w → idle w = true → count p = O) ∧
  (∀ t, is_Some (addTask t p)) ∧
  (room tl n → ∀ i w, workers_tids_ p !! i = Some w → at_ w ≠ Overrun ∧
    (at_ w ≠ Enter → at_ w ≠ Gone → ∃ tl', ME i (worker_num_ p) = Ok (Z.of_nat i) tl')).
Proof.
  intros Hi Hr. destruct (fast_inv tl n p0 p Hi Hr) as [Hd _]. pose proof Hd as [_ _ Hf Hw _ Hfi Hha].
  split; [done|]. split; [done|]. split; [|split].
  - intros i w Hw' Hid. unfold count. rewrite Hw; [done|]. intros En. assert (i ∈ workers_ p) as H by (apply Hf; eauto).
    rewrite En in H. by apply elem_of_nil in H.
  - intros t. destruct (addTask_ok n t p Hd) as (p' & -> & _). done.
  - intros Hroom i w Hw'. pose proof (fast_numbered_all tl n p0 p Hroom Hi Hr) as Hn. split; [by apply (no_overrun 0 p i)|].
    by apply (numbered_ME 0).
Qed.

(** Two workers; three tasks; the first worker takes the last task. *)
Definition three_tasks : list label :=
  [AddTask 7 0; AddTask 8 0; AddTask 9 0; W 1; W 1; W 1; W 1; W 1]%nat.

Lemma fresh_room n : (n ≤ MAXNUMOFTHREADS)%nat → room ThreadLocal_init n.
Proof. intros Hn. split; [|done]. exists ∅. apply local_init_rep. Qed.

Lemma fast_dispatch_witness :
  ∃ p0 p tl', ThreadPoolFast_init ThreadLocal_init 2 = Some p0 ∧ run fast_step three_tasks p0 = Some p ∧
  added p = [Some 7; Some 8; Some 9]%nat ∧ assigned p ++ dispatch_queue_ p = added p ∧ ME 1 (worker_num_ p) = Ok 1 tl'.
Proof.
  assert (Hr : reachable fast_step (default (mkPool [] [] [] None [] [] [] [] ThreadLocal_init) (ThreadPoolFast_init ThreadLocal_init 2))
    (default (mkPool [] [] [] None [] [] [] [] ThreadLocal_init)
      (ThreadPoolFast_init ThreadLocal_init 2 ≫= run fast_step three_tasks))) by (exists three_tasks; vm_compute; reflexivity).
  destruct (fast_dispatch ThreadLocal_init 2 _ _ eq_refl Hr) as (H1 & _ & _ & _ & H2).
  destruct (H2 (fresh_room 2 ltac:(unfold MAXNUMOFTHREADS; lia)) 1%nat _ eq_refl) as [_ H3].
  destruct H3 as [tl' H3]; [done..|]. eexists _, _, tl'.
  split; [reflexivity|]. split; [vm_compute; reflexivity|]. split; [vm_compute; reflexivity|]. split; [exact H1|exact H3].
Defined.

(** The seventeenth worker: no slot is left, in one pool or in the third pool of a
    process. *)
Lemma seventeenth_worker : ∃ p w, ThreadPoolFast_init ThreadLocal_init 17 ≫= run fast_step (W <$> seq 0 17) = Some p ∧
  workers_tids_ p !! 16%nat = Some w ∧ at_ w = Overrun.
Proof. eexists _, _. split; [vm_compute; reflexivity|]. by split. Qed.

(** [stop()] was called and the pool can do nothing more by itself. *)
Lemma fast_stuck n p c s :
  pool_inv n p → pool_numbered 0 p → stopping p = Some (c, s) → (∀ l, internal l = true → fast_step l p = None) →
  s = SDone ∧ ∀ i w, workers_tids_ p !! i = Some w → at_ w = Gone.
Proof.
  intros [Hd Hs] Hnum Es Hstuck. pose proof Hd as [Hlen _ Hf Hw Hh Hfi Hha]. pose proof Hs as [Hg _ _ _ Hn _].
  assert (Hpc : ∀ i w, workers_tids_ p !! i = Some w → at_ w = Asleep ∨ at_ w = Gone ∨ at_ w = Run ∧ in_stop i p = true).
  { intros i w Hi. pose proof (Hstuck (W i) eq_refl) as Hx. cbn in Hx. unfold workerLoop in Hx. rewrite Hi in Hx. cbn in Hx.
    destruct (at_ w) eqn:Ea; auto; try (by repeat case_match); try (by destruct (no_overrun 0 p i w Hnum Hi)).
    - destruct (in_stop i p); [by auto|by case_match].
    - destruct (queueWorker_ok n i w p Hd Hi Ea) as (p1 & w' & E & _). cbn in E. by rewrite E in Hx. }
  pose proof (Hstuck StopNext eq_refl) as Hx. cbn in Hx. unfold stop_next in Hx. rewrite Es in Hx.
  assert (s ≠ SAdd O ∧ ∀ k, s ≠ SAdd (S k)) as [Hs0 Hsk].
  { split; [by intros ->|]. intros k ->. destruct (addTask_ok n None p Hd) as (p' & E & _). by rewrite E in Hx. }
  assert (Hnoidle : ∀ i w, workers_tids_ p !! i = Some w → at_ w ≠ Asleep).
  { intros i w Hi Ha.
    assert (Hid : idle w = true).
    { unfold idle. rewrite Ha. destruct (has_task_ w) eqn:E; [|done]. by destruct (Hh i w Hi E) as [?|[?|?]]; congruence. }
    assert (Eq : dispatch_queue_ p = []).
    { apply Hw. intros En. assert (i ∈ workers_ p) as H by (apply Hf; eauto). rewrite En in H. by apply elem_of_nil in H. }
    assert (Eh : hands hand (workers_tids_ p) = []).
    { apply hands_nil. intros j v Hv. unfold hand. destruct (has_task_ v) eqn:E.
      - destruct (Hpc j v Hv) as [?|[?|[? _]]], (Hh j v Hv E) as [?|[?|?]]; congruence.
      - by destruct (Hpc j v Hv) as [->|[->|[-> _]]]. }
    rewrite Eh, app_nil_r in Hha. rewrite Eq, app_nil_r in Hfi.
    assert (En : nulls (consumed p) = Z.of_nat n).
    { unfold nulls in *. rewrite <- (count_if_perm _ _ _ Hha), Hfi, Hn. rewrite Es.
      destruct s as [[|k]| |]; [done|by destruct (Hsk k)|done|done]. }
    pose proof (count_if_nonneg ended_last (status <$> workers_tids_ p)).
    pose proof (count_if_length ended (status <$> workers_tids_ p)) as Hle. rewrite length_fmap in Hle.
    pose proof (count_if_full ended (status <$> workers_tids_ p) ltac:(rewrite length_fmap; lia) i _ (status_lookup _ _ _ Hi)) as Hgo.
    unfold ended, status in Hgo. cbn in Hgo. by rewrite Ha in Hgo. }
  assert (Hgone : ∀ i w, workers_tids_ p !! i = Some w → at_ w = Gone ∨ at_ w = Run ∧ in_stop i p = true).
  { intros i w Hi. destruct (Hpc i w Hi) as [?|?]; [by destruct (Hnoidle i w Hi)|done]. }
  assert (s = SDone) as ->.
  { destruct s as [[|k]|j|]; [done|by destruct (Hsk k)| |done]. destruct (workers_tids_ p !! j) as [w|] eqn:Ej; [|done].
    case_decide; [done|]. case_decide as Hng; [done|]. destruct (Hgone j w Ej) as [?|[_ Hin]]; [done|].
    unfold in_stop in Hin. rewrite Es in Hin. destruct c as [c|]; [|done]. apply bool_decide_eq_true in Hin. congruence. }
  split; [done|]. intros i w Hi. destruct (Hgone i w Hi) as [?|[_ Hin]]; [done|].
  unfold in_stop in Hin. rewrite Es in Hin. by destruct c.
Qed.

Lemma fast_drained tl n p0 p c s :
  room tl n → ThreadPoolFast_init tl n = Some p0 → (0 < n)%nat → reachable fast_step p0 p →
  stopping p = Some (c, s) → (c = None ∨ (1 < n)%nat) →
  (∀ l, internal l = true → fast_step l p = None) →
  s = SDone ∧ (∀ i w, workers_tids_ p !! i = Some w → at_ w = Gone) ∧ before p ⊆+ consumed p.
Proof.
  intros Hroom Hi Hn0 Hr Es Hc Hstuck. pose proof (fast_inv tl n p0 p Hi Hr) as Hp.
  destruct (fast_stuck n p c s Hp (fast_numbered_all tl n p0 p Hroom Hi Hr) Es Hstuck) as [-> Hall]. split; [done|]. split; [done|].
  destruct Hp as [[Hlen _ _ _ Hh Hfi Hha] Hs]. unfold stops in Hs. rewrite Es in Hs.
  rewrite (hands_nil hand), app_nil_r in Hha.
  2:{ intros j v Hv. unfold hand. rewrite (Hall j v Hv). destruct (has_task_ v) eqn:E; [|done].
      pose proof (Hall j v Hv). destruct (Hh j v Hv E) as [?|[?|?]]; congruence. }
  eapply (s_drained n); [exact Hs|by rewrite length_fmap|done|done| |done|done].
  intros i x (w & Hw & ->)%status_inv. unfold status. cbn. by rewrite (Hall i w Hw).
Qed.

Instance fast_laws : PoolLaws Pool.
Proof.
  split.
  - intros n p0 p (tl & _ & Hi) Hr. destruct (fast_inv tl n p0 p Hi Hr) as [[Hlen _ _ _ _ Hfi Hha] _].
    exists (hands hand (workers_tids_ p)). cbn. split; [by rewrite <- Hfi, Hha, (assoc_L (++))|].
    rewrite <- Hlen. apply hands_length. intros w. unfold hand. case_match; cbn; lia.
  - intros n p0 p c (tl & Hroom & Hi) Hn Hr Hc Hone Hstuck. cbn in Hc. destruct (stopping p) as [[c' s]|] eqn:Es; [|done]. simplify_eq/=.
    destruct (fast_drained tl n p0 p c s Hroom Hi Hn Hr Es Hone Hstuck) as (-> & Hall & Hb). split; [|done].
    split; [|by exists c]. apply Forall_lookup. eauto.
Qed.

Lemma addTask_accounts t p p' : addTask t p = Some p' → added p' = added p ++ [t] ∧ stopping p' = stopping p ∧ before p' = before p.
Proof. unfold addTask. destruct (workers_ p) as [|i free]; [by intros [= <-]|]. destruct (assignTask _ _ _); [|done]. by intros [= <-]. Qed.

Lemma queueWorker_accounts i p p' : queueWorker i p = Some p' → added p' = added p ∧ stopping p' = stopping p ∧ before p' = before p.
Proof. unfold queueWorker. destruct (dispatch_queue_ p) as [|t q]; [by intros [= <-]|]. destruct (assignTask _ _ _); [|done]. by intros [= <-]. Qed.

Lemma workerLoop_accounts i p p' : workerLoop i p = Some p' → added p' = added p ∧ stopping p' = stopping p ∧ before p' = before p.
Proof.
  unfold workerLoop. destruct (workers_tids_ p !! i) as [w|]; [|done]. cbn. destruct (at_ w); try done.
  - destruct (setVal _ _ _); by intros [= <-].
  - destruct (has_task_ w); by intros [= <-].
  - destruct (task_ w); intros [= <-]; [done|]. by edestruct thread_exit_same as [tl ->].
  - destruct (in_stop i p); [done|]. destruct (last_worker_ w); intros [= <-]; [|done]. by edestruct thread_exit_same as [tl ->].
  - destruct (queueWorker _ _) as [q|] eqn:E; [|done]. intros [= <-]. by apply queueWorker_accounts in E.
Qed.

Lemma set_last_accounts c p : added (set_last c p) = added p ∧ before (set_last c p) = before p.
Proof. unfold set_last. destruct c as [i|]; [|done]. by destruct (workers_tids_ p !! i). Qed.

Lemma stop_next_accounts p p' : stop_next p = Some p' →
  omap id (added p') = omap id (added p) ∧ fst <$> stopping p' = fst <$> stopping p ∧ before p' = before p.
Proof.
  unfold stop_next. destruct (stopping p) as [[c [[|k]|i|]]|] eqn:Es; try done.
  - by intros [= <-].
  - destruct (addTask None p) as [q|] eqn:E; [|done]. intros [= <-]. apply addTask_accounts in E as (E1 & E2 & E3). cbn.
    split_and!; [by rewrite E1, omap_app, app_nil_r|done|done].
  - destruct (workers_tids_ p !! i) as [w|]; [|intros [= <-]; cbn; destruct (set_last_accounts c p) as [-> ->]; done].
    case_decide; [by intros [= <-]|]. case_decide; [by intros [= <-]|done].
Qed.

Lemma start_workers_accounts n p p' : start_workers n p = Some p' → added p' = added p ∧ stopping p' = stopping p.
Proof.
  revert p. induction n as [|n IH]; intros p Hs; cbn in Hs; [by injection Hs as <-|]. destruct (start_worker p) as [q|] eqn:E; [|done].
  destruct (IH q Hs) as [-> ->]. unfold start_worker in E. apply queueWorker_accounts in E as (-> & -> & _). done.
Qed.

Instance fast_accounts : PoolAccounts Pool.
Proof.
  split; cbn.
  - intros n p (tl & _ & Hi). unfold ThreadPoolFast_init in Hi. apply start_workers_accounts in Hi as [-> ->]. done.
  - intros [t k|i|c|] p p' Hs; cbn in Hs; cbn [task_of]; rewrite ?app_nil_r.
    + apply addTask_accounts in Hs as (-> & _). by rewrite omap_app.
    + by apply workerLoop_accounts in Hs as (-> & _).
    + unfold stop in Hs. destruct (stopping p); [done|]. destruct c as [i|]; [|by injection Hs as <-].
      destruct (workers_tids_ p !! i); [|done]. cbn in Hs. case_decide; [by injection Hs as <-|done].
    + by apply stop_next_accounts in Hs as (-> & _).
  - intros [t k|i|c|] p p' Hs; cbn in Hs.
    + by apply addTask_accounts in Hs as (_ & -> & ->).
    + by apply workerLoop_accounts in Hs as (_ & -> & ->).
    + unfold stop in Hs. destruct (stopping p); [done|]. destruct c as [i|]; [|by injection Hs as <-].
      destruct (workers_tids_ p !! i); [|done]. cbn in Hs. case_decide; [by injection Hs as <-|done].
    + by apply stop_next_accounts in Hs as (_ & -> & ->).
Qed.

(** C26: [stop()] of the fast pool returns and drains the pool.  The pool has at least
    one worker, and the 16 slots of [worker_num_] suffice for its workers; [stop()] has been
    called by another thread, or by a task of a pool with at least two workers (not
    by a task of the only worker, see [only_worker_stops]).  When the pool can do
    nothing more by itself, the call has returned, every worker thread has ended, and
    every task added before the call was run. *)
Theorem fast_stop tl n p0 p c s :
  room tl n → ThreadPoolFast_init tl n = Some p0 → (0 < n)%nat → reachable fast_step p0 p →
  stopping p = Some (c, s) → (c = None ∨ (1 < n)%nat) →
  (∀ l, internal l = true → fast_step l p = None) →
  s = SDone ∧ (∀ i w, workers_tids_ p !! i = Some w → at_ w = Gone) ∧ before p ⊆+ consumed p.
Proof. apply fast_drained. Qed.

(** The only worker runs a task that calls [stop()]: the task queued before is not run. *)
Lemma only_worker_stops : ∃ p, ThreadPoolFast_init ThreadLocal_init 1 ≫=
    run fast_step [AddTask 7 0; AddTask 8 0; W 0; W 0; W 0; Stop (Some 0); StopNext; StopNext; StopNext; StopNext; W 0]%nat = Some p ∧
  stopping p = Some (Some 0%nat, SDone) ∧ (∀ l, internal l = true → fast_step l p = None) ∧
  before p = [Some 7; Some 8]%nat ∧ consumed p = [Some 7]%nat.
Proof.
  eexists. split; [vm_compute; reflexivity|]. split_and!; try reflexivity. intros [|[|i]| |] Hl; try discriminate Hl; reflexivity.
Qed.

(** Two workers; worker 1 runs a task that calls [stop()] while a task is queued. *)
Definition stop_from_task : list label :=
  [AddTask 7 0; AddTask 8 0; AddTask 9 0; W 1; W 1; W 1; Stop (Some 1); StopNext; StopNext; StopNext;
   W 0; W 0; W 0; W 0; W 0; W 0; W 0; W 0; W 0; W 0; W 0; StopNext; StopNext; StopNext; W 1]%nat.

Lemma fast_stop_witness :
  ∃ p0 p, ThreadPoolFast_init ThreadLocal_init 2 = Some p0 ∧ run fast_step stop_from_task p0 = Some p ∧
  before p = [Some 7; Some 8; Some 9]%nat ∧ before p ⊆+ consumed p.
Proof.
  eexists _, _. split; [reflexivity|]. split; [vm_compute; reflexivity|]. split; [reflexivity|].
  eapply (fast_stop ThreadLocal_init 2); [apply fresh_room; unfold MAXNUMOFTHREADS; lia|reflexivity|lia|exists stop_from_task; vm_compute; reflexivity|reflexivity|right; lia|].
  intros [|[|[|i]]| |] Hl; try discriminate Hl; reflexivity.
Defined.

(** ** Termination *)

(** How many actions are left, at most, unless more tasks are added. *)
Definition weight (w : Worker) : Z :=
  match at_ w with
  | Asleep | Gone | Overrun => 0
  | Enter => if has_task_ w then 6 else 2
  | Wait => if has_task_ w then 5 else 1
  | Look => 4
  | Run => 3
  | Back => 2
  end.

Definition stop_weight (n : nat) (st : option (option nat * spc)) : Z :=
  match st with
  | Some (_, SAdd k) => 6 * Z.of_nat k + Z.of_nat n + 2
  | Some (_, SJoin i) => Z.of_nat (n - i) + 1
  | _ => 0
  end.

Definition work_left (p : Pool) : Z :=
  5 * Z.of_nat (count p) + zsum (weight <$> workers_tids_ p) +
  stop_weight (length (workers_tids_ p)) (stopping p).

Lemma weight_nonneg w : 0 ≤ weight w ≤ 6.
Proof. unfold weight. destruct (at_ w), (has_task_ w); lia. Qed.

Lemma work_left_nonneg p : 0 ≤ work_left p.
Proof.
  unfold work_left, stop_weight. assert (0 ≤ zsum (weight <$> workers_tids_ p)).
  { apply zsum_nonneg, Forall_fmap, Forall_forall. intros w _. apply weight_nonneg. }
  repeat case_match; lia.
Qed.

Lemma addTask_weight n t p p' : dispatches n p → addTask t p = Some p' →
  5 * Z.of_nat (count p') + zsum (weight <$> workers_tids_ p') ≤
  5 * Z.of_nat (count p) + zsum (weight <$> workers_tids_ p) + 5 ∧
  length (workers_tids_ p') = length (workers_tids_ p).
Proof.
  intros Hd Ha. unfold addTask in Ha. unfold dispatches in Hd. unfold count. destruct (workers_ p) as [|i free].
  - simplify_eq/=. rewrite length_app. cbn. lia.
  - destruct (d_head _ _ _ _ _ _ _ _ Hd) as (w & Hi & Hid & _ & _ & E). rewrite E in Ha. simplify_eq/=.
    rewrite (zsum_insert _ _ _ _ _ Hi), length_insert. unfold idle in Hid. apply andb_prop in Hid as [Hn%negb_true_iff Hid].
    unfold weight at 2 3. cbn. destruct (at_ w); try done; cbn; rewrite ?Hn; unfold woken; case_decide; try done; lia.
Qed.

Lemma worker_weight n i p p' : pool_inv n p → workerLoop i p = Some p' → work_left p' < work_left p.
Proof.
  intros [Hd _] Hw. unfold workerLoop in Hw. destruct (workers_tids_ p !! i) as [w|] eqn:Hi; [|done]. cbn in Hw.
  destruct (at_ w) eqn:Ha; try done.
  5:{ destruct (queueWorker_ok n i w p Hd Hi Ha) as (p1 & w' & E & _ & _ & _ & Est & _ & El & Ea & _ & Eh & Ews).
      cbn in E. rewrite E in Hw. simplify_eq/=. unfold work_left, count. rewrite Est, El, Ews, length_insert, (zsum_insert _ _ _ _ _ Hi).
      unfold weight at 2 3. rewrite Ea, Ha, Eh. destruct (dispatch_queue_ p); cbn; lia. }
  all: repeat case_match; simplify_eq; try (edestruct thread_exit_same as [tl ->]); unfold work_left, count; cbn; rewrite length_insert, (zsum_insert _ _ _ _ _ Hi); unfold weight; cbn; rewrite ?Ha; try case_match; try lia; congruence.
Qed.

Lemma stop_weight_step n p p' : pool_inv n p → stop_next p = Some p' → work_left p' < work_left p.
Proof.
  intros [Hd _] Hs. unfold stop_next in Hs. destruct (stopping p) as [[c [[|k]|i|]]|] eqn:Es; [| | |done|done].
  - simplify_eq. unfold work_left. rewrite Es. cbn. rewrite Nat.sub_0_r. unfold count. cbn. lia.
  - destruct (addTask None p) as [p1|] eqn:E; [|done]. simplify_eq/=. destruct (addTask_weight n None p p1 Hd E) as [H1 H2].
    unfold work_left. rewrite Es. unfold count in *. cbn [workers_tids_ set_stopping stopping dispatch_queue_ stop_weight].
    rewrite H2. lia.
  - unfold work_left, count. rewrite Es. destruct (workers_tids_ p !! i) as [w|] eqn:Hi.
    + assert (p' = set_stopping (c, SJoin (S i)) p) as -> by (repeat case_decide; by simplify_eq).
      apply lookup_lt_Some in Hi. cbn [workers_tids_ set_stopping stopping dispatch_queue_ stop_weight]. lia.
    + simplify_eq. cbn [workers_tids_ set_stopping stopping dispatch_queue_ stop_weight]. destruct c as [j|]; [|simpl; lia].
      cbn [set_last]. destruct (workers_tids_ p !! j) as [w|] eqn:Hj; [|lia].
      cbn [workers_tids_ set_worker dispatch_queue_]. rewrite (zsum_insert _ _ _ _ _ Hj).
      change (weight (mkWorker (has_task_ w) (task_ w) (at_ w) true)) with (weight w). lia.
Qed.

(** C25: The fast pool comes to rest.  From any reachable state, the workers and
    [stop()] do at most [work_left] actions unless a new task is added or a task
    calls [stop()]. *)
Theorem fast_terminates tl n p0 p ls p' :
  ThreadPoolFast_init tl n = Some p0 → reachable fast_step p0 p →
  Forall (λ l, internal l = true) ls → run fast_step ls p = Some p' →
  Z.of_nat (length ls) ≤ work_left p.
Proof.
  intros Hi Hr Hall Hrun. pose proof (fast_inv tl n p0 p Hi Hr) as Hp.
  destruct (run_bounded fast_step (pool_inv n) (λ l, internal l = true) work_left) with ls p p' as [_ Hm]; [|done..|].
  - intros l q q' Hl Hq E. split; [by eapply fast_step_inv|]. destruct l; try done; cbn in E; eauto using worker_weight, stop_weight_step.
  - pose proof (work_left_nonneg p'). lia.
Qed.

Lemma fast_terminates_witness :
  ∃ p0 p, ThreadPoolFast_init ThreadLocal_init 2 = Some p0 ∧ run fast_step three_tasks p0 = Some p ∧
  Z.of_nat (length [W 0; W 0; W 1]) ≤ work_left p.
Proof.
  eexists _, _. split; [reflexivity|]. split; [vm_compute; reflexivity|].
  eapply (fast_terminates ThreadLocal_init 2); [reflexivity|exists three_tasks; vm_compute; reflexivity| |vm_compute; reflexivity].
  repeat constructor.
Defined.
