(* ===== verification/ThreadPoolNormal.v ===== *)
(** * The pool with one queue ([thread_pool_normal.cpp])

    All workers take tasks out of one queue and sleep on one condition variable
    when it is empty.  [signal] wakes one of the workers that sleep, whichever
    (the argument [wake]); [signalAll] wakes them all.  A worker that wakes
    for no reason finds the queue empty and sleeps again, so such wake-ups are
    not actions of their own.  [added], [taken], [consumed] and [before] are
    ghosts, as in the fast pool. *)

From S2P Require Import Prelude Threads ThreadPool.
From stdpp Require Import base numbers list gmap sorting relations.
Open Scope Z_scope.

(** ** The code *)

(** Where a worker is in [workerLoop()]. *)
Inductive npc : Type :=
| Test               (* while (dispatch_queue_.empty()), holding m_dispatch_ *)
| Asleep             (* cv_not_empty_.wait(&m_dispatch_) *)
| Look               (* if (task == NULL) *)
| Run                (* ( *task)() *)
| Gone.              (* return *)

Instance npc_eq_dec : EqDecision npc.
Proof. solve_decision. Defined.

(** A worker thread: the local variable [task] and the thread's [last_worker_]. *)
Record Thread : Type := mkThread {
  task_ : option task;
  at_ : npc;
  last_worker_ : bool;
}.

Definition Thread_init : Thread := mkThread None Test false.

Record Pool : Type := mkPool {
  workers_ : list Thread;
  dispatch_queue_ : list (option task);
  stopping : option (option nat * spc);
  added : list (option task);
  taken : list (option task);
  consumed : list (option task);
  before : list (option task);
}.

(** [ThreadPoolNormal(num_workers)]. *)
Definition ThreadPoolNormal_init (num_workers : nat) : Pool :=
  mkPool (replicate num_workers Thread_init) [] None [] [] [] [].

Definition asleep (w : Thread) : bool := match at_ w with Asleep => true | _ => false end.

Definition wake_up (w : Thread) : Thread :=
  if asleep w then mkThread (task_ w) Test (last_worker_ w) else w.

(** [cv_not_empty_.signal()]: [wake] is the worker it wakes, if one sleeps. *)
Definition signal (wake : nat) (ws : list Thread) : option (list Thread) :=
  if existsb asleep ws then
    w ← ws !! wake;
    if asleep w then Some (<[wake := wake_up w]> ws) else None
  else Some ws.

(** [cv_not_empty_.signalAll()]. *)
Definition signalAll (ws : list Thread) : list Thread := wake_up <$> ws.

Definition addTask (t : option task) (wake : nat) (p : Pool) : option Pool :=
  ws ← signal wake (workers_ p);
  Some (mkPool ws (dispatch_queue_ p ++ [t]) (stopping p) (added p ++ [t]) (taken p) (consumed p) (before p)).

Definition count (p : Pool) : nat := length (dispatch_queue_ p).

Definition set_thread (i : nat) (w : Thread) (p : Pool) : Pool :=
  mkPool (<[i := w]> (workers_ p)) (dispatch_queue_ p) (stopping p) (added p) (taken p) (consumed p) (before p).

Definition consume (t : option task) (p : Pool) : Pool :=
  mkPool (workers_ p) (dispatch_queue_ p) (stopping p) (added p) (taken p) (consumed p ++ [t]) (before p).

Definition set_stopping (st : option nat * spc) (p : Pool) : Pool :=
  mkPool (workers_ p) (dispatch_queue_ p) (Some st) (added p) (taken p) (consumed p) (before p).

(** The task of worker [i] is inside [stop()]. *)
Definition in_stop (i : nat) (p : Pool) : bool :=
  match stopping p with
  | Some (Some c, SDone) => false
  | Some (Some c, _) => bool_decide (c = i)
  | _ => false
  end.

(** The next action of [workerLoop()] of worker [i]. *)
Definition workerLoop (i : nat) (p : Pool) : option Pool :=
  w ← workers_ p !! i;
  match at_ w with
  | Test =>
    match dispatch_queue_ p with
    | [] => Some (set_thread i (mkThread (task_ w) Asleep (last_worker_ w)) p)
    | t :: q =>
      Some (mkPool (<[i := mkThread t Look (last_worker_ w)]> (workers_ p)) q (stopping p) (added p)
              (taken p ++ [t]) (consumed p) (before p))
    end
  | Asleep => None
  | Look =>
    match task_ w with
    | None => Some (set_thread i (mkThread None Gone (last_worker_ w)) (consume None p))
    | Some t => Some (set_thread i (mkThread (Some t) Run (last_worker_ w)) (consume (Some t) p))
    end
  | Run =>
    if in_stop i p then None
    else if last_worker_ w then Some (set_thread i (mkThread (task_ w) Gone true) p)
    else Some (set_thread i (mkThread (task_ w) Test false) p)
  | Gone => None
  end.

(** The first part of [stop()], under the lock: the [NULL]s and [signalAll]. *)
Definition stop (c : option nat) (p : Pool) : option Pool :=
  match stopping p with
  | Some _ => None
  | None =>
    let stops := replicate (length (workers_ p)) None in
    let start := mkPool (signalAll (workers_ p)) (dispatch_queue_ p ++ stops) (Some (c, SJoin 0))
      (added p ++ stops) (taken p) (consumed p) (added p) in
    match c with
    | None => Some start
    | Some i => w ← workers_ p !! i; if decide (at_ w = Run) then Some start else None
    end
  end.

(** [last_worker_ = true] in the thread that runs [stop()]. *)
Definition set_last (c : option nat) (p : Pool) : Pool :=
  match c with
  | None => p
  | Some i =>
    match workers_ p !! i with
    | Some w => set_thread i (mkThread (task_ w) (at_ w) true) p
    | None => p
    end
  end.

(** The second part of [stop()]: one [pthread_join]. *)
Definition stop_next (p : Pool) : option Pool :=
  match stopping p with
  | Some (c, SJoin i) =>
    match workers_ p !! i with
    | None => Some (set_stopping (c, SDone) (set_last c p))
    | Some w =>
      if decide (c = Some i) then Some (set_stopping (c, SJoin (S i)) p)
      else if decide (at_ w = Gone) then Some (set_stopping (c, SJoin (S i)) p)
      else None
    end
  | _ => None
  end.

Definition normal_step (l : label) (p : Pool) : option Pool :=
  match l with
  | AddTask t wake => addTask (Some t) wake p
  | W i => workerLoop i p
  | Stop c => stop c p
  | StopNext => stop_next p
  end.

(** [~ThreadPoolNormal()]: the queue becomes empty; the tasks that are deleted. *)
Definition ThreadPoolNormal_destroy (once : task → bool) (p : Pool) : Pool * list task :=
  (mkPool (workers_ p) [] (stopping p) (added p) (taken p) (consumed p) (before p),
   disposed once (dispatch_queue_ p)).

Instance normal_pool : ThreadPool Pool := {
  pool_start n p := p = ThreadPoolNormal_init n;
  pool_step := normal_step;
  pool_added := added;
  pool_begun := consumed;
  pool_waiting := dispatch_queue_;
  pool_stopped p := Forall (λ w, at_ w = Gone) (workers_ p) ∧ ∃ c, stopping p = Some (c, SDone);
  pool_before := before;
  pool_caller p := fst <$> stopping p;
}.

(** ** The invariant *)

Definition status (w : Thread) : Status :=
  mkStatus (match at_ w with Run => InTask | Gone => Ended | _ => Busy end) (last_worker_ w).

Definition hand (w : Thread) : list (option task) :=
  match at_ w with Look => [task_ w] | _ => [] end.

Definition testing (w : Thread) : bool := match at_ w with Test => true | _ => false end.

(** Workers sleep only if those that are awake suffice for the queue. *)
Record normal_ok (n : nat) (p : Pool) : Prop := {
  o_len : length (workers_ p) = n;
  o_awake : count_if asleep (workers_ p) = 0 ∨
    Z.of_nat (count p) ≤ count_if testing (workers_ p);
  o_fifo : taken p ++ dispatch_queue_ p = added p;
  o_hand : taken p ≡ₚ consumed p ++ hands hand (workers_ p);
  o_stop : stop_ok n (status <$> workers_ p) (stopping p) (added p) (consumed p) (before p);
  o_join : ∀ c k, stopping p ≠ Some (c, SAdd k);
}.

Lemma n_status_lookup (ws : list Thread) (i : nat) w : ws !! i = Some w → (status <$> ws) !! i = Some (status w).
Proof. intros Hi. by rewrite list_lookup_fmap, Hi. Qed.

Lemma n_status_inv (ws : list Thread) (i : nat) x : (status <$> ws) !! i = Some x → ∃ w, ws !! i = Some w ∧ x = status w.
Proof. rewrite list_lookup_fmap. destruct (ws !! i) as [w|]; [|done]. intros [= <-]. eauto. Qed.

Lemma n_in_stop_done i p s : in_stop i p = false → stopping p = Some (Some i, s) → s = SDone.
Proof. unfold in_stop. intros Hi Hs. rewrite Hs in Hi. destruct s; try done; by rewrite bool_decide_true in Hi. Qed.

Lemma wake_status w : status (wake_up w) = status w.
Proof. unfold wake_up, asleep, status. destruct w as [t [] l]; done. Qed.

Lemma wake_hand w : hand (wake_up w) = hand w.
Proof. unfold wake_up, asleep, hand. destruct w as [t [] l]; done. Qed.

Lemma no_sleepers ws : existsb asleep ws = false → count_if asleep ws = 0.
Proof.
  induction ws as [|w ws IH]; [done|]. cbn [existsb]. intros [E ?]%orb_false_elim. rewrite count_if_cons, IH by done. by rewrite E.
Qed.

(** A signal wakes one sleeper, if there is one; nothing else changes. *)
Lemma signal_ok wake ws ws' : signal wake ws = Some ws' →
  length ws' = length ws ∧ status <$> ws' = status <$> ws ∧ hands hand ws' ≡ₚ hands hand ws ∧
  (count_if asleep ws' = 0 ∨ count_if testing ws' = count_if testing ws + 1).
Proof.
  unfold signal. destruct (existsb asleep ws) eqn:E; [|intros [= <-]; split_and!; [done|done|done|left; by apply no_sleepers]].
  destruct (ws !! wake) as [w|] eqn:Hw; [|done]. cbn [mbind option_bind]. destruct (asleep w) eqn:Ha; [|done]. intros [= <-].
  split; [by rewrite length_insert|]. split.
  { rewrite list_fmap_insert, wake_status. apply list_insert_id. by apply n_status_lookup. }
  split. { by rewrite (hands_insert _ _ _ _ _ Hw), (hands_lookup _ _ _ _ Hw), wake_hand. }
  right. rewrite (count_if_insert _ _ _ _ _ Hw). unfold wake_up. rewrite Ha. unfold asleep in Ha. unfold testing. cbn.
  destruct (at_ w); try done. cbn. lia.
Qed.

(** A signal can always be delivered. *)
Lemma signal_can ws : ∃ wake ws', signal wake ws = Some ws'.
Proof.
  unfold signal. destruct (existsb asleep ws) eqn:E; [|by exists 0%nat, ws].
  apply existsb_exists in E as (w & Hin & Ha). apply list_elem_of_In, list_elem_of_lookup in Hin as [i Hi].
  exists i. rewrite Hi. cbn [mbind option_bind]. rewrite Ha. eauto.
Qed.

Lemma normal_add n t wake p p' : normal_ok n p → addTask (Some t) wake p = Some p' → normal_ok n p'.
Proof.
  intros [Hl Ha Hf Hh Hs Hnj] Hadd. unfold addTask in Hadd. destruct (signal wake (workers_ p)) as [ws|] eqn:E; [|done].
  simplify_eq/=. destruct (signal_ok _ _ _ E) as (El & Es & Eh & Ec). split; cbn.
  - by rewrite El.
  - destruct Ec as [Ec|Ec]; [by left|]. unfold count in *. cbn. rewrite length_app, Ec. cbn.
    unfold signal in E. destruct (existsb asleep (workers_ p)) eqn:Ex.
    + destruct Ha as [Ha|Ha]; [|lia]. apply existsb_exists in Ex as (w & Hin & Hw).
      apply list_elem_of_In, list_elem_of_lookup in Hin as [i Hi]. pose proof (count_if_pos _ _ _ _ Hi Hw). lia.
    + simplify_eq. left. by apply no_sleepers.
  - by rewrite (assoc_L (++)), Hf.
  - by rewrite Eh.
  - rewrite Es. by apply s_task.
  - done.
Qed.

(** One action of a worker that does not touch the queue. *)
Lemma thread_set n p i w w' con' :
  normal_ok n p → workers_ p !! i = Some w → last_worker_ w' = last_worker_ w →
  (asleep w' = true → count p = O) → at_ w ≠ Asleep → (at_ w = Test → at_ w' = Asleep) →
  con' ++ hand w' ≡ₚ consumed p ++ hand w →
  nulls con' + Z.b2z (ended_last (status w')) + Z.b2z (ended (status w)) =
    nulls (consumed p) + Z.b2z (ended_last (status w)) + Z.b2z (ended (status w')) →
  at_ w ≠ Gone → (last_worker_ w = true → at_ w' = Run ∨ at_ w' = Gone) →
  (at_ w = Run → at_ w' = Run ∨ in_stop i p = false) →
  normal_ok n (mkPool (<[i := w']> (workers_ p)) (dispatch_queue_ p) (stopping p) (added p) (taken p) con' (before p)).
Proof.
  intros [Hl Ha Hf Hh Hs Hnj] Hi Hlast Hasl Hna Hte Hcon Hcnt Hng Hl' Hrun.
  split; cbn; [by rewrite length_insert| |done| | |done].
  - unfold count in *. cbn. rewrite !(count_if_insert _ _ _ _ _ Hi).
    pose proof (count_if_nonneg testing (workers_ p)). pose proof (count_if_pos testing (workers_ p) i w Hi) as Hp.
    assert (asleep w = false) as -> by (unfold asleep; by destruct (at_ w)).
    destruct (asleep w') eqn:Ew'.
    + right. rewrite (Hasl eq_refl). destruct (testing w); simpl in *; [specialize (Hp eq_refl)|]; destruct (testing w'); simpl; lia.
    + assert (testing w = false) as -> by (unfold testing, asleep in *; destruct (at_ w); try done; by rewrite (Hte eq_refl) in Ew').
      destruct (testing w'); simpl; lia.
  - rewrite Hh, (hands_lookup hand _ i w Hi), (hands_insert hand _ i w w' Hi), !(assoc_L (++)). by rewrite <- Hcon.
  - rewrite list_fmap_insert. eapply s_set; [exact Hs|by apply n_status_lookup|done|done|..].
    + unfold status. cbn. by destruct (at_ w).
    + intros Hx. destruct (Hl' Hx) as [E|E]; unfold status; cbn; by rewrite E.
    + unfold status at 1. cbn. intros Hx. destruct (Hrun ltac:(by destruct (at_ w))) as [E|E].
      * left. unfold status. cbn. by rewrite E.
      * right. intros s. by apply n_in_stop_done.
Qed.

Lemma normal_worker n i p p' : normal_ok n p → workerLoop i p = Some p' → normal_ok n p'.
Proof.
  intros Hp Hw. unfold workerLoop in Hw. destruct (workers_ p !! i) as [w|] eqn:Hi; [|done]. cbn in Hw.
  pose proof (s_last _ _ _ _ _ _ (o_stop _ _ Hp) i _ (n_status_lookup _ _ _ Hi)) as Hl.
  assert (Hset : ∀ w' con', _) by exact (λ w' con', thread_set n p i w w' con' Hp Hi).
  destruct w as [t a l]. destruct a; cbn in *; try done.
  - assert (l = false) as -> by (destruct l; [by destruct (Hl eq_refl) as [_ ?]|done]).
    destruct (dispatch_queue_ p) as [|x q] eqn:Eq; simplify_eq.
    + eapply (thread_set n p i _ _ _ Hp Hi); unfold count; rewrite ?Eq; done.
    + destruct Hp as [Hlen Ha Hf Hh Hs Hnj]. split; cbn; rewrite ?length_insert; try done.
      * unfold count in *. rewrite Eq in Ha. cbn in *. rewrite !(count_if_insert _ _ _ _ _ Hi). cbn in *. lia.
      * rewrite <- (assoc_L (++)). by rewrite <- Hf, Eq.
      * rewrite Hh, (hands_lookup hand _ i _ Hi), (hands_insert hand _ i _ _ Hi). cbn.
        by rewrite <- (assoc_L (++)), (Permutation_app_comm _ [x]).
      * rewrite list_fmap_insert. eapply s_set; [exact Hs|by apply n_status_lookup|..]; done.
  - assert (l = false) as -> by (destruct l; [by destruct (Hl eq_refl) as [_ ?]|done]).
    destruct t as [t|]; simplify_eq; (eapply Hset; unfold ended_last, ended, asleep, hand; cbn; try done);
      rewrite ?app_nil_r, ?nulls_snoc; try done; cbn; lia.
  - destruct (in_stop i p) eqn:Hin; [done|].
    destruct l; simplify_eq; (eapply Hset; unfold ended_last, ended, asleep, hand; cbn; try done; auto; lia).
Qed.

Lemma normal_stop_begin n c p p' : normal_ok n p → stop c p = Some p' → normal_ok n p'.
Proof.
  intros [Hl Ha Hf Hh Hs Hnj] Hst. unfold stop in *. destruct (stopping p) eqn:Es; [done|]. rewrite Hl in Hst.
  assert (Hrun : ∀ i, c = Some i → ∃ x, (status <$> workers_ p) !! i = Some x ∧ phase_of x = InTask).
  { intros i ->. destruct (workers_ p !! i) as [w|] eqn:Hw; [|done]. cbn in Hst. case_decide as Hat; [|done].
    exists (status w). split; [by apply n_status_lookup|]. unfold status. by rewrite Hat. }
  apply (s_begin _ _ _ _ _ c) in Hs; [|done]. apply s_null_all, s_added in Hs.
  assert (p' = mkPool (signalAll (workers_ p)) (dispatch_queue_ p ++ replicate n None) (Some (c, SJoin 0))
      (added p ++ replicate n None) (taken p) (consumed p) (added p)) as ->.
  { destruct c as [i|]; [|by simplify_eq]. destruct (workers_ p !! i); [|done]. cbn in Hst. case_decide; by simplify_eq. }
  unfold signalAll. split; cbn.
  - by rewrite length_fmap.
  - left. clear. induction (workers_ p) as [|w ws IH]; [done|]. cbn [fmap list_fmap]. rewrite count_if_cons, IH.
    unfold wake_up. by destruct (asleep w) eqn:E; [|rewrite E].
  - by rewrite (assoc_L (++)), Hf.
  - rewrite Hh. unfold hands. rewrite <- list_fmap_compose. by rewrite (list_fmap_ext (hand ∘ wake_up) hand _ (λ _ w _, wake_hand w)).
  - rewrite <- list_fmap_compose. by rewrite (list_fmap_ext (status ∘ wake_up) status _ (λ _ w _, wake_status w)).
  - done.
Qed.

Lemma n_set_last_status c p : status <$> workers_ (set_last c p) = mark_last c (status <$> workers_ p).
Proof.
  destruct c as [j|]; [|done]. cbn. rewrite list_lookup_fmap. destruct (workers_ p !! j) as [w|]; [|done]. cbn.
  by rewrite list_fmap_insert.
Qed.

(** Marking the caller changes neither the queue nor who waits. *)
Lemma set_last_ok c p :
  added (set_last c p) = added p ∧ consumed (set_last c p) = consumed p ∧ before (set_last c p) = before p ∧
  taken (set_last c p) = taken p ∧ dispatch_queue_ (set_last c p) = dispatch_queue_ p ∧
  length (workers_ (set_last c p)) = length (workers_ p) ∧
  hands hand (workers_ (set_last c p)) ≡ₚ hands hand (workers_ p) ∧
  count_if asleep (workers_ (set_last c p)) = count_if asleep (workers_ p) ∧
  count_if testing (workers_ (set_last c p)) = count_if testing (workers_ p).
Proof.
  destruct c as [j|]; [|done]. cbn. destruct (workers_ p !! j) as [w|] eqn:Hj; [|done]. cbn.
  rewrite length_insert, !(count_if_insert _ _ _ _ _ Hj), (hands_insert _ _ _ _ _ Hj), (hands_lookup _ _ _ _ Hj).
  unfold asleep, testing. cbn. split_and!; try done; lia.
Qed.

Lemma normal_stop_next n p p' : normal_ok n p → stop_next p = Some p' → normal_ok n p'.
Proof.
  intros [Hl Ha Hf Hh Hs Hnj] Hst. unfold stop_next in Hst. destruct (stopping p) as [[c [k|i|]]|] eqn:Es; [done| |done|done].
  destruct (workers_ p !! i) as [w|] eqn:Hi.
  - assert (p' = set_stopping (c, SJoin (S i)) p ∧ (c ≠ Some i → at_ w = Gone)) as [-> Hgo].
    { case_decide; [by simplify_eq|]. case_decide; by simplify_eq. }
    split; try done. eapply s_joined; [exact Hs|by apply n_status_lookup|]. intros Hc. unfold status. cbn. by rewrite Hgo.
  - simplify_eq. apply lookup_ge_None in Hi. destruct (set_last_ok c p) as (E1 & E2 & E3 & E4 & E5 & E6 & E7 & E8 & E9).
    split; unfold count; cbn; rewrite ?E1, ?E2, ?E3, ?E4, ?E5, ?E6, ?E7, ?E8, ?E9; try done.
    rewrite n_set_last_status. eapply s_finish; [exact Hs|by rewrite length_fmap|lia].
Qed.

Lemma normal_step_ok n l p p' : normal_ok n p → normal_step l p = Some p' → normal_ok n p'.
Proof. destruct l; cbn; eauto using normal_add, normal_worker, normal_stop_begin, normal_stop_next. Qed.

Lemma normal_init_ok n : normal_ok n (ThreadPoolNormal_init n).
Proof.
  split; cbn; [apply length_replicate|left; by rewrite count_if_replicate|done| | |done].
  - rewrite hands_nil; [done|]. intros i w Hw. by apply lookup_replicate in Hw as [-> _].
  - split; cbn; try done.
    + by rewrite fmap_replicate, !count_if_replicate.
    + intros i x (w & Hw & ->)%n_status_inv Hl. by apply lookup_replicate in Hw as [-> _].
Qed.

Lemma normal_inv n p : reachable normal_step (ThreadPoolNormal_init n) p → normal_ok n p.
Proof. apply invariant_reachable; [apply normal_init_ok|eauto using normal_step_ok]. Qed.

(** ** What the pool promises *)

(** What a worker that cannot act is doing. *)
Lemma worker_stuck i w p : workers_ p !! i = Some w → workerLoop i p = None →
  at_ w = Asleep ∨ at_ w = Gone ∨ at_ w = Run ∧ in_stop i p = true.
Proof.
  intros Hi Hx. unfold workerLoop in Hx. rewrite Hi in Hx. cbn in Hx.
  destruct (at_ w) eqn:Ea; auto; try (by repeat case_match). destruct (in_stop i p); [by auto|by case_match].
Qed.

Lemma some_awake n p i w : normal_ok n p → count p ≠ O → workers_ p !! i = Some w → at_ w = Asleep →
  ∃ j v, workers_ p !! j = Some v ∧ testing v = true.
Proof.
  intros [Hl Ha Hf Hh Hs Hnj] Hc Hi Hat. apply count_if_witness.
  assert (0 < count_if asleep (workers_ p)) by (apply (count_if_pos _ _ _ _ Hi); unfold asleep; by rewrite Hat). lia.
Qed.

Lemma stuck_sleeps n p : normal_ok n p → (∀ i, workerLoop i p = None) →
  ∀ i w, workers_ p !! i = Some w → at_ w = Asleep → count p = O.
Proof.
  intros Hp Hstuck i w Hi Hat. destruct (decide (count p = O)) as [|Hc]; [done|].
  destruct (some_awake n p i w Hp Hc Hi Hat) as (j & v & Hj & Hv). unfold testing in Hv.
  by destruct (worker_stuck j v p Hj (Hstuck j)) as [E|[E|[E _]]]; rewrite E in Hv.
Qed.

(** C28: The normal pool loses no wake-up.  Whatever the clients and the tasks
    do and whichever sleeping worker a signal wakes, tasks are taken in the
    order in which they were added and each is begun at most once; and as long
    as a task is in the queue and a worker sleeps, some worker can act. *)
Theorem normal_no_lost_wakeup n p :
  reachable normal_step (ThreadPoolNormal_init n) p →
  taken p ++ dispatch_queue_ p = added p ∧
  taken p ≡ₚ consumed p ++ hands hand (workers_ p) ∧
  (∀ i w, count p ≠ O → workers_ p !! i = Some w → at_ w = Asleep → ∃ j p', workerLoop j p = Some p').
Proof.
  intros Hr. pose proof (normal_inv n p Hr) as Hp. split; [by apply Hp|]. split; [by apply Hp|].
  intros i w Hc Hi Ha. destruct (some_awake n p i w Hp Hc Hi Ha) as (j & v & Hj & Hv). exists j.
  unfold workerLoop. rewrite Hj. unfold testing in Hv. cbn. destruct (at_ v); try done. case_match; eauto.
Qed.

(** Two workers fall asleep; two tasks arrive; worker 1 is woken first. *)
Definition two_sleepers : list label := [W 0; W 1; AddTask 7 1; AddTask 8 0; W 0]%nat.

Lemma normal_no_lost_wakeup_witness :
  ∃ p, run normal_step two_sleepers (ThreadPoolNormal_init 2) = Some p ∧
  taken p ++ dispatch_queue_ p = added p ∧ added p = [Some 7; Some 8]%nat.
Proof.
  eexists. split; [vm_compute; reflexivity|]. split; [|reflexivity].
  apply (normal_no_lost_wakeup 2). exists two_sleepers. vm_compute. reflexivity.
Defined.

Lemma normal_drained n p c s :
  (0 < n)%nat → reachable normal_step (ThreadPoolNormal_init n) p →
  stopping p = Some (c, s) → (c = None ∨ (1 < n)%nat) →
  (∀ l, internal l = true → normal_step l p = None) →
  s = SDone ∧ (∀ i w, workers_ p !! i = Some w → at_ w = Gone) ∧ before p ⊆+ consumed p.
Proof.
  intros Hn0 Hr Es Hc Hstuck. pose proof (normal_inv n p Hr) as Hp.
  assert (Hw : ∀ i, workerLoop i p = None) by (intros i; by apply (Hstuck (W i))).
  pose proof (stuck_sleeps n p Hp Hw) as Hsl. destruct Hp as [Hl _ Hf Hh Hs Hnj].
  assert (Hno : hands hand (workers_ p) = []).
  { apply hands_nil. intros i w Hi. unfold hand. by destruct (worker_stuck i w p Hi (Hw i)) as [->|[->|[-> _]]]. }
  rewrite Hno, app_nil_r in Hh. rewrite Es in Hs.
  assert (Hns : ∀ k, s ≠ SAdd k) by (intros k ->; by apply (Hnj c k)).
  assert (Hna : ∀ i w, workers_ p !! i = Some w → at_ w ≠ Asleep).
  { intros i w Hi Ha. pose proof (Hsl i w Hi Ha) as Hq. apply nil_length_inv in Hq. rewrite Hq, app_nil_r in Hf.
    pose proof (s_gone _ _ _ _ _ _ Hs) as Hg. pose proof (s_nulls _ _ _ _ _ _ Hs) as Hn.
    rewrite <- Hf in Hn. unfold nulls in *. rewrite (count_if_perm _ _ _ Hh) in Hn.
    pose proof (count_if_nonneg ended_last (status <$> workers_ p)).
    pose proof (count_if_length ended (status <$> workers_ p)) as Hle. rewrite length_fmap in Hle.
    assert (count_if is_null (consumed p) = Z.of_nat n) by (destruct s; [by destruct (Hns k)|done|done]).
    pose proof (count_if_full ended (status <$> workers_ p) ltac:(rewrite length_fmap; lia) i _ (n_status_lookup _ _ _ Hi)) as Hgo.
    unfold ended, status in Hgo. cbn in Hgo. by rewrite Ha in Hgo. }
  assert (Hgone : ∀ i w, workers_ p !! i = Some w → at_ w = Gone ∨ at_ w = Run ∧ in_stop i p = true).
  { intros i w Hi. destruct (worker_stuck i w p Hi (Hw i)) as [?|?]; [by destruct (Hna i w Hi)|done]. }
  pose proof (Hstuck StopNext eq_refl) as Hx. cbn in Hx. unfold stop_next in Hx. rewrite Es in Hx.
  unfold in_stop in Hgone. rewrite Es in Hgone.
  assert (s = SDone) as ->.
  { destruct s as [k|j|]; [by destruct (Hns k)| |done]. destruct (workers_ p !! j) as [w|] eqn:Ej; [|done].
    case_decide; [done|]. case_decide as Hng; [done|]. destruct (Hgone j w Ej) as [?|[_ Hin]]; [done|].
    destruct c as [c|]; [|done]. apply bool_decide_eq_true in Hin. congruence. }
  assert (Hall : ∀ i w, workers_ p !! i = Some w → at_ w = Gone).
  { intros i w Hi. destruct (Hgone i w Hi) as [?|[_ Hin]]; [done|]. by destruct c. }
  split; [done|]. split; [done|].
  eapply (s_drained n); [exact Hs|by rewrite length_fmap|done|done| |done|done].
  intros i x (w & Hi & ->)%n_status_inv. unfold status. cbn. by rewrite (Hall i w Hi).
Qed.

Instance normal_laws : PoolLaws Pool.
Proof.
  split.
  - intros n p0 p -> Hr. destruct (normal_inv n p Hr) as [Hlen _ Hfi Hha _ _].
    exists (hands hand (workers_ p)). cbn. split; [by rewrite <- Hfi, Hha, (assoc_L (++))|].
    rewrite <- Hlen. apply hands_length. intros w. unfold hand. case_match; cbn; lia.
  - intros n p0 p c -> Hn Hr Hc Hone Hstuck. cbn in Hc. destruct (stopping p) as [[c' s]|] eqn:Es; [|done]. simplify_eq/=.
    destruct (normal_drained n p c s Hn Hr Es Hone Hstuck) as (-> & Hall & Hb). split; [|done].
    split; [|by exists c]. apply Forall_lookup. eauto.
Qed.

Instance normal_accounts : PoolAccounts Pool.
Proof.
  split; cbn.
  - by intros n p ->.
  - intros [t k|i|c|] p p' Hs; cbn in Hs; cbn [task_of]; rewrite ?app_nil_r.
    + unfold addTask in Hs. destruct (signal k (workers_ p)); [|done]. injection Hs as <-. cbn. by rewrite omap_app.
    + unfold workerLoop in Hs. destruct (workers_ p !! i); [|done]. cbn in Hs. repeat case_match; simplify_eq; done.
    + unfold stop in Hs. destruct (stopping p); [done|]. assert (E : added p' = added p ++ replicate (length (workers_ p)) None).
      { destruct c as [i|]; [|by injection Hs as <-]. destruct (workers_ p !! i); [|done]. cbn in Hs. case_decide; [by injection Hs as <-|done]. }
      by rewrite E, omap_app, omap_None_replicate, app_nil_r.
    + unfold stop_next, set_last in Hs. repeat case_match; simplify_eq; done.
  - intros [t k|i|c|] p p' Hs; cbn in Hs.
    + unfold addTask in Hs. destruct (signal k (workers_ p)); [|done]. by injection Hs as <-.
    + unfold workerLoop in Hs. destruct (workers_ p !! i); [|done]. cbn in Hs. repeat case_match; simplify_eq; done.
    + unfold stop in Hs. destruct (stopping p); [done|]. destruct c as [i|]; [|by injection Hs as <-].
      destruct (workers_ p !! i); [|done]. cbn in Hs. case_decide; [by injection Hs as <-|done].
    + unfold stop_next, set_last in Hs. repeat case_match; simplify_eq/=; done.
Qed.

(** C36: [stop()] of the normal pool returns and drains the pool.  The pool has at least
    one worker, and [stop()] has been called by another thread, or by a task of a pool
    with at least two workers (not by a task of the only worker, see
    [only_worker_stops_normal]).  When the pool can do nothing more by itself, the call has
    returned, every worker thread has ended, and every task added before the call was
    run. *)
Theorem normal_stop n p c s :
  (0 < n)%nat → reachable normal_step (ThreadPoolNormal_init n) p →
  stopping p = Some (c, s) → (c = None ∨ (1 < n)%nat) →
  (∀ l, internal l = true → normal_step l p = None) →
  s = SDone ∧ (∀ i w, workers_ p !! i = Some w → at_ w = Gone) ∧ before p ⊆+ consumed p.
Proof. apply normal_drained. Qed.

(** The only worker runs a task that calls [stop()]: the task queued before is not run. *)
Lemma only_worker_stops_normal : ∃ p,
  run normal_step [AddTask 7 0; AddTask 8 0; W 0; W 0; Stop (Some 0); StopNext; StopNext; W 0]%nat (ThreadPoolNormal_init 1) = Some p ∧
  stopping p = Some (Some 0%nat, SDone) ∧ (∀ l, internal l = true → normal_step l p = None) ∧
  before p = [Some 7; Some 8]%nat ∧ consumed p = [Some 7]%nat.
Proof.
  eexists. split; [vm_compute; reflexivity|]. split_and!; try reflexivity. intros [|[|i]| |] Hl; try discriminate Hl; reflexivity.
Qed.

(** A sleeping worker is woken by [signalAll]; both end. *)
Definition stop_outside : list label :=
  [W 0; AddTask 7 0; W 1; Stop None; W 0; W 0; W 1; W 1; W 1; W 1; StopNext; StopNext; StopNext]%nat.

Lemma normal_stop_witness :
  ∃ p, run normal_step stop_outside (ThreadPoolNormal_init 2) = Some p ∧
  before p = [Some 7%nat] ∧ before p ⊆+ consumed p.
Proof.
  eexists. split; [vm_compute; reflexivity|]. split; [reflexivity|].
  eapply (normal_stop 2); [lia|exists stop_outside; vm_compute; reflexivity|reflexivity|left; reflexivity|].
  intros [|[|[|i]]| |] Hl; try discriminate Hl; reflexivity.
Defined.
