(* ===== verification/IOManager.v ===== *)
(** * The I/O manager ([io_manager.cpp])

    Three parts: the descriptors, whose flags remember readiness and requests;
    the timers and the rounds of the polling loop, which hand tasks to the
    worker pool; and the protocol between [stop()] and [poll()].  A call of
    [worker_pool_->addTask()] is recorded in [submitted], which is all the
    manager does with the pool; the pool itself is [ThreadPoolFast].  Each
    section under a mutex is one action.  What the poller reports, and the
    clock, are arguments. *)

From S2P Require Import Prelude Threads ThreadPool.
From stdpp Require Import base numbers list gmap sorting relations.
Open Scope Z_scope.

(** ** Descriptors *)

Record Descriptor : Type := mkDesc {
  fd_ : Z;
  closed_ : bool;
  read_cb_ : option task;
  write_cb_ : option task;
  can_read_ : bool;
  can_write_ : bool;
  waiting_read_ : bool;
  waiting_write_ : bool;
}.

(** [Descriptor(io_manager, fd, read_cb, write_cb)]. *)
Definition Descriptor_init (fd : Z) (rcb wcb : option task) : Descriptor :=
  mkDesc fd false rcb wcb false false false false.

(** [~Descriptor()]: the callbacks that are deleted. *)
Definition Descriptor_destroy (d : Descriptor) : list task :=
  option_list (read_cb_ d) ++ option_list (write_cb_ d).

(** The new descriptor and the callbacks that are deleted. *)
Definition setUpCalls (rcb wcb : option task) (d : Descriptor) : Descriptor * list task :=
  (mkDesc (fd_ d) (closed_ d) rcb wcb (can_read_ d) (can_write_ d) (waiting_read_ d) (waiting_write_ d),
   Descriptor_destroy d).

Definition set_read (can waiting : bool) (d : Descriptor) : Descriptor :=
  mkDesc (fd_ d) (closed_ d) (read_cb_ d) (write_cb_ d) can (can_write_ d) waiting (waiting_write_ d).
Definition set_write (can waiting : bool) (d : Descriptor) : Descriptor :=
  mkDesc (fd_ d) (closed_ d) (read_cb_ d) (write_cb_ d) (can_read_ d) can (waiting_read_ d) waiting.

(** [if (cb && now) workerPool()->addTask(cb)] *)
Definition schedule (cb : option task) (now : bool) : list task :=
  if now then option_list cb else [].

(** Each operation returns the calls of [addTask] it makes. *)
Definition readWhenReady (d : Descriptor) : Descriptor * list task :=
  let '(ready_now, d') :=
    if can_read_ d then (true, set_read false (waiting_read_ d) d)
    else (false, set_read (can_read_ d) true d) in
  (d', schedule (read_cb_ d') ready_now).

Definition writeWhenReady (d : Descriptor) : Descriptor * list task :=
  let '(ready_now, d') :=
    if can_write_ d then (true, set_write false (waiting_write_ d) d)
    else (false, set_write (can_write_ d) true d) in
  (d', schedule (write_cb_ d') ready_now).

Definition readIfWaiting (d : Descriptor) : Descriptor * list task :=
  let '(schedule_now, d') :=
    if waiting_read_ d then (true, set_read (can_read_ d) false d)
    else (false, set_read true (waiting_read_ d) d) in
  (d', schedule (read_cb_ d') schedule_now).

Definition writeIfWaiting (d : Descriptor) : Descriptor * list task :=
  let '(schedule_now, d') :=
    if waiting_write_ d then (true, set_write (can_write_ d) false d)
    else (false, set_write true (waiting_write_ d) d) in
  (d', schedule (write_cb_ d') schedule_now).

(** ** The manager *)

(** The flags of [DescriptorPoller::PollEvents]. *)
Definition DP_ERROR : Z := 1.
Definition DP_READ_READY : Z := 2.
Definition DP_WRITE_READY : Z := 4.

Record IOManager : Type := mkIO {
  descriptors : list Descriptor;         (* all that were created *)
  deleted_desc_ : list nat;              (* to be disposed of, last first *)
  timer_queue_ : list (Z * task);        (* by time *)
  submitted : list task;                 (* worker_pool_->addTask() *)
  disposed_desc : list nat;              (* delete desc *)
}.

(** [IOManager(num_workers)]; the pool is created elsewhere. *)
Definition IOManager_init : IOManager := mkIO [] [] [] [] [].

(** The index of the descriptor that is created. *)
Definition newDescriptor (fd : Z) (rcb wcb : option task) (m : IOManager) : nat * IOManager :=
  (length (descriptors m),
   mkIO (descriptors m ++ [Descriptor_init fd rcb wcb]) (deleted_desc_ m) (timer_queue_ m)
     (submitted m) (disposed_desc m)).

Definition delDescriptor (desc : option nat) (m : IOManager) : IOManager :=
  match desc with
  | None => m
  | Some i => mkIO (descriptors m) (i :: deleted_desc_ m) (timer_queue_ m) (submitted m) (disposed_desc m)
  end.

(** [timer_queue_.insert(make_pair(ts, task))]: behind the timers of the same time. *)
Fixpoint timer_insert (ts : Z) (t : task) (q : list (Z * task)) : list (Z * task) :=
  match q with
  | [] => [(ts, t)]
  | x :: q' => if ts <? x.1 then (ts, t) :: q else x :: timer_insert ts t q'
  end.

(** [addTimer(delay, task)]; [ts] is the current time plus the delay, in ticks. *)
Definition addTimer (ts : Z) (t : task) (m : IOManager) : IOManager :=
  mkIO (descriptors m) (deleted_desc_ m) (timer_insert ts t (timer_queue_ m)) (submitted m) (disposed_desc m).

Definition addTask (t : task) (m : IOManager) : IOManager :=
  mkIO (descriptors m) (deleted_desc_ m) (timer_queue_ m) (submitted m ++ [t]) (disposed_desc m).

(** The loop over the timers: the tasks that are due, and what is left. *)
Fixpoint timer_loop (now : Z) (q : list (Z * task)) : list task * list (Z * task) :=
  match q with
  | [] => ([], [])
  | x :: q' =>
    if now <? x.1 then ([], q)
    else let '(ts, rest) := timer_loop now q' in (x.2 :: ts, rest)
  end.

Definition run_timers (now : Z) (m : IOManager) : IOManager :=
  let '(ts, rest) := timer_loop now (timer_queue_ m) in
  mkIO (descriptors m) (deleted_desc_ m) rest (submitted m ++ ts) (disposed_desc m).

(** One operation on descriptor [i]. *)
Definition on_desc (f : Descriptor → Descriptor * list task) (i : nat) (m : IOManager) : IOManager :=
  match descriptors m !! i with
  | Some d =>
    let '(d', ts) := f d in
    mkIO (<[i := d']> (descriptors m)) (deleted_desc_ m) (timer_queue_ m) (submitted m ++ ts) (disposed_desc m)
  | None => m
  end.

(** The body of the loop over the events. *)
Definition handle_event (e : Z) (i : nat) (m : IOManager) : IOManager :=
  let m1 := if negb (Z.land e (Z.lor DP_ERROR DP_READ_READY) =? 0) then on_desc readIfWaiting i m else m in
  if negb (Z.land e (Z.lor DP_ERROR DP_WRITE_READY) =? 0) then on_desc writeIfWaiting i m1 else m1.

(** Disposes of the deleted descriptors. *)
Definition collect (m : IOManager) : IOManager :=
  mkIO (descriptors m) [] (timer_queue_ m) (submitted m) (disposed_desc m ++ deleted_desc_ m).

(** One round of [pollBody()]: the time and the events of the poller. *)
Definition poll_round (now : Z) (events : list (Z * nat)) (m : IOManager) : IOManager :=
  collect (foldl (λ m ev, handle_event ev.1 ev.2 m) (run_timers now m) events).

(** What [stop()] does at its end. *)
Definition stop_collect (m : IOManager) : IOManager := collect m.

(** ** No event is lost *)

(** What happens to one half of a descriptor: the user asks for a callback
    ([true]) or the poller reports an event ([false]). *)
Definition half_op (write : bool) (asks : bool) (d : Descriptor) : Descriptor * list task :=
  match write, asks with
  | false, true => readWhenReady d
  | false, false => readIfWaiting d
  | true, true => writeWhenReady d
  | true, false => writeIfWaiting d
  end.

Definition can_of (write : bool) (d : Descriptor) : bool := if write then can_write_ d else can_read_ d.
Definition waiting_of (write : bool) (d : Descriptor) : bool := if write then waiting_write_ d else waiting_read_ d.
Definition cb_of (write : bool) (d : Descriptor) : option task := if write then write_cb_ d else read_cb_ d.

(** A history of one half; the user asks again only after the callback that it
    asked for was scheduled. *)
Inductive half_run (write : bool) : Descriptor → list bool → Descriptor → list task → Prop :=
| half_nil d : half_run write d [] d []
| half_step d h d1 ts asks d2 ts' :
    half_run write d h d1 ts → (asks = true → waiting_of write d1 = false) →
    half_op write asks d1 = (d2, ts') → half_run write d (h ++ [asks]) d2 (ts ++ ts').

(** The same, as a function. *)
Fixpoint half_exec (write : bool) (h : list bool) (d : Descriptor) (ts : list task) : option (Descriptor * list task) :=
  match h with
  | [] => Some (d, ts)
  | asks :: h' =>
    if asks && waiting_of write d then None
    else let '(d', ts') := half_op write asks d in half_exec write h' d' (ts ++ ts')
  end.

Lemma half_exec_run write d0 h0 d ts h d' ts' :
  half_run write d0 h0 d ts → half_exec write h d ts = Some (d', ts') → half_run write d0 (h0 ++ h) d' ts'.
Proof.
  revert h0 d ts. induction h as [|asks h IH]; intros h0 d ts Hr He; cbn in He.
  { rewrite app_nil_r. by simplify_eq. }
  destruct (asks && waiting_of write d) eqn:Ea; [done|]. destruct (half_op write asks d) as [d1 ts1] eqn:E.
  rewrite (app_assoc h0 [asks] h : h0 ++ asks :: h = _). eapply IH; [|exact He]. eapply half_step; [exact Hr| |exact E].
  intros ->. done.
Qed.

Definition asks_in (h : list bool) : Z := count_if id h.
Definition events_in (h : list bool) : Z := count_if negb h.

(** The two halves have the same code. *)
Lemma half_op_cases write asks d : ∃ d' ts, half_op write asks d = (d', ts) ∧ cb_of write d' = cb_of write d ∧
  if asks
  then if can_of write d then can_of write d' = false ∧ waiting_of write d' = waiting_of write d ∧ ts = option_list (cb_of write d)
       else can_of write d' = false ∧ waiting_of write d' = true ∧ ts = []
  else if waiting_of write d then can_of write d' = can_of write d ∧ waiting_of write d' = false ∧ ts = option_list (cb_of write d)
       else can_of write d' = true ∧ waiting_of write d' = false ∧ ts = [].
Proof.
  destruct d as [fd c r w cr cw wr ww]. destruct write, asks; cbn; [destruct cw|destruct ww|destruct cr|destruct wr];
    (eexists _, _; split; [reflexivity|]); cbn; split_and!; done.
Qed.

Lemma half_inv write d0 h d ts cb :
  half_run write d0 h d ts → can_of write d0 = false → waiting_of write d0 = false → cb_of write d0 = Some cb →
  cb_of write d = Some cb ∧ ts = replicate (length ts) cb ∧ can_of write d && waiting_of write d = false ∧
  Z.of_nat (length ts) + Z.b2z (waiting_of write d) = asks_in h ∧
  Z.of_nat (length ts) + Z.b2z (can_of write d) ≤ events_in h ∧
  (waiting_of write d = true → last h = Some true) ∧ (can_of write d = true → last h ≠ Some true).
Proof.
  intros Hr. induction Hr as [d|d h d1 ts asks d2 ts' Hr IH Hask Hop]; intros Hc Hw Hcb.
  { rewrite Hc, Hw. done. }
  destruct (IH Hc Hw Hcb) as (Ecb & Ets & Hex & Hasks & Hev & Hl1 & Hl2). clear IH.
  destruct (half_op_cases write asks d1) as (d' & ts1 & E & Ecb' & Hcase). rewrite E in Hop. injection Hop as -> ->.
  unfold asks_in, events_in in *. rewrite !count_if_app, !count_if_cons, last_snoc, length_app, Ecb'.
  change (count_if id []) with 0. change (count_if negb []) with 0. rewrite Ecb in Hcase.
  assert (Hrep : ∀ k, ts' = replicate k cb → ts ++ ts' = replicate (length ts + length ts') cb).
  { intros k ->. by rewrite replicate_add, length_replicate, <- Ets. }
  assert (0 ≤ Z.b2z (can_of write d1)) by (destruct (can_of write d1); cbn; lia).
  destruct asks; [specialize (Hask eq_refl)|clear Hask]; [destruct (can_of write d1)|destruct (waiting_of write d1)];
    destruct Hcase as (-> & -> & ->); try (rewrite Hask in * ); rewrite ?andb_true_r, ?andb_false_r in *; cbn [option_list length Z.b2z] in *;
    (split_and!; [done|first [by apply (Hrep 1%nat)|by apply (Hrep 0%nat)]|done|cbn; lia|cbn; lia|done|congruence]).
Qed.

(** C10: A descriptor loses no readiness event and invents none.  Whatever the
    order in which the user asks to be called ([readWhenReady], one request at a
    time) and the poller reports events ([readIfWaiting]), and in the same way
    for writing: only the callback of the descriptor is scheduled; every request
    has been answered, except one that waits, and then no event came after it;
    and every callback is backed by an event of its own. *)
Theorem desc_no_lost_event write fd rcb wcb cb h d ts :
  half_run write (Descriptor_init fd rcb wcb) h d ts →
  cb_of write (Descriptor_init fd rcb wcb) = Some cb →
  ts = replicate (length ts) cb ∧
  Z.of_nat (length ts) + Z.b2z (waiting_of write d) = asks_in h ∧
  Z.of_nat (length ts) + Z.b2z (can_of write d) ≤ events_in h ∧
  (waiting_of write d = true → last h = Some true) ∧ (can_of write d = true → last h ≠ Some true).
Proof.
  intros Hr Hcb. apply (half_inv _ _ _ _ _ cb) in Hr; [|by destruct write|by destruct write|done]. naive_solver.
Qed.

Definition ask_event_ask : list bool := [true; false; false; true; true].

Lemma desc_no_lost_event_witness :
  let d := mkDesc 5 false None (Some 9%nat) false false false true in
  half_run true (Descriptor_init 5 None (Some 9%nat)) ask_event_ask d [9; 9]%nat ∧
  Z.of_nat 2 + Z.b2z (waiting_of true d) = asks_in ask_event_ask.
Proof.
  intros d. assert (Hr : half_run true (Descriptor_init 5 None (Some 9%nat)) ask_event_ask d [9; 9]%nat).
  { eapply (half_exec_run true _ [] _ [] ask_event_ask); [apply half_nil|reflexivity]. }
  split; [exact Hr|]. destruct (desc_no_lost_event true 5 None (Some 9%nat) 9 _ _ _ Hr eq_refl) as (_ & H & _). exact H.
Defined.

(** ** Timers *)

Definition by_time (q : list (Z * task)) : Prop := StronglySorted (λ x y, x.1 ≤ y.1) q.

Lemma timer_insert_sorted ts t q : by_time q → by_time (timer_insert ts t q).
Proof.
  induction 1 as [|x q Hq IH Hx]; cbn; [repeat constructor|]. destruct (Z.ltb_spec ts x.1) as [Hlt|Hge].
  - constructor; [by constructor|]. constructor; [cbn; lia|]. eapply Forall_impl; [exact Hx|]. cbn. lia.
  - constructor; [done|]. clear -Hx Hge. induction Hx as [|y q Hy Hq IH]; cbn; [constructor; [cbn; lia|constructor]|].
    destruct (ts <? y.1); [constructor; [cbn; lia|by constructor]|by constructor].
Qed.

Lemma timer_insert_perm ts t q : timer_insert ts t q ≡ₚ (ts, t) :: q.
Proof.
  induction q as [|x q IH]; cbn; [done|]. destruct (ts <? x.1); [done|]. rewrite IH. apply Permutation_swap.
Qed.

Lemma filter_none {A} (P : A → Prop) `{∀ x, Decision (P x)} l : Forall (λ x, ¬ P x) l → filter P l = [].
Proof. induction 1; [done|]. by rewrite filter_cons_False. Qed.

Lemma filter_all {A} (P : A → Prop) `{∀ x, Decision (P x)} l : Forall P l → filter P l = l.
Proof. induction 1; [done|]. rewrite filter_cons_True by done. by f_equal. Qed.

(** On a queue in order the loop takes what is due. *)
Lemma timer_loop_spec now q : by_time q →
  timer_loop now q = ((filter (λ x, x.1 ≤ now) q).*2, filter (λ x, now < x.1) q).
Proof.
  induction 1 as [|x q Hq IH Hx]; [done|]. cbn [timer_loop]. rewrite !filter_cons.
  destruct (Z.ltb_spec now x.1) as [Hlt|Hge].
  - rewrite decide_False, decide_True by lia. f_equal.
    + rewrite (filter_none (λ y, y.1 ≤ now)); [done|]. eapply Forall_impl; [exact Hx|]. cbn. lia.
    + rewrite (filter_all (λ y, now < y.1)); [done|]. eapply Forall_impl; [exact Hx|]. cbn. lia.
  - rewrite decide_True, decide_False by lia. rewrite IH. done.
Qed.

(** What happens to a manager. *)
Inductive mop : Type :=
| MNew (fd : Z) (rcb wcb : option task)
| MDel (desc : option nat)
| MTimer (ts : Z) (t : task)
| MTask (t : task)
| MAsk (write : bool) (i : nat)
| MSetUp (rcb wcb : option task) (i : nat)
| MRound (now : Z) (events : list (Z * nat)).

Definition run_mop (m : IOManager) (o : mop) : IOManager :=
  match o with
  | MNew fd rcb wcb => (newDescriptor fd rcb wcb m).2
  | MDel desc => delDescriptor desc m
  | MTimer ts t => addTimer ts t m
  | MTask t => addTask t m
  | MAsk write i => on_desc (half_op write true) i m
  | MSetUp rcb wcb i => on_desc (λ d, ((setUpCalls rcb wcb d).1, [])) i m
  | MRound now events => poll_round now events m
  end.

Lemma on_desc_frame f i m : timer_queue_ (on_desc f i m) = timer_queue_ m ∧
  deleted_desc_ (on_desc f i m) = deleted_desc_ m ∧ disposed_desc (on_desc f i m) = disposed_desc m ∧
  ∃ ts, submitted (on_desc f i m) = submitted m ++ ts.
Proof.
  unfold on_desc. destruct (descriptors m !! i) as [d|]; [|split_and!; try done; exists []; by rewrite app_nil_r].
  destruct (f d) as [d' ts]. split_and!; try done. by exists ts.
Qed.

Lemma event_frame e i m : timer_queue_ (handle_event e i m) = timer_queue_ m ∧
  deleted_desc_ (handle_event e i m) = deleted_desc_ m ∧ disposed_desc (handle_event e i m) = disposed_desc m ∧
  ∃ ts, submitted (handle_event e i m) = submitted m ++ ts.
Proof.
  unfold handle_event. set (m1 := if negb (Z.land e (Z.lor DP_ERROR DP_READ_READY) =? 0) then on_desc readIfWaiting i m else m).
  assert (timer_queue_ m1 = timer_queue_ m ∧ deleted_desc_ m1 = deleted_desc_ m ∧ disposed_desc m1 = disposed_desc m ∧
    ∃ ts, submitted m1 = submitted m ++ ts) as (E1 & E2 & E3 & ts & E4).
  { unfold m1. case_match; [apply on_desc_frame|]. split_and!; try done. exists []. by rewrite app_nil_r. }
  case_match; [|by eauto]. destruct (on_desc_frame writeIfWaiting i m1) as (-> & -> & -> & ts' & ->).
  split_and!; try done. exists (ts ++ ts'). by rewrite E4, (assoc_L (++)).
Qed.

Lemma events_frame evs m : let m' := foldl (λ m ev, handle_event ev.1 ev.2 m) m evs in
  timer_queue_ m' = timer_queue_ m ∧ deleted_desc_ m' = deleted_desc_ m ∧ disposed_desc m' = disposed_desc m ∧
  ∃ ts, submitted m' = submitted m ++ ts.
Proof.
  revert m. induction evs as [|[e i] evs IH]; intros m; cbn; [split_and!; try done; exists []; by rewrite app_nil_r|].
  destruct (IH (handle_event e i m)) as (-> & -> & -> & ts & ->). destruct (event_frame e i m) as (-> & -> & -> & ts' & ->).
  split_and!; try done. exists (ts' ++ ts). by rewrite (assoc_L (++)).
Qed.

(** One round on a queue in order. *)
Lemma round_ok now events m : by_time (timer_queue_ m) →
  timer_queue_ (poll_round now events m) = filter (λ x, now < x.1) (timer_queue_ m) ∧
  (∃ ts, submitted (poll_round now events m) = submitted m ++ (filter (λ x, x.1 ≤ now) (timer_queue_ m)).*2 ++ ts) ∧
  deleted_desc_ (poll_round now events m) = [] ∧
  disposed_desc (poll_round now events m) = disposed_desc m ++ deleted_desc_ m.
Proof.
  intros Hq. unfold poll_round, collect. cbn. destruct (events_frame events (run_timers now m)) as (E1 & E2 & E3 & ts & E4).
  rewrite E1, E2, E3, E4. unfold run_timers. rewrite (timer_loop_spec now _ Hq). cbn. split_and!; try done.
  exists ts. by rewrite (assoc_L (++)).
Qed.

Lemma filter_by_time (P : Z * task → Prop) `{∀ x, Decision (P x)} q : by_time q → by_time (filter P q).
Proof.
  induction 1 as [|x q Hq IH Hx]; [constructor|]. rewrite filter_cons. case_decide; [|done]. constructor; [done|].
  apply Forall_forall. intros y [_ Hy]%list_elem_of_filter. by eapply Forall_forall in Hx.
Qed.

Lemma mop_sorted m o : by_time (timer_queue_ m) → by_time (timer_queue_ (run_mop m o)).
Proof.
  intros Hq. destruct o as [fd rcb wcb|[i|]|ts t|t|w i|rcb wcb i|now evs]; unfold run_mop; try done.
  - by apply timer_insert_sorted.
  - by destruct (on_desc_frame (half_op w true) i m) as (-> & _).
  - by destruct (on_desc_frame (λ d, ((setUpCalls rcb wcb d).1, [])) i m) as (-> & _).
  - destruct (round_ok now evs m Hq) as (-> & _). by apply filter_by_time.
Qed.

(** One round of the polling loop, after any use of the manager: the timers
    that are due are handed to the pool, earliest first, each once, and exactly
    the others stay in the queue, in order; and the descriptors that were
    deleted before the round are disposed of, each once. *)
Theorem poll_round_spec ops now events :
  let m := foldl run_mop IOManager_init ops in
  let m' := poll_round now events m in
  let due := filter (λ x, x.1 ≤ now) (timer_queue_ m) in
  StronglySorted Z.le due.*1 ∧
  (∃ ts, submitted m' = submitted m ++ due.*2 ++ ts) ∧
  timer_queue_ m' = filter (λ x, now < x.1) (timer_queue_ m) ∧
  due ++ timer_queue_ m' ≡ₚ timer_queue_ m ∧
  deleted_desc_ m' = [] ∧ disposed_desc m' = disposed_desc m ++ deleted_desc_ m.
Proof.
  intros m m' due. assert (Hq : by_time (timer_queue_ m)).
  { unfold m. clear. assert (H0 : by_time (timer_queue_ IOManager_init)) by constructor. revert H0.
    generalize IOManager_init. induction ops as [|o ops IH]; intros m Hm; [done|]. cbn. by apply IH, mop_sorted. }
  destruct (round_ok now events m Hq) as (E1 & E2 & E3 & E4). split_and!; [|done|done| |done|done].
  - unfold due. clear -Hq. apply (filter_by_time (λ x, x.1 ≤ now)) in Hq. induction Hq as [|x q Hq IH Hx]; cbn; constructor; [done|].
    by apply Forall_fmap.
  - unfold m'. rewrite E1. unfold due. clear. induction (timer_queue_ m) as [|x q IH]; [done|]. rewrite !filter_cons.
    destruct (decide (x.1 ≤ now)).
    + rewrite decide_False by lia. cbn. by rewrite IH.
    + rewrite decide_True by lia. by rewrite <- Permutation_middle, IH.
Qed.

(** ** Stopping

    One thread runs [poll()]; other threads call [stop()]. *)

(** Where the polling thread is. *)
Inductive ppc : Type :=
| PStart             (* about to call poll() *)
| PCheck             (* while (!stopped()) *)
| PRound             (* the body of the loop *)
| PLeave             (* behind the loop *)
| POut.              (* poll() has returned *)

(** Where a call of [stop()] is. *)
Inductive tpc : Type :=
| TStart             (* if (stopped_) *)
| TWait              (* while (polling_) *)
| TPool              (* worker_pool_->stop(), deleting the descriptors *)
| TReturned.         (* returned *)

Record Stopping : Type := mkStopping {
  stopped_ : bool;
  polling_ : bool;
  poller : ppc;
  stoppers : list tpc;
  torn : bool;         (* some stop() has passed the polling loop *)
}.

(** [IOManager(...)] and [n] threads that will call [stop()]. *)
Definition Stopping_init (n : nat) : Stopping := mkStopping false false PStart (replicate n TStart) false.

(** The next action of [poll()]. *)
Definition poll_step (s : Stopping) : option Stopping :=
  match poller s with
  | PStart => Some (mkStopping (stopped_ s) true PCheck (stoppers s) (torn s))
  | PCheck => Some (mkStopping (stopped_ s) (polling_ s) (if stopped_ s then PLeave else PRound) (stoppers s) (torn s))
  | PRound => Some (mkStopping (stopped_ s) (polling_ s) PCheck (stoppers s) (torn s))
  | PLeave => Some (mkStopping (stopped_ s) false POut (stoppers s) (torn s))
  | POut => None
  end.

(** The next action of call [i] of [stop()]. *)
Definition stop_step (i : nat) (s : Stopping) : option Stopping :=
  c ← stoppers s !! i;
  match c with
  | TStart =>
    if stopped_ s then Some (mkStopping (stopped_ s) (polling_ s) (poller s) (<[i := TReturned]> (stoppers s)) (torn s))
    else Some (mkStopping true (polling_ s) (poller s) (<[i := TWait]> (stoppers s)) (torn s))
  | TWait =>
    if polling_ s then None
    else Some (mkStopping (stopped_ s) (polling_ s) (poller s) (<[i := TPool]> (stoppers s)) true)
  | TPool => Some (mkStopping (stopped_ s) (polling_ s) (poller s) (<[i := TReturned]> (stoppers s)) (torn s))
  | TReturned => None
  end.

Definition io_step (l : option nat) (s : Stopping) : option Stopping :=
  match l with None => poll_step s | Some i => stop_step i s end.

Record stopping_ok (s : Stopping) : Prop := {
  so_poll : match poller s with PCheck | PRound | PLeave => polling_ s = true | _ => polling_ s = false end;
  so_stop : ∀ i, stoppers s !! i = Some TWait ∨ stoppers s !! i = Some TPool → stopped_ s = true;
  so_torn : torn s = true → stopped_ s = true ∧ poller s ≠ PRound;
}.

Lemma stopping_step l s s' : stopping_ok s → io_step l s = Some s' → stopping_ok s'.
Proof.
  intros [Hp Hs Ht] Hstep. destruct l as [i|]; cbn in Hstep.
  - unfold stop_step in Hstep. destruct (stoppers s !! i) as [c|] eqn:Hi; [|done]. cbn in Hstep.
    assert (Hins : ∀ j x y, <[i := x]> (stoppers s) !! j = Some y → j = i ∧ y = x ∨ stoppers s !! j = Some y).
    { intros j x y. destruct (decide (j = i)) as [->|Hne].
      - rewrite list_lookup_insert_eq by eauto using lookup_lt_Some. intros [= ->]. auto.
      - rewrite list_lookup_insert_ne by done. auto. }
    destruct c; repeat case_match; simplify_eq; split; cbn; try done; try naive_solver.
  - unfold poll_step in Hstep. destruct (poller s) eqn:E; simplify_eq; split; cbn; rewrite ?E; try done; repeat case_match; try done; naive_solver.
Qed.

(** Stopping the manager is safe and cannot hang on the polling loop.  For
    any number of calls of [stop()] in any interleaving with [poll()]: once a
    call has seen that polling is over and tears the workers down, the polling
    loop is not in a round and never begins one again; and once a stop is
    requested, at most three actions of the polling thread end the loop, so the
    call that waits for it goes on. *)
Theorem io_stop_safe n s ls s' :
  reachable io_step (Stopping_init n) s → run io_step ls s = Some s' →
  (torn s = true → poller s' ≠ PRound) ∧
  (stopped_ s' = true → polling_ s' = true →
   ∃ k s2, (k ≤ 3)%nat ∧ run io_step (replicate k None) s' = Some s2 ∧ polling_ s2 = false ∧
     ∀ i, stoppers s2 !! i = Some TWait → is_Some (stop_step i s2)).
Proof.
  intros Hr Hrun. assert (Hall : ∀ x, reachable io_step (Stopping_init n) x → stopping_ok x).
  { apply invariant_reachable; [|eauto using stopping_step]. split; cbn; try done.
    intros i [H|H]; by apply lookup_replicate in H as [[=] _]. }
  assert (Hok : stopping_ok s').
  { destruct Hr as [ls0 Hr0]. apply Hall. exists (ls0 ++ ls). by rewrite run_app, Hr0. }
  split.
  - intros Ht. assert (Ht' : torn s' = true); [|by apply Hok].
    revert s Hrun Ht Hr. clear. induction ls as [|l ls IH]; intros s Hrun Ht Hr; cbn in Hrun; [by simplify_eq|].
    destruct (io_step l s) as [s1|] eqn:E; [|done]. eapply IH; [exact Hrun| |by eapply reachable_step].
    destruct l as [i|]; cbn in E; unfold stop_step, poll_step in E; [destruct (stoppers s !! i) as [[]|]|destruct (poller s)];
      cbn in E; repeat case_match; simplify_eq; done.
  - intros Hst Hp. destruct Hok as [Hpoll _ _]. destruct s' as [st po pc sts to]; cbn in *; subst.
    destruct pc; try done; [exists 2%nat|exists 3%nat|exists 1%nat]; (eexists; split; [lia|]; split; [reflexivity|]; split; [done|]);
      intros i Hi; unfold stop_step; cbn in *; rewrite Hi; done.
Qed.

(** [stop()] is called while the loop is in a round. *)
Lemma io_stop_safe_witness :
  let s := mkStopping true true PRound [TWait] false in
  reachable io_step (Stopping_init 1) s ∧
  ∃ k s2, (k ≤ 3)%nat ∧ run io_step (replicate k None) s = Some s2 ∧ polling_ s2 = false.
Proof.
  intros s. assert (Hr : reachable io_step (Stopping_init 1) s) by (exists [None; None; Some 0%nat]; reflexivity).
  split; [exact Hr|]. destruct (io_stop_safe 1 s [] s Hr eq_refl) as [_ H].
  destruct (H eq_refl eq_refl) as (k & s2 & H1 & H2 & H3 & _). exists k, s2. split; [exact H1|]. split; [exact H2|exact H3].
Defined.
