(* ===== verification/Connection.v ===== *)
(** * Connections ([connection.cpp])

    A connection owns a socket, an input and an output buffer, a descriptor of
    the I/O manager and a reference count.  Connecting and reading are code in
    the error-state monad; what the system calls return is an argument.
    Writing is a transition system, because other threads append to the output
    buffer while a write is under way.  The virtual methods [connDone()] and
    [readDone()] and the C function [strerror] are parameters.  Tasks handed to
    the worker pool are recorded in [tasks]. *)

From S2P Require Import Prelude CppString Buffer BufferSpec Threads ThreadPool IOManager.
From stdpp Require Import base numbers list gmap sorting relations strings.
Open Scope Z_scope.

(** The callbacks a connection creates. *)
Definition cb_doConnect : task := 1%nat.
Definition cb_doRead : task := 2%nat.
Definition cb_doWrite : task := 3%nat.

Record Connection : Type := mkConn {
  in_ : Buffer;
  writing_ : bool;
  out_ : Buffer;
  client_fd_ : Z;
  conn_closed_ : bool;               (* closed_ *)
  io_desc_ : option Descriptor;      (* None: NULL *)
  in_error_ : bool;
  error_string_ : str;
  refs_ : Z;
  tasks : list task;                 (* handed to the pool *)
  closed_fds : list Z;               (* ::close() *)
  deleted : bool;                    (* delete this *)
}.

Definition put_in (b : Buffer) (c : Connection) : Connection :=
  mkConn b (writing_ c) (out_ c) (client_fd_ c) (conn_closed_ c) (io_desc_ c) (in_error_ c)
    (error_string_ c) (refs_ c) (tasks c) (closed_fds c) (deleted c).
Definition put_out (w : bool) (b : Buffer) (c : Connection) : Connection :=
  mkConn (in_ c) w b (client_fd_ c) (conn_closed_ c) (io_desc_ c) (in_error_ c)
    (error_string_ c) (refs_ c) (tasks c) (closed_fds c) (deleted c).
Definition put_fd (fd : Z) (c : Connection) : Connection :=
  mkConn (in_ c) (writing_ c) (out_ c) fd (conn_closed_ c) (io_desc_ c) (in_error_ c)
    (error_string_ c) (refs_ c) (tasks c) (closed_fds c) (deleted c).
Definition put_closed (b : bool) (c : Connection) : Connection :=
  mkConn (in_ c) (writing_ c) (out_ c) (client_fd_ c) b (io_desc_ c) (in_error_ c)
    (error_string_ c) (refs_ c) (tasks c) (closed_fds c) (deleted c).
Definition put_desc (d : option Descriptor) (ts : list task) (c : Connection) : Connection :=
  mkConn (in_ c) (writing_ c) (out_ c) (client_fd_ c) (conn_closed_ c) d (in_error_ c)
    (error_string_ c) (refs_ c) (tasks c ++ ts) (closed_fds c) (deleted c).
Definition put_error (s : str) (c : Connection) : Connection :=
  mkConn (in_ c) (writing_ c) (out_ c) (client_fd_ c) (conn_closed_ c) (io_desc_ c) true
    (error_string_ c ++ s) (refs_ c) (tasks c) (closed_fds c) (deleted c).
Definition put_refs (n : Z) (c : Connection) : Connection :=
  mkConn (in_ c) (writing_ c) (out_ c) (client_fd_ c) (conn_closed_ c) (io_desc_ c) (in_error_ c)
    (error_string_ c) n (tasks c) (closed_fds c) (deleted c).
Definition close_fd (fd : Z) (c : Connection) : Connection :=
  mkConn (in_ c) (writing_ c) (out_ c) (client_fd_ c) (conn_closed_ c) (io_desc_ c) (in_error_ c)
    (error_string_ c) (refs_ c) (tasks c) (closed_fds c ++ [fd]) (deleted c).
Definition put_deleted (c : Connection) : Connection :=
  mkConn (in_ c) (writing_ c) (out_ c) (client_fd_ c) (conn_closed_ c) (io_desc_ c) (in_error_ c)
    (error_string_ c) (refs_ c) (tasks c) (closed_fds c) true.

(** [Connection(io_service, client_fd)]: the server side. *)
Definition Connection_passive (client_fd : Z) : Connection :=
  mkConn Buffer_init false Buffer_init client_fd false
    (Some (Descriptor_init client_fd (Some cb_doRead) (Some cb_doWrite))) false [] 0 [] [] false.

(** [Connection(io_service)]: the client side. *)
Definition Connection_active : Connection :=
  mkConn Buffer_init false Buffer_init (-1) true None false [] 0 [] [] false.

(** [close()]. *)
Definition close (c : Connection) : Connection := put_closed true (close_fd (client_fd_ c) c).

(** [~Connection()]; the descriptor goes to [delDescriptor()]. *)
Definition Connection_destroy (c : Connection) : Connection :=
  put_deleted (put_desc None [] (if 0 <? client_fd_ c then close_fd (client_fd_ c) c else c)).

(** ** References *)

Definition acquire : M Connection unit := λ c,
  if deleted c then Err (Segv 0) else Ok tt (put_refs (refs_ c + 1) c).

(** The last release deletes the connection. *)
Definition release : M Connection unit := λ c,
  if deleted c then Err (Segv 0) else
  let count := refs_ c - 1 in
  let c' := put_refs count c in
  if count =? 0 then Ok tt (Connection_destroy c') else Ok tt c'.

(** A method of [io_desc_]; calling it through [NULL] is a fault. *)
Definition on_io_desc (f : Descriptor → Descriptor * list task) : M Connection unit := λ c,
  match io_desc_ c with
  | None => Err (Segv 0)
  | Some d => let '(d', ts) := f d in Ok tt (put_desc (Some d') ts c)
  end.

(** ** Sub-classes *)

(** A sub-class of [Connection]: its objects contain a connection. *)
Class Subclass (S : Type) : Type := {
  base_of : S → Connection;
  set_base : Connection → S → S;
}.

Class SubclassLaws (S : Type) `{Subclass S} : Prop := {
  base_set : ∀ c s, base_of (set_base c s) = c;
  set_set : ∀ c c' s, set_base c (set_base c' s) = set_base c s;
  set_id : ∀ s, set_base (base_of s) s = s;
}.

(** A method of the base class on an object of the sub-class. *)
Definition super {S A} `{Subclass S} (f : M Connection A) : M S A := zoom base_of set_base f.

#[export] Instance connection_itself : Subclass Connection := {| base_of := id; set_base := λ c _, c |}.

#[export] Instance connection_itself_laws : SubclassLaws Connection.
Proof. by split. Qed.

(** ** Connecting *)

(** What the system calls of [startConnect()] and [doConnect()] return. *)
Record ConnectEnv : Type := mkEnv {
  socket_result : Z;
  connect_result : Z;
  errno : Z;
  so_error : Z;
}.

Definition EINTR : Z := 4.
Definition EINPROGRESS : Z := 115.

Section connecting.
Context {S : Type} `{Subclass S} (strerror : Z → str) (connDone : M S unit) (env : ConnectEnv).

Definition doConnect : M S unit :=
  c ← gets base_of;
  super (if in_error_ c then mret tt
         else if negb (so_error env =? 0) then modify (put_error (bytes "Connect failed" ++ strerror (so_error env)))
         else
           modify (put_closed false);;
           on_io_desc (λ d, ((setUpCalls (Some cb_doRead) (Some cb_doWrite) d).1, [])));;
  connDone;;
  super release.

Definition startConnect : M S unit :=
  super (modify (put_fd (socket_result env)));;
  if socket_result env <? 0 then super (modify (put_error (bytes "Socket failed: " ++ strerror (errno env))))
  else
    super acquire;;
    if 0 <=? connect_result env then doConnect
    else if negb (errno env =? EINPROGRESS) && negb (errno env =? EINTR) then
      super (modify (close_fd (socket_result env));;
             modify (put_fd (-1));;
             modify (put_error (bytes "Connect failed: " ++ strerror (errno env))));;
      doConnect
    else
      super (modify (put_desc (Some (Descriptor_init (socket_result env) None (Some cb_doConnect))) []);;
             on_io_desc writeWhenReady).
End connecting.

(** ** Reading *)

(** What one call of [read] finds: an interruption, the bytes that have arrived
    (none: the peer closed), nothing yet, or an error. *)
Inductive raw : Type :=
| RIntr
| RBytes (d : list Z)
| RAgain
| RErr.

(** What [socketRead] returns. *)
Inductive sres : Type :=
| SGot (d : list Z)
| SAgain
| SErr.

(** Retries after an interruption; takes at most [size] bytes. *)
Fixpoint socketRead (size : nat) (script : list raw) : option (sres * list raw) :=
  match script with
  | [] => None
  | RIntr :: s => socketRead size s
  | RBytes d :: s =>
    if (length d <=? size)%nat then Some (SGot d, s) else Some (SGot (take size d), RBytes (drop size d) :: s)
  | RAgain :: s => Some (SAgain, s)
  | RErr :: s => Some (SErr, s)
  end.

Definition startRead : M Connection unit := acquire;; on_io_desc readWhenReady.

Definition on_in {A} (c : M Buffer A) : M Connection A := zoom in_ put_in c.

Section reading.
Context {S : Type} `{Subclass S} (readDone : M S bool).

(** The loop of [doRead()]. *)
Fixpoint read_loop (fuel : nat) (script : list raw) : M S unit :=
  match fuel with
  | O => fail OutOfFuel
  | Datatypes.S fuel' =>
    super (on_in (reserve 1024));;
    c ← gets base_of;
    match socketRead (Z.to_nat (writeSize (in_ c))) script with
    | None => fail OutOfFuel
    | Some (SGot [], _) => mret tt
    | Some (SGot d, script') =>
      super (on_in (poke d;; advance (Z.of_nat (length d))));;
      ok ← readDone;
      if ok : bool then read_loop fuel' script' else mret tt
    | Some (SAgain, _) => super (acquire;; on_io_desc readWhenReady)
    | Some (SErr, _) => mret tt
    end
  end.

Definition doRead (fuel : nat) (script : list raw) : M S unit :=
  read_loop fuel script;; super release.
End reading.

(** ** Writing *)

(** Where [doWrite()] is: at the head of its loop, or inside [socketWrite] with
    the size it read under the lock. *)
Inductive wpc : Type :=
| WTop
| WSys (size : Z).

(** A connection and the threads that use it: [writers] are the threads inside
    [doWrite()]; [queued] counts the [doWrite] callbacks in the pool; [reading]:
    the read operation is under way, whose [readDone()] fills the output buffer.
    [appended] and [sent] are ghosts: all bytes written to the output buffer and
    to the socket. *)
Record Writing : Type := mkWriting {
  conn : Connection;
  reading : bool;
  writers : list wpc;
  queued : nat;
  appended : list Z;
  sent : list Z;
}.

(** What one call of [socketWrite] returns. *)
Inductive wres : Type :=
| WWrote (n : Z)
| WAgain
| WErr.

Inductive wlabel : Type :=
| Append (d : list Z)          (* readDone(): out_.write(d) under m_write_ *)
| StartWrite                   (* readDone(): startWrite() *)
| StopReading                  (* doRead() ends: release() *)
| Snapshot (i : nat)           (* writer i reads size and pointer *)
| Wrote (i : nat) (r : wres)   (* writer i: the system call and what follows *)
| WriteEvent                   (* the poller reports that the socket is writable *)
| RunWrite.                    (* a worker begins a queued doWrite() *)

Definition lift_out {A} (w : M Buffer A) (c : Connection) : option (A * Connection) :=
  match w (out_ c) with Ok a b => Some (a, put_out (writing_ c) b c) | Err _ => None end.

Definition run_conn (f : M Connection unit) (c : Connection) : option Connection :=
  match f c with Ok _ c' => Some c' | Err _ => None end.

(** The tasks a connection submitted since [c]. *)
Definition submitted_by (c c' : Connection) : nat := length (tasks c') - length (tasks c).

(** The bytes at [readPtr()]. *)
Definition out_bytes (n : Z) (b : Buffer) : list Z :=
  match chunks_ b !! idx (rpos_ b) with
  | Some ch => omap id (take (Z.to_nat n) (drop (Z.to_nat (off (rpos_ b))) ch))
  | None => []
  end.

(** The part of [doWrite()] behind the system call, for [bytes_written = n]:
    the writer goes on ([true]) or leaves the loop. *)
Definition after_write (size n : Z) (c : Connection) : option (bool * Connection) :=
  if n =? 0 then Some (false, c) else
  '(_, c1) ← lift_out (consume n) c;
  '(rs, c2) ← lift_out readSize c1;
  if (size =? n) && (rs =? 0) then Some (false, put_out false (out_ c2) c2) else Some (true, c2).

Definition write_step (l : wlabel) (s : Writing) : option Writing :=
  let c := conn s in
  match l with
  | Append d =>
    if negb (reading s) then None else
    '(_, c') ← lift_out (write d) c;
    Some (mkWriting c' true (writers s) (queued s) (appended s ++ d) (sent s))
  | StartWrite =>
    if negb (reading s) then None else
    if writing_ c then Some s else
    c' ← run_conn acquire (put_out true (out_ c) c);
    Some (mkWriting c' true (writers s ++ [WTop]) (queued s) (appended s) (sent s))
  | StopReading =>
    if negb (reading s) then None else
    c' ← run_conn release c;
    Some (mkWriting c' false (writers s) (queued s) (appended s) (sent s))
  | Snapshot i =>
    w ← writers s !! i;
    match w with
    | WTop =>
      '(size, _) ← lift_out readSize c;
      Some (mkWriting c (reading s) (<[i := WSys (to_int32 size)]> (writers s)) (queued s) (appended s) (sent s))
    | WSys _ => None
    end
  | Wrote i r =>
    w ← writers s !! i;
    match w with
    | WTop => None
    | WSys size =>
      match r with
      | WAgain =>
        c' ← run_conn (acquire;; on_io_desc writeWhenReady;; release) c;
        Some (mkWriting c' (reading s) (delete i (writers s)) (queued s + submitted_by c c') (appended s) (sent s))
      | WErr =>
        c' ← run_conn release c;
        Some (mkWriting c' (reading s) (delete i (writers s)) (queued s) (appended s) (sent s))
      | WWrote n =>
        if negb (0 <=? n) || negb (n <=? size) || ((n =? 0) && negb (size =? 0)) then None else
        '(more, c1) ← after_write size n c;
        if more : bool then
          Some (mkWriting c1 (reading s) (<[i := WTop]> (writers s)) (queued s) (appended s) (sent s ++ out_bytes n (out_ c)))
        else
          c' ← run_conn release c1;
          Some (mkWriting c' (reading s) (delete i (writers s)) (queued s) (appended s) (sent s ++ out_bytes n (out_ c)))
      end
    end
  | WriteEvent =>
    if deleted c then None else
    c' ← run_conn (on_io_desc writeIfWaiting) c;
    Some (mkWriting c' (reading s) (writers s) (queued s + submitted_by c c') (appended s) (sent s))
  | RunWrite =>
    match queued s with
    | O => None
    | S q => Some (mkWriting c (reading s) (writers s ++ [WTop]) q (appended s) (sent s))
    end
  end.

(** A server connection that reads: [startRead()] holds one reference. *)
Definition Writing_init (fd : Z) : option Writing :=
  c ← run_conn startRead (Connection_passive fd);
  Some (mkWriting c true [] 0 [] []).
