(* ===== verification/ConnectionSpec.v ===== *)
(** * What a connection guarantees *)

From S2P Require Import Prelude CppString Buffer BufferSpec Threads ThreadPool IOManager Connection.
From stdpp Require Import base numbers list gmap sorting relations strings.
Open Scope Z_scope.

(** ** The bytes at the read pointer *)

Lemma readSize_head b ini lst : brep b ini lst →
  readSize b = Ok (Z.of_nat (length (head_bytes (ini ++ [lst]) (rpos_ b)))) b ∧
  (length (head_bytes (ini ++ [lst]) (rpos_ b)) ≤ 4096)%nat ∧
  head_bytes (ini ++ [lst]) (rpos_ b) `prefix_of` content (ini ++ [lst]) (rpos_ b).
Proof.
  intros Hb. destruct (readSize_eq Hb) as (d & Hd & Ho & Hrs). unfold head_bytes. rewrite Hd. cbn. split_and!.
  - rewrite Hrs, length_drop. f_equal. lia.
  - rewrite length_drop. assert (length d ≤ 4096)%nat; [|lia]. apply (chunk_le Hb), list_elem_of_lookup. eauto.
  - rewrite (content_head Hb d Hd). by apply prefix_app_r.
Qed.

Lemma out_bytes_head b ini lst n : brep b ini lst → 0 ≤ n ≤ Z.of_nat (length (head_bytes (ini ++ [lst]) (rpos_ b))) →
  out_bytes n b = take (Z.to_nat n) (head_bytes (ini ++ [lst]) (rpos_ b)).
Proof.
  intros Hb Hn. destruct (br_rpos _ _ _ Hb) as (d & Hd & Ho). unfold out_bytes, head_bytes in *. rewrite Hd in *. cbn in *.
  destruct (Forall2_lookup_r _ _ _ _ _ (br_chunks _ _ _ Hb) Hd) as (ch & Hch & Hlc & Hld & Htk). rewrite Hch.
  rewrite length_drop in Hn.
  assert (E : take (Z.to_nat n) (drop (Z.to_nat (off (rpos_ b))) ch) = Some <$> take (Z.to_nat n) (drop (Z.to_nat (off (rpos_ b))) d)).
  { rewrite fmap_take, fmap_drop, <- Htk. rewrite !take_drop_commute, take_take. do 2 f_equal. lia. }
  rewrite E. clear. induction (take _ _) as [|x l IH]; [done|]. cbn. by f_equal.
Qed.

(** ** The invariant of the writing side *)

Definition waits_write (c : Connection) : bool :=
  match io_desc_ c with Some d => waiting_write_ d | None => false end.

(** Writes under way: inside [doWrite()], queued, or waiting for an event. *)
Definition active (s : Writing) : nat :=
  length (writers s) + queued s + Nat.b2n (waits_write (conn s)).

(** The unread bytes are those that were appended and not sent, and a size that
    [doWrite()] read under the lock still is available. *)
Definition stream_ok (b : Buffer) (ws : list wpc) (app snt : list Z) : Prop :=
  ∃ ini lst, brep b ini lst ∧ app = snt ++ content (ini ++ [lst]) (rpos_ b) ∧
    ∀ i size, ws !! i = Some (WSys size) → 0 ≤ size ≤ Z.of_nat (length (head_bytes (ini ++ [lst]) (rpos_ b))).

(** The references are those of the reader and of the writes under way. *)
Definition refs_ok (c : Connection) (rd : bool) (n : nat) : Prop :=
  if deleted c then rd = false ∧ n = O
  else refs_ c = Z.b2z rd + Z.of_nat n ∧ 0 < refs_ c ∧
    ∃ d, io_desc_ c = Some d ∧ write_cb_ d = Some cb_doWrite.

Record writing_inv (s : Writing) : Prop := {
  wi_stream : stream_ok (out_ (conn s)) (writers s) (appended s) (sent s);
  wi_one : (active s ≤ 1)%nat;
  wi_flag : active s = 1%nat → writing_ (conn s) = true;
  wi_refs : refs_ok (conn s) (reading s) (active s);
}.

Lemma stream_sub b ws ws' a t : stream_ok b ws a t →
  (∀ i size, ws' !! i = Some (WSys size) → ∃ j, ws !! j = Some (WSys size)) → stream_ok b ws' a t.
Proof.
  intros (ini & lst & Hb & E & Hs) Hsub. exists ini, lst. split_and!; try done. intros i size Hi.
  destruct (Hsub i size Hi) as [j Hj]. eauto.
Qed.

Lemma sub_snoc (ws : list wpc) i size : (ws ++ [WTop]) !! i = Some (WSys size) → ∃ j, ws !! j = Some (WSys size).
Proof. intros [?|[_ Hx]]%lookup_app_Some; [eauto|]. by apply list_lookup_singleton_Some in Hx as [_ [=]]. Qed.

Lemma sub_delete (ws : list wpc) k i size : delete k ws !! i = Some (WSys size) → ∃ j, ws !! j = Some (WSys size).
Proof.
  intros Hi. destruct (decide (i < k)%nat).
  - rewrite list_lookup_delete_lt in Hi by done. eauto.
  - rewrite list_lookup_delete_ge in Hi by lia. eauto.
Qed.

Lemma length_delete1 {A} (ws : list A) i w : ws !! i = Some w → length ws = S (length (delete i ws)).
Proof. intros Hi. rewrite length_delete by eauto. apply lookup_lt_Some in Hi. lia. Qed.

(** A reference is given back; the last one deletes the connection. *)
Lemma release_ok c rd n rd' n' :
  refs_ok c rd n → Z.b2z rd' + Z.of_nat n' = Z.b2z rd + Z.of_nat n - 1 → deleted c = false →
  ∃ c', release c = Ok tt c' ∧ refs_ok c' rd' n' ∧ out_ c' = out_ c ∧ writing_ c' = writing_ c ∧
    (io_desc_ c' = io_desc_ c ∨ io_desc_ c' = None) ∧ tasks c' = tasks c.
Proof.
  intros Hr Hn Hd. unfold refs_ok, release in *. rewrite Hd in *. destruct Hr as (Er & Hpos & Hdesc).
  destruct (Z.eqb_spec (refs_ c - 1) 0) as [E|E].
  - assert (rd' = false ∧ n' = O) as [-> ->] by (destruct rd'; cbn in *; split; first [done|lia]).
    eexists. split; [done|]. unfold Connection_destroy. cbn. destruct (0 <? client_fd_ c); cbn; rewrite ?app_nil_r; split_and!; auto.
  - eexists. split; [done|]. cbn. rewrite Hd. split_and!; auto; [lia|]. destruct rd', rd; cbn in *; lia.
Qed.

Lemma acquire_ok c rd n : refs_ok c rd n → deleted c = false →
  acquire c = Ok tt (put_refs (refs_ c + 1) c) ∧ refs_ok (put_refs (refs_ c + 1) c) rd (S n).
Proof.
  intros Hr Hd. unfold acquire, refs_ok in *. cbn. rewrite Hd in *. destruct Hr as (Er & Hpos & Hdesc).
  split; [done|]. split_and!; try done; lia.
Qed.

(** ** The actions *)

(** When an action can happen. *)
Definition enabled (l : wlabel) (s : Writing) : Prop :=
  match l with
  | Append _ | StartWrite | StopReading => reading s = true
  | Snapshot i => writers s !! i = Some WTop
  | Wrote i r => ∃ size, writers s !! i = Some (WSys size) ∧
      match r with WWrote n => 0 ≤ n ≤ size ∧ (n = 0 → size = 0) | _ => True end
  | WriteEvent => deleted (conn s) = false
  | RunWrite => queued s ≠ O
  end.

Lemma step_enabled l s s' : write_step l s = Some s' → enabled l s.
Proof.
  unfold write_step. destruct l as [d| | |i|i r| |]; cbn.
  - by destruct (reading s).
  - by destruct (reading s).
  - by destruct (reading s).
  - destruct (writers s !! i) as [[|size]|]; by cbn.
  - destruct (writers s !! i) as [[|size]|]; cbn; [done| |done]. intros Hs. exists size. split; [done|].
    destruct r as [n| |]; [|done|done]. destruct (Z.leb_spec 0 n), (Z.leb_spec n size); cbn in Hs; try done.
    split; [lia|]. intros ->. destruct (Z.eqb_spec size 0); [done|]. by cbn in Hs.
  - unfold run_conn, on_io_desc. by destruct (deleted (conn s)).
  - by destruct (queued s).
Qed.

Definition steps_to (l : wlabel) (s : Writing) : Prop := ∃ s', write_step l s = Some s' ∧ writing_inv s'.

(** The reader and the writes under way keep the connection alive. *)
Lemma inv_live s : writing_inv s → reading s = true ∨ active s ≠ O → deleted (conn s) = false.
Proof.
  intros [_ _ _ Hr] Hor. unfold refs_ok in Hr. destruct (deleted (conn s)); [|done]. destruct Hr as [E1 E2]. destruct Hor; congruence.
Qed.

Lemma step_append d s : writing_inv s → reading s = true → steps_to (Append d) s.
Proof.
  intros Hs Hrd. destruct Hs as [(ini & lst & Hb & Ea & Hsz) Hone Hflag Hrefs]. unfold steps_to, write_step, lift_out.
  destruct (write_grows _ _ _ d Hb) as (b' & ini' & lst' & Hw & Hb' & Hr & Hc & Hpre).
  rewrite Hrd, Hw. eexists. split; [done|]. split; [|exact Hone|exact Hflag|by rewrite <- Hrd].
  exists ini', lst'. cbn. split; [exact Hb'|]. split; [by rewrite Hc, Ea, (assoc_L (++))|].
  intros i size Hi. specialize (Hsz i size Hi). apply prefix_length in Hpre. lia.
Qed.

Lemma step_start s : writing_inv s → reading s = true → steps_to StartWrite s.
Proof.
  intros Hs Hrd. pose proof (inv_live s Hs (or_introl Hrd)) as Hd. pose proof Hs as [Hstr Hone Hflag Hrefs].
  unfold steps_to, write_step, run_conn. rewrite Hrd. cbn. destruct (writing_ (conn s)) eqn:Ew; [by exists s|].
  assert (Hz : active s = O) by (destruct (active s) as [|[|]]; [done|by specialize (Hflag eq_refl)|lia]).
  destruct (acquire_ok (put_out true (out_ (conn s)) (conn s)) (reading s) (active s)) as [-> Hr']; [exact Hrefs|done|].
  eexists. split; [done|]. rewrite Hz in Hr'. unfold active in Hz.
  assert (Ea : active (mkWriting (put_refs (refs_ (put_out true (out_ (conn s)) (conn s)) + 1) (put_out true (out_ (conn s)) (conn s)))
    true (writers s ++ [WTop]) (queued s) (appended s) (sent s)) = 1%nat).
  { unfold active. cbn. rewrite length_app. cbn. unfold waits_write in *. cbn. lia. }
  split; rewrite ?Ea; cbn; [|lia|done|by rewrite <- Hrd].
  eapply stream_sub; [exact Hstr|]. apply sub_snoc.
Qed.

Lemma waits_release c c' : io_desc_ c' = io_desc_ c ∨ io_desc_ c' = None → waits_write c = false → waits_write c' = false.
Proof. unfold waits_write. by intros [->| ->]. Qed.

Lemma step_stop_reading s : writing_inv s → reading s = true → steps_to StopReading s.
Proof.
  intros Hs Hrd. pose proof (inv_live s Hs (or_introl Hrd)) as Hd. destruct Hs as [Hstr Hone Hflag Hrefs].
  unfold steps_to, write_step, run_conn. rewrite Hrd. cbn.
  destruct (release_ok (conn s) (reading s) (active s) false (active s)) as (c' & -> & Hr' & Eo & Ew & Ed & _); [done|rewrite Hrd; cbn; lia|done|].
  eexists. split; [done|].
  assert (Ea : active (mkWriting c' false (writers s) (queued s) (appended s) (sent s)) = active s).
  { unfold active. cbn. f_equal. unfold waits_write in *. destruct Ed as [->|En]; [done|]. rewrite En.
    unfold refs_ok in Hr'. destruct (deleted c') eqn:Edel; [|by destruct Hr' as (_ & _ & d & Hx & _); congruence].
    destruct Hr' as [_ Hz]. unfold active, waits_write in Hz. destruct (io_desc_ (conn s)) as [d|]; [|done]. cbn. destruct (waiting_write_ d); [cbn in Hz; lia|done]. }
  split; rewrite ?Ea; cbn; rewrite ?Eo, ?Ew; done.
Qed.

Lemma step_snapshot i s : writing_inv s → writers s !! i = Some WTop → steps_to (Snapshot i) s.
Proof.
  intros [(ini & lst & Hb & Ea & Hsz) Hone Hflag Hrefs] Hi. unfold steps_to, write_step, lift_out. rewrite Hi. cbn.
  destruct (readSize_head _ _ _ Hb) as (-> & Hle & _). cbn. eexists. split; [done|].
  split; unfold active in *; cbn; rewrite ?length_insert; try done. exists ini, lst. split_and!; try done.
  intros j size. destruct (decide (j = i)) as [->|Hne].
  - rewrite list_lookup_insert_eq by eauto using lookup_lt_Some. intros [= <-]. rewrite to_int32_small; lia.
  - rewrite list_lookup_insert_ne by done. apply Hsz.
Qed.

(** A writer leaves [doWrite()]. *)
Lemma writer_leaves s i w c snt :
  writing_inv s → writers s !! i = Some w → stream_ok (out_ c) (writers s) (appended s) snt →
  io_desc_ c = io_desc_ (conn s) → refs_ c = refs_ (conn s) → deleted c = deleted (conn s) →
  ∃ c', release c = Ok tt c' ∧ writing_inv (mkWriting c' (reading s) (delete i (writers s)) (queued s) (appended s) snt).
Proof.
  intros Hs Hi Hstr Ed Er Edel. pose proof Hs as [_ Hone Hflag Hrefs].
  assert (Hact : active s = 1%nat) by (pose proof (length_delete1 _ _ _ Hi); unfold active in *; lia).
  pose proof (inv_live s Hs ltac:(right; lia)) as Hlive.
  assert (Hz : length (delete i (writers s)) = O ∧ queued s = O ∧ waits_write (conn s) = false).
  { pose proof (length_delete1 _ _ _ Hi). unfold active in Hact. destruct (waits_write (conn s)); cbn in *; split_and!; done || lia. }
  destruct Hz as (Hz1 & Hz2 & Hz3).
  destruct (release_ok c (reading s) (active s) (reading s) O) as (c' & -> & Hr' & Eo & Ew & Edx & _).
  { unfold refs_ok in *. by rewrite Ed, Er, Edel. } { rewrite Hact. lia. } { by rewrite Edel. }
  assert (waits_write c' = false) as Hwc.
  { apply (waits_release c); [done|]. unfold waits_write in *. by rewrite Ed. }
  eexists. split; [done|]. split; unfold active; cbn; rewrite ?Hz1, ?Hz2, ?Hwc; cbn; try done; [|lia].
  rewrite Eo. eapply stream_sub; [exact Hstr|]. apply sub_delete.
Qed.

Lemma step_error i s size : writing_inv s → writers s !! i = Some (WSys size) → steps_to (Wrote i WErr) s.
Proof.
  intros Hs Hi. destruct (writer_leaves s i _ (conn s) (sent s) Hs Hi (wi_stream _ Hs)) as (c' & Hr & Hinv); [done..|].
  unfold steps_to, write_step, run_conn. rewrite Hi. cbn. rewrite Hr. eexists. by split.
Qed.

(** With [EAGAIN] the write waits for an event, or is queued when one came. *)
Lemma step_again i s size : writing_inv s → writers s !! i = Some (WSys size) → steps_to (Wrote i WAgain) s.
Proof.
  intros Hs Hi. pose proof Hs as [Hstr Hone Hflag Hrefs]. pose proof (length_delete1 _ _ _ Hi) as Hlen.
  assert (Hact : active s = 1%nat) by (unfold active in *; lia).
  pose proof (inv_live s Hs ltac:(right; lia)) as Hlive.
  unfold refs_ok in Hrefs. rewrite Hlive, Hact in Hrefs. destruct Hrefs as (Er & Hpos & d & Hd & Hcb).
  assert (Hw0 : waiting_write_ d = false).
  { unfold active, waits_write in Hact. rewrite Hd in Hact. destruct (waiting_write_ d); [cbn in Hact; lia|done]. }
  unfold active, waits_write in Hact. rewrite Hd, Hw0 in Hact. cbn in Hact.
  unfold steps_to, write_step, run_conn. rewrite Hi. cbn. unfold mbind, M_bind, acquire, on_io_desc, release. rewrite Hlive. cbn.
  rewrite Hd. unfold writeWhenReady. rewrite Hw0.
  destruct (can_write_ d); cbn; rewrite Hlive; (destruct (Z.eqb_spec (refs_ (conn s) + 1 - 1) 0); [lia|]); (eexists; split; [done|]);
    unfold submitted_by; cbn; rewrite ?Hcb; cbn; rewrite length_app; cbn;
    (split; unfold active, waits_write, refs_ok; cbn; rewrite ?Hlive; cbn; [|lia|by intros; apply Hflag; unfold active, waits_write; rewrite Hd, Hw0; cbn; lia|]).
  1,3: eapply stream_sub; [exact Hstr|apply sub_delete].
  all: split; [lia|]; split; [lia|]; eexists; split; [done|]; done.
Qed.

(** Some bytes went out. *)
Lemma step_wrote i s size n : writing_inv s → writers s !! i = Some (WSys size) →
  0 ≤ n ≤ size → (n = 0 → size = 0) → steps_to (Wrote i (WWrote n)) s.
Proof.
  intros Hs Hi Hn H0. pose proof Hs as [(ini & lst & Hb & Ea & Hsz) Hone Hflag Hrefs]. specialize (Hsz i size Hi) as Hsize.
  unfold steps_to, write_step. rewrite Hi. cbn.
  destruct (Z.leb_spec 0 n); [|lia]. destruct (Z.leb_spec n size); [|lia].
  assert (((n =? 0) && negb (size =? 0)) = false) as ->.
  { destruct (Z.eqb_spec n 0); [|done]. rewrite H0 by done. done. }
  cbn. rewrite (out_bytes_head _ _ _ n Hb) by lia. unfold after_write.
  destruct (Z.eqb_spec n 0) as [->|Hn0].
  { cbn. destruct (writer_leaves s i _ (conn s) (sent s) Hs Hi (wi_stream _ Hs)) as (c' & Hr & Hinv); [done..|].
    unfold run_conn. rewrite Hr. cbn. rewrite app_nil_r. eexists. by split. }
  destruct (readSize_head _ _ _ Hb) as (_ & _ & [tl Htl]). set (hd := head_bytes (ini ++ [lst]) (rpos_ (out_ (conn s)))) in *.
  destruct (consume_ok (out_ (conn s)) (content (ini ++ [lst]) (rpos_ (out_ (conn s)))) n) as (b1 & Hc1 & ini1 & lst1 & Hb1 & E1).
  { by exists ini, lst. } { lia. }
  unfold lift_out. rewrite Hc1. cbn. destruct (readSize_head _ _ _ Hb1) as (-> & _ & _). cbn.
  assert (Hstr : ∀ ws, (∀ j sz, ws !! j = Some (WSys sz) → False) →
    stream_ok b1 ws (appended s) (sent s ++ take (Z.to_nat n) hd)).
  { intros ws Hno. exists ini1, lst1. split; [done|]. split; [|intros j sz Hj; by destruct (Hno j sz Hj)].
    rewrite <- E1, Ea, Htl, <- (assoc_L (++)). f_equal. rewrite drop_app_le by lia. by rewrite (assoc_L (++)), take_drop. }
  assert (Hno : ∀ w j sz, <[i := w]> (writers s) !! j = Some (WSys sz) → w = WSys sz).
  { pose proof (length_delete1 _ _ _ Hi) as Hlen. unfold active in Hone. intros w j sz Hj.
    destruct (decide (j = i)) as [->|Hne].
    - rewrite list_lookup_insert_eq in Hj by eauto using lookup_lt_Some. congruence.
    - rewrite list_lookup_insert_ne in Hj by done. apply lookup_lt_Some in Hj, Hi. lia. }
  destruct ((size =? n) && _) eqn:Efin; cbn.
  - destruct (writer_leaves (mkWriting (conn s) (reading s) (<[i := WTop]> (writers s)) (queued s) (appended s) (sent s)) i WTop
      (put_out false b1 (conn s)) (sent s ++ take (Z.to_nat n) hd)) as (c' & Hr & Hinv); cbn; try done.
    + split; unfold active in *; cbn; rewrite ?length_insert; try done. exists ini, lst. split_and!; try done.
      intros j sz Hj. by apply Hno in Hj.
    + apply list_lookup_insert_eq. eauto using lookup_lt_Some.
    + apply Hstr. intros j sz Hj. by apply Hno in Hj.
    + unfold run_conn. match goal with |- context [release ?x] => change x with (put_out false b1 (conn s)) end. rewrite Hr. cbn. eexists. split; [done|].
      cbn in Hinv. assert (Edl : delete i (<[i:=WTop]> (writers s)) = delete i (writers s)); [|by rewrite Edl in Hinv].
      apply list_eq. intros j. destruct (decide (j < i)%nat).
      * rewrite !list_lookup_delete_lt by done. by rewrite list_lookup_insert_ne by lia.
      * rewrite !list_lookup_delete_ge by lia. by rewrite list_lookup_insert_ne by lia.
  - eexists. split; [done|]. split; unfold active in *; cbn; rewrite ?length_insert; try done.
    apply Hstr. intros j sz Hj. by apply Hno in Hj.
Qed.

Lemma step_event s : writing_inv s → deleted (conn s) = false → steps_to WriteEvent s.
Proof.
  intros [Hstr Hone Hflag Hrefs] Hlive. unfold refs_ok in Hrefs. rewrite Hlive in Hrefs. destruct Hrefs as (Er & Hpos & d & Hd & Hcb).
  unfold active, waits_write in *. rewrite Hd in *.
  unfold steps_to, write_step, run_conn, on_io_desc. rewrite Hlive, Hd. unfold writeIfWaiting.
  destruct (waiting_write_ d) eqn:Ew; cbn; (eexists; split; [done|]); unfold submitted_by; cbn; rewrite ?Hcb; cbn; rewrite length_app; cbn in *;
    (split; unfold active, waits_write, refs_ok; cbn; rewrite ?Hlive, ?Ew; cbn; [done|lia|intros; apply Hflag; lia|]);
    (split; [lia|]; split; [lia|]; eexists; split; [done|]; done).
Qed.

Lemma step_run s : writing_inv s → queued s ≠ O → steps_to RunWrite s.
Proof.
  intros [Hstr Hone Hflag Hrefs] Hq. unfold steps_to, write_step. destruct (queued s) as [|q] eqn:E; [done|].
  eexists. split; [done|]. unfold active in *. rewrite E in *. split; unfold active; cbn; rewrite ?length_app; cbn.
  - eapply stream_sub; [exact Hstr|]. apply sub_snoc.
  - lia.
  - intros. apply Hflag. lia.
  - by replace (length (writers s) + 1 + q + Nat.b2n (waits_write (conn s)))%nat
      with (length (writers s) + S q + Nat.b2n (waits_write (conn s)))%nat by lia.
Qed.

(** Every action that can happen happens without a fault and keeps the invariant. *)
Lemma write_step_ok l s : writing_inv s → enabled l s → steps_to l s.
Proof.
  destruct l as [d| | |i|i [n| |]| |]; cbn; intros Hs He.
  - by apply step_append.
  - by apply step_start.
  - by apply step_stop_reading.
  - by apply step_snapshot.
  - destruct He as (size & Hi & Hn & H0). by eapply step_wrote.
  - destruct He as (size & Hi & _). by eapply step_again.
  - destruct He as (size & Hi & _). by eapply step_error.
  - by apply step_event.
  - by apply step_run.
Qed.

Lemma writing_init_inv fd s : Writing_init fd = Some s → writing_inv s.
Proof.
  unfold Writing_init. cbn. intros [= <-]. split; unfold active, refs_ok; cbn; try done; [|lia|].
  - destruct holds_init as (ini & lst & Hb & E). exists ini, lst. split_and!; [done|by rewrite <- E|].
    intros i size Hi. by rewrite lookup_nil in Hi.
  - split_and!; [done|done|]. by eexists.
Qed.

Lemma writing_reachable fd s0 s : Writing_init fd = Some s0 → reachable write_step s0 s → writing_inv s.
Proof.
  intros H0. apply invariant_reachable; [by eapply writing_init_inv|]. intros l x x' Hx Hstep.
  destruct (write_step_ok l x Hx (step_enabled _ _ _ Hstep)) as (y & Hy & Hinv). congruence.
Qed.

(** C6: The output side of a connection is a byte stream with one writer.
    Under any interleaving of the reading thread, which appends output and
    calls [startWrite()], of the writes, which may be short, interrupted by
    [EAGAIN] or fail, and of the events of the poller: the bytes that were sent,
    followed by those in the buffer, are the bytes that were appended, in order;
    at most one write is under way; every reference is held by the reader or by
    that write, and the connection is deleted when both are over and not before;
    and no action faults. *)
Theorem conn_stream fd s0 s :
  Writing_init fd = Some s0 → reachable write_step s0 s →
  (∃ l, holds (out_ (conn s)) l ∧ appended s = sent s ++ l) ∧
  (active s ≤ 1)%nat ∧
  (if deleted (conn s) then reading s = false ∧ active s = O
   else refs_ (conn s) = Z.b2z (reading s) + Z.of_nat (active s) ∧ 0 < refs_ (conn s)) ∧
  ∀ l, enabled l s → is_Some (write_step l s).
Proof.
  intros H0 Hr. pose proof (writing_reachable fd s0 s H0 Hr) as Hs. pose proof Hs as [(ini & lst & Hb & Ea & _) Hone _ Hrefs].
  split_and!; [eexists; split; [by exists ini, lst|done]|done| |].
  - unfold refs_ok in Hrefs. destruct (deleted (conn s)); [done|]. destruct Hrefs as (? & ? & _). done.
  - intros l Hl. destruct (write_step_ok l s Hs Hl) as (s' & -> & _). done.
Qed.

(** The reader appends 3 bytes; 2 are written, then the socket is full; another
    byte is appended; the poller reports that the socket is writable. *)
Definition short_write : list wlabel :=
  [Append [1; 2; 3]; StartWrite; Snapshot 0; Wrote 0 (WWrote 2); Snapshot 0; Wrote 0 WAgain; Append [4];
   WriteEvent; RunWrite].

Lemma conn_stream_witness : ∃ s0 s,
  Writing_init 5 = Some s0 ∧ run write_step short_write s0 = Some s ∧ sent s = [1; 2] ∧ refs_ (conn s) = 2 ∧
  ∃ l, holds (out_ (conn s)) l ∧ appended s = sent s ++ l.
Proof.
  destruct (Writing_init 5) as [s0|] eqn:H0; [|discriminate H0].
  destruct (run write_step short_write s0) as [s|] eqn:Hr; [|injection H0 as <-; vm_compute in Hr; discriminate Hr].
  exists s0, s. split; [reflexivity|]. split; [exact Hr|].
  assert (Hv : sent s = [1; 2] ∧ refs_ (conn s) = 2).
  { assert (E : match run write_step short_write s0 with Some s => bool_decide (sent s = [1; 2]) && (refs_ (conn s) =? 2) | None => false end = true)
      by (injection H0 as <-; vm_compute; reflexivity).
    rewrite Hr in E. apply andb_prop in E as [E1 E2]. split; [by apply bool_decide_eq_true in E1|by apply Z.eqb_eq]. }
  split; [apply Hv|]. split; [apply Hv|]. apply (conn_stream 5 s0 s H0). exists short_write. exact Hr.
Defined.

(** ** The write that finds nothing to write *)

(** [writing_] is set but no write is under way. *)
Definition stalled (s : Writing) : Prop := writing_ (conn s) = true ∧ active s = O.

Lemma stalled_step l s s' : writing_inv s → stalled s → write_step l s = Some s' → stalled s' ∧ sent s' = sent s.
Proof.
  intros Hinv [Hw Ha] Hs. unfold stalled, active in *.
  assert (Hz : writers s = [] ∧ queued s = O ∧ waits_write (conn s) = false).
  { destruct (writers s), (queued s), (waits_write (conn s)); done || (cbn in Ha; lia). }
  destruct Hz as (Z1 & Z2 & Z3). unfold write_step in Hs. rewrite Hw, Z1, Z2 in Hs.
  destruct l as [d| | |i|i r| |]; cbn in Hs.
  - destruct (reading s); [|done]. unfold lift_out in Hs.
    match type of Hs with context [match ?x with Ok _ _ => _ | Err _ => _ end] => destruct x as [[] b|] end; [|done]. simplify_eq/=.
    unfold waits_write in *. cbn. by rewrite Z3.
  - destruct (reading s); [|done]. cbn in Hs. simplify_eq. rewrite Z1, Z2, Z3. done.
  - destruct (reading s) eqn:Hrd; [|done]. cbn in Hs. unfold run_conn in Hs.
    pose proof (inv_live s Hinv (or_introl Hrd)) as Hlive. destruct Hinv as [_ _ _ Hrefs].
    destruct (release_ok (conn s) (reading s) (active s) false (active s) Hrefs) as (c' & Hr & _ & _ & Ew & Ed & _); [rewrite Hrd; cbn; lia|done|].
    rewrite Hr in Hs. simplify_eq/=. rewrite ?Z1, ?Z2, Ew, Hw, (waits_release _ _ Ed Z3). done.
  - done.
  - done.
  - destruct (deleted (conn s)); [done|]. unfold run_conn, on_io_desc in Hs. unfold waits_write in Z3.
    destruct (io_desc_ (conn s)) as [d|]; [|done]. unfold writeIfWaiting in Hs. rewrite Z3 in Hs. simplify_eq/=.
    unfold submitted_by. cbn. rewrite length_app, ?Z1, ?Z3, ?Hw. cbn. split_and!; try done. lia.
  - done.
Qed.

(** The reader appends 3 bytes, the socket is full, a worker takes the write
    over; the reader appends a byte; the worker writes all and ends; only then
    the reader calls [startWrite()] for the byte it appended. *)
Definition late_start : list wlabel :=
  [Append [1; 2; 3]; StartWrite; Snapshot 0; Wrote 0 WAgain; WriteEvent; RunWrite; Append [4];
   Snapshot 0; Wrote 0 (WWrote 4); StartWrite; Snapshot 0; Wrote 0 (WWrote 0); Append [5]; StartWrite].

(** A connection can stop sending for ever.  When a worker flushes the
    output buffer between an append and the [startWrite()] that belongs to it,
    that call finds the buffer empty, [write] returns 0, and [doWrite()] leaves
    without resetting [writing_]: there is a state in which a byte is in the
    buffer and that byte is never sent, whatever happens next. *)
Theorem conn_write_stalls : ∃ s0 s,
  Writing_init 5 = Some s0 ∧ run write_step late_start s0 = Some s ∧
  appended s = [1; 2; 3; 4; 5] ∧
  ∀ ls s', run write_step ls s = Some s' → sent s' = [1; 2; 3; 4] ∧ active s' = O.
Proof.
  destruct (Writing_init 5) as [s0|] eqn:H0; [|discriminate H0].
  destruct (run write_step late_start s0) as [s|] eqn:Hr; [|injection H0 as <-; vm_compute in Hr; discriminate Hr].
  exists s0, s. split; [done|]. split; [done|].
  assert (Hv : appended s = [1; 2; 3; 4; 5] ∧ sent s = [1; 2; 3; 4] ∧ stalled s).
  { assert (E : match run write_step late_start s0 with
      | Some s => bool_decide (appended s = [1; 2; 3; 4; 5]) && bool_decide (sent s = [1; 2; 3; 4]) && writing_ (conn s) && (active s =? 0)%nat
      | None => false end = true) by (injection H0 as <-; vm_compute; reflexivity).
    rewrite Hr in E. rewrite !andb_true_iff, !bool_decide_eq_true, Nat.eqb_eq in E. unfold stalled. naive_solver. }
  destruct Hv as (Ea & Es & Hst). split; [done|].
  assert (Hinv : writing_inv s) by (eapply writing_reachable; [exact H0|by exists late_start]).
  intros ls. rewrite <- Es. revert Hinv Hst. generalize s. clear.
  induction ls as [|l ls IH]; intros s Hinv Hst s' Hrun; cbn in Hrun; [simplify_eq; split; [done|apply Hst]|].
  destruct (write_step l s) as [s1|] eqn:E; [|done]. destruct (stalled_step l s s1 Hinv Hst E) as [Hst1 Es1].
  rewrite <- Es1. apply IH; [|done|done].
  destruct (write_step_ok l s Hinv (step_enabled _ _ _ E)) as (y & Hy & Hy'). congruence.
Qed.

(** ** Connecting *)

(** A client connection whose connect is pending on the socket [fd]. *)
Definition pending (fd : Z) (d : Descriptor) : Connection :=
  put_desc (Some d) [] (put_refs 1 (put_fd fd Connection_active)).

(** [startConnect()] on a new client connection, on every outcome of the
    system calls.  If there is no socket the connection is in error and the user
    is not told.  If the connect fails at once the socket is closed, and
    [connDone()] runs on a connection in error.  If it is under way the
    connection holds one reference and waits for a write event, and
    [doConnect()], run then, checks the socket, prepares the descriptor for
    reading and writing and calls [connDone()].  But if the connect succeeds at
    once there is no descriptor yet and [doConnect()] dereferences [NULL]. *)
Theorem connect_outcomes strerror connDone env :
  let c := Connection_active in
  let fd := socket_result env in
  let start := startConnect strerror connDone env c in
  if fd <? 0 then
    start = Ok tt (put_error (bytes "Socket failed: " ++ strerror (errno env)) (put_fd fd c))
  else if 0 <=? connect_result env then
    if so_error env =? 0 then start = Err (Segv 0)
    else start = (connDone;; release)
      (put_error (bytes "Connect failed" ++ strerror (so_error env)) (put_refs 1 (put_fd fd c)))
  else if negb (errno env =? EINPROGRESS) && negb (errno env =? EINTR) then
    start = (connDone;; release)
      (put_error (bytes "Connect failed: " ++ strerror (errno env))
         (put_fd (-1) (close_fd fd (put_refs 1 (put_fd fd c)))))
  else
    ∃ d, start = Ok tt (pending fd d) ∧ (writeIfWaiting d).2 = [cb_doConnect] ∧
      let c1 := pending fd (writeIfWaiting d).1 in
      if so_error env =? 0 then
        ∃ d', (setUpCalls (Some cb_doRead) (Some cb_doWrite) (writeIfWaiting d).1).1 = d' ∧
          doConnect strerror connDone env c1 = (connDone;; release) (put_closed false (pending fd d'))
      else
        doConnect strerror connDone env c1 =
          (connDone;; release) (put_error (bytes "Connect failed" ++ strerror (so_error env)) c1).
Proof.
  destruct env as [fd res en se]. cbn. unfold startConnect, doConnect, super, zoom, mbind, M_bind, modify, gets, acquire, on_io_desc. cbn.
  assert (Hlast : ∀ c : Connection, match connDone c with
      | Ok _ s => match release s with Ok a t => Ok a t | Err e => Err e end | Err e => Err e end =
    match connDone c with Ok _ s => release s | Err e => Err e end).
  { intros c. destruct (connDone c) as [? s|]; [by destruct (release s)|done]. }
  destruct (fd <? 0); [done|]. destruct (0 <=? res).
  - destruct (se =? 0); [done|]. apply Hlast.
  - destruct (negb (en =? EINPROGRESS) && negb (en =? EINTR)); [apply Hlast|].
    eexists. split; [done|]. split; [done|]. cbn. destruct (se =? 0); [|apply Hlast]. eexists. split; [done|]. apply Hlast.
Qed.

(** ** Reading *)

(** The bytes that arrive before the reading loop has to stop. *)
Fixpoint script_data (script : list raw) : list Z :=
  match script with
  | RIntr :: s => script_data s
  | RBytes [] :: _ => []
  | RBytes d :: s => d ++ script_data s
  | _ => []
  end.

(** The loop stops, because nothing is there yet ([Some true]) or for good
    ([Some false]). *)
Fixpoint script_stop (script : list raw) : option bool :=
  match script with
  | [] => None
  | RIntr :: s => script_stop s
  | RBytes [] :: _ => Some false
  | RBytes _ :: s => script_stop s
  | RAgain :: _ => Some true
  | RErr :: _ => Some false
  end.

Fixpoint script_size (script : list raw) : nat :=
  match script with
  | [] => O
  | RBytes d :: s => length d + S (script_size s)
  | _ :: s => S (script_size s)
  end.

(** Every piece that one [read] can return satisfies [Q]: a piece of at most
    1024 bytes is read at once, a longer one may be split. *)
Definition piece_ok (Q : list Z → Prop) (r : raw) : Prop :=
  match r with
  | RBytes d => (length d ≤ 1024)%nat ∧ Q d ∨ ∀ i n, Q (take n (drop i d))
  | _ => True
  end.

(** What one [read] does to the script. *)
Lemma socketRead_ok Q size script : (1024 ≤ size)%nat → script_stop script ≠ None → Forall (piece_ok Q) script →
  ∃ r s', socketRead size script = Some (r, s') ∧
  match r with
  | SGot [] => script_data script = [] ∧ script_stop script = Some false
  | SGot d => (length d ≤ size)%nat ∧ Q d ∧ script_data script = d ++ script_data s' ∧
      script_stop s' = script_stop script ∧ (script_size s' < script_size script)%nat ∧ Forall (piece_ok Q) s'
  | SAgain => script_data script = [] ∧ script_stop script = Some true
  | SErr => script_data script = [] ∧ script_stop script = Some false
  end.
Proof.
  intros Hsz. induction script as [|r s IH]; [done|]. intros Hst [Hr Hall]%Forall_cons. destruct r as [|d| |]; cbn in *.
  - destruct (IH Hst Hall) as (r & s' & -> & Hr'). eexists _, _. split; [done|]. destruct r as [[|x d]| |]; naive_solver lia.
  - destruct (Nat.leb_spec (length d) size) as [Hle|Hgt].
    + eexists _, _. split; [done|]. destruct d as [|x d]; [done|]. split_and!; cbn in *; try done; [|lia].
      destruct Hr as [[_ ?]|Hr]; [done|]. specialize (Hr 0%nat (length (x :: d))). cbn in Hr. by rewrite firstn_all in Hr.
    + destruct Hr as [[? _]|Hr]; [lia|]. eexists _, _. split; [done|].
      destruct d as [|x d]; [cbn in *; lia|]. destruct size as [|size]; [lia|]. cbn [take drop].
      cbn in Hgt. destruct (drop size d) as [|y d'] eqn:Ed.
      { apply (f_equal length) in Ed. rewrite length_drop in Ed. cbn in Ed. lia. }
      split_and!; [cbn; rewrite length_take; lia| | |done| |].
      * apply (Hr 0%nat (Datatypes.S size)).
      * cbn. f_equal. change (y :: d' ++ script_data s) with ((y :: d') ++ script_data s).
        by rewrite <- Ed, (assoc_L (++)), take_drop.
      * apply (f_equal length) in Ed. rewrite length_drop in Ed. cbn in *. lia.
      * constructor; [|done]. right. intros k n. rewrite <- Ed, drop_drop. apply (Hr (Datatypes.S (size + k)) n).
  - eexists _, _. done.
  - eexists _, _. done.
Qed.

(** The connection is alive, no reference was given back and the read half of the
    descriptor is the same. *)
Definition read_half (d : Descriptor) : option task * bool * bool := (read_cb_ d, can_read_ d, waiting_read_ d).

Definition same_reader (c c' : Connection) : Prop :=
  refs_ c ≤ refs_ c' ∧ deleted c' = deleted c ∧ read_half <$> io_desc_ c' = read_half <$> io_desc_ c.

Section reading.
Context {S : Type} `{SubclassLaws S} (readDone : M S bool).

(** [J s got]: what the sub-class maintains when [got] has arrived so far.  It
    depends on the buffers of the connection only, there is always room in the
    input buffer, and [readDone()], called with a piece that satisfies [Q] in
    the buffer, and [G] of all that has arrived, returns; it may start writes,
    which take references and use the write half of the descriptor.  [R] holds
    of what has arrived when it refuses to go on. *)
Context (J : S → list Z → Prop) (Q G R : list Z → Prop).
Context (HJ : ∀ s c got, J s got → in_ c = in_ (base_of s) → out_ c = out_ (base_of s) →
  writing_ c = writing_ (base_of s) → J (set_base c s) got).
Context (Hroom : ∀ s got, J s got → ∃ b, reserve 1024 (in_ (base_of s)) = Ok true b ∧ 1024 ≤ writeSize b ∧
  J (set_base (put_in b (base_of s)) s) got).
Context (Hdone : ∀ s got data, J s got → data ≠ [] → Z.of_nat (length data) ≤ writeSize (in_ (base_of s)) →
  Q data → G (got ++ data) → deleted (base_of s) = false →
  ∃ b ok s', (poke data;; advance (Z.of_nat (length data))) (in_ (base_of s)) = Ok true b ∧
    readDone (set_base (put_in b (base_of s)) s) = Ok ok s' ∧ J s' (got ++ data) ∧ (ok = false → R (got ++ data)) ∧
    same_reader (base_of s) (base_of s')).

Lemma super_ok {A} (f : M Connection A) s a c : f (base_of s) = Ok a c → super f s = Ok a (set_base c s).
Proof. intros Hf. unfold super. by apply zoom_ok. Qed.

(** The loop; [again]: it stopped because nothing was there yet. *)
Lemma read_loop_ok fuel script s got0 :
  J s got0 → deleted (base_of s) = false → is_Some (io_desc_ (base_of s)) → script_stop script ≠ None →
  Forall (piece_ok Q) script → (∀ p, p `prefix_of` script_data script → G (got0 ++ p)) → (script_size script < fuel)%nat →
  ∃ s' got again, read_loop readDone fuel script s = Ok tt s' ∧ got `prefix_of` script_data script ∧
    J s' (got0 ++ got) ∧ deleted (base_of s') = false ∧ refs_ (base_of s) + Z.b2z again ≤ refs_ (base_of s') ∧
    (got = script_data script ∧ script_stop script = Some again ∨ again = false ∧ R (got0 ++ got)) ∧
    (again = true → read_half <$> io_desc_ (base_of s') = (λ d, read_half (readWhenReady d).1) <$> io_desc_ (base_of s)).
Proof.
  revert script s got0. induction fuel as [|fuel IH]; intros script s got0 Hj Hd Hdesc Hst Hpc HG Hf; [lia|]. cbn [read_loop].
  destruct (Hroom s got0 Hj) as (b1 & Hr1 & Hw1 & Hj1). set (s1 := set_base (put_in b1 (base_of s)) s) in *.
  assert (E1 : base_of s1 = put_in b1 (base_of s)) by apply base_set.
  rewrite (bind_ok _ _ s true s1) by (apply super_ok; unfold on_in; by apply zoom_ok).
  rewrite (bind_ok _ _ _ _ _ (gets_ok _ _)). rewrite E1. cbn [in_ put_in].
  destruct (socketRead_ok Q (Z.to_nat (writeSize b1)) script) as (r & sc & -> & Hr); [lia|done|done|].
  assert (Hnil : J s1 (got0 ++ [])) by by rewrite app_nil_r.
  destruct r as [[|x d]| |].
  - destruct Hr as [Ed Es]. exists s1, [], false. rewrite Ed, Es, E1. cbn. split_and!; try done; auto; lia.
  - destruct Hr as (Hlen & Hq & Edata & Estop & Hsize & Hpc'). set (data := x :: d) in *.
    destruct (Hdone s1 got0 data Hj1 ltac:(done)) as (b2 & ok & s3 & Hr2 & Hrd & Hj3 & Href & Er3 & Ed3 & Eo3);
      [rewrite E1; cbn [in_ put_in]; lia|done|apply HG; rewrite Edata; by apply prefix_app_r|by rewrite E1|].
    rewrite E1 in Hr2, Er3, Ed3, Eo3. cbn in Er3, Ed3, Eo3. rewrite E1 in Hrd.
    rewrite (bind_ok _ _ s1 true (set_base (put_in b2 (put_in b1 (base_of s))) s1)).
    2:{ apply super_ok. rewrite E1. unfold on_in. by apply zoom_ok. }
    rewrite (bind_ok _ _ _ _ _ Hrd). destruct ok.
    2:{ exists s3, data, false. rewrite Edata. split_and!; auto; [by apply prefix_app_r|congruence|cbn; lia|done]. }
    destruct (IH sc s3 (got0 ++ data) Hj3) as (s' & got & again & Hrun & Hpre & Hj' & Hd' & Er' & Hcase & Hag); try done; [congruence| |congruence| |lia|].
    { destruct Hdesc as [d0 Hd0]. rewrite Hd0 in Eo3. by destruct (io_desc_ (base_of s3)). }
    { intros p Hp. rewrite <- (assoc_L (++)). apply HG. rewrite Edata. by apply prefix_app. }
    exists s', (data ++ got), again. split; [exact Hrun|]. rewrite Edata, (assoc_L (++)). split_and!; try done; [by apply prefix_app|lia| |].
    + destruct Hcase as [[-> <-]|Hcase]; [left; by rewrite Estop|by right].
    + intros Hx. rewrite (Hag Hx). destruct Hdesc as [d0 Hd0]. rewrite Hd0 in *. destruct (io_desc_ (base_of s3)) as [d3|]; [|done].
      cbn in *. injection Eo3 as Ex Ey Ez. unfold readWhenReady, read_half. rewrite Ey. destruct (can_read_ d0); cbn; congruence.
  - destruct Hr as [Ed Es]. destruct Hdesc as [d Hdesc]. destruct (readWhenReady d) as [d' ts] eqn:Erw.
    set (c2 := put_desc (Some d') ts (put_refs (refs_ (base_of s) + 1) (put_in b1 (base_of s)))).
    assert (Hs : super (acquire;; on_io_desc readWhenReady) s1 = Ok tt (set_base c2 s1)).
    { apply super_ok. rewrite E1. unfold acquire, on_io_desc, mbind, M_bind. cbn. rewrite Hd. cbn. by rewrite Hdesc, Erw. }
    rewrite Hs. eexists _, [], true. split; [done|]. rewrite Ed, Es, !base_set, app_nil_r. cbn.
    split_and!; try done; auto; try lia; [apply HJ; [done|by rewrite E1..]|]. intros _. by rewrite Hdesc; cbn; rewrite Erw.
  - destruct Hr as [Ed Es]. exists s1, [], false. rewrite Ed, Es, E1. cbn. split_and!; try done; auto; lia.
Qed.

Lemma doRead_ok fuel script s got0 :
  J s got0 → deleted (base_of s) = false → is_Some (io_desc_ (base_of s)) → 0 < refs_ (base_of s) →
  script_stop script ≠ None → Forall (piece_ok Q) script →
  (∀ p, p `prefix_of` script_data script → G (got0 ++ p)) → (script_size script < fuel)%nat →
  ∃ s' got again, doRead readDone fuel script s = Ok tt s' ∧ got `prefix_of` script_data script ∧
    J s' (got0 ++ got) ∧
    (got = script_data script ∧ script_stop script = Some again ∨ again = false ∧ R (got0 ++ got)) ∧
    ∃ started, 0 ≤ started ∧
    (if again : bool then refs_ (base_of s') = refs_ (base_of s) + started ∧ deleted (base_of s') = false ∧
       read_half <$> io_desc_ (base_of s') = (λ d, read_half (readWhenReady d).1) <$> io_desc_ (base_of s)
     else refs_ (base_of s') = refs_ (base_of s) + started - 1 ∧
       deleted (base_of s') = (refs_ (base_of s) + started =? 1)).
Proof.
  intros Hj Hd Hdesc Hpos Hst Hpc HG Hf.
  destruct (read_loop_ok fuel script s got0 Hj Hd Hdesc Hst Hpc HG Hf) as (s1 & got & again & Hrun & Hpre & Hj' & Hd' & Er & Hcase & Hag).
  unfold doRead. rewrite (bind_ok _ _ _ _ _ Hrun).
  assert (Hrel : release (base_of s1) = Ok tt (if refs_ (base_of s1) - 1 =? 0
    then Connection_destroy (put_refs (refs_ (base_of s1) - 1) (base_of s1)) else put_refs (refs_ (base_of s1) - 1) (base_of s1))).
  { unfold release. rewrite Hd'. by case_match. }
  rewrite (super_ok _ _ _ _ Hrel). eexists _, got, again. split; [done|]. rewrite base_set.
  assert (HJ' : J (set_base (if refs_ (base_of s1) - 1 =? 0
    then Connection_destroy (put_refs (refs_ (base_of s1) - 1) (base_of s1)) else put_refs (refs_ (base_of s1) - 1) (base_of s1)) s1) (got0 ++ got)).
  { unfold Connection_destroy. cbn. destruct (refs_ (base_of s1) - 1 =? 0), (0 <? client_fd_ (base_of s1)); apply HJ; done. }
  split_and!; try done. exists (refs_ (base_of s1) - refs_ (base_of s) - Z.b2z again). split; [lia|].
  unfold Connection_destroy. destruct (Z.eqb_spec (refs_ (base_of s1) - 1) 0) as [E|E].
  - assert (again = false) as -> by (destruct again; cbn in *; [lia|done]). cbn in *.
    destruct (0 <? client_fd_ (base_of s1)); cbn; (split; [lia|]); symmetry; apply Z.eqb_eq; lia.
  - destruct again; cbn in *; (split; [lia|]).
    + split; [done|]. auto.
    + rewrite Hd'. symmetry. apply Z.eqb_neq. lia.
Qed.

(** [doRead()] delivers what arrives, in order, and balances the references,
    for every sub-class: [J] is any property of an object and the bytes received
    so far that [readDone()] maintains.  For any results of [read] that end with
    nothing to read, the end of the stream or an error, [doRead()] returns, [J]
    holds with what was received, which is all that arrived unless
    [readDone()] refused to go on; beside the references of the writes that
    [readDone()] started, the count is unchanged if it stopped because nothing
    was there yet, and the read is registered with the descriptor again;
    otherwise one reference is given back, and the last one deletes the
    connection. *)
Theorem doRead_spec fuel script s got0 :
  J s got0 → deleted (base_of s) = false → is_Some (io_desc_ (base_of s)) → 0 < refs_ (base_of s) →
  script_stop script ≠ None → Forall (piece_ok Q) script →
  (∀ p, p `prefix_of` script_data script → G (got0 ++ p)) → (script_size script < fuel)%nat →
  ∃ s' got again, doRead readDone fuel script s = Ok tt s' ∧ got `prefix_of` script_data script ∧
    J s' (got0 ++ got) ∧
    (got = script_data script ∧ script_stop script = Some again ∨ again = false ∧ R (got0 ++ got)) ∧
    ∃ started, 0 ≤ started ∧
    (if again : bool then refs_ (base_of s') = refs_ (base_of s) + started ∧ deleted (base_of s') = false ∧
       read_half <$> io_desc_ (base_of s') = (λ d, read_half (readWhenReady d).1) <$> io_desc_ (base_of s)
     else refs_ (base_of s') = refs_ (base_of s) + started - 1 ∧
       deleted (base_of s') = (refs_ (base_of s) + started =? 1)).
Proof. apply doRead_ok. Qed.
End reading.

(** A connection after [startRead()], with a [readDone()] that waits for more
    input: the input buffer holds what has arrived. *)
Definition reader : Connection := put_refs 1 (Connection_passive 5).

Lemma doRead_spec_witness : ∃ c' got again,
  doRead (mret true) 10 [RIntr; RBytes [7; 8]; RAgain] reader = Ok tt c' ∧ got `prefix_of` [7; 8] ∧
  holds (in_ c') ([] ++ got) ∧ (got = [7; 8] ∧ Some true = Some again ∨ again = false ∧ False).
Proof.
  destruct (doRead_spec (S := Connection) (mret true) (λ c got, holds (in_ c) got) (λ _, True) (λ _, True) (λ _, False)) with
    (fuel := 10%nat) (script := [RIntr; RBytes [7; 8]; RAgain]) (s := reader) (got0 := @nil Z)
    as (c' & got & again & H1 & H2 & H3 & H4 & _).
  - intros s c got Hh E _ _. simpl in *. rewrite E. exact Hh.
  - intros s got Hh. pose proof (reserve_ok (in_ s) got 1024 Hh ltac:(lia)) as Hr. simpl in Hr.
    destruct Hr as (b & Hr & Hb & Hw). exists b. split; [exact Hr|]. split; [exact Hw|exact Hb].
  - intros s got data Hh Hne Hl _ _ _. destruct (poke_advance_ok (in_ s) got data Hh Hne Hl) as (b & Hr & Hb).
    exists b, true, (put_in b s). split; [exact Hr|]. split; [reflexivity|]. split; [exact Hb|]. split; [discriminate|]. split; [simpl; lia|]. split; reflexivity.
  - apply holds_init.
  - reflexivity.
  - eexists. reflexivity.
  - reflexivity.
  - discriminate.
  - repeat constructor.
  - intros. exact I.
  - simpl. lia.
  - exists c', got, again. split; [exact H1|]. split; [exact H2|]. split; [exact H3|exact H4].
Defined.
