(* ===== verification/HttpConnection.v ===== *)
(** * HTTP connections ([http_connection.cpp])

    The server side parses requests out of the input buffer of its connection
    and appends a reply to the output buffer for each; the client side queues a
    callback per request it writes and hands the responses to the callbacks in
    order.  Both extend [Connection] with their own fields.  [startWrite()] is
    modelled in [Connection]; here it is a parameter, like the files of the
    server and the current value of its statistics; its result are the bytes
    that the socket has accepted during the call, and these are all that leaves
    the connection. *)

From S2P Require Import Prelude CppString Buffer BufferSpec Threads ThreadPool IOManager Connection HttpParser.
From stdpp Require Import base numbers list gmap sorting strings.
Open Scope Z_scope.

Definition on_out {A} (c : M Buffer A) : M Connection A := zoom out_ (λ b c, put_out (writing_ c) b c) c.

(** [os << n] for an unsigned number. *)
Fixpoint dec_loop (fuel : nat) (n : Z) (acc : str) : str :=
  match fuel with
  | O => acc
  | S fuel' => if n <? 10 then (48 + n) :: acc else dec_loop fuel' (n / 10) ((48 + n `mod` 10) :: acc)
  end.

(** A number has at most as many decimal digits as binary ones. *)
Definition print_dec (n : Z) : str := dec_loop (S (Z.to_nat (Z.log2 n))) n [].

(** [out_.write(...)], one call per line. *)
Fixpoint write_all (ls : list str) : M Buffer unit :=
  match ls with
  | [] => mret tt
  | l :: ls' => write l;; write_all ls'
  end.

(** ** The server side *)

Record HTTPServerConnection : Type := mkServer {
  server_base : Connection;
  request_ : Request;
  quitting : bool;                 (* io_service()->stop() was called *)
  finished : nat;                  (* stats->finishedRequest() *)
  server_sent : list Z;            (* what the socket has accepted *)
}.

#[export] Instance server_sub : Subclass HTTPServerConnection := {
  base_of := server_base;
  set_base c s := mkServer c (request_ s) (quitting s) (finished s) (server_sent s);
}.

#[export] Instance server_sub_laws : SubclassLaws HTTPServerConnection.
Proof. split; try done. by intros []. Qed.

Definition put_request (r : Request) (s : HTTPServerConnection) : HTTPServerConnection :=
  mkServer (server_base s) r (quitting s) (finished s) (server_sent s).
Definition put_quit (s : HTTPServerConnection) : HTTPServerConnection :=
  mkServer (server_base s) (request_ s) true (finished s) (server_sent s).
Definition put_finished (s : HTTPServerConnection) : HTTPServerConnection :=
  mkServer (server_base s) (request_ s) (quitting s) (S (finished s)) (server_sent s).
Definition put_sent (d : list Z) (s : HTTPServerConnection) : HTTPServerConnection :=
  mkServer (server_base s) (request_ s) (quitting s) (finished s) (server_sent s ++ d).

Definition eol (s : string) : str := bytes s ++ CRLF.

(** The lines in front of the body of a good reply of [size] bytes. *)
Definition ok_lines (size : Z) : list str :=
  [eol "HTTP/1.1 200 OK"; eol "Date: Wed, 28 Oct 2009 15:24:11 GMT"; eol "Server: Lab02a";
   eol "Accept-Ranges: bytes"; bytes "Content-Length: " ++ print_dec size ++ CRLF;
   eol "Content-Type: text/html"; CRLF].

Definition error_html : str :=
  eol "<HTML>" ++ eol "<HEAD><TITLE>400 Bad Request</TITLE></HEAD>" ++
  eol "<BODY>Bad Request</BODY>" ++ eol "</HTML>" ++ CRLF.

Definition error_lines : list str :=
  [eol "HTTP/1.1 503 Bad Request"; eol "Date: Wed, 28 Oct 2009 15:24:11 GMT"; eol "Server: MyServer";
   eol "Connection: close"; eol "Transfer-Encoding: chunked";
   bytes "Content-Length: " ++ print_dec (Z.of_nat (length error_html)) ++ CRLF;
   eol "Content-Type: text/html; charset=iso-8859-1"; CRLF; error_html].

(** What [open], [fstat] and [read] give for a name: no descriptor, or the size
    and what there is to read, [None] when reading fails. *)
Inductive opened : Type :=
| NotOpened
| Opened (st_size : Z) (data : option (list Z)).

Section server.
Context (startWrite : M Connection (list Z)).

(** [startWrite()], and what has left. *)
Definition server_write : M HTTPServerConnection unit :=
  d ← super startWrite; modify (put_sent d).

(** The file system, and what [getStats()] gives. *)
Context (files : str → opened) (reqsLastSec : Z).

(** Appends lines to the output buffer. *)
Definition reply_lines (ls : list str) : M HTTPServerConnection unit := super (on_out (write_all ls)).

(** [read(fd, out_.writePtr(), out_.writeSize())] and [out_.advance(res)]; the
    process exits when reading fails. *)
Definition reply_file (st_size : Z) (data : option (list Z)) : M HTTPServerConnection unit :=
  super (on_out (reserve st_size));;
  match data with
  | None => fail Fatal
  | Some content =>
    c ← gets server_base;
    let res := take (Z.to_nat (writeSize (out_ c))) content in
    super (on_out (poke res;; advance (Z.of_nat (length res))));;
    mret tt
  end.

Definition handleRequest : M HTTPServerConnection bool :=
  r ← gets request_;
  if decide (address r = bytes "quit") then modify put_quit;; mret false
  else if decide (address r = bytes "stats") then
    let stats_string := print_dec reqsLastSec in
    reply_lines (ok_lines (Z.of_nat (length stats_string)) ++ [stats_string]);;
    server_write;;
    mret true
  else
    let name := if decide (address r = []) then bytes "index.html" else address r in
    modify (put_request (mkRequest (method r) name (version r)));;
    match files (c_str name) with
    | Opened st_size data =>
      reply_lines (ok_lines st_size);;
      reply_file st_size data
    | NotOpened => reply_lines error_lines
    end;;
    modify put_finished;;
    server_write;;
    mret true.

(** The loop of [readDone()]; [parse_fuel] bounds the loops of the parser. *)
Fixpoint server_loop (fuel parse_fuel : nat) : M HTTPServerConnection bool :=
  match fuel with
  | O => fail OutOfFuel
  | S fuel' =>
    modify (put_request Request_clear);;
    c ← gets server_base;
    match begin_ (in_ c) with
    | Err e => fail e
    | Ok it _ =>
      r ← gets request_;
      match parseRequest_in (in_ c) parse_fuel (it, r) with
      | PFault e => fail e
      | Throw _ _ => fail Fatal
      | Done rc (it', r') =>
        modify (put_request r');;
        if rc <? 0 then mret false
        else if 0 <? rc then mret true
        else
          super (on_in (consume (bytes_read_ it')));;
          ok ← handleRequest;
          if ok : bool then server_loop fuel' parse_fuel else mret false
      end
    end
  end.

Definition readDone (fuel : nat) : M HTTPServerConnection bool := server_loop fuel fuel.
End server.

(** [HTTPServerConnection(service, client_fd)]: it starts reading. *)
Definition HTTPServerConnection_init (client_fd : Z) : res HTTPServerConnection unit :=
  super startRead (mkServer (Connection_passive client_fd) Request_clear false 0 []).

(** ** The client side *)

(** What [( *cb)(response)] calls: code of the user, or [receiveInternal] bound to
    the [Notification] of a call of [send()]. *)
Inductive callback : Type :=
| User (id : nat)
| Receive (n : nat).

Record HTTPClientConnection : Type := mkClient {
  client_base : Connection;
  response_cbs_ : list callback;
  notes : list (option Response);            (* per [send()]: what the user gets, once notified *)
  connected : nat;                           (* ghost: calls of connect_cb_ *)
  delivered : list (callback * Response);    (* ghost: calls of response callbacks *)
  dropped : list Response;                   (* ghost: no callback was waiting *)
  client_sent : list Z;                      (* what the socket has accepted *)
}.

#[export] Instance client_sub : Subclass HTTPClientConnection := {
  base_of := client_base;
  set_base c s := mkClient c (response_cbs_ s) (notes s) (connected s) (delivered s) (dropped s) (client_sent s);
}.

#[export] Instance client_sub_laws : SubclassLaws HTTPClientConnection.
Proof. split; try done. by intros []. Qed.

Definition HTTPClientConnection_init : HTTPClientConnection := mkClient Connection_active [] [] 0 [] [] [].

Definition connDone : M HTTPClientConnection unit :=
  c ← gets client_base;
  (if in_error_ c then mret tt else super startRead);;
  modify (λ s, mkClient (client_base s) (response_cbs_ s) (notes s) (S (connected s)) (delivered s) (dropped s) (client_sent s)).

(** [connect(host, port, cb)]; the callback is the one that [connected] counts. *)
Definition connect (strerror : Z → str) (env : ConnectEnv) : M HTTPClientConnection unit :=
  startConnect strerror connDone env.

(** [*user_response = new_response; n->notify()]. *)
Definition receiveInternal (n : nat) (new_response : Response) (ns : list (option Response)) : list (option Response) :=
  <[n := Some new_response]> ns.

Definition call_back (cb : callback) (response : Response) (ns : list (option Response)) : list (option Response) :=
  match cb with User _ => ns | Receive n => receiveInternal n response ns end.

Definition handleResponse (response : Response) : M HTTPClientConnection bool := λ s,
  match response_cbs_ s with
  | cb :: cbs =>
    Ok true (mkClient (client_base s) cbs (call_back cb response (notes s)) (connected s)
               (delivered s ++ [(cb, response)]) (dropped s) (client_sent s))
  | [] =>
    Ok true (mkClient (client_base s) [] (notes s) (connected s) (delivered s) (dropped s ++ [response]) (client_sent s))
  end.

(** The loop of [readDone()]; the iterator is tested after the input was consumed. *)
Fixpoint client_loop (fuel parse_fuel : nat) : M HTTPClientConnection bool :=
  match fuel with
  | O => fail OutOfFuel
  | S fuel' =>
    c ← gets client_base;
    match begin_ (in_ c) with
    | Err e => fail e
    | Ok it _ =>
      match parseResponse_in (in_ c) parse_fuel (it, Response_clear) with
      | PFault e => fail e
      | Throw _ _ => fail Fatal
      | Done rc (it', response) =>
        if rc <? 0 then mret false
        else if 0 <? rc then mret true
        else
          super (on_in (consume (bytes_read_ it')));;
          ok ← handleResponse response;
          if negb ok then mret false
          else
            c' ← gets client_base;
            if eob (in_ c') it' then mret true else client_loop fuel' parse_fuel
      end
    end
  end.

Definition client_readDone (fuel : nat) : M HTTPClientConnection bool := client_loop fuel fuel.

Section client.
Context (startWrite : M Connection (list Z)).

Definition client_write : M HTTPClientConnection unit :=
  d ← super startWrite;
  modify (λ s, mkClient (client_base s) (response_cbs_ s) (notes s) (connected s) (delivered s) (dropped s) (client_sent s ++ d)).

Definition asyncSend (request : Request) (cb : callback) : M HTTPClientConnection unit :=
  modify (λ s, mkClient (client_base s) (response_cbs_ s ++ [cb]) (notes s) (connected s) (delivered s) (dropped s)
                 (client_sent s));;
  super (on_out (toBuffer request));;
  client_write.

(** [send()] up to its wait, and what the wait gives: [None] while it blocks. *)
Definition send_begin (request : Request) : M HTTPClientConnection nat :=
  n ← gets (length ∘ notes);
  modify (λ s, mkClient (client_base s) (response_cbs_ s) (notes s ++ [None]) (connected s) (delivered s) (dropped s) (client_sent s));;
  asyncSend request (Receive n);;
  mret n.

Definition send_end (n : nat) : M HTTPClientConnection (option Response) := gets (λ s, mjoin (notes s !! n)).
End client.
