(* ===== verification/HttpConnectionSpec.v ===== *)
(** * What HTTP connections guarantee *)

From S2P Require Import Prelude CppString Buffer BufferSpec BufferStream Threads ThreadPool IOManager Connection ConnectionSpec HttpParser HttpParserSpec HttpConnection.
From stdpp Require Import base numbers list gmap sorting strings.
Open Scope Z_scope.

(** ** Numbers *)

Lemma digits_app acc s t : Forall (λ c, is_digit c = true) s → digits acc (s ++ t) = digits (digits acc s) t.
Proof.
  revert acc. induction s as [|c s IH]; intros acc Hs; [done|]. apply Forall_cons in Hs as [Hc Hs]. cbn. rewrite Hc. by apply IH.
Qed.

Lemma is_digit_ok d : 0 ≤ d < 10 → is_digit (48 + d) = true.
Proof. intros. unfold is_digit. apply andb_true_iff. split; apply Z.leb_le; lia. Qed.

(** The digits in front of [acc] are those of [n]. *)
Lemma dec_loop_ok fuel n acc : (0 < fuel)%nat → 0 ≤ n → n < 2 ^ Z.of_nat fuel →
  ∃ ds, dec_loop fuel n acc = ds ++ acc ∧ Forall (λ c, is_digit c = true) ds ∧ ds ≠ [] ∧ digits 0 ds = n.
Proof.
  revert n acc. induction fuel as [|fuel IH]; intros n acc Hf Hn Hlt; [lia|]. cbn [dec_loop].
  destruct (Z.ltb_spec n 10).
  - exists [48 + n]. split_and!; [done|constructor; [apply is_digit_ok; lia|constructor]|done|].
    cbn. rewrite is_digit_ok by lia. lia.
  - destruct (IH (n / 10) ((48 + n `mod` 10) :: acc)) as (ds & -> & Hds & _ & Ed).
    { destruct fuel; [cbn in Hlt; lia|lia]. }
    { apply Z.div_pos; lia. }
    { apply Z.div_lt_upper_bound; [lia|]. rewrite Nat2Z.inj_succ, Z.pow_succ_r in Hlt by lia. lia. }
    pose proof (Z.mod_pos_bound n 10 ltac:(lia)) as Hm.
    exists (ds ++ [48 + n `mod` 10]). split_and!.
    + by rewrite <- app_assoc.
    + apply Forall_app. split; [done|]. constructor; [by apply is_digit_ok|constructor].
    + by destruct ds.
    + rewrite digits_app, Ed by done. cbn. rewrite is_digit_ok by done. pose proof (Z.div_mod n 10). lia.
Qed.

Lemma print_dec_ok n : 0 ≤ n →
  Forall (λ c, is_digit c = true) (print_dec n) ∧ print_dec n ≠ [] ∧ digits 0 (print_dec n) = n.
Proof.
  intros Hn. unfold print_dec. destruct (dec_loop_ok (S (Z.to_nat (Z.log2 n))) n [] ltac:(lia) Hn) as (ds & -> & H1 & H2 & H3).
  { rewrite Nat2Z.inj_succ, Z2Nat.id by apply Z.log2_nonneg. destruct (decide (n = 0)) as [->|]; [done|]. apply Z.log2_spec. lia. }
  rewrite app_nil_r. done.
Qed.

(** A printed number is read back. *)
Lemma extract_print old n : 0 ≤ n < 2 ^ 64 → extract_size old (print_dec n) = n.
Proof.
  intros Hn. destruct (print_dec_ok n ltac:(lia)) as (Hd & Hne & E). unfold extract_size.
  destruct (print_dec n) as [|c s]; [done|]. apply Forall_cons in Hd as [Hc Hd]. cbn [skip_spaces].
  assert (48 ≤ c ≤ 57) as Hr by (unfold is_digit in Hc; lia).
  assert (is_space c = false) as -> by (unfold is_space; lia).
  destruct (Z.eqb_spec c 45); [lia|]. destruct (Z.eqb_spec c 43); [lia|]. rewrite E.
  destruct (Z.leb_spec (2 ^ 64) n); [lia|done].
Qed.

(** ** The server *)

Lemma write_all_ok ls b l : holds b l → ∃ b', write_all ls b = Ok tt b' ∧ holds b' (l ++ concat ls).
Proof.
  revert b l. induction ls as [|s ls IH]; intros b l Hb; cbn; [exists b; by rewrite app_nil_r|].
  destruct (write_ok b l s Hb) as (b1 & Hr & Hb1 & _). rewrite (bind_ok _ _ _ _ _ Hr).
  destruct (IH b1 _ Hb1) as (b' & Hr' & Hb'). exists b'. split; [done|]. by rewrite (assoc_L (++)).
Qed.

(** Filling nothing changes nothing. *)
Lemma poke_nil_ok b l : holds b l → (poke [];; advance 0) b = Ok false b.
Proof.
  intros (ini & lst & Hb & _). destruct (chunk_last _ _ _ Hb) as (c & Hc & _). pose proof (lst_le Hb) as Hle.
  unfold poke, store_at, mbind, M_bind. rewrite (br_wpos _ _ _ Hb). cbn [idx off length]. rewrite Hc. unfold BlockSize.
  destruct (Z.leb_spec (Z.of_nat (length lst) + Z.of_nat 0) 4096); [|lia]. unfold advance. cbn.
  rewrite Nat.add_0_r, take_drop, (list_insert_id _ _ _ Hc), <- (br_wpos _ _ _ Hb). by destruct b.
Qed.

Lemma super_on_out {A} (f : M Buffer A) s a b :
  f (out_ (server_base s)) = Ok a b →
  super (on_out f) s = Ok a (set_base (put_out (writing_ (server_base s)) b (server_base s)) s).
Proof. intros Hf. unfold super, on_out, zoom. cbn [base_of server_sub]. by rewrite Hf. Qed.

(** [startWrite()] takes what it sends off the front of the output and may take a
    reference; it leaves the reading side alone. *)
Definition sends (startWrite : M Connection (list Z)) : Prop := ∀ c l, holds (out_ c) l → deleted c = false →
  ∃ c' d l', startWrite c = Ok d c' ∧ l = d ++ l' ∧ holds (out_ c') l' ∧ in_ c' = in_ c ∧ same_reader c c'.

(** What has been sent and what is in the output buffer make up [x]. *)
Definition streams (s : HTTPServerConnection) (x : list Z) : Prop :=
  ∃ l, holds (out_ (server_base s)) l ∧ x = server_sent s ++ l.

Section server.
Context (startWrite : M Connection (list Z)) (files : str → opened) (reqsLastSec : Z) (Hsw : sends startWrite).

(** Files can be read, are as long as [fstat] says, and fit in a block. *)
Context (Hfiles : ∀ name st_size data, files name = Opened st_size data →
  ∃ content, data = Some content ∧ st_size = Z.of_nat (length content) ∧ st_size ≤ BlockSize).

(** The reply to a request for the address [a]. *)
Definition reply (a : str) : str :=
  if decide (a = bytes "stats") then
    concat (ok_lines (Z.of_nat (length (print_dec reqsLastSec)))) ++ print_dec reqsLastSec
  else
    match files (c_str (if decide (a = []) then bytes "index.html" else a)) with
    | Opened st_size data => concat (ok_lines st_size) ++ default [] data
    | NotOpened => concat error_lines
    end.

(** The methods below add [d] to the output and leave the reading side alone. *)
Record served (s s' : HTTPServerConnection) (d : list Z) : Prop := {
  sv_stream : ∀ x, streams s x → streams s' (x ++ d);
  sv_in : in_ (server_base s') = in_ (server_base s);
  sv_reader : same_reader (server_base s) (server_base s');
}.

Lemma same_reader_refl c : same_reader c c.
Proof. split_and!; [lia|done|done]. Qed.

Lemma same_reader_trans c1 c2 c3 : same_reader c1 c2 → same_reader c2 c3 → same_reader c1 c3.
Proof. intros (? & ? & ?) (? & ? & ?). split_and!; [lia|congruence|congruence]. Qed.

Lemma served_trans s1 s2 s3 d1 d2 : served s1 s2 d1 → served s2 s3 d2 → served s1 s3 (d1 ++ d2).
Proof.
  intros [E1 I1 R1] [E2 I2 R2]. split; [|congruence|by eapply same_reader_trans].
  intros x Hx. rewrite (assoc_L (++)). by apply E2, E1.
Qed.

Lemma streams_fun s x x' : streams s x → streams s x' → x = x'.
Proof. intros (l & Hl & ->) (l' & Hl' & ->). by rewrite (holds_fun _ _ _ Hl Hl'). Qed.

(** A new output buffer that holds [d] more. *)
Lemma served_out s l d b : holds (out_ (server_base s)) l → holds b (l ++ d) →
  served s (set_base (put_out (writing_ (server_base s)) b (server_base s)) s) d.
Proof.
  intros Hl Hb. split; [|done|unfold same_reader; cbn; split_and!; [lia|done|done]].
  intros x (l' & Hl' & ->). rewrite (holds_fun _ _ _ Hl' Hl). exists (l ++ d). split; [done|]. cbn. by rewrite (assoc_L (++)).
Qed.

(** The output is as before. *)
Lemma served_nil s s' : server_base s' = server_base s → server_sent s' = server_sent s → served s s' [].
Proof.
  intros E1 E2. split; [|by rewrite E1|rewrite E1; apply same_reader_refl]. intros x (l & Hl & ->). exists l. rewrite E1, E2, app_nil_r. by split.
Qed.

Lemma reply_lines_ok ls s x : streams s x → ∃ s', reply_lines ls s = Ok tt s' ∧ served s s' (concat ls).
Proof.
  intros (l & Hl & _). destruct (write_all_ok ls _ _ Hl) as (b & Hr & Hb). unfold reply_lines.
  rewrite (super_on_out _ _ _ _ Hr). eexists. split; [done|]. by eapply served_out.
Qed.

Lemma reply_file_ok content s x : streams s x → Z.of_nat (length content) ≤ BlockSize →
  ∃ s', reply_file (Z.of_nat (length content)) (Some content) s = Ok tt s' ∧ served s s' content.
Proof.
  intros (l & Hl & _) Hlen. pose proof (reserve_ok _ _ (Z.of_nat (length content)) Hl ltac:(lia)) as Hres.
  destruct (Z.leb_spec (Z.of_nat (length content)) BlockSize); [|lia]. destruct Hres as (b1 & Hr1 & Hb1 & Hw1).
  unfold reply_file. rewrite (bind_ok _ _ _ _ _ (super_on_out _ _ _ _ Hr1)), (bind_ok _ _ _ _ _ (gets_ok _ _)).
  set (s1 := set_base (put_out (writing_ (server_base s)) b1 (server_base s)) s).
  change (out_ (server_base s1)) with b1. rewrite (take_ge content) by lia. cbv zeta.
  assert (Hfill : ∃ ok b2, (poke content;; advance (Z.of_nat (length content))) b1 = Ok ok b2 ∧ holds b2 (l ++ content)).
  { destruct (decide (content = [])) as [->|Hne]; [exists false, b1; rewrite app_nil_r; split; [by eapply poke_nil_ok|done]|].
    destruct (poke_advance_ok b1 l content Hb1 Hne Hw1) as (b2 & ? & ?). by exists true, b2. }
  destruct Hfill as (ok & b2 & Hr2 & Hb2).
  rewrite (bind_ok _ _ s1 ok _ (super_on_out _ s1 _ _ Hr2)). eexists. split; [done|].
  exact (served_out s l content b2 Hl Hb2).
Qed.

Lemma server_write_ok s x : streams s x → deleted (server_base s) = false →
  ∃ s', server_write startWrite s = Ok tt s' ∧ served s s' [].
Proof.
  intros (l & Hl & _) Hd. destruct (Hsw _ _ Hl Hd) as (c' & d & l' & Hr & -> & Hl' & Hin & Hsame).
  unfold server_write. rewrite (bind_ok _ _ s d (set_base c' s)) by (unfold super; by apply zoom_ok).
  eexists. split; [done|]. split; [|done|done]. intros y (l1 & Hl1 & ->). rewrite (holds_fun _ _ _ Hl1 Hl).
  exists l'. split; [done|]. cbn. by rewrite app_nil_r, (assoc_L (++)).
Qed.

(** A request is answered. *)
Lemma handleRequest_ok s x : streams s x → deleted (server_base s) = false →
  address (request_ s) ≠ bytes "quit" →
  ∃ s', handleRequest startWrite files reqsLastSec s = Ok true s' ∧ served s s' (reply (address (request_ s))).
Proof.
  intros Hl Hd Hq. unfold handleRequest, reply. rewrite (bind_ok _ _ _ _ _ (gets_ok _ _)).
  rewrite decide_False by done. destruct (decide (address (request_ s) = bytes "stats")) as [Es|Es].
  - destruct (reply_lines_ok (ok_lines (Z.of_nat (length (print_dec reqsLastSec))) ++ [print_dec reqsLastSec]) s x Hl) as (s1 & Hr1 & Hs1).
    rewrite (bind_ok _ _ _ _ _ Hr1). pose proof (sv_stream _ _ _ Hs1 _ Hl) as Hl1. destruct (sv_reader _ _ _ Hs1) as (_ & Hd1 & _).
    destruct (server_write_ok s1 _ Hl1 ltac:(congruence)) as (s2 & Hr2 & Hs2). rewrite (bind_ok _ _ _ _ _ Hr2).
    exists s2. split; [done|]. pose proof (served_trans _ _ _ _ _ Hs1 Hs2) as Hs. rewrite app_nil_r, concat_app in Hs. cbn in Hs.
    by rewrite app_nil_r in Hs.
  - set (name := if decide (address (request_ s) = []) then bytes "index.html" else address (request_ s)).
    set (s0 := put_request (mkRequest (method (request_ s)) name (version (request_ s))) s).
    rewrite (bind_ok _ _ s tt s0) by done.
    assert (Hs0 : served s s0 []) by (by apply served_nil). pose proof (sv_stream _ _ _ Hs0 _ Hl) as Hl0.
    set (d := match files (c_str name) with
      | Opened st_size data => concat (ok_lines st_size) ++ default [] data | NotOpened => concat error_lines end).
    assert (Hbody : ∃ s1, match files (c_str name) with
      | Opened st_size data => reply_lines (ok_lines st_size);; reply_file st_size data
      | NotOpened => reply_lines error_lines end s0 = Ok tt s1 ∧ served s0 s1 d).
    { unfold d. destruct (files (c_str name)) as [|st_size data] eqn:Ef.
      - exact (reply_lines_ok error_lines s0 _ Hl0).
      - destruct (Hfiles _ _ _ Ef) as (content & -> & -> & Hsz).
        destruct (reply_lines_ok (ok_lines (Z.of_nat (length content))) s0 _ Hl0) as (s1 & Hr1 & Hs1).
        rewrite (bind_ok _ _ _ _ _ Hr1). pose proof (sv_stream _ _ _ Hs1 _ Hl0) as Hl1.
        destruct (reply_file_ok content s1 _ Hl1 Hsz) as (s2 & Hr2 & Hs2).
        exists s2. split; [done|]. by eapply served_trans. }
    destruct Hbody as (s1 & Hr1 & Hs1). rewrite (bind_ok _ _ _ _ _ Hr1), (bind_ok _ _ s1 tt (put_finished s1)) by done.
    pose proof (sv_stream _ _ _ Hs1 _ Hl0) as Hl1. destruct (sv_reader _ _ _ Hs1) as (_ & Hd1 & _).
    assert (Hs1f : served s1 (put_finished s1) []) by (by apply served_nil). pose proof (sv_stream _ _ _ Hs1f _ Hl1) as Hl2.
    destruct (server_write_ok (put_finished s1) _ Hl2) as (s2 & Hr2 & Hs2); [cbn; by rewrite Hd1|].
    rewrite (bind_ok _ _ _ _ _ Hr2). exists s2. split; [done|].
    pose proof (served_trans _ _ _ _ _ (served_trans _ _ _ _ _ (served_trans _ _ _ _ _ Hs0 Hs1) Hs1f) Hs2) as Hs.
    by rewrite !app_nil_r in Hs.
Qed.

(** ** Many requests *)

(** Requests with their header lines, as they arrive. *)
Definition texts (qs : list (Request * list str)) : str := concat ((λ q, request_text q.1 q.2) <$> qs).
Definition replies (qs : list (Request * list str)) : str := concat ((λ q, reply (address q.1)) <$> qs).

(** The next request has not arrived in full. *)
Definition incomplete (qs : list (Request * list str)) (rest : str) : Prop :=
  match qs with q :: _ => ¬ (request_text q.1 q.2 `prefix_of` rest) | [] => True end.

Definition served_request (q : Request * list str) : Prop :=
  request_wf q.1 q.2 ∧ address q.1 ≠ bytes "quit".

Lemma last_app_ne {A} (l k : list A) x : last (l ++ k) ≠ Some x → last k ≠ Some x.
Proof. intros H E. apply H. by rewrite last_app, E. Qed.

(** One turn of the loop, as the parser returns. *)
Lemma server_turn pf s r' rc it' it :
  begin_ (in_ (server_base s)) = Ok it (in_ (server_base s)) →
  parseRequest_in (in_ (server_base s)) pf (it, Request_clear) = Done rc (it', r') →
  ∀ fuel, server_loop startWrite files reqsLastSec (S fuel) pf s =
    (if rc <? 0 then mret false
     else if 0 <? rc then mret true
     else
       super (on_in (consume (bytes_read_ it')));;
       ok ← handleRequest startWrite files reqsLastSec;
       if ok : bool then server_loop startWrite files reqsLastSec fuel pf else mret false) (put_request r' s).
Proof.
  intros Hb Hp fuel. cbn [server_loop]. rewrite (bind_ok _ _ s tt (put_request Request_clear s)) by done.
  rewrite (bind_ok _ _ _ _ _ (gets_ok _ _)). cbn [server_base put_request]. rewrite Hb.
  rewrite (bind_ok _ _ _ _ _ (gets_ok _ _)). cbn [request_ put_request]. rewrite Hp.
  by rewrite (bind_ok _ _ _ tt (put_request r' s)).
Qed.

Lemma server_loop_ok pf qs : ∀ fuel s rest x,
  Forall served_request qs → parsable (in_ (server_base s)) rest → rest `prefix_of` texts qs →
  last rest ≠ Some CR → (length qs < fuel)%nat → (length rest < pf)%nat → Z.of_nat (length rest) < 2 ^ 64 →
  deleted (server_base s) = false → streams s x →
  ∃ s' j rest', server_loop startWrite files reqsLastSec fuel pf s = Ok true s' ∧
    rest = texts (take j qs) ++ rest' ∧ parsable (in_ (server_base s')) rest' ∧ rest' `prefix_of` texts (drop j qs) ∧
    incomplete (drop j qs) rest' ∧ streams s' (x ++ replies (take j qs)) ∧
    same_reader (server_base s) (server_base s').
Proof.
  induction qs as [|[r hs] qs IH]; intros fuel s rest x Hqs Hf Hpre Hcr Hfuel Hpf Hlen Hd Hl;
    (destruct fuel as [|fuel]; [cbn in *; lia|]); pose proof Hf as (Hh & Hrd & Hi);
    destruct (begin_ok _ _ Hh Hrd Hi Hlen) as (it & Hbeg & Hit & Hr0 & _); pose (L := buffer_laws (in_ (server_base s))).
  - apply prefix_nil_inv in Hpre as ->.
    destruct (@parse_prefix_waits Iterator (buffer_input (in_ (server_base s))) L pf it Request_clear get_x get_x_headers
      [] (request_text get_x get_x_headers) get_x_wf) as ([it' r'] & Hp); try done.
    rewrite (server_turn pf s r' 1 it' it Hbeg Hp). exists (put_request r' s), O, []. cbn. rewrite app_nil_r.
    split_and!; try done.
    all: unfold same_reader; cbn; split_and!; [lia|done|done].
  - apply Forall_cons in Hqs as [[Hwf Hnq] Hqs]. cbn in Hwf, Hnq. change (texts ((r, hs) :: qs)) with (request_text r hs ++ texts qs) in *.
    destruct (decide (request_text r hs `prefix_of` rest)) as [[rest1 ->]|Hnp].
    + apply prefix_app_inv in Hpre. rewrite length_app in Hpf, Hlen.
      destruct (@parse_accepts Iterator (buffer_input (in_ (server_base s))) L pf it Request_clear r hs rest1 Hwf Hit ltac:(lia))
        as (it' & Hp & _ & Hm & _). cbn in Hm. rewrite Hr0 in Hm.
      rewrite (server_turn pf s r 0 it' it Hbeg Hp). cbn [Z.ltb Z.compare].
      destruct (parsable_consume _ _ (bytes_read_ it') Hf ltac:(lia)) as (b1 & Hc1 & Hf1).
      replace (Z.to_nat (bytes_read_ it')) with (length (request_text r hs)) in Hf1 by lia. rewrite drop_app_length in Hf1.
      set (s1 := set_base (put_in b1 (server_base s)) (put_request r s)).
      rewrite (bind_ok _ _ (put_request r s) tt s1).
      2:{ unfold super, on_in, zoom. cbn [base_of server_sub server_base put_request]. by rewrite Hc1. }
      destruct (handleRequest_ok s1 x Hl Hd Hnq) as (s2 & Hr2 & [Ere Ein Hsame]). rewrite (bind_ok _ _ _ _ _ Hr2).
      destruct (IH fuel s2 rest1 (x ++ reply (address r))) as (s' & j & rest' & Hrun & Erest & Hf' & Hpre' & Hinc' & Ere' & Hsame'); try done.
      { by rewrite Ein. } { by eapply last_app_ne. } { cbn in Hfuel. lia. } { lia. } { lia. }
      { destruct Hsame as (_ & E & _). by rewrite E. } { exact (Ere x Hl). }
      exists s', (S j), rest'. split; [exact Hrun|].
      change (texts (take (S j) ((r, hs) :: qs))) with (request_text r hs ++ texts (take j qs)).
      change (replies (take (S j) ((r, hs) :: qs))) with (reply (address r) ++ replies (take j qs)).
      split_and!; try done; [by rewrite Erest, (assoc_L (++))|by rewrite (assoc_L (++))|].
      eapply same_reader_trans; [|eapply same_reader_trans; [exact Hsame|exact Hsame']].
      unfold same_reader. cbn. split_and!; [lia|done|done].
    + assert (Hpt : rest `prefix_of` request_text r hs).
      { destruct (prefix_weak_total rest (request_text r hs) (request_text r hs ++ texts qs)) as [?|?]; try done. by apply prefix_app_r. }
      destruct Hpt as [q Eq].
      destruct (@parse_prefix_waits Iterator (buffer_input (in_ (server_base s))) L pf it Request_clear r hs rest q Hwf Eq) as ([it' r'] & Hp); try done.
      { intros ->. rewrite app_nil_r in Eq. apply Hnp. by rewrite Eq. }
      rewrite (server_turn pf s r' 1 it' it Hbeg Hp). exists (put_request r' s), O, rest. cbn. rewrite app_nil_r.
      split_and!; try done.
      all: unfold same_reader; cbn; split_and!; [lia|done|done].
Qed.

(** [got] has arrived: some requests were answered, the rest is in the buffer. *)
Definition session (qs : list (Request * list str)) (s : HTTPServerConnection) (got : list Z) : Prop :=
  ∃ j rest, got = texts (take j qs) ++ rest ∧ parsable (in_ (server_base s)) rest ∧
    rest `prefix_of` texts (drop j qs) ∧ (got ≠ [] → incomplete (drop j qs) rest) ∧
    streams s (replies (take j qs)).

Lemma take_plus {A} j k (l : list A) : take (j + k) l = take j l ++ take k (drop j l).
Proof. revert l. induction j as [|j IH]; intros [|x l]; cbn; [done|done|by rewrite take_nil|]. by rewrite IH. Qed.

Lemma texts_app qs qs' : texts (qs ++ qs') = texts qs ++ texts qs'.
Proof. unfold texts. by rewrite fmap_app, concat_app. Qed.

Lemma replies_app qs qs' : replies (qs ++ qs') = replies qs ++ replies qs'.
Proof. unfold replies. by rewrite fmap_app, concat_app. Qed.

Lemma last_nonempty {A} (l k : list A) : k ≠ [] → last (l ++ k) = last k.
Proof. intros Hk. rewrite last_app. by destruct (last k) as [x|] eqn:E; [|apply last_None in E]. Qed.

(** [readDone()] after a piece has arrived. *)
Lemma session_step qs n s got data :
  Forall served_request qs → (length qs < n)%nat → (length (texts qs) < n)%nat → Z.of_nat (length (texts qs)) < 2 ^ 64 →
  session qs s got → data ≠ [] → Z.of_nat (length data) ≤ writeSize (in_ (server_base s)) →
  last data ≠ Some CR → got ++ data `prefix_of` texts qs → deleted (server_base s) = false →
  ∃ b s', (poke data;; advance (Z.of_nat (length data))) (in_ (server_base s)) = Ok true b ∧
    readDone startWrite files reqsLastSec n (set_base (put_in b (server_base s)) s) = Ok true s' ∧
    session qs s' (got ++ data) ∧ same_reader (server_base s) (server_base s').
Proof.
  intros Hqs Hn1 Hn2 Hn3 (j & rest & -> & Hin & Hpre & _ & Hrep) Hne Hw Hcr Hgot Hd.
  destruct (parsable_fill _ _ data Hin Hne Hw) as (b & Hfill & Hin'). rewrite <- (take_drop j qs) in Hgot at 2.
  rewrite texts_app, <- (assoc_L (++)) in Hgot. apply prefix_app_inv in Hgot.
  assert (Hle : (length (rest ++ data) ≤ length (texts qs))%nat).
  { apply prefix_length in Hgot. assert (E : length (texts qs) = (length (texts (take j qs)) + length (texts (drop j qs)))%nat)
      by (by rewrite <- length_app, <- texts_app, take_drop). lia. }
  destruct (server_loop_ok n (drop j qs) n (set_base (put_in b (server_base s)) s) (rest ++ data) (replies (take j qs))) as
    (s' & k & rest' & Hrun & Erest & Hin2 & Hpre' & Hinc' & Hrep' & Hsame); try done.
  { by apply Forall_drop. } { by rewrite last_nonempty. } { rewrite length_drop. lia. } { lia. } { lia. }
  exists b, s'. split_and!; try done. exists (j + k)%nat, rest'. split_and!; try done.
  - rewrite take_plus, texts_app, <- !(assoc_L (++)). by rewrite <- Erest.
  - by rewrite <- drop_drop.
  - intros _. by rewrite <- drop_drop.
  - by rewrite take_plus, replies_app.
Qed.

(** The whole run of [doRead()]. *)
Lemma server_serves fd qs script n fuel :
  Forall served_request qs →
  (length qs < n)%nat → (length (texts qs) < n)%nat → Z.of_nat (length (texts qs)) < 2 ^ 64 →
  script_data script = texts qs → script_stop script = Some true →
  Forall (λ r, match r with RBytes d => (length d ≤ 1024)%nat ∧ last d ≠ Some CR | _ => True end) script →
  (script_size script < fuel)%nat →
  ∃ s0 s, HTTPServerConnection_init fd = Ok tt s0 ∧
    doRead (readDone startWrite files reqsLastSec n) fuel script s0 = Ok tt s ∧
    streams s (replies qs) ∧ parsable (in_ (server_base s)) [] ∧ deleted (server_base s) = false.
Proof.
  intros Hqs Hn1 Hn2 Hn3 Hdata Hstop Hpc Hfuel. 
  destruct (HTTPServerConnection_init fd) as [[] s0|] eqn:E0; [|discriminate E0]. exists s0.
  assert (Hs0 : in_ (server_base s0) = Buffer_init ∧ out_ (server_base s0) = Buffer_init ∧ server_sent s0 = [] ∧
    deleted (server_base s0) = false ∧ is_Some (io_desc_ (server_base s0)) ∧ refs_ (server_base s0) = 1) by (by injection E0 as <-).
  destruct Hs0 as (Ein & Eout & Erep & Edel & Edesc & Eref).
  destruct (doRead_ok (readDone startWrite files reqsLastSec n) (session qs) (λ d, last d ≠ Some CR)
    (λ x, x `prefix_of` texts qs) (λ _, False)) with (fuel := fuel) (script := script) (s := s0) (got0 := @nil Z)
    as (s & got & again & Hrun & Hpre & Hses & Hcase & started & Hst & Hrefs).
  - intros s c got (j & rest & ? & ? & ? & ? & l & ? & ?) E1 E2 _. exists j, rest. cbn in *. rewrite E1. split_and!; try done.
    exists l. cbn. by rewrite E2.
  - intros s got (j & rest & ? & Hin & ? & ? & ?). destruct (parsable_reserve _ _ 1024 Hin) as (b & Hr & Hb & Hw); [unfold BlockSize; lia|].
    exists b. split_and!; try done. by exists j, rest.
  - intros s got data Hs Hne Hw Hq Hg Hd.
    destruct (session_step qs n s got data) as (b & s' & H1 & H2 & H3 & H4); try done. exists b, true, s'. by split_and!.
  - exists O, []. rewrite Ein. split_and!; try done; [apply parsable_init|apply prefix_nil|]. exists []. rewrite Eout, Erep. split; [apply holds_init|done].
  - done.
  - done.
  - cbn. lia.
  - by rewrite Hstop.
  - eapply Forall_impl; [exact Hpc|]. intros [|d| |]; try done. intros [? ?]. by left.
  - intros p Hp. by rewrite <- Hdata.
  - done.
  - rewrite Hstop in Hcase. destruct Hcase as [[-> [= <-]]|[_ []]]. destruct Hrefs as (_ & Hdel & _).
    exists s. split; [done|]. split; [done|]. rewrite Hdata in Hses. cbn in Hses.
    destruct Hses as (j & rest & E & Hin & Hp & Hinc & Hrep).
    destruct (decide (length qs ≤ j)%nat) as [Hj|Hj].
    + rewrite take_ge in E, Hrep by done. rewrite drop_ge in Hp by done. apply prefix_nil_inv in Hp as ->. by split_and!.
    + rewrite <- (take_drop j qs), texts_app in E at 1. apply app_inv_head in E. subst rest.
      destruct (drop j qs) as [|q qs'] eqn:Ed; [apply (f_equal length) in Ed; rewrite length_drop in Ed; cbn in Ed; lia|].
      destruct Hinc; [|by apply prefix_app_r]. rewrite <- (take_drop j qs), Ed, texts_app. cbn. intros [_ [Hx _]%app_nil]%app_nil.
      unfold request_text in Hx. by apply app_nil in Hx as [_ Hx].
Qed.


(** ** Replies and the parser of the client *)

(** What a request for [a] is about. *)
Definition body_of (a : str) : str :=
  if decide (a = bytes "stats") then print_dec reqsLastSec
  else
    match files (c_str (if decide (a = []) then bytes "index.html" else a)) with
    | Opened _ data => default [] data
    | NotOpened => error_html
    end.

Definition ok_headers (size : Z) : list str :=
  [bytes "Date: Wed, 28 Oct 2009 15:24:11 GMT"; bytes "Server: Lab02a"; bytes "Accept-Ranges: bytes";
   bytes "Content-Length: " ++ print_dec size; bytes "Content-Type: text/html"].

Definition error_headers : list str :=
  [bytes "Date: Wed, 28 Oct 2009 15:24:11 GMT"; bytes "Server: MyServer"; bytes "Connection: close";
   bytes "Transfer-Encoding: chunked"; bytes "Content-Length: " ++ print_dec (Z.of_nat (length error_html));
   bytes "Content-Type: text/html; charset=iso-8859-1"].

Lemma ok_lines_text size body :
  concat (ok_lines size) ++ body = bytes "HTTP/1.1 200 OK" ++ CRLF ++ lines (ok_headers size) ++ CRLF ++ body.
Proof.
  unfold ok_lines, ok_headers, lines, eol. cbn [concat fmap list_fmap]. by rewrite !app_nil_r, <- !(assoc_L (++)).
Qed.

Lemma error_lines_text :
  concat error_lines = bytes "HTTP/1.1 503 Bad Request" ++ CRLF ++ lines error_headers ++ CRLF ++ error_html.
Proof.
  unfold error_lines, error_headers, lines. generalize error_html. intros html. unfold eol. cbn [concat fmap list_fmap].
  by rewrite !app_nil_r, <- !(assoc_L (++)).
Qed.

Lemma digits_line ds : Forall (λ c, is_digit c = true) ds → line ds.
Proof. intros Hd. eapply Forall_impl; [exact Hd|]. intros c Hc E. cbn in Hc. rewrite E in Hc. done. Qed.

(** A literal header line that does not announce a length. *)
Definition plain_header (h : str) : bool :=
  negb (bool_decide (h = [])) && forallb (λ c, negb (c =? CR)) h && bool_decide (string_find lengthString h = None).

Lemma plain_header_ok h n hs : plain_header h = true →
  (h ≠ [] ∧ line h) ∧ content_size n (h :: hs) = content_size n hs.
Proof.
  unfold plain_header. intros [[H1%negb_true_iff%bool_decide_eq_false H2]%andb_true_iff H3%bool_decide_eq_true]%andb_true_iff.
  split; [|cbn [content_size]; by rewrite H3]. split; [done|]. clear -H2. induction h as [|c h IH]; [constructor|]. cbn in H2.
  apply andb_true_iff in H2 as [Hc Hh]. constructor; [|by apply IH]. intros ->. done.
Qed.

(** The header that announces the length. *)
Lemma length_header_ok size n hs : 0 ≤ size < 2 ^ 64 →
  let h := bytes "Content-Length: " ++ print_dec size in
  (h ≠ [] ∧ line h) ∧ content_size n (h :: hs) = content_size size hs.
Proof.
  intros Hs h. destruct (print_dec_ok size ltac:(lia)) as (Hd & _ & _). split.
  - split; [done|]. apply Forall_app. split; [|by apply digits_line].
    assert (E : forallb (λ c, negb (c =? CR)) (bytes "Content-Length: ") = true) by (vm_compute; reflexivity).
    apply Forall_forall. intros c Hc ->. rewrite forallb_forall in E. apply list_elem_of_In in Hc. by specialize (E _ Hc).
  - cbn [content_size]. assert (Ef : string_find lengthString h = Some O).
    { unfold h. change (bytes "Content-Length: ") with (lengthString ++ [SP]). rewrite <- (assoc_L (++)).
      generalize ([SP] ++ print_dec size). intros t. generalize lengthString. intros ls. destruct (ls ++ t) eqn:E; cbn; rewrite <- E;
        by rewrite decide_True by (by rewrite take_app_length). }
    rewrite Ef. assert (El : drop sizeof_lengthString h = print_dec size) by done.
    rewrite decide_False; [by rewrite El, extract_print|]. unfold h. rewrite length_app. change (length (bytes "Content-Length: ")) with sizeof_lengthString. lia.
Qed.

(** Header lines around the one that announces the length. *)
Lemma headers_ok pre post size : forallb plain_header pre = true → forallb plain_header post = true → 0 ≤ size < 2 ^ 64 →
  let hs := pre ++ [bytes "Content-Length: " ++ print_dec size] ++ post in
  Forall (λ h, h ≠ [] ∧ line h) hs ∧ ∀ n, content_size n hs = Some size.
Proof.
  intros Hpre Hpost Hs hs. unfold hs. clear hs. induction pre as [|h pre IH].
  - cbn [app]. destruct (length_header_ok size 0 post Hs) as [Hh _]. split.
    + constructor; [done|]. induction post as [|h post IH]; [constructor|]. cbn in Hpost. apply andb_true_iff in Hpost as [H1 H2].
      constructor; [by apply (plain_header_ok h 0 [])|auto].
    + intros n. destruct (length_header_ok size n post Hs) as [_ ->]. clear -Hpost.
      induction post as [|h post IH]; [done|]. cbn in Hpost. apply andb_true_iff in Hpost as [H1 H2].
      destruct (plain_header_ok h size post H1) as [_ ->]. auto.
  - cbn [forallb] in Hpre. apply andb_true_iff in Hpre as [H1 H2]. destruct (IH H2) as [IH1 IH2]. split.
    + constructor; [by apply (plain_header_ok h 0 [])|done].
    + intros n. etransitivity; [exact (proj2 (plain_header_ok h n (pre ++ [bytes "Content-Length: " ++ print_dec size] ++ post) H1))|apply IH2].
Qed.

(** A response: status line, header lines and body. *)
Definition response_text (r : str * list str * str) : str := r.1.1 ++ CRLF ++ lines r.1.2 ++ CRLF ++ r.2.

Definition response_wf (r : str * list str * str) : Prop :=
  line r.1.1 ∧ Forall (λ h, h ≠ [] ∧ line h) r.1.2 ∧ content_size 0 r.1.2 = Some (Z.of_nat (length r.2)).

(** The reply to a request for [a] as a response. *)
Definition reply_response (a : str) : str * list str * str :=
  let found := match files (c_str (if decide (a = []) then bytes "index.html" else a)) with Opened _ _ => true | NotOpened => false end in
  let ok := bool_decide (a = bytes "stats") || found in
  (if ok then bytes "HTTP/1.1 200 OK" else bytes "HTTP/1.1 503 Bad Request",
   if ok then ok_headers (Z.of_nat (length (body_of a))) else error_headers, body_of a).

Lemma chars_line s : forallb (λ c, negb (c =? CR)) s = true → line s.
Proof.
  intros Hs. apply Forall_forall. intros c Hc ->. rewrite forallb_forall in Hs. apply list_elem_of_In in Hc. by specialize (Hs _ Hc).
Qed.

Lemma ok_wf body : Z.of_nat (length body) < 2 ^ 64 → response_wf (bytes "HTTP/1.1 200 OK", ok_headers (Z.of_nat (length body)), body).
Proof.
  intros Hb. destruct (headers_ok (take 3 (ok_headers 0)) (drop 4 (ok_headers 0)) (Z.of_nat (length body))) as [H1 H2];
    [vm_compute; reflexivity|vm_compute; reflexivity|lia|].
  split_and!; [apply chars_line; vm_compute; reflexivity|exact H1|exact (H2 0)].
Qed.

Lemma error_wf : response_wf (bytes "HTTP/1.1 503 Bad Request", error_headers, error_html).
Proof.
  destruct (headers_ok (take 4 error_headers) (drop 5 error_headers) (Z.of_nat (length error_html))) as [H1 H2];
    [vm_compute; reflexivity|vm_compute; reflexivity|vm_compute; split; congruence|].
  split_and!; [apply chars_line; vm_compute; reflexivity|exact H1|exact (H2 0)].
Qed.

Lemma body_le a : (length (body_of a) ≤ length (reply a))%nat.
Proof.
  unfold body_of, reply. destruct (decide (a = bytes "stats")); [rewrite length_app; lia|].
  destruct (files _); [|rewrite length_app; lia]. rewrite error_lines_text, !length_app. lia.
Qed.

Lemma reply_form a : Z.of_nat (length (body_of a)) < 2 ^ 64 →
  reply a = response_text (reply_response a) ∧ response_wf (reply_response a).
Proof.
  unfold reply, reply_response, body_of, response_text. destruct (decide (a = bytes "stats")) as [E|E].
  - rewrite bool_decide_true by done. intros Hl. split; [apply ok_lines_text|by apply ok_wf].
  - rewrite bool_decide_false by done. destruct (files _) as [|st_size data] eqn:Ef; cbn [orb fst snd].
    + intros _. split; [apply error_lines_text|apply error_wf].
    + destruct (Hfiles _ _ _ Ef) as (content & -> & -> & _). intros Hl. split; [apply ok_lines_text|by apply ok_wf].
Qed.

(** The client reads back what the server sends.  On any lawful iterator, the
    parser of the client takes exactly one reply of the server off the input,
    and the body it finds is what was asked for: the contents of the file, the
    number of requests, or the page that says that there is no such file. *)
Theorem reply_parses {I} `{Input I, !InputLaws I} fuel (i : I) q0 a rest :
  let l := reply a ++ rest in
  reads i l → in_bytesTotal i - in_bytesRead i = Z.of_nat (length l) →
  Z.of_nat (length l) < Z.of_nat fuel < 2 ^ 64 →
  ∃ i' status headers, parseResponse fuel (i, q0) = Done 0 (i', mkResponse status headers (body_of a)) ∧ reads i' rest.
Proof.
  intros l Hi Htot Hf.
  assert (Hlen : Z.of_nat (length (body_of a)) < 2 ^ 64).
  { pose proof (body_le a). unfold l in Hf. rewrite length_app in Hf. lia. }
  destruct (reply_form a Hlen) as [El (Hst & Hhs & Hsz)]. unfold l in *. rewrite El in Hi, Htot, Hf. unfold response_text in *.
  rewrite <- !(assoc_L (++)) in Hi, Htot, Hf. cbn [reply_response fst snd] in *.
  pose proof (parse_response_ok fuel i q0 _ _ (body_of a ++ rest) Hst Hhs Hi Htot Hf) as Hp. rewrite Hsz in Hp.
  rewrite decide_False in Hp by (rewrite length_app; lia). destruct Hp as (i' & Hrun & Hi' & _). rewrite Nat2Z.id in Hrun, Hi'.
  rewrite take_app_length in Hrun. rewrite drop_app_length in Hi'. eauto.
Qed.
End server.

(** One file, and a request that comes in two pieces with an interruption. *)
Definition one_file (name : str) : opened :=
  if decide (name = bytes "x.html") then Opened 5 (Some (bytes "hello")) else NotOpened.

Lemma one_file_ok name st_size data : one_file name = Opened st_size data →
  ∃ content, data = Some content ∧ st_size = Z.of_nat (length content) ∧ st_size ≤ BlockSize.
Proof. unfold one_file. intros H. case_decide; [|done]. injection H as <- <-. by eexists. Qed.

Definition two_gets : list (Request * list str) := [(get_x, get_x_headers); (mkRequest (bytes "GET") [] (bytes "HTTP/1.1"), [])].
Definition two_pieces : list raw :=
  [RBytes (take 20 (texts two_gets)); RIntr; RBytes (drop 20 (texts two_gets)); RAgain].

(** A [startWrite()] whose [write()] accepts all it is given. *)
Definition write_visible : M Connection (list Z) := λ c,
  match visible (out_ c) with
  | Some v => match consume (Z.of_nat (length v)) (out_ c) with
              | Ok _ b => Ok v (put_out (writing_ c) b c)
              | Err e => Err e
              end
  | None => Err Uninit
  end.

Lemma write_visible_sends : sends write_visible.
Proof.
  intros c l Hl _. destruct (visible_ok _ _ Hl) as (v & Hv & _ & [l' ->] & _).
  destruct (consume_ok _ _ (Z.of_nat (length v)) Hl ltac:(lia)) as (b & Hc & Hb). rewrite Nat2Z.id, drop_app_length in Hb.
  exists (put_out (writing_ c) b c), v, l'. unfold write_visible. rewrite Hv, Hc. by split_and!.
Qed.


Lemma reply_parses_witness : ∃ i' status headers,
  parseResponse 500 (text_of (reply one_file 7 (bytes "x.html") ++ bytes "HTTP"), Response_clear) =
    Done 0 (i', mkResponse status headers (bytes "hello")) ∧ text_left i' = bytes "HTTP".
Proof.
  destruct (reply_parses one_file 7 one_file_ok 500 (text_of (reply one_file 7 (bytes "x.html") ++ bytes "HTTP")) Response_clear (bytes "x.html") (bytes "HTTP"))
    as (i' & status & headers & H1 & H2).
  - vm_compute. reflexivity.
  - vm_compute. reflexivity.
  - vm_compute. split; reflexivity.
  - exists i', status, headers. split; [exact H1|exact H2].
Defined.
