(* ===== verification/HttpClientSpec.v ===== *)
(** * What the client side of an HTTP connection guarantees

    Responses reach the callbacks in the order of the requests, however the
    bytes arrive; and a client that talks to a server through the parser, the
    buffers and the connections gets what it asked for. *)

From S2P Require Import Prelude CppString Buffer BufferSpec BufferStream Threads ThreadPool IOManager Connection ConnectionSpec HttpParser HttpParserSpec HttpConnection HttpConnectionSpec.
From stdpp Require Import base numbers list gmap sorting strings.
Open Scope Z_scope.

Definition as_response (r : str * list str * str) : Response := mkResponse r.1.1 (concat r.1.2) r.2.

(** The calls [ks] were made, one for each response. *)
Record answered (s s' : HTTPClientConnection) (ks : list (callback * Response)) : Prop := {
  an_cbs : response_cbs_ s = ks.*1 ++ response_cbs_ s';
  an_delivered : delivered s' = delivered s ++ ks;
  an_notes : notes s' = foldl (λ ns k, call_back k.1 k.2 ns) (notes s) ks;
  an_dropped : dropped s' = dropped s;
  an_sent : client_sent s' = client_sent s;
  an_reader : same_reader (client_base s) (client_base s');
}.

Lemma answered_nil s s' : response_cbs_ s' = response_cbs_ s → delivered s' = delivered s → notes s' = notes s →
  dropped s' = dropped s → client_sent s' = client_sent s → same_reader (client_base s) (client_base s') → answered s s' [].
Proof. intros. split; cbn; rewrite ?app_nil_r; congruence || done. Qed.

Lemma answered_trans s1 s2 s3 ks ks' : answered s1 s2 ks → answered s2 s3 ks' → answered s1 s3 (ks ++ ks').
Proof.
  intros [C1 D1 N1 P1 Q1 R1] [C2 D2 N2 P2 Q2 R2]. split.
  - by rewrite C1, C2, fmap_app, (assoc_L (++)).
  - by rewrite D2, D1, (assoc_L (++)).
  - by rewrite N2, N1, foldl_app.
  - congruence.
  - congruence.
  - by eapply same_reader_trans.
Qed.

(** A response goes to the first callback. *)
Lemma handleResponse_ok r s cb cbs : response_cbs_ s = cb :: cbs →
  ∃ s', handleResponse r s = Ok true s' ∧ answered s s' [(cb, r)] ∧ response_cbs_ s' = cbs ∧ client_base s' = client_base s.
Proof.
  intros E. unfold handleResponse. rewrite E. eexists. split; [done|]. split; [|done].
  by split.
Qed.

(** An iterator whose budget is used up is at the end, also after the buffer it
    was taken from was consumed. *)
Lemma irep_end b b' it rest : irep b it rest → eob b' it = true → rest = [].
Proof.
  intros Hit He. pose proof (eob_ok _ _ _ Hit) as E. unfold eob in *. destruct (negb (budget_ it =? 0)) eqn:Eb; [done|].
  destruct Hit as (ini & lst & d & Hb & Hd & Ho & Hst & Hbud & _ & ->).
  apply negb_false_iff, Z.eqb_eq in Eb. destruct Hst as [?|Hst]; [lia|]. rewrite Hst, lst_lookup in Hd. injection Hd as <-.
  rewrite (drop_ge (ini ++ [lst])) by (rewrite length_app, Hst; cbn; lia). by rewrite (drop_ge lst) by lia.
Qed.

(** ** Many responses *)

Definition response_texts (rs : list (str * list str * str)) : str := concat (response_text <$> rs).

Definition unfinished (rs : list (str * list str * str)) (rest : str) : Prop :=
  match rs with r :: _ => ¬ (response_text r `prefix_of` rest) | [] => True end.

Lemma response_texts_app rs rs' : response_texts (rs ++ rs') = response_texts rs ++ response_texts rs'.
Proof. unfold response_texts. by rewrite fmap_app, concat_app. Qed.

Lemma unfinished_nil rs : unfinished rs [].
Proof.
  destruct rs as [|r rs]; [done|]. intros [k E]. apply (f_equal length) in E. unfold response_text in E.
  rewrite !length_app in E. cbn in E. lia.
Qed.

(** One turn of the loop, as the parser returns. *)
Lemma client_turn pf s r' rc it' it :
  begin_ (in_ (client_base s)) = Ok it (in_ (client_base s)) →
  parseResponse_in (in_ (client_base s)) pf (it, Response_clear) = Done rc (it', r') →
  ∀ fuel, client_loop (S fuel) pf s =
    (if rc <? 0 then mret false
     else if 0 <? rc then mret true
     else
       super (on_in (consume (bytes_read_ it')));;
       ok ← handleResponse r';
       if negb ok then mret false
       else c' ← gets client_base; if eob (in_ c') it' then mret true else client_loop fuel pf) s.
Proof.
  intros Hb Hp fuel. cbn [client_loop]. rewrite (bind_ok _ _ _ _ _ (gets_ok _ _)). by rewrite Hb, Hp.
Qed.

(** One response that is there in full. *)
Lemma client_one pf s r rest cb cbs :
  response_wf r → parsable (in_ (client_base s)) (response_text r ++ rest) →
  Z.of_nat (length (response_text r ++ rest)) < Z.of_nat pf < 2 ^ 64 → response_cbs_ s = cb :: cbs →
  ∃ s1 it', (∀ fuel, client_loop (S fuel) pf s = (if eob (in_ (client_base s1)) it' then mret true else client_loop fuel pf) s1) ∧
    (eob (in_ (client_base s1)) it' = true → rest = []) ∧ parsable (in_ (client_base s1)) rest ∧
    answered s s1 [(cb, as_response r)] ∧ response_cbs_ s1 = cbs ∧ out_ (client_base s1) = out_ (client_base s).
Proof.
  intros (Hst & Hhs & Hsz) Hf Hpf Ecb. pose proof Hf as (Hh & Hrd & Hi).
  destruct (begin_ok _ _ Hh Hrd Hi ltac:(lia)) as (it & Hbeg & Hit & Hr0 & Ht). pose (L := buffer_laws (in_ (client_base s))).
  pose proof (@parse_response_ok Iterator (buffer_input (in_ (client_base s))) L pf it Response_clear r.1.1 r.1.2 (r.2 ++ rest) Hst Hhs) as Hp.
  unfold response_text in Hit, Ht, Hpf. rewrite <- !(assoc_L (++)) in Hit, Ht, Hpf. cbn [in_bytesTotal in_bytesRead buffer_input] in Hp.
  specialize (Hp Hit ltac:(rewrite Ht, Hr0; apply Z.sub_0_r) Hpf). rewrite Hsz, decide_False, Nat2Z.id, take_app_length, drop_app_length in Hp
    by (rewrite length_app; lia).
  destruct Hp as (it' & Hrun & Hit' & Hm & _). cbn [in_bytesRead buffer_input] in Hm. rewrite Hr0 in Hm.
  destruct (parsable_consume _ _ (bytes_read_ it') Hf ltac:(lia)) as (b1 & Hc1 & Hf1).
  replace (Z.to_nat (bytes_read_ it')) with (length (response_text r)) in Hf1.
  2:{ rewrite Hm, Z.add_0_l, Nat2Z.id. unfold response_text. rewrite !length_app. lia. }
  rewrite drop_app_length in Hf1. set (s0 := set_base (put_in b1 (client_base s)) s).
  destruct (handleResponse_ok (as_response r) s0 cb cbs Ecb) as (s1 & Hr1 & Han & Ecbs & Ebase).
  exists s1, it'. split.
  { intros fuel. rewrite (client_turn pf s (as_response r) 0 it' it Hbeg Hrun). cbn [Z.ltb Z.compare].
    rewrite (bind_ok _ _ s tt s0). 2:{ unfold super, on_in, zoom. cbn [base_of client_sub client_base]. by rewrite Hc1. }
    rewrite (bind_ok _ _ _ _ _ Hr1). cbn [negb]. by rewrite (bind_ok _ _ _ _ _ (gets_ok _ _)). }
  rewrite Ebase. split; [intros He; exact (irep_end _ _ _ _ Hit' He)|]. split; [done|]. split; [|done].
  destruct Han as [C1 D1 N1 P1 Q1 R1]. by split.
Qed.

Lemma client_loop_ok pf rs : ∀ fuel s rest,
  Forall response_wf rs → parsable (in_ (client_base s)) rest → rest `prefix_of` response_texts rs →
  last rest ≠ Some CR → (length rs < fuel)%nat → Z.of_nat (length rest) < Z.of_nat pf < 2 ^ 64 →
  (length rs ≤ length (response_cbs_ s))%nat →
  ∃ s' j rest' ks, client_loop fuel pf s = Ok true s' ∧ rest = response_texts (take j rs) ++ rest' ∧
    parsable (in_ (client_base s')) rest' ∧ rest' `prefix_of` response_texts (drop j rs) ∧ unfinished (drop j rs) rest' ∧
    answered s s' ks ∧ ks.*2 = as_response <$> take j rs ∧ out_ (client_base s') = out_ (client_base s).
Proof.
  assert (Hwait : ∀ pf fuel s rest r k, response_wf r → rest ++ k = response_text r → k ≠ [] → last rest ≠ Some CR →
    parsable (in_ (client_base s)) rest → Z.of_nat (length rest) < Z.of_nat pf < 2 ^ 64 → client_loop (S fuel) pf s = Ok true s).
  { clear. intros pf fuel s rest r k (Hst & Hhs & Hsz) E Hk Hcr (Hh & Hrd & Hi) Hpf.
    destruct (begin_ok _ _ Hh Hrd Hi ltac:(lia)) as (it & Hbeg & Hit & Hr0 & Ht).
    destruct (@response_waits Iterator (buffer_input (in_ (client_base s))) (buffer_laws (in_ (client_base s))) pf it Response_clear
      r.1.1 r.1.2 r.2 rest k Hst Hhs Hsz E Hk Hcr Hit) as ([it' r'] & Hp); [cbn; lia|done|].
    by rewrite (client_turn pf s r' 1 it' it Hbeg Hp). }
  assert (Hstay : ∀ s : HTTPClientConnection, answered s s []) by (intros s; apply answered_nil; try done; apply same_reader_refl).
  induction rs as [|r rs IH]; intros fuel s rest Hrs Hf Hpre Hcr Hfuel Hpf Hcbs; (destruct fuel as [|fuel]; [cbn in *; lia|]).
  - apply prefix_nil_inv in Hpre as ->. exists s, O, [], []. split_and!; try done.
    by apply (Hwait pf fuel s [] (bytes "HTTP/1.1 503 Bad Request", error_headers, error_html) (response_text (bytes "HTTP/1.1 503 Bad Request", error_headers, error_html)) error_wf).
  - apply Forall_cons in Hrs as [Hr Hrs]. change (response_texts (r :: rs)) with (response_text r ++ response_texts rs) in *.
    destruct (decide (response_text r `prefix_of` rest)) as [[rest1 ->]|Hnp].
    + apply prefix_app_inv in Hpre. destruct (response_cbs_ s) as [|cb cbs] eqn:Ecb; [cbn in Hcbs; lia|].
      destruct (client_one pf s r rest1 cb cbs Hr Hf Hpf Ecb) as (s1 & it' & Hrun & Hend & Hf1 & Han & Ecb1 & Eout).
      rewrite length_app in Hpf. rewrite Hrun. destruct (eob (in_ (client_base s1)) it') eqn:Ee.
      * rewrite (Hend eq_refl) in *. exists s1, 1%nat, [], [(cb, as_response r)].
        split_and!; try done; [|apply unfinished_nil].
        unfold response_texts. cbn [take fmap list_fmap concat]. by rewrite !app_nil_r.
      * destruct (IH fuel s1 rest1) as (s' & j & rest' & ks & Hrun' & Erest & Hf' & Hpre' & Hinc' & Han' & Eks & Eout'); try done.
        { by eapply last_app_ne. } { cbn in Hfuel. lia. } { lia. } { rewrite Ecb1. cbn in Hcbs. lia. }
        exists s', (S j), rest', ((cb, as_response r) :: ks). split; [exact Hrun'|].
        change (response_texts (take (S j) (r :: rs))) with (response_text r ++ response_texts (take j rs)).
        split_and!; try done; [by rewrite Erest, (assoc_L (++))|exact (answered_trans _ _ _ _ _ Han Han')|cbn; by rewrite Eks|congruence].
    + assert (Hpt : rest `prefix_of` response_text r).
      { destruct (prefix_weak_total rest (response_text r) (response_text r ++ response_texts rs)) as [?|?]; try done. by apply prefix_app_r. }
      destruct Hpt as [k Ek]. exists s, O, rest, []. split_and!; try done.
      apply (Hwait pf fuel s rest r k); try done. intros ->. rewrite app_nil_r in Ek. apply Hnp. by rewrite Ek.
Qed.

(** [got] has arrived: some responses were delivered, the rest is in the buffer. *)
Definition receiving (rs : list (str * list str * str)) (s0 s : HTTPClientConnection) (got : list Z) : Prop :=
  ∃ j rest ks, got = response_texts (take j rs) ++ rest ∧ parsable (in_ (client_base s)) rest ∧
    rest `prefix_of` response_texts (drop j rs) ∧ (got ≠ [] → unfinished (drop j rs) rest) ∧
    ks.*2 = as_response <$> take j rs ∧
    response_cbs_ s0 = ks.*1 ++ response_cbs_ s ∧ delivered s = delivered s0 ++ ks ∧
    notes s = foldl (λ ns k, call_back k.1 k.2 ns) (notes s0) ks ∧ dropped s = dropped s0.

(** [readDone()] after a piece has arrived. *)
Lemma receiving_step rs n s0 s got data :
  Forall response_wf rs → (length rs < n)%nat → Z.of_nat (length (response_texts rs)) < Z.of_nat n < 2 ^ 64 →
  (length rs ≤ length (response_cbs_ s0))%nat →
  receiving rs s0 s got → data ≠ [] → Z.of_nat (length data) ≤ writeSize (in_ (client_base s)) →
  last data ≠ Some CR → got ++ data `prefix_of` response_texts rs →
  ∃ b s', (poke data;; advance (Z.of_nat (length data))) (in_ (client_base s)) = Ok true b ∧
    client_readDone n (set_base (put_in b (client_base s)) s) = Ok true s' ∧
    receiving rs s0 s' (got ++ data) ∧ same_reader (client_base s) (client_base s').
Proof.
  intros Hrs Hn1 Hn2 Hcbs (j & rest & ks & -> & Hin & Hpre & _ & Eks & Ecbs & Edel & Enot & Edrop) Hne Hw Hcr Hgot.
  destruct (parsable_fill _ _ data Hin Hne Hw) as (b & Hfill & Hin'). rewrite <- (take_drop j rs) in Hgot at 2.
  rewrite response_texts_app, <- (assoc_L (++)) in Hgot. apply prefix_app_inv in Hgot.
  assert (Hle : (length (rest ++ data) ≤ length (response_texts rs))%nat).
  { apply prefix_length in Hgot. assert (E : length (response_texts rs) = (length (response_texts (take j rs)) + length (response_texts (drop j rs)))%nat)
      by (by rewrite <- length_app, <- response_texts_app, take_drop). lia. }
  assert (Hlen : (length (drop j rs) ≤ length (response_cbs_ s))%nat).
  { apply (f_equal length) in Ecbs, Eks. rewrite length_app, length_fmap in Ecbs. rewrite !length_fmap, length_take in Eks.
    rewrite length_drop. lia. }
  destruct (client_loop_ok n (drop j rs) n (set_base (put_in b (client_base s)) s) (rest ++ data)) as
    (s' & k & rest' & ks' & Hrun & Erest & Hin2 & Hpre' & Hinc' & [C1 D1 N1 P1 _ R1] & Eks' & _); try done.
  { by apply Forall_drop. } { by rewrite last_nonempty. } { rewrite length_drop. lia. } { lia. }
  exists b, s'. split_and!; try done. exists (j + k)%nat, rest', (ks ++ ks'). cbn in C1, D1, N1, P1. split_and!; try done.
  - rewrite take_plus, response_texts_app, <- !(assoc_L (++)). by rewrite <- Erest.
  - by rewrite <- drop_drop.
  - intros _. by rewrite <- drop_drop.
  - by rewrite take_plus, !fmap_app, Eks, Eks'.
  - by rewrite Ecbs, C1, fmap_app, (assoc_L (++)).
  - by rewrite D1, Edel, (assoc_L (++)).
  - by rewrite N1, Enot, foldl_app.
  - congruence.
Qed.

(** A client connection that has started to read and has not received anything. *)
Record listening (s : HTTPClientConnection) : Prop := {
  ls_in : parsable (in_ (client_base s)) [];
  ls_alive : deleted (client_base s) = false;
  ls_desc : is_Some (io_desc_ (client_base s));
  ls_refs : 0 < refs_ (client_base s);
}.

(** Pieces of at most 1024 bytes, none of which ends in a carriage return. *)
Definition pieces (script : list raw) : Prop :=
  Forall (λ r, match r with RBytes d => (length d ≤ 1024)%nat ∧ last d ≠ Some CR | _ => True end) script.

(** All the responses arrive. *)
Lemma client_receives rs s script n fuel :
  listening s → Forall response_wf rs → (length rs ≤ length (response_cbs_ s))%nat →
  (length rs < n)%nat → Z.of_nat (length (response_texts rs)) < Z.of_nat n < 2 ^ 64 →
  script_data script = response_texts rs → script_stop script = Some true → pieces script → (script_size script < fuel)%nat →
  ∃ s', doRead (client_readDone n) fuel script s = Ok tt s' ∧
    delivered s' = delivered s ++ zip (response_cbs_ s) (as_response <$> rs) ∧
    response_cbs_ s' = drop (length rs) (response_cbs_ s) ∧
    notes s' = foldl (λ ns k, call_back k.1 k.2 ns) (notes s) (zip (response_cbs_ s) (as_response <$> rs)) ∧
    dropped s' = dropped s ∧ listening s'.
Proof.
  intros [Hin Hdel Hdesc Hrefs] Hrs Hcbs Hn1 Hn2 Hdata Hstop Hpc Hfuel.
  destruct (doRead_ok (client_readDone n) (receiving rs s) (λ d, last d ≠ Some CR)
    (λ x, x `prefix_of` response_texts rs) (λ _, False)) with (fuel := fuel) (script := script) (s := s) (got0 := @nil Z)
    as (s' & got & again & Hrun & Hpre & Hrec & Hcase & started & Hst & Hrefs').
  - intros s1 c got (j & rest & ks & ? & ? & ? & ? & ? & ? & ? & ? & ?) E1 E2 _. exists j, rest, ks. cbn in *. by rewrite E1.
  - intros s1 got (j & rest & ks & ? & Hin1 & ?). destruct (parsable_reserve _ _ 1024 Hin1) as (b & Hr & Hb & Hw); [unfold BlockSize; lia|].
    exists b. split_and!; try done. by exists j, rest, ks.
  - intros s1 got data Hs Hne Hw Hq Hg _.
    destruct (receiving_step rs n s s1 got data) as (b & s2 & H1 & H2 & H3 & H4); try done. exists b, true, s2. by split_and!.
  - exists O, [], []. split_and!; try done; [apply prefix_nil|by rewrite app_nil_r].
  - done.
  - done.
  - done.
  - by rewrite Hstop.
  - eapply Forall_impl; [exact Hpc|]. intros [|d| |]; try done. intros [? ?]. by left.
  - intros p Hp. by rewrite <- Hdata.
  - done.
  - rewrite Hstop in Hcase. destruct Hcase as [[-> [= <-]]|[_ []]]. destruct Hrefs' as (Er & Hd' & Hdesc').
    exists s'. split; [done|]. rewrite Hdata in Hrec. cbn in Hrec.
    destruct Hrec as (j & rest & ks & E & Hin' & Hp & Hinc & Eks & Ecbs & Edel & Enot & Edrop).
    assert (Hj : take j rs = rs ∧ rest = []).
    { destruct (decide (length rs ≤ j)%nat) as [Hj|Hj].
      - rewrite take_ge in * by done. rewrite drop_ge in Hp by done. by apply prefix_nil_inv in Hp as ->.
      - rewrite <- (take_drop j rs), response_texts_app in E at 1. apply app_inv_head in E. subst rest.
        destruct (drop j rs) as [|r rs'] eqn:Ed; [apply (f_equal length) in Ed; rewrite length_drop in Ed; cbn in Ed; lia|].
        destruct Hinc; [|by apply prefix_app_r]. rewrite <- (take_drop j rs), Ed, response_texts_app. cbn.
        intros [_ [[_ Hx]%app_nil _]%app_nil]%app_nil. done. }
    destruct Hj as [Ej ->]. rewrite Ej in Eks.
    assert (Ez : zip (response_cbs_ s) (as_response <$> rs) = ks).
    { rewrite <- Eks, Ecbs. rewrite <- (app_nil_r ks.*2), zip_with_app by (by rewrite !length_fmap).
      by rewrite zip_fst_snd, zip_with_nil_r, app_nil_r. }
    rewrite Ez, Ecbs. split_and!; try done.
    + rewrite drop_app_length'; [done|]. by rewrite length_fmap, <- (length_fmap snd ks), Eks, length_fmap.
    + split; [done|done| |cbn in Er; lia].
      destruct Hdesc as [d Hd]. cbn in Hdesc'. rewrite Hd in Hdesc'. by destruct (io_desc_ (client_base s')); [eexists|].
Qed.

(** ** A client and a server *)

(** The request as the user writes it: [toBuffer] does not add the slash. *)
Definition with_slash (r : Request) : Request := mkRequest (method r) (SLASH :: address r) (version r).

(** What the client has sent and what is in its output buffer make up [x]. *)
Definition client_streams (s : HTTPClientConnection) (x : list Z) : Prop :=
  ∃ l, holds (out_ (client_base s)) l ∧ x = client_sent s ++ l.

Lemma client_streams_fun s x x' : client_streams s x → client_streams s x' → x = x'.
Proof. intros (l & Hl & ->) (l' & Hl' & ->). by rewrite (holds_fun _ _ _ Hl Hl'). Qed.

Section session.
Context (client_start server_start : M Connection (list Z)) (files : str → opened) (reqsLastSec : Z).
Context (Hcw : sends client_start) (Hsw : sends server_start).
Context (Hfiles : ∀ name st_size data, files name = Opened st_size data →
  ∃ content, data = Some content ∧ st_size = Z.of_nat (length content) ∧ st_size ≤ BlockSize).

(** Requests sent one after the other. *)
Fixpoint send_all (rqs : list (Request * callback)) : M HTTPClientConnection unit :=
  match rqs with
  | [] => mret tt
  | (r, cb) :: rqs' => asyncSend client_start r cb;; send_all rqs'
  end.

Lemma asyncSend_ok r cb s x : listening s → client_streams s x → no_nul r →
  ∃ s', asyncSend client_start (with_slash r) cb s = Ok tt s' ∧ listening s' ∧
    client_streams s' (x ++ request_text r []) ∧ response_cbs_ s' = response_cbs_ s ++ [cb] ∧
    delivered s' = delivered s ∧ notes s' = notes s.
Proof.
  intros [Hin Hdel Hdesc Hrefs] (l & Hl & ->) Hn.
  assert (Hn' : no_nul (with_slash r)).
  { revert Hn. unfold no_nul, with_slash. cbn [method address version]. rewrite !Forall_app. intros (? & ? & ?). split_and!; try done. by constructor. }
  destruct (toBuffer_ok (with_slash r) _ l Hn' Hl) as (b & Hr & _ & Hb).
  unfold asyncSend. erewrite bind_ok by reflexivity.
  set (s1 := mkClient (client_base s) (response_cbs_ s ++ [cb]) (notes s) (connected s) (delivered s) (dropped s) (client_sent s)).
  set (s2 := set_base (put_out (writing_ (client_base s)) b (client_base s)) s1).
  rewrite (bind_ok _ _ s1 tt s2). 2:{ unfold super, on_out, zoom. cbn [base_of client_sub client_base s1]. by rewrite Hr. }
  destruct (Hcw (client_base s2) _ Hb Hdel) as (c' & d & l' & Hw & El & Hl' & Ein & Eref & Edel & Edesc).
  unfold client_write. rewrite (bind_ok _ _ s2 d (set_base c' s2)) by (unfold super; by apply zoom_ok).
  eexists. split; [done|]. split; [split; cbn; [by rewrite Ein|by rewrite Edel| |cbn in Eref; lia]|split_and!; try done].
  - destruct Hdesc as [e He]. cbn in Edesc. rewrite He in Edesc. by destruct (io_desc_ c'); [eexists|].
  - exists l'. split; [done|]. cbn. rewrite <- !(assoc_L (++)), <- El. done.
Qed.

Lemma send_all_ok reqs : ∀ cbs s x, listening s → client_streams s x → Forall no_nul reqs → length cbs = length reqs →
  ∃ s', send_all (zip (with_slash <$> reqs) cbs) s = Ok tt s' ∧ listening s' ∧
    client_streams s' (x ++ texts ((λ r, (r, [])) <$> reqs)) ∧ response_cbs_ s' = response_cbs_ s ++ cbs ∧
    delivered s' = delivered s ∧ notes s' = notes s.
Proof.
  induction reqs as [|r reqs IH]; intros [|cb cbs] s x Hls Hl Hn Hlen; try done.
  - exists s. rewrite !app_nil_r. by split_and!.
  - apply Forall_cons in Hn as [Hr Hn].
    destruct (asyncSend_ok r cb s x Hls Hl Hr) as (s1 & Hr1 & Hls1 & Q1 & C1 & D1 & N1).
    destruct (IH cbs s1 _ Hls1 Q1 Hn ltac:(cbn in Hlen; lia)) as (s' & Hr2 & Hls2 & Q2 & C2 & D2 & N2).
    exists s'. cbn [fmap list_fmap zip_with send_all]. rewrite (bind_ok _ _ _ _ _ Hr1). split_and!; try done; try congruence.
    + by rewrite <- (assoc_L (++)) in Q2.
    + by rewrite C2, C1, <- (assoc_L (++)).
Qed.

(** The replies of the server are responses. *)
Lemma replies_texts qs : Z.of_nat (length (replies files reqsLastSec qs)) < 2 ^ 64 →
  replies files reqsLastSec qs = response_texts ((λ q, reply_response files reqsLastSec (address q.1)) <$> qs) ∧
  Forall response_wf ((λ q, reply_response files reqsLastSec (address q.1)) <$> qs).
Proof.
  induction qs as [|q qs IH]; intros Hl; [by split|].
  change (replies files reqsLastSec (q :: qs)) with (reply files reqsLastSec (address q.1) ++ replies files reqsLastSec qs) in *.
  rewrite length_app in Hl. pose proof (body_le files reqsLastSec (address q.1)) as Hb.
  destruct (reply_form files reqsLastSec Hfiles (address q.1) ltac:(lia)) as [E Hwf]. destruct IH as [E' Hwf']; [lia|].
  split; [rewrite E, E'; done|by constructor].
Qed.

End session.

(** A client whose connect was under way and has succeeded. *)
Definition connected_client : HTTPClientConnection :=
  let env := mkEnv 6 (-1) EINPROGRESS 0 in
  match (connect (λ _, []) env;; super (on_io_desc writeIfWaiting);; doConnect (λ _, []) connDone env) HTTPClientConnection_init with
  | Ok _ s => s
  | Err _ => HTTPClientConnection_init
  end.

Lemma connected_listening : listening connected_client.
Proof. split; [apply parsable_init|reflexivity|by eexists|reflexivity]. Qed.

Definition cut (k : nat) (d : list Z) : list raw := [RBytes (take k d); RIntr; RBytes (drop k d); RAgain].

Local Ltac check_script :=
  first [vm_compute; reflexivity
        |apply (bool_decide_unpack _); vm_compute; exact I
        |unfold pieces, cut; repeat (apply Forall_cons; split); try exact I;
         try (split; apply (bool_decide_unpack _); vm_compute; exact I); apply Forall_nil; exact I].

Definition x_text : str := request_text get_x [].
Definition x_reply : str := reply one_file 7 (bytes "x.html").

