(* ===== verification/Acceptor.v ===== *)
(** * Accepting connections ([acceptor.cpp], [http_service.cpp])

    An acceptor owns a listening socket and a descriptor of the I/O manager; for
    each connection it calls a callback, which for the HTTP service starts a
    server connection.  What the system calls return is an argument; the calls
    of the callback are recorded. *)

From S2P Require Import Prelude CppString Threads ThreadPool IOManager Connection HttpConnection.
From stdpp Require Import base numbers list gmap sorting.
Open Scope Z_scope.

Definition cb_doAccept : task := 4%nat.
Definition cb_noOp : task := 5%nat.

Record Acceptor : Type := mkAcceptor {
  listen_fd_ : Z;
  io_descr_ : option Descriptor;    (* None: NULL *)
  accept_cb_ : bool;                (* not NULL *)
  accepted : list Z;                (* ghost: the calls of accept_cb_ *)
  acc_tasks : list task;            (* handed to the pool *)
  acc_closed : list Z;              (* ::close() *)
  del_descs : list Descriptor;      (* io_manager_->delDescriptor() *)
}.

Definition put_acc_desc (d : option Descriptor) (ts : list task) (a : Acceptor) : Acceptor :=
  mkAcceptor (listen_fd_ a) d (accept_cb_ a) (accepted a) (acc_tasks a ++ ts) (acc_closed a) (del_descs a).

(** The calls [socket], [bind] and [listen]; any failure exits. *)
Definition Acceptor_init (socket_res bind_res listen_res : Z) (cb : bool) : option Acceptor :=
  if socket_res <? 0 then None
  else if bind_res <? 0 then None
  else if listen_res <? 0 then None
  else Some (mkAcceptor socket_res (Some (Descriptor_init socket_res (Some cb_doAccept) (Some cb_noOp))) cb [] [] [] []).

Definition close (a : Acceptor) : Acceptor :=
  mkAcceptor (listen_fd_ a) None (accept_cb_ a) (accepted a) (acc_tasks a) (acc_closed a ++ [listen_fd_ a])
    (del_descs a ++ option_list (io_descr_ a)).

(** [~Acceptor()] *)
Definition Acceptor_destroy (a : Acceptor) : Acceptor :=
  let a' := match io_descr_ a with Some _ => close a | None => a end in
  mkAcceptor (listen_fd_ a') (io_descr_ a') false (accepted a') (acc_tasks a') (acc_closed a') (del_descs a').

Definition startAccept : M Acceptor unit := λ a,
  match io_descr_ a with
  | None => Err (Segv 0)
  | Some d => let '(d', ts) := readWhenReady d in Ok tt (put_acc_desc (Some d') ts a)
  end.

(** What one call of [accept] gives: [EINTR] or [ECONNABORTED], a socket, nothing
    there ([EAGAIN]), or another error. *)
Inductive acc : Type :=
| AIntr
| AFd (fd : Z)
| AAgain
| AErr.

Fixpoint socketAccept (script : list acc) : option (acc * list acc) :=
  match script with
  | [] => None
  | AIntr :: s => socketAccept s
  | r :: s => Some (r, s)
  end.

Section accepting.

(** The effect of the callback on the acceptor: it may close it. *)
Context (on_accept : Z → Acceptor → Acceptor).

(** [if (accept_cb_ != NULL) ( *accept_cb_)(fd)] *)
Definition call_accept (fd : Z) (a : Acceptor) : Acceptor :=
  if accept_cb_ a then
    on_accept fd (mkAcceptor (listen_fd_ a) (io_descr_ a) (accept_cb_ a) (accepted a ++ [fd]) (acc_tasks a) (acc_closed a) (del_descs a))
  else a.

(** [while (true)]: one turn per connection. *)
Fixpoint doAccept (fuel : nat) (script : list acc) : M Acceptor unit :=
  match fuel with
  | O => fail OutOfFuel
  | S fuel' =>
    match socketAccept script with
    | None => fail OutOfFuel
    | Some (AAgain, _) => startAccept
    | Some (AFd fd, script') => modify (call_accept fd);; doAccept fuel' script'
    | Some (_, script') => modify (call_accept (-1));; doAccept fuel' script'
    end
  end.
End accepting.

(** ** The callback of the HTTP service *)

(** What [acceptConnection(client_fd)] does: nothing once the service is
    stopped, stop the service, or create a connection. *)
Inductive accept_action : Type :=
| Ignore
| StopService
| NewConnection (client_fd : Z).

Definition acceptConnection (service_stopped : bool) (client_fd : Z) : accept_action :=
  if service_stopped then Ignore
  else if client_fd <? 0 then StopService
  else NewConnection client_fd.

(** [asyncConnect(host, port, cb)] creates a client connection and connects it;
    once the service is stopped it does nothing, and [cb] is not called. *)
Definition asyncConnect (service_stopped : bool) (strerror : Z → str) (env : ConnectEnv) : option (res HTTPClientConnection unit) :=
  if service_stopped then None else Some (HttpConnection.connect strerror env HTTPClientConnection_init).

(** Its effect on the acceptor it is called from: [stop()] closes the acceptors
    of the service.  A service is stopped once its acceptors are closed. *)
Definition http_accept (client_fd : Z) (a : Acceptor) : Acceptor :=
  match acceptConnection (bool_decide (io_descr_ a = None)) client_fd with
  | StopService => close a
  | _ => a
  end.

(** ** What the loop guarantees *)

(** The sockets that the script brings. *)
Fixpoint arrivals (script : list acc) : list Z :=
  match script with
  | [] => []
  | AFd fd :: s => fd :: arrivals s
  | AErr :: s => (-1) :: arrivals s
  | _ :: s => arrivals s
  end.

(** A script that goes on until nothing is there. *)
Fixpoint ends_waiting (script : list acc) : bool :=
  match script with
  | [] => false
  | AAgain :: _ => true
  | _ :: s => ends_waiting s
  end.

(** What comes before the first [EAGAIN]. *)
Fixpoint before_again (script : list acc) : list acc :=
  match script with
  | [] => []
  | AAgain :: _ => []
  | r :: s => r :: before_again s
  end.

(** The calls for [fds], by a callback that leaves the acceptor alone. *)
Definition called (fds : list Z) (a : Acceptor) : Acceptor :=
  mkAcceptor (listen_fd_ a) (io_descr_ a) (accept_cb_ a) (accepted a ++ (if accept_cb_ a then fds else [])) (acc_tasks a) (acc_closed a) (del_descs a).

Lemma called_nil a : called [] a = a.
Proof. destruct a as [? ? cb ? ? ? ?]. unfold called. cbn. by destruct cb; rewrite app_nil_r. Qed.

Lemma called_cons on_accept fd fds a : (∀ a', on_accept fd a' = a') →
  called fds (call_accept on_accept fd a) = called (fd :: fds) a.
Proof.
  intros Hcb. destruct a as [? ? cb ? ? ? ?]. unfold called, call_accept. rewrite Hcb. cbn.
  destruct cb; cbn; by rewrite ?app_nil_r, <- ?app_assoc.
Qed.

(** Interruptions are retried. *)
Lemma socketAccept_ok script : ends_waiting script = true →
  match socketAccept script with
  | None => False
  | Some (AIntr, _) => False
  | Some (AAgain, _) => arrivals (before_again script) = []
  | Some (AFd fd, s) => ends_waiting s = true ∧ (length s < length script)%nat ∧ arrivals (before_again script) = fd :: arrivals (before_again s)
  | Some (AErr, s) => ends_waiting s = true ∧ (length s < length script)%nat ∧ arrivals (before_again script) = (-1) :: arrivals (before_again s)
  end.
Proof.
  induction script as [|[|fd| |] script IH]; intros He; cbn in *; try done; try (split_and!; [done|lia|done]).
  specialize (IH He). destruct (socketAccept script) as [[[|fd| |] s]|]; try done; destruct IH as (? & ? & ?); split_and!; done || lia.
Qed.

Lemma doAccept_ok on_accept fuel : ∀ script a, ends_waiting script = true → (length script < fuel)%nat →
  (∀ fd a', fd ∈ arrivals (before_again script) → on_accept fd a' = a') →
  doAccept on_accept fuel script a = startAccept (called (arrivals (before_again script)) a).
Proof.
  induction fuel as [|fuel IH]; intros script a He Hf Hcb; [lia|].
  pose proof (socketAccept_ok script He) as Hs. cbn [doAccept]. destruct (socketAccept script) as [[[|fd| |] s]|]; try done.
  2:{ by rewrite Hs, called_nil. }
  all: destruct Hs as (He' & Hl & E); rewrite E in *; unfold mbind, M_bind, modify.
  all: rewrite IH by (done || lia || (intros; apply Hcb; by constructor)).
  all: rewrite called_cons; [done|]; intros; apply Hcb; by constructor.
Qed.

(** C37: The accept loop of the HTTP service takes every connection that is there.
    For any sequence of sockets, with interrupted and aborted calls in between,
    that ends when nothing more is there, [doAccept()] returns, the callback was
    called once for each socket, in order, with that socket, and the acceptor is
    registered for the next event: a task is submitted if the event has
    come in the meantime, otherwise the descriptor waits. *)
Theorem accept_all fuel script a d :
  ends_waiting script = true → (length script < fuel)%nat → Forall (λ fd, 0 ≤ fd) (arrivals (before_again script)) →
  io_descr_ a = Some d → accept_cb_ a = true →
  ∃ a', doAccept http_accept fuel script a = Ok tt a' ∧
    accepted a' = accepted a ++ arrivals (before_again script) ∧
    acceptConnection false <$> arrivals (before_again script) = NewConnection <$> arrivals (before_again script) ∧
    io_descr_ a' = Some (readWhenReady d).1 ∧
    (if can_read_ d then acc_tasks a' = acc_tasks a ++ option_list (read_cb_ d)
     else acc_tasks a' = acc_tasks a ∧ waiting_read_ (readWhenReady d).1 = true) ∧
    acc_closed a' = acc_closed a.
Proof.
  intros He Hf Hpos Hd Hcb.
  rewrite (doAccept_ok http_accept) by (done || (intros fd a' Hin; rewrite Forall_forall in Hpos; specialize (Hpos _ Hin);
    unfold http_accept, acceptConnection; destruct (bool_decide _); [done|]; by destruct (Z.ltb_spec fd 0); [lia|])).
  unfold startAccept, called. cbn. rewrite Hd, Hcb. unfold readWhenReady. destruct (can_read_ d); cbn; (eexists; split; [done|]); cbn;
    rewrite ?app_nil_r; split_and!; try done; apply list_fmap_ext; intros i fd Hi; rewrite Forall_lookup in Hpos; specialize (Hpos _ _ Hi);
    unfold acceptConnection; by destruct (Z.ltb_spec fd 0); [lia|].
Qed.

Definition listening_acceptor : Acceptor := default (mkAcceptor 0 None false [] [] [] []) (Acceptor_init 3 0 0 true).

Lemma accept_all_witness : ∃ a',
  doAccept http_accept 10 [AFd 7; AIntr; AFd 8; AAgain] listening_acceptor = Ok tt a' ∧ accepted a' = [7; 8].
Proof.
  destruct (accept_all 10 [AFd 7; AIntr; AFd 8; AAgain] listening_acceptor (Descriptor_init 3 (Some cb_doAccept) (Some cb_noOp)))
    as (a' & H1 & H2 & _).
  - reflexivity.
  - simpl. lia.
  - simpl. repeat constructor; lia.
  - reflexivity.
  - reflexivity.
  - exists a'. split; [exact H1|rewrite H2; reflexivity].
Defined.

(** An error that is not [EAGAIN] does not end the loop: the service is stopped,
    which closes the listening socket; from then on every [accept] fails, and
    however long it runs [doAccept()] does not return. *)
Theorem accept_error_spins fuel a : accept_cb_ a = true →
  doAccept http_accept fuel (replicate fuel AErr) a = Err OutOfFuel.
Proof.
  intros Hcb. revert a Hcb. induction fuel as [|fuel IH]; intros a Hcb; [done|]. cbn. unfold mbind, M_bind, modify. apply IH.
  unfold call_accept. rewrite Hcb. unfold http_accept. by destruct (acceptConnection _ _).
Qed.
