(* ===== verification/IOService.v ===== *)
(** * Starting and stopping the service ([io_service.cpp])

    [start()] runs the polling loop and returns when the service has stopped;
    [stop()] may be called by any thread, also by a worker that runs a task.
    Each section under the mutex is one action, and so is the call of
    [io_manager_->stop()]: it returns when the polling loop has ended and
    every worker other than the caller has finished its task ([IOManager] and
    [ThreadPoolFast] show that it does).  A worker that calls [stop()] is
    inside a task until the call returns. *)

From S2P Require Import Prelude CppString Threads ThreadPool IOManager Connection HttpConnection Acceptor.
From stdpp Require Import base numbers list gmap sorting.
Open Scope Z_scope.

(** Where a call of [stop()] is: before the section that decides who stops;
    waiting for the other call; before closing the acceptors; in
    [io_manager_->stop()]; before reporting the end; returned. *)
Inductive cpc : Type :=
| CEnter
| CWait
| CClose
| CManager
| CReport
| CReturned.

(** Where [start()] is: not called, in [poll()], waiting for [stop()], returned,
    or dead, because an acceptor has no descriptor any more. *)
Inductive spc : Type :=
| SIdle
| SPolling
| SWait
| SReturned
| SCrashed.

#[export] Instance cpc_dec : EqDecision cpc.
Proof. solve_decision. Defined.
#[export] Instance spc_dec : EqDecision spc.
Proof. solve_decision. Defined.

Record IOService : Type := mkService {
  acceptors_ : list Acceptor;
  stop_requested_ : bool;
  service_stopped_ : bool;           (* stopped_ *)
  manager_stopped : bool;            (* io_manager_->stop() has returned *)
  starter : spc;
  callers : list (bool * cpc);       (* calls of stop(): by a worker? *)
}.

Definition put_starter (p : spc) (s : IOService) : IOService :=
  mkService (acceptors_ s) (stop_requested_ s) (service_stopped_ s) (manager_stopped s) p (callers s).

(** [IOService(num_workers)] and [registerAcceptor]. *)
Definition IOService_init (acceptors : list Acceptor) : IOService := mkService acceptors false false false SIdle [].

Inductive slabel : Type :=
| Start                    (* start() is called: startAccept() and poll() *)
| PollEnds                 (* poll() returns *)
| StartReturns             (* start() sees stopped_ *)
| CallStop (worker : bool) (* stop() is called *)
| C (i : nat).             (* the call [i] goes on *)

(** [startAccept()] on each acceptor. *)
Fixpoint start_all (l : list Acceptor) : option (list Acceptor) :=
  match l with
  | [] => Some []
  | a :: l' =>
    match startAccept a with
    | Ok _ a' => l'' ← start_all l'; Some (a' :: l'')
    | Err _ => None
    end
  end.

(** A worker in the middle of a call. *)
Definition busy (c : bool * cpc) : bool := c.1 && negb (bool_decide (c.2 = CReturned)).

(** The call [i] of [stop()], made by a worker if [w]. *)
Definition stop_action (i : nat) (w : bool) (p : cpc) (s : IOService) : option IOService :=
  match p with
  | CEnter =>
    if stop_requested_ s then
      Some (mkService (acceptors_ s) true (service_stopped_ s) (manager_stopped s) (starter s) (<[i := (w, CWait)]> (callers s)))
    else
      Some (mkService (acceptors_ s) true (service_stopped_ s) (manager_stopped s) (starter s) (<[i := (w, CClose)]> (callers s)))
  | CWait =>
    if service_stopped_ s then
      Some (mkService (acceptors_ s) (stop_requested_ s) true (manager_stopped s) (starter s) (<[i := (w, CReturned)]> (callers s)))
    else None
  | CClose =>
    Some (mkService (close <$> acceptors_ s) (stop_requested_ s) (service_stopped_ s) (manager_stopped s) (starter s)
            (<[i := (w, CManager)]> (callers s)))
  | CManager =>
    if bool_decide (starter s = SPolling) then None
    else if existsb busy (delete i (callers s)) then None
    else
      Some (mkService (acceptors_ s) (stop_requested_ s) (service_stopped_ s) true (starter s) (<[i := (w, CReport)]> (callers s)))
  | CReport =>
    Some (mkService (acceptors_ s) (stop_requested_ s) true (manager_stopped s) (starter s) (<[i := (w, CReturned)]> (callers s)))
  | CReturned => None
  end.

Definition service_step (l : slabel) (s : IOService) : option IOService :=
  match l with
  | Start =>
    match starter s with
    | SIdle =>
      match start_all (acceptors_ s) with
      | Some l => Some (mkService l (stop_requested_ s) (service_stopped_ s) (manager_stopped s) SPolling (callers s))
      | None => Some (put_starter SCrashed s)
      end
    | _ => None
    end
  | PollEnds =>
    (* the loop ends once [io_manager_->stop()] has been called *)
    if bool_decide (starter s = SPolling) && (manager_stopped s || existsb (λ c, bool_decide (c.2 = CManager)) (callers s))
    then Some (put_starter SWait s) else None
  | StartReturns =>
    if bool_decide (starter s = SWait) && service_stopped_ s then Some (put_starter SReturned s) else None
  | CallStop w =>
    if w && manager_stopped s then None
    else Some (mkService (acceptors_ s) (stop_requested_ s) (service_stopped_ s) (manager_stopped s) (starter s) (callers s ++ [(w, CEnter)]))
  | C i => '(w, p) ← callers s !! i; stop_action i w p s
  end.

(** ** The invariant *)

Definition running (c : bool * cpc) : bool := match c.2 with CClose | CManager | CReport => true | _ => false end.
Definition is_close (c : bool * cpc) : bool := match c.2 with CClose => true | _ => false end.
Definition past_close (c : bool * cpc) : bool := match c.2 with CManager | CReport => true | _ => false end.
Definition is_report (c : bool * cpc) : bool := match c.2 with CReport => true | _ => false end.
Definition is_returned (c : bool * cpc) : bool := match c.2 with CReturned => true | _ => false end.
Definition decided (c : bool * cpc) : bool := match c.2 with CEnter => false | _ => true end.

Definition is_open (a : Acceptor) : Prop := is_Some (io_descr_ a) ∧ acc_closed a = [].

(** Closed, and that once. *)
Definition is_closed (a : Acceptor) : Prop := io_descr_ a = None ∧ acc_closed a = [listen_fd_ a].

(** One call tears the service down; its position says how far it has come. *)
Record sinv (s : IOService) : Prop := {
  sv_idle : stop_requested_ s = false → count_if decided (callers s) = 0 ∧ service_stopped_ s = false ∧ manager_stopped s = false;
  sv_one : stop_requested_ s = true → count_if running (callers s) = Z.b2z (negb (service_stopped_ s));
  sv_closed : 0 < count_if past_close (callers s) ∨ service_stopped_ s = true → Forall is_closed (acceptors_ s);
  sv_manager : manager_stopped s = true ↔ 0 < count_if is_report (callers s) ∨ service_stopped_ s = true;
  sv_returned : 0 < count_if is_returned (callers s) → service_stopped_ s = true;
  sv_start : starter s = SReturned → service_stopped_ s = true;
  sv_open : count_if past_close (callers s) = 0 → service_stopped_ s = false → Forall is_open (acceptors_ s);
}.

(** What each position counts for. *)
Lemma counts_insert (cs : list (bool * cpc)) i c c' : cs !! i = Some c →
  count_if decided (<[i := c']> cs) = count_if decided cs - Z.b2z (decided c) + Z.b2z (decided c') ∧
  count_if running (<[i := c']> cs) = count_if running cs - Z.b2z (running c) + Z.b2z (running c') ∧
  count_if past_close (<[i := c']> cs) = count_if past_close cs - Z.b2z (past_close c) + Z.b2z (past_close c') ∧
  count_if is_report (<[i := c']> cs) = count_if is_report cs - Z.b2z (is_report c) + Z.b2z (is_report c') ∧
  count_if is_returned (<[i := c']> cs) = count_if is_returned cs - Z.b2z (is_returned c) + Z.b2z (is_returned c').
Proof. intros Hi. by rewrite !(count_if_insert _ cs i c c' Hi). Qed.

Lemma counts_le (cs : list (bool * cpc)) :
  0 ≤ count_if is_report cs ≤ count_if past_close cs ∧ count_if running cs = count_if is_close cs + count_if past_close cs ∧
  0 ≤ count_if is_close cs ∧ count_if running cs ≤ count_if decided cs ∧ 0 ≤ count_if is_returned cs.
Proof.
  induction cs as [|[w p] cs IH]; [done|]. rewrite !count_if_cons. destruct p; cbn; lia.
Qed.

Lemma start_all_open l l' : start_all l = Some l' → Forall is_open l → Forall is_open l'.
Proof.
  revert l'. induction l as [|a l IH]; intros l' E Hl; cbn in E; [by simplify_eq|]. apply Forall_cons in Hl as [[[d Hd] Ha] Hl].
  unfold startAccept in E. rewrite Hd in E. destruct (readWhenReady d) as [d' ts]. cbn in E.
  destruct (start_all l) as [l1|]; [|done]. cbn in E. injection E as <-. constructor; [|auto]. split; [by eexists|done].
Qed.

Lemma start_all_closed l : l ≠ [] → Forall is_closed l → start_all l = None.
Proof. intros Hne Hl. destruct l as [|a l]; [done|]. apply Forall_cons in Hl as [[Ha _] _]. cbn. unfold startAccept. by rewrite Ha. Qed.

(** The call [i] moves to [p']: the counters of the goal in terms of the old ones. *)
Local Ltac moves_to Hi w p' := let E := fresh in
  pose proof (counts_insert _ _ _ (w, p') Hi) as E; cbn in E; destruct E as (?E1 & ?E2 & ?E3 & ?E4 & ?E5);
  split; cbn; rewrite ?E1, ?E2, ?E3, ?E4, ?E5, ?Z.sub_0_r, ?Z.add_0_r; auto; try (intros; lia).

Lemma stop_action_inv i w p s s' : sinv s → callers s !! i = Some (w, p) → stop_action i w p s = Some s' → sinv s'.
Proof.
  intros [Hidle Hone Hcl Hman Hret Hst Hopen] Hi Hstep. pose proof (counts_le (callers s)) as Hle.
  pose proof (count_if_pos decided _ _ _ Hi) as Hdec. pose proof (count_if_pos running _ _ _ Hi) as Hrun.
  pose proof (count_if_pos past_close _ _ _ Hi) as Hpast. pose proof (count_if_pos is_report _ _ _ Hi) as Hrep.
  assert (Hreq : p ≠ CEnter → stop_requested_ s = true).
  { intros Hp. destruct (stop_requested_ s) eqn:E; [done|]. destruct (Hidle eq_refl) as [E0 _].
    assert (0 < count_if decided (callers s)) by (apply Hdec; by destruct p). lia. }
  destruct s as [accs req st man str cs]. cbn in *.
  destruct p; cbn in Hstep, Hdec, Hrun, Hpast, Hrep; try (specialize (Hreq ltac:(done)); subst req; specialize (Hone eq_refl)).
  - destruct req; simplify_eq; [by moves_to Hi w CWait|]. destruct (Hidle eq_refl) as (E0 & -> & ->). moves_to Hi w CClose; try lia.
  - destruct st; [|done]. simplify_eq. by moves_to Hi w CReturned.
  - simplify_eq. specialize (Hrun eq_refl). destruct st; cbn in Hone; [lia|].
    assert (Hop : Forall is_open accs). { apply Hopen; [|done]. pose proof (count_if_pos is_close _ _ _ Hi eq_refl). lia. }
    moves_to Hi w CManager; try lia.
    intros _. apply Forall_fmap. eapply Forall_impl; [exact Hop|]. intros a [_ Ea]. split; [done|]. cbn. by rewrite Ea.
  - case_bool_decide; [done|]. destruct (existsb _ _); [done|]. simplify_eq. specialize (Hrun eq_refl). destruct st; cbn in Hone; [lia|].
    moves_to Hi w CReport; try lia.
  - simplify_eq. specialize (Hrun eq_refl). specialize (Hrep eq_refl). destruct st; cbn in Hone; [lia|].
    moves_to Hi w CReturned; try lia. split; [auto|]. intros _. apply Hman. by left.
  - done.
Qed.

Lemma service_inv l s s' : sinv s → service_step l s = Some s' → sinv s'.
Proof.
  intros Hs Hstep. destruct l as [| | |w|i]; cbn in Hstep.
  - destruct (starter s) eqn:Est; try done. destruct (start_all (acceptors_ s)) as [l|] eqn:El; simplify_eq; destruct Hs; split; cbn; auto; try done.
    + intros Hc. destruct l as [|a l]; [done|]. rewrite start_all_closed in El; [done| |auto].
      intros E. by rewrite E in El.
    + intros H1 H2. by eapply start_all_open; [exact El|auto].
  - case_bool_decide; [|done]. cbn in Hstep. destruct (_ || _); simplify_eq. destruct Hs; by split.
  - case_bool_decide; [|done]. cbn in Hstep. destruct (service_stopped_ s) eqn:E; simplify_eq. destruct Hs; split; cbn in *; try done.
  - destruct (w && manager_stopped s) eqn:E; [done|]. simplify_eq. destruct Hs.
    split; cbn; rewrite ?count_if_app; cbn; rewrite ?Z.add_0_r; done.
  - destruct (callers s !! i) as [[w p]|] eqn:Hi; [|done]. by eapply stop_action_inv.
Qed.

Lemma reachable_sinv accs s : Forall is_open accs → reachable service_step (IOService_init accs) s → sinv s.
Proof. intros Ho. apply (invariant_reachable _ sinv); [|apply service_inv].
  split; cbn; unfold count_if; cbn; try done; try (intros [?|?]; done). split; [done|]. intros [?|?]; done.
Qed.

(** C9: Stopping is safe for any number of calls of [stop()] in any interleaving
    with [start()].  At most one call tears the service down.  When any call of
    [stop()], or [start()], has returned, the I/O manager is stopped and every
    acceptor is closed, and was closed exactly once, so that the service can
    be destroyed. *)
Theorem service_stop_safe accs s :
  Forall is_open accs → reachable service_step (IOService_init accs) s →
  count_if running (callers s) ≤ 1 ∧
  ((∃ i w, callers s !! i = Some (w, CReturned)) ∨ starter s = SReturned →
   service_stopped_ s = true ∧ manager_stopped s = true ∧ Forall is_closed (acceptors_ s) ∧ count_if running (callers s) = 0).
Proof.
  intros Ho Hr. pose proof (reachable_sinv accs s Ho Hr) as [Hidle Hone Hcl Hman Hret Hst _]. pose proof (counts_le (callers s)) as Hle. split.
  - destruct (stop_requested_ s); [rewrite Hone by done; destruct (service_stopped_ s); cbn; lia|].
    destruct (Hidle eq_refl) as [? _]. lia.
  - intros Hx. assert (Hs : service_stopped_ s = true).
    { destruct Hx as [(i & w & Hi)|?]; [|auto]. apply Hret. by eapply count_if_pos. }
    split_and!; [done|apply Hman; by right|auto|]. destruct (stop_requested_ s) eqn:E; [by rewrite Hone, Hs|].
    destruct (Hidle eq_refl) as (_ & ? & _). congruence.
Qed.

(** ** Stopping ends *)

(** Only the call that tears down may be a worker's: no other worker waits. *)
Definition no_worker_waits (s : IOService) : Prop :=
  ∀ i p, callers s !! i = Some (true, p) → running (true, p) = true ∨ p = CReturned.

(** The actions of calls that were made. *)
Definition going (l : slabel) : bool := match l with Start | CallStop _ => false | _ => true end.

(** What is left to do. *)
Definition call_left (c : bool * cpc) : Z :=
  match c.2 with CEnter => 4 | CClose => 3 | CManager => 2 | CReport => 1 | CWait => 1 | CReturned => 0 end.
Definition start_left (p : spc) : Z := match p with SPolling => 2 | SWait => 1 | _ => 0 end.
Definition left_to_do (s : IOService) : Z := start_left (starter s) + zsum (call_left <$> callers s).

Lemma call_left_nonneg cs : 0 ≤ zsum (call_left <$> cs).
Proof. apply zsum_nonneg, Forall_fmap, Forall_forall. intros [w []] _; cbn; lia. Qed.

(** Every action brings the end nearer and keeps what matters. *)
Lemma going_step l s s' : going l = true → sinv s → stop_requested_ s = true → no_worker_waits s → service_step l s = Some s' →
  left_to_do s' ≤ left_to_do s - 1 ∧ stop_requested_ s' = true ∧ no_worker_waits s'.
Proof.
  intros Hg Hs Hreq Hnw Hstep. destruct l as [| | |w|i]; try done; cbn in Hstep.
  - case_bool_decide as Est; [|done]. cbn in Hstep. destruct (_ || _); simplify_eq. unfold left_to_do. cbn. rewrite Est. cbn. split_and!; [lia|done|done].
  - case_bool_decide as Est; [|done]. cbn in Hstep. destruct (service_stopped_ s); simplify_eq. unfold left_to_do. cbn. rewrite Est. cbn. split_and!; [lia|done|done].
  - destruct (callers s !! i) as [[w p]|] eqn:Hi; [|done]. cbn in Hstep.
    assert (Hmove : ∀ c', callers s' = <[i := c']> (callers s) → starter s' = starter s → call_left c' ≤ call_left (w, p) - 1 →
      left_to_do s' ≤ left_to_do s - 1).
    { intros c' Ec Est Hl. unfold left_to_do. rewrite Ec, Est, (zsum_insert _ _ _ _ _ Hi). lia. }
    assert (Hnw' : ∀ c', callers s' = <[i := c']> (callers s) → c'.1 = w → (w = true → running c' = true ∨ c'.2 = CReturned) → no_worker_waits s').
    { intros c' Ec Ew Hc j q Hj. rewrite Ec in Hj. destruct (decide (j = i)) as [->|Hne].
      - rewrite list_lookup_insert_eq in Hj by eauto using lookup_lt_Some. injection Hj as ->. cbn in *. subst w. auto.
      - rewrite list_lookup_insert_ne in Hj by done. eauto. }
    destruct p; cbn in Hstep; rewrite ?Hreq in Hstep; repeat case_match; simplify_eq;
      (split; [eapply Hmove; [done|done|cbn; lia]|]); (split; [done|]); eapply Hnw'; try done; cbn; auto.
    intros ->. by destruct (Hnw i CEnter Hi).
Qed.

Lemma others_idle s i p : sinv s → stop_requested_ s = true → no_worker_waits s →
  callers s !! i = Some p → running p = true → existsb busy (delete i (callers s)) = false.
Proof.
  intros Hs Hreq Hnw Hi Hp. destruct (existsb busy (delete i (callers s))) eqn:E; [|done].
  apply existsb_exists in E as ([w q] & Hin & Hb). apply list_elem_of_In, list_elem_of_lookup in Hin as [j Hj].
  assert (Hk : ∃ k, k ≠ i ∧ callers s !! k = Some (w, q)).
  { destruct (decide (j < i)%nat); [rewrite list_lookup_delete_lt in Hj by done; exists j|rewrite list_lookup_delete_ge in Hj by lia; exists (S j)];
      (split; [lia|done]). }
  destruct Hk as (k & Hne & Hk). unfold busy in Hb. cbn in Hb. destruct w; [|done]. cbn in Hb.
  destruct (Hnw k q Hk) as [Hq| ->]; [|done]. pose proof (count_if_two running _ _ _ _ _ Hi Hk ltac:(done) Hp Hq) as H2.
  rewrite (sv_one _ Hs Hreq) in H2. destruct (service_stopped_ s); cbn in H2; lia.
Qed.

(** When nothing can go on, everything has returned. *)
Lemma all_returned s : sinv s → stop_requested_ s = true → no_worker_waits s → (∀ l, going l = true → service_step l s = None) →
  (∀ i w p, callers s !! i = Some (w, p) → p = CReturned) ∧ starter s ≠ SPolling ∧ starter s ≠ SWait.
Proof.
  intros Hs Hreq Hnw Hstuck. destruct (service_stopped_ s) eqn:Est.
  - assert (Hman : manager_stopped s = true) by (apply Hs; by right). split_and!.
    + intros i w p Hi. specialize (Hstuck (C i) eq_refl). cbn in Hstuck. rewrite Hi in Hstuck. cbn in Hstuck.
      assert (Hr : running (w, p) = true → False).
      { intros Hr. pose proof (count_if_pos running _ _ _ Hi Hr) as H0. rewrite (sv_one _ Hs Hreq), Est in H0. cbn in H0. lia. }
      destruct p; cbn in Hstuck; rewrite ?Hreq, ?Est in Hstuck; done || by destruct Hr.
    + intros E. specialize (Hstuck PollEnds eq_refl). cbn in Hstuck. by rewrite bool_decide_true, Hman in Hstuck.
    + intros E. specialize (Hstuck StartReturns eq_refl). cbn in Hstuck. by rewrite bool_decide_true, Est in Hstuck.
  - exfalso. destruct (count_if_witness running (callers s)) as (i & [w p] & Hi & Hp); [rewrite (sv_one _ Hs Hreq), Est; cbn; lia|].
    pose proof (Hstuck (C i) eq_refl) as Hci. cbn in Hci. rewrite Hi in Hci. cbn in Hci. destruct p; try done. cbn in Hci.
    rewrite (others_idle s i _ Hs Hreq Hnw Hi Hp) in Hci. case_bool_decide as E; [|done].
    specialize (Hstuck PollEnds eq_refl). cbn in Hstuck. rewrite bool_decide_true in Hstuck by done.
    assert (Hex : existsb (λ c : bool * cpc, bool_decide (c.2 = CManager)) (callers s) = true).
    { apply existsb_exists. exists (w, CManager). split; [|done]. apply list_elem_of_In, list_elem_of_lookup. eauto. }
    rewrite Hex, orb_true_r in Hstuck. done.
Qed.

(** C11: Stopping ends, if no worker waits for another call of [stop()].  Once a
    stop is requested and the only worker inside [stop()], if any, is the one
    that tears the service down, then every sequence of actions of the calls
    under way is finite, and when none is possible any more every call of
    [stop()] has returned, and so has [start()], if it was running. *)
Theorem stop_returns accs s ls s' :
  Forall is_open accs → reachable service_step (IOService_init accs) s → stop_requested_ s = true → no_worker_waits s →
  run service_step ls s = Some s' → forallb going ls = true →
  Z.of_nat (length ls) ≤ left_to_do s ∧
  ((∀ l, going l = true → service_step l s' = None) →
   (∀ i w p, callers s' !! i = Some (w, p) → p = CReturned) ∧ starter s' ≠ SPolling ∧ starter s' ≠ SWait).
Proof.
  intros Ho Hr Hreq Hnw Hrun Hg. pose proof (reachable_sinv accs s Ho Hr) as Hs. clear Hr Ho accs.
  destruct (run_bounded service_step (λ s, sinv s ∧ stop_requested_ s = true ∧ no_worker_waits s) (λ l, going l = true) left_to_do)
    with ls s s' as [(Hs' & Hreq' & Hnw') Hl]; [|by apply Forall_forall; intros l Hl; rewrite forallb_forall in Hg; apply Hg, list_elem_of_In|done|done|].
  { intros l t t' Hl (Ht & Htr & Htn) E. destruct (going_step _ _ _ Hl Ht Htr Htn E) as (H1 & H2 & H3).
    split; [split_and!; [by eapply service_inv|done..]|lia]. }
  split; [|intros Hstuck; by apply all_returned].
  pose proof (call_left_nonneg (callers s')). unfold left_to_do in Hl at 1. destruct (starter s'); cbn in Hl; lia.
Qed.

(** C38: A worker that calls [stop()] while another call is under way blocks the
    service for good, although the class says that [stop()] may be called from
    any thread and more than once: the call under way waits in
    [io_manager_->stop()] for the worker to finish its task, and the worker
    waits for that call.  Whatever happens later, the service never stops, and
    neither [stop()] nor [start()] returns. *)
Theorem worker_stop_hangs accs s s' i :
  Forall is_open accs → reachable service_step (IOService_init accs) s →
  callers s !! i = Some (true, CWait) → manager_stopped s = false →
  reachable service_step s s' →
  service_stopped_ s' = false ∧ callers s' !! i = Some (true, CWait) ∧ starter s' ≠ SReturned ∧
  ∀ j w, callers s' !! j ≠ Some (w, CReturned).
Proof.
  intros Ho Hr Hi Hman Hr'. pose proof (reachable_sinv accs s Ho Hr) as Hs.
  assert (Hall : sinv s' ∧ callers s' !! i = Some (true, CWait) ∧ manager_stopped s' = false).
  { revert s' Hr'. apply invariant_reachable; [done|]. clear. intros l s s' (Hs & Hi & Hman) Hstep.
    split; [by eapply service_inv|]. destruct l as [| | |w|j]; cbn in Hstep.
    - repeat case_match; simplify_eq; done.
    - repeat case_match; simplify_eq; done.
    - repeat case_match; simplify_eq; done.
    - repeat case_match; simplify_eq. cbn. split; [|done]. by apply lookup_app_l_Some.
    - destruct (callers s !! j) as [[w p]|] eqn:Hj; [|done]. cbn in Hstep. destruct (decide (j = i)) as [->|Hne].
      + rewrite Hi in Hj. injection Hj as <- <-. cbn in Hstep. destruct (service_stopped_ s) eqn:Est; [|done].
        assert (manager_stopped s = true) by (apply Hs; by right). congruence.
      + assert (Hins : ∀ x, <[j := x]> (callers s) !! i = Some (true, CWait)) by (intros; by rewrite list_lookup_insert_ne).
        destruct p; cbn in Hstep; repeat case_match; simplify_eq; cbn; auto. exfalso.
        assert (Hin : (true, CWait) ∈ delete j (callers s)).
        { destruct (decide (i < j)%nat); apply list_elem_of_lookup; [exists i; by rewrite list_lookup_delete_lt|].
          exists (pred i). rewrite list_lookup_delete_ge by lia. by replace (S (pred i)) with i by lia. }
        assert (existsb busy (delete j (callers s)) = true) by (apply existsb_exists; eexists; split; [by apply list_elem_of_In|done]). congruence. }
  destruct Hall as (Hs' & Hi' & Hman'). assert (Hst : service_stopped_ s' = false).
  { destruct (service_stopped_ s') eqn:E; [|done]. assert (manager_stopped s' = true) by (apply Hs'; by right). congruence. }
  split_and!; [done|done| |].
  - intros E. pose proof (sv_start _ Hs' E). congruence.
  - intros j w Hj. pose proof (sv_returned _ Hs' (count_if_pos is_returned _ _ _ Hj eq_refl)). congruence.
Qed.

(** ** Examples *)

Lemma listening_open : Forall is_open [listening_acceptor].
Proof. constructor; [|constructor]. split; [by eexists|done]. Qed.

(** A worker handles a request to quit while [start()] polls. *)
Definition quit_run : list slabel := [Start; CallStop true; C 0; C 0; PollEnds; C 0; C 0; StartReturns].
Definition after_run (ls : list slabel) : IOService := default (IOService_init []) (run service_step ls (IOService_init [listening_acceptor])).

Lemma service_stop_safe_witness :
  let s := after_run quit_run in
  starter s = SReturned ∧ service_stopped_ s = true ∧ manager_stopped s = true ∧ Forall is_closed (acceptors_ s).
Proof.
  destruct (service_stop_safe [listening_acceptor] (after_run quit_run)) as [_ H].
  - exact listening_open.
  - exists quit_run. reflexivity.
  - split; [reflexivity|]. destruct H as (H1 & H2 & H3 & _); [right; reflexivity|]. split; [exact H1|]. split; [exact H2|exact H3].
Defined.

Lemma stop_returns_witness :
  let s := after_run [Start; CallStop true; C 0] in
  run service_step [C 0; PollEnds; C 0; C 0; StartReturns] s = Some (after_run quit_run) ∧ 5 ≤ left_to_do s.
Proof.
  split; [reflexivity|].
  apply (stop_returns [listening_acceptor] (after_run [Start; CallStop true; C 0]) [C 0; PollEnds; C 0; C 0; StartReturns] (after_run quit_run)).
  - exact listening_open.
  - exists [Start; CallStop true; C 0]. reflexivity.
  - reflexivity.
  - intros [|i] p Hp; [left; injection Hp as <-; reflexivity|discriminate Hp].
  - reflexivity.
  - reflexivity.
Defined.

(** Two workers handle requests to quit. *)
Lemma worker_stop_hangs_witness :
  let s := after_run [Start; CallStop true; CallStop true; C 0; C 1] in
  let s' := default s (run service_step [C 0; PollEnds] s) in
  service_stopped_ s' = false ∧ service_step (C 0) s' = None ∧ service_step (C 1) s' = None ∧ service_step StartReturns s' = None ∧
  starter s' ≠ SReturned.
Proof.
  destruct (worker_stop_hangs [listening_acceptor] (after_run [Start; CallStop true; CallStop true; C 0; C 1])
    (default (IOService_init []) (run service_step [C 0; PollEnds] (after_run [Start; CallStop true; CallStop true; C 0; C 1]))) 1) as (H1 & _ & H3 & _).
  - exact listening_open.
  - exists [Start; CallStop true; CallStop true; C 0; C 1]. reflexivity.
  - reflexivity.
  - reflexivity.
  - exists [C 0; PollEnds]. reflexivity.
  - split; [exact H1|]. split; [reflexivity|]. split; [reflexivity|]. split; [reflexivity|exact H3].
Defined.

(** [start()] on a service that was stopped before dereferences [NULL]. *)
Lemma start_after_stop_crashes accs : Forall is_open accs → accs ≠ [] →
  starter <$> run service_step [CallStop false; C 0; C 0; C 0; C 0; Start] (IOService_init accs) = Some SCrashed.
Proof.
  intros Ho Hne. cbn -[start_all]. rewrite bool_decide_false by done. cbn -[start_all]. rewrite start_all_closed; [done| |].
  - by destruct accs.
  - apply Forall_fmap. eapply Forall_impl; [exact Ho|]. intros a [_ Ea]. split; [done|]. cbn. by rewrite Ea.
Qed.
