(* ===== verification/SbrkAlloc.v ===== *)
(** * Aligned memory from the system ([sbrk_alloc.cpp])

    [SbrkSysAllocator::Alloc] asks [sbrk] for memory and aligns it, if need be by
    asking again.  The history of successful calls of [sbrk] is the state; what
    [sbrk] returns for a history is a parameter.  [CheckAddressBits],
    [SpinLockHolder] and [MemoryAligner] are not defined in the repository: the
    first has no effect on the result, the size of the last is a parameter. *)

From S2P Require Import Prelude.
From stdpp Require Import base numbers list.
Open Scope Z_scope.

(** The regions that [sbrk] gave: address and length. *)
Abbreviation history := (list (Z * Z)).

(** [reinterpret_cast<void*>(-1)] *)
Definition FAILED : Z := 2 ^ 64 - 1.

(** What [sbrk(n)] returns and the current break. *)
Class System : Type := mkSystem { sys_sbrk : history → Z → Z; sys_break : history → Z }.

(** A region that [sbrk] gives lies in the lower half of the address space. *)
Class SystemLaws (sys : System) : Prop :=
  sys_region : ∀ h n, 0 ≤ n → sys_sbrk h n ≠ FAILED → 0 < sys_sbrk h n ∧ sys_sbrk h n + n ≤ 2 ^ 63.

Section code.
Context `{System}.

Definition sbrk (n : Z) : M history Z := λ h,
  let r := sys_sbrk h n in
  Ok r (if r =? FAILED then h else h ++ [(r, n)]).

(** The pointer and [*actual_size], which is not set on the first return.
    Dividing by zero stops the process. *)
Definition Alloc (size alignment : Z) : M history (Z * option Z) :=
  if 2 ^ 63 <=? wrap64 (size + alignment) then mret (0, None)
  else if alignment =? 0 then fail Fatal
  else
    let size := wrap64 (wrap64 (size + alignment - 1) / alignment * alignment) in
    h ← get;
    if wrap64 (sys_break h + size) <? size then mret (0, Some size)
    else
      result ← sbrk size;
      if result =? FAILED then mret (0, Some size)
      else
        let ptr := result in
        if Z.land ptr (alignment - 1) =? 0 then mret (result, Some size)
        else
          let extra := wrap64 (alignment - Z.land ptr (alignment - 1)) in
          r2 ← sbrk extra;
          if r2 =? wrap64 (ptr + size) then mret (wrap64 (ptr + extra), Some size)
          else
            result ← sbrk (wrap64 (size + alignment - 1));
            if result =? FAILED then mret (0, Some size)
            else
              let ptr := result in
              let ptr := if negb (Z.land ptr (alignment - 1) =? 0)
                         then wrap64 (ptr + wrap64 (alignment - Z.land ptr (alignment - 1))) else ptr in
              mret (ptr, Some size).

Definition TCMalloc_SystemAlloc (sizeof_MemoryAligner size alignment : Z) : M history (Z * option Z) :=
  if wrap64 (size + alignment) <? size then mret (0, None)
  else
    let alignment := if alignment <? sizeof_MemoryAligner then sizeof_MemoryAligner else alignment in
    Alloc size alignment.
End code.

(** The range given to [madvise]; [None]: nothing is released. *)
Definition TCMalloc_SystemRelease (devmem : bool) (pagesize start length : Z) : option (option (Z * Z)) :=
  if devmem then Some None
  else
    let pagemask := wrap64 (pagesize - 1) in
    let end_ := wrap64 (start + length) in
    let new_start := Z.land (wrap64 (start + pagesize - 1)) (wrap64 (Z.lnot pagemask)) in
    let new_end := Z.land end_ (wrap64 (Z.lnot pagemask)) in
    if (Z.land new_start pagemask =? 0) && (Z.land new_end pagemask =? 0) && (start <=? new_start) && (new_end <=? end_)
    then Some (if new_start <? new_end then Some (new_start, new_end) else None)
    else None.

(** ** Rounding *)

Lemma land_mask x k : 0 ≤ k → Z.land x (2 ^ k - 1) = x `mod` 2 ^ k.
Proof. intros Hk. rewrite <- Z.land_ones by done. f_equal. rewrite Z.ones_equiv. lia. Qed.

(** [x & ~mask] on 64 bits. *)
Lemma land_not_mask x k : 0 ≤ k → 0 ≤ x < 2 ^ 64 → Z.land x (wrap64 (Z.lnot (2 ^ k - 1))) = x / 2 ^ k * 2 ^ k.
Proof.
  intros Hk Hx. unfold wrap64. rewrite <- Z.land_ones, (Z.land_comm (Z.lnot _)), Z.land_assoc, Z.land_ones, Z.mod_small by lia.
  rewrite <- Z.ldiff_land. replace (2 ^ k - 1) with (Z.ones k) by (rewrite Z.ones_equiv; lia).
  by rewrite Z.ldiff_ones_r, Z.shiftl_mul_pow2, Z.shiftr_div_pow2 by lia.
Qed.

Lemma round_up_spec x a : 0 < a → 0 ≤ x → let r := (x + a - 1) / a * a in x ≤ r < x + a ∧ r `mod` a = 0.
Proof. intros Ha Hx r. unfold r. pose proof (Z.div_mod (x + a - 1) a ltac:(lia)). pose proof (Z.mod_pos_bound (x + a - 1) a Ha).
  split; [lia|]. apply Z.mod_mul. lia. Qed.

(** The next multiple of [a] above [p]. *)
Lemma align_up p a : 0 < a → p `mod` a ≠ 0 → 0 < a - p `mod` a < a ∧ (p + (a - p `mod` a)) `mod` a = 0.
Proof.
  intros Ha Hp. pose proof (Z.mod_pos_bound p a Ha). split; [lia|].
  replace (p + (a - p `mod` a)) with ((p / a + 1) * a) by (pose proof (Z.div_mod p a ltac:(lia)); lia). apply Z.mod_mul. lia.
Qed.

(** ** What the allocation guarantees *)

(** Every byte from [p] to [p + n] lies in a region of [g]. *)
Definition covered (g : history) (p n : Z) : Prop := ∀ a, p ≤ a < p + n → ∃ r m, (r, m) ∈ g ∧ r ≤ a < r + m.

Section laws.
Context `{SystemLaws}.

Lemma sbrk_ok n h : 0 ≤ n →
  sbrk n h = Ok FAILED h ∨
  ∃ r, sbrk n h = Ok r (h ++ [(r, n)]) ∧ r ≠ FAILED ∧ 0 < r ∧ r + n ≤ 2 ^ 63.
Proof.
  intros Hn. unfold sbrk. destruct (Z.eqb_spec (sys_sbrk h n) FAILED) as [E|E]; [left; by rewrite E|right].
  destruct (sys_region h n Hn E). eauto.
Qed.

(** The last attempt: a region with room for an aligned one. *)
Lemma last_try asz a h : 0 < a → 0 ≤ asz → asz + a ≤ 2 ^ 64 → (∀ x, Z.land x (a - 1) = x `mod` a) →
  ∃ p g, (result ← sbrk (wrap64 (asz + a - 1));
     if result =? FAILED then mret (0, Some asz)
     else
       let ptr := result in
       let ptr := if negb (Z.land ptr (a - 1) =? 0) then wrap64 (ptr + wrap64 (a - Z.land ptr (a - 1))) else ptr in
       mret (ptr, Some asz)) h = Ok (p, Some asz) (h ++ g) ∧ (p = 0 ∨ 0 < p ∧ p `mod` a = 0 ∧ covered g p asz).
Proof.
  intros Ha Hs Hb Hland. rewrite (wrap64_small (asz + a - 1)) by lia.
  destruct (sbrk_ok (asz + a - 1) h ltac:(lia)) as [E|(p & E & Hne & Hp & Hpe)]; rewrite (bind_ok _ _ _ _ _ E).
  { exists 0, []. rewrite app_nil_r. split; [done|by left]. }
  cbv zeta. rewrite (proj2 (Z.eqb_neq _ _) Hne), !Hland. destruct (Z.eqb_spec (p `mod` a) 0) as [Hm|Hm]; cbn [negb].
  - eexists p, _. split; [done|]. right. split_and!; [done|done|]. intros b Hbd. exists p, (asz + a - 1). split; [by left|lia].
  - destruct (align_up p a Ha Hm) as [Hx1 Hx2]. rewrite (wrap64_small (a - p `mod` a)), wrap64_small by lia.
    eexists _, _. split; [done|]. right. split_and!; [lia|done|]. intros b Hbd. exists p, (asz + a - 1). split; [by left|lia].
Qed.

(** C40: Memory from the system is aligned and belongs to the caller.  For an
    alignment that is a power of two and a size that leaves room below
    [2^63], [Alloc] returns; the actual size is the size rounded up to the
    alignment; and the result is [NULL], or a multiple of the alignment such
    that every byte of the actual size lies in a region that [sbrk] gave during
    this call, whatever other callers of [sbrk] do in between. *)
Theorem sbrk_alloc_ok size k h :
  0 ≤ k → 0 ≤ size → size + 2 ^ k < 2 ^ 63 →
  ∃ p asz g, Alloc size (2 ^ k) h = Ok (p, Some asz) (h ++ g) ∧
    size ≤ asz < size + 2 ^ k ∧ asz `mod` 2 ^ k = 0 ∧
    (p = 0 ∨ 0 < p ∧ p `mod` 2 ^ k = 0 ∧ covered g p asz).
Proof.
  intros Hk Hs Hb. assert (Ha : 0 < 2 ^ k) by (apply Z.pow_pos_nonneg; lia). set (a := 2 ^ k) in *.
  destruct (round_up_spec size a Ha Hs) as [Hr1 Hr2]. set (asz := (size + a - 1) / a * a) in *.
  assert (Hasz : wrap64 (wrap64 (size + a - 1) / a * a) = asz).
  { rewrite (wrap64_small (size + a - 1)) by lia. apply wrap64_small. lia. }
  unfold Alloc. rewrite (wrap64_small (size + a)) by lia. destruct (Z.leb_spec (2 ^ 63) (size + a)); [lia|].
  destruct (Z.eqb_spec a 0); [lia|]. rewrite Hasz. cbv zeta. erewrite bind_ok by reflexivity.
  destruct (wrap64 (sys_break h + asz) <? asz); [exists 0, asz, []; rewrite app_nil_r; split_and!; [done|lia|lia|done|by left]|].
  destruct (sbrk_ok asz h ltac:(lia)) as [E|(p & E & Hne & Hp & Hpe)]; rewrite (bind_ok _ _ _ _ _ E).
  { exists 0, asz, []. rewrite app_nil_r. split_and!; [done|lia|lia|done|by left]. }
  assert (Hland : ∀ x, Z.land x (a - 1) = x `mod` a) by (intros; by apply land_mask).
  rewrite (proj2 (Z.eqb_neq _ _) Hne), Hland. destruct (Z.eqb_spec (p `mod` a) 0) as [Hm|Hm].
  { exists p, asz, [(p, asz)]. split_and!; [done|lia|lia|done|]. right. split_and!; [done|done|]. intros b Hbd. exists p, asz. split; [by left|lia]. }
  destruct (align_up p a Ha Hm) as [Hx1 Hx2]. rewrite (wrap64_small (a - p `mod` a)) by lia. set (extra := a - p `mod` a) in *.
  rewrite (wrap64_small (p + asz)), (wrap64_small (p + extra)) by lia.
  destruct (sbrk_ok extra (h ++ [(p, asz)]) ltac:(lia)) as [E2|(r2 & E2 & Hne2 & Hp2 & Hpe2)]; rewrite (bind_ok _ _ _ _ _ E2).
  - destruct (Z.eqb_spec FAILED (p + asz)); [unfold FAILED in *; lia|].
    destruct (last_try asz a (h ++ [(p, asz)]) Ha ltac:(lia) ltac:(lia) Hland) as (q & g & Hr & Hq). cbv zeta in Hr. exists q, asz, ([(p, asz)] ++ g).
    rewrite Hr, <- (assoc_L (++)). split_and!; [done|lia|lia|done|]. destruct Hq as [->|(Hq1 & Hq2 & Hq3)]; [by left|right].
    split_and!; [done|done|]. intros b Hbd. destruct (Hq3 b Hbd) as (r & m & Hin & Hrm). exists r, m. split; [|done]. by apply elem_of_app; right.
  - destruct (Z.eqb_spec r2 (p + asz)) as [->|Hn2].
    + eexists (p + extra), asz, [(p, asz); (p + asz, extra)]. rewrite <- (assoc_L (++)). split_and!; [done|lia|lia|done|]. right.
      split_and!; [lia|done|]. intros b Hbd. destruct (decide (b < p + asz)); [exists p, asz|exists (p + asz), extra].
      all: split; [|lia]. { by left. } { right. by left. }
    + destruct (last_try asz a ((h ++ [(p, asz)]) ++ [(r2, extra)]) Ha ltac:(lia) ltac:(lia) Hland) as (q & g & Hr & Hq).
      cbv zeta in Hr. exists q, asz, ([(p, asz); (r2, extra)] ++ g). rewrite Hr, <- !(assoc_L (++)). split_and!; [done|lia|lia|done|].
      destruct Hq as [->|(Hq1 & Hq2 & Hq3)]; [by left|right]. split_and!; [done|done|]. intros b Hbd.
      destruct (Hq3 b Hbd) as (r & m & Hin & Hrm). exists r, m. split; [|done]. by apply elem_of_app; right.
Qed.
End laws.

(** A system in which other callers move the break in between. *)
Definition shared_system : System :=
  mkSystem (λ h n, if n <=? 2 ^ 20 then 1000 + (Z.of_nat (length h) `mod` 8) * 2 ^ 21 else FAILED) (λ h, 1000).

#[export] Instance shared_laws : SystemLaws shared_system.
Proof.
  intros h n Hn. cbn -[Z.modulo Z.pow]. destruct (Z.leb_spec n (2 ^ 20)); [|done]. intros _.
  pose proof (Z.mod_pos_bound (Z.of_nat (length h)) 8 ltac:(lia)). lia.
Qed.

Lemma sbrk_alloc_ok_witness : ∃ p asz g, @Alloc shared_system 100 (2 ^ 12) [] = Ok (p, Some asz) g ∧
  p = 4198400 ∧ asz = 4096 ∧ p `mod` 2 ^ 12 = 0 ∧ covered g p asz.
Proof.
  destruct (@sbrk_alloc_ok shared_system shared_laws 100 12 []) as (p & asz & g & H1 & H2 & H3 & H4).
  - discriminate.
  - discriminate.
  - reflexivity.
  - exists p, asz, g. split; [exact H1|]. assert (E : @Alloc shared_system 100 (2 ^ 12) [] = Ok (4198400, Some 4096)
      [(1000, 4096); (2098152, 3096); (4195304, 8191)]) by (vm_compute; reflexivity).
    rewrite E in H1. injection H1 as <- <- <-. split; [reflexivity|]. split; [reflexivity|]. destruct H4 as [H4|(_ & H4 & H5)]; [discriminate H4|].
    split; [exact H4|exact H5].
Defined.

(** Releasing memory gives back whole pages of the range and nothing else.
    For pages of a power of two bytes and a range that does not wrap around, the
    assertions hold, and what is released is the largest run of whole pages
    inside the range. *)
Theorem release_whole_pages k start length :
  0 ≤ k < 63 → 0 ≤ start → 0 ≤ length → start + length + 2 ^ k ≤ 2 ^ 64 →
  ∃ r, TCMalloc_SystemRelease false (2 ^ k) start length = Some r ∧
    (∀ s e, r = Some (s, e) → start ≤ s < e ∧ e ≤ start + length ∧ s `mod` 2 ^ k = 0 ∧ e `mod` 2 ^ k = 0) ∧
    (∀ n, start ≤ n * 2 ^ k → n * 2 ^ k + 2 ^ k ≤ start + length → ∃ s e, r = Some (s, e) ∧ s ≤ n * 2 ^ k ∧ n * 2 ^ k + 2 ^ k ≤ e).
Proof.
  intros Hk Hs Hl Hb. assert (Ha : 0 < 2 ^ k) by (apply Z.pow_pos_nonneg; lia).
  assert (Hk63 : 2 ^ k ≤ 2 ^ 63) by (apply Z.pow_le_mono_r; lia).
  unfold TCMalloc_SystemRelease. rewrite (wrap64_small (2 ^ k - 1)), (wrap64_small (start + length)), (wrap64_small (start + 2 ^ k - 1)) by lia.
  rewrite !land_not_mask, !land_mask by lia. set (a := 2 ^ k) in *. clearbody a.
  destruct (round_up_spec start a Ha Hs) as [H1 H2]. set (ns := (start + a - 1) / a * a) in *.
  pose proof (Z.div_mod (start + length) a ltac:(lia)) as H3. pose proof (Z.mod_pos_bound (start + length) a Ha) as H4.
  set (ne := (start + length) / a * a) in *. assert (H5 : ne `mod` a = 0) by (apply Z.mod_mul; lia).
  rewrite H2, H5. destruct (Z.leb_spec start ns); [|lia]. destruct (Z.leb_spec ne (start + length)); [|lia]. cbn [andb Z.eqb].
  eexists. split; [done|]. split.
  - intros s e. destruct (Z.ltb_spec ns ne); [|done]. intros [= <- <-]. split_and!; done || lia.
  - intros n Hn1 Hn2. assert ((start + a - 1) / a < n + 1) by (apply Z.div_lt_upper_bound; lia).
    assert (n + 1 ≤ (start + length) / a) by (apply Z.div_le_lower_bound; lia).
    assert (ns ≤ n * a) by (apply Z.mul_le_mono_nonneg_r; lia).
    assert (n * a + a ≤ ne) by (replace (n * a + a) with ((n + 1) * a) by lia; apply Z.mul_le_mono_nonneg_r; lia).
    destruct (Z.ltb_spec ns ne); [|lia]. exists ns, ne. split_and!; done || lia.
Qed.

Lemma release_whole_pages_witness : ∃ r, TCMalloc_SystemRelease false (2 ^ 12) 5000 10000 = Some r ∧ r = Some (8192, 12288).
Proof.
  destruct (release_whole_pages 12 5000 10000) as (r & H1 & H2 & _).
  - split; [discriminate|reflexivity].
  - discriminate.
  - discriminate.
  - discriminate.
  - exists r. split; [exact H1|]. assert (E : TCMalloc_SystemRelease false (2 ^ 12) 5000 10000 = Some (Some (8192, 12288))) by (vm_compute; reflexivity).
    rewrite E in H1. injection H1 as <-. reflexivity.
Defined.
