(* ===== verification/Poller.v ===== *)
(** * The poller ([descriptor_poller_epoll.cpp])

    A wrapper around [epoll]: it registers descriptors, waits for events and
    translates them for the I/O manager.  What [epoll_create], [epoll_ctl] and
    [epoll_wait] return is an argument. *)

From S2P Require Import Prelude Threads ThreadPool IOManager.
From stdpp Require Import base numbers list gmap sorting.
Open Scope Z_scope.

Definition EPOLLIN : Z := 1.
Definition EPOLLPRI : Z := 2.
Definition EPOLLOUT : Z := 4.
Definition EPOLLERR : Z := 8.
Definition EPOLLHUP : Z := 16.
Definition EPOLLET : Z := 2 ^ 31.

Definition MAX_FDS_PER_POLL : nat := 1024.

(** [events_]: the mask and the descriptor of each event of the last wait. *)
Record InternalPoller : Type := mkPoller {
  epoll_fd : Z;                          (* fd_ *)
  events_ : list (Z * nat);
  watched : list (Z * Z * nat);          (* EPOLL_CTL_ADD: descriptor, mask, data *)
}.

Definition InternalPoller_init : InternalPoller := mkPoller (-1) [] [].

Definition create (epoll_create_res : Z) : M InternalPoller unit :=
  modify (λ p, mkPoller epoll_create_res (events_ p) (watched p));;
  if epoll_create_res <? 0 then fail Fatal else mret tt.

Definition all_events : Z :=
  Z.lor EPOLLIN (Z.lor EPOLLPRI (Z.lor EPOLLOUT (Z.lor EPOLLERR (Z.lor EPOLLHUP EPOLLET)))).

Definition setEvent (epoll_ctl_res : Z) (fd : Z) (descr : nat) : M InternalPoller unit :=
  modify (λ p, mkPoller (epoll_fd p) (events_ p) (watched p ++ [(fd, all_events, descr)]));;
  if negb (epoll_ctl_res =? 0) then fail Fatal else mret tt.

(** One result of [epoll_wait]: events (none after a timeout), [EINTR], or another
    error. *)
Inductive wait_res : Type :=
| WEvents (evs : list (Z * nat))
| WIntr
| WErr.

(** [for (;;)]; the kernel gives at most [MAX_FDS_PER_POLL] events. *)
Fixpoint poll_wait (script : list wait_res) : M InternalPoller Z :=
  match script with
  | [] => fail OutOfFuel
  | WEvents evs :: _ =>
    modify (λ p, mkPoller (epoll_fd p) (take MAX_FDS_PER_POLL evs) (watched p));;
    mret (Z.of_nat (length (take MAX_FDS_PER_POLL evs)))
  | WIntr :: script' => poll_wait script'
  | WErr :: _ => fail Fatal
  end.

(** The events of the I/O manager for a mask of [epoll]. *)
Definition translate (mask : Z) : Z :=
  if negb (Z.land mask EPOLLERR =? 0) then DP_ERROR
  else
    Z.lor (if negb (Z.land mask (Z.lor EPOLLHUP EPOLLIN) =? 0) then DP_READ_READY else 0)
          (if negb (Z.land mask (Z.lor EPOLLHUP EPOLLOUT) =? 0) then DP_WRITE_READY else 0).

Definition getEvents (i : nat) : M InternalPoller (Z * nat) := λ p,
  match events_ p !! i with
  | Some (mask, descr) => Ok (translate mask, descr) p
  | None => Err (OutOfBounds (Z.of_nat i))
  end.

(** [~DescriptorPoller()]: the descriptors that are closed. *)
Definition DescriptorPoller_destroy (p : InternalPoller) : list Z :=
  if epoll_fd p =? -1 then [epoll_fd p] else [].

(** The loop of the I/O manager over the events: [getEvents(i)] for each [i]. *)
Fixpoint collect_events (n : nat) (i : nat) : M InternalPoller (list (Z * nat)) :=
  match n with
  | O => mret []
  | S n' => e ← getEvents i; es ← collect_events n' (S i); mret (e :: es)
  end.

(** ** What is dispatched *)

Definition wants_read (mask : Z) : bool := Z.testbit mask 3 || Z.testbit mask 4 || Z.testbit mask 0.
Definition wants_write (mask : Z) : bool := Z.testbit mask 3 || Z.testbit mask 4 || Z.testbit mask 2.

Lemma land_bit x n : 0 ≤ n → negb (Z.land x (2 ^ n) =? 0) = Z.testbit x n.
Proof.
  intros Hn. destruct (Z.testbit x n) eqn:E.
  - destruct (Z.eqb_spec (Z.land x (2 ^ n)) 0) as [E0|]; [|done]. apply (f_equal (λ z, Z.testbit z n)) in E0.
    by rewrite Z.land_spec, E, Z.pow2_bits_true, Z.bits_0 in E0.
  - rewrite (proj2 (Z.eqb_eq _ _)); [done|]. apply Z.bits_inj'. intros m Hm. rewrite Z.land_spec, Z.bits_0.
    destruct (decide (m = n)) as [->|]; [by rewrite E|]. rewrite Z.pow2_bits_false by done. apply andb_false_r.
Qed.

Lemma land_two x n m : 0 ≤ n → 0 ≤ m → negb (Z.land x (Z.lor (2 ^ n) (2 ^ m)) =? 0) = Z.testbit x n || Z.testbit x m.
Proof.
  intros Hn Hm. rewrite Z.land_lor_distr_r, <- (land_bit x n), <- (land_bit x m) by done.
  destruct (Z.eqb_spec (Z.lor (Z.land x (2 ^ n)) (Z.land x (2 ^ m))) 0) as [E|E].
  - apply Z.lor_eq_0_iff in E as [-> ->]. done.
  - destruct (Z.eqb_spec (Z.land x (2 ^ n)) 0) as [E1|]; [|done]. destruct (Z.eqb_spec (Z.land x (2 ^ m)) 0) as [E2|]; [|done].
    by rewrite E1, E2 in E.
Qed.

(** An event does what its mask says. *)
Lemma translate_event mask i m :
  handle_event (translate mask) i m =
  let m1 := if wants_read mask then on_desc readIfWaiting i m else m in
  if wants_write mask then on_desc writeIfWaiting i m1 else m1.
Proof.
  unfold translate, wants_read, wants_write.
  change EPOLLERR with (2 ^ 3). change EPOLLHUP with (2 ^ 4). change EPOLLIN with (2 ^ 0). change EPOLLOUT with (2 ^ 2).
  rewrite (land_bit mask 3), (land_two mask 4 0), (land_two mask 4 2) by lia.
  destruct (Z.testbit mask 3), (Z.testbit mask 4), (Z.testbit mask 0), (Z.testbit mask 2); reflexivity.
Qed.

Lemma collect_ok evs : ∀ pre p, events_ p = pre ++ evs →
  collect_events (length evs) (length pre) p = Ok ((λ ev, (translate ev.1, ev.2)) <$> evs) p.
Proof.
  induction evs as [|[mask d] evs IH]; intros pre p E; [done|]. cbn [length collect_events].
  unfold mbind, M_bind, getEvents. rewrite E, list_lookup_middle by done.
  specialize (IH (pre ++ [(mask, d)]) p). rewrite length_app, Nat.add_1_r in IH. cbn [length] in IH. rewrite IH; [done|].
  by rewrite E, <- (assoc_L (++)).
Qed.

(** How often [epoll_wait] was interrupted before it gave [evs]. *)
Definition waits (n : nat) (evs : list (Z * nat)) : list wait_res := replicate n WIntr ++ [WEvents evs].

(** The poller and the I/O manager dispatch every event.  However often the
    wait is interrupted, [poll()] returns the number of events, every
    [getEvents(i)] below it is in bounds, and the round of the manager runs, for
    each event in order, [readIfWaiting()] of its descriptor when the mask has
    an error, a hang-up or input, and [writeIfWaiting()] when it has an error, a
    hang-up or room for output; it does nothing for other bits. *)
Theorem poll_dispatch k evs now p m :
  (length evs ≤ MAX_FDS_PER_POLL)%nat →
  ∃ p' es, poll_wait (waits k evs) p = Ok (Z.of_nat (length evs)) p' ∧
    collect_events (length evs) 0 p' = Ok es p' ∧
    poll_round now es m = collect (foldl (λ m ev,
      let m1 := if wants_read ev.1 then on_desc readIfWaiting ev.2 m else m in
      if wants_write ev.1 then on_desc writeIfWaiting ev.2 m1 else m1) (run_timers now m) evs).
Proof.
  intros Hlen. exists (mkPoller (epoll_fd p) evs (watched p)), ((λ ev, (translate ev.1, ev.2)) <$> evs). split_and!.
  - induction k as [|k IH]; [|done]. cbn. unfold mbind, M_bind, modify. by rewrite take_ge.
  - by apply (collect_ok evs []).
  - unfold poll_round. f_equal. generalize (run_timers now m). induction evs as [|ev evs IH]; intros m0; [done|]. cbn in *.
    rewrite translate_event. apply IH. lia.
Qed.

Lemma poll_dispatch_witness : ∃ p' es,
  poll_wait (waits 2 [(17, 0%nat); (2, 1%nat)]) InternalPoller_init = Ok 2 p' ∧
  collect_events 2 0 p' = Ok es p' ∧ es = [(6, 0%nat); (0, 1%nat)].
Proof.
  destruct (poll_dispatch 2 [(17, 0%nat); (2, 1%nat)] 0 InternalPoller_init (mkIO [] [] [] [] [])) as (p' & es & H1 & H2 & _).
  - apply (bool_decide_unpack _). vm_compute. exact I.
  - exists p', es. split; [exact H1|]. split; [exact H2|].
    injection H1 as <-. injection H2 as <-. reflexivity.
Defined.
