(* ===== verification/Callback.v ===== *)
(** * Callbacks: [callback_instances.hpp] and [thread.cpp]

    A callback is a heap object that captures a member function, the object it
    is a method of and the first of its arguments, and is called with the rest.
    [callback.py] prints one pair of classes for every number of arguments up to
    three and every number of them bound; [CallableOnce_i_b] has [i] arguments of
    which [b] are bound, and so are the factories named: the C++ overloads
    [makeCallableOnce] and [makeCallableMany] on those numbers.

    A call-once callback deletes itself after the call, so what matters besides
    the value is which callbacks are alive.  The state is a [World]: the state
    [T] of the rest of the program and the identities of the live callback
    objects.  Identities are never used twice: an access through a stale pointer
    is a fault, whatever the allocator would have put at the address since. *)
From stdpp Require Import base list gmap fin_sets.
From S2P Require Import Prelude ThreadLocal.

(** ** The heap of callback objects *)

Record World (T : Type) : Type := mkWorld {
  prog : T;          (* the rest of the program *)
  live : gset nat;   (* the callback objects that exist *)
  next_id : nat;     (* the identity of the next object *)
}.
Arguments mkWorld {T}.
Arguments prog {T}.
Arguments live {T}.
Arguments next_id {T}.

(** [new], [delete] and the access to a member of a callback. *)
Definition new_ {T} : M (World T) nat := λ w,
  Ok (next_id w) (mkWorld (prog w) ({[next_id w]} ∪ live w) (S (next_id w))).

Definition alive {T} (this : nat) : M (World T) unit := λ w,
  if decide (this ∈ live w) then Ok tt w else Err (Segv (Z.of_nat this)).

Definition delete_ {T} (this : nat) : M (World T) unit := λ w,
  if decide (this ∈ live w) then Ok tt (mkWorld (prog w) (live w ∖ {[this]}) (next_id w))
  else Err (Segv (Z.of_nat this)).

(** The three bodies of [operator()]: of a call-once callback, of its
    specialisation for [void], and of a call-many callback. *)
Definition invoke_once {T Res} (this : nat) (c : M (World T) Res) : M (World T) Res :=
  alive this;; ret ← c; delete_ this;; mret ret.
Definition invoke_void {T} (this : nat) (c : M (World T) unit) : M (World T) unit :=
  alive this;; c;; delete_ this.
Definition invoke_many {T Res} (this : nat) (c : M (World T) Res) : M (World T) Res :=
  alive this;; c.

(** The abstract classes. *)
Record Callback0 (T Res : Type) : Type := mkCb0 {
  operator0 : M (World T) Res;
  once0 : bool;
}.
Arguments mkCb0 {T Res}.
Arguments operator0 {T Res}.
Arguments once0 {T Res}.

Record Callback1 (T Res Arg1 : Type) : Type := mkCb1 {
  operator1 : Arg1 → M (World T) Res;
  once1 : bool;
}.
Arguments mkCb1 {T Res Arg1}.
Arguments operator1 {T Res Arg1}.
Arguments once1 {T Res Arg1}.

Record Callback2 (T Res Arg1 Arg2 : Type) : Type := mkCb2 {
  operator2 : Arg1 → Arg2 → M (World T) Res;
  once2 : bool;
}.
Arguments mkCb2 {T Res Arg1 Arg2}.
Arguments operator2 {T Res Arg1 Arg2}.
Arguments once2 {T Res Arg1 Arg2}.

Record Callback3 (T Res Arg1 Arg2 Arg3 : Type) : Type := mkCb3 {
  operator3 : Arg1 → Arg2 → Arg3 → M (World T) Res;
  once3 : bool;
}.
Arguments mkCb3 {T Res Arg1 Arg2 Arg3}.
Arguments operator3 {T Res Arg1 Arg2 Arg3}.
Arguments once3 {T Res Arg1 Arg2 Arg3}.

(** ** The callables and their factories *)

Definition CallableOnce_0_0 {T Target Res : Type} (target_func : Target → M (World T) Res) (obj : Target) (this : nat) : Callback0 T Res :=
  mkCb0 (invoke_once this (target_func obj)) true.
Definition CallableOnce_0_0_void {T Target : Type} (target_func : Target → M (World T) unit) (obj : Target) (this : nat) : Callback0 T unit :=
  mkCb0 (invoke_void this (target_func obj)) true.
Definition makeCallableOnce_0_0 {T Target Res : Type} (f : Target → M (World T) Res) (obj : Target) : M (World T) (nat * Callback0 T Res) :=
  this ← new_; mret (this, CallableOnce_0_0 f obj this).
Definition CallableMany_0_0 {T Target Res : Type} (target_func : Target → M (World T) Res) (obj : Target) (this : nat) : Callback0 T Res :=
  mkCb0 (invoke_many this (target_func obj)) false.
Definition makeCallableMany_0_0 {T Target Res : Type} (f : Target → M (World T) Res) (obj : Target) : M (World T) (nat * Callback0 T Res) :=
  this ← new_; mret (this, CallableMany_0_0 f obj this).

Definition CallableOnce_1_0 {T Target Res Arg1 : Type} (target_func : Target → Arg1 → M (World T) Res) (obj : Target) (this : nat) : Callback1 T Res Arg1 :=
  mkCb1 (λ arg1, invoke_once this (target_func obj arg1)) true.
Definition CallableOnce_1_0_void {T Target Arg1 : Type} (target_func : Target → Arg1 → M (World T) unit) (obj : Target) (this : nat) : Callback1 T unit Arg1 :=
  mkCb1 (λ arg1, invoke_void this (target_func obj arg1)) true.
Definition makeCallableOnce_1_0 {T Target Res Arg1 : Type} (f : Target → Arg1 → M (World T) Res) (obj : Target) : M (World T) (nat * Callback1 T Res Arg1) :=
  this ← new_; mret (this, CallableOnce_1_0 f obj this).
Definition CallableMany_1_0 {T Target Res Arg1 : Type} (target_func : Target → Arg1 → M (World T) Res) (obj : Target) (this : nat) : Callback1 T Res Arg1 :=
  mkCb1 (λ arg1, invoke_many this (target_func obj arg1)) false.
Definition makeCallableMany_1_0 {T Target Res Arg1 : Type} (f : Target → Arg1 → M (World T) Res) (obj : Target) : M (World T) (nat * Callback1 T Res Arg1) :=
  this ← new_; mret (this, CallableMany_1_0 f obj this).

Definition CallableOnce_1_1 {T Target Res Bind1 : Type} (target_func : Target → Bind1 → M (World T) Res) (obj : Target) (bind1 : Bind1) (this : nat) : Callback0 T Res :=
  mkCb0 (invoke_once this (target_func obj bind1)) true.
Definition CallableOnce_1_1_void {T Target Bind1 : Type} (target_func : Target → Bind1 → M (World T) unit) (obj : Target) (bind1 : Bind1) (this : nat) : Callback0 T unit :=
  mkCb0 (invoke_void this (target_func obj bind1)) true.
Definition makeCallableOnce_1_1 {T Target Res Bind1 : Type} (f : Target → Bind1 → M (World T) Res) (obj : Target) (bind1 : Bind1) : M (World T) (nat * Callback0 T Res) :=
  this ← new_; mret (this, CallableOnce_1_1 f obj bind1 this).
Definition CallableMany_1_1 {T Target Res Bind1 : Type} (target_func : Target → Bind1 → M (World T) Res) (obj : Target) (bind1 : Bind1) (this : nat) : Callback0 T Res :=
  mkCb0 (invoke_many this (target_func obj bind1)) false.
Definition makeCallableMany_1_1 {T Target Res Bind1 : Type} (f : Target → Bind1 → M (World T) Res) (obj : Target) (bind1 : Bind1) : M (World T) (nat * Callback0 T Res) :=
  this ← new_; mret (this, CallableMany_1_1 f obj bind1 this).

Definition CallableOnce_2_0 {T Target Res Arg1 Arg2 : Type} (target_func : Target → Arg1 → Arg2 → M (World T) Res) (obj : Target) (this : nat) : Callback2 T Res Arg1 Arg2 :=
  mkCb2 (λ arg1 arg2, invoke_once this (target_func obj arg1 arg2)) true.
Definition CallableOnce_2_0_void {T Target Arg1 Arg2 : Type} (target_func : Target → Arg1 → Arg2 → M (World T) unit) (obj : Target) (this : nat) : Callback2 T unit Arg1 Arg2 :=
  mkCb2 (λ arg1 arg2, invoke_void this (target_func obj arg1 arg2)) true.
Definition makeCallableOnce_2_0 {T Target Res Arg1 Arg2 : Type} (f : Target → Arg1 → Arg2 → M (World T) Res) (obj : Target) : M (World T) (nat * Callback2 T Res Arg1 Arg2) :=
  this ← new_; mret (this, CallableOnce_2_0 f obj this).
Definition CallableMany_2_0 {T Target Res Arg1 Arg2 : Type} (target_func : Target → Arg1 → Arg2 → M (World T) Res) (obj : Target) (this : nat) : Callback2 T Res Arg1 Arg2 :=
  mkCb2 (λ arg1 arg2, invoke_many this (target_func obj arg1 arg2)) false.
Definition makeCallableMany_2_0 {T Target Res Arg1 Arg2 : Type} (f : Target → Arg1 → Arg2 → M (World T) Res) (obj : Target) : M (World T) (nat * Callback2 T Res Arg1 Arg2) :=
  this ← new_; mret (this, CallableMany_2_0 f obj this).

Definition CallableOnce_2_1 {T Target Res Bind1 Arg1 : Type} (target_func : Target → Bind1 → Arg1 → M (World T) Res) (obj : Target) (bind1 : Bind1) (this : nat) : Callback1 T Res Arg1 :=
  mkCb1 (λ arg1, invoke_once this (target_func obj bind1 arg1)) true.
Definition CallableOnce_2_1_void {T Target Bind1 Arg1 : Type} (target_func : Target → Bind1 → Arg1 → M (World T) unit) (obj : Target) (bind1 : Bind1) (this : nat) : Callback1 T unit Arg1 :=
  mkCb1 (λ arg1, invoke_void this (target_func obj bind1 arg1)) true.
Definition makeCallableOnce_2_1 {T Target Res Bind1 Arg1 : Type} (f : Target → Bind1 → Arg1 → M (World T) Res) (obj : Target) (bind1 : Bind1) : M (World T) (nat * Callback1 T Res Arg1) :=
  this ← new_; mret (this, CallableOnce_2_1 f obj bind1 this).
Definition CallableMany_2_1 {T Target Res Bind1 Arg1 : Type} (target_func : Target → Bind1 → Arg1 → M (World T) Res) (obj : Target) (bind1 : Bind1) (this : nat) : Callback1 T Res Arg1 :=
  mkCb1 (λ arg1, invoke_many this (target_func obj bind1 arg1)) false.
Definition makeCallableMany_2_1 {T Target Res Bind1 Arg1 : Type} (f : Target → Bind1 → Arg1 → M (World T) Res) (obj : Target) (bind1 : Bind1) : M (World T) (nat * Callback1 T Res Arg1) :=
  this ← new_; mret (this, CallableMany_2_1 f obj bind1 this).

Definition CallableOnce_2_2 {T Target Res Bind1 Bind2 : Type} (target_func : Target → Bind1 → Bind2 → M (World T) Res) (obj : Target) (bind1 : Bind1) (bind2 : Bind2) (this : nat) : Callback0 T Res :=
  mkCb0 (invoke_once this (target_func obj bind1 bind2)) true.
Definition CallableOnce_2_2_void {T Target Bind1 Bind2 : Type} (target_func : Target → Bind1 → Bind2 → M (World T) unit) (obj : Target) (bind1 : Bind1) (bind2 : Bind2) (this : nat) : Callback0 T unit :=
  mkCb0 (invoke_void this (target_func obj bind1 bind2)) true.
Definition makeCallableOnce_2_2 {T Target Res Bind1 Bind2 : Type} (f : Target → Bind1 → Bind2 → M (World T) Res) (obj : Target) (bind1 : Bind1) (bind2 : Bind2) : M (World T) (nat * Callback0 T Res) :=
  this ← new_; mret (this, CallableOnce_2_2 f obj bind1 bind2 this).
Definition CallableMany_2_2 {T Target Res Bind1 Bind2 : Type} (target_func : Target → Bind1 → Bind2 → M (World T) Res) (obj : Target) (bind1 : Bind1) (bind2 : Bind2) (this : nat) : Callback0 T Res :=
  mkCb0 (invoke_many this (target_func obj bind1 bind2)) false.
Definition makeCallableMany_2_2 {T Target Res Bind1 Bind2 : Type} (f : Target → Bind1 → Bind2 → M (World T) Res) (obj : Target) (bind1 : Bind1) (bind2 : Bind2) : M (World T) (nat * Callback0 T Res) :=
  this ← new_; mret (this, CallableMany_2_2 f obj bind1 bind2 this).

Definition CallableOnce_3_0 {T Target Res Arg1 Arg2 Arg3 : Type} (target_func : Target → Arg1 → Arg2 → Arg3 → M (World T) Res) (obj : Target) (this : nat) : Callback3 T Res Arg1 Arg2 Arg3 :=
  mkCb3 (λ arg1 arg2 arg3, invoke_once this (target_func obj arg1 arg2 arg3)) true.
Definition CallableOnce_3_0_void {T Target Arg1 Arg2 Arg3 : Type} (target_func : Target → Arg1 → Arg2 → Arg3 → M (World T) unit) (obj : Target) (this : nat) : Callback3 T unit Arg1 Arg2 Arg3 :=
  mkCb3 (λ arg1 arg2 arg3, invoke_void this (target_func obj arg1 arg2 arg3)) true.
Definition makeCallableOnce_3_0 {T Target Res Arg1 Arg2 Arg3 : Type} (f : Target → Arg1 → Arg2 → Arg3 → M (World T) Res) (obj : Target) : M (World T) (nat * Callback3 T Res Arg1 Arg2 Arg3) :=
  this ← new_; mret (this, CallableOnce_3_0 f obj this).
Definition CallableMany_3_0 {T Target Res Arg1 Arg2 Arg3 : Type} (target_func : Target → Arg1 → Arg2 → Arg3 → M (World T) Res) (obj : Target) (this : nat) : Callback3 T Res Arg1 Arg2 Arg3 :=
  mkCb3 (λ arg1 arg2 arg3, invoke_many this (target_func obj arg1 arg2 arg3)) false.
Definition makeCallableMany_3_0 {T Target Res Arg1 Arg2 Arg3 : Type} (f : Target → Arg1 → Arg2 → Arg3 → M (World T) Res) (obj : Target) : M (World T) (nat * Callback3 T Res Arg1 Arg2 Arg3) :=
  this ← new_; mret (this, CallableMany_3_0 f obj this).

Definition CallableOnce_3_1 {T Target Res Bind1 Arg1 Arg2 : Type} (target_func : Target → Bind1 → Arg1 → Arg2 → M (World T) Res) (obj : Target) (bind1 : Bind1) (this : nat) : Callback2 T Res Arg1 Arg2 :=
  mkCb2 (λ arg1 arg2, invoke_once this (target_func obj bind1 arg1 arg2)) true.
Definition CallableOnce_3_1_void {T Target Bind1 Arg1 Arg2 : Type} (target_func : Target → Bind1 → Arg1 → Arg2 → M (World T) unit) (obj : Target) (bind1 : Bind1) (this : nat) : Callback2 T unit Arg1 Arg2 :=
  mkCb2 (λ arg1 arg2, invoke_void this (target_func obj bind1 arg1 arg2)) true.
Definition makeCallableOnce_3_1 {T Target Res Bind1 Arg1 Arg2 : Type} (f : Target → Bind1 → Arg1 → Arg2 → M (World T) Res) (obj : Target) (bind1 : Bind1) : M (World T) (nat * Callback2 T Res Arg1 Arg2) :=
  this ← new_; mret (this, CallableOnce_3_1 f obj bind1 this).
Definition CallableMany_3_1 {T Target Res Bind1 Arg1 Arg2 : Type} (target_func : Target → Bind1 → Arg1 → Arg2 → M (World T) Res) (obj : Target) (bind1 : Bind1) (this : nat) : Callback2 T Res Arg1 Arg2 :=
  mkCb2 (λ arg1 arg2, invoke_many this (target_func obj bind1 arg1 arg2)) false.
Definition makeCallableMany_3_1 {T Target Res Bind1 Arg1 Arg2 : Type} (f : Target → Bind1 → Arg1 → Arg2 → M (World T) Res) (obj : Target) (bind1 : Bind1) : M (World T) (nat * Callback2 T Res Arg1 Arg2) :=
  this ← new_; mret (this, CallableMany_3_1 f obj bind1 this).

Definition CallableOnce_3_2 {T Target Res Bind1 Bind2 Arg1 : Type} (target_func : Target → Bind1 → Bind2 → Arg1 → M (World T) Res) (obj : Target) (bind1 : Bind1) (bind2 : Bind2) (this : nat) : Callback1 T Res Arg1 :=
  mkCb1 (λ arg1, invoke_once this (target_func obj bind1 bind2 arg1)) true.
Definition CallableOnce_3_2_void {T Target Bind1 Bind2 Arg1 : Type} (target_func : Target → Bind1 → Bind2 → Arg1 → M (World T) unit) (obj : Target) (bind1 : Bind1) (bind2 : Bind2) (this : nat) : Callback1 T unit Arg1 :=
  mkCb1 (λ arg1, invoke_void this (target_func obj bind1 bind2 arg1)) true.
Definition makeCallableOnce_3_2 {T Target Res Bind1 Bind2 Arg1 : Type} (f : Target → Bind1 → Bind2 → Arg1 → M (World T) Res) (obj : Target) (bind1 : Bind1) (bind2 : Bind2) : M (World T) (nat * Callback1 T Res Arg1) :=
  this ← new_; mret (this, CallableOnce_3_2 f obj bind1 bind2 this).
Definition CallableMany_3_2 {T Target Res Bind1 Bind2 Arg1 : Type} (target_func : Target → Bind1 → Bind2 → Arg1 → M (World T) Res) (obj : Target) (bind1 : Bind1) (bind2 : Bind2) (this : nat) : Callback1 T Res Arg1 :=
  mkCb1 (λ arg1, invoke_many this (target_func obj bind1 bind2 arg1)) false.
Definition makeCallableMany_3_2 {T Target Res Bind1 Bind2 Arg1 : Type} (f : Target → Bind1 → Bind2 → Arg1 → M (World T) Res) (obj : Target) (bind1 : Bind1) (bind2 : Bind2) : M (World T) (nat * Callback1 T Res Arg1) :=
  this ← new_; mret (this, CallableMany_3_2 f obj bind1 bind2 this).

Definition CallableOnce_3_3 {T Target Res Bind1 Bind2 Bind3 : Type} (target_func : Target → Bind1 → Bind2 → Bind3 → M (World T) Res) (obj : Target) (bind1 : Bind1) (bind2 : Bind2) (bind3 : Bind3) (this : nat) : Callback0 T Res :=
  mkCb0 (invoke_once this (target_func obj bind1 bind2 bind3)) true.
Definition CallableOnce_3_3_void {T Target Bind1 Bind2 Bind3 : Type} (target_func : Target → Bind1 → Bind2 → Bind3 → M (World T) unit) (obj : Target) (bind1 : Bind1) (bind2 : Bind2) (bind3 : Bind3) (this : nat) : Callback0 T unit :=
  mkCb0 (invoke_void this (target_func obj bind1 bind2 bind3)) true.
Definition makeCallableOnce_3_3 {T Target Res Bind1 Bind2 Bind3 : Type} (f : Target → Bind1 → Bind2 → Bind3 → M (World T) Res) (obj : Target) (bind1 : Bind1) (bind2 : Bind2) (bind3 : Bind3) : M (World T) (nat * Callback0 T Res) :=
  this ← new_; mret (this, CallableOnce_3_3 f obj bind1 bind2 bind3 this).
Definition CallableMany_3_3 {T Target Res Bind1 Bind2 Bind3 : Type} (target_func : Target → Bind1 → Bind2 → Bind3 → M (World T) Res) (obj : Target) (bind1 : Bind1) (bind2 : Bind2) (bind3 : Bind3) (this : nat) : Callback0 T Res :=
  mkCb0 (invoke_many this (target_func obj bind1 bind2 bind3)) false.
Definition makeCallableMany_3_3 {T Target Res Bind1 Bind2 Bind3 : Type} (f : Target → Bind1 → Bind2 → Bind3 → M (World T) Res) (obj : Target) (bind1 : Bind1) (bind2 : Bind2) (bind3 : Bind3) : M (World T) (nat * Callback0 T Res) :=
  this ← new_; mret (this, CallableMany_3_3 f obj bind1 bind2 bind3 this).

(** ** A single view of the callbacks

    [Callable T As Res] forgets how many arguments there are: it takes them as
    one tuple. *)

Definition args (As : list Type) : Type := foldr prod unit As.

Record Callable (T : Type) (As : list Type) (Res : Type) : Type := mkCallable {
  call : args As → M (World T) Res;
  once : bool;
}.
Arguments mkCallable {T As Res}.
Arguments call {T As Res}.
Arguments once {T As Res}.

Definition uncurry0 {T R} (c : Callback0 T R) : Callable T [] R :=
  mkCallable (λ _ : args [], operator0 c) (once0 c).
Definition uncurry1 {T R A} (c : Callback1 T R A) : Callable T [A] R :=
  mkCallable (λ '((a, _) : args [A]), operator1 c a) (once1 c).
Definition uncurry2 {T R A B} (c : Callback2 T R A B) : Callable T [A; B] R :=
  mkCallable (λ '((a, (b, _)) : args [A; B]), operator2 c a b) (once2 c).
Definition uncurry3 {T R A B C} (c : Callback3 T R A B C) : Callable T [A; B; C] R :=
  mkCallable (λ '((a, (b, (c', _))) : args [A; B; C]), operator3 c a b c') (once3 c).

Definition on_made {T X Y} (g : X → Y) (mk : M (World T) (nat * X)) : M (World T) (nat * Y) :=
  pc ← mk; mret (pc.1, g pc.2).
Infix "<$$>" := on_made (at level 61, left associativity).

(** [built k As R mk tgt]: [mk] is one of the twenty factories applied to a
    member function, an object and bound arguments; the callback it makes is
    call-once when [k], takes arguments of the types [As], and stands for [tgt]. *)
Inductive built {T : Type} : bool → ∀ (As : list Type) (R : Type),
  M (World T) (nat * Callable T As R) → (args As → M (World T) R) → Prop :=
| BuiltOnce_0_0 {Target Res : Type} (f : Target → M (World T) Res) (obj : Target) :
    built true [] Res (uncurry0 <$$> makeCallableOnce_0_0 f obj) (λ _, f obj)
| BuiltMany_0_0 {Target Res : Type} (f : Target → M (World T) Res) (obj : Target) :
    built false [] Res (uncurry0 <$$> makeCallableMany_0_0 f obj) (λ _, f obj)
| BuiltOnce_1_0 {Target Res Arg1 : Type} (f : Target → Arg1 → M (World T) Res) (obj : Target) :
    built true [Arg1] Res (uncurry1 <$$> makeCallableOnce_1_0 f obj) (λ '(arg1, _), f obj arg1)
| BuiltMany_1_0 {Target Res Arg1 : Type} (f : Target → Arg1 → M (World T) Res) (obj : Target) :
    built false [Arg1] Res (uncurry1 <$$> makeCallableMany_1_0 f obj) (λ '(arg1, _), f obj arg1)
| BuiltOnce_1_1 {Target Res Bind1 : Type} (f : Target → Bind1 → M (World T) Res) (obj : Target) (bind1 : Bind1) :
    built true [] Res (uncurry0 <$$> makeCallableOnce_1_1 f obj bind1) (λ _, f obj bind1)
| BuiltMany_1_1 {Target Res Bind1 : Type} (f : Target → Bind1 → M (World T) Res) (obj : Target) (bind1 : Bind1) :
    built false [] Res (uncurry0 <$$> makeCallableMany_1_1 f obj bind1) (λ _, f obj bind1)
| BuiltOnce_2_0 {Target Res Arg1 Arg2 : Type} (f : Target → Arg1 → Arg2 → M (World T) Res) (obj : Target) :
    built true [Arg1; Arg2] Res (uncurry2 <$$> makeCallableOnce_2_0 f obj) (λ '(arg1, (arg2, _)), f obj arg1 arg2)
| BuiltMany_2_0 {Target Res Arg1 Arg2 : Type} (f : Target → Arg1 → Arg2 → M (World T) Res) (obj : Target) :
    built false [Arg1; Arg2] Res (uncurry2 <$$> makeCallableMany_2_0 f obj) (λ '(arg1, (arg2, _)), f obj arg1 arg2)
| BuiltOnce_2_1 {Target Res Bind1 Arg1 : Type} (f : Target → Bind1 → Arg1 → M (World T) Res) (obj : Target) (bind1 : Bind1) :
    built true [Arg1] Res (uncurry1 <$$> makeCallableOnce_2_1 f obj bind1) (λ '(arg1, _), f obj bind1 arg1)
| BuiltMany_2_1 {Target Res Bind1 Arg1 : Type} (f : Target → Bind1 → Arg1 → M (World T) Res) (obj : Target) (bind1 : Bind1) :
    built false [Arg1] Res (uncurry1 <$$> makeCallableMany_2_1 f obj bind1) (λ '(arg1, _), f obj bind1 arg1)
| BuiltOnce_2_2 {Target Res Bind1 Bind2 : Type} (f : Target → Bind1 → Bind2 → M (World T) Res) (obj : Target) (bind1 : Bind1) (bind2 : Bind2) :
    built true [] Res (uncurry0 <$$> makeCallableOnce_2_2 f obj bind1 bind2) (λ _, f obj bind1 bind2)
| BuiltMany_2_2 {Target Res Bind1 Bind2 : Type} (f : Target → Bind1 → Bind2 → M (World T) Res) (obj : Target) (bind1 : Bind1) (bind2 : Bind2) :
    built false [] Res (uncurry0 <$$> makeCallableMany_2_2 f obj bind1 bind2) (λ _, f obj bind1 bind2)
| BuiltOnce_3_0 {Target Res Arg1 Arg2 Arg3 : Type} (f : Target → Arg1 → Arg2 → Arg3 → M (World T) Res) (obj : Target) :
    built true [Arg1; Arg2; Arg3] Res (uncurry3 <$$> makeCallableOnce_3_0 f obj) (λ '(arg1, (arg2, (arg3, _))), f obj arg1 arg2 arg3)
| BuiltMany_3_0 {Target Res Arg1 Arg2 Arg3 : Type} (f : Target → Arg1 → Arg2 → Arg3 → M (World T) Res) (obj : Target) :
    built false [Arg1; Arg2; Arg3] Res (uncurry3 <$$> makeCallableMany_3_0 f obj) (λ '(arg1, (arg2, (arg3, _))), f obj arg1 arg2 arg3)
| BuiltOnce_3_1 {Target Res Bind1 Arg1 Arg2 : Type} (f : Target → Bind1 → Arg1 → Arg2 → M (World T) Res) (obj : Target) (bind1 : Bind1) :
    built true [Arg1; Arg2] Res (uncurry2 <$$> makeCallableOnce_3_1 f obj bind1) (λ '(arg1, (arg2, _)), f obj bind1 arg1 arg2)
| BuiltMany_3_1 {Target Res Bind1 Arg1 Arg2 : Type} (f : Target → Bind1 → Arg1 → Arg2 → M (World T) Res) (obj : Target) (bind1 : Bind1) :
    built false [Arg1; Arg2] Res (uncurry2 <$$> makeCallableMany_3_1 f obj bind1) (λ '(arg1, (arg2, _)), f obj bind1 arg1 arg2)
| BuiltOnce_3_2 {Target Res Bind1 Bind2 Arg1 : Type} (f : Target → Bind1 → Bind2 → Arg1 → M (World T) Res) (obj : Target) (bind1 : Bind1) (bind2 : Bind2) :
    built true [Arg1] Res (uncurry1 <$$> makeCallableOnce_3_2 f obj bind1 bind2) (λ '(arg1, _), f obj bind1 bind2 arg1)
| BuiltMany_3_2 {Target Res Bind1 Bind2 Arg1 : Type} (f : Target → Bind1 → Bind2 → Arg1 → M (World T) Res) (obj : Target) (bind1 : Bind1) (bind2 : Bind2) :
    built false [Arg1] Res (uncurry1 <$$> makeCallableMany_3_2 f obj bind1 bind2) (λ '(arg1, _), f obj bind1 bind2 arg1)
| BuiltOnce_3_3 {Target Res Bind1 Bind2 Bind3 : Type} (f : Target → Bind1 → Bind2 → Bind3 → M (World T) Res) (obj : Target) (bind1 : Bind1) (bind2 : Bind2) (bind3 : Bind3) :
    built true [] Res (uncurry0 <$$> makeCallableOnce_3_3 f obj bind1 bind2 bind3) (λ _, f obj bind1 bind2 bind3)
| BuiltMany_3_3 {Target Res Bind1 Bind2 Bind3 : Type} (f : Target → Bind1 → Bind2 → Bind3 → M (World T) Res) (obj : Target) (bind1 : Bind1) (bind2 : Bind2) (bind3 : Bind3) :
    built false [] Res (uncurry0 <$$> makeCallableMany_3_3 f obj bind1 bind2 bind3) (λ _, f obj bind1 bind2 bind3).

(** The general class and its specialisation for a target that returns [void],
    built from the same member function, object and bound arguments. *)
Inductive void_pair {T : Type} : ∀ As : list Type, Callable T As unit → Callable T As unit → Prop :=
| Void_0_0 {Target : Type} (f : Target → M (World T) unit) (obj : Target) (this : nat) :
    void_pair [] (uncurry0 (CallableOnce_0_0 f obj this)) (uncurry0 (CallableOnce_0_0_void f obj this))
| Void_1_0 {Target Arg1 : Type} (f : Target → Arg1 → M (World T) unit) (obj : Target) (this : nat) :
    void_pair [Arg1] (uncurry1 (CallableOnce_1_0 f obj this)) (uncurry1 (CallableOnce_1_0_void f obj this))
| Void_1_1 {Target Bind1 : Type} (f : Target → Bind1 → M (World T) unit) (obj : Target) (bind1 : Bind1) (this : nat) :
    void_pair [] (uncurry0 (CallableOnce_1_1 f obj bind1 this)) (uncurry0 (CallableOnce_1_1_void f obj bind1 this))
| Void_2_0 {Target Arg1 Arg2 : Type} (f : Target → Arg1 → Arg2 → M (World T) unit) (obj : Target) (this : nat) :
    void_pair [Arg1; Arg2] (uncurry2 (CallableOnce_2_0 f obj this)) (uncurry2 (CallableOnce_2_0_void f obj this))
| Void_2_1 {Target Bind1 Arg1 : Type} (f : Target → Bind1 → Arg1 → M (World T) unit) (obj : Target) (bind1 : Bind1) (this : nat) :
    void_pair [Arg1] (uncurry1 (CallableOnce_2_1 f obj bind1 this)) (uncurry1 (CallableOnce_2_1_void f obj bind1 this))
| Void_2_2 {Target Bind1 Bind2 : Type} (f : Target → Bind1 → Bind2 → M (World T) unit) (obj : Target) (bind1 : Bind1) (bind2 : Bind2) (this : nat) :
    void_pair [] (uncurry0 (CallableOnce_2_2 f obj bind1 bind2 this)) (uncurry0 (CallableOnce_2_2_void f obj bind1 bind2 this))
| Void_3_0 {Target Arg1 Arg2 Arg3 : Type} (f : Target → Arg1 → Arg2 → Arg3 → M (World T) unit) (obj : Target) (this : nat) :
    void_pair [Arg1; Arg2; Arg3] (uncurry3 (CallableOnce_3_0 f obj this)) (uncurry3 (CallableOnce_3_0_void f obj this))
| Void_3_1 {Target Bind1 Arg1 Arg2 : Type} (f : Target → Bind1 → Arg1 → Arg2 → M (World T) unit) (obj : Target) (bind1 : Bind1) (this : nat) :
    void_pair [Arg1; Arg2] (uncurry2 (CallableOnce_3_1 f obj bind1 this)) (uncurry2 (CallableOnce_3_1_void f obj bind1 this))
| Void_3_2 {Target Bind1 Bind2 Arg1 : Type} (f : Target → Bind1 → Bind2 → Arg1 → M (World T) unit) (obj : Target) (bind1 : Bind1) (bind2 : Bind2) (this : nat) :
    void_pair [Arg1] (uncurry1 (CallableOnce_3_2 f obj bind1 bind2 this)) (uncurry1 (CallableOnce_3_2_void f obj bind1 bind2 this))
| Void_3_3 {Target Bind1 Bind2 Bind3 : Type} (f : Target → Bind1 → Bind2 → Bind3 → M (World T) unit) (obj : Target) (bind1 : Bind1) (bind2 : Bind2) (bind3 : Bind3) (this : nat) :
    void_pair [] (uncurry0 (CallableOnce_3_3 f obj bind1 bind2 bind3 this)) (uncurry0 (CallableOnce_3_3_void f obj bind1 bind2 bind3 this)).

(** ** The contract of a callback *)

Ltac destruct_args a := cbv [args foldr] in a; repeat match goal with x : prod _ _ |- _ => destruct x end.

Section contract.
Context {T : Type}.
Implicit Types (w : World T) (p : nat).

(** The identities of live objects have been handed out. *)
Definition wf w : Prop := ∀ p, p ∈ live w → (p < next_id w)%nat.

(** The world without the object [p]. *)
Definition without p w : World T := mkWorld (prog w) (live w ∖ {[p]}) (next_id w).

(** The world with one more object. *)
Definition with_new w : World T := mkWorld (prog w) ({[next_id w]} ∪ live w) (S (next_id w)).

Lemma alive_live p w : p ∈ live w → alive p w = Ok tt w.
Proof. intros H. unfold alive. by rewrite decide_True. Qed.

Lemma alive_dead p w : p ∉ live w → alive p w = Err (Segv (Z.of_nat p)).
Proof. intros H. unfold alive. by rewrite decide_False. Qed.

Lemma delete_live p w : p ∈ live w → delete_ p w = Ok tt (without p w).
Proof. intros H. unfold delete_. by rewrite decide_True. Qed.

Lemma delete_dead p w : p ∉ live w → delete_ p w = Err (Segv (Z.of_nat p)).
Proof. intros H. unfold delete_. by rewrite decide_False. Qed.

Lemma without_dead p w : p ∉ live (without p w).
Proof. simpl. set_solver. Qed.

Lemma next_fresh w : wf w → next_id w ∉ live w.
Proof. intros Hwf Hin. apply Hwf in Hin. lia. Qed.

Lemma wf_new w : wf w → wf (with_new w).
Proof. intros Hwf p. simpl. rewrite elem_of_union, elem_of_singleton. intros [->|H%Hwf]; lia. Qed.

Lemma wf_without p w : wf w → wf (without p w).
Proof. intros Hwf q. simpl. rewrite elem_of_difference. intros [H%Hwf _]. done. Qed.

(** Either body of [operator()], by the kind of the callback. *)
Definition invoke {R} (k : bool) p (c : M (World T) R) : M (World T) R :=
  if k then invoke_once p c else invoke_many p c.

Lemma invoke_dead {R} k p (c : M (World T) R) w : p ∉ live w → invoke k p c w = Err (Segv (Z.of_nat p)).
Proof. intros H. destruct k; cbn; unfold invoke_once, invoke_many; by rewrite (bind_err _ _ _ _ (alive_dead _ _ H)). Qed.

Lemma invoke_live {R} k p (c : M (World T) R) w : p ∈ live w →
  invoke k p c w = match c w with
                   | Ok r w' => if k then if decide (p ∈ live w') then Ok r (without p w')
                                          else Err (Segv (Z.of_nat p))
                                else Ok r w'
                   | Err e => Err e
                   end.
Proof.
  intros H. destruct k; cbn; unfold invoke_once, invoke_many; rewrite (bind_ok _ _ _ _ _ (alive_live _ _ H)); unfold mbind, M_bind.
  - destruct (c w) as [r w'|e]; [|done]. unfold delete_. by case_decide.
  - by destruct (c w).
Qed.

(** What a factory does: it makes a new object, whose call is the body of its
    kind around the target. *)
Lemma built_spec k As R (mk : M (World T) (nat * Callable T As R)) tgt w :
  built k As R mk tgt →
  ∃ cb, mk w = Ok (next_id w, cb) (with_new w) ∧ once cb = k ∧
    ∀ a, call cb a = invoke k (next_id w) (tgt a).
Proof. destruct 1; eexists; (split_and!; [reflexivity..|intros a; by destruct_args a]). Qed.

(** C16: What every callback promises, whatever its number of arguments and bound
    arguments.  The factory never fails, makes an object that did not exist and
    touches nothing else; the callback knows its kind; calling it runs the member
    function on the object, the bound and then the passed arguments, with the
    outcome of that call.  A call-once callback is gone afterwards, so that every
    later call is an error, and so is a call whose target deleted the callback
    itself; a call-many callback changes nothing of its own. *)
Theorem callback_contract k As R (mk : M (World T) (nat * Callable T As R)) tgt w :
  built k As R mk tgt → wf w →
  ∃ p cb, mk w = Ok (p, cb) (with_new w) ∧ (p ∉ live w) ∧ (p ∈ live (with_new w)) ∧ once cb = k ∧
    ∀ a w1,
      (p ∉ live w1 → call cb a w1 = Err (Segv (Z.of_nat p))) ∧
      (∀ e, p ∈ live w1 → tgt a w1 = Err e → call cb a w1 = Err e) ∧
      (∀ r w2, p ∈ live w1 → tgt a w1 = Ok r w2 →
         if k then (p ∈ live w2 → call cb a w1 = Ok r (without p w2) ∧
                                  ∀ a', call cb a' (without p w2) = Err (Segv (Z.of_nat p))) ∧
                   (p ∉ live w2 → call cb a w1 = Err (Segv (Z.of_nat p)))
         else call cb a w1 = Ok r w2).
Proof.
  intros Hb Hwf. destruct (built_spec _ _ _ _ _ w Hb) as (cb & Hmk & Hk & Hcall).
  exists (next_id w), cb. split_and!; [done|by apply next_fresh|simpl; set_solver|done|].
  intros a w1. rewrite Hcall. split_and!; [by apply invoke_dead|..].
  - intros e Hl He. by rewrite invoke_live, He.
  - intros r w2 Hl Hr. rewrite invoke_live, Hr by done. destruct k; [|done]. split; intros H2.
    + rewrite decide_True by done. split; [done|]. intros a'. rewrite Hcall. apply invoke_dead, without_dead.
    + by rewrite decide_False.
Qed.

(** The class printed for targets that return [void] behaves like the general
    one: the same kind, and the same outcome of every call. *)
Theorem void_specialisation As (c c' : Callable T As unit) :
  void_pair As c c' → once c = once c' ∧ ∀ a w, call c a w = call c' a w.
Proof.
  intros H. assert (Hinv : ∀ p (b : M (World T) unit) w, invoke_once p b w = invoke_void p b w).
  { intros p b w. unfold invoke_once, invoke_void, mbind, M_bind. destruct (alive p w) as [? w1|]; [|done].
    destruct (b w1) as [[] w2|]; [|done]. by destruct (delete_ p w2) as [[] w3|]. }
  destruct H; (split; [done|]); intros a w; destruct_args a; apply Hinv.
Qed.

(** Calling a callback several times, in the order of the arguments. *)
Definition calls {As R} (cb : Callable T As R) (l : list (args As)) : M (World T) (list R) := mapM (call cb) l.

(** The target leaves the callback that calls it alone. *)
Definition spares {A R} (p : nat) (tgt : A → M (World T) R) : Prop :=
  ∀ a w r w', tgt a w = Ok r w' → p ∈ live w → p ∈ live w'.

(** Several calls of one callback.  A call-many callback runs its target once
    per call, in order, as if the calls were written out; of a call-once callback
    only the first call happens, and a second one is an error. *)
Theorem callback_calls k As R (mk : M (World T) (nat * Callable T As R)) tgt w :
  built k As R mk tgt → spares (next_id w) tgt →
  ∃ cb, mk w = Ok (next_id w, cb) (with_new w) ∧
    ∀ l w1, next_id w ∈ live w1 →
      calls cb l w1 =
        if k then match l with
                  | [] => Ok [] w1
                  | [a] => match tgt a w1 with Ok r w2 => Ok [r] (without (next_id w) w2) | Err e => Err e end
                  | a :: _ => match tgt a w1 with Ok _ _ => Err (Segv (Z.of_nat (next_id w))) | Err e => Err e end
                  end
        else mapM tgt l w1.
Proof.
  intros Hb Hsp. destruct (built_spec _ _ _ _ _ w Hb) as (cb & Hmk & _ & Hcall).
  exists cb. split; [done|]. intros l w1 Hl. unfold calls.
  revert w1 Hl. induction l as [|a l IH]; intros w1 Hl; [by destruct k|]. cbn [mapM]. rewrite Hcall.
  unfold mbind, M_bind. rewrite invoke_live by done. destruct (tgt a w1) as [r w2|e] eqn:Ht; [|by destruct k, l].
  pose proof (Hsp _ _ _ _ Ht Hl) as Hl2. destruct k.
  - rewrite decide_True by done. destruct l as [|b l]; [done|]. cbn [mapM]. rewrite Hcall. unfold mbind, M_bind.
    by rewrite invoke_dead by apply without_dead.
  - by rewrite IH.
Qed.

(** Code of the rest of the program, which knows nothing of callbacks. *)
Definition plain {R} (c : M T R) : M (World T) R := zoom prog (λ t w, mkWorld t (live w) (next_id w)) c.

(** A callback on a callback: a member function's callback is bound to an
    argument through a second one, as the test of currying does.  The call is the
    call of the member function, and neither object is left behind. *)
Theorem callback_currying {Target A R} (f : Target → A → M T R) (obj : Target) (v : A) w :
  wf w →
  (c1 ← makeCallableOnce_1_0 (λ o a, plain (f o a)) obj;
   c2 ← makeCallableOnce_1_1 operator1 c1.2 v;
   operator0 c2.2) w =
  match f obj v (prog w) with
  | Ok r t => Ok r (mkWorld t (live w) (S (S (next_id w))))
  | Err e => Err e
  end.
Proof.
  intros Hwf. pose proof (next_fresh w Hwf) as H1. pose proof (next_fresh _ (wf_new w Hwf)) as H2.
  pose proof (next_fresh _ (wf_new _ (wf_new w Hwf))) as H3. simpl in *.
  unfold makeCallableOnce_1_0, makeCallableOnce_1_1, mbind, M_bind, new_, mret, M_ret. cbn.
  change (invoke true (S (next_id w)) (invoke true (next_id w) (plain (f obj v))) (with_new (with_new w)) =
    match f obj v (prog w) with Ok r t => Ok r (mkWorld t (live w) (S (S (next_id w)))) | Err e => Err e end).
  rewrite invoke_live by (simpl; set_solver). rewrite invoke_live by (simpl; set_solver).
  unfold plain, zoom. cbn. destruct (f obj v (prog w)) as [r t|e]; [|done].
  rewrite decide_True by (simpl; set_solver). rewrite decide_True by (simpl; set_solver).
  unfold without. cbn. repeat f_equal. apply set_eq. intros x. destruct (decide (x = next_id w)); set_solver.
Qed.
End contract.

(** ** Ownership

    Who deletes a callback depends on its kind ([thread.hpp]: the ownership "is
    determined by whether the callback is call-once or not"): a call-once callback
    that has been called is gone, every other callback is deleted by its owner,
    as the destructors of the thread pools do with call-once tasks that never ran
    and the tests with call-many ones.  The rule is a type system for programs
    that make, call and delete callbacks: the context says which of the callbacks
    made so far are owned, and their kind. *)

Inductive cmd (T : Type) : Type :=
| Make (k : bool) (body : M T unit)
| Call (x : nat)     (* the callback of the [x]-th [Make] *)
| Delete (x : nat).
Arguments Make {T}.
Arguments Call {T}.
Arguments Delete {T}.

(** The callbacks made so far, the state of a running program. *)
Abbreviation env T := (list (nat * Callback0 T unit)).

Definition exec_cmd {T} (o : cmd T) (e : env T) : M (World T) (env T) :=
  match o with
  | Make true body => pc ← makeCallableOnce_0_0 (λ _ : unit, plain body) tt; mret (e ++ [pc])
  | Make false body => pc ← makeCallableMany_0_0 (λ _ : unit, plain body) tt; mret (e ++ [pc])
  | Call x => match e !! x with Some pc => operator0 pc.2;; mret e | None => fail Uninit end
  | Delete x => match e !! x with Some pc => delete_ pc.1;; mret e | None => fail Uninit end
  end.

Fixpoint exec_prog {T} (os : list (cmd T)) (e : env T) : M (World T) (env T) :=
  match os with
  | [] => mret e
  | o :: os => e' ← exec_cmd o e; exec_prog os e'
  end.

(** The type checker. *)
Definition check_cmd {T} (o : cmd T) (n : nat) (Γ : gmap nat bool) : option (nat * gmap nat bool) :=
  match o with
  | Make k _ => Some (S n, <[n := k]> Γ)
  | Call x => match Γ !! x with
              | Some true => Some (n, delete x Γ)
              | Some false => Some (n, Γ)
              | None => None
              end
  | Delete x => match Γ !! x with Some _ => Some (n, delete x Γ) | None => None end
  end.

Fixpoint check_prog {T} (os : list (cmd T)) (n : nat) (Γ : gmap nat bool) : option (gmap nat bool) :=
  match os with
  | [] => Some Γ
  | o :: os => '(n', Γ') ← check_cmd o n Γ; check_prog os n' Γ'
  end.

(** The bodies of the callbacks do not fault themselves. *)
Definition safe_cmd {T} (o : cmd T) : Prop :=
  match o with Make _ body => ∀ t, ∃ t', body t = Ok tt t' | _ => True end.

Section ownership.
Context {T : Type} (L : gset nat) (base : nat).
Hypothesis HL : ∀ p, p ∈ L → (p < base)%nat.
Implicit Types (w : World T) (e : env T) (Γ : gmap nat bool).

(** The identities of the owned callbacks. *)
Definition owned_ids Γ : gset nat := set_map (Nat.add base) (dom Γ).

Lemma owned_ids_spec Γ x : (base + x)%nat ∈ L ∪ owned_ids Γ ↔ is_Some (Γ !! x).
Proof.
  unfold owned_ids. rewrite elem_of_union, elem_of_map, <- elem_of_dom. split.
  - intros [H%HL|(y & Hy & Hd)]; [lia|]. by replace x with y by lia.
  - eauto.
Qed.

Lemma owned_ids_insert Γ x k : owned_ids (<[x := k]> Γ) = {[(base + x)%nat]} ∪ owned_ids Γ.
Proof. unfold owned_ids. by rewrite dom_insert_L, set_map_union_L, set_map_singleton_L. Qed.

Lemma owned_ids_delete Γ x : L ∪ owned_ids (delete x Γ) = (L ∪ owned_ids Γ) ∖ {[(base + x)%nat]}.
Proof.
  apply set_eq. intros p. rewrite elem_of_difference, !elem_of_union, elem_of_singleton. unfold owned_ids.
  rewrite !elem_of_map. setoid_rewrite dom_delete_L. split.
  - intros [H|(y & -> & [Hy Hne]%elem_of_difference)].
    + split; [by left|]. apply HL in H. lia.
    + split; [by eauto|]. rewrite elem_of_singleton in Hne. lia.
  - intros [[H|(y & -> & Hy)] Hne]; [by left|]. right. exists y. split; [done|].
    apply elem_of_difference. split; [done|]. rewrite elem_of_singleton. intros ->. done.
Qed.

(** A state is typed by a context: the made callbacks have consecutive
    identities and run safe bodies in the way of their kind, and those alive are
    exactly the ones the context owns, beside those that existed before. *)
Record typed (n : nat) Γ e w : Prop := {
  ty_len : length e = n;
  ty_next : next_id w = (base + n)%nat;
  ty_live : live w = L ∪ owned_ids Γ;
  ty_dom : ∀ x, is_Some (Γ !! x) → (x < n)%nat;
  ty_env : ∀ x pc, e !! x = Some pc → pc.1 = (base + x)%nat ∧
    ∃ k body, (∀ t, ∃ t', body t = Ok tt t') ∧ operator0 pc.2 = invoke k pc.1 (plain body) ∧
      (∀ k', Γ !! x = Some k' → k' = k);
}.

Lemma typed_delete n Γ e w x t :
  typed n Γ e w → typed n (delete x Γ) e (mkWorld t (live w ∖ {[(base + x)%nat]}) (next_id w)).
Proof.
  intros [Hlen Hnext Hlive Hdom Henv]. split; simpl; [done..| | |].
  - by rewrite Hlive, owned_ids_delete.
  - intros y [k Hk]. apply Hdom. apply lookup_delete_Some in Hk as [_ Hk]. eauto.
  - intros y pc Hy. destruct (Henv y pc Hy) as (Hp & k & b & Hb & Hop & Hk). split; [done|].
    exists k, b. split_and!; [done..|]. intros k' [_ H]%lookup_delete_Some. auto.
Qed.

Lemma typed_prog n Γ e w t : typed n Γ e w → typed n Γ e (mkWorld t (live w) (next_id w)).
Proof. by intros []. Qed.

(** A new callback, in the form both factories produce. *)
Lemma typed_make n Γ e w k body (cb : Callback0 T unit) :
  typed n Γ e w → (∀ t, ∃ t', body t = Ok tt t') → operator0 cb = invoke k (next_id w) (plain body) →
  typed (S n) (<[n := k]> Γ) (e ++ [(next_id w, cb)]) (with_new w).
Proof.
  intros [Hlen Hnext Hlive Hdom Henv] Hb Hop. split; simpl.
  - rewrite length_app. simpl. lia.
  - lia.
  - rewrite owned_ids_insert, Hlive, Hnext. set_solver.
  - intros x. rewrite lookup_insert_is_Some. intros [->|[_ H%Hdom]]; lia.
  - intros x pc [H|[Hx H]]%lookup_app_Some.
    + pose proof (lookup_lt_Some _ _ _ H). destruct (Henv _ _ H) as (Hp & k0 & b0 & ? & ? & Hk). split; [done|].
      exists k0, b0. split_and!; [done..|]. intros k'. rewrite lookup_insert_ne by lia. auto.
    + apply list_lookup_singleton_Some in H as [H0 <-]. assert (x = n) as -> by lia. simpl. split; [lia|].
      exists k, body. split_and!; [done..|]. intros k'. rewrite lookup_insert_eq. congruence.
Qed.

Lemma typed_owned n Γ e w x :
  typed n Γ e w → (base + x)%nat ∈ live w ↔ is_Some (Γ !! x).
Proof. intros H. rewrite (ty_live _ _ _ _ H). apply owned_ids_spec. Qed.

Lemma typed_call n Γ e w x pc (k : bool) : typed n Γ e w → e !! x = Some pc → Γ !! x = Some k →
  ∃ w', operator0 pc.2 w = Ok tt w' ∧ typed n (if k then delete x Γ else Γ) e w'.
Proof.
  intros Ht Hx HΓ. destruct (ty_env _ _ _ _ Ht x pc Hx) as (Hp & k0 & b & Hb & Hop & Hk).
  apply Hk in HΓ as Hk'. subst k0. assert (Hl : pc.1 ∈ live w) by (rewrite Hp; apply (typed_owned _ _ _ _ _ Ht); eauto).
  rewrite Hop, invoke_live by done. unfold plain, zoom. destruct (Hb (prog w)) as [t' ->]. cbn.
  destruct k.
  - rewrite decide_True by done. eexists; split; [done|]. unfold without. simpl. rewrite Hp. by apply typed_delete.
  - eexists; split; [done|]. by apply typed_prog.
Qed.

Lemma typed_step n Γ e w o : typed n Γ e w → safe_cmd o →
  match check_cmd o n Γ with
  | Some (n', Γ') => ∃ e' w', exec_cmd o e w = Ok e' w' ∧ typed n' Γ' e' w'
  | None => ∃ f, exec_cmd o e w = Err f
  end.
Proof.
  intros Ht Hs. destruct o as [k body|x|x]; simpl in *.
  - destruct k; (eexists _, _; split; [reflexivity|]); by eapply typed_make.
  - destruct (e !! x) as [pc|] eqn:Hx.
    + destruct (ty_env _ _ _ _ Ht x pc Hx) as (Hp & k0 & b & Hb & Hop & Hk). destruct (Γ !! x) as [k|] eqn:HΓ.
      * destruct (typed_call _ _ _ _ _ _ _ Ht Hx HΓ) as (w' & Hrun & Ht').
        destruct k; exists e, w'; by rewrite (bind_ok _ _ _ _ _ Hrun).
      * exists (Segv (Z.of_nat pc.1)). rewrite (bind_err _ _ _ (Segv (Z.of_nat pc.1))); [done|].
        rewrite Hop. apply invoke_dead. rewrite Hp, (typed_owned _ _ _ _ _ Ht), HΓ. apply is_Some_None.
    + destruct (Γ !! x) as [k|] eqn:HΓ; [|by eexists].
      apply lookup_ge_None in Hx. rewrite (ty_len _ _ _ _ Ht) in Hx. pose proof (ty_dom _ _ _ _ Ht x (mk_is_Some _ _ HΓ)). lia.
  - destruct (e !! x) as [pc|] eqn:Hx.
    + destruct (ty_env _ _ _ _ Ht x pc Hx) as (Hp & _). destruct (Γ !! x) as [k|] eqn:HΓ.
      * eexists e, _. rewrite (bind_ok _ _ _ tt (without pc.1 w)).
        2: { apply delete_live. rewrite Hp. apply (typed_owned _ _ _ _ _ Ht). eauto. }
        split; [done|]. unfold without. rewrite Hp. by apply typed_delete.
      * eexists. apply bind_err, delete_dead. rewrite Hp, (typed_owned _ _ _ _ _ Ht), HΓ. apply is_Some_None.
    + destruct (Γ !! x) as [k|] eqn:HΓ; [|by eexists].
      apply lookup_ge_None in Hx. rewrite (ty_len _ _ _ _ Ht) in Hx. pose proof (ty_dom _ _ _ _ Ht x (mk_is_Some _ _ HΓ)). lia.
Qed.

Lemma typed_run os n Γ e w : typed n Γ e w → Forall safe_cmd os →
  match check_prog os n Γ with
  | Some Γ' => ∃ e' w', exec_prog os e w = Ok e' w' ∧ live w' = L ∪ owned_ids Γ'
  | None => ∃ f, exec_prog os e w = Err f
  end.
Proof.
  revert n Γ e w. induction os as [|o os IH]; intros n Γ e w Ht Hs; simpl.
  - exists e, w. split; [done|]. apply (ty_live _ _ _ _ Ht).
  - inversion Hs as [|? ? Ho Hos]; subst. pose proof (typed_step _ _ _ _ _ Ht Ho) as Hstep.
    destruct (check_cmd o n Γ) as [[n' Γ']|]; simpl.
    + destruct Hstep as (e' & w' & He & Ht'). rewrite (bind_ok _ _ _ _ _ He). by apply IH.
    + destruct Hstep as [f He]. exists f. by apply bind_err.
Qed.
End ownership.

(** C17: The ownership rule is exact.  A program that makes, calls and deletes
    callbacks with safe bodies runs without a fault if and only if the type
    checker accepts it, and then the callbacks left alive are, beside those from
    before, exactly the ones it still owns: with an empty context at the end
    nothing leaks. *)
Theorem ownership_sound_complete {T} (os : list (cmd T)) w :
  wf w → Forall safe_cmd os →
  match check_prog os 0 ∅ with
  | Some Γ => ∃ e w', exec_prog os [] w = Ok e w' ∧ live w' = live w ∪ owned_ids (next_id w) Γ
  | None => ∃ f, exec_prog os [] w = Err f
  end.
Proof.
  intros Hwf Hs. apply (typed_run (live w) (next_id w)); [done| |done].
  split; simpl; [done|lia| | |done].
  - unfold owned_ids. rewrite dom_empty_L, set_map_empty. set_solver.
  - intros x [k Hk]. by rewrite lookup_empty in Hk.
Qed.

(** ** Threads: [thread.cpp]

    The program's state is the registry of threads beside the rest.  What the
    system's [pthread_create] answers, a code and a thread identity, is an
    argument of [makeThread]; with the answer 0 the new thread runs the code that
    [makeThread] passed to it, here the second component of its result. *)

Section thread.
Context {T : Type}.
Abbreviation Proc := (World (ThreadRegistry * T)).

Definition on_registry (f : ThreadRegistry → bool * ThreadRegistry) : M Proc bool :=
  plain (λ t, Ok (f t.1).1 ((f t.1).2, t.2)).

Definition threadFunction (tid : Z) (arg : Callback0 (ThreadRegistry * T) unit) : M Proc Z :=
  on_registry (registerThread tid);;
  operator0 arg;;
  on_registry (unregisterThread tid);;
  mret 0.

Definition makeThread (exit_on_fatal : bool) (pthread_create : Z * Z)
    (body : Callback0 (ThreadRegistry * T) unit) : M Proc (Z * option (M Proc Z)) :=
  let '(rc, tid) := pthread_create in
  if negb (rc =? 0) then
    if exit_on_fatal then fail Fatal (* LOG(LogMessage::FATAL) *) else mret (wrap64 (-1), None)
  else mret (tid, Some (threadFunction tid body)).

Definition registered (tid : Z) (w : Proc) : Proc := mkWorld ({[tid]} ∪ (prog w).1, (prog w).2) (live w) (next_id w).
Definition unregistered (tid : Z) (w : Proc) : Proc := mkWorld ((prog w).1 ∖ {[tid]}, (prog w).2) (live w) (next_id w).

(** A thread made on a callback without arguments runs it exactly once, with
    its identity in the registry, takes the identity out again and returns 0; a
    call-once body is deleted by the run and the thread does not touch a
    call-many one, which stays its maker's.  When the system refuses a thread the
    program stops, or, with the exit on fatal errors switched off, the caller
    gets (pthread_t)-1 and the body has not run and is still alive. *)
Theorem thread_runs_body k (mk : M Proc (nat * Callback0 (ThreadRegistry * T) unit)) tgt w exit_on_fatal rc tid :
  built k [] unit (uncurry0 <$$> mk) tgt → spares (next_id w) tgt →
  ∃ cb, mk w = Ok (next_id w, cb) (with_new w) ∧
    (rc ≠ 0 → makeThread exit_on_fatal (rc, tid) cb (with_new w) =
       if exit_on_fatal then Err Fatal else Ok (2 ^ 64 - 1, None) (with_new w)) ∧
    (rc = 0 → ∃ run, makeThread exit_on_fatal (rc, tid) cb (with_new w) = Ok (tid, Some run) (with_new w) ∧
       ∀ w1, next_id w ∈ live w1 →
         run w1 = match tgt tt (registered tid w1) with
                  | Ok _ w2 => Ok 0 (unregistered tid (if k then without (next_id w) w2 else w2))
                  | Err e => Err e
                  end).
Proof.
  intros Hb Hsp. destruct (built_spec _ _ _ _ _ w Hb) as (cb' & Hmk & _ & Hcall).
  unfold on_made in Hmk. apply bind_inv in Hmk as ([p cb] & w' & Hmk & [= -> Hcb ->]). simpl in *. subst cb'.
  exists cb. split_and!; [done|..].
  - intros H. unfold makeThread. rewrite (proj2 (Z.eqb_neq _ _) H). by destruct exit_on_fatal.
  - intros ->. eexists. split; [reflexivity|]. intros w1 Hl. unfold threadFunction.
    rewrite (bind_ok _ _ _ (registerThread tid (prog w1).1).1 (registered tid w1)) by done.
    specialize (Hcall tt). simpl in Hcall. rewrite Hcall. unfold mbind at 1, M_bind at 1.
    rewrite invoke_live by done. destruct (tgt tt (registered tid w1)) as [[] w2|e] eqn:Ht; [|done].
    pose proof (Hsp _ _ _ _ Ht Hl). destruct k; [|done]. by rewrite decide_True.
Qed.
End thread.

(** ** Witnesses *)

(** The counter of the tests. *)
Definition counter_world : World Z := mkWorld 7 {[3%nat]} 5.

Lemma counter_wf : wf counter_world.
Proof. intros p. simpl. rewrite elem_of_singleton. lia. Qed.

(** [Counter::between] with one argument bound. *)
Definition between (i j : Z) : M Z bool := λ count, Ok ((i <=? count) && (count <=? j)) count.
Definition incBy (i : Z) : M Z unit := λ count, Ok tt (count + i).

Lemma callback_contract_witness :
  wf counter_world ∧
  ∃ p cb, (uncurry1 <$$> makeCallableOnce_2_1 (λ _ : unit, λ i j, plain (between i j)) tt 5) counter_world
          = Ok (p, cb) (with_new counter_world) ∧
    call cb (10, tt) (with_new counter_world) = Ok true (without p (with_new counter_world)).
Proof.
  split; [apply counter_wf|].
  destruct (callback_contract _ _ _ _ _ counter_world (BuiltOnce_2_1 (λ _ : unit, λ i j, plain (between i j)) tt 5)
    counter_wf) as (p & cb & Hmk & _ & Hl & _ & Hc).
  exists p, cb. split; [exact Hmk|]. destruct (Hc (10, tt) (with_new counter_world)) as (_ & _ & Hr).
  destruct (Hr true (with_new counter_world) Hl eq_refl) as [Hr' _]. by destruct (Hr' Hl).
Defined.

Lemma void_specialisation_witness :
  call (uncurry1 (CallableOnce_1_0_void (λ _ : unit, λ i, plain (incBy i)) tt 3)) (2, tt) counter_world
  = Ok tt (mkWorld 9 ∅ 5).
Proof.
  destruct (void_specialisation _ _ _ (Void_1_0 (λ _ : unit, λ i, plain (incBy i)) tt 3)) as [_ Hc].
  rewrite <- Hc. vm_compute. reflexivity.
Defined.

Lemma callback_calls_witness :
  ∃ cb, (uncurry1 <$$> makeCallableMany_1_0 (λ _ : unit, λ i, plain (incBy i)) tt) counter_world
        = Ok (5%nat, cb) (with_new counter_world) ∧
    calls cb [(1, tt); (2, tt)] (with_new counter_world) = Ok [tt; tt] (mkWorld 10 {[5%nat; 3%nat]} 6).
Proof.
  destruct (callback_calls _ _ _ _ _ counter_world (BuiltMany_1_0 (λ _ : unit, λ i, plain (incBy i)) tt))
    as (cb & Hmk & Hc); [intros [a []] w r w' [= <- <-]; exact id|].
  exists cb. split; [exact Hmk|]. rewrite Hc by (vm_compute; reflexivity). vm_compute. reflexivity.
Defined.

Lemma callback_currying_witness :
  (c1 ← makeCallableOnce_1_0 (λ _ : unit, λ i, plain (incBy i)) tt;
   c2 ← makeCallableOnce_1_1 operator1 c1.2 4;
   operator0 c2.2) counter_world = Ok tt (mkWorld 11 {[3%nat]} 7).
Proof. rewrite (callback_currying (λ _ : unit, incBy) tt 4 counter_world counter_wf). reflexivity. Defined.

Lemma ownership_sound_complete_witness :
  let os := [Make true (incBy 1); Make false (incBy 2); Call 1; Call 0; Call 1; Delete 1] in
  check_prog os 0 ∅ = Some ∅ ∧ ∃ e w', exec_prog os [] counter_world = Ok e w' ∧ live w' = {[3%nat]}.
Proof.
  intros os. split; [vm_compute; reflexivity|].
  pose proof (ownership_sound_complete os counter_world counter_wf) as H.
  assert (Hs : Forall safe_cmd os) by (repeat constructor; intros t; eexists; reflexivity).
  specialize (H Hs). change (check_prog os 0 ∅) with (Some (∅ : gmap nat bool)) in H.
  destruct H as (e & w' & He & Hl). exists e, w'. split; [exact He|]. rewrite Hl. vm_compute. reflexivity.
Defined.

Lemma thread_runs_body_witness :
  let w : World (ThreadRegistry * Z) := mkWorld (∅, 7) ∅ 0 in
  let inc : M (World (ThreadRegistry * Z)) unit := plain (λ t, Ok tt (t.1, t.2 + 1)) in
  ∃ cb run, makeCallableOnce_0_0 (λ _ : unit, inc) tt w = Ok (0%nat, cb) (with_new w) ∧
    makeThread true (0, 99) cb (with_new w) = Ok (99, Some run) (with_new w) ∧
    run (with_new w) = Ok 0 (mkWorld (∅, 8) ∅ 1).
Proof.
  intros w inc.
  destruct (thread_runs_body true (makeCallableOnce_0_0 (λ _ : unit, inc) tt) (λ _, inc) w true 0 99)
    as (cb & Hmk & _ & Hrun); [exact (BuiltOnce_0_0 _ _)|intros a w0 r w' [= <- <-]; exact id|].
  destruct (Hrun eq_refl) as (run & Hmt & Hr). exists cb, run. split; [exact Hmk|]. split; [exact Hmt|].
  rewrite Hr by (vm_compute; reflexivity). vm_compute. reflexivity.
Defined.
