(* ===== verification/BinsMgr.v ===== *)
(** * The memory test: [memtest_binsmgr.cpp]

    [MemTestBinsMgr] is the program the allocators are measured with: an array
    of bins, each empty or holding a block, on which a pseudo-random sequence of
    malloc, calloc, realloc, memalign and free is run; compiled with TEST it
    also writes a pattern into each block and checks it later.

    The allocator is an interface: a class of operations and a class of laws
    that say what the C library's functions promise, in terms of the abstract heap
    of [ClientSpec].  The heap [owns] speaks of is that of the thread that runs
    the test; what other threads do meanwhile is part of the state [W] and of the
    operations on it, which is why the laws do not say that nothing else changes.
    The theorems hold for every allocator with the laws. *)
From stdpp Require Import base numbers list gmap.
From S2P Require Import Prelude Memory FreeList ClientSpec.
Open Scope Z_scope.

(** ** The allocator as its client sees it *)

Class Allocator (W : Type) : Type := {
  malloc : Z → M W Z;
  calloc : Z → Z → M W Z;
  memalign : Z → Z → M W Z;
  realloc : Z → Z → M W Z;
  free : Z → M W unit;
  peek : Z → Z → M W Z;          (* the byte at an offset from a pointer *)
  poke : Z → Z → Z → M W unit;
  barrier_wait : M W unit;       (* Barrier::wait() *)
  owns : W → heap → Prop;        (* the live blocks of this thread *)
}.

(** A call for [n] bytes answered [p]: NULL, which a [total] allocator never
    answers, or a new block with the property [Q]. *)
Definition allocated {W} `{Allocator W} (total : Prop) (H : heap) (n : Z) (Q : Z → list Z → Prop) (p : Z) (w : W) : Prop :=
  (¬ total ∧ p = NULL ∧ owns w H) ∨
  (∃ bs, fresh_block H n p bs ∧ Q p bs ∧ owns w (<[p := bs]> H)).

(** Requests have between 1 and 2^32 bytes. *)
Class AllocatorLaws (W : Type) `{Allocator W} (total : Prop) : Prop := {
  malloc_law w H n : owns w H → 0 < n ≤ 2 ^ 32 →
    ∃ p w', malloc n w = Ok p w' ∧ allocated total H n (λ _ _, True) p w';
  calloc_law w H n : owns w H → 0 < n ≤ 2 ^ 32 →
    ∃ p w', calloc n 1 w = Ok p w' ∧ allocated total H n (λ _ bs, ∀ i, (i < Z.to_nat n)%nat → bs !! i = Some 0) p w';
  memalign_law w H k n : owns w H → 0 ≤ k < 4 → 0 < n ≤ 2 ^ 32 →
    ∃ p w', memalign (Z.shiftl 4 k) n w = Ok p w' ∧ allocated total H n (λ p _, p `mod` Z.shiftl 4 k = 0) p w';
  realloc_null_law w H n : owns w H → 0 < n ≤ 2 ^ 32 →
    ∃ p w', realloc NULL n w = Ok p w' ∧ allocated total H n (λ _ _, True) p w';
  realloc_law w H q old n : owns w H → H !! q = Some old → 0 < n ≤ 2 ^ 32 →
    ∃ p w', realloc q n w = Ok p w' ∧
      ((¬ total ∧ p = NULL ∧ owns w' H) ∨
       (∃ bs, fresh_block (delete q H) n p bs ∧
          take (Nat.min (Z.to_nat n) (length old)) bs = take (Nat.min (Z.to_nat n) (length old)) old ∧
          owns w' (<[p := bs]> (delete q H))));
  free_law w H p : owns w H → is_Some (H !! p) → ∃ w', free p w = Ok tt w' ∧ owns w' (delete p H);
  peek_law w H p bs i b : owns w H → H !! p = Some bs → 0 ≤ i → bs !! Z.to_nat i = Some b →
    ∃ w', peek p i w = Ok b w' ∧ owns w' H;
  poke_law w H p bs i b : owns w H → H !! p = Some bs → 0 ≤ i < Z.of_nat (length bs) → 0 ≤ b < 256 →
    ∃ w', poke p i b w = Ok tt w' ∧ owns w' (<[p := <[Z.to_nat i := b]> bs]> H);
  barrier_law w H : owns w H → ∃ w', barrier_wait w = Ok tt w' ∧ owns w' H;
}.

(** ** The test *)

Record Bin : Type := mkBin { ptr : Z; binsize : Z }.

Record MemTestBinsMgr (W : Type) : Type := mkTest {
  rnd_seed_ : Z;
  binsArr_ : list Bin;
  sys_ : W;
}.
Arguments mkTest {W}.
Arguments rnd_seed_ {W}.
Arguments binsArr_ {W}.
Arguments sys_ {W}.

Definition REALLOC_MAX : Z := 2000.
Definition ACTIONS_MAX : Z := 30.

(** The constructor; [seed] is an [int] and is converted to [size_t]. *)
Definition MemTestBinsMgr_init {W} (maxperbin_size num_bins imax seed : Z) (w : W) : MemTestBinsMgr W :=
  mkTest (Z.lxor (wrap64 (imax * maxperbin_size + seed)) num_bins) (replicate (Z.to_nat num_bins) (mkBin NULL 0)) w.

(** The random number generator: the next seed and the number. *)
Definition rng_mult : Z := 7319936632422683443.
Definition rng_next (seed : Z) : Z := wrap64 (seed + rng_mult).
Definition rng_hash (x : Z) : Z :=
  let x := Z.lxor x (Z.shiftr x 32) in
  let x := wrap64 (x * rng_mult) in
  let x := Z.lxor x (Z.shiftr x 32) in
  let x := wrap64 (x * rng_mult) in
  Z.lxor x (Z.shiftr x 32).

Section memtest.
Context {W : Type} `{Allocator W}.
(** [TEST] is the compile-time flag; [ltr] is the order in which the compiler
    evaluates the arguments of a call, which C++ leaves open. *)
Context (TEST ltr : bool) (maxperbin_size_ num_bins_ imax_ : Z).
Abbreviation Mgr := (MemTestBinsMgr W).

Definition sys {A} (c : M W A) : M Mgr A := zoom sys_ (λ w s, mkTest (rnd_seed_ s) (binsArr_ s) w) c.

Definition get_bin (b : Z) : M Mgr Bin := λ s,
  match binsArr_ s !! Z.to_nat b with Some bin => Ok bin s | None => Err (Segv b) end.
Definition set_bin (b : Z) (bin : Bin) : M Mgr unit := λ s,
  Ok tt (mkTest (rnd_seed_ s) (<[Z.to_nat b := bin]> (binsArr_ s)) (sys_ s)).

Definition rng : M Mgr Z := λ s,
  let x := rng_next (rnd_seed_ s) in Ok (wrap32 (rng_hash x)) (mkTest x (binsArr_ s) (sys_ s)).

Definition RANDOM (n : Z) : M Mgr Z :=
  r ← rng; if n =? 0 then fail DivByZero else mret (r `mod` n).

(** *** The memory checks *)

Definition pattern (p i : Z) : Z := let j := Z.lxor p i in Z.land (Z.lxor j (Z.shiftr j 8)) 255.

Fixpoint mem_init_loop (fuel : nat) (p size i : Z) : M Mgr unit :=
  match fuel with
  | O => fail OutOfFuel
  | S fuel => if i <? size then sys (poke p i (pattern p i));; mem_init_loop fuel p size (wrap64 (i + 2047)) else mret tt
  end.

Definition mem_init (p size : Z) : M Mgr unit :=
  if size =? 0 then mret tt
  else mem_init_loop (Z.to_nat (size `div` 2047 + 2)) p size 0;; sys (poke p (size - 1) (pattern p (size - 1))).

Fixpoint mem_check_loop (fuel : nat) (p size i : Z) : M Mgr Z :=
  match fuel with
  | O => fail OutOfFuel
  | S fuel => if i <? size then
                x ← sys (peek p i); if negb (x =? pattern p i) then mret 1 else mem_check_loop fuel p size (wrap64 (i + 2047))
              else mret 0
  end.

Definition mem_check (p size : Z) : M Mgr Z :=
  if size =? 0 then mret 0
  else r ← mem_check_loop (Z.to_nat (size `div` 2047 + 2)) p size 0;
       if negb (r =? 0) then mret r
       else x ← sys (peek p (size - 1)); if negb (x =? pattern p (size - 1)) then mret 2 else mret 0.

(** Four bytes at a time, then one; [i] is the offset of the pointer. *)
Fixpoint zero_words (n : nat) (p i size : Z) : M Mgr (Z + Z) :=
  match n with
  | O => mret (inr i)
  | S n => if 4 <=? size then
             b0 ← sys (peek p i); b1 ← sys (peek p (i + 1)); b2 ← sys (peek p (i + 2)); b3 ← sys (peek p (i + 3));
             if negb (b0 + 256 * b1 + 65536 * b2 + 16777216 * b3 =? 0) then mret (inl (-1)) else zero_words n p (i + 4) (size - 4)
           else mret (inr i)
  end.

Fixpoint zero_bytes (n : nat) (p i : Z) : M Mgr Z :=
  match n with
  | O => mret 0
  | S n => b ← sys (peek p i); if negb (b =? 0) then mret (-1) else zero_bytes n p (i + 1)
  end.

Definition zero_check (p size : Z) : M Mgr Z :=
  r ← zero_words (Z.to_nat size) p 0 size;
  match r with inl r => mret r | inr i => zero_bytes (Z.to_nat (size - i)) p i end.

(** *** Operations on a bin *)

Definition check_bin (bin : Bin) : M Mgr unit :=
  if TEST then r ← mem_check (ptr bin) (binsize bin); if negb (r =? 0) then fail Fatal (* "Memory Corrupt!" *) else mret tt
  else mret tt.

Definition free_if_used (bin : Bin) : M Mgr unit :=
  if 0 <? binsize bin then sys (free (ptr bin)) else mret tt.

(** The block a bin gets, for a random number below 1024. *)
Definition alloc_block (bin : Bin) (allocsize randnum : Z) : M Mgr Z :=
  if randnum <? 4 then free_if_used bin;; sys (memalign (Z.shiftl 4 randnum) allocsize)
  else if randnum <? 20 then
    free_if_used bin;;
    p ← sys (calloc allocsize 1);
    if TEST then r ← zero_check p allocsize; if negb (r =? 0) then fail Fatal (* "calloc'ed memory non-zero" *) else mret p
    else mret p
  else if (randnum <? 100) && (binsize bin <? REALLOC_MAX) then
    sys (realloc (if binsize bin =? 0 then NULL else ptr bin) allocsize)
  else free_if_used bin;; sys (malloc allocsize).

Definition BinAlloc (b allocsize randnum : Z) : M Mgr unit :=
  bin ← get_bin b;
  check_bin bin;;
  p ← alloc_block bin allocsize (randnum `mod` 1024);
  if p =? NULL then fail OutOfMemory (* exit(1) *)
  else set_bin b (mkBin p allocsize);; if TEST then mem_init p allocsize else mret tt.

Definition BinFree (b : Z) : M Mgr unit :=
  bin ← get_bin b;
  if binsize bin =? 0 then mret tt
  else check_bin bin;; sys (free (ptr bin));; set_bin b (mkBin (ptr bin) 0).

(** [BinAlloc(binsArr_ + b, RANDOM(maxperbin_size_) + 1, rng())] *)
Definition random_alloc (b : Z) : M Mgr unit :=
  if ltr then r ← RANDOM maxperbin_size_; x ← rng; BinAlloc b (r + 1) x
  else x ← rng; r ← RANDOM maxperbin_size_; BinAlloc b (r + 1) x.

(** [for (b = 0; b < num_bins_; b++)]: [n] bins left, the next one is [b]. *)
Fixpoint first_round (n : nat) (b : Z) : M Mgr unit :=
  match n with
  | O => mret tt
  | S n => r ← RANDOM 2; (if r =? 0 then random_alloc b else mret tt);; first_round n (b + 1)
  end.

Fixpoint free_some (n : nat) : M Mgr unit :=
  match n with
  | O => mret tt
  | S n => b ← RANDOM num_bins_; BinFree b;; free_some n
  end.

Fixpoint alloc_some (n : nat) : M Mgr unit :=
  match n with
  | O => mret tt
  | S n => b ← RANDOM num_bins_; random_alloc b;; alloc_some n
  end.

Fixpoint second_round (fuel : nat) (i actions : Z) : M Mgr unit :=
  match fuel with
  | O => fail OutOfFuel
  | S fuel =>
      if i <=? imax_ then
        free_some (Z.to_nat actions);;
        actions' ← RANDOM ACTIONS_MAX;
        alloc_some (Z.to_nat actions');;
        second_round fuel (wrap64 (wrap64 (i + actions) + actions')) actions'
      else mret tt
  end.

Fixpoint free_all (n : nat) (b : Z) : M Mgr unit :=
  match n with
  | O => mret tt
  | S n => BinFree b;; free_all n (b + 1)
  end.

Definition MallocTest (fuel : nat) : M Mgr unit :=
  sys barrier_wait;;
  first_round (Z.to_nat num_bins_) 0;;
  actions ← RANDOM ACTIONS_MAX;
  second_round fuel 0 actions;;
  free_all (Z.to_nat num_bins_) 0;;
  modify (λ s, mkTest (wrap64 (rnd_seed_ s + 1)) (binsArr_ s) (sys_ s)).
End memtest.
