(* ===== verification/BinsMgrSpec.v ===== *)
(** * The memory test: what it does to the allocator

    The random number generator has the period its comment promises, which is
    also why the test ends: its loop counts the calls it makes, and the numbers of
    calls are random and may be 0.  Whatever numbers come out, the test makes only
    calls that the contract of the allocator allows, so that with a correct
    allocator none of its checks fails, and it gives back all it took. *)
From stdpp Require Import base numbers list gmap.
From S2P Require Import Prelude Memory FreeList ClientSpec BinsMgr.
Open Scope Z_scope.

(** ** The random number generator *)

(** The inverse of the multiplier modulo 2^64. *)
Definition rng_inv : Z := 9568506945743871995.

Lemma rng_mult_inv : (rng_mult * rng_inv) `mod` 2 ^ 64 = 1.
Proof. reflexivity. Qed.

(** [rng_seed n seed]: the seed after [n] calls. *)
Definition rng_seed (n : nat) (seed : Z) : Z := Nat.iter n rng_next seed.

Lemma rng_seed_spec n seed : 0 ≤ seed < 2 ^ 64 → rng_seed n seed = wrap64 (seed + Z.of_nat n * rng_mult).
Proof.
  intros Hs. induction n as [|n IH].
  - cbn. rewrite Z.add_0_r. symmetry. by apply wrap64_small.
  - change (rng_seed (S n) seed) with (rng_next (rng_seed n seed)). rewrite IH. unfold rng_next. rewrite wrap64_add_l. f_equal. lia.
Qed.

Definition xorshift (x : Z) : Z := Z.lxor x (Z.shiftr x 32).

Lemma testbit_high x n : 0 ≤ x < 2 ^ 64 → 64 ≤ n → Z.testbit x n = false.
Proof.
  intros Hx Hn. rewrite <- (Z.mod_small x (2 ^ 64)) by done. apply Z.mod_pow2_bits_high. lia.
Qed.

Lemma range_bits x : 0 ≤ x → (∀ n, 64 ≤ n → Z.testbit x n = false) → 0 ≤ x < 2 ^ 64.
Proof.
  intros Hx Hb. split; [done|]. assert (x `mod` 2 ^ 64 = x) as <-; [|apply Z.mod_pos_bound; lia].
  apply Z.bits_inj'. intros n Hn. destruct (decide (n < 64)).
  - rewrite Z.mod_pow2_bits_low by lia. done.
  - rewrite Z.mod_pow2_bits_high by lia. symmetry. apply Hb. lia.
Qed.

Lemma xorshift_range x : 0 ≤ x < 2 ^ 64 → 0 ≤ xorshift x < 2 ^ 64.
Proof.
  intros Hx. unfold xorshift. apply range_bits.
  - apply Z.lxor_nonneg. rewrite Z.shiftr_nonneg. lia.
  - intros n Hn. rewrite Z.lxor_spec, Z.shiftr_spec by lia. by rewrite !testbit_high by lia.
Qed.

Lemma xorshift_involutive x : 0 ≤ x < 2 ^ 64 → xorshift (xorshift x) = x.
Proof.
  intros Hx. unfold xorshift. apply Z.bits_inj'. intros n Hn.
  rewrite !Z.lxor_spec, !Z.shiftr_spec, Z.lxor_spec, Z.shiftr_spec by lia.
  rewrite (testbit_high x (n + 32 + 32)) by lia. by destruct (Z.testbit x n), (Z.testbit x (n + 32)).
Qed.

Lemma mult_cancel a b x : (a * b) `mod` 2 ^ 64 = 1 → 0 ≤ x < 2 ^ 64 → wrap64 (wrap64 (x * a) * b) = x.
Proof.
  intros Hab Hx. unfold wrap64. rewrite Z.mul_mod_idemp_l by lia.
  replace (x * a * b) with (x * (a * b)) by ring. rewrite <- Z.mul_mod_idemp_r, Hab, Z.mul_1_r by lia.
  by apply Z.mod_small.
Qed.

(** The hash undone. *)
Definition rng_unhash (y : Z) : Z :=
  xorshift (wrap64 (xorshift (wrap64 (xorshift y * rng_inv)) * rng_inv)).

Lemma rng_hash_xorshift x :
  rng_hash x = xorshift (wrap64 (xorshift (wrap64 (xorshift x * rng_mult)) * rng_mult)).
Proof. done. Qed.

Lemma rng_hash_range x : 0 ≤ x < 2 ^ 64 → 0 ≤ rng_hash x < 2 ^ 64.
Proof. intros. rewrite rng_hash_xorshift. apply xorshift_range, wrap64_range. Qed.

#[local] Hint Resolve xorshift_range wrap64_range rng_mult_inv : core.

Lemma rng_unhash_hash x : 0 ≤ x < 2 ^ 64 → rng_unhash (rng_hash x) = x.
Proof.
  intros Hx. rewrite rng_hash_xorshift. unfold rng_unhash. rewrite (xorshift_involutive (wrap64 _)) by auto.
  rewrite mult_cancel by auto. rewrite xorshift_involutive by auto. rewrite mult_cancel by auto.
  by apply xorshift_involutive.
Qed.

Lemma rng_hash_unhash y : 0 ≤ y < 2 ^ 64 → rng_hash (rng_unhash y) = y.
Proof.
  intros Hy. rewrite rng_hash_xorshift. unfold rng_unhash. rewrite (xorshift_involutive (wrap64 _)) by auto.
  rewrite mult_cancel by (rewrite ?(Z.mul_comm rng_inv); auto). rewrite xorshift_involutive by auto.
  rewrite mult_cancel by (rewrite ?(Z.mul_comm rng_inv); auto). by apply xorshift_involutive.
Qed.

(** [calls_to seed x]: after how many calls the seed is [x], from 1 to 2^64. *)
Definition calls_to (seed x : Z) : Z := ((x - seed) * rng_inv - 1) `mod` 2 ^ 64 + 1.

Lemma calls_to_range seed x : 1 ≤ calls_to seed x ≤ 2 ^ 64.
Proof. unfold calls_to. pose proof (Z.mod_pos_bound ((x - seed) * rng_inv - 1) (2 ^ 64)). lia. Qed.

Lemma rng_inv_next seed x : ∃ k, (x - rng_next seed) * rng_inv = (x - seed) * rng_inv - 1 + k * 2 ^ 64.
Proof.
  unfold rng_next, wrap64. pose proof (Z.div_mod (seed + rng_mult) (2 ^ 64) ltac:(lia)) as Hd.
  pose proof (Z.div_mod (rng_mult * rng_inv) (2 ^ 64) ltac:(lia)) as Hi. rewrite rng_mult_inv in Hi.
  exists ((seed + rng_mult) `div` 2 ^ 64 * rng_inv - (rng_mult * rng_inv) `div` 2 ^ 64).
  remember ((seed + rng_mult) `mod` 2 ^ 64) as r. remember ((seed + rng_mult) `div` 2 ^ 64) as q.
  assert (r = seed + rng_mult - 2 ^ 64 * q) as -> by lia.
  remember ((rng_mult * rng_inv) `div` 2 ^ 64) as q'. nia.
Qed.

Lemma calls_to_next seed x : 1 < calls_to seed x → calls_to (rng_next seed) x = calls_to seed x - 1.
Proof.
  unfold calls_to. intros Hc. destruct (rng_inv_next seed x) as [k ->].
  remember ((x - seed) * rng_inv - 1) as z. replace (z + k * 2 ^ 64 - 1) with (z - 1 + k * 2 ^ 64) by ring.
  rewrite Z.mod_add by lia. pose proof (Z.div_mod z (2 ^ 64) ltac:(lia)). pose proof (Z.mod_pos_bound z (2 ^ 64) ltac:(lia)).
  rewrite <- (Z.mod_unique_pos (z - 1) (2 ^ 64) (z `div` 2 ^ 64) (z `mod` 2 ^ 64 - 1)); lia.
Qed.

Lemma calls_to_1 seed x : 0 ≤ x < 2 ^ 64 → calls_to seed x = 1 → rng_next seed = x.
Proof.
  unfold calls_to. intros Hx Hc. assert (((x - seed) * rng_inv - 1) `mod` 2 ^ 64 = 0) as H0 by lia.
  apply Z.mod_divide in H0 as [k Hk]; [|lia]. unfold rng_next. rewrite <- (wrap64_small x) by done.
  apply wrap64_cong. pose proof (Z.div_mod (rng_mult * rng_inv) (2 ^ 64) ltac:(lia)) as Hi. rewrite rng_mult_inv in Hi.
  remember ((rng_mult * rng_inv) `div` 2 ^ 64) as q.
  exists ((x - seed) * q - k * rng_mult).
  assert ((x - seed) * (rng_mult * rng_inv) = (k * 2 ^ 64 + 1) * rng_mult) by (replace (k * 2 ^ 64 + 1) with ((x - seed) * rng_inv) by lia; ring).
  rewrite Hi in *. lia.
Qed.

Lemma rng_seed_eq seed n m : 0 ≤ seed < 2 ^ 64 →
  rng_seed n seed = rng_seed m seed ↔ wrap64 (Z.of_nat n) = wrap64 (Z.of_nat m).
Proof.
  intros Hs. rewrite !rng_seed_spec by done. rewrite !wrap64_cong. split; intros [k Hk].
  - pose proof (Z.div_mod (rng_mult * rng_inv) (2 ^ 64) ltac:(lia)) as Hi. rewrite rng_mult_inv in Hi.
    remember ((rng_mult * rng_inv) `div` 2 ^ 64) as q.
    exists (k * rng_inv - (Z.of_nat n - Z.of_nat m) * q).
    assert ((Z.of_nat n - Z.of_nat m) * (rng_mult * rng_inv) = k * 2 ^ 64 * rng_inv)
      by (replace (k * 2 ^ 64) with ((Z.of_nat n - Z.of_nat m) * rng_mult) by lia; ring).
    rewrite Hi in *. lia.
  - exists (k * rng_mult). rewrite Hk. ring.
Qed.

Lemma rng_seed_reaches seed x : 0 ≤ seed < 2 ^ 64 → 0 ≤ x < 2 ^ 64 → rng_seed (Z.to_nat (calls_to seed x)) seed = x.
Proof.
  intros Hs Hx. pose proof (calls_to_range seed x) as Hr. rewrite rng_seed_spec, Z2Nat.id by (done || lia).
  rewrite <- (wrap64_small x) at 2 by done. apply wrap64_cong.
  pose proof (Z.div_mod (rng_mult * rng_inv) (2 ^ 64) ltac:(lia)) as Hi. rewrite rng_mult_inv in Hi.
  unfold calls_to. remember ((x - seed) * rng_inv - 1) as z. pose proof (Z.div_mod z (2 ^ 64) ltac:(lia)) as Hz.
  remember ((rng_mult * rng_inv) `div` 2 ^ 64) as q. remember (z `div` 2 ^ 64) as q'.
  exists ((x - seed) * q - q' * rng_mult).
  assert ((z `mod` 2 ^ 64 + 1) * rng_mult = (x - seed) * (rng_mult * rng_inv) - 2 ^ 64 * q' * rng_mult)
    by (replace (z `mod` 2 ^ 64 + 1) with ((x - seed) * rng_inv - 2 ^ 64 * q') by lia; ring).
  rewrite Hi in *. lia.
Qed.

(** The random number generator has period 2^64, as its comment says: the
    seed comes back exactly after every 2^64 calls, and during any 2^64 calls the
    64-bit number, of which a call returns the lower half, takes each value
    exactly once. *)
Theorem rng_period seed : 0 ≤ seed < 2 ^ 64 →
  (∀ n, rng_seed n seed = seed ↔ (2 ^ 64 | Z.of_nat n)) ∧
  (∀ v, 0 ≤ v < 2 ^ 64 → ∃ n, 1 ≤ Z.of_nat n ≤ 2 ^ 64 ∧ rng_hash (rng_seed n seed) = v ∧
     ∀ m, 1 ≤ Z.of_nat m ≤ 2 ^ 64 → rng_hash (rng_seed m seed) = v → m = n).
Proof.
  intros Hs. split.
  - intros n. change (rng_seed n seed = rng_seed 0 seed ↔ (2 ^ 64 | Z.of_nat n)). rewrite rng_seed_eq by done.
    rewrite wrap64_cong. unfold Z.divide. by setoid_rewrite Z.add_0_l.
  - intros v Hv. assert (Hu : 0 ≤ rng_unhash v < 2 ^ 64) by (apply xorshift_range, wrap64_range).
    pose proof (calls_to_range seed (rng_unhash v)) as Hr. exists (Z.to_nat (calls_to seed (rng_unhash v))).
    split_and!; [lia..| |].
    + rewrite rng_seed_reaches by done. by apply rng_hash_unhash.
    + intros m Hm Hv'. assert (rng_seed m seed = rng_unhash v) as Hm'.
      { rewrite <- Hv', rng_unhash_hash; [done|]. rewrite rng_seed_spec by done. auto. }
      rewrite <- (rng_seed_reaches seed (rng_unhash v)), rng_seed_eq, Z2Nat.id in Hm' by (done || lia).
      apply wrap64_cong in Hm' as [k Hk]. assert (k = 0) by nia. lia.
Qed.

Lemma rng_period_witness : 0 ≤ 5 < 2 ^ 64 ∧ ∃ n, rng_hash (rng_seed n 5) = 0.
Proof.
  split; [lia|]. destruct (rng_period 5) as [_ Hv]; [lia|]. destruct (Hv 0) as (n & _ & Hn & _); [lia|]. by exists n.
Defined.

(** ** Running the test *)

(** The test continues, or it gives up because an allocator that may run out of
    memory did. *)
Definition spec {W A} (total : Prop) (P : MemTestBinsMgr W → Prop) (c : M (MemTestBinsMgr W) A)
    (Q : A → MemTestBinsMgr W → Prop) : Prop :=
  ∀ s, P s → match c s with Ok a s' => Q a s' | Err e => e = OutOfMemory ∧ ¬ total end.

Section rules.
Context {W : Type} (total : Prop).
Implicit Types P : MemTestBinsMgr W → Prop.

Lemma spec_bind {A B} P (c : M (MemTestBinsMgr W) A) (k : A → M (MemTestBinsMgr W) B) R Q :
  spec total P c R → (∀ a, spec total (R a) (k a) Q) → spec total P (c ≫= k) Q.
Proof.
  intros Hc Hk s HP. specialize (Hc s HP). unfold mbind, M_bind. destruct (c s) as [a s'|e]; [|done]. by apply Hk.
Qed.

Lemma spec_ret {A} P (a : A) (Q : A → MemTestBinsMgr W → Prop) : (∀ s, P s → Q a s) → spec total P (mret a) Q.
Proof. intros HQ s HP. by apply HQ. Qed.

(** A run whose outcome is known. *)
Lemma spec_run {A} P (c : M (MemTestBinsMgr W) A) Q :
  (∀ s, P s → ∃ a s', c s = Ok a s' ∧ Q a s') → spec total P c Q.
Proof. intros Hr s HP. destruct (Hr s HP) as (a & s' & -> & HQ). done. Qed.

Lemma spec_pure {A} P (φ : Prop) (c : M (MemTestBinsMgr W) A) Q :
  (φ → spec total P c Q) → spec total (λ s, φ ∧ P s) c Q.
Proof. intros Hc s [Hφ HP]. by apply Hc. Qed.
End rules.

(** The two ways to compile the test. *)
Tactic Notation "case_test" "as" ident(Ht) :=
  match goal with
  | TEST : bool |- context [if ?b then _ else _] =>
      unify TEST b; destruct (bool_decide_reflect (TEST = true)) as [Ht|Ht]; [rewrite Ht|apply not_true_is_false in Ht; rewrite Ht]
  end.

Section test.
Context {W : Type} `{HA : Allocator W} (total : Prop) `{HL : !AllocatorLaws W total}.
Context (TEST ltr : bool) (maxperbin_size_ num_bins_ imax_ : Z).
Implicit Types (w : W) (H : heap) (bins : list Bin).

(** *** The pattern in a block *)

(** The offsets the pattern is written to, and the pattern there. *)
Definition mark (n i : Z) : Prop := 0 ≤ i < n ∧ (i `mod` 2047 = 0 ∨ i = n - 1).
Definition marked (p n : Z) (bs : list Z) : Prop := ∀ i, mark n i → bs !! Z.to_nat i = Some (pattern p i).

Lemma pattern_byte p i : 0 ≤ pattern p i < 256.
Proof. unfold pattern. change 255 with (Z.ones 8). rewrite Z.land_ones by lia. apply Z.mod_pos_bound. lia. Qed.

Lemma sys_ok {A} (c : M W A) sd bins w a w' :
  c w = Ok a w' → sys c (mkTest sd bins w) = Ok a (mkTest sd bins w').
Proof. intros Hc. unfold sys, zoom. cbn. by rewrite Hc. Qed.

Lemma next_mark n i : 0 ≤ i → i `mod` 2047 = 0 → n ≤ 2 ^ 32 → i < n →
  wrap64 (i + 2047) = i + 2047 ∧ (i + 2047) `mod` 2047 = 0 ∧ ∀ j, i < j → j `mod` 2047 = 0 → i + 2047 ≤ j.
Proof.
  intros Hi Hm Hn Hl. split_and!.
  - apply wrap64_small. lia.
  - replace (i + 2047) with (i + 1 * 2047) by lia. by rewrite Z.mod_add.
  - intros j Hj Hj0. apply Z.mod_divide in Hm as [a ->]; [|lia]. apply Z.mod_divide in Hj0 as [b ->]; [|lia]. lia.
Qed.

Lemma mem_init_loop_ok fuel p n i sd bins w H bs :
  owns w H → H !! p = Some bs → n ≤ Z.of_nat (length bs) → n ≤ 2 ^ 32 → 0 ≤ i → i `mod` 2047 = 0 →
  (0 < fuel)%nat → n ≤ i + 2047 * (Z.of_nat fuel - 1) →
  ∃ w' bs', mem_init_loop fuel p n i (mkTest sd bins w) = Ok tt (mkTest sd bins w') ∧ owns w' (<[p := bs']> H) ∧
    length bs' = length bs ∧ (∀ j, 0 ≤ j < i → bs' !! Z.to_nat j = bs !! Z.to_nat j) ∧
    (∀ j, i ≤ j < n → j `mod` 2047 = 0 → bs' !! Z.to_nat j = Some (pattern p j)).
Proof.
  revert i w H bs. induction fuel as [|fuel IH]; intros i w H bs Ho Hp Hn Hb Hi Hm Hf Hle; [lia|]. cbn [mem_init_loop].
  destruct (i <? n) eqn:Hlt; [apply Z.ltb_lt in Hlt|apply Z.ltb_ge in Hlt].
  - destruct (poke_law w H p bs i (pattern p i) Ho Hp ltac:(lia) (pattern_byte p i)) as (w1 & Hw1 & Ho1).
    rewrite (bind_ok _ _ _ _ _ (sys_ok _ sd bins _ _ _ Hw1)).
    destruct (next_mark n i) as (Hw & Hm' & Hnext); [done..|]. rewrite Hw.
    destruct (IH (i + 2047) w1 _ (<[Z.to_nat i := pattern p i]> bs) Ho1) as (w' & bs' & Hr & Ho' & Hl & Hlow & Hhigh);
      [by rewrite lookup_insert_eq|rewrite length_insert; lia|done|lia|done|lia|lia|].
    rewrite insert_insert_eq in Ho'. rewrite length_insert in Hl.
    exists w', bs'. split_and!; [done..| |].
    + intros j Hj. rewrite Hlow by lia. apply list_lookup_insert_ne. lia.
    + intros j Hj Hj0. destruct (decide (j = i)) as [->|].
      * rewrite Hlow by lia. apply list_lookup_insert_eq. lia.
      * apply Hhigh; [|done]. pose proof (Hnext j). lia.
  - exists w, bs. rewrite insert_id by done. split_and!; [done..|]. intros j Hj. lia.
Qed.

(** [mem_init] writes the pattern into the block and nothing else. *)
Lemma mem_init_ok p n sd bins w H bs :
  owns w H → H !! p = Some bs → 0 < n ≤ Z.of_nat (length bs) → n ≤ 2 ^ 32 →
  ∃ w' bs', mem_init p n (mkTest sd bins w) = Ok tt (mkTest sd bins w') ∧ owns w' (<[p := bs']> H) ∧
    length bs' = length bs ∧ marked p n bs'.
Proof.
  intros Ho Hp Hn Hb. unfold mem_init. destruct (Z.eqb_spec n 0); [lia|].
  pose proof (Z.div_mod n 2047 ltac:(lia)). pose proof (Z.mod_pos_bound n 2047 ltac:(lia)).
  destruct (mem_init_loop_ok (Z.to_nat (n `div` 2047 + 2)) p n 0 sd bins w H bs) as (w1 & bs1 & Hr & Ho1 & Hl & _ & Hm);
    [done|done|lia|lia|lia|done|lia|lia|].
  rewrite (bind_ok _ _ _ _ _ Hr).
  destruct (poke_law w1 _ p bs1 (n - 1) (pattern p (n - 1)) Ho1) as (w2 & Hw2 & Ho2);
    [by rewrite lookup_insert_eq|lia|apply pattern_byte|].
  rewrite insert_insert_eq in Ho2. exists w2, (<[Z.to_nat (n - 1) := pattern p (n - 1)]> bs1).
  split_and!; [by apply sys_ok|done|by rewrite length_insert|].
  intros i [Hi Hor]. destruct (decide (i = n - 1)) as [->|].
  - apply list_lookup_insert_eq. lia.
  - rewrite list_lookup_insert_ne by lia. apply Hm; [lia|]. by destruct Hor.
Qed.

Lemma mem_check_loop_ok fuel p n i sd bins w H bs :
  owns w H → H !! p = Some bs → n ≤ 2 ^ 32 → marked p n bs → 0 ≤ i → i `mod` 2047 = 0 →
  (0 < fuel)%nat → n ≤ i + 2047 * (Z.of_nat fuel - 1) →
  ∃ w', mem_check_loop fuel p n i (mkTest sd bins w) = Ok 0 (mkTest sd bins w') ∧ owns w' H.
Proof.
  revert i w. induction fuel as [|fuel IH]; intros i w Ho Hp Hb Hmk Hi Hm Hf Hle; [lia|]. cbn [mem_check_loop].
  destruct (i <? n) eqn:Hlt; [apply Z.ltb_lt in Hlt|by eauto].
  destruct (peek_law w H p bs i (pattern p i) Ho Hp Hi) as (w1 & Hw1 & Ho1); [apply Hmk; split; [lia|by left]|].
  rewrite (bind_ok _ _ _ _ _ (sys_ok _ sd bins _ _ _ Hw1)), Z.eqb_refl. cbn [negb].
  destruct (next_mark n i) as (-> & Hm' & _); [done..|]. apply IH; (done || lia).
Qed.

(** [mem_check] accepts a block with its pattern. *)
Lemma mem_check_ok p n sd bins w H bs :
  owns w H → H !! p = Some bs → 0 < n → n ≤ 2 ^ 32 → marked p n bs →
  ∃ w', mem_check p n (mkTest sd bins w) = Ok 0 (mkTest sd bins w') ∧ owns w' H.
Proof.
  intros Ho Hp Hn Hb Hmk. unfold mem_check. destruct (Z.eqb_spec n 0); [lia|].
  pose proof (Z.div_mod n 2047 ltac:(lia)). pose proof (Z.mod_pos_bound n 2047 ltac:(lia)).
  destruct (mem_check_loop_ok (Z.to_nat (n `div` 2047 + 2)) p n 0 sd bins w H bs) as (w1 & Hr & Ho1); try (done || lia).
  rewrite (bind_ok _ _ _ _ _ Hr). cbn [Z.eqb negb].
  destruct (peek_law w1 H p bs (n - 1) (pattern p (n - 1)) Ho1 Hp) as (w2 & Hw2 & Ho2); [lia|apply Hmk; split; [lia|by right]|].
  rewrite (bind_ok _ _ _ _ _ (sys_ok _ sd bins _ _ _ Hw2)), Z.eqb_refl. by eauto.
Qed.

(** A byte of a block that is zero up to [n]. *)
Lemma peek_zero p n i w H bs :
  owns w H → H !! p = Some bs → (∀ j, (j < Z.to_nat n)%nat → bs !! j = Some 0) → 0 ≤ i < n →
  ∃ w', peek p i w = Ok 0 w' ∧ owns w' H.
Proof. intros Ho Hp Hz Hi. apply (peek_law w H p bs i 0); [done|done|lia|]. apply Hz. lia. Qed.

Lemma zero_words_ok k p n i sd bins w H bs :
  owns w H → H !! p = Some bs → (∀ j, (j < Z.to_nat n)%nat → bs !! j = Some 0) → 0 ≤ i ≤ n →
  ∃ w' j, zero_words k p i (n - i) (mkTest sd bins w) = Ok (inr j) (mkTest sd bins w') ∧ i ≤ j ≤ n ∧ owns w' H.
Proof.
  revert i w. induction k as [|k IH]; intros i w Ho Hp Hz Hi; cbn [zero_words]; [exists w, i; split_and!; (done || lia)|].
  destruct (4 <=? n - i) eqn:Hle; [apply Z.leb_le in Hle|exists w, i; split_and!; (done || lia)].
  destruct (peek_zero p n i w H bs) as (w0 & E0 & Ho0); try (done || lia).
  destruct (peek_zero p n (i + 1) w0 H bs) as (w1 & E1 & Ho1); try (done || lia).
  destruct (peek_zero p n (i + 2) w1 H bs) as (w2 & E2 & Ho2); try (done || lia).
  destruct (peek_zero p n (i + 3) w2 H bs) as (w3 & E3 & Ho3); try (done || lia).
  rewrite (bind_ok _ _ _ _ _ (sys_ok _ sd bins _ _ _ E0)), (bind_ok _ _ _ _ _ (sys_ok _ sd bins _ _ _ E1)),
    (bind_ok _ _ _ _ _ (sys_ok _ sd bins _ _ _ E2)), (bind_ok _ _ _ _ _ (sys_ok _ sd bins _ _ _ E3)). cbn [Z.eqb Z.mul Z.add negb].
  replace (n - i - 4) with (n - (i + 4)) by lia.
  destruct (IH (i + 4) w3) as (w' & j & Hr & Hj & Ho'); try (done || lia). exists w', j. split_and!; (done || lia).
Qed.

Lemma zero_bytes_ok k p n i sd bins w H bs :
  owns w H → H !! p = Some bs → (∀ j, (j < Z.to_nat n)%nat → bs !! j = Some 0) → 0 ≤ i → i + Z.of_nat k ≤ n →
  ∃ w', zero_bytes k p i (mkTest sd bins w) = Ok 0 (mkTest sd bins w') ∧ owns w' H.
Proof.
  revert i w. induction k as [|k IH]; intros i w Ho Hp Hz Hi Hk; cbn [zero_bytes]; [by eauto|].
  destruct (peek_zero p n i w H bs) as (w0 & E0 & Ho0); try (done || lia).
  rewrite (bind_ok _ _ _ _ _ (sys_ok _ sd bins _ _ _ E0)). cbn [Z.eqb negb]. apply IH; (done || lia).
Qed.

(** [zero_check] accepts a block of zeros. *)
Lemma zero_check_ok p n sd bins w H bs :
  owns w H → H !! p = Some bs → (∀ j, (j < Z.to_nat n)%nat → bs !! j = Some 0) → 0 ≤ n →
  ∃ w', zero_check p n (mkTest sd bins w) = Ok 0 (mkTest sd bins w') ∧ owns w' H.
Proof.
  intros Ho Hp Hz Hn. unfold zero_check.
  destruct (zero_words_ok (Z.to_nat n) p n 0 sd bins w H bs) as (w1 & j & Hr & Hj & Ho1); try (done || lia).
  rewrite Z.sub_0_r in Hr. rewrite (bind_ok _ _ _ _ _ Hr). apply (zero_bytes_ok _ p n j sd bins w1 H bs); (done || lia).
Qed.

(** *** The bins and the heap *)

(** The thread's heap consists of the blocks of the bins that are not empty, one
    each, large enough and, with TEST, holding the pattern. *)
Record bins_inv H bins : Prop := {
  bin_block i bin : bins !! i = Some bin → binsize bin ≠ 0 →
    ∃ bs, H !! ptr bin = Some bs ∧ 0 < binsize bin ≤ Z.of_nat (length bs) ∧ binsize bin ≤ 2 ^ 32 ∧
      (TEST = true → marked (ptr bin) (binsize bin) bs);
  bin_inj i j bin bin' : bins !! i = Some bin → bins !! j = Some bin' →
    binsize bin ≠ 0 → binsize bin' ≠ 0 → ptr bin = ptr bin' → i = j;
  block_bin p : is_Some (H !! p) → ∃ i bin, bins !! i = Some bin ∧ binsize bin ≠ 0 ∧ ptr bin = p;
}.

(** The heap without the block of [bin], if it has one. *)
Definition release H (bin : Bin) : heap := if binsize bin =? 0 then H else delete (ptr bin) H.

Lemma release_inv H bins i bin q : bins_inv H bins → bins !! i = Some bin →
  bins_inv (release H bin) (<[i := mkBin q 0]> bins).
Proof.
  intros [Hblk Hinj Hbin] Hi.
  assert (Hlk : ∀ j b, <[i := mkBin q 0]> bins !! j = Some b → binsize b ≠ 0 → j ≠ i ∧ bins !! j = Some b).
  { intros j b [(<- & <- & _)|(? & ?)]%list_lookup_insert_Some Hb; [done|]. auto. }
  split.
  - intros j b Hj Hb. destruct (Hlk j b Hj Hb) as [Hne Hj']. destruct (Hblk j b Hj' Hb) as (bs & Hbs & Hrest).
    exists bs. split; [|done]. unfold release. destruct (Z.eqb_spec (binsize bin) 0); [done|].
    rewrite lookup_delete_ne; [done|]. intros Heq. apply Hne. by eapply Hinj.
  - intros j k b b' Hj Hk Hb Hb'. destruct (Hlk j b Hj Hb) as [_ ?]. destruct (Hlk k b' Hk Hb') as [_ ?]. by apply Hinj.
  - intros p Hp. unfold release in Hp. destruct (Z.eqb_spec (binsize bin) 0) as [Hz|Hz].
    + destruct (Hbin p Hp) as (j & b & Hj & Hb & Hpb). exists j, b. split_and!; [|done..].
      rewrite list_lookup_insert_ne; [done|]. intros ->. congruence.
    + destruct Hp as [bs [Hne Hp]%lookup_delete_Some]. destruct (Hbin p (mk_is_Some _ _ Hp)) as (j & b & Hj & Hb & Hpb).
      exists j, b. split_and!; [|done..]. rewrite list_lookup_insert_ne; [done|]. intros ->. congruence.
Qed.

Lemma fill_inv H bins i q n p bs : bins_inv H (<[i := mkBin q 0]> bins) → (i < length bins)%nat →
  fresh_block H n p bs → 0 < n ≤ 2 ^ 32 → (TEST = true → marked p n bs) →
  bins_inv (<[p := bs]> H) (<[i := mkBin p n]> bins).
Proof.
  intros [Hblk Hinj Hbin] Hi (_ & Hfresh & Hlen & _) Hn Hmk.
  assert (Hlk : ∀ j b, bins !! j = Some b → j ≠ i → <[i := mkBin q 0]> bins !! j = Some b)
    by (intros j b Hj Hne; by rewrite list_lookup_insert_ne).
  assert (Hne : ∀ j b, bins !! j = Some b → j ≠ i → binsize b ≠ 0 → ptr b ≠ p).
  { intros j b Hj Hji Hb <-. destruct (Hblk j b (Hlk j b Hj Hji) Hb) as (bs' & Hbs' & _). congruence. }
  split.
  - intros j b [(<- & <- & _)|(Hji & Hj)]%list_lookup_insert_Some Hb.
    + exists bs. simpl. rewrite lookup_insert_eq. split_and!; (done || lia).
    + destruct (Hblk j b (Hlk j b Hj ltac:(done)) Hb) as (bs' & Hbs' & Hrest). exists bs'. split; [|done].
      rewrite lookup_insert_ne; [done|]. intros Heq. by eapply (Hne j b).
  - intros j k b b' [(<- & <- & _)|(? & Hj)]%list_lookup_insert_Some [(<- & <- & _)|(? & Hk)]%list_lookup_insert_Some
      Hb Hb' Heq; [done| | |by eapply Hinj; eauto].
    + exfalso. by eapply (Hne k b').
    + exfalso. by eapply (Hne j b).
  - intros a Ha. destruct (decide (a = p)) as [->|Hap].
    + exists i, (mkBin p n). rewrite list_lookup_insert_eq by done. simpl. split_and!; (done || lia).
    + rewrite lookup_insert_ne in Ha by done. destruct (Hbin a Ha) as (j & b & Hj & Hb & Hpb).
      exists j, b. split_and!; [|done..].
      apply list_lookup_insert_Some in Hj as [(_ & <- & _)|(? & Hj)]; [done|]. by rewrite list_lookup_insert_ne.
Qed.

(** What holds between the operations. *)
Definition ready (s : MemTestBinsMgr W) : Prop :=
  ∃ H, owns (sys_ s) H ∧ bins_inv H (binsArr_ s) ∧ Z.of_nat (length (binsArr_ s)) = num_bins_.

Lemma check_bin_ok bin i sd bins w H : owns w H → bins_inv H bins → bins !! i = Some bin →
  ∃ w', check_bin TEST bin (mkTest sd bins w) = Ok tt (mkTest sd bins w') ∧ owns w' H.
Proof.
  intros Ho Hinv Hi. unfold check_bin. case_test as Ht; [|by eauto].
  destruct (decide (binsize bin = 0)) as [Hz|Hz].
  - unfold mem_check. rewrite Hz. by eauto.
  - destruct (bin_block _ _ Hinv i bin Hi Hz) as (bs & Hbs & Hn & Hb & Hmk).
    destruct (mem_check_ok (ptr bin) (binsize bin) sd bins w H bs) as (w' & Hr & Ho'); [done|done|lia|done|auto|].
    exists w'. by rewrite (bind_ok _ _ _ _ _ Hr).
Qed.

Lemma free_if_used_ok bin i sd bins w H : owns w H → bins_inv H bins → bins !! i = Some bin →
  ∃ w', free_if_used bin (mkTest sd bins w) = Ok tt (mkTest sd bins w') ∧ owns w' (release H bin).
Proof.
  intros Ho Hinv Hi. unfold free_if_used, release. destruct (Z.eqb_spec (binsize bin) 0) as [Hz|Hz].
  - rewrite Hz. by eauto.
  - destruct (bin_block _ _ Hinv i bin Hi Hz) as (bs & Hbs & Hn & _). destruct (Z.ltb_spec 0 (binsize bin)); [|lia].
    destruct (free_law w H (ptr bin) Ho (mk_is_Some _ _ Hbs)) as (w' & Hr & Ho'). exists w'. split; [by apply sys_ok|done].
Qed.

(** With TEST a NULL from calloc is looked at before it is tested. *)
Hypothesis HT : TEST = true → total.

Definition got_block H (bin : Bin) n p w : Prop :=
  (¬ total ∧ p = NULL) ∨ ∃ bs, fresh_block (release H bin) n p bs ∧ owns w (<[p := bs]> (release H bin)).

Lemma got_allocated H bin n Q p w : allocated total (release H bin) n Q p w → got_block H bin n p w.
Proof. intros [(? & ? & _)|(bs & ? & _ & ?)]; [by left|right; by exists bs]. Qed.

Lemma alloc_block_ok bin i n r sd bins w H :
  owns w H → bins_inv H bins → bins !! i = Some bin → 0 < n ≤ 2 ^ 32 → 0 ≤ r →
  ∃ p w', alloc_block TEST bin n r (mkTest sd bins w) = Ok p (mkTest sd bins w') ∧ got_block H bin n p w'.
Proof.
  intros Ho Hinv Hi Hn Hr. destruct (free_if_used_ok bin i sd bins w H Ho Hinv Hi) as (w1 & Hf & Ho1).
  unfold alloc_block. destruct (Z.ltb_spec r 4); [|destruct (r <? 20)].
  - destruct (memalign_law w1 _ r n Ho1 ltac:(lia) Hn) as (p & w2 & Hm & Ha).
    exists p, w2. rewrite (bind_ok _ _ _ _ _ Hf). split; [by apply sys_ok|by eapply got_allocated].
  - destruct (calloc_law w1 _ n Ho1 Hn) as (p & w2 & Hm & Ha). rewrite (bind_ok _ _ _ _ _ Hf).
    rewrite (bind_ok _ _ _ _ _ (sys_ok _ sd bins _ _ _ Hm)).
    case_test as Ht.
    + destruct Ha as [(Hnt & _)|(bs & Hb & Hz & Ho2)]; [by destruct (Hnt (HT Ht))|].
      destruct (zero_check_ok p n sd bins w2 _ bs Ho2) as (w3 & Hc & Ho3); [by rewrite lookup_insert_eq|done|lia|].
      exists p, w3. rewrite (bind_ok _ _ _ _ _ Hc). split; [done|]. right. by exists bs.
    + exists p, w2. split; [done|by eapply got_allocated].
  - destruct ((r <? 100) && (binsize bin <? REALLOC_MAX)).
    + destruct (Z.eqb_spec (binsize bin) 0) as [Hz|Hz].
      * destruct (realloc_null_law w H n Ho Hn) as (p & w2 & Hm & Ha). exists p, w2. split; [by apply sys_ok|].
        eapply got_allocated. unfold release. by rewrite (proj2 (Z.eqb_eq _ _) Hz).
      * destruct (bin_block _ _ Hinv i bin Hi Hz) as (old & Hold & _).
        destruct (realloc_law w H (ptr bin) old n Ho Hold Hn) as (p & w2 & Hm & Ha). exists p, w2. split; [by apply sys_ok|].
        unfold got_block, release. rewrite (proj2 (Z.eqb_neq _ _) Hz). destruct Ha as [(? & ? & _)|(bs & ? & _ & ?)]; [by left|right; by exists bs].
    + destruct (malloc_law w1 _ n Ho1 Hn) as (p & w2 & Hm & Ha). rewrite (bind_ok _ _ _ _ _ Hf).
      exists p, w2. split; [by apply sys_ok|by eapply got_allocated].
Qed.

Lemma get_bin_ok b sd bins w : 0 ≤ b < Z.of_nat (length bins) →
  ∃ bin, bins !! Z.to_nat b = Some bin ∧ get_bin b (mkTest sd bins w) = Ok bin (mkTest sd bins w).
Proof.
  intros Hb. destruct (lookup_lt_is_Some_2 bins (Z.to_nat b)) as [bin Hbin]; [lia|]. exists bin. split; [done|].
  unfold get_bin. cbn. by rewrite Hbin.
Qed.

Lemma BinAlloc_spec b n r : 0 ≤ b < num_bins_ → 0 < n ≤ 2 ^ 32 → 0 ≤ r →
  spec total ready (BinAlloc TEST b n r) (λ _, ready).
Proof.
  intros Hb Hn Hr [sd bins w] (H & Ho & Hinv & Hlen). cbn in Ho, Hinv, Hlen. unfold BinAlloc.
  destruct (get_bin_ok b sd bins w) as (bin & Hbin & Hg); [lia|]. rewrite (bind_ok _ _ _ _ _ Hg).
  destruct (check_bin_ok bin _ sd bins w H Ho Hinv Hbin) as (w1 & Hc & Ho1). rewrite (bind_ok _ _ _ _ _ Hc).
  destruct (alloc_block_ok bin _ n (r `mod` 1024) sd bins w1 H Ho1 Hinv Hbin Hn) as (p & w2 & Ha & Hgot);
    [apply Z.mod_pos_bound; lia|]. rewrite (bind_ok _ _ _ _ _ Ha).
  destruct Hgot as [(Hnt & ->)|(bs & Hfresh & Ho2)]; [done|].
  destruct (Z.eqb_spec p NULL) as [->|_]; [by destruct Hfresh|].
  pose proof (release_inv H bins _ bin NULL Hinv Hbin) as Hrel.
  assert (Hfill : ∀ bs', length bs' = length bs → (TEST = true → marked p n bs') →
    bins_inv (<[p := bs']> (release H bin)) (<[Z.to_nat b := mkBin p n]> bins)).
  { intros bs' Hl Hmk. eapply fill_inv; [done|lia| |done|done]. unfold fresh_block in *. by rewrite Hl. }
  unfold set_bin at 1. unfold mbind, M_bind. cbn [rnd_seed_ binsArr_ sys_].
  case_test as Ht.
  - destruct (mem_init_ok p n sd (<[Z.to_nat b := mkBin p n]> bins) w2 _ bs Ho2) as (w3 & bs' & -> & Ho3 & Hl & Hmk);
      [by rewrite lookup_insert_eq|destruct Hfresh as (_ & _ & ? & _); lia|lia|].
    rewrite insert_insert_eq in Ho3. eexists. split_and!; [exact Ho3|by apply Hfill|cbn; by rewrite length_insert].
  - eexists. split_and!; [exact Ho2|apply Hfill; [done|congruence]|cbn; by rewrite length_insert].
Qed.

(** The bins of [E] are empty. *)
Definition empty_on (E : nat → Prop) (s : MemTestBinsMgr W) : Prop :=
  ∀ j bin, E j → binsArr_ s !! j = Some bin → binsize bin = 0.

Lemma BinFree_spec E b : 0 ≤ b < num_bins_ →
  spec total (λ s, ready s ∧ empty_on E s) (BinFree TEST b)
    (λ _ s, ready s ∧ empty_on (λ j, E j ∨ j = Z.to_nat b) s).
Proof.
  intros Hb [sd bins w] [(H & Ho & Hinv & Hlen) HE]. cbn in Ho, Hinv, Hlen. unfold BinFree.
  destruct (get_bin_ok b sd bins w) as (bin & Hbin & Hg); [lia|]. rewrite (bind_ok _ _ _ _ _ Hg).
  destruct (Z.eqb_spec (binsize bin) 0) as [Hz|Hz].
  - split; [by exists H|]. intros j bin' [Hj| ->] Hj'; [by eapply HE|]. cbn in Hj'. by simplify_eq.
  - destruct (check_bin_ok bin _ sd bins w H Ho Hinv Hbin) as (w1 & Hc & Ho1). rewrite (bind_ok _ _ _ _ _ Hc).
    destruct (bin_block _ _ Hinv _ bin Hbin Hz) as (bs & Hbs & _).
    destruct (free_law w1 H (ptr bin) Ho1 (mk_is_Some _ _ Hbs)) as (w2 & Hf & Ho2).
    rewrite (bind_ok _ _ _ _ _ (sys_ok _ sd bins _ _ _ Hf)). cbn. split.
    + exists (delete (ptr bin) H). split_and!; [done| |cbn; by rewrite length_insert].
      pose proof (release_inv H bins _ bin (ptr bin) Hinv Hbin) as Hr. unfold release in Hr.
      by rewrite (proj2 (Z.eqb_neq _ _) Hz) in Hr.
    + intros j bin' Hj [(<- & <- & _)|(Hne & Hj')]%list_lookup_insert_Some; [done|].
      destruct Hj as [Hj| ->]; [by eapply HE|done].
Qed.

(** A random number below [n]. *)
Lemma RANDOM_spec n : 0 < n → spec total ready (RANDOM n) (λ r s, (0 ≤ r < n ∧ r < 2 ^ 32) ∧ ready s).
Proof.
  intros Hn. apply spec_run. intros [sd bins w] Hs. unfold RANDOM, rng, mbind, M_bind. rewrite (proj2 (Z.eqb_neq n 0)) by lia. cbn [rnd_seed_ binsArr_ sys_].
  eexists _, _. split; [done|]. split; [|done]. pose proof (wrap32_range (rng_hash (rng_next sd))) as Hw.
  pose proof (Z.mod_pos_bound (wrap32 (rng_hash (rng_next sd))) n Hn).
  pose proof (Z.mod_le (wrap32 (rng_hash (rng_next sd))) n (proj1 Hw) Hn). lia.
Qed.

Lemma rng_spec : spec total ready rng (λ r s, 0 ≤ r ∧ ready s).
Proof. apply spec_run. intros [sd bins w] Hs. cbn. eexists _, _. split; [done|]. split; [apply wrap32_range|done]. Qed.

Hypothesis Hmax : 0 < maxperbin_size_.
Hypothesis Hbins : 0 < num_bins_.

Lemma random_alloc_spec b : 0 ≤ b < num_bins_ → spec total ready (random_alloc TEST ltr maxperbin_size_ b) (λ _, ready).
Proof.
  intros Hb. unfold random_alloc. destruct ltr.
  - eapply spec_bind; [by apply RANDOM_spec|]. intros r. apply spec_pure. intros Hr.
    eapply spec_bind; [apply rng_spec|]. intros x. apply spec_pure. intros Hx. apply BinAlloc_spec; lia.
  - eapply spec_bind; [apply rng_spec|]. intros x. apply spec_pure. intros Hx.
    eapply spec_bind; [by apply RANDOM_spec|]. intros r. apply spec_pure. intros Hr. apply BinAlloc_spec; lia.
Qed.

Lemma first_round_spec n b : 0 ≤ b → b + Z.of_nat n ≤ num_bins_ →
  spec total ready (first_round TEST ltr maxperbin_size_ n b) (λ _, ready).
Proof.
  revert b. induction n as [|n IH]; intros b Hb Hn; cbn [first_round]; [by apply spec_ret|].
  eapply spec_bind; [by apply RANDOM_spec|]. intros r. apply spec_pure. intros _.
  eapply (spec_bind _ _ _ _ (λ _, ready)).
  - destruct (r =? 0); [apply random_alloc_spec; lia|by apply spec_ret].
  - intros _. apply IH; lia.
Qed.

Lemma free_some_spec n : spec total ready (free_some TEST num_bins_ n) (λ _, ready).
Proof.
  induction n as [|n IH]; cbn [free_some]; [by apply spec_ret|].
  eapply spec_bind; [by apply RANDOM_spec|]. intros b. apply spec_pure. intros [Hb _].
  eapply (spec_bind _ _ _ _ (λ _, ready)); [|intros []; exact IH].
  intros s Hs. pose proof (BinFree_spec (λ _, False) b Hb s) as Hf.
  destruct (BinFree TEST b s); [apply Hf|apply Hf]; (split; [done|]); by intros ? ? [].
Qed.

Lemma alloc_some_spec n : spec total ready (alloc_some TEST ltr maxperbin_size_ num_bins_ n) (λ _, ready).
Proof.
  induction n as [|n IH]; cbn [alloc_some]; [by apply spec_ret|].
  eapply spec_bind; [by apply RANDOM_spec|]. intros b. apply spec_pure. intros [Hb _].
  eapply spec_bind; [by apply random_alloc_spec|]. intros []. exact IH.
Qed.

Lemma free_all_spec n b : 0 ≤ b → b + Z.of_nat n = num_bins_ →
  spec total (λ s, ready s ∧ empty_on (λ j, j < Z.to_nat b)%nat s) (free_all TEST n b)
    (λ _ s, ready s ∧ empty_on (λ _, True) s).
Proof.
  revert b. induction n as [|n IH]; intros b Hb Hn; cbn [free_all].
  - apply spec_ret. intros s [Hr He]. split; [done|]. intros j bin _ Hj. eapply He; [|done].
    apply lookup_lt_Some in Hj. destruct Hr as (_ & _ & _ & Hl). lia.
  - eapply spec_bind; [apply BinFree_spec; lia|]. intros [] s [Hr He]. apply (IH (b + 1)); [lia|lia|].
    split; [done|]. intros j bin Hj. apply He. lia.
Qed.

(** *** The second round ends

    A turn of the loop that makes no call uses one random number, and at the
    latest after 2^64 of them, when the seed is 1, one is not a multiple of 30. *)

Hypothesis Himax : 0 ≤ imax_ < 2 ^ 32.

Definition budget (i seed : Z) : Z := Z.max 0 (imax_ + 1 - i) * (2 ^ 64 + 1) + calls_to seed 1 + 1.

Lemma budget_progress i i' seed seed' : i ≤ imax_ → i < i' → budget i' seed' < budget i seed.
Proof.
  intros Hi Hi'. unfold budget. pose proof (calls_to_range seed 1). pose proof (calls_to_range seed' 1).
  assert (Z.max 0 (imax_ + 1 - i') ≤ Z.max 0 (imax_ + 1 - i) - 1) by lia. nia.
Qed.

Lemma budget_idle i seed : wrap32 (rng_hash (rng_next seed)) `mod` ACTIONS_MAX = 0 →
  budget i (rng_next seed) < budget i seed.
Proof.
  intros Hz. unfold budget. pose proof (calls_to_range seed 1) as Hr. destruct (decide (calls_to seed 1 = 1)) as [H1|H1].
  - apply calls_to_1 in H1; [|lia]. rewrite H1 in Hz. vm_compute in Hz. lia.
  - rewrite calls_to_next by lia. lia.
Qed.

Lemma second_round_spec fuel i actions : 0 ≤ i → 0 ≤ actions < ACTIONS_MAX →
  spec total (λ s, ready s ∧ budget i (rnd_seed_ s) ≤ Z.of_nat fuel)
    (second_round TEST ltr maxperbin_size_ num_bins_ imax_ fuel i actions) (λ _, ready).
Proof.
  revert i actions. induction fuel as [|fuel IH]; intros i actions Hi Ha s [Hs Hf].
  { unfold budget in Hf. pose proof (calls_to_range (rnd_seed_ s) 1). lia. }
  cbn [second_round]. destruct (Z.leb_spec i imax_) as [Hle|]; [|done].
  pose proof (free_some_spec (Z.to_nat actions) s Hs) as Hfree. unfold mbind, M_bind.
  assert (Hsame1 : actions = 0 → free_some TEST num_bins_ (Z.to_nat actions) s = Ok tt s) by (by intros ->).
  destruct (free_some TEST num_bins_ (Z.to_nat actions) s) as [[] s1|]; [|done].
  pose proof (RANDOM_spec ACTIONS_MAX ltac:(done) s1 Hfree) as Hrnd.
  assert (Hr : RANDOM ACTIONS_MAX s1 = Ok (wrap32 (rng_hash (rng_next (rnd_seed_ s1))) `mod` ACTIONS_MAX)
    (mkTest (rng_next (rnd_seed_ s1)) (binsArr_ s1) (sys_ s1))) by done.
  rewrite Hr in Hrnd |- *. destruct Hrnd as [[Hr0 _] Hs2]. remember (wrap32 (rng_hash _) `mod` ACTIONS_MAX) as r eqn:Er.
  remember (mkTest (rng_next (rnd_seed_ s1)) (binsArr_ s1) (sys_ s1)) as s2 eqn:Es2.
  pose proof (alloc_some_spec (Z.to_nat r) s2 Hs2) as Halloc.
  assert (Hsame2 : r = 0 → alloc_some TEST ltr maxperbin_size_ num_bins_ (Z.to_nat r) s2 = Ok tt s2) by (by intros ->).
  destruct (alloc_some TEST ltr maxperbin_size_ num_bins_ (Z.to_nat r) s2) as [[] s3|]; [|done].
  unfold ACTIONS_MAX in *. rewrite !wrap64_small by (rewrite ?wrap64_small; lia). apply IH; [lia|lia|]. split; [done|].
  destruct (decide (actions + r = 0)) as [Hz|Hz].
  - assert (actions = 0) as Ha0 by lia. assert (r = 0) as Hr00 by lia.
    apply Hsame1, Ok_inj in Ha0 as [_ ->]. apply Hsame2, Ok_inj in Hr00 as [_ ->]. rewrite Es2. cbn [rnd_seed_].
    pose proof (budget_idle i (rnd_seed_ s) ltac:(unfold ACTIONS_MAX; lia)).
    replace (i + actions + r) with i by lia. lia.
  - pose proof (budget_progress i (i + actions + r) (rnd_seed_ s) (rnd_seed_ s3) Hle ltac:(lia)). lia.
Qed.

Lemma ready_init seed w : owns w ∅ → ready (MemTestBinsMgr_init maxperbin_size_ num_bins_ imax_ seed w).
Proof.
  intros Ho. exists ∅. cbn. split_and!; [done| |rewrite length_replicate; lia]. split.
  - by intros i bin [-> _]%lookup_replicate_1 ?.
  - by intros i j bin bin' [-> _]%lookup_replicate_1.
  - intros p [bs Hp]. by rewrite lookup_empty in Hp.
Qed.

Lemma MallocTest_spec fuel : budget 0 1 + 2 ^ 64 ≤ Z.of_nat fuel →
  spec total ready (MallocTest TEST ltr maxperbin_size_ num_bins_ imax_ fuel) (λ _ s, ready s ∧ empty_on (λ _, True) s).
Proof.
  intros Hf. unfold MallocTest. eapply (spec_bind _ _ _ _ (λ _, ready)).
  { apply spec_run. intros [sd bins w] (H & Ho & Hinv & Hl). destruct (barrier_law w H Ho) as (w' & Hw & Ho').
    eexists tt, (mkTest sd bins w'). split; [by apply sys_ok|]. by exists H. }
  intros []. eapply (spec_bind _ _ _ _ (λ _, ready)); [apply first_round_spec; lia|].
  intros []. eapply spec_bind; [by apply RANDOM_spec|]. intros a. apply spec_pure. intros [Ha _].
  eapply (spec_bind _ _ _ _ (λ _, ready)).
  { intros s Hs. apply second_round_spec; [lia|done|]. split; [done|]. unfold budget in *.
    pose proof (calls_to_range (rnd_seed_ s) 1). pose proof (calls_to_range 1 1). lia. }
  intros []. eapply spec_bind.
  { intros s Hs. apply (free_all_spec (Z.to_nat num_bins_) 0); [lia|lia|]. split; [done|]. intros j bin Hj. cbn in Hj. lia. }
  intros []. apply spec_run. intros [sd bins w] Hs. eexists tt, _. split; [done|]. exact Hs.
Qed.
End test.

(** C18: The memory test with an allocator that keeps its contract.  The test ends;
    with an allocator that never refuses it runs to its end, otherwise it may give
    up for lack of memory.  It never fails in another way: no bin is used outside
    the array, no block is accessed out of its bounds or after it was freed, none is
    freed twice, no check of the pattern or of the zeros fails.  At the end every
    bin is empty and the thread owns no block. *)
Theorem malloc_test_clean {W} `{Allocator W} total `{!AllocatorLaws W total} TEST ltr maxperbin_size num_bins imax seed (w : W) :
  (TEST = true → total) → 0 < maxperbin_size → 0 < num_bins → 0 ≤ imax < 2 ^ 32 → owns w ∅ →
  ∃ n, ∀ fuel, (n ≤ fuel)%nat →
    match MallocTest TEST ltr maxperbin_size num_bins imax fuel (MemTestBinsMgr_init maxperbin_size num_bins imax seed w) with
    | Ok _ s => owns (sys_ s) ∅ ∧ Forall (λ bin, binsize bin = 0) (binsArr_ s) ∧ Z.of_nat (length (binsArr_ s)) = num_bins
    | Err e => e = OutOfMemory ∧ ¬ total
    end.
Proof.
  intros HT Hm Hb Hi Ho. exists (Z.to_nat (budget imax 0 1 + 2 ^ 64)). intros fuel Hf.
  pose proof (MallocTest_spec total TEST ltr maxperbin_size num_bins imax HT Hm Hb Hi fuel ltac:(lia) _
    (ready_init TEST maxperbin_size num_bins imax Hb seed w Ho)) as Hs.
  destruct (MallocTest _ _ _ _ _ _ _) as [[] s|e]; [|done].
  destruct Hs as [(H0 & Ho0 & Hinv & Hl) He]. split_and!; [|by apply Forall_lookup; intros j bin; apply He|done].
  assert (H0 = ∅) as <-; [|done]. apply map_empty. intros p. apply eq_None_not_Some.
  intros (j & bin & Hj & Hn & _)%(block_bin _ _ _ Hinv). apply Hn. by eapply He.
Qed.

(** ** Without bins

    [memalloc_benchmark.cpp] shares 2^26 bytes among its threads and bins; with
    more than 64 threads and the largest size no bin is left, and the test takes a
    random number modulo 0. *)

Definition MEMORYLIMIT : Z := 2 ^ 26.
Definition numbins (N_THREADS maxsizeperbin : Z) : Z := MEMORYLIMIT `div` wrap64 (to_int32 (N_THREADS * maxsizeperbin)).

Section no_bins.
Context {W : Type} `{HA : Allocator W} (TEST ltr : bool) (maxperbin_size_ imax_ : Z) (Himax : 0 ≤ imax_ < 2 ^ 32).

Lemma RANDOM_zero (s : MemTestBinsMgr W) : RANDOM 0 s = Err DivByZero.
Proof. done. Qed.

Lemma second_round_no_bins fuel actions (s : MemTestBinsMgr W) : 0 ≤ actions →
  budget imax_ 0 (rnd_seed_ s) ≤ Z.of_nat fuel →
  second_round TEST ltr maxperbin_size_ 0 imax_ fuel 0 actions s = Err DivByZero.
Proof.
  revert actions s. induction fuel as [|fuel IH]; intros actions s Ha Hf.
  { unfold budget in Hf. pose proof (calls_to_range (rnd_seed_ s) 1). lia. }
  cbn [second_round]. destruct (Z.leb_spec 0 imax_) as [_|]; [|lia].
  destruct (Z.to_nat actions) as [|k] eqn:Hk; cbn [free_some]; [|done].
  assert (actions = 0) as -> by lia. unfold mbind at 1, M_bind at 1. unfold mret, M_ret.
  assert (Hr : RANDOM ACTIONS_MAX s = Ok (wrap32 (rng_hash (rng_next (rnd_seed_ s))) `mod` ACTIONS_MAX)
    (mkTest (rng_next (rnd_seed_ s)) (binsArr_ s) (sys_ s))) by done.
  rewrite (bind_ok _ _ _ _ _ Hr). remember (wrap32 (rng_hash _) `mod` ACTIONS_MAX) as r eqn:Er.
  destruct (Z.to_nat r) as [|k] eqn:Hr0; cbn [alloc_some]; [|done].
  assert (0 ≤ r) by (rewrite Er; apply Z.mod_pos_bound; done). assert (r = 0) as Hz by lia. rewrite Hz in *.
  change (second_round TEST ltr maxperbin_size_ 0 imax_ fuel 0 0 (mkTest (rng_next (rnd_seed_ s)) (binsArr_ s) (sys_ s)) = Err DivByZero).
  apply IH; [done|]. cbn [rnd_seed_]. pose proof (budget_idle imax_ 0 (rnd_seed_ s) ltac:(done)). lia.
Qed.
End no_bins.

(** A test without bins always stops with a division by zero. *)
Lemma no_bins_faults {W} `{Allocator W} TEST ltr maxperbin_size imax seed (w w' : W) :
  0 ≤ imax < 2 ^ 32 → barrier_wait w = Ok tt w' →
  ∃ n, ∀ fuel, (n ≤ fuel)%nat →
    MallocTest TEST ltr maxperbin_size 0 imax fuel (MemTestBinsMgr_init maxperbin_size 0 imax seed w) = Err DivByZero.
Proof.
  intros Hi Hb. exists (Z.to_nat (budget imax 0 1 + 2 ^ 64)). intros fuel Hf. unfold MallocTest, MemTestBinsMgr_init.
  rewrite (bind_ok _ _ _ _ _ (sys_ok _ _ _ _ _ _ Hb)). change (Z.to_nat 0) with O. cbn [first_round].
  unfold mbind at 1, M_bind at 1, mret at 1, M_ret at 1.
  erewrite bind_ok by reflexivity. apply bind_err. apply second_round_no_bins; [done|apply Z.mod_pos_bound; done|].
  unfold budget in *. pose proof (calls_to_range 1 1). match goal with |- context [calls_to ?x 1] => pose proof (calls_to_range x 1) end. lia.
Qed.

Lemma numbins_65 : numbins 65 (2 ^ 20) = 0.
Proof. reflexivity. Qed.

(** ** An allocator with the laws

    Blocks are cut from the front of the memory left and never reused; with a
    limit it refuses what does not fit. *)

Record Bump : Type := mkBump { bnext : Z; bheap : heap }.

Definition round32 (n : Z) : Z := (n + 31) `div` 32 * 32.

Definition bump_alloc (lim : option Z) (bs : list Z) : M Bump Z := λ w,
  let n := Z.of_nat (length bs) in
  if match lim with Some l => l <? bnext w + n | None => false end then Ok NULL w
  else Ok (bnext w) (mkBump (bnext w + round32 n) (<[bnext w := bs]> (bheap w))).

Definition bump_block (p : Z) : M Bump (list Z) := λ w,
  match bheap w !! p with Some bs => Ok bs w | None => Err (Segv p) end.

Definition bump_free (p : Z) : M Bump unit :=
  bump_block p;; modify (λ w, mkBump (bnext w) (delete p (bheap w))).

Definition garbage (n : Z) : list Z := replicate (Z.to_nat n) 7.

Definition bump_realloc (lim : option Z) (q n : Z) : M Bump Z :=
  if q =? NULL then bump_alloc lim (garbage n)
  else old ← bump_block q;
       p ← bump_alloc lim (take (Z.to_nat n) old ++ garbage (n - Z.of_nat (length old)));
       if p =? NULL then mret p else bump_free q;; mret p.

Record bump_owns (w : Bump) (H : heap) : Prop := {
  bo_heap : bheap w = H;
  bo_next : 0 < bnext w ∧ bnext w `mod` 32 = 0;
  bo_below q bs : H !! q = Some bs → 0 < q < bnext w ∧ q + Z.of_nat (length bs) ≤ bnext w;
}.

Definition bump_allocator (lim : option Z) : Allocator Bump := {|
  malloc n := bump_alloc lim (garbage n);
  calloc n m := bump_alloc lim (replicate (Z.to_nat (n * m)) 0);
  memalign _ n := bump_alloc lim (garbage n);
  realloc := bump_realloc lim;
  free := bump_free;
  peek p i := bs ← bump_block p; match bs !! Z.to_nat i with Some b => mret b | None => fail (Segv (p + i)) end;
  poke p i b := bs ← bump_block p; if decide (Z.to_nat i < length bs)%nat
                then modify (λ w, mkBump (bnext w) (<[p := <[Z.to_nat i := b]> bs]> (bheap w))) else fail (Segv (p + i));
  barrier_wait := mret tt;
  owns := bump_owns;
|}.

Lemma round32_spec n : 0 ≤ n → n ≤ round32 n ∧ ∃ k, 0 ≤ k ∧ round32 n = k * 32.
Proof.
  intros Hn. unfold round32. pose proof (Z.div_mod (n + 31) 32 ltac:(lia)). pose proof (Z.mod_pos_bound (n + 31) 32 ltac:(lia)).
  split; [lia|]. exists ((n + 31) `div` 32). split; [apply Z.div_pos; lia|done].
Qed.

Lemma bump_fresh w H n bs : bump_owns w H → 0 < n ≤ Z.of_nat (length bs) → fresh_block H n (bnext w) bs.
Proof.
  intros [Hh Hn Hb] Hl. split_and!; [unfold NULL; lia| |lia|].
  - apply eq_None_not_Some. intros [bs' Hbs'%Hb]. lia.
  - intros q bs' Hq%Hb. lia.
Qed.

Lemma bump_grow w H bs : bump_owns w H → 0 < Z.of_nat (length bs) →
  bump_owns (mkBump (bnext w + round32 (Z.of_nat (length bs))) (<[bnext w := bs]> (bheap w))) (<[bnext w := bs]> H).
Proof.
  intros [<- [Hn Hm] Hb] Hl. destruct (round32_spec (Z.of_nat (length bs)) ltac:(lia)) as (Hle & k & Hk & Hr). split; cbn.
  - done.
  - rewrite Hr, Z.mod_add by lia. split; [lia|done].
  - intros q bs' [(<- & <-)|(_ & Hq%Hb)]%lookup_insert_Some; lia.
Qed.

Lemma bump_delete w H q : bump_owns w H → bump_owns (mkBump (bnext w) (delete q (bheap w))) (delete q H).
Proof. intros [<- Hn Hb]. split; [done..|]. intros p bs [_ Hp%Hb]%lookup_delete_Some. done. Qed.

Lemma bump_alloc_ok lim w H n (Q : Z → list Z → Prop) bs :
  bump_owns w H → 0 < n ≤ Z.of_nat (length bs) → (∀ p, p `mod` 32 = 0 → Q p bs) →
  ∃ p w', bump_alloc lim bs w = Ok p w' ∧ @allocated _ (bump_allocator lim) (lim = None) H n Q p w'.
Proof.
  intros Ho Hn HQ. unfold bump_alloc. destruct (match lim with Some _ => _ | None => _ end) eqn:E.
  - exists NULL, w. split; [done|]. left. split_and!; [|done..]. by intros ->.
  - eexists _, _. split; [done|]. right. exists bs. split_and!; [by apply (bump_fresh w)|apply HQ, Ho|apply bump_grow; [done|lia]].
Qed.

Lemma bump_realloc_ok lim w H q old n : bump_owns w H → H !! q = Some old → 0 < n →
  ∃ p w', bump_realloc lim q n w = Ok p w' ∧
    ((lim ≠ None ∧ p = NULL ∧ bump_owns w' H) ∨
     (∃ bs, fresh_block (delete q H) n p bs ∧
        take (Nat.min (Z.to_nat n) (length old)) bs = take (Nat.min (Z.to_nat n) (length old)) old ∧
        bump_owns w' (<[p := bs]> (delete q H)))).
Proof.
  intros Ho Hq Hn. unfold bump_realloc. destruct (bo_below _ _ Ho q old Hq) as [Hq0 _].
  destruct (Z.eqb_spec q NULL) as [->|_]; [unfold NULL in Hq0; lia|].
  rewrite (bind_ok _ _ _ old w); [|unfold bump_block; by rewrite (bo_heap _ _ Ho), Hq].
  set (bs := take (Z.to_nat n) old ++ garbage (n - Z.of_nat (length old))).
  assert (Hlen : 0 < n ≤ Z.of_nat (length bs)).
  { unfold bs, garbage. rewrite length_app, length_take, length_replicate. lia. }
  unfold bump_alloc. unfold mbind, M_bind. destruct (match lim with Some _ => _ | None => _ end) eqn:E.
  - exists NULL, w. split; [done|]. left. split_and!; [|done..]. by intros ->.
  - pose proof (bump_fresh w H n bs Ho Hlen) as Hf. pose proof (bump_grow w H bs Ho ltac:(lia)) as Ho'.
    destruct (Z.eqb_spec (bnext w) NULL) as [Hz|_]; [destruct Hf; done|].
    exists (bnext w). eexists. split.
    { unfold bump_free, mbind, M_bind, bump_block, modify. cbn [bheap bnext].
      rewrite (bo_heap _ _ Ho), lookup_insert_ne, Hq by lia. reflexivity. }
    right. exists bs. split_and!.
    + destruct Hf as (? & Hnone & ? & Hov). split_and!; [done| |done|]; [by rewrite lookup_delete_ne by lia|].
      intros a bsa [_ Ha]%lookup_delete_Some. by apply Hov.
    + unfold bs. rewrite take_app, length_take, take_take.
      replace (_ - _)%nat with O by lia. rewrite take_0, app_nil_r. f_equal. lia.
    + pose proof (bump_delete _ _ q Ho') as Hd. rewrite delete_insert_ne in Hd by lia. cbn in Hd. by rewrite (bo_heap _ _ Ho) in Hd.
Qed.

#[export] Instance bump_laws lim : @AllocatorLaws Bump (bump_allocator lim) (lim = None).
Proof.
  assert (Hg : ∀ n, 0 < n → 0 < n ≤ Z.of_nat (length (garbage n))) by (intros; unfold garbage; rewrite length_replicate; lia).
  split; cbn.
  - intros w H n Ho Hn. apply bump_alloc_ok; [done|apply Hg; lia|done].
  - intros w H n Ho Hn. apply bump_alloc_ok; [done|rewrite length_replicate; lia|].
    intros p _ i Hi. apply lookup_replicate. split; [done|lia].
  - intros w H k n Ho Hk Hn. apply bump_alloc_ok; [done|apply Hg; lia|]. intros p Hp.
    apply Z.mod_divide in Hp as [a ->]; [|lia]. assert (∃ c, 32 = c * Z.shiftl 4 k ∧ 0 < Z.shiftl 4 k) as (c & Hc & Hpos).
    { assert (k = 0 ∨ k = 1 ∨ k = 2 ∨ k = 3) as [->|[->|[->| ->]]] by lia; [by exists 8|by exists 4|by exists 2|by exists 1]. }
    apply Z.mod_divide; [lia|]. exists (a * c). rewrite Hc at 1. ring.
  - intros w H n Ho Hn. apply bump_alloc_ok; [done|apply Hg; lia|done].
  - intros w H q old n Ho Hq Hn. apply bump_realloc_ok; [done|done|lia].
  - intros w H p Ho [bs Hp]. eexists. split; [|by apply bump_delete].
    unfold bump_free, mbind, M_bind, bump_block. rewrite (bo_heap _ _ Ho), Hp. unfold modify. by rewrite (bo_heap _ _ Ho).
  - intros w H p bs i b Ho Hp Hi Hb. exists w. split; [|done]. unfold mbind, M_bind, bump_block. by rewrite (bo_heap _ _ Ho), Hp, Hb.
  - intros w H p bs i b Ho Hp Hi Hb. eexists. unfold mbind, M_bind, bump_block. rewrite (bo_heap _ _ Ho), Hp.
    rewrite decide_True by lia. split; [reflexivity|]. destruct Ho as [<- Hn Hbl]. split; cbn; [done..|].
    intros a bsa [(<- & <-)|(_ & Ha%Hbl)]%lookup_insert_Some; [|done]. rewrite length_insert. by apply Hbl.
  - intros w H Ho. by exists w.
Qed.

(** ** Witnesses and runs *)

Definition bump0 : Bump := mkBump 32 ∅.

Lemma bump0_owns : bump_owns bump0 ∅.
Proof. split; [done..|]. intros q bs Hq. by rewrite lookup_empty in Hq. Qed.

Lemma malloc_test_clean_witness :
  ∃ n, ∀ fuel, (n ≤ fuel)%nat →
    match @MallocTest Bump (bump_allocator None) true false 64 3 10 fuel (MemTestBinsMgr_init 64 3 10 (-1) bump0) with
    | Ok _ s => bump_owns (sys_ s) ∅ ∧ Forall (λ bin, binsize bin = 0) (binsArr_ s) ∧ Z.of_nat (length (binsArr_ s)) = 3
    | Err e => e = OutOfMemory ∧ ¬ (None : option Z) = None
    end.
Proof.
  apply (@malloc_test_clean Bump (bump_allocator None) (None = None) (bump_laws None) true false 64 3 10 (-1) bump0);
    [done|lia|lia|lia|exact bump0_owns].
Defined.

(** The test run on a small instance: it ends, with all bins empty. *)
Example malloc_test_runs :
  match @MallocTest Bump (bump_allocator None) true false 3000 5 40 20 (MemTestBinsMgr_init 3000 5 40 100 bump0) with
  | Ok _ s => bool_decide (bheap (sys_ s) = ∅) && forallb (λ bin, binsize bin =? 0) (binsArr_ s)
  | Err _ => false
  end = true.
Proof. vm_compute. reflexivity. Qed.

(** When calloc refuses, the test without TEST reports that memory is out; with
    TEST it reads through the NULL pointer first. *)
Lemma calloc_refused :
  let s := MemTestBinsMgr_init 64 1 10 0 bump0 in
  @BinAlloc Bump (bump_allocator (Some 0)) false 0 8 4 s = Err OutOfMemory ∧
  @BinAlloc Bump (bump_allocator (Some 0)) true 0 8 4 s = Err (Segv NULL).
Proof. split; vm_compute; reflexivity. Qed.
