(* ===== verification/Notification.v ===== *)
(** * Notifications: [lock.hpp], and the blocking connect of the HTTP service

    [Notification] lets threads wait until another one has called [notify()].
    Each operation is a critical section; a thread that finds [notified_] unset
    sleeps on the condition variable, which gives the mutex back.  A thread's
    action between two accesses to the mutex, the flag or the condition variable
    is one step; the system may also wake a sleeping thread without a signal.

    [HTTPService::connect] and [HTTPClientConnection::send] are its users: the caller
    sleeps on a notification of its own until the callback has stored the connection or
    the response and notified; then the notification is destroyed.  Who runs the
    callback, if anybody does, depends on the service and on the system calls. *)
From stdpp Require Import base numbers list gmap.
From S2P Require Import Prelude Threads IOManager Connection ConnectionSpec.
Open Scope Z_scope.

(** ** The class *)

(** Where a thread is in [wait()], [notify()], [reset()] or [connectInternal()]. *)
Inductive pc : Type :=
| WLock             (* ScopedLock l(&m_) *)
| WTest             (* while (! notified_) *)
| WSleep            (* in cv_.wait(&m_) *)
| WWoken            (* in cv_.wait(&m_), to take the mutex again *)
| WUnlock           (* ~ScopedLock *)
| CStore (v : Z)    (* *user_conn = new_conn *)
| NLock             (* ScopedLock l(&m_) *)
| NSet              (* notified_ = true *)
| NSignal           (* cv_.signal() *)
| NUnlock           (* ~ScopedLock *)
| RLock             (* ScopedLock l(&m_) *)
| RClear            (* notified_ = false *)
| RUnlock           (* ~ScopedLock *)
| Done.
#[export] Instance pc_eq : EqDecision pc.
Proof. solve_decision. Defined.

Record Notification : Type := mkNote {
  m_ : option nat;         (* the thread in a critical section *)
  notified_ : bool;
  user_conn : option Z;    (* the cell connectInternal() writes to *)
  pcs : list pc;
}.

(** Threads about to run the given operations on a new notification. *)
Definition Notification_init (ops : list pc) : Notification := mkNote None false None ops.

Inductive action : Type :=
| Act (t : nat)          (* the next step of a thread *)
| Wake (t u : nat)       (* thread [t] signals and [u] wakes up *)
| Spurious (u : nat).    (* [u] wakes up by itself *)

Definition goto (t : nat) (p : pc) (s : Notification) : Notification :=
  mkNote (m_ s) (notified_ s) (user_conn s) (<[t := p]> (pcs s)).
Definition set_m (h : option nat) (s : Notification) : Notification := mkNote h (notified_ s) (user_conn s) (pcs s).
Definition set_notified (b : bool) (s : Notification) : Notification := mkNote (m_ s) b (user_conn s) (pcs s).
Definition set_conn (v : Z) (s : Notification) : Notification := mkNote (m_ s) (notified_ s) (Some v) (pcs s).

(** [Mutex::lock()] waits for the mutex; [Mutex::unlock()]. *)
Definition lock (t : nat) (p : pc) (s : Notification) : option Notification :=
  match m_ s with None => Some (goto t p (set_m (Some t) s)) | Some _ => None end.
Definition unlock (t : nat) (p : pc) (s : Notification) : option Notification := Some (goto t p (set_m None s)).

Definition no_sleeper (s : Notification) : bool := forallb (λ p, bool_decide (p ≠ WSleep)) (pcs s).

Definition note_step (a : action) (s : Notification) : option Notification :=
  match a with
  | Act t =>
      p ← pcs s !! t;
      match p with
      | WLock => lock t WTest s
      | WTest => if notified_ s then Some (goto t WUnlock s) else unlock t WSleep s
      | WSleep => None
      | WWoken => lock t WTest s
      | WUnlock => unlock t Done s
      | CStore v => Some (goto t NLock (set_conn v s))
      | NLock => lock t NSet s
      | NSet => Some (goto t NSignal (set_notified true s))
      | NSignal => if no_sleeper s then Some (goto t NUnlock s) else None
      | NUnlock => unlock t Done s
      | RLock => lock t RClear s
      | RClear => Some (goto t RUnlock (set_notified false s))
      | RUnlock => unlock t Done s
      | Done => None
      end
  | Wake t u =>
      p ← pcs s !! t; q ← pcs s !! u;
      if bool_decide (p = NSignal ∧ q = WSleep) then Some (goto u WWoken (goto t NUnlock s)) else None
  | Spurious u =>
      q ← pcs s !! u; if bool_decide (q = WSleep) then Some (goto u WWoken s) else None
  end.

(** ** The critical sections *)

Definition inside (p : pc) : bool :=
  match p with WTest | WUnlock | NSet | NSignal | NUnlock | RClear | RUnlock => true | _ => false end.

(** The thread that holds the mutex is the one inside a critical section. *)
Definition excl (s : Notification) : Prop :=
  (∀ t p, pcs s !! t = Some p → inside p = true ↔ m_ s = Some t) ∧
  (∀ h, m_ s = Some h → (h < length (pcs s))%nat).

Lemma excl_goto t p q s : excl s → pcs s !! t = Some p → inside q = inside p → excl (goto t q s).
Proof.
  intros [He Hh] Hp Hq. split; [|intros h Hm; cbn; rewrite length_insert; by apply Hh].
  intros u r [(<- & <- & _)|(Hne & Hr)]%list_lookup_insert_Some; [|by apply He]. cbn. rewrite Hq. by apply He.
Qed.

Lemma excl_lock t p q s s' : excl s → pcs s !! t = Some p → inside q = true → lock t q s = Some s' → excl s'.
Proof.
  unfold lock. intros [He Hh] Hp Hq Hs. destruct (m_ s) eqn:Hm; [done|]. injection Hs as <-. split.
  - intros u r [(<- & <- & _)|(Hne & Hr)]%list_lookup_insert_Some; [done|]. cbn in *.
    rewrite (He u r Hr). split; [done|]. intros [= ->]. done.
  - intros h [= <-]. cbn. rewrite length_insert. by eapply lookup_lt_Some.
Qed.

Lemma excl_unlock t p q s s' : excl s → pcs s !! t = Some p → inside p = true → inside q = false →
  unlock t q s = Some s' → excl s'.
Proof.
  intros [He Hh] Hp Hip Hq [= <-]. split; [|done].
  intros u r [(<- & <- & _)|(Hne & Hr)]%list_lookup_insert_Some; cbn in *; [by rewrite Hq|].
  rewrite (He u r Hr). apply (He t p Hp) in Hip. rewrite Hip. split; [intros [= ->]; done|done].
Qed.

Lemma excl_step a s s' : excl s → note_step a s = Some s' → excl s'.
Proof.
  intros He Hs. destruct a as [t|t u|u]; cbn in Hs.
  - destruct (pcs s !! t) as [p|] eqn:Hp; [|done]. cbn in Hs.
    destruct p; try done;
      try (by apply (excl_lock _ _ _ _ _ He Hp) in Hs); try (by apply (excl_unlock _ _ _ _ _ He Hp) in Hs);
      repeat case_match; try (by apply (excl_unlock _ _ _ _ _ He Hp) in Hs); simplify_eq;
      (eapply excl_goto; [exact He|exact Hp|done]).
  - destruct (pcs s !! t) as [p|] eqn:Hp; [|done]. cbn in Hs. destruct (pcs s !! u) as [q|] eqn:Hq; [|done]. cbn in Hs.
    case_bool_decide as Hc; [|done]. destruct Hc as [-> ->]. injection Hs as <-.
    eapply (excl_goto u WSleep); [by eapply excl_goto| |done]. cbn. rewrite list_lookup_insert_ne; [done|]. intros ->. congruence.
  - destruct (pcs s !! u) as [q|] eqn:Hq; [|done]. cbn in Hs. case_bool_decide as Hc; [|done]. subst q. injection Hs as <-.
    by eapply excl_goto.
Qed.

(** The mutex keeps its promise. *)
#[export] Instance note_lock : LockSystem Notification action := {|
  lock_start s := m_ s = None ∧ Forall (λ p, inside p = false) (pcs s);
  lock_step := note_step;
  holds_lock s t := ∃ p, pcs s !! t = Some p ∧ inside p = true;
|}.

#[export] Instance note_exclusion : MutualExclusion Notification action.
Proof.
  intros s0 s t u [Hm Hall] Hr (p & Hp & Hip) (q & Hq & Hiq).
  assert (excl s) as [He _].
  { revert s Hr Hp Hq. intros s Hr _ _. revert s Hr. apply invariant_reachable; [|intros; by eapply excl_step].
    split; [|by rewrite Hm]. intros x r Hx. rewrite Forall_lookup in Hall. rewrite (Hall x r Hx), Hm. done. }
  apply (He t p Hp) in Hip. apply (He u q Hq) in Hiq. congruence.
Qed.

(** ** One waiting thread *)

(** The places of a thread that started at [p0]. *)
Definition fam (p0 p : pc) : bool :=
  match p0, p with
  | WLock, (WLock | WTest | WSleep | WWoken | WUnlock | Done) => true
  | NLock, (NLock | NSet | NSignal | NUnlock | Done) => true
  | CStore v, CStore v' => bool_decide (v = v')
  | CStore _, (NLock | NSet | NSignal | NUnlock | Done) => true
  | _, _ => false
  end.

(** A thread that notifies has set the flag. *)
Definition has_set (p0 p : pc) : bool :=
  match p0, p with
  | WLock, _ => false
  | _, (NSignal | NUnlock | Done) => true
  | _, _ => false
  end.

(** A thread that waits has found the flag set. *)
Definition has_seen (p0 p : pc) : bool :=
  match p0, p with
  | WLock, (WUnlock | Done) => true
  | _, _ => false
  end.

(** The threads: at most one waits, the others notify; nobody resets. *)
Definition one_waiter (ops : list pc) : Prop :=
  Forall (λ p, match p with WLock | NLock | CStore _ => True | _ => False end) ops ∧
  ∀ i j, ops !! i = Some WLock → ops !! j = Some WLock → i = j.

Section one_waiter.
Context (ops : list pc) (Hops : one_waiter ops).

Record ninv (s : Notification) : Prop := {
  ni_excl : excl s;
  ni_len : length (pcs s) = length ops;
  ni_fam t p0 p : ops !! t = Some p0 → pcs s !! t = Some p → fam p0 p = true;
  ni_set t p0 p : ops !! t = Some p0 → pcs s !! t = Some p → has_set p0 p = true → notified_ s = true;
  ni_flag : notified_ s = true → ∃ t p0 p, ops !! t = Some p0 ∧ pcs s !! t = Some p ∧ has_set p0 p = true;
  ni_sleep u : pcs s !! u = Some WSleep → notified_ s = true → ∃ t, pcs s !! t = Some NSignal;
  ni_seen t p0 p : ops !! t = Some p0 → pcs s !! t = Some p → has_seen p0 p = true →
    ∃ u q0, ops !! u = Some q0 ∧ q0 ≠ WLock ∧ pcs s !! u = Some Done;
}.

Lemma ninv_init : ninv (Notification_init ops).
Proof.
  destruct Hops as [Hall _]. rewrite Forall_lookup in Hall.
  assert (Hst : ∀ t p0 p, ops !! t = Some p0 → pcs (Notification_init ops) !! t = Some p →
    p = p0 ∧ match p with WLock | NLock | CStore _ => True | _ => False end).
  { cbn. intros t p0 p H0 Hp. split; [congruence|]. by apply (Hall t). }
  split; cbn in *; try done.
  - split; [|done]. intros t p Hp. specialize (Hall t p Hp). by destruct p.
  - intros t p0 p H0 Hp. destruct (Hst t p0 p H0 Hp) as [-> Hm]. destruct p0; try done. cbn. by rewrite bool_decide_true.
  - intros t p0 p H0 Hp. destruct (Hst t p0 p H0 Hp) as [-> Hm]. by destruct p0.
  - intros t p0 p H0 Hp. destruct (Hst t p0 p H0 Hp) as [-> Hm]. by destruct p0.
Qed.

(** The thread that started at [ops !! t]. *)
Lemma ninv_start s t p : ninv s → pcs s !! t = Some p → ∃ p0, ops !! t = Some p0 ∧ fam p0 p = true.
Proof.
  intros Hi Hp. destruct (lookup_lt_is_Some_2 ops t) as [p0 H0].
  { rewrite <- (ni_len _ Hi). by eapply lookup_lt_Some. }
  exists p0. split; [done|]. by eapply ni_fam.
Qed.

(** Only one thread is inside a critical section. *)
Lemma ninv_alone s t u p q : ninv s → pcs s !! t = Some p → pcs s !! u = Some q →
  inside p = true → inside q = true → t = u.
Proof.
  intros Hi Hp Hq H1 H2. apply (proj1 (ni_excl _ Hi) t p Hp) in H1. apply (proj1 (ni_excl _ Hi) u q Hq) in H2. congruence.
Qed.

(** A thread moves from [p] to [q] without a change of the flag.  It may fall
    asleep only if the flag is not set, may leave [NSignal] only when nobody
    sleeps, and may pass the test only when it is set. *)
Lemma ninv_move s s' t p q :
  ninv s → pcs s !! t = Some p → excl s' → pcs s' = <[t := q]> (pcs s) → notified_ s' = notified_ s →
  (∀ p0, fam p0 p = true → fam p0 q = true ∧ has_set p0 q = has_set p0 p) →
  (q = WSleep → notified_ s = false) →
  (p = NSignal → ∀ u, pcs s !! u ≠ Some WSleep) →
  (p ≠ Done) →
  (∀ p0, fam p0 p = true → has_seen p0 q = true → has_seen p0 p = true ∨ p = WTest ∧ notified_ s = true) →
  ninv s'.
Proof.
  intros Hi Hp He Hpcs Hfl Hfam Hsl Hsig Hnd Hseen. destruct (ninv_start s t p Hi Hp) as (p0 & H0 & Hf0).
  destruct (Hfam p0 Hf0) as [Hf Hset]. split; rewrite ?Hpcs, ?Hfl.
  - done.
  - rewrite length_insert. apply (ni_len _ Hi).
  - intros u q0 r Hq0 [(<- & <- & _)|(Hne & Hr)]%list_lookup_insert_Some; [congruence|by eapply ni_fam].
  - intros u q0 r Hq0 [(<- & <- & _)|(Hne & Hr)]%list_lookup_insert_Some; [|by eapply ni_set].
    replace q0 with p0 by congruence. rewrite Hset. by eapply ni_set.
  - intros Ht. destruct (ni_flag _ Hi Ht) as (u & q0 & r & Hq0 & Hr & Hs). destruct (decide (u = t)) as [->|Hne].
    + exists t, q0, q. split_and!; [done| |]; [apply list_lookup_insert_eq; by eapply lookup_lt_Some|].
      replace q0 with p0 in * by congruence. replace r with p in * by congruence. by rewrite Hset.
    + exists u, q0, r. split_and!; [done| |done]. by rewrite list_lookup_insert_ne.
  - intros u [(<- & Hq & _)|(Hne & Hu)]%list_lookup_insert_Some Ht; [apply Hsl in Hq; congruence|].
    destruct (ni_sleep _ Hi u Hu Ht) as [v Hv]. exists v. rewrite list_lookup_insert_ne; [done|].
    intros <-. assert (p = NSignal) as Hps by congruence. by apply (Hsig Hps u).
  - intros u q0 r Hq0 Hr Hs. assert (∃ v r0, ops !! v = Some r0 ∧ r0 ≠ WLock ∧ pcs s !! v = Some Done) as (v & r0 & Hv0 & Hnw & Hv).
    { apply list_lookup_insert_Some in Hr as [(<- & <- & _)|(Hne & Hr)]; [|by eapply ni_seen].
      replace q0 with p0 in * by congruence. destruct (Hseen p0 Hf0 Hs) as [?|[-> Ht]]; [by eapply ni_seen|].
      destruct (ni_flag _ Hi Ht) as (v & r0 & r & Hv0 & Hv & Hvs). exists v, r0.
      destruct (ninv_start s v r Hi Hv) as (r1 & Hr1 & Hfr). replace r1 with r0 in * by congruence.
      split_and!; [done|by intros ->|]. destruct (inside r) eqn:Hin.
      - exfalso. assert (v = t) as -> by (by eapply ninv_alone). replace r with WTest in * by congruence. by destruct r0.
      - rewrite Hv. by destruct r0, r. }
    exists v, r0. split_and!; [done..|]. rewrite list_lookup_insert_ne; [done|]. intros <-. congruence.
Qed.

Lemma ninv_set s t : ninv s → pcs s !! t = Some NSet → excl (goto t NSignal (set_notified true s)) →
  ninv (goto t NSignal (set_notified true s)).
Proof.
  intros Hi Hp He. destruct (ninv_start s t _ Hi Hp) as (p0 & H0 & Hf0).
  assert (Hlt : (t < length (pcs s))%nat) by (by eapply lookup_lt_Some).
  split; cbn.
  - done.
  - rewrite length_insert. apply (ni_len _ Hi).
  - intros u q0 r Hq0 [(<- & <- & _)|(Hne & Hr)]%list_lookup_insert_Some; [|by eapply ni_fam].
    replace q0 with p0 by congruence. by destruct p0.
  - done.
  - intros _. exists t, p0, NSignal. split_and!; [done|by apply list_lookup_insert_eq|by destruct p0].
  - intros u _ _. exists t. by apply list_lookup_insert_eq.
  - intros u q0 r Hq0 Hr Hs. apply list_lookup_insert_Some in Hr as [(<- & <- & _)|(Hne & Hr)]; [by destruct q0|].
    destruct (ni_seen _ Hi u q0 r Hq0 Hr Hs) as (v & r0 & ? & ? & Hv). exists v, r0. split_and!; [done..|].
    rewrite list_lookup_insert_ne; [done|]. intros <-. congruence.
Qed.

Lemma no_sleeper_spec s : no_sleeper s = true ↔ ∀ u, pcs s !! u ≠ Some WSleep.
Proof.
  unfold no_sleeper. rewrite forallb_forall. setoid_rewrite bool_decide_eq_true. split.
  - intros Hf u Hu. apply list_elem_of_lookup_2, list_elem_of_In in Hu. by apply (Hf WSleep).
  - intros Hu p Hp%list_elem_of_In%list_elem_of_lookup ->. destruct Hp as [i Hi]. by apply (Hu i).
Qed.

(** One sleeper at most. *)
Lemma sleeper_unique s u v : ninv s → pcs s !! u = Some WSleep → pcs s !! v = Some WSleep → u = v.
Proof.
  intros Hi Hu Hv. destruct (ninv_start s u _ Hi Hu) as (p0 & H0 & Hf). destruct (ninv_start s v _ Hi Hv) as (q0 & H1 & Hg).
  destruct Hops as [_ Hone]. apply Hone; [by destruct p0|by destruct q0].
Qed.

Ltac fam_cases := let p0 := fresh "p0" in intros p0; by destruct p0.

Lemma ninv_wake s t u : ninv s → pcs s !! t = Some NSignal → pcs s !! u = Some WSleep →
  ninv (goto u WWoken (goto t NUnlock s)).
Proof.
  intros Hi Ht Hu. assert (Htu : t ≠ u) by (intros ->; congruence).
  assert (Hi1 : ninv (goto u WWoken s)).
  { eapply (ninv_move s _ u WSleep WWoken); [done|done|eapply excl_goto; [apply Hi|done|done]|done|done|fam_cases|done|done|done|fam_cases]. }
  assert (Ht1 : pcs (goto u WWoken s) !! t = Some NSignal) by (cbn; by rewrite list_lookup_insert_ne).
  eapply (ninv_move (goto u WWoken s) _ t NSignal NUnlock); [done|done| |cbn; by rewrite list_insert_insert_ne|done|fam_cases|done| |done|fam_cases].
  - eapply (excl_goto u WSleep); [eapply excl_goto; [apply Hi|done|done]| |done]. cbn. by rewrite list_lookup_insert_ne.
  - intros _ v. cbn. intros [(<- & ? & _)|(Hne & Hv)]%list_lookup_insert_Some; [done|]. apply Hne. by apply (sleeper_unique s).
Qed.

Lemma ninv_step a s s' : ninv s → note_step a s = Some s' → ninv s'.
Proof.
  intros Hi Hs. pose proof (excl_step a s s' (ni_excl _ Hi) Hs) as He. destruct a as [t|t u|u]; cbn in Hs.
  - destruct (pcs s !! t) as [p|] eqn:Hp; [|done]. destruct (ninv_start s t p Hi Hp) as (p0 & H0 & Hf0). cbn in Hs.
    unfold lock, unlock in Hs. destruct p; try done; try (by destruct p0); repeat case_match; simplify_eq.
    all: try (by apply ninv_set).
    all: eapply (ninv_move s _ t); [done|done|done|reflexivity|done|try fam_cases|try done..].
    all: try fam_cases.
    + intros q0. destruct q0; try done. intros _ _. by right.
    + intros q0. destruct q0; try done. intros _ _. by left.
    + intros _. by apply no_sleeper_spec.
  - destruct (pcs s !! t) as [p|] eqn:Hp; [|done]. cbn in Hs. destruct (pcs s !! u) as [q|] eqn:Hq; [|done]. cbn in Hs.
    case_bool_decide as Hc; [|done]. destruct Hc as [-> ->]. injection Hs as <-. by apply ninv_wake.
  - destruct (pcs s !! u) as [q|] eqn:Hq; [|done]. cbn in Hs. case_bool_decide as Hc; [|done]. subst q. injection Hs as <-.
    eapply (ninv_move s _ u WSleep WWoken); [done|done|done|done|done|fam_cases|done|done|done|fam_cases].
Qed.

Lemma ninv_reachable s : reachable note_step (Notification_init ops) s → ninv s.
Proof. apply invariant_reachable; [apply ninv_init|intros; by eapply ninv_step]. Qed.

(** A state in which no thread can go on has only finished and sleeping threads. *)
Lemma stuck_places s : ninv s → (∀ t, note_step (Act t) s = None) → (∀ t u, note_step (Wake t u) s = None) →
  ∀ t p, pcs s !! t = Some p → p = Done ∨ p = WSleep.
Proof.
  intros Hi Hact Hwake.
  assert (Hfree : m_ s = None).
  { destruct (m_ s) as [h|] eqn:Hm; [exfalso|done]. destruct (ni_excl _ Hi) as [He Hh].
    destruct (lookup_lt_is_Some_2 _ _ (Hh h Hm)) as [p Hp]. apply (He h p Hp) in Hm.
    specialize (Hact h). cbn in Hact. rewrite Hp in Hact. cbn in Hact. destruct p; try done; repeat case_match; try done.
    assert (no_sleeper s = true); [|congruence]. apply no_sleeper_spec. intros u Hu.
    specialize (Hwake h u). cbn in Hwake. rewrite Hp, Hu in Hwake. cbn in Hwake. by rewrite bool_decide_true in Hwake. }
  intros t p Hp. specialize (Hact t). cbn in Hact. rewrite Hp in Hact. cbn in Hact. unfold lock in Hact. rewrite Hfree in Hact.
  pose proof (proj1 (ni_excl _ Hi) t p Hp) as He. rewrite Hfree in He.
  destruct p; try (by right); try (by left); try done; discriminate (proj1 He eq_refl).
Qed.

(** A finished run in which somebody notifies has woken the waiting thread. *)
Lemma stuck_done s : ninv s → (∃ t p0, ops !! t = Some p0 ∧ p0 ≠ WLock) →
  (∀ t, note_step (Act t) s = None) → (∀ t u, note_step (Wake t u) s = None) → Forall (λ p, p = Done) (pcs s).
Proof.
  intros Hi (n & n0 & Hn0 & Hnw) Hact Hwake. pose proof (stuck_places s Hi Hact Hwake) as Hpl.
  apply Forall_lookup. intros t p Hp. destruct (Hpl t p Hp) as [->| ->]; [done|exfalso].
  destruct (lookup_lt_is_Some_2 (pcs s) n) as [q Hq].
  { rewrite (ni_len _ Hi). by eapply lookup_lt_Some. }
  assert (q = Done) as ->.
  { destruct (Hpl n q Hq) as [->| ->]; [done|]. pose proof (ni_fam _ Hi n _ _ Hn0 Hq). by destruct n0. }
  assert (notified_ s = true) as Ht.
  { eapply (ni_set _ Hi n _ _ Hn0 Hq). pose proof (ni_fam _ Hi n _ _ Hn0 Hq). by destruct n0. }
  destruct (ni_sleep _ Hi t Hp Ht) as [v Hv]. by destruct (Hpl v _ Hv).
Qed.
End one_waiter.

(** ** Every run ends *)

(** The steps a thread still takes at most, not counting the wake-ups. *)
Definition weight (p : pc) : Z :=
  match p with
  | WLock => 3 | WTest => 2 | WSleep => 1 | WWoken => 3 | WUnlock => 1
  | CStore _ => 7 | NLock => 6 | NSet => 5 | NSignal => 4 | NUnlock => 1
  | RLock => 3 | RClear => 2 | RUnlock => 1 | Done => 0
  end.

Definition work (s : Notification) : Z := zsum (weight <$> pcs s).

Definition spurious (a : action) : Z := match a with Spurious _ => 1 | _ => 0 end.

Lemma work_goto t p q s : pcs s !! t = Some p → work (goto t q s) = work s - weight p + weight q.
Proof. intros Hp. unfold work. cbn. by apply zsum_insert. Qed.

Lemma work_step a s s' : note_step a s = Some s' → work s' + 1 ≤ work s + 3 * spurious a.
Proof.
  intros Hs. destruct a as [t|t u|u]; cbn in Hs.
  - destruct (pcs s !! t) as [p|] eqn:Hp; [|done]. cbn in Hs. unfold lock, unlock in Hs.
    assert (Hw : ∀ h b c q, work (goto t q (mkNote h b c (pcs s))) = work s - weight p + weight q)
      by (intros; by rewrite (work_goto _ p)).
    destruct s as [h b c ps]. unfold set_m, set_notified, set_conn in *. cbn [m_ notified_ user_conn pcs] in *.
    destruct p; try done; repeat case_match; simplify_eq; rewrite Hw; cbn; lia.
  - destruct (pcs s !! t) as [p|] eqn:Hp; [|done]. cbn in Hs. destruct (pcs s !! u) as [q|] eqn:Hq; [|done]. cbn in Hs.
    case_bool_decide as Hc; [|done]. destruct Hc as [-> ->]. injection Hs as <-.
    rewrite (work_goto u WSleep); [|cbn; rewrite list_lookup_insert_ne; [done|intros ->; congruence]].
    rewrite (work_goto t NSignal) by done. cbn. lia.
  - destruct (pcs s !! u) as [q|] eqn:Hq; [|done]. cbn in Hs. case_bool_decide as Hc; [|done]. subst q. injection Hs as <-.
    rewrite (work_goto u WSleep) by done. cbn. lia.
Qed.

Lemma work_nonneg s : 0 ≤ work s.
Proof. apply zsum_nonneg, Forall_fmap, Forall_forall. intros p _. destruct p; cbn; lia. Qed.

Lemma work_run ls s s' : run note_step ls s = Some s' →
  Z.of_nat (length ls) + work s' ≤ work s + 3 * zsum (spurious <$> ls).
Proof.
  intros Hr. destruct (run_measure note_step (λ _, True) (λ _, True) work (λ a, 3 * spurious a)) with ls s s' as [_ Hm];
    [|by apply Forall_forall|done|done|].
  - intros a t t' _ _ Ht. split; [done|by apply work_step].
  - assert (zsum ((λ a, 3 * spurious a) <$> ls) = 3 * zsum (spurious <$> ls)) as Hz; [|lia].
    clear. induction ls as [|a ls IH]; [done|]. rewrite !fmap_cons, !zsum_cons, IH. lia.
Qed.

(** ** Properties *)

(** C19: No wake-up is lost.  With at most one thread that waits and any number of
    threads that notify, one at least, every run is finite up to wake-ups that
    nobody asked for, and when no thread can go on all of them have returned,
    whatever the order of their steps. *)
Theorem notify_wakes ops ls s :
  one_waiter ops → (∃ t p0, ops !! t = Some p0 ∧ p0 ≠ WLock) → run note_step ls (Notification_init ops) = Some s →
  Z.of_nat (length ls) ≤ work (Notification_init ops) + 3 * zsum (spurious <$> ls) ∧
  ((∀ t, note_step (Act t) s = None) → (∀ t u, note_step (Wake t u) s = None) → Forall (λ p, p = Done) (pcs s)).
Proof.
  intros Ho Hn Hr. split.
  - pose proof (work_run _ _ _ Hr). pose proof (work_nonneg s). lia.
  - apply (stuck_done ops); [|done]. apply ninv_reachable; [done|]. by exists ls.
Qed.

(** [signal()] wakes one thread only: of two threads that wait, one may sleep on
    after [notify()] has returned, with the flag set. *)
Lemma second_waiter_sleeps :
  ∃ ls s, run note_step ls (Notification_init [WLock; WLock; NLock]) = Some s ∧ notified_ s = true ∧
    pcs s = [Done; WSleep; Done].
Proof.
  exists [Act 0; Act 0; Act 1; Act 1; Act 2; Act 2; Wake 2 0; Act 2; Act 0; Act 0; Act 0]%nat.
  eexists. vm_compute. done.
Qed.

(** *** HTTPService::connect and HTTPClientConnection::send *)

(** Who runs the callback. *)
Inductive runner : Type :=
| Nobody
| Caller            (* the thread that called, before it waits *)
| AWorker.
#[export] Instance runner_eq : EqDecision runner.
Proof. solve_decision. Defined.

(** The callback of [asyncConnect]: it is dropped when the service is stopped or there
    is no socket, run at once when [connect] fails at once, and otherwise run by a worker
    when the manager has found that the socket can be written to, [ready], which it may
    never do.  [None] is the access through [NULL] of a connect that succeeds at once. *)
Definition connect_runner (stopped : bool) (env : ConnectEnv) (ready : bool) : option runner :=
  if stopped then Some Nobody
  else if socket_result env <? 0 then Some Nobody
  else if 0 <=? connect_result env then if so_error env =? 0 then None else Some Caller
  else if negb (errno env =? EINPROGRESS) && negb (errno env =? EINTR) then Some Caller
  else Some (if ready then AWorker else Nobody).

(** The two threads of a blocking call: the caller, which waits, and the worker that
    runs the callback with the value [v].  When the caller runs it, no other thread
    knows of the notification, and [wait()] comes after. *)
Definition blocking_call (r : runner) (v : Z) : Notification :=
  match r with
  | Nobody => Notification_init [WLock]
  | AWorker => Notification_init [WLock; CStore v]
  | Caller =>
      match run note_step (replicate 5 (Act 0)) (Notification_init [CStore v]) with
      | Some s => goto 0 WLock s
      | None => Notification_init [CStore v]
      end
  end.

Definition connect (stopped : bool) (env : ConnectEnv) (ready : bool) (new_conn : Z) : option (runner * Notification) :=
  (λ r, (r, blocking_call r new_conn)) <$> connect_runner stopped env ready.

(** The blocking [send]: [receiveInternal] is run by a worker that has read the response,
    if one comes before the connection ends. *)
Definition send (answered : bool) (new_response : Z) : runner * Notification :=
  let r := if answered then AWorker else Nobody in (r, blocking_call r new_response).

(** [connect_runner] says what [startConnect] does: it runs [connDone()] in the caller, or
    leaves it to the descriptor, or does neither. *)
Lemma connect_runner_start strerror env ready :
  let start := startConnect strerror (λ _, Err AssertFail) env Connection_active in
  match connect_runner false env ready with
  | None => start = Err (Segv 0)
  | Some Caller => start = Err AssertFail
  | Some _ => ∃ c, start = Ok tt c
  end.
Proof.
  pose proof (connect_outcomes strerror (λ _, Err AssertFail) env) as Ho. cbn zeta in *. unfold connect_runner.
  destruct (socket_result env <? 0); [eauto|]. destruct (0 <=? connect_result env).
  - by destruct (so_error env =? 0).
  - destruct (_ && _); [done|]. destruct Ho as (d & -> & _). destruct ready; eauto.
Qed.

Lemma connect_one_waiter v : one_waiter [WLock; CStore v].
Proof. split; [by repeat constructor|]. intros [|[|i]] [|[|j]] Hi Hj; naive_solver. Qed.

(** The worker has stored the connection before it notifies. *)
Definition stored (v : Z) (s : Notification) : Prop :=
  ∀ p, pcs s !! 1%nat = Some p → p ≠ CStore v → user_conn s = Some v.

(** A step leaves the cell alone, unless it is the step that stores. *)
Lemma step_conn a s s' : note_step a s = Some s' →
  (user_conn s' = user_conn s ∧ ∀ t v, pcs s !! t = Some (CStore v) → pcs s' !! t = Some (CStore v)) ∨
  ∃ t v, pcs s !! t = Some (CStore v) ∧ user_conn s' = Some v.
Proof.
  intros Hs. assert (Hkeep : ∀ (u : nat) (p q : pc) (ps : list pc), ps !! u = Some p → (∀ v, p ≠ CStore v) →
    ∀ t v, ps !! t = Some (CStore v) → <[u := q]> ps !! t = Some (CStore v)).
  { intros u p q ps Hu Hne t v Ht. rewrite list_lookup_insert_ne; [done|]. intros ->. by apply (Hne v); congruence. }
  destruct a as [t|t u|u]; cbn in Hs.
  - destruct (pcs s !! t) as [p|] eqn:Hp; [|done]. cbn in Hs. unfold lock, unlock in Hs.
    destruct p; try done; repeat case_match; simplify_eq; try (left; split; [done|by eapply Hkeep]). right; eauto.
  - destruct (pcs s !! t) as [p|] eqn:Hp; [|done]. cbn in Hs. destruct (pcs s !! u) as [q|] eqn:Hq; [|done]. cbn in Hs.
    case_bool_decide as Hc; [|done]. destruct Hc as [-> ->]. injection Hs as <-. left. split; [done|]. cbn.
    intros x v Hx. eapply (Hkeep u WSleep); [|done|by eapply Hkeep].
    rewrite list_lookup_insert_ne; [done|]. intros ->. congruence.
  - destruct (pcs s !! u) as [q|] eqn:Hq; [|done]. cbn in Hs. case_bool_decide as Hc; [|done]. subst q. injection Hs as <-.
    left. split; [done|by eapply Hkeep].
Qed.

Lemma stored_step v a s s' : ninv [WLock; CStore v] s → stored v s → note_step a s = Some s' → stored v s'.
Proof.
  intros Hi Hst Hs p Hp Hne. destruct (step_conn a s s' Hs) as [[-> Hk]|(t & w & Ht & ->)].
  - destruct (lookup_lt_is_Some_2 (pcs s) 1) as [q Hq]; [rewrite (ni_len _ _ Hi); cbn; lia|].
    apply (Hst q Hq). intros ->. apply Hk in Hq. congruence.
  - destruct (ninv_start _ s t _ Hi Ht) as (p0 & H0 & Hf). destruct t as [|[|t]]; cbn in H0; simplify_eq/=.
    apply bool_decide_eq_true in Hf. congruence.
Qed.

Lemma connect_inv v s : reachable note_step (blocking_call AWorker v) s → ninv [WLock; CStore v] s ∧ stored v s.
Proof.
  revert s. apply invariant_reachable.
  - split; [apply ninv_init, connect_one_waiter|]. intros p Hp Hne. cbn in Hp. congruence.
  - intros a s s' [Hi Hst] Hs. split; [|by eapply stored_step]. eapply ninv_step; [apply connect_one_waiter|done|done].
Qed.

(** What a run of each kind comes to. *)
Definition handed_over (r : runner) (v : Z) (s : Notification) : Prop :=
  (pcs s !! 0%nat = Some Done → r ≠ Nobody ∧ user_conn s = Some v ∧ Forall (λ p, p = Done) (pcs s)) ∧
  ((∀ t, note_step (Act t) s = None) → (∀ t u, note_step (Wake t u) s = None) →
   if decide (r = Nobody) then pcs s = [WSleep] ∧ user_conn s = None else Forall (λ p, p = Done) (pcs s)).

Lemma worker_hands_over v s : reachable note_step (blocking_call AWorker v) s → handed_over AWorker v s.
Proof.
  intros Hr. destruct (connect_inv v s Hr) as [Hi Hst]. split.
  - intros H0. destruct (ni_seen _ _ Hi 0%nat WLock Done eq_refl H0 eq_refl) as (u & q0 & Hu & Hq0 & Hd).
    destruct u as [|[|u]]; cbn in Hu; simplify_eq. split; [done|]. split; [by apply (Hst Done)|].
    apply Forall_lookup. intros i p Hp. pose proof (lookup_lt_Some _ _ _ Hp) as Hlt. rewrite (ni_len _ _ Hi) in Hlt. cbn in Hlt.
    destruct i as [|[|i]]; [congruence..|lia].
  - intros Ha Hw. cbn. apply (stuck_done _ s Hi); [by exists 1%nat, (CStore v)|done|done].
Qed.

(** The caller has run the callback: [wait()] does not sleep. *)
Lemma caller_hands_over v s : reachable note_step (blocking_call Caller v) s → handed_over Caller v s.
Proof.
  intros Hr. assert (Hs : s = mkNote None true (Some v) [WLock] ∨ s = mkNote (Some 0%nat) true (Some v) [WTest] ∨
    s = mkNote (Some 0%nat) true (Some v) [WUnlock] ∨ s = mkNote None true (Some v) [Done]).
  { revert s Hr. apply invariant_reachable; [left; reflexivity|].
    intros a s s' Hs Hstep. destruct Hs as [->|[->|[->| ->]]], a as [[|t]|[|t] [|u]|[|u]]; cbn in Hstep; unfold lock, unlock in Hstep; simplify_eq/=; auto. }
  split.
  - intros H0. destruct Hs as [->|[->|[->| ->]]]; try done. split_and!; [done|done|by repeat constructor].
  - intros Ha _. specialize (Ha 0%nat). cbn. destruct Hs as [->|[->|[->| ->]]]; try done. by repeat constructor.
Qed.

(** Nobody runs the callback: the caller sleeps for ever. *)
Lemma nobody_hands_over v s : reachable note_step (blocking_call Nobody v) s → handed_over Nobody v s.
Proof.
  assert (Ho : one_waiter [WLock]) by (split; [by repeat constructor|]; intros [|i] [|j] Hi Hj; naive_solver).
  intros Hr. pose proof (ninv_reachable _ Ho s Hr) as Hi.
  assert (Hno : pcs s !! 0%nat ≠ Some Done).
  { intros Hd. destruct (ni_seen _ _ Hi 0%nat WLock Done eq_refl Hd eq_refl) as ([|u] & q0 & Hu & Hq0 & _); [|done].
    injection Hu as <-. done. }
  assert (Hc : user_conn s = None).
  { apply (invariant_reachable note_step (λ s, ninv [WLock] s ∧ user_conn s = None) (blocking_call Nobody v)); [by split; [apply ninv_init|]| |done].
    intros a t t' [Ht Hn] Hs. split; [by eapply ninv_step|]. destruct (step_conn a t t' Hs) as [[-> _]|(u & w & Hu & _)]; [done|].
    destruct (ninv_start _ t u _ Ht Hu) as (p0 & H0 & Hf). destruct u; cbn in H0; simplify_eq. }
  split; [by intros|]. intros Ha Hw. cbn. split; [|done]. pose proof (ni_len _ _ Hi) as Hlen. cbn in Hlen.
  destruct (pcs s) as [|p [|q ps]] eqn:Hp; try done. destruct (stuck_places _ s Hi Ha Hw 0%nat p) as [->| ->]; [by rewrite Hp|done|done].
Qed.

(** C22: The blocking connect and the blocking send return exactly when the callback is
    run.  If a worker or the caller itself runs it, every run is finite up to unasked
    wake-ups and ends with both threads returned; and when the caller's [wait()] has
    returned, the cell holds the connection or the response the callback was given, and
    the worker has left [notify()]: it does not touch the notification, which the
    caller now destroys, any more.  If nobody runs the callback, because the service is
    stopped, [socket()] fails, or the connection ends first, the caller does not return and
    ends up asleep. *)
Theorem connect_handoff stopped env ready answered v r s0 ls s :
  connect stopped env ready v = Some (r, s0) ∨ send answered v = (r, s0) → run note_step ls s0 = Some s →
  Z.of_nat (length ls) ≤ 10 + 3 * zsum (spurious <$> ls) ∧
  (pcs s !! 0%nat = Some Done → r ≠ Nobody ∧ user_conn s = Some v ∧ Forall (λ p, p = Done) (pcs s)) ∧
  ((∀ t, note_step (Act t) s = None) → (∀ t u, note_step (Wake t u) s = None) →
   if decide (r = Nobody) then pcs s = [WSleep] ∧ user_conn s = None else Forall (λ p, p = Done) (pcs s)).
Proof.
  intros Hs0 Hr. assert (s0 = blocking_call r v) as ->.
  { destruct Hs0 as [Hc|Hc]; [|by injection Hc as <- <-]. unfold connect in Hc.
    destruct (connect_runner stopped env ready); [|done]. by injection Hc as <- <-. }
  split.
  - pose proof (work_run _ _ _ Hr) as Hw. pose proof (work_nonneg s).
    assert (work (blocking_call r v) ≤ 10) by (by destruct r). lia.
  - destruct r; [apply nobody_hands_over|apply caller_hands_over|apply worker_hands_over]; by exists ls.
Qed.

(** On a stopped service [asyncConnect] drops the callback; the caller of
    [connect] sleeps and is never notified. *)
Lemma connect_stopped_hangs env ready v r s0 s : connect true env ready v = Some (r, s0) → reachable note_step s0 s →
  pcs s !! 0%nat ≠ Some Done.
Proof. intros [= <- <-] Hr Hd. by destruct (proj1 (nobody_hands_over v s Hr) Hd). Qed.

(** ** Witnesses *)

Lemma notify_wakes_witness :
  ∃ s, run note_step [Act 0; Act 0; Act 1; Act 1; Wake 1 0; Act 1; Act 0; Act 0; Act 0]%nat (Notification_init [WLock; NLock]) = Some s ∧
    Forall (λ p, p = Done) (pcs s).
Proof.
  eexists. split; [vm_compute; reflexivity|].
  destruct (notify_wakes [WLock; NLock] [Act 0; Act 0; Act 1; Act 1; Wake 1 0; Act 1; Act 0; Act 0; Act 0]%nat
    (mkNote None true None [Done; Done])) as [_ Hd].
  - split; [by repeat constructor|]. intros [|[|i]] [|[|j]] Hi Hj; naive_solver.
  - by exists 1%nat, NLock.
  - vm_compute. reflexivity.
  - apply Hd.
    + intros [|[|t]]; reflexivity.
    + intros [|[|t]] [|[|u]]; reflexivity.
Defined.

Lemma connect_handoff_witness :
  ∃ s0 s, connect false (mkEnv 3 (-1) EINPROGRESS 0) true 42 = Some (AWorker, s0) ∧
    run note_step [Act 0; Act 0; Act 1; Act 1; Act 1; Wake 1 0; Act 1; Act 0; Act 0; Act 0]%nat s0 = Some s ∧
    user_conn s = Some 42 ∧ Forall (λ p, p = Done) (pcs s).
Proof.
  eexists _, _. split; [reflexivity|]. split; [vm_compute; reflexivity|].
  destruct (connect_handoff false (mkEnv 3 (-1) EINPROGRESS 0) true true 42 AWorker (blocking_call AWorker 42)
    [Act 0; Act 0; Act 1; Act 1; Act 1; Wake 1 0; Act 1; Act 0; Act 0; Act 0]%nat
    (mkNote None true (Some 42) [Done; Done])) as (_ & Hd & _); [by left|vm_compute; reflexivity|]. by apply Hd.
Defined.
