(* ===== verification/FdStream.v ===== *)
(** * A stream buffer on a file descriptor: [ifdstream.hpp]

    [fdinbuf] is a [std::streambuf]: an array of which the first four places are
    kept for characters that may be put back, and three positions in it: the
    first character that may be put back, the next one to read, and the end.
    [underflow()] is the source's; [sgetc], [sbumpc] and [sungetc] are the
    operations of the standard library on the three positions, through which
    [std::istream] reads.  What [read()] answers is a list of outcomes. *)
From stdpp Require Import base numbers list.
From S2P Require Import Prelude.
Open Scope Z_scope.

Definition pbSize : nat := 4.
Definition bufSize : nat := 1024.

(** What a call of [read()] answers: some characters, or 0 or -1. *)
Inductive read_res : Type :=
| Data (bs : list Z)
| Eof
| ReadErr.

(** [read()] gives between one and [bufSize] characters. *)
Definition read_ok (r : read_res) : Prop :=
  match r with Data bs => (0 < length bs ≤ bufSize)%nat | _ => True end.

(** A place of the array that was never written to is [None]. *)
Record fdinbuf : Type := mkBuf {
  buffer : list (option Z);
  eback : nat;
  gptr : nat;
  egptr : nat;
  fd : list read_res;      (* the answers of the calls of read() to come *)
}.

Definition fdinbuf_init (fd : list read_res) : fdinbuf :=
  mkBuf (replicate (bufSize + pbSize) None) pbSize pbSize pbSize fd.

Definition setg (b g e : nat) : M fdinbuf unit := modify (λ s, mkBuf (buffer s) b g e (fd s)).

(** The characters from position [a] to position [b]. *)
Definition slice (l : list (option Z)) (a b : nat) : list (option Z) := take (b - a) (drop a l).

(** Writing [xs] at position [i]. *)
Definition overwrite (i : nat) (xs l : list (option Z)) : list (option Z) := take i l ++ xs ++ drop (i + length xs) l.

(** [*p] *)
Definition deref (i : nat) : M fdinbuf Z := λ s,
  match buffer s !! i with
  | Some (Some c) => Ok c s
  | Some None => Err Uninit
  | None => Err (OutOfBounds (Z.of_nat i))
  end.

Definition write_at (i : nat) (xs : list (option Z)) : M fdinbuf unit := λ s,
  if decide (i + length xs ≤ length (buffer s))%nat
  then Ok tt (mkBuf (overwrite i xs (buffer s)) (eback s) (gptr s) (egptr s) (fd s))
  else Err (OutOfBounds (Z.of_nat i)).

Definition memmove (d src n : nat) : M fdinbuf unit :=
  s ← get;
  if decide (src + n ≤ length (buffer s))%nat then write_at d (slice (buffer s) src (src + n)) else fail (OutOfBounds (Z.of_nat src)).

Definition read : M fdinbuf read_res := λ s,
  match fd s with
  | [] => Ok Eof s
  | r :: rs => Ok r (mkBuf (buffer s) (eback s) (gptr s) (egptr s) rs)
  end.

(** [None] is EOF. *)
Definition underflow : M fdinbuf (option Z) :=
  s ← get;
  if decide (gptr s < egptr s)%nat then c ← deref (gptr s); mret (Some c)
  else
    let numPutback := Nat.min (gptr s - eback s) pbSize in
    memmove (pbSize - numPutback) (gptr s - numPutback) numPutback;;
    num ← read;
    match num with
    | Data bs =>
        write_at pbSize (Some <$> bs);;
        setg (pbSize - numPutback) pbSize (pbSize + length bs);;
        c ← deref pbSize; mret (Some c)
    | _ => mret None
    end.

(** The standard library: look at the next character, take it, put it back. *)
Definition sgetc : M fdinbuf (option Z) := underflow.

Definition sbumpc : M fdinbuf (option Z) :=
  c ← underflow;
  match c with
  | Some c => s ← get; setg (eback s) (S (gptr s)) (egptr s);; mret (Some c)
  | None => mret None
  end.

Definition sungetc : M fdinbuf (option Z) :=
  s ← get;
  if decide (eback s < gptr s)%nat then setg (eback s) (gptr s - 1) (egptr s);; c ← deref (gptr s - 1); mret (Some c)
  else mret None.

(** ** The abstract stream

    The characters read so far, those in the buffer, the answers to come; how many
    characters were read at most, whatever was put back since; where the last
    answer of [read()] with characters begins; and from where on the characters that
    can be put back are right: when [read()] gives nothing, those from before its last
    answer are lost. *)
Record stream : Type := mkStream {
  past : list Z;
  ahead : list Z;
  answers : list read_res;
  furthest : nat;
  chunk : nat;
  sure : nat;
}.

Definition stream_init (fds : list read_res) : stream := mkStream [] [] fds 0 0 0.

Definition take_next (t : stream) (c : Z) (rest : list Z) : stream :=
  mkStream (past t ++ [c]) rest (answers t) (Nat.max (furthest t) (S (length (past t)))) (chunk t) (sure t).

Definition stream_fill (t : stream) (bs : list Z) (rs : list read_res) : stream :=
  mkStream (past t) bs rs (furthest t) (length (past t)) (sure t).

Definition stream_end (t : stream) (rs : list read_res) : stream :=
  mkStream (past t) [] rs (furthest t) (chunk t) (chunk t).

Definition stream_bump (t : stream) : option Z * stream :=
  match ahead t with
  | c :: rest => (Some c, take_next t c rest)
  | [] => match answers t with
          | Data (c :: rest) :: rs => (Some c, take_next (stream_fill t (c :: rest) rs) c rest)
          | rs => (None, stream_end t (tail rs))
          end
  end.

(** The buffer [s] holds the stream [t]; of the characters that can be put back those from
    [sure] on are right. *)
Record holds (s : fdinbuf) (t : stream) : Prop := {
  h_len : length (buffer s) = (bufSize + pbSize)%nat;
  h_pos : (eback s ≤ gptr s ≤ egptr s ∧ eback s ≤ pbSize ≤ egptr s ∧ egptr s ≤ bufSize + pbSize)%nat;
  h_fd : fd s = answers t ∧ Forall read_ok (answers t);
  h_ahead : slice (buffer s) (gptr s) (egptr s) = Some <$> ahead t;
  h_past : ∃ old new, past t = old ++ new ∧ length new = (gptr s - eback s)%nat ∧ (length old ≤ furthest t - pbSize)%nat ∧
    ∀ j c, new !! j = Some c → (sure t ≤ length old + j)%nat → buffer s !! (eback s + j)%nat = Some (Some c);
  h_far : (length (past t) ≤ furthest t)%nat ∧ (length (past t) + length (ahead t) ≥ furthest t)%nat;
  h_chunk : (chunk t + (egptr s - pbSize) = length (past t) + length (ahead t))%nat ∧ (sure t ≤ chunk t)%nat;
}.

(** ** Slices of the array *)

Lemma slice_lookup l a b i : slice l a b !! i = if decide (a + i < b)%nat then l !! (a + i)%nat else None.
Proof.
  unfold slice. case_decide.
  - rewrite lookup_take_lt by lia. by rewrite lookup_drop.
  - apply lookup_take_ge. lia.
Qed.

Lemma slice_length l a b : (b ≤ length l)%nat → length (slice l a b) = (b - a)%nat.
Proof. intros Hb. unfold slice. rewrite length_take, length_drop. lia. Qed.

Lemma slice_cons l a b x : (a < b)%nat → l !! a = Some x → slice l a b = x :: slice l (S a) b.
Proof.
  intros Hab Hx. unfold slice. rewrite (drop_S l x a Hx). replace (b - a)%nat with (S (b - S a)) by lia. done.
Qed.

Lemma slice_snoc l a b x : (a ≤ b)%nat → l !! b = Some x → slice l a (S b) = slice l a b ++ [x].
Proof.
  intros Hab Hx. unfold slice. replace (S b - a)%nat with (S (b - a)) by lia. apply take_S_r. rewrite lookup_drop.
  by replace (a + (b - a))%nat with b by lia.
Qed.

Lemma slice_empty l a b : (b ≤ a)%nat → slice l a b = [].
Proof. intros Hab. unfold slice. by replace (b - a)%nat with O by lia. Qed.

Lemma overwrite_length i xs l : (i + length xs ≤ length l)%nat → length (overwrite i xs l) = length l.
Proof. intros Hi. unfold overwrite. rewrite !length_app, length_take, length_drop. lia. Qed.

Lemma overwrite_lookup i xs l j : (i + length xs ≤ length l)%nat →
  overwrite i xs l !! j = if decide (i ≤ j < i + length xs)%nat then xs !! (j - i)%nat else l !! j.
Proof.
  intros Hi. unfold overwrite. case_decide as Hj.
  - rewrite lookup_app_r by (rewrite length_take; lia). rewrite length_take, lookup_app_l by lia. f_equal. lia.
  - destruct (decide (j < i)%nat).
    + rewrite lookup_app_l by (rewrite length_take; lia). by rewrite lookup_take_lt.
    + rewrite lookup_app_r by (rewrite length_take; lia). rewrite length_take, lookup_app_r by lia.
      rewrite lookup_drop. f_equal. lia.
Qed.

(** The part just written, and a part that was not. *)
Lemma slice_overwrite i xs l : (i + length xs ≤ length l)%nat → slice (overwrite i xs l) i (i + length xs) = xs.
Proof.
  intros Hi. apply list_eq. intros j. rewrite slice_lookup, overwrite_lookup by done. case_decide as Hj.
  - rewrite decide_True by lia. f_equal. lia.
  - symmetry. apply lookup_ge_None. lia.
Qed.

Lemma slice_overwrite_ne i xs l a b : (i + length xs ≤ length l)%nat → (b ≤ i ∨ i + length xs ≤ a)%nat →
  slice (overwrite i xs l) a b = slice l a b.
Proof.
  intros Hi Hab. apply list_eq. intros j. rewrite !slice_lookup. case_decide; [|done].
  rewrite overwrite_lookup by done. by rewrite decide_False by lia.
Qed.

(** ** Reading *)

Lemma stream_init_holds fds : Forall read_ok fds → holds (fdinbuf_init fds) (stream_init fds).
Proof.
  intros Hf. split; cbn; [done|unfold pbSize, bufSize; lia|done|done| |lia|lia].
  exists [], []. split_and!; [done..|cbn; lia|done].
Qed.

(** The next character, when there is one in the buffer. *)
Lemma deref_ahead s t c rest : holds s t → ahead t = c :: rest →
  (gptr s < egptr s)%nat ∧ buffer s !! gptr s = Some (Some c) ∧ slice (buffer s) (S (gptr s)) (egptr s) = Some <$> rest.
Proof.
  intros Hh Ha. pose proof (h_ahead _ _ Hh) as Hs. rewrite Ha in Hs. destruct (decide (gptr s < egptr s)%nat) as [Hlt|Hge].
  - destruct (lookup_lt_is_Some_2 (buffer s) (gptr s)) as [x Hx]; [rewrite (h_len _ _ Hh); pose proof (h_pos _ _ Hh); lia|].
    rewrite (slice_cons _ _ _ x Hlt Hx) in Hs. by injection Hs as -> ->.
  - rewrite slice_empty in Hs by lia. done.
Qed.

Lemma ahead_empty s t : holds s t → ahead t = [] → gptr s = egptr s.
Proof.
  intros Hh Ha. pose proof (h_ahead _ _ Hh) as Hs. rewrite Ha in Hs. apply (f_equal length) in Hs.
  rewrite slice_length in Hs by (rewrite (h_len _ _ Hh); apply (h_pos _ _ Hh)).
  pose proof (h_pos _ _ Hh). cbn in Hs. lia.
Qed.

(** Taking a character that is in the buffer. *)
Lemma holds_take s t c rest : holds s t → ahead t = c :: rest →
  holds (mkBuf (buffer s) (eback s) (S (gptr s)) (egptr s) (fd s)) (take_next t c rest).
Proof.
  intros Hh Ha. destruct (deref_ahead s t c rest Hh Ha) as (Hlt & Hc & Hr).
  destruct Hh as [Hl Hp Hf Hs (old & new & He & Hn & Hlo & Hb) [Hfar1 Hfar2] Hch].
  rewrite Ha in Hfar2, Hch. cbn in Hfar2, Hch. unfold take_next.
  split; cbn [buffer eback gptr egptr fd answers ahead past furthest chunk sure];
    [done|lia|done|done| |rewrite length_app; cbn [length]; lia|rewrite length_app; cbn [length]; lia].
  exists old, (new ++ [c]). split_and!; [by rewrite He, app_assoc|rewrite length_app; cbn; lia|lia|].
  intros j d [Hj|(Hge & Hj)]%lookup_app_Some Hs'; [by apply Hb|].
  destruct (j - length new)%nat eqn:E; [|done]. injection Hj as <-. replace (eback s + j)%nat with (gptr s) by lia. done.
Qed.

(** The array after a refill: the last characters read, then the new ones. *)
Definition refilled (s : fdinbuf) (bs : list Z) : fdinbuf :=
  let n := Nat.min (gptr s - eback s) pbSize in
  mkBuf (overwrite pbSize (Some <$> bs) (overwrite (pbSize - n) (slice (buffer s) (gptr s - n) (gptr s)) (buffer s)))
    (pbSize - n) pbSize (pbSize + length bs) (tail (fd s)).

Section refill.
Context (s : fdinbuf) (t : stream) (Hh : holds s t) (Ha : ahead t = []).
Let n : nat := Nat.min (gptr s - eback s) pbSize.
Let kept : list (option Z) := slice (buffer s) (gptr s - n) (gptr s).

Lemma kept_length : length kept = n.
Proof.
  unfold kept. pose proof (h_pos _ _ Hh). rewrite slice_length by (rewrite (h_len _ _ Hh); lia).
  unfold n. lia.
Qed.

Lemma kept_fits : (pbSize - n + length kept ≤ length (buffer s))%nat.
Proof. rewrite kept_length, (h_len _ _ Hh). unfold n, pbSize, bufSize. lia. Qed.

Lemma memmove_ok : memmove (pbSize - n) (gptr s - n) n s =
  Ok tt (mkBuf (overwrite (pbSize - n) kept (buffer s)) (eback s) (gptr s) (egptr s) (fd s)).
Proof.
  unfold memmove, get, mbind, M_bind. pose proof (h_pos _ _ Hh). pose proof (h_len _ _ Hh).
  replace (gptr s - n + n)%nat with (gptr s) by (unfold n; lia).
  rewrite decide_True by lia. unfold write_at. rewrite decide_True by apply kept_fits. done.
Qed.

(** A refill: [read()] answered [c :: rest]. *)
Lemma underflow_data c rest rs : answers t = Data (c :: rest) :: rs →
  underflow s = Ok (Some c) (refilled s (c :: rest)) ∧
  holds (refilled s (c :: rest)) (stream_fill t (c :: rest) rs).
Proof.
  intros Hr. destruct (h_fd _ _ Hh) as [Hfd Hok]. rewrite Hr in Hfd, Hok. inversion Hok as [|? ? Hbs Hrs]; subst.
  cbn [read_ok] in Hbs. pose proof (ahead_empty s t Hh Ha) as Hg. pose proof kept_length as Hk. pose proof kept_fits as Hkf.
  pose proof (h_len _ _ Hh) as Hl. pose proof (h_pos _ _ Hh) as Hp.
  assert (Hlen1 : length (overwrite (pbSize - n) kept (buffer s)) = (bufSize + pbSize)%nat) by (by rewrite overwrite_length).
  assert (Hfit : (pbSize + length (Some <$> (c :: rest)) ≤ length (overwrite (pbSize - n) kept (buffer s)))%nat)
    by (rewrite Hlen1, length_fmap; lia).
  assert (Hbuf : buffer (refilled s (c :: rest)) = overwrite pbSize (Some <$> (c :: rest)) (overwrite (pbSize - n) kept (buffer s)))
    by done.
  assert (Hslice : slice (buffer (refilled s (c :: rest))) pbSize (pbSize + length (c :: rest)) = Some <$> (c :: rest)).
  { rewrite Hbuf, <- (length_fmap Some (c :: rest)). by apply slice_overwrite. }
  split.
  - unfold underflow. unfold mbind at 1, M_bind at 1, get at 1. rewrite decide_False by lia.
    rewrite (bind_ok _ _ _ _ _ memmove_ok). unfold read. unfold mbind at 1, M_bind at 1. cbn [fd]. rewrite Hfd.
    unfold write_at, setg, modify. unfold mbind, M_bind. cbn [buffer eback gptr egptr fd]. rewrite decide_True by done.
    rewrite <- Hbuf. unfold deref. cbn [buffer].
    assert (Hc : slice (buffer (refilled s (c :: rest))) pbSize (pbSize + length (c :: rest)) !! O = Some (Some c)) by (by rewrite Hslice).
    rewrite slice_lookup, decide_True, Nat.add_0_r in Hc by (cbn; lia). rewrite Hc. unfold mret, M_ret, refilled. by rewrite Hfd.
  - destruct (h_far _ _ Hh) as [Hf1 Hf2]. destruct (h_chunk _ _ Hh) as [Hc1 Hc2]. rewrite Ha in Hf2, Hc1. cbn in Hf2, Hc1.
    split; cbn [eback gptr egptr fd answers ahead past furthest chunk sure refilled stream_fill].
    + by rewrite Hbuf, overwrite_length.
    + fold n. unfold n in *. lia.
    + rewrite Hfd. done.
    + exact Hslice.
    + destruct (h_past _ _ Hh) as (old & new & He & Hnew & Hlo & Hb). assert (Hlen := f_equal length He). rewrite length_app in Hlen.
      exists (old ++ take (length new - n) new), (drop (length new - n) new). fold n. split_and!.
      * by rewrite <- app_assoc, take_drop.
      * rewrite length_drop. unfold n in *. lia.
      * rewrite length_app, length_take. unfold n in *. lia.
      * intros j d Hj Hsu. rewrite lookup_drop in Hj. rewrite length_app, length_take in Hsu.
        pose proof (lookup_lt_Some _ _ _ Hj) as Hjn.
        assert (Hjlt : (j < n)%nat) by lia. rewrite Hbuf, overwrite_lookup, decide_False by (done || unfold n in *; lia).
        rewrite overwrite_lookup, decide_True by (done || (rewrite Hk; unfold n in *; lia)).
        unfold kept. rewrite slice_lookup, decide_True by (unfold n in *; lia).
        rewrite <- (Hb _ _ Hj) by (unfold n in *; lia). f_equal. unfold n in *. lia.
    + cbn. lia.
    + lia.
Qed.

(** No more characters: the positions do not change, but the array does. *)
Lemma underflow_end r : (∀ c rest rs, answers t ≠ Data (c :: rest) :: rs) → r = tail (answers t) →
  ∃ s', underflow s = Ok None s' ∧ holds s' (stream_end t r).
Proof.
  intros Hnd ->. destruct (h_fd _ _ Hh) as [Hfd Hok]. pose proof (ahead_empty s t Hh Ha) as Hg.
  pose proof (h_len _ _ Hh) as Hl. pose proof (h_pos _ _ Hh) as Hp.
  exists (mkBuf (overwrite (pbSize - n) kept (buffer s)) (eback s) (gptr s) (egptr s) (tail (fd s))). split.
  - unfold underflow. unfold mbind at 1, M_bind at 1, get at 1. rewrite decide_False by lia.
    rewrite (bind_ok _ _ _ _ _ memmove_ok). unfold read, mbind, M_bind. cbn [fd]. rewrite Hfd.
    destruct (answers t) as [|[[|c bs]| |] rs] eqn:E; [done| |by destruct (Hnd c bs rs)|done|done].
    inversion Hok as [|? ? Hb _]; subst. cbn in Hb. lia.
  - destruct (h_far _ _ Hh) as [Hf1 Hf2]. destruct (h_chunk _ _ Hh) as [Hc1 Hc2]. rewrite Ha in Hf2, Hc1. cbn in Hf2, Hc1.
    split; cbn [buffer eback gptr egptr fd answers ahead past furthest chunk sure stream_end].
    + rewrite overwrite_length; [done|apply kept_fits].
    + done.
    + rewrite Hfd. split; [done|]. by destruct Hok.
    + rewrite slice_empty by lia. done.
    + destruct (h_past _ _ Hh) as (old & new & He & Hnew & Hlo & Hb). assert (Hlen := f_equal length He). rewrite length_app in Hlen.
      exists old, new. split_and!; [done|done|done|]. intros j d Hj Hsu. rewrite overwrite_lookup by apply kept_fits.
      rewrite decide_False by (rewrite kept_length; unfold n; lia). apply Hb; [done|lia].
    + cbn. lia.
    + cbn. lia.
Qed.
End refill.

(** Taking the next character is exact, with or without a refill. *)
Lemma sbumpc_exact s t : holds s t → ∃ s', sbumpc s = Ok (stream_bump t).1 s' ∧ holds s' (stream_bump t).2.
Proof.
  intros Hh. unfold sbumpc, stream_bump. destruct (ahead t) as [|c rest] eqn:Ha.
  - assert ((∃ c rest rs, answers t = Data (c :: rest) :: rs) ∨ ¬ ∃ c rest rs, answers t = Data (c :: rest) :: rs) as [(c & rest & rs & Hr)|Hno]
      by (destruct (answers t) as [|[[|? ?]| |] ?]; naive_solver).
    + destruct (underflow_data s t Hh Ha c rest rs Hr) as [Hu Hh']. rewrite (bind_ok _ _ _ _ _ Hu), Hr.
      eexists. split; [reflexivity|]. cbn [fst snd]. exact (holds_take _ _ c rest Hh' eq_refl).
    + destruct (underflow_end s t Hh Ha (tail (answers t))) as (s' & Hu & Hh'); [intros c rest rs Hr; apply Hno; eauto|done|].
      exists s'. rewrite (bind_ok _ _ _ _ _ Hu). destruct (answers t) as [|[[|c bs]| |] rs]; try done. destruct Hno. eauto.
  - destruct (deref_ahead s t c rest Hh Ha) as (Hlt & Hc & _).
    rewrite (bind_ok _ _ _ (Some c) s).
    2: { unfold underflow, get, mbind, M_bind. rewrite decide_True by done. unfold deref. by rewrite Hc. }
    eexists. split; [reflexivity|]. by apply holds_take.
Qed.

(** One of the last four characters can be put back, if it has not been lost. *)
Lemma sungetc_exact s t p c : holds s t → past t = p ++ [c] → (Nat.max (furthest t - pbSize) (sure t) < length (past t))%nat →
  ∃ s', sungetc s = Ok (Some c) s' ∧ holds s' (mkStream p (c :: ahead t) (answers t) (furthest t) (chunk t) (sure t)).
Proof.
  intros Hh Hp Hfar. destruct (h_past _ _ Hh) as (old & new & He & Hnew & Hlo & Hb).
  pose proof (h_pos _ _ Hh) as Hpos. pose proof (h_len _ _ Hh) as Hl.
  assert (Hlen := f_equal length He). rewrite length_app in Hlen.
  destruct new as [|c' new' _] using rev_ind; [cbn in *; lia|].
  assert (p = old ++ new' ∧ c' = c) as [Hp' ->].
  { rewrite Hp, app_assoc in He. apply app_inj_tail in He as [-> ->]. done. }
  rewrite length_app in Hnew, Hlen. cbn [length] in Hnew, Hlen. assert (Hlt : (eback s < gptr s)%nat) by lia.
  assert (Hx : buffer s !! (gptr s - 1)%nat = Some (Some c)).
  { rewrite <- (Hb (length new') c); [f_equal; lia|by apply list_lookup_middle|lia]. }
  unfold sungetc, get, mbind, M_bind. rewrite decide_True by done. unfold setg, modify, deref. cbn [buffer]. rewrite Hx.
  eexists. split; [reflexivity|]. destruct (h_far _ _ Hh) as [Hf1 Hf2]. destruct (h_chunk _ _ Hh) as [Hc1 Hc2].
  rewrite Hp, length_app in Hf1, Hf2, Hc1. cbn [length] in Hf1, Hf2, Hc1.
  split; cbn [buffer eback gptr egptr fd answers ahead past furthest chunk sure];
    [done|lia|apply (h_fd _ _ Hh)| | |cbn [length]; lia|cbn [length]; lia].
  - rewrite (slice_cons _ _ _ (Some c)) by (done || lia). replace (S (gptr s - 1)) with (gptr s) by lia. by rewrite (h_ahead _ _ Hh).
  - exists old, new'. split_and!; [done|lia|done|]. intros j d Hj. apply Hb. by apply lookup_app_l_Some.
Qed.

(** ** Programs on a stream *)

Inductive stream_op : Type := Bump | Unget.

(** The abstract run; it is undefined when a character is put back that lies further
    than four characters behind the furthest read, or before the last answer of [read()]
    after which one without characters came. *)
Definition spec_op (o : stream_op) (t : stream) : option (option Z * stream) :=
  match o with
  | Bump => Some (stream_bump t)
  | Unget =>
      if decide (Nat.max (furthest t - pbSize) (sure t) < length (past t))%nat then
        match last (past t) with
        | Some c => Some (Some c, mkStream (take (length (past t) - 1) (past t)) (c :: ahead t) (answers t) (furthest t) (chunk t) (sure t))
        | None => None
        end
      else None
  end.

Fixpoint spec_run (os : list stream_op) (t : stream) : option (list (option Z)) :=
  match os with
  | [] => Some []
  | o :: os => '(r, t') ← spec_op o t; rs ← spec_run os t'; Some (r :: rs)
  end.

Definition buf_op (o : stream_op) : M fdinbuf (option Z) := match o with Bump => sbumpc | Unget => sungetc end.

Definition buf_run (os : list stream_op) : M fdinbuf (list (option Z)) := mapM buf_op os.

Lemma spec_op_exact o s t r t' : holds s t → spec_op o t = Some (r, t') → ∃ s', buf_op o s = Ok r s' ∧ holds s' t'.
Proof.
  intros Hh Hs. destruct o; cbn [spec_op buf_op] in *.
  - destruct (sbumpc_exact s t Hh) as (s' & Hb & Hh'). injection Hs as Hs. rewrite Hs in *. by exists s'.
  - case_decide as Hf; [|done]. destruct (last (past t)) as [c|] eqn:Hl; [|done].
    injection Hs as <- <-. apply last_Some in Hl as [p Hp]. apply sungetc_exact; [done| |done].
    rewrite Hp, length_app. cbn [length]. replace (length p + 1 - 1)%nat with (length p) by lia. by rewrite take_app_length.
Qed.

Lemma spec_run_exact os s t rs : holds s t → spec_run os t = Some rs → ∃ s', buf_run os s = Ok rs s'.
Proof.
  revert s t rs. induction os as [|o os IH]; intros s t rs Hh Hs; [injection Hs as <-; by exists s|]. cbn [spec_run] in Hs.
  destruct (spec_op o t) as [[r t']|] eqn:Ho; [|done]. cbn [mbind option_bind] in Hs.
  destruct (spec_run os t') as [rs'|] eqn:Hr; [|done]. injection Hs as <-.
  destruct (spec_op_exact o s t r t' Hh Ho) as (s1 & Hb & Hh1). destruct (IH _ _ _ Hh1 Hr) as (s' & Hrun).
  exists s'. unfold buf_run in *. cbn [mapM]. rewrite (bind_ok _ _ _ _ _ Hb), (bind_ok _ _ _ _ _ Hrun). done.
Qed.

(** C20: The buffer is the stream.  Whatever [read()] answers, from one character to
    a full buffer at a time, nothing or an error, taking characters gives what
    [read()] gave, in order; up to four characters behind the furthest one read can be put
    back and are the right ones, but after an answer without characters only those of
    the last answer that had some: the ones kept from before it are lost (see
    [unget_after_eof]).  The array is never accessed out of its bounds or where nothing was
    written. *)
Theorem fdinbuf_refines fds os rs : Forall read_ok fds →
  spec_run os (stream_init fds) = Some rs →
  ∃ s', buf_run os (fdinbuf_init fds) = Ok rs s'.
Proof. intros Hf. apply spec_run_exact. by apply stream_init_holds. Qed.

Lemma fdinbuf_refines_witness :
  ∃ s', buf_run [Bump; Bump; Bump; Unget; Unget; Bump; Bump; Bump; Bump; Unget; Unget; Bump]
          (fdinbuf_init [Data [1; 2]; Data [3; 4]; Eof])
        = Ok [Some 1; Some 2; Some 3; Some 3; Some 2; Some 2; Some 3; Some 4; None; Some 4; Some 3; Some 3] s'.
Proof. apply fdinbuf_refines; [repeat constructor; cbn; unfold bufSize; lia|vm_compute; reflexivity]. Defined.

(** At the end of the file [underflow()] has moved the kept characters before it
    knows that nothing follows, and leaves the positions: the characters that were
    already kept are overwritten, and putting back goes wrong.  After 1 to 8 and
    then 9, 10 have been read, the third character put back is 10, not 8. *)
Lemma unget_after_eof :
  ∃ s', buf_run (replicate 11 Bump ++ [Unget; Unget; Unget]) (fdinbuf_init [Data [1; 2; 3; 4; 5; 6; 7; 8]; Data [9; 10]; Eof])
        = Ok ([Some 1; Some 2; Some 3; Some 4; Some 5; Some 6; Some 7; Some 8; Some 9; Some 10; None] ++ [Some 10; Some 9; Some 10]) s'.
Proof. eexists. vm_compute. reflexivity. Qed.
