(* ===== verification/SignalHandler.v ===== *)
(** * The crash report: [signal_handler.cpp]

    The thread that receives SIGSEGV prints its stack, then sends SIGUSR1 to one
    registered thread after the other and waits on a semaphore until that thread
    has printed its own: the stack frames go through a static array, so that only
    one thread may print at a time.  In the end the default action of the signal
    ends the process.

    The threads of the registry and the crashing thread take steps in any order.
    [leave] is a thread that ends by itself meanwhile.  The last part lets any number of
    threads crash. *)
From stdpp Require Import base numbers list strings.
From S2P Require Import Prelude Threads CppString.
Open Scope Z_scope.

(** ** Writing to standard error *)

(** What [write()] answers: the number of bytes, and whether errno is EINTR. *)
Abbreviation write_res := (Z * bool)%type.

(** What [rawWrite] puts out, for the answers to come; [None] when the list of
    answers ended with an interruption. *)
Fixpoint rawWrite (answers : list write_res) (msg : list Z) (len : nat) : option (list Z) :=
  match answers with
  | [] => None
  | (bytes, eintr) :: answers =>
      if (bytes <=? 0) && eintr then rawWrite answers msg len
      else Some (take (Z.to_nat bytes) (take len msg))
  end.

(** Interruptions are repeated; one call that writes everything writes the message. *)
Lemma rawWrite_retries answers msg len : (len ≤ length msg)%nat →
  Forall (λ r, r.1 ≤ 0 ∧ r.2 = true) answers →
  rawWrite (answers ++ [(Z.of_nat len, false)]) msg len = Some (take len msg).
Proof.
  intros Hl Hall. induction Hall as [|[b e] answers [Hb He] _ IH]; cbn in *.
  - rewrite andb_false_r, Nat2Z.id, take_take. f_equal. f_equal. lia.
  - rewrite He, (proj2 (Z.leb_le _ _) Hb). exact IH.
Qed.

(** A line as a string literal, which ends with a NUL in memory. *)
Definition literal (s : string) : list Z := bytes s ++ [10; 0].

(** The writes of [printStackTrace], with [frames] the text of the stack. *)
Definition printStackTrace (num_frames : Z) (frames : list Z) : list Z :=
  take 27 (literal "==== start backtrace ====")
  ++ (if 1 <? num_frames then frames else take 27 (literal "Could not get stack trace"))
  ++ take 25 (literal "==== end backtrace ====").

(** The lengths given to [rawWrite] count the NUL: a NUL byte follows each line. *)
Lemma trace_has_nul n frames :
  take 27 (printStackTrace n frames) = bytes "==== start backtrace ====" ++ [10; 0] ∧ last (printStackTrace n frames) = Some 0.
Proof.
  split; [reflexivity|]. unfold printStackTrace. rewrite app_assoc, last_app. reflexivity.
Qed.

(** ** Installing the handlers *)

Inductive sig_action : Type := SIG_DFL | FatalSignalHandler | DumpStackHandler.

(** The actions of SIGSEGV and SIGUSR1.  The arguments are what [sem_open] and the
    two calls of [sigaction] answer; on an error the program exits. *)
Definition installSignalHandler (sem_failed : bool) (segv_rc usr1_rc : Z) : M (sig_action * sig_action) unit :=
  if sem_failed then fail Fatal
  else if segv_rc =? -1 then fail Fatal
  else modify (λ h, (FatalSignalHandler, h.2));;
       if usr1_rc =? -1 then fail Fatal else modify (λ h, (h.1, DumpStackHandler)).

(** Both handlers are installed, or the program has stopped. *)
Lemma install_all_or_exit sem_failed segv_rc usr1_rc h :
  installSignalHandler sem_failed segv_rc usr1_rc h =
    if sem_failed || (segv_rc =? -1) || (usr1_rc =? -1) then Err Fatal else Ok tt (FatalSignalHandler, DumpStackHandler).
Proof. unfold installSignalHandler. destruct sem_failed; [done|]. destruct (segv_rc =? -1); [done|]. by destruct (usr1_rc =? -1). Qed.

(** ** The report *)

(** Where the crashing thread is in [fatalSignalHandler]; the list is what is
    left of the set of thread identities. *)
Inductive hpc : Type :=
| HStart                    (* in_progress, "Got signal" *)
| HPrint                    (* in printStackTrace() *)
| HTids                     (* getAllThreadIDs(&tids) *)
| HNext (todo : list nat)   (* the loop *)
| HWait (todo : list nat)   (* sem_wait(sem) *)
| HRaise                    (* sem_close, signal(sig, SIG_DFL), raise(sig) *)
| Dead.

(** Where another thread is. *)
Inductive tpc : Type :=
| Running
| Signalled                 (* SIGUSR1 is on its way *)
| Printing                  (* in printStackTrace() of dumpStackHandler *)
| Posting                   (* sem_post(sem) *)
| Gone.                     (* the thread has ended *)
#[export] Instance tpc_eq : EqDecision tpc.
Proof. solve_decision. Defined.

Record Report : Type := mkReport {
  handler : hpc;
  in_progress : bool;
  sem : Z;
  threads : list tpc;
  printed : list nat;       (* the threads whose stack has been printed *)
}.

Section report.
(** The crashing thread, the number of threads and the registry. *)
Context (my_tid : nat) (nthreads : nat) (tids : list nat).

Definition Report_init : Report := mkReport HStart false 0 (replicate nthreads Running) [].

Inductive event : Type :=
| Handler           (* the next step of the crashing thread *)
| Thread (u : nat). (* the next step of another thread in its handler *)

Definition handler_step (r : Report) : option Report :=
  let at_ h s := Some (mkReport h (in_progress r) s (threads r) (printed r)) in
  match handler r with
  | HStart => if in_progress r then None (* a second crash *) else Some (mkReport HPrint true (sem r) (threads r) (printed r))
  | HPrint => Some (mkReport HTids (in_progress r) (sem r) (threads r) (printed r ++ [my_tid]))
  | HTids => at_ (HNext tids) (sem r)
  | HNext [] => at_ HRaise (sem r)
  | HNext (u :: todo) =>
      if decide (u = my_tid) then at_ (HNext todo) (sem r)
      else Some (mkReport (HWait todo) (in_progress r) (sem r)
                   (match threads r !! u with Some Running => <[u := Signalled]> (threads r) | _ => threads r end) (printed r))
  | HWait todo => if 0 <? sem r then at_ (HNext todo) (sem r - 1) else None
  | HRaise => at_ Dead (sem r)
  | Dead => None
  end.

Definition thread_step (u : nat) (r : Report) : option Report :=
  match handler r with Dead => None | _ =>
    p ← threads r !! u;
    match p with
    | Signalled => Some (mkReport (handler r) (in_progress r) (sem r) (<[u := Printing]> (threads r)) (printed r))
    | Printing => Some (mkReport (handler r) (in_progress r) (sem r) (<[u := Posting]> (threads r)) (printed r ++ [u]))
    | Posting => Some (mkReport (handler r) (in_progress r) (sem r + 1) (<[u := Running]> (threads r)) (printed r))
    | Running | Gone => None
    end
  end.

Definition report_step (e : event) (r : Report) : option Report :=
  match e with
  | Handler => handler_step r
  | Thread u => thread_step u r
  end.

(** A running thread ends. *)
Definition leave (u : nat) (r : Report) : option Report :=
  match threads r !! u with
  | Some Running => Some (mkReport (handler r) (in_progress r) (sem r) (<[u := Gone]> (threads r)) (printed r))
  | _ => None
  end.

(** The report as it happens: while the crashing thread waits, one thread is on
    its way through its handler, or has posted; otherwise nobody is. *)
Definition others (l : list nat) : list nat := filter (λ u, u ≠ my_tid) l.

(** [u] is the thread that was signalled last. *)
Definition asked (p : tpc) : bool := match p with Signalled | Printing | Posting => true | _ => false end.

Definition all_running (r : Report) : Prop := ∀ u p, threads r !! u = Some p → p = Running.

Inductive rinv (r : Report) : Prop :=
| RStart : handler r = HStart → in_progress r = false → sem r = 0 → all_running r → printed r = [] → rinv r
| RPrint : handler r = HPrint → sem r = 0 → all_running r → printed r = [] → rinv r
| RTids : handler r = HTids → sem r = 0 → all_running r → printed r = [my_tid] → rinv r
| RNext past todo : handler r = HNext todo → sem r = 0 → all_running r → tids = past ++ todo →
    printed r = my_tid :: others past → rinv r
| RAsked past todo u p : handler r = HWait todo → sem r = 0 → tids = past ++ u :: todo → u ≠ my_tid →
    threads r !! u = Some p → asked p = true → (∀ v q, v ≠ u → threads r !! v = Some q → q = Running) →
    printed r = my_tid :: others past ++ (if decide (p = Posting) then [u] else []) → rinv r
| RPosted past todo : handler r = HWait todo → sem r = 1 → all_running r → tids = past ++ todo →
    printed r = my_tid :: others past → rinv r
| REnd : handler r = HRaise ∨ handler r = Dead → sem r = 0 → all_running r → printed r = my_tid :: others tids → rinv r.

Definition rlen (r : Report) : Prop := length (threads r) = nthreads.

Lemma rinv_init : rinv Report_init ∧ rlen Report_init.
Proof.
  split; [|unfold rlen; cbn; apply length_replicate]. apply RStart; try done.
  by intros u p [-> _]%lookup_replicate_1.
Qed.

Lemma rlen_step e r r' : rlen r → report_step e r = Some r' → rlen r'.
Proof.
  unfold rlen. intros Hl Hs. destruct e as [|u]; cbn in Hs; unfold handler_step, thread_step in Hs.
  - repeat case_match; simplify_eq; cbn; rewrite ?length_insert; done.
  - repeat case_match; try done; destruct (threads r !! u) as [[]|]; simplify_eq/=; by rewrite length_insert.
Qed.

Lemma others_snoc l u : u ≠ my_tid → others (l ++ [u]) = others l ++ [u].
Proof. intros Hu. unfold others. rewrite filter_app. by rewrite filter_cons_True. Qed.

Lemma others_skip l : others (l ++ [my_tid]) = others l.
Proof. unfold others. rewrite filter_app, filter_cons_False, filter_nil, app_nil_r; [done|]. by intros []. Qed.

Lemma all_running_insert r h b s u l : (∀ v q, v ≠ u → threads r !! v = Some q → q = Running) →
  all_running (mkReport h b s (<[u := Running]> (threads r)) l).
Proof. intros Hall v q [(_ & <- & _)|(Hne & Hv)]%list_lookup_insert_Some; [done|]. by apply (Hall v). Qed.

Hypothesis Htids : Forall (λ u, (u < nthreads)%nat) tids.

(** A turn of the loop. *)
Lemma rinv_next r r' past todo : handler r = HNext todo → sem r = 0 → all_running r → rlen r → tids = past ++ todo →
  printed r = my_tid :: others past → handler_step r = Some r' → rinv r'.
Proof.
  intros Hh Hz Hall Hl Ht Hp Hs. unfold handler_step in Hs. rewrite Hh in Hs. destruct todo as [|u todo].
  - injection Hs as <-. rewrite app_nil_r in Ht. subst past. apply REnd; [by left|done..].
  - case_decide as Hu; [injection Hs as <-; subst u|].
    + apply (RNext _ (past ++ [my_tid]) todo); try done; [by rewrite <- app_assoc|]. by rewrite others_skip.
    + assert (Hlt : (u < length (threads r))%nat).
      { rewrite Hl. rewrite Ht in Htids. apply Forall_app in Htids as [_ H2]. by inversion H2. }
      destruct (lookup_lt_is_Some_2 _ _ Hlt) as [p Hpu]. rewrite Hpu in Hs. pose proof (Hall u p Hpu) as ->. injection Hs as <-.
      apply (RAsked _ past todo u Signalled); cbn; try done.
      * by apply list_lookup_insert_eq.
      * intros v q Hv. rewrite list_lookup_insert_ne by done. apply Hall.
      * by rewrite app_nil_r.
Qed.

Lemma rinv_step e r r' : rlen r → rinv r → report_step e r = Some r' → rinv r'.
Proof.
  intros Hl Hi Hs. destruct e as [|u]; cbn in Hs.
  - destruct Hi as [Hh Hip|Hh|Hh|past todo Hh|past todo u p Hh Hz Ht Hu Hpu Ha Hoth Hp|past todo Hh Hz Hall Ht Hp|[Hh|Hh]];
      try (by eapply rinv_next); unfold handler_step in Hs; rewrite Hh in Hs.
    + rewrite Hip in Hs. injection Hs as <-. by apply RPrint.
    + injection Hs as <-. apply RTids; cbn; [done..|]. match goal with H : printed r = [] |- _ => by rewrite H end.
    + injection Hs as <-. by apply (RNext _ [] tids).
    + by rewrite Hz in Hs.
    + rewrite Hz in Hs. injection Hs as <-. by apply (RNext _ past todo).
    + injection Hs as <-. apply REnd; [by right|done..].
    + done.
  - assert (Hrun : all_running r → False).
    { intros Hall. unfold thread_step in Hs. destruct (handler r); try done;
        (destruct (threads r !! u) as [p|] eqn:Hu; [|done]); pose proof (Hall u p Hu) as ->; done. }
    destruct Hi as [| | | |past todo v p Hh Hz Ht Hv Hpv Ha Hoth Hp| |]; try (by destruct Hrun).
    unfold thread_step in Hs. rewrite Hh in Hs. destruct (threads r !! u) as [q|] eqn:Hu; [|done]. cbn in Hs.
    destruct (decide (u = v)) as [->|Hne]; [|by pose proof (Hoth u q Hne Hu) as ->].
    rewrite Hpv in Hu. injection Hu as <-. assert (Hlt : (v < length (threads r))%nat) by (by eapply lookup_lt_Some).
    assert (Hfar : ∀ p', ∀ x q, x ≠ v → <[v := p']> (threads r) !! x = Some q → q = Running).
    { intros p' x q Hx. rewrite list_lookup_insert_ne by done. by apply Hoth. }
    destruct p; simplify_eq/=.
    + apply (RAsked _ past todo v Printing); cbn; try done; [by apply list_lookup_insert_eq|by apply Hfar].
    + apply (RAsked _ past todo v Posting); cbn; try done; [by apply list_lookup_insert_eq|by apply Hfar|].
      by rewrite Hp, app_nil_r.
    + apply (RPosted _ (past ++ [v]) todo); cbn; [done|lia|by eapply all_running_insert|by rewrite <- app_assoc|].
      by rewrite Hp, others_snoc.
Qed.

Lemma report_inv r : reachable report_step Report_init r → rlen r ∧ rinv r.
Proof.
  revert r. apply invariant_reachable; [destruct rinv_init; done|].
  intros e r r' [Hl Hi] Hs. split; [by eapply rlen_step|by eapply rinv_step].
Qed.

(** *** Every report ends *)

Definition hweight (h : hpc) : Z :=
  match h with
  | HStart => 6 * Z.of_nat (length tids) + 5
  | HPrint => 6 * Z.of_nat (length tids) + 4
  | HTids => 6 * Z.of_nat (length tids) + 3
  | HNext todo => 6 * Z.of_nat (length todo) + 2
  | HWait todo => 6 * Z.of_nat (length todo) + 3
  | HRaise => 1
  | Dead => 0
  end.

Definition tweight (p : tpc) : Z := match p with Signalled => 3 | Printing => 2 | Posting => 1 | _ => 0 end.

Definition rwork (r : Report) : Z := hweight (handler r) + zsum (tweight <$> threads r).

Lemma rwork_step e r r' : report_step e r = Some r' → rwork r' + 1 ≤ rwork r.
Proof.
  intros Hs. unfold rwork. destruct e as [|u]; cbn [report_step] in Hs.
  - unfold handler_step in Hs. destruct (handler r) as [| | |[|u todo]|todo| |]; repeat case_match; simplify_eq;
      cbn [handler threads hweight length]; try lia. erewrite zsum_insert by done. cbn [tweight]. lia.
  - unfold thread_step in Hs. destruct (handler r) eqn:Hh; try done; (destruct (threads r !! u) as [p|] eqn:Hu; [|done]);
      destruct p; simplify_eq/=; rewrite (zsum_insert _ _ _ _ _ Hu); cbn [tweight]; lia.
Qed.

Lemma rwork_run es r r' : run report_step es r = Some r' → Z.of_nat (length es) + rwork r' ≤ rwork r.
Proof.
  intros Hr. apply (run_bounded report_step (λ _, True) (λ _, True) rwork); [|by apply Forall_forall|done|done].
  intros e t t' _ _ Ht%rwork_step. split; [done|lia].
Qed.

Lemma rwork_nonneg r : 0 ≤ rwork r.
Proof.
  unfold rwork. assert (0 ≤ zsum (tweight <$> threads r)).
  { apply zsum_nonneg, Forall_fmap, Forall_forall. intros p _. destruct p; cbn; lia. }
  destruct (handler r); cbn; lia.
Qed.

Lemma rwork_init : rwork Report_init = 6 * Z.of_nat (length tids) + 5.
Proof.
  unfold rwork. cbn [handler threads hweight Report_init]. rewrite fmap_replicate.
  assert (Hz : ∀ n, zsum (replicate n (tweight Running)) = 0) by (induction n as [|n IH]; [done|by cbn [replicate]; rewrite zsum_cons, IH]).
  rewrite Hz. lia.
Qed.

(** Somebody can go on until the process is dead. *)
Lemma report_progress r : rinv r → handler r ≠ Dead → ∃ e r', report_step e r = Some r'.
Proof.
  intros Hi Hnd.
  destruct Hi as [Hh Hip|Hh|Hh|past todo Hh|past todo u p Hh Hz Ht Hu Hpu Ha|past todo Hh Hz Hall Ht Hp|[Hh|Hh]];
    try (by destruct (Hnd Hh)); try (exists Handler; cbn; unfold handler_step; rewrite Hh, ?Hip, ?Hz; by eexists).
  - exists Handler. cbn. unfold handler_step. rewrite Hh. destruct todo as [|u todo]; [by eexists|]. case_decide; by eexists.
  - exists (Thread u). cbn. unfold thread_step. rewrite Hh, Hpu. destruct p; try done; by eexists.
Qed.
End report.

(** C23: The crash report.  If the registered threads stay alive, then in every
    interleaving at most one thread at a time is inside the code that prints a
    stack through the static array, the report ends after a bounded number of
    steps, the process does not stop before it has died of the signal, and the
    stacks printed then are that of the crashing thread and of every registered
    thread, each once and in the order of the registry. *)
Theorem crash_report my_tid nthreads tids es r :
  Forall (λ u, (u < nthreads)%nat) tids → run (report_step my_tid tids) es (Report_init nthreads) = Some r →
  (∀ u v, threads r !! u = Some Printing → threads r !! v = Some Printing → u = v) ∧
  (handler r = HPrint → ∀ u, threads r !! u ≠ Some Printing) ∧
  Z.of_nat (length es) ≤ 6 * Z.of_nat (length tids) + 5 ∧
  ((∀ e, report_step my_tid tids e r = None) → handler r = Dead) ∧
  (handler r = Dead → printed r = my_tid :: filter (λ u, u ≠ my_tid) tids).
Proof.
  intros Ht Hr. destruct (report_inv my_tid nthreads tids Ht r ltac:(by exists es)) as [Hl Hi]. split_and!.
  - intros u v Hu Hv. destruct Hi; try (match goal with H : all_running r |- _ => by pose proof (H u _ Hu) end).
    match goal with H : ∀ v q, v ≠ ?w → _ |- _ => destruct (decide (u = w)) as [->|Hne]; [|by pose proof (H u _ Hne Hu)];
      destruct (decide (v = w)) as [->|Hne']; [done|by pose proof (H v _ Hne' Hv)] end.
  - intros Hh u Hu. destruct Hi; try congruence; match goal with H : all_running r |- _ => by pose proof (H u _ Hu) end.
  - pose proof (rwork_run my_tid tids es _ _ Hr). pose proof (rwork_nonneg tids r). pose proof (rwork_init nthreads tids). lia.
  - intros Hst. assert (handler r = Dead ∨ handler r ≠ Dead) as [?|Hnd] by (destruct (handler r); auto); [done|].
    destruct (report_progress my_tid tids r Hi Hnd) as (e & r' & He). by rewrite Hst in He.
  - intros Hh. destruct Hi; try congruence. done.
Qed.

Lemma crash_report_witness :
  let es := [Handler; Handler; Handler; Handler; Thread 1; Thread 1; Thread 1; Handler; Handler; Handler; Thread 2; Thread 2; Thread 2; Handler; Handler; Handler] in
  ∃ r, run (report_step 0 [1; 0; 2]%nat) es (Report_init 3) = Some r ∧ printed r = [0; 1; 2]%nat.
Proof.
  intros es. eexists. split; [vm_compute; reflexivity|].
  destruct (crash_report 0 3 [1; 0; 2]%nat es (mkReport Dead true 0 [Running; Running; Running] [0; 1; 2]%nat)) as (_ & _ & _ & _ & Hp);
    [repeat constructor; lia|vm_compute; reflexivity|]. by apply Hp.
Defined.

(** A thread that is in the set of identities and ends before its signal never
    posts: the crashing thread waits for ever and the process stays. *)
Lemma gone_thread_hangs :
  ∃ r1 r2 r3, run (report_step 0 [1]%nat) [Handler; Handler; Handler] (Report_init 2) = Some r1 ∧ leave 1 r1 = Some r2 ∧
    run (report_step 0 [1]%nat) [Handler] r2 = Some r3 ∧ handler r3 ≠ Dead ∧ ∀ e, report_step 0 [1]%nat e r3 = None.
Proof. do 3 eexists. split_and!; try reflexivity; [done|]. intros [|[|[|u]]]; reflexivity. Qed.

(** ** A second crash during the report *)

(** Any thread may crash.  While a thread is in [fatalSignalHandler] SIGSEGV is blocked
    for it, so the [raise(sig)] of the first lines leaves the signal pending and
    returns: the flag [in_progress] does not keep a second thread from making a
    report of its own.  SIGUSR1 is not blocked there: [dumpStackHandler] may run on top
    of [fatalSignalHandler], and interrupts a [sem_wait].  A signal that is already
    pending is not queued again. *)
Inductive dump : Type := DIdle | DPrint | DPost.

Record CThread : Type := mkCThread {
  fatal : option hpc;      (* in fatalSignalHandler *)
  in_dump : dump;          (* in dumpStackHandler *)
  usr1 : bool;             (* SIGUSR1 is pending *)
}.

Record Crashes : Type := mkCrashes {
  c_in_progress : bool;
  c_sem : Z;
  cthreads : list CThread;
  c_printed : list nat;
  c_dead : bool;
}.

Definition Crashes_init (n : nat) : Crashes := mkCrashes false 0 (replicate n (mkCThread None DIdle false)) [] false.

Inductive crash_event : Type :=
| Crash (t : nat)        (* a running thread receives SIGSEGV *)
| Fatal_ (t : nat)       (* the next step of fatalSignalHandler *)
| Interrupted (t : nat)  (* its sem_wait() fails with EINTR, after a dumpStackHandler *)
| Dump (t : nat).        (* the next step of dumpStackHandler *)

Definition set_thread (t : nat) (th : CThread) (c : Crashes) : Crashes :=
  mkCrashes (c_in_progress c) (c_sem c) (<[t := th]> (cthreads c)) (c_printed c) (c_dead c).

(** [pthread_kill(u, SIGUSR1)] *)
Definition kill_usr1 (u : nat) (c : Crashes) : Crashes :=
  match cthreads c !! u with
  | Some th => set_thread u (mkCThread (fatal th) (in_dump th) true) c
  | None => c
  end.

Definition fatal_step (tids : list nat) (t : nat) (h : hpc) (c : Crashes) : option Crashes :=
  th ← cthreads c !! t;
  let goto h c := match cthreads c !! t with
                  | Some th => set_thread t (mkCThread (Some h) (in_dump th) (usr1 th)) c
                  | None => c
                  end in
  match h with
  | HStart => Some (goto HPrint (mkCrashes true (c_sem c) (cthreads c) (c_printed c) (c_dead c)))   (* if (in_progress) raise(sig); *)
  | HPrint => Some (goto HTids (mkCrashes (c_in_progress c) (c_sem c) (cthreads c) (c_printed c ++ [t]) (c_dead c)))
  | HTids => Some (goto (HNext tids) c)
  | HNext [] => Some (goto HRaise c)
  | HNext (u :: todo) => if decide (u = t) then Some (goto (HNext todo) c) else Some (kill_usr1 u (goto (HWait todo) c))
  | HWait todo => if 0 <? c_sem c then Some (goto (HNext todo) (mkCrashes (c_in_progress c) (c_sem c - 1) (cthreads c) (c_printed c) (c_dead c))) else None
  | HRaise => Some (mkCrashes (c_in_progress c) (c_sem c) (cthreads c) (c_printed c) true)
  | Dead => None
  end.

Definition dump_step (t : nat) (th : CThread) (c : Crashes) : option Crashes :=
  match in_dump th with
  | DIdle => if usr1 th then Some (set_thread t (mkCThread (fatal th) DPrint false) c) else None
  | DPrint => Some (set_thread t (mkCThread (fatal th) DPost (usr1 th)) (mkCrashes (c_in_progress c) (c_sem c) (cthreads c) (c_printed c ++ [t]) (c_dead c)))
  | DPost => Some (set_thread t (mkCThread (fatal th) DIdle (usr1 th)) (mkCrashes (c_in_progress c) (c_sem c + 1) (cthreads c) (c_printed c) (c_dead c)))
  end.

Definition crash_step (tids : list nat) (e : crash_event) (c : Crashes) : option Crashes :=
  if c_dead c then None else
  match e with
  | Crash t => th ← cthreads c !! t;
      match fatal th, in_dump th with None, DIdle => Some (set_thread t (mkCThread (Some HStart) DIdle (usr1 th)) c) | _, _ => None end
  | Fatal_ t => th ← cthreads c !! t;
      match fatal th, in_dump th with Some h, DIdle => fatal_step tids t h c | _, _ => None end
  | Interrupted t => th ← cthreads c !! t;
      match fatal th, in_dump th with Some (HWait todo), DIdle => Some (set_thread t (mkCThread (Some (HNext todo)) DIdle (usr1 th)) c) | _, _ => None end
  | Dump t => th ← cthreads c !! t; dump_step t th c
  end.

(** Inside [printStackTrace], which uses the static array of frames. *)
Definition printing (th : CThread) : bool :=
  match in_dump th, fatal th with DPrint, _ => true | DIdle, Some HPrint => true | _, _ => false end.

(** Two threads crash: both are in [printStackTrace] at the same time, and the stack of
    the second one is printed twice. *)
Lemma second_crash_reports :
  ∃ c1 c2, run (crash_step [0; 1]%nat) [Crash 0; Fatal_ 0; Crash 1; Fatal_ 1] (Crashes_init 2) = Some c1 ∧
    forallb printing (cthreads c1) = true ∧
    run (crash_step [0; 1]%nat) [Fatal_ 0; Fatal_ 1; Fatal_ 0; Fatal_ 0; Fatal_ 0; Dump 1; Dump 1; Dump 1; Fatal_ 0; Fatal_ 0; Fatal_ 0] c1 = Some c2 ∧
    c_dead c2 = true ∧ c_printed c2 = [0; 1; 1]%nat.
Proof.
  do 2 eexists. split; [vm_compute; reflexivity|]. split; [vm_compute; reflexivity|]. split; [vm_compute; reflexivity|].
  split; reflexivity.
Qed.
