(* ===== verification/Support.v ===== *)
(** * Logging, time and child processes

    [log_message.cpp] and [log_writer.cpp]: a message is a line with a label for
    its severity, the place in the source and the text; a fatal one ends the
    program, unless that is switched off for tests.  [timer.hpp] and
    [ticks_clock.*]: elapsed time.  [child_process.cpp]: running a callback in a
    forked process. *)
From stdpp Require Import base numbers list strings.
From S2P Require Import Prelude CppString.
Open Scope Z_scope.

(** ** Logging *)

Inductive Severity : Type := NORMAL | WARNING | ERROR | FATAL.
#[export] Instance Severity_eq : EqDecision Severity.
Proof. solve_decision. Defined.

Record LogMessage : Type := mkMessage { severity_ : Severity; msg_stream_ : str }.

(** [labels[severity_]] *)
Definition label (s : Severity) : Z := match s with NORMAL => 32 | WARNING => 87 | ERROR => 69 | FATAL => 70 end.

(** The constructor; [line] is the printed line number. *)
Definition LogMessage_init (file line : str) (severity : Severity) : LogMessage :=
  mkMessage severity ([label severity] ++ bytes " " ++ file ++ bytes ":" ++ line ++ bytes " ").

Definition stream_put (text : str) (m : LogMessage) : LogMessage := mkMessage (severity_ m) (msg_stream_ m ++ text).

(** The log file, once there is one, and the flags of the program.  Whether the
    next attempts to create the file succeed is given by [creates]. *)
Record Log : Type := mkLog {
  log_file_ : option str;
  creates : list bool;
  exit_on_fatal : bool;
  has_fatal_message : bool;
}.

Definition createFile : M Log bool := λ l,
  match creates l with
  | true :: cs => Ok true (mkLog (Some []) cs (exit_on_fatal l) (has_fatal_message l))
  | _ :: cs => Ok false (mkLog None cs (exit_on_fatal l) (has_fatal_message l))
  | [] => Ok false l
  end.

Definition fwrite (msg : str) : M Log unit := λ l,
  match log_file_ l with
  | Some f => Ok tt (mkLog (Some (f ++ msg)) (creates l) (exit_on_fatal l) (has_fatal_message l))
  | None => Err (Segv 0)
  end.

Definition write (msg : str) : M Log unit :=
  f ← gets log_file_;
  match f with
  | Some _ => fwrite msg
  | None => ok ← createFile; if negb ok then mret tt else fwrite msg
  end.

Definition flush (m : LogMessage) : M Log unit := write (msg_stream_ m ++ [10]).

(** The destructor. *)
Definition LogMessage_destroy (m : LogMessage) : M Log unit :=
  flush m;;
  if decide (severity_ m = FATAL) then
    e ← gets exit_on_fatal;
    if (e : bool) then fail Fatal (* exit(1) *) else modify (λ l, mkLog (log_file_ l) (creates l) (exit_on_fatal l) true)
  else mret tt.

(** [LOG(severity) << text] *)
Definition LOG (file line : str) (severity : Severity) (text : str) : M Log unit :=
  LogMessage_destroy (stream_put text (LogMessage_init file line severity)).

(** The line of a message. *)
Definition log_line (file line : str) (severity : Severity) (text : str) : str :=
  [label severity] ++ bytes " " ++ file ++ bytes ":" ++ line ++ bytes " " ++ text ++ [10].

(** A message is one line at the end of the file, if there is or can be one, and
    is dropped otherwise; a fatal one sets the flag or ends the program. *)
Definition log_spec (file line : str) (severity : Severity) (text : str) (l : Log) : Log :=
  let cs := match log_file_ l with Some _ => creates l | None => tail (creates l) end in
  let f := match log_file_ l, creates l with
           | Some f, _ => Some (f ++ log_line file line severity text)
           | None, true :: _ => Some (log_line file line severity text)
           | None, _ => None
           end in
  mkLog f cs (exit_on_fatal l) (has_fatal_message l || bool_decide (severity = FATAL)).

Lemma LOG_exact file line severity text l :
  LOG file line severity text l =
    if bool_decide (severity = FATAL) && exit_on_fatal l then Err Fatal else Ok tt (log_spec file line severity text l).
Proof.
  assert (Hline : msg_stream_ (stream_put text (LogMessage_init file line severity)) ++ [10] = log_line file line severity text).
  { unfold log_line, stream_put, LogMessage_init. cbn [msg_stream_ severity_]. by rewrite <- !app_assoc. }
  unfold LOG, LogMessage_destroy, flush. rewrite Hline. destruct l as [f cs e h]. unfold log_spec. cbn [log_file_ creates exit_on_fatal has_fatal_message].
  unfold write, createFile, fwrite, gets, modify, mbind, M_bind. cbn [severity_ stream_put LogMessage_init].
  destruct f as [f|]; [|destruct cs as [|[] cs]]; cbn; destruct severity; cbn; try destruct e; cbn; rewrite ?orb_false_r, ?orb_true_r; done.
Qed.

(** The label tells the severity. *)
Lemma label_inj s s' : label s = label s' → s = s'.
Proof. by destruct s, s'. Qed.

(** ** Time *)

Record timeval : Type := mkTime { tv_sec : Z; tv_usec : Z }.
Record Timer : Type := mkTimer { start_ : timeval; end_ : timeval }.

Definition Timer_reset : Timer := mkTimer (mkTime 0 0) (mkTime 0 0).
Definition Timer_start (now : timeval) (t : Timer) : Timer := mkTimer now (end_ t).
Definition Timer_end (now : timeval) (t : Timer) : Timer := mkTimer (start_ t) now.

(** The seconds and the microseconds that [elapsed] adds up; the source divides the
    latter by a million in floating point. *)
Definition elapsed (t : Timer) : Z * Z :=
  if tv_usec (end_ t) <? tv_usec (start_ t)
  then (tv_sec (end_ t) - 1 - tv_sec (start_ t), tv_usec (end_ t) + 1000000 - tv_usec (start_ t))
  else (tv_sec (end_ t) - tv_sec (start_ t), tv_usec (end_ t) - tv_usec (start_ t)).

Definition micros (t : timeval) : Z := tv_sec t * 1000000 + tv_usec t.
Definition time_ok (t : timeval) : Prop := 0 ≤ tv_usec t < 1000000.

(** The elapsed time is the difference of the two times, with the part below a
    second normalised; it is not negative if the clock did not go back. *)
Lemma elapsed_exact a b t : time_ok a → time_ok b →
  let '(sec, usec) := elapsed (Timer_end b (Timer_start a t)) in
  sec * 1000000 + usec = micros b - micros a ∧ 0 ≤ usec < 1000000 ∧ (micros a ≤ micros b → 0 ≤ sec).
Proof.
  unfold time_ok, elapsed, micros. cbn. intros Ha Hb. destruct (Z.ltb_spec (tv_usec b) (tv_usec a)); lia.
Qed.

(** The time stamp counter in two halves. *)
Definition getTicks (hi lo : Z) : Z := Z.lor (Z.shiftl hi 32) lo.

Lemma getTicks_exact hi lo : 0 ≤ hi < 2 ^ 32 → 0 ≤ lo < 2 ^ 32 →
  getTicks hi lo = hi * 2 ^ 32 + lo ∧ 0 ≤ getTicks hi lo < 2 ^ 64.
Proof.
  intros Hh Hl. assert (Z.land (Z.shiftl hi 32) lo = 0) as Hd.
  { apply Z.bits_inj'. intros n Hn. rewrite Z.land_spec, Z.bits_0. destruct (decide (n < 32)).
    - by rewrite Z.shiftl_spec_low.
    - rewrite <- (Z.mod_small lo (2 ^ 32)) by done. rewrite (Z.mod_pow2_bits_high lo) by lia. apply andb_false_r. }
  assert (getTicks hi lo = hi * 2 ^ 32 + lo) as ->; [|lia].
  unfold getTicks. rewrite <- Z.lxor_lor, <- Z.add_nocarry_lxor by done. by rewrite Z.shiftl_mul_pow2.
Qed.

(** [moduleInit] doubles the ticks of half a second, in 64-bit arithmetic. *)
Definition ticksPerSecond (before after : Z) : Z := wrap64 (wrap64 (after - before) * 2).

(** It is right also when the counter wraps around meanwhile. *)
Lemma ticksPerSecond_exact before n : 0 ≤ n < 2 ^ 63 → ticksPerSecond before (wrap64 (before + n)) = 2 * n.
Proof.
  intros Hn. unfold ticksPerSecond. assert (wrap64 (wrap64 (before + n) - before) = n) as ->.
  { unfold Z.sub. rewrite wrap64_add_l. replace (before + n + - before) with n by lia. apply wrap64_small. lia. }
  rewrite wrap64_small; lia.
Qed.

(** ** Child processes *)

(** The ends of the pipe, and where standard error goes. *)
Inductive target : Type := Terminal | PipeEnd (write_end : bool).
Record ChildProcess : Type := mkChild {
  child_pid_ : Z;
  open_ends : bool * bool;     (* pfd_[0] and pfd_[1] *)
  stderr : target;
}.

(** [start()] as it goes on in one process; [fork_rc] is what [fork()] answered
    there, -1 for an error and 0 in the child.  [cb] is the call of the callback. *)
Definition start {T} (pipe_rc fork_rc : Z) (cb : M T unit) : M (ChildProcess * T) bool := λ '(c, t),
  if pipe_rc =? -1 then Ok false (c, t)
  else let c := mkChild fork_rc (true, true) (stderr c) in
  if fork_rc =? -1 then Ok false (c, t)
  else if fork_rc =? 0 then
    match cb t with
    | Ok _ t' => Ok true (mkChild 0 (false, false) (PipeEnd true), t')
    | Err e => Err e
    end
  else Ok true (mkChild fork_rc (true, false) (stderr c), t).

(** The child's standard error goes to the pipe whose other end the parent reads. *)
Lemma start_stderr {T} (cb : M T unit) pid (c : ChildProcess) (t t' : T) : 0 < pid → cb t = Ok tt t' →
  start 0 pid cb (c, t) = Ok true (mkChild pid (true, false) (stderr c), t) ∧
  start 0 0 cb (c, t) = Ok true (mkChild 0 (false, false) (PipeEnd true), t').
Proof.
  intros Hp Hcb. unfold start. cbn. rewrite Hcb. rewrite (proj2 (Z.eqb_neq pid (-1))), (proj2 (Z.eqb_neq pid 0)) by lia. done.
Qed.

(** A callback that returns lets the child go on in the code of the parent's
    caller: [start()] answers true in both processes. *)
Lemma child_goes_on {T} (cb : M T unit) pid (c : ChildProcess) (t t' : T) : 0 < pid → cb t = Ok tt t' →
  (∃ s, start 0 pid cb (c, t) = Ok true s) ∧ (∃ s, start 0 0 cb (c, t) = Ok true s).
Proof. intros Hp Hcb. destruct (start_stderr cb pid c t t' Hp Hcb) as [-> ->]. split; by eexists. Qed.

(** [wait()] returns what [waitpid()] returns, the identity of the child; the
    [status] of its end is dropped. *)
Definition wait (status : Z) (c : ChildProcess) : Z := child_pid_ c.

Definition getStderrFD (pfd0 : Z) (c : ChildProcess) : Z := pfd0.

(** The answer does not tell how the child ended. *)
Lemma wait_ignores_status c s s' : wait s c = wait s' c.
Proof. done. Qed.
