(* ===== verification/TestUnit.v ===== *)
(** * The unit-test framework: [test_unit.hpp]

    Test cases register themselves; the command line chooses which to run, by a
    list of names separated by commas.  A test is code of the program under test,
    which ends with a number of failed expectations; the state [T] is what the
    tests share.  Printed lines are recorded as values. *)
From stdpp Require Import base numbers list gmap strings.
From S2P Require Import Prelude CppString ParamMap.
Open Scope Z_scope.

Section framework.
Context {T : Type}.

Record TestCase : Type := mkCase {
  group_ : str;
  name_ : str;
  testBody : M T Z;      (* its errors_ afterwards *)
}.

Definition fullName (t : TestCase) : str := group_ t ++ bytes "(" ++ name_ t ++ bytes ")".

Inductive line : Type :=
| Listed (full : str)                  (* runListCases *)
| Ran (full : str) (errors : Z)        (* "Running ...: PASSED", or its failures *)
| WrongName (name : str)               (* "Wrong test case name: " *)
| Usage.                               (* printUsage() *)

Abbreviation Out := (T * list line)%type.

Definition print (l : line) : M Out unit := modify (λ s, (s.1, s.2 ++ [l])).
Definition on_prog {A} (c : M T A) : M Out A := zoom fst (λ t s, (t, s.2)) c.

(** [filter.insert]: an entry that exists stays. *)
Definition filter_insert (name : str) (f : gmap str bool) : gmap str bool :=
  match f !! name with Some _ => f | None => <[name := false]> f end.

(** The loop that takes the list apart; the rest gets shorter each time. *)
Fixpoint split_cases (fuel : nat) (curr : str) (f : gmap str bool) : gmap str bool :=
  match fuel with
  | O => f
  | S fuel =>
      match string_find (bytes ",") curr with
      | Some pos => split_cases fuel (drop (pos + 1) curr) (filter_insert (take pos curr) f)
      | None => filter_insert curr f
      end
  end.

Definition make_filter (cases : str) : gmap str bool :=
  if decide (cases = bytes "all") then ∅ else split_cases (S (length cases)) cases ∅.

(** The loop over the tests: the errors and the filter with what was executed. *)
Fixpoint run_loop (tests : list TestCase) (f : gmap str bool) (errors : Z) : M Out (Z * gmap str bool) :=
  match tests with
  | [] => mret (errors, f)
  | test :: tests =>
      let run (f : gmap str bool) : M Out (Z * gmap str bool) :=
        n ← on_prog (testBody test);
        print (Ran (fullName test) n);;
        run_loop tests f (if n =? 0 then errors else errors + n) in
      if decide (f = ∅) then run f
      else match f !! name_ test with
           | None => run_loop tests f errors
           | Some _ => run (<[name_ test := true]> f)
           end
  end.

(** The names that were not executed, in the order of the map. *)
Definition wrong_names (f : gmap str bool) : list str :=
  fst <$> filter (λ kv, kv.2 = false) (map_to_list f).

Definition runSomeCases (tests : list TestCase) (cases : str) (errors : Z) : M Out Z :=
  r ← run_loop tests (make_filter cases) errors;
  mapM (λ n, print (WrongName n)) (wrong_names r.2);;
  mret (r.1 + Z.of_nat (length (wrong_names r.2))).

Definition runListCases (tests : list TestCase) : M Out unit :=
  mapM (λ t, print (Listed (fullName t))) tests;; mret tt.

(** The parameters of the framework. *)
Definition test_params : ParamMap :=
  (addParam (bytes "listcases") (bytes "false") (bytes "list the test cases for this test")
    (addParam (bytes "case") (bytes "all") (bytes "csv list of test cases to run") ParamMap_init).2).2.

Definition runAndResetWithArgs (tests : list TestCase) (argv0 : str) (args : list str) : M Out Z :=
  let '(ok, m) := parseArgv argv0 args test_params in
  if negb ok then print Usage;; mret 1
  else if decide (getParam (bytes "listcases") m = Some (bytes "true")) then runListCases tests;; mret 0
  else match getParam (bytes "case") m with
       | Some cases => runSomeCases tests cases 0
       | None => mret 0
       end.
End framework.
Arguments TestCase : clear implicits.

(** ** Taking the list apart *)

(** The list of names as the user writes it. *)
Fixpoint join (names : list str) : str :=
  match names with
  | [] => []
  | [n] => n
  | n :: ns => n ++ bytes "," ++ join ns
  end.

Lemma filter_insert_dom name f : dom (filter_insert name f) = {[name]} ∪ dom f.
Proof.
  unfold filter_insert. destruct (f !! name) eqn:E; [|by rewrite dom_insert_L].
  apply elem_of_dom_2 in E. set_solver.
Qed.

Lemma filter_insert_false name f : (∀ k b, f !! k = Some b → b = false) → ∀ k b, filter_insert name f !! k = Some b → b = false.
Proof.
  intros Hf k b. unfold filter_insert. destruct (f !! name); [apply Hf|].
  rewrite lookup_insert_Some. intros [[_ <-]|[_ H]]; [done|by eapply Hf].
Qed.

Lemma split_cases_false fuel curr f : (∀ k b, f !! k = Some b → b = false) → ∀ k b, split_cases fuel curr f !! k = Some b → b = false.
Proof.
  revert curr f. induction fuel as [|fuel IH]; intros curr f Hf; cbn; [done|].
  destruct (string_find _ _); [apply IH|]; by apply filter_insert_false.
Qed.

Lemma split_join fuel names f : names ≠ [] → Forall (λ n, 44 ∉ n) names → (length (join names) < fuel)%nat →
  dom (split_cases fuel (join names) f) = list_to_set names ∪ dom f.
Proof.
  revert names f. induction fuel as [|fuel IH]; intros names f Hne Hall Hf; [lia|].
  destruct names as [|n [|n' names]]; [done| |]; apply Forall_cons in Hall as [Hn Hall]; cbn [split_cases]; change (bytes ",") with [44].
  - cbn [join]. rewrite (find_char_none 44 n Hn), filter_insert_dom. set_solver.
  - change (join (n :: n' :: names)) with (n ++ 44 :: join (n' :: names)) in *.
    rewrite (find_char_app 44 n (join (n' :: names)) Hn). rewrite take_app_length.
    replace (drop (length n + 1) (n ++ 44 :: join (n' :: names))) with (join (n' :: names)).
    2: { rewrite drop_app. replace (length n + 1 - length n)%nat with 1%nat by lia. rewrite drop_ge by lia. done. }
    rewrite length_app in Hf. cbn [length] in Hf. rewrite IH by (done || lia). rewrite filter_insert_dom. set_solver.
Qed.

(** ** What runs *)

Section exact.
Context {T : Type}.
Implicit Types (tests : list (TestCase T)) (f : gmap str bool).

(** The reference: the tests run one after the other. *)
Fixpoint run_all tests (errors : Z) : M (T * list line) Z :=
  match tests with
  | [] => mret errors
  | test :: tests => n ← on_prog (testBody test); print (Ran (fullName test) n);; run_all tests (errors + n)
  end.

(** The filter with the names of [tests] ticked off. *)
Definition tick f tests : gmap str bool :=
  foldl (λ f t, if decide (name_ t ∈ dom f) then <[name_ t := true]> f else f) f tests.

Lemma tick_dom f tests : dom (tick f tests) = dom f.
Proof.
  revert f. induction tests as [|t tests IH]; intros f; cbn; [done|]. fold (tick). rewrite IH.
  case_decide; [|done]. rewrite dom_insert_L. set_solver.
Qed.

Lemma tick_lookup f tests k : k ∈ dom f →
  tick f tests !! k = if decide (k ∈ name_ <$> tests) then Some true else f !! k.
Proof.
  revert f. induction tests as [|t tests IH]; intros f Hk; cbn [tick foldl fmap list_fmap]; [done|].
  change (foldl _ ?g tests) with (tick g tests). rewrite IH.
  2: { destruct (decide (name_ t ∈ dom f)); [rewrite dom_insert_L; set_solver|exact Hk]. }
  destruct (decide (k ∈ name_ <$> tests)) as [Hin|Hin].
  - rewrite decide_True; [done|]. by right.
  - destruct (decide (k = name_ t)) as [->|Hne].
    + rewrite (decide_True (P := name_ t ∈ dom f)) by done. rewrite lookup_insert_eq, decide_True; [done|]. left.
    + rewrite (decide_False (P := k ∈ name_ t :: _)); [|by apply not_elem_of_cons].
      case_decide; [|done]. by rewrite lookup_insert_ne.
Qed.

Lemma run_loop_exact tests f errors s : f ≠ ∅ →
  run_loop tests f errors s =
  match run_all (filter (λ t, name_ t ∈ dom f) tests) errors s with
  | Ok e s' => Ok (e, tick f tests) s'
  | Err x => Err x
  end.
Proof.
  revert f errors s. induction tests as [|test tests IH]; intros f errors s Hf; cbn [run_loop]; [done|].
  rewrite decide_False by done. cbn [tick foldl]. change (foldl _ ?g tests) with (tick g tests).
  destruct (f !! name_ test) as [b|] eqn:Hl.
  - assert (Hd : name_ test ∈ dom f) by (by eapply elem_of_dom_2). rewrite filter_cons_True, decide_True by done. cbn [run_all].
    unfold mbind, M_bind. destruct (on_prog (testBody test) s) as [n s1|]; [|done]. cbn [print modify].
    unfold print, modify. rewrite IH by apply insert_non_empty.
    assert (Hdom : dom (<[name_ test := true]> f) = dom f) by (rewrite dom_insert_L; set_solver).
    rewrite Hdom. destruct (Z.eqb_spec n 0) as [->|_]; [by rewrite Z.add_0_r|done].
  - assert (Hd : name_ test ∉ dom f) by (by apply not_elem_of_dom). rewrite filter_cons_False, decide_False by done. by apply IH.
Qed.

Lemma run_loop_all tests errors s :
  run_loop tests ∅ errors s = match run_all tests errors s with Ok e s' => Ok (e, ∅) s' | Err x => Err x end.
Proof.
  revert errors s. induction tests as [|test tests IH]; intros errors s; cbn [run_loop run_all]; [done|].
  rewrite decide_True by done. unfold mbind, M_bind. destruct (on_prog (testBody test) s) as [n s1|]; [|done].
  unfold print, modify. rewrite IH. destruct (Z.eqb_spec n 0) as [->|_]; [by rewrite Z.add_0_r|done].
Qed.

(** The names left over are those of no test. *)
Lemma wrong_names_exact f tests : (∀ k b, f !! k = Some b → b = false) →
  wrong_names (tick f tests) ≡ₚ elements (dom f ∖ list_to_set (name_ <$> tests)).
Proof.
  intros Hf. apply NoDup_Permutation.
  - unfold wrong_names. apply NoDup_fmap_fst; [|apply NoDup_filter, NoDup_map_to_list].
    intros x y1 y2 [_ H1%elem_of_map_to_list]%list_elem_of_filter [_ H2%elem_of_map_to_list]%list_elem_of_filter. congruence.
  - apply NoDup_elements.
  - intros k. rewrite elem_of_elements, elem_of_difference, elem_of_list_to_set. unfold wrong_names. rewrite list_elem_of_fmap.
    setoid_rewrite list_elem_of_filter. split.
    + intros ([k' b] & -> & Hb & Hk%elem_of_map_to_list). cbn in *. subst b.
      assert (Hd : k' ∈ dom f) by (rewrite <- (tick_dom f tests); by eapply elem_of_dom_2).
      split; [done|]. intros Hin. rewrite tick_lookup, decide_True in Hk by done. done.
    + intros [Hd Hin]. exists (k, false). split_and!; [done..|]. apply elem_of_map_to_list.
      rewrite tick_lookup, decide_False by done. apply elem_of_dom in Hd as [b Hb]. rewrite Hb. f_equal. by eapply Hf.
Qed.

Lemma print_wrong ns (t : T) out :
  mapM (λ n, print (WrongName n)) ns (t, out) = Ok (replicate (length ns) tt) (t, out ++ (WrongName <$> ns)).
Proof.
  revert out. induction ns as [|n ns IH]; intros out; cbn [mapM]; [by rewrite app_nil_r|].
  unfold mbind, M_bind. cbn [print modify]. unfold print, modify. cbn [fst snd]. rewrite IH. cbn. by rewrite <- app_assoc.
Qed.

Lemma case_param v argv0 : parseArgv argv0 [print_arg (bytes "case", Some v)] test_params =
  (true, set_value (bytes "case") v (mkParams (key_to_value_map_ test_params) (key_to_description_map_ test_params) argv0)).
Proof.
  unfold parseArgv. cbn [parse_args]. rewrite (parse_print_arg (bytes "case", Some v)); [done|].
  unfold arg_ok. cbn [fst]. split_and!; [done| |done]. vm_compute. set_solver.
Qed.

Lemma case_runs tests argv0 v :
  runAndResetWithArgs tests argv0 [print_arg (bytes "case", Some v)] = runSomeCases tests v 0.
Proof.
  unfold runAndResetWithArgs. rewrite case_param. cbn [negb]. unfold getParam, set_value. cbn [key_to_value_map_].
  rewrite (lookup_insert_ne _ _ (bytes "listcases")) by done.
  rewrite decide_False by (vm_compute; congruence). by rewrite lookup_insert_eq.
Qed.
End exact.

(** The command line chooses the tests.  Without arguments every test runs, in
    the order of registration, and the errors are added up.  With --case and a list
    of names the tests with these names run, in that order, as if they were the
    only ones; each name of the list that no test has is reported once and counts
    as one error. *)
Theorem run_tests_exact {T} (tests : list (TestCase T)) argv0 (t : T) out :
  runAndResetWithArgs tests argv0 [] (t, out) = run_all tests 0 (t, out) ∧
  ∀ names, names ≠ [] → Forall (λ n, 44 ∉ n) names → join names ≠ bytes "all" →
    match run_all (filter (λ c, name_ c ∈ names) tests) 0 (t, out) with
    | Ok e (t', out') => ∃ ws, ws ≡ₚ elements (list_to_set names ∖ list_to_set (name_ <$> tests) : gset str) ∧
        runAndResetWithArgs tests argv0 [print_arg (bytes "case", Some (join names))] (t, out) =
          Ok (e + Z.of_nat (length ws)) (t', out' ++ (WrongName <$> ws))
    | Err x => runAndResetWithArgs tests argv0 [print_arg (bytes "case", Some (join names))] (t, out) = Err x
    end.
Proof.
  split.
  - change (runAndResetWithArgs tests argv0 []) with (runSomeCases tests (bytes "all") 0). unfold runSomeCases, make_filter.
    rewrite decide_True by done. unfold mbind at 1, M_bind at 1. rewrite run_loop_all.
    destruct (run_all tests 0 (t, out)) as [e [t' out']|]; [|done]. cbn. by rewrite Z.add_0_r.
  - intros names Hne Hall Hna. rewrite case_runs. unfold runSomeCases, make_filter. rewrite decide_False by done.
    set (f := split_cases (S (length (join names))) (join names) ∅).
    assert (Hdom : dom f = list_to_set names) by (unfold f; rewrite split_join by (done || lia); set_solver).
    assert (Hf : f ≠ ∅). { intros E. rewrite E, dom_empty_L in Hdom. destruct names; [done|]. set_solver. }
    assert (Hfalse : ∀ k b, f !! k = Some b → b = false) by (by apply split_cases_false).
    pose proof (run_loop_exact tests f 0 (t, out) Hf) as Hloop.
    assert (Hsel : filter (λ c, name_ c ∈ dom f) tests = filter (λ c, name_ c ∈ names) tests).
    { apply list_filter_iff. intros c. by rewrite Hdom, elem_of_list_to_set. }
    rewrite Hsel in Hloop. destruct (run_all _ 0 (t, out)) as [e [t' out']|x]; [|by apply bind_err].
    exists (wrong_names (tick f tests)). split; [by rewrite wrong_names_exact, Hdom|].
    rewrite (bind_ok _ _ _ _ _ Hloop). cbn [fst snd]. by rewrite (bind_ok _ _ _ _ _ (print_wrong _ t' out')).
Qed.

(** Three tests, of which two are asked for beside a name that does not exist. *)
Definition demo_tests : list (TestCase Z) :=
  [mkCase (bytes "Once") (bytes "Simple") (λ n, Ok 0 (n + 1));
   mkCase (bytes "Once") (bytes "Binding") (λ n, Ok 2 (n + 10));
   mkCase (bytes "Many") (bytes "Simple") (λ n, Ok 1 (n + 100))].

Lemma run_tests_exact_witness :
  ∃ out, runAndResetWithArgs demo_tests (bytes "t") [bytes "--case=Simple,Typo"] (0, []) = Ok 2 (101, out).
Proof.
  destruct (run_tests_exact demo_tests (bytes "t") 0 []) as [_ Hn].
  specialize (Hn [bytes "Simple"; bytes "Typo"]). cbv zeta in Hn.
  assert (H1 : [bytes "Simple"; bytes "Typo"] ≠ []) by done.
  assert (H2 : Forall (λ n, 44 ∉ n) [bytes "Simple"; bytes "Typo"]) by (repeat constructor; vm_compute; set_solver).
  assert (H3 : join [bytes "Simple"; bytes "Typo"] ≠ bytes "all") by done.
  specialize (Hn H1 H2 H3).
  assert (Hsel : filter (λ c, name_ c ∈ [bytes "Simple"; bytes "Typo"]) demo_tests =
    [mkCase (bytes "Once") (bytes "Simple") (λ n, Ok 0 (n + 1)); mkCase (bytes "Many") (bytes "Simple") (λ n, Ok 1 (n + 100))])
    by (vm_compute; reflexivity).
  rewrite Hsel in Hn. cbn in Hn. destruct Hn as (ws & Hp & Hr).
  assert (Hw : length ws = 1%nat) by (rewrite Hp; vm_compute; reflexivity).
  rewrite Hw in Hr. eexists. exact Hr.
Defined.
