(* ===== verification/Server.v ===== *)
(** * The program: [server.cpp]

    [main] reads a port and a number of threads, builds the I/O service with its pool of
    workers and its statistics and the HTTP service on it, runs the service until
    somebody stops it, and destroys both.  The model composes [ThreadPoolFast],
    [RequestStats], [Acceptor] and [IOService]; what [socket], [bind] and [listen] answer is
    an argument, and threads can be created. *)
From stdpp Require Import base numbers list strings.
From S2P Require Import Prelude CppString Threads ThreadLocal ThreadPool ThreadPoolFast RequestStats IOManager Acceptor IOService.
Open Scope Z_scope.

(** [istringstream is(s); is >> n] for an [int n] that was [old] ([None]: indeterminate).
    Nothing is stored when [s] is blank, 0 when no number begins there, and the nearest [int]
    when the number is too large. *)
Definition extract_int (old : option Z) (s : str) : option Z :=
  match skip_spaces s with
  | [] => old
  | c :: s' =>
    let '(neg, s') := if c =? 45 then (true, s') else if c =? 43 then (false, s') else (false, c :: s') in
    let n := if neg then - digits 0 s' else digits 0 s' in
    Some (Z.max (- 2 ^ 31) (Z.min (2 ^ 31 - 1) n))
  end.

(** What the program has set up before it calls [start()]. *)
Inductive setup : Type :=
| Usage                                      (* return 1 *)
| Ready (port workers : Z) (s : IOService) (pool : Pool) (stats : list Counts).

(** [IOService(num_workers)]: the manager with its pool, whose loop [i < num_workers] starts
    no worker for a negative number, then the statistics.  [worker_num_] is new. *)
Definition IOService_new (num_workers : Z) : M unit (IOService * Pool * list Counts) :=
  match ThreadPoolFast_init ThreadLocal_init (Z.to_nat num_workers) with
  | Some pool => stats ← RequestStats_new num_workers; mret (IOService_init [], pool, stats)
  | None => fail (Segv 0)                         (* assignTask() to a deleted worker *)
  end.

(** [HTTPService(port, io_service)] registers the acceptor. *)
Definition registerAcceptor (socket_res bind_res listen_res : Z) (s : IOService) : option IOService :=
  a ← Acceptor_init socket_res bind_res listen_res true;
  Some (mkService (acceptors_ s ++ [a]) (stop_requested_ s) (service_stopped_ s) (manager_stopped s) (starter s) (callers s)).

Definition main_setup (argv : list str) (socket_res bind_res listen_res : Z) : M unit setup :=
  match argv with
  | [_; port; workers] =>
      let http_port := extract_int None port in
      match extract_int None workers with
      | None => fail Uninit                           (* a number that was never stored *)
      | Some num_workers =>
          '(s, pool, stats) ← IOService_new num_workers;
          match http_port with
          | None => fail Uninit
          | Some http_port =>
              match registerAcceptor socket_res bind_res listen_res s with
              | Some s => mret (Ready http_port num_workers s pool stats)
              | None => fail Fatal                    (* perror, exit(1) *)
              end
          end
      end
  | _ => mret Usage
  end.

(** [~IOService]: a call of [stop()], which waits until the service is stopped, and
    the end of the acceptors. *)
Definition IOService_destroy (s : IOService) : option IOService :=
  let i := length (callers s) in
  s ← run service_step [CallStop false; C i; C i] s;
  Some (mkService (Acceptor_destroy <$> acceptors_ s) (stop_requested_ s) (service_stopped_ s) (manager_stopped s) (starter s) (callers s)).

(** ** Setting up *)

Lemma registered_open socket_res bind_res listen_res s : registerAcceptor socket_res bind_res listen_res (IOService_init []) = Some s →
  ∃ a, s = IOService_init [a] ∧ is_open a ∧ listen_fd_ a = socket_res.
Proof.
  unfold registerAcceptor, Acceptor_init. intros Hs. destruct (socket_res <? 0), (bind_res <? 0), (listen_res <? 0); try done.
  injection Hs as <-. eexists. split; [reflexivity|]. split; [|done]. split; [by eexists|done].
Qed.

(** The exit of the program through each branch. *)
Lemma main_setup_cases argv socket_res bind_res listen_res :
  match main_setup argv socket_res bind_res listen_res tt with
  | Ok Usage _ => length argv ≠ 3%nat
  | Ok (Ready port workers s pool stats) _ => ∃ prog p w a, argv = [prog; p; w] ∧
      extract_int None p = Some port ∧ extract_int None w = Some workers ∧ 0 ≤ workers ∧
      s = IOService_init [a] ∧ is_open a ∧ listen_fd_ a = socket_res ∧
      ThreadPoolFast_init ThreadLocal_init (Z.to_nat workers) = Some pool ∧ stats = RequestStats_init (Z.to_nat workers)
  | Err e => length argv = 3%nat ∧ (e = Uninit ∨ e = Terminate ∨ e = Fatal)
  end.
Proof.
  unfold main_setup. destruct argv as [|prog [|p [|w [|x argv]]]]; try done.
  destruct (extract_int None w) as [workers|] eqn:Hw; [|cbn; auto]. unfold IOService_new, RequestStats_new, mbind, M_bind.
  rewrite fast_init. destruct (Z.ltb_spec workers 0); [cbn; auto|]. cbn.
  destruct (extract_int None p) as [port|] eqn:Hp; [|cbn; auto].
  destruct (registerAcceptor _ _ _ _) as [s|] eqn:Hs; [|cbn; auto].
  destruct (registered_open _ _ _ _ Hs) as (a & -> & Ha & Hfd). cbn. exists prog, p, w, a. by rewrite fast_init.
Qed.

(** Whether a number was read is not checked.  A word is the port 0, any free port of
    the system; a blank argument leaves the variable indeterminate. *)
Lemma port_not_a_number s0 : registerAcceptor 3 0 0 (IOService_init []) = Some s0 →
  (∃ pool stats, main_setup [bytes "server"; bytes "http"; bytes "4"] 3 0 0 tt = Ok (Ready 0 4 s0 pool stats) tt) ∧
  main_setup [bytes "server"; bytes " "; bytes "4"] 3 0 0 tt = Err Uninit.
Proof. intros Hs. injection Hs as <-. split; [do 2 eexists|]; vm_compute; reflexivity. Qed.

(** A negative number of workers ends the program before a socket is opened. *)
Lemma workers_not_checked port :
  main_setup [bytes "server"; bytes port; bytes "-1"] 3 0 0 tt = Err Terminate.
Proof. reflexivity. Qed.

(** ** Running and ending *)

(** What stays: one acceptor, and [start()] on its way. *)
Record serving (s : IOService) : Prop := {
  sg_inv : sinv s;
  sg_req : stop_requested_ s = true;
  sg_workers : no_worker_waits s;
  sg_one : length (acceptors_ s) = 1%nat;
  sg_start : starter s = SPolling ∨ starter s = SWait ∨ starter s = SReturned;
}.

Lemma serving_step l s s' : going l = true → serving s → service_step l s = Some s' → serving s' ∧ left_to_do s' < left_to_do s.
Proof.
  intros Hg [Hi Hr Hw Ho Hst] Hs. destruct (going_step l s s' Hg Hi Hr Hw Hs) as (Hl & Hr' & Hw'). split; [|lia].
  split; [by eapply service_inv|done|done| |]; clear Hl Hr' Hw'; destruct l as [| | |w|i]; try done; cbn in Hs.
  all: try (destruct (callers s !! i) as [[w p]|]; [|done]; destruct p; cbn in Hs; repeat case_match; simplify_eq; cbn;
            rewrite ?length_fmap; auto).
  all: repeat case_match; simplify_eq; cbn; auto.
Qed.

(** After [start()] has returned the destructor finds the service stopped. *)
Lemma destroy_ok s : serving s → starter s = SReturned → ∃ s', IOService_destroy s = Some s' ∧
  length (acceptors_ s') = 1%nat ∧ Forall (λ a, acc_closed a = [listen_fd_ a] ∧ accept_cb_ a = false) (acceptors_ s').
Proof.
  intros [Hi Hr _ Ho _] Hst. pose proof (sv_start _ Hi Hst) as Hstop. unfold IOService_destroy.
  assert (Hrun : run service_step [CallStop false; C (length (callers s)); C (length (callers s))] s =
    Some (mkService (acceptors_ s) true true (manager_stopped s) (starter s)
      (<[length (callers s) := (false, CReturned)]> (<[length (callers s) := (false, CWait)]> (callers s ++ [(false, CEnter)]))))).
  { destruct s as [accs req st man str cs]. cbn in *. subst req st. rewrite list_lookup_middle by done. cbn.
    rewrite list_lookup_insert_eq by (rewrite length_app; cbn; lia). done. }
  rewrite Hrun. eexists. split; [reflexivity|]. cbn. split; [by rewrite length_fmap|].
  apply Forall_fmap. eapply Forall_impl; [apply (sv_closed _ Hi); by right|]. intros a [Hd Hc].
  unfold Acceptor_destroy. cbn. by rewrite Hd.
Qed.

(** C12: The life of the program.  Its two arguments are a port and a number of workers
    from 1 to 16, and the port can be listened to: [main] builds a pool with that many
    workers, for which [worker_num_] has room, the statistics for as many, and starts one
    acceptor.  Once somebody calls [stop()], a worker that answers /quit or another
    thread, at most five more steps follow in any order, then [start()] has returned, and
    the destructors run to their end: the listening socket has been closed exactly once
    and its callback deleted. *)
Theorem server_quits argv socket_res bind_res listen_res port workers s0 pool stats w ls s :
  main_setup argv socket_res bind_res listen_res tt = Ok (Ready port workers s0 pool stats) tt → 1 ≤ workers ≤ 16 →
  Forall (λ l, going l = true) ls → run service_step ([Start; CallStop w; C 0] ++ ls) s0 = Some s →
  pool_start (Z.to_nat workers) pool ∧ Z.of_nat (length stats) = workers ∧
  Z.of_nat (length ls) ≤ 5 ∧
  ((∀ l, going l = true → service_step l s = None) →
   starter s = SReturned ∧ ∃ s', IOService_destroy s = Some s' ∧ length (acceptors_ s') = 1%nat ∧
     Forall (λ a, acc_closed a = [listen_fd_ a] ∧ accept_cb_ a = false) (acceptors_ s')).
Proof.
  intros Hm Hn Hls Hrun. pose proof (main_setup_cases argv socket_res bind_res listen_res) as Hc. rewrite Hm in Hc.
  destruct Hc as (prog & p & n & a & _ & _ & _ & _ & -> & Ha & _ & Hpool & ->). split.
  { exists ThreadLocal_init. split; [|done]. apply fresh_room. unfold MAXNUMOFTHREADS. lia. }
  split; [unfold RequestStats_init; rewrite length_replicate; lia|]. rewrite run_app in Hrun.
  destruct (run service_step [Start; CallStop w; C 0] (IOService_init [a])) as [s1|] eqn:H1; [|done]. cbn [mbind option_bind] in Hrun.
  assert (Hinv : sinv s1) by (apply (reachable_sinv [a]); [by apply Forall_singleton|by exists [Start; CallStop w; C 0]]).
  assert (Hs1 : serving s1 ∧ left_to_do s1 = 5).
  { destruct Ha as [[d Hd] _]. cbn in H1. unfold startAccept in H1. rewrite Hd in H1. destruct (readWhenReady d) as [d' ts]. cbn in H1.
    rewrite andb_false_r in H1. cbn in H1. injection H1 as <-. split; [|done]. split; [done|done| |done|by left].
    intros [|i] q Hq; cbn in Hq; [|done]. injection Hq as _ <-. by left. }
  destruct Hs1 as [Hs1 Hleft].
  destruct (run_bounded service_step serving (λ l, going l = true) left_to_do) with ls s1 s as [Hs Hb]; [|done..|].
  { intros l t t' Hl Ht Hl'. by apply (serving_step l t t'). }
  split.
  - assert (0 ≤ left_to_do s) by (unfold left_to_do; pose proof (call_left_nonneg (callers s)); destruct (starter s); cbn; lia). lia.
  - intros Hstuck. destruct (all_returned s (sg_inv _ Hs) (sg_req _ Hs) (sg_workers _ Hs) Hstuck) as (_ & Hp & Hq).
    assert (Hst : starter s = SReturned) by (by destruct (sg_start _ Hs) as [?|[?|?]]). split; [done|]. by apply destroy_ok.
Qed.

Lemma server_quits_witness :
  ∃ port workers s0 s pool stats,
    main_setup [bytes "server"; bytes "8000"; bytes "4"] 3 0 0 tt = Ok (Ready port workers s0 pool stats) tt ∧
    run service_step ([Start; CallStop true; C 0] ++ [C 0; PollEnds; C 0; C 0; StartReturns]) s0 = Some s ∧ starter s = SReturned.
Proof.
  do 6 eexists. split; [vm_compute; reflexivity|]. split; [vm_compute; reflexivity|].
  refine (proj1 (proj2 (proj2 (proj2 (server_quits [bytes "server"; bytes "8000"; bytes "4"] 3 0 0 8000 4 _ _ _ true
    [C 0; PollEnds; C 0; C 0; StartReturns] _ _ _ _ _))) _));
    [vm_compute; reflexivity|lia|by repeat constructor|vm_compute; reflexivity|].
  intros [| | |w|[|i]] Hg; try done; vm_compute; reflexivity.
Defined.
