(* ===== verification/Benchmarks.v ===== *)
(** * The benchmark programs

    The programs that time the components, as clients of their models: the thread
    pools ([thread_pool_benchmark.cpp]), callbacks ([callback_benchmark.cpp] with the
    [Counter] of [test_util.hpp]), the stream buffer ([buffer_benchmark.cpp]), memory
    allocation ([memalloc_benchmark.cpp]) and the sharing of cache lines
    ([false_sharing_benchmark.cpp]).  What is timed is not modelled, nor is the
    arithmetic with [double]s, whose results nobody reads; the theorems say that
    the programs do the work that they time. *)
From stdpp Require Import base numbers list gmap sorting.
From S2P Require Import Prelude Threads ThreadLocal ThreadPool ThreadPoolFast ThreadPoolNormal.
Open Scope Z_scope.

(** ** Integers that overflow *)

Definition int_ok (x : Z) : bool := (- 2 ^ 31 <=? x) && (x <? 2 ^ 31).
(** The result of a signed operation on [int]s. *)
Definition int_result {S} (x : Z) : M S Z := if int_ok x then mret x else fail IntOverflow.

Lemma int_ok_true x : - 2 ^ 31 ≤ x < 2 ^ 31 → int_ok x = true.
Proof. intros Hx. apply andb_true_iff. split; [apply Z.leb_le|apply Z.ltb_lt]; lia. Qed.

Lemma int_ok_false x : 2 ^ 31 ≤ x ∨ x < - 2 ^ 31 → int_ok x = false.
Proof. intros Hx. apply not_true_is_false. intros [H1%Z.leb_le H2%Z.ltb_lt]%andb_true_iff. lia. Qed.

Lemma int_result_ok {S} x (s : S) : - 2 ^ 31 ≤ x < 2 ^ 31 → int_result x s = Ok x s.
Proof. intros Hx. unfold int_result. by rewrite int_ok_true. Qed.

(** ** [thread_pool_benchmark.cpp] *)

Definition NUM_THREADS : nat := 24.
Definition NUM_CALLS : nat := Z.to_nat 40000.

(** The array [padded_counter], by the values of [i]; [new] leaves them indeterminate.  The
    padding and the floating-point number [d], which is never read, are left out. *)
Definition Counters : Type := list (option Z).
Definition Counters_new : Counters := replicate NUM_THREADS None.

Definition read_counter (j : nat) : M Counters Z := λ c,
  match c !! j with
  | Some (Some i) => Ok i c
  | Some None => Err Uninit
  | None => Err (OutOfBounds (Z.of_nat j))
  end.

(** [c.i++] *)
Definition count_up : M Counters Z :=
  i ← read_counter 0; i' ← int_result (i + 1); modify (<[0%nat := Some i']>);; mret i'.

Definition inc : M Counters unit := count_up;; mret tt.

(** The products [c.i * i] of the loop. *)
Fixpoint slow_loop (n : nat) (v i : Z) : M Counters unit :=
  match n with O => mret tt | S n' => int_result (v * i);; slow_loop n' v (i + 1) end.

Definition slowInc : M Counters unit := v ← count_up; slow_loop (Z.to_nat 10000) v 0.

(** The total and the counts that [print] puts out, from the counter [j] on. *)
Fixpoint print_loop (n j : nat) (total : Z) : M Counters (list Z * Z) :=
  match n with
  | O => mret ([], total)
  | S n' => i ← read_counter j; total' ← int_result (total + i); r ← print_loop n' (S j) total'; mret (i :: r.1, r.2)
  end.
Definition print : M Counters (list Z * Z) := print_loop NUM_THREADS 0 0.

(** [num_threads] of each round. *)
Fixpoint pool_sizes (fuel num_threads : nat) : list nat :=
  match fuel with
  | O => []
  | S fuel => if (num_threads <=? NUM_THREADS)%nat then num_threads :: pool_sizes fuel (num_threads + 4) else []
  end.

(** The calls of a client on its pool, in order: tasks added, and [stop()] by a caller. *)
Definition call_of (l : label) : option (task + option nat) :=
  match l with
  | AddTask t _ => Some (inl t)
  | Stop c => Some (inr c)
  | W _ | StopNext => None
  end.

(** One round of [FastConsumer] and [SlowConsumer]: the task is added [calls] times, which
    is [NUM_CALLS], the latter with pauses; then [stop()]. *)
Definition consumer_calls (calls : nat) (t : task) : list (task + option nat) := replicate calls (inl t) ++ [inr None].

(** What [main] runs, for [argc] and the number in [argv[1]]: slow or fast consumer, and on
    the fast pool or not; [None] when it prints the usage. *)
Definition bench_main (argc i : Z) : option (list (bool * bool)) :=
  let go (all : bool) (num : list bool) :=
    let on k := all || nth k num false in
    Some ((if on 0%nat then [(false, false)] else []) ++ (if on 1%nat then [(false, true)] else []) ++
          (if on 0%nat then [(true, false)] else []) ++ (if on 1%nat then [(true, true)] else [])) in
  if argc =? 1 then go true (replicate 4 false)
  else if argc =? 2 then
    if (0 <? i) && (i <=? 4) then go false (<[Z.to_nat (i - 1) := true]> (replicate 4 false)) else None
  else None.

(** The usage knows 1 and 2, and no argument for both; 3 and 4 are accepted and nothing is run. *)
Lemma bench_main_cases i :
  bench_main 1 i = Some [(false, false); (false, true); (true, false); (true, true)] ∧
  bench_main 2 1 = Some [(false, false); (true, false)] ∧ bench_main 2 2 = Some [(false, true); (true, true)] ∧
  bench_main 2 3 = Some [] ∧ bench_main 2 4 = Some [].
Proof. done. Qed.

(** The counters are used before they are set. *)
Lemma inc_uninit : inc Counters_new = Err Uninit.
Proof. done. Qed.

Lemma read_counter_ok j i c : c !! j = Some (Some i) → read_counter j c = Ok i c.
Proof. unfold read_counter. by intros ->. Qed.

Lemma count_up_ok i c : c !! 0%nat = Some (Some i) → 0 ≤ i < 2 ^ 31 - 1 → count_up c = Ok (i + 1) (<[0%nat := Some (i + 1)]> c).
Proof. intros Hc Hi. unfold count_up. rewrite (bind_ok _ _ _ _ _ (read_counter_ok _ _ _ Hc)). by rewrite (bind_ok _ _ _ _ _ (int_result_ok (i + 1) c ltac:(lia))). Qed.

Lemma slow_loop_ok n v i (c : Counters) : 0 ≤ v → 0 ≤ i → v * (i + Z.of_nat n - 1) < 2 ^ 31 → slow_loop n v i c = Ok tt c.
Proof.
  revert i. induction n as [|n IH]; intros i Hv Hi Hp; [done|]. cbn [slow_loop]. rewrite (bind_ok _ _ c (v * i) c) by (apply int_result_ok; nia).
  apply IH; [lia..|]. nia.
Qed.

(** The products fit for as many calls as there are, counted from zero. *)
Lemma slowInc_fits i c : c !! 0%nat = Some (Some i) → 0 ≤ i < Z.of_nat NUM_CALLS → slowInc c = Ok tt (<[0%nat := Some (i + 1)]> c).
Proof.
  intros Hc Hi. unfold slowInc. change (Z.of_nat NUM_CALLS) with 40000 in Hi. rewrite (bind_ok _ _ _ _ _ (count_up_ok i c Hc ltac:(lia))).
  apply slow_loop_ok; [lia..|]. rewrite Z2Nat.id by lia. nia.
Qed.

Lemma slow_loop_overflow n v i (c : Counters) : 0 ≤ v → 0 ≤ i → 2 ^ 31 ≤ v * (i + Z.of_nat n - 1) → (0 < n)%nat → slow_loop n v i c = Err IntOverflow.
Proof.
  revert i. induction n as [|n IH]; intros i Hv Hi Hp Hn; [lia|]. cbn [slow_loop]. destruct (int_ok (v * i)) eqn:E.
  - rewrite (bind_ok _ _ c (v * i) c) by (unfold int_result; by rewrite E). destruct n as [|n].
    + apply andb_true_iff in E as [_ E%Z.ltb_lt]. nia.
    + apply IH; [lia..|nia|lia].
  - unfold mbind, M_bind, int_result. by rewrite E.
Qed.

(** With the larger number of calls that the source has in a comment the products would
    overflow. *)
Lemma slowInc_overflows i c : c !! 0%nat = Some (Some i) → 214769 ≤ i < 400000 → slowInc c = Err IntOverflow.
Proof.
  intros Hc Hi. unfold slowInc. rewrite (bind_ok _ _ _ _ _ (count_up_ok i c Hc ltac:(lia))).
  apply slow_loop_overflow; [lia..| |lia]. rewrite Z2Nat.id by lia. nia.
Qed.

(** *** Every task is run *)

Section consumer.
Context {S : Type} `{PoolLaws S} `{!PoolAccounts S}.

Lemma run_added ls s s' : run pool_step ls s = Some s' →
  omap id (pool_added s') = omap id (pool_added s) ++ concat (task_of <$> ls).
Proof.
  revert s. induction ls as [|l ls IH]; intros s Hr; cbn in Hr; [injection Hr as <-; by rewrite app_nil_r|].
  destruct (pool_step l s) as [s1|] eqn:E; [|done]. rewrite (IH s1 Hr), (accounts_step l s s1 E). cbn. by rewrite <- app_assoc.
Qed.

Lemma run_quiet ls s s' : run pool_step ls s = Some s' → omap call_of ls = [] →
  pool_caller s' = pool_caller s ∧ pool_before s' = pool_before s.
Proof.
  revert s. induction ls as [|l ls IH]; intros s Hr Hc; cbn in Hr; [by injection Hr as <-|].
  destruct (pool_step l s) as [s1|] eqn:E; [|done]. pose proof (accounts_stop l s s1 E) as Ha.
  destruct l; cbn in Hc; try done; destruct (IH s1 Hr Hc) as [-> ->]; done.
Qed.

Lemma run_calls ls s s' t k c : run pool_step ls s = Some s' → omap call_of ls = replicate k (inl t) ++ [inr c] →
  pool_caller s' = Some c ∧ omap id (pool_before s') = omap id (pool_added s) ++ replicate k t ∧
  concat (task_of <$> ls) = replicate k t.
Proof.
  revert s k. induction ls as [|l ls IH]; intros s k Hr Hc; cbn in Hr; [by destruct k|].
  destruct (pool_step l s) as [s1|] eqn:E; [|done]. pose proof (accounts_stop l s s1 E) as Hs. pose proof (accounts_step l s s1 E) as Ha.
  destruct l as [u wk|i|d|]; cbn in Hc.
  - destruct k as [|k]; [done|]. injection Hc as -> Hc. destruct (IH s1 k Hr Hc) as (H1 & H2 & H3). split_and!; [done| |by cbn; rewrite H3].
    rewrite H2, Ha. cbn. by rewrite <- app_assoc.
  - destruct (IH s1 k Hr Hc) as (H1 & H2 & H3). split_and!; [done| |done]. by rewrite H2, Ha, app_nil_r.
  - destruct k as [|k]; [|done]. injection Hc as -> Hc. destruct Hs as (_ & Hs1 & Hs2). destruct (run_quiet ls s1 s' Hr Hc) as [-> ->].
    split_and!; [done|by rewrite Hs2, app_nil_r|]. clear -Hc. induction ls as [|l ls IH]; [done|]. destruct l; cbn in *; try done; auto.
  - destruct (IH s1 k Hr Hc) as (H1 & H2 & H3). split_and!; [done| |done]. by rewrite H2, Ha, app_nil_r.
Qed.

(** C27: what a round of the benchmark of the thread pools times.  On the normal pool
    with every number of workers of the benchmark (4 to 24), and on the fast pool
    with those for which the 16 slots of [worker_num_] suffice, the workers of all fast
    pools of the process counted, in every order of their steps: when the client has
    added its task as often as it wants ([NUM_CALLS], that is 40000 times) and called
    [stop()], and the pool is at rest, then [stop()] has returned and the task has been
    run exactly as often as it was added.  The condition on the fast pool is part of
    [pool_start]; it holds for the first two rounds ([second_round]) and
    fails in the third ([third_round]). *)
Theorem consumer_exact calls n s0 ls s t :
  pool_start n s0 → n ∈ pool_sizes 7 4 → run pool_step ls s0 = Some s → omap call_of ls = consumer_calls calls t →
  (∀ l, internal l = true → pool_step l s = None) →
  pool_stopped s ∧ omap id (pool_begun s) = replicate calls t.
Proof.
  intros Hst0 Hn Hr Hc Hrest. assert (Hpos : (0 < n)%nat) by (cbn in Hn; set_solver by lia).
  destruct (accounts_start n s0 Hst0) as [Hadd0 _]. destruct (run_calls ls s0 s t calls None Hr Hc) as (Hcall & Hbef & Htasks).
  destruct (pool_drains n s0 s None Hst0 Hpos ltac:(by exists ls) Hcall ltac:(by left) Hrest) as [Hstop Hsub].
  destruct (pool_conserves n s0 s Hst0 ltac:(by exists ls)) as (hand & Hcons & _). split; [done|].
  rewrite Hadd0 in Hbef. cbn in Hbef. pose proof (run_added ls s0 s Hr) as Hadd. rewrite Hadd0, Htasks in Hadd. cbn in Hadd.
  assert (Hperm : omap id (pool_begun s) ≡ₚ replicate calls t).
  { apply (anti_symm submseteq).
    - rewrite <- Hadd. rewrite Hcons, omap_app. by apply submseteq_inserts_r.
    - rewrite <- Hbef. apply submseteq_Permutation in Hsub as (k & ->). rewrite omap_app. by apply submseteq_inserts_r. }
  apply Permutation_sym, replicate_Permutation in Hperm. done.
Qed.
End consumer.

(** Four workers, three calls: everybody takes a task or the request to stop. *)
Definition ex_consume : list label :=
  [AddTask 7 0; AddTask 7 0; AddTask 7 0; Stop None]%nat ++ replicate 5 StopNext ++ [W 0; W 1; W 2; W 3; W 0; W 0; W 1; W 2; W 3]%nat ++
  concat (replicate 5 [W 1; W 2; W 3]%nat) ++ replicate 5 StopNext.

Definition ex_consume_state (p : ThreadPoolFast.Pool) : ThreadPoolFast.Pool := default p (run fast_step ex_consume p).

Definition ex_pool : ThreadPoolFast.Pool :=
  ThreadPoolFast.mkPool [] [3; 2; 1; 0]%nat (replicate 4 Worker_init) None [] [] [] [] ThreadLocal_init.
Definition ex_done : ThreadPoolFast.Pool := Eval vm_compute in ex_consume_state ex_pool.

Lemma ex_pool_start : pool_start 4 ex_pool.
Proof. exists ThreadLocal_init. split; [apply fresh_room; unfold MAXNUMOFTHREADS; lia|vm_compute; reflexivity]. Qed.

Lemma ex_pool_run : run fast_step ex_consume ex_pool = Some ex_done.
Proof. vm_compute. reflexivity. Qed.

Lemma ex_pool_rest l : internal l = true → fast_step l ex_done = None.
Proof. destruct l as [t k|[|[|[|[|j]]]]|c|]; intros Hl; try discriminate Hl; reflexivity. Qed.

Lemma consumer_exact_witness : omap id (ThreadPoolFast.consumed ex_done) = replicate 3 7%nat.
Proof.
  refine (proj2 (consumer_exact 3 4 ex_pool ex_consume ex_done 7%nat ex_pool_start _ ex_pool_run _ ex_pool_rest)).
  - left.
  - reflexivity.
Defined.

(** The second round finds room: after any run of the first one, eight workers
    can be numbered. *)
Lemma second_round p0 p : ThreadPoolFast_init ThreadLocal_init 4 = Some p0 → reachable fast_step p0 p → room (worker_num_ p) 8.
Proof. intros Hi Hr. apply numbered_room, (fast_numbered 8 ThreadLocal_init 4 p0 p); [|done..]. apply fresh_room. unfold MAXNUMOFTHREADS. lia. Qed.

(** The third round, in which twelve workers are started after the twelve of the first
    two: the fifth of them writes behind [worker_num_]. *)
Lemma third_round : ∃ vs tl p w,
  local_run (((λ t, ThreadLocal.Set_ t (Z.of_nat t)) <$> seq 0 12) ++ (ThreadLocal.Exit <$> seq 0 12)) ThreadLocal_init = Ok vs tl ∧
  ThreadPoolFast_init tl 12 ≫= run fast_step (W <$> seq 0 12) = Some p ∧
  ThreadPoolFast.workers_tids_ p !! 4%nat = Some w ∧ ThreadPoolFast.at_ w = ThreadPoolFast.Overrun.
Proof. eexists _, _, _, _. split; [vm_compute; reflexivity|]. split; [vm_compute; reflexivity|]. by split. Qed.

(** ** [false_sharing_benchmark.cpp] *)

Definition LIMIT : nat := 24.
(** [Vec], by the values; the object on the stack of [main] is not initialised. *)
Definition Vec_new : Counters := replicate LIMIT None.

(** [val *= 3], [n] times, in the slot of the worker. *)
Fixpoint triple_loop (n : nat) (worker_num : nat) : M Counters unit :=
  match n with
  | O => mret tt
  | S n' => v ← read_counter worker_num; v' ← int_result (v * 3); modify (<[worker_num := Some v']>);; triple_loop n' worker_num
  end.

(** [Adder::add], after the barrier. *)
Definition Adder_add (worker_num : nat) : M Counters unit := triple_loop (Z.to_nat 10000000) worker_num.

(** The vector is used before it is set. *)
Lemma add_uninit worker_num : (worker_num < LIMIT)%nat → Adder_add worker_num Vec_new = Err Uninit.
Proof.
  intros Hw. unfold Adder_add. destruct (Z.to_nat 10000000) as [|n] eqn:E; [lia|]. cbn [triple_loop]. unfold mbind, M_bind, read_counter.
  unfold Vec_new, Counters. rewrite lookup_replicate_2 by done. done.
Qed.

(** A worker touches no slot but its own. *)
Lemma add_frame n w c c' j : triple_loop n w c = Ok tt c' → j ≠ w → c' !! j = c !! j.
Proof.
  revert c. induction n as [|n IH]; intros c Hr Hj; [by injection Hr as <-|]. cbn [triple_loop] in Hr.
  apply bind_inv in Hr as (v & c1 & H1 & Hr). unfold read_counter in H1. destruct (c !! w) as [[]|]; try done. injection H1 as <- <-.
  apply bind_inv in Hr as (v' & c2 & H2 & Hr). unfold int_result in H2. destruct (int_ok _); [|done]. injection H2 as <- <-.
  apply bind_inv in Hr as ([] & c3 & [= <-] & Hr). rewrite (IH _ Hr Hj). by apply list_lookup_insert_ne.
Qed.

(** From any value but zero the product leaves the range of [int] after at most 20 rounds. *)
Lemma triple_overflow n w v c : c !! w = Some (Some v) → v ≠ 0 → 2 ^ 31 < Z.abs v * 3 ^ Z.of_nat n → triple_loop n w c = Err IntOverflow ∨ ¬ int_ok v.
Proof.
  revert v c. induction n as [|n IH]; intros v c Hc Hv Hp.
  { right. intros H%Is_true_true. apply andb_true_iff in H as [H1%Z.leb_le H2%Z.ltb_lt]. change (3 ^ Z.of_nat 0) with 1 in Hp. lia. }
  destruct (int_ok v) eqn:Ev; [left|right; by intros []]. cbn [triple_loop]. rewrite (bind_ok _ _ _ _ _ (read_counter_ok _ _ _ Hc)).
  destruct (int_ok (v * 3)) eqn:E; [|unfold mbind, M_bind, int_result; by rewrite E].
  rewrite (bind_ok _ _ c (v * 3) c) by (unfold int_result; by rewrite E). unfold modify at 1. rewrite (bind_ok _ _ c tt (<[w := Some (v * 3)]> c)) by done.
  destruct (IH (v * 3) (<[w := Some (v * 3)]> c)) as [?|Hn]; [|lia| |done|].
  - apply list_lookup_insert_eq. by eapply lookup_lt_Some.
  - rewrite Z.abs_mul. rewrite Nat2Z.inj_succ, Z.pow_succ_r in Hp by lia. change (Z.abs 3) with 3. nia.
  - destruct Hn. by apply Is_true_true.
Qed.

(** The default size of the sequence is far beyond that. *)
Lemma add_overflows w v c : c !! w = Some (Some v) → v ≠ 0 → int_ok v = true → Adder_add w c = Err IntOverflow.
Proof.
  intros Hc Hv Hi. destruct (triple_overflow (Z.to_nat 10000000) w v c Hc Hv) as [?|Hn]; [|done|destruct Hn; by apply Is_true_true].
  apply Z.lt_le_trans with (1 * 3 ^ 20); [done|]. apply Z.mul_le_mono_nonneg; [lia|lia|lia|]. apply Z.pow_le_mono_r; lia.
Qed.
