(* ===== verification/BufferBench.v ===== *)
(** * The benchmark of the stream buffer: [buffer_benchmark.cpp]

    The program fills two buffers with ["x"], byte by byte, and iterates over them; what
    it times is as many calls of [next()] as there are bytes. *)
From stdpp Require Import base numbers list gmap.
From S2P Require Import Prelude Buffer BufferSpec.
Open Scope Z_scope.

(** [FixtureBuffer(len)] *)
Fixpoint fill (len : nat) : M Buffer unit :=
  match len with O => mret tt | S n => write [120];; fill n end.

Definition FixtureBuffer (len : Z) : res Buffer unit := fill (Z.to_nat len) Buffer_init.

(** [while (!it.eob()) it.next();], with the number of rounds. *)
Fixpoint iterate (fuel : nat) (it : Iterator) (rounds : Z) : M Buffer Z :=
  match fuel with
  | O => fail OutOfFuel
  | S fuel => b ← get; if eob b it then mret rounds else it' ← next it; iterate fuel it' (rounds + 1)
  end.

(** The body of the timed loops. *)
Definition scan (fuel : nat) : M Buffer Z := it ← begin_; iterate fuel it 0.

(** [SingleChunk] and [MultipleChunk]: [times] scans of one buffer; the calls of [next()]. *)
Fixpoint scans (times fuel : nat) : M Buffer Z :=
  match times with O => mret 0 | S n => r ← scan fuel; q ← scans n fuel; mret (r + q) end.

Definition single_len : Z := 1500.
Definition multiple_len : Z := BlockSize * 2.

Lemma fill_ok n b l : holds b l → ∃ b', fill n b = Ok tt b' ∧ holds b' (l ++ replicate n 120) ∧ rpos_ b' = rpos_ b.
Proof.
  revert b l. induction n as [|n IH]; intros b l Hb; [exists b; by rewrite app_nil_r|].
  destruct (write_ok b l [120] Hb) as (b1 & Hw & Hb1 & Hr1). destruct (IH b1 _ Hb1) as (b' & Hf & Hb' & Hr').
  exists b'. cbn [fill]. rewrite (bind_ok _ _ _ _ _ Hw). split_and!; [done| |congruence].
  by rewrite <- app_assoc in Hb'.
Qed.

Lemma iterate_ok fuel b it l rounds : irep b it l → (length l < fuel)%nat → iterate fuel it rounds b = Ok (rounds + Z.of_nat (length l)) b.
Proof.
  revert it l rounds. induction fuel as [|fuel IH]; intros it l rounds Hit Hl; [lia|]. cbn [iterate].
  rewrite (bind_ok _ _ b b b) by done. rewrite (eob_ok b it l Hit). destruct l as [|x l].
  - rewrite decide_True by done. cbn. rewrite Z.add_0_r. done.
  - rewrite decide_False by done. destruct (next_ok b it x l Hit) as (it1 & Hn & Hit1 & _). rewrite (bind_ok _ _ _ _ _ Hn).
    cbn in Hl. rewrite (IH it1 l (rounds + 1) Hit1) by lia. cbn. f_equal. lia.
Qed.

(** Nothing was read: the buffer begins with its first chunk, which is not empty. *)
Lemma ready_unread b x l : holds b (x :: l) → rpos_ b = mkPos 0 0 → ready b.
Proof.
  intros (ini & lst & Hb & Hc) Hr. destruct (readSize_eq Hb) as (d & Hd & Ho & Hrs). rewrite Hr in *. exists (Z.of_nat (length d) - 0). split; [exact Hrs|].
  left. cbn in *. destruct d as [|y d]; [|cbn; lia]. destruct ini as [|e ini]; cbn in Hd.
  - injection Hd as ->. done.
  - injection Hd as ->. pose proof (br_inner _ _ _ Hb) as [Hne _]%Forall_cons. done.
Qed.

(** The benchmark does what it times: filling the buffer succeeds, every scan calls [next()]
    once for each byte, ends, and leaves the buffer as it was. *)
Lemma scan_exact len times fuel : 0 < len < 2 ^ 63 → (Z.to_nat len < fuel)%nat →
  ∃ b, FixtureBuffer len = Ok tt b ∧ scans times fuel b = Ok (Z.of_nat times * len) b.
Proof.
  intros Hl Hf. unfold FixtureBuffer. destruct (fill_ok (Z.to_nat len) Buffer_init [] holds_init) as (b & Hb & Hh & Hr). exists b. split; [done|].
  cbn [app] in Hh. assert (Hready : ready b).
  { destruct (Z.to_nat len) as [|n] eqn:E; [lia|]. by eapply (ready_unread b 120 (replicate n 120)). }
  assert (Hs : scan fuel b = Ok len b).
  { destruct (begin_ok b _ Hh Hready) as (it & Hbeg & Hit & _); [by rewrite Hr|rewrite length_replicate; lia|].
    unfold scan. rewrite (bind_ok _ _ _ _ _ Hbeg), (iterate_ok fuel b it _ 0 Hit) by (by rewrite length_replicate).
    rewrite length_replicate. f_equal. lia. }
  induction times as [|n IH]; [done|]. cbn [scans]. rewrite (bind_ok _ _ _ _ _ Hs), (bind_ok _ _ _ _ _ IH). unfold mret, M_ret. f_equal. lia.
Qed.
(** How many chunks a buffer has. *)
Definition chunk_count (r : res Buffer unit) : nat := match r with Ok _ b => length (chunks_ b) | Err _ => 0 end.

(** The first buffer has a single chunk; the second two full ones and an empty one. *)
Lemma fixture_chunks : chunk_count (FixtureBuffer single_len) = 1%nat ∧ chunk_count (FixtureBuffer multiple_len) = 3%nat.
Proof. split; vm_compute; reflexivity. Qed.
