(* ===== verification/CallbackBench.v ===== *)
(** * The benchmark of callbacks: [callback_benchmark.cpp], [test_util.hpp]

    [SimpleCall] increments four counters in four ways: directly, through a function
    object of the standard library (whose call is the call of the member function),
    through call-once callbacks made in advance, and through one call-many callback. *)
From stdpp Require Import base numbers list gmap.
From S2P Require Import Prelude ThreadLocal Callback.
Open Scope Z_scope.

(** ** [Counter] *)

Record Counter : Type := mkCounter { count_ : Z }.
Definition Counter_reset : Counter := mkCounter 0.
Definition Counter_init : Counter := Counter_reset.
Definition Counter_set (i : Z) : Counter := mkCounter i.
(** [++count_] and [count_ += i] are operations on [int]s. *)
Definition Counter_incBy (i : Z) (c : Counter) : option Counter :=
  let x := count_ c + i in if (- 2 ^ 31 <=? x) && (x <? 2 ^ 31) then Some (mkCounter x) else None.
Definition Counter_inc (c : Counter) : option Counter := Counter_incBy 1 c.
Definition Counter_between (i j : Z) (c : Counter) : bool :=
  if count_ c <? i then false else if j <? count_ c then false else true.

Lemma Counter_between_spec i j c : Counter_between i j c = true ↔ i ≤ count_ c ≤ j.
Proof. unfold Counter_between. destruct (Z.ltb_spec (count_ c) i); [split; [done|lia]|]. destruct (Z.ltb_spec j (count_ c)); split; try done; lia. Qed.

(** ** [SimpleCall] *)

Abbreviation BW := (World (list Counter)).

(** [inc] as a member function of the counter [j] of the array. *)
Definition inc_at (j : nat) : M BW unit := λ w,
  match prog w !! j with
  | None => Err (OutOfBounds (Z.of_nat j))
  | Some c => match Counter_inc c with
              | Some c' => Ok tt (mkWorld (<[j := c']> (prog w)) (live w) (next_id w))
              | None => Err IntOverflow
              end
  end.

Fixpoint times (n : nat) (c : M BW unit) : M BW unit :=
  match n with O => mret tt | S n' => c;; times n' c end.

(** The array [cb2] of call-once callbacks. *)
Fixpoint make_all (n : nat) : M BW (list (Callback0 (list Counter) unit)) :=
  match n with
  | O => mret []
  | S n' => p ← makeCallableOnce_0_0 inc_at 2%nat; l ← make_all n'; mret (p.2 :: l)
  end.

Fixpoint call_all (cbs : list (Callback0 (list Counter) unit)) : M BW unit :=
  match cbs with [] => mret tt | cb :: l => operator0 cb;; call_all l end.

Definition SimpleCall (REPEATS : nat) : M BW unit :=
  times REPEATS (inc_at 0);;
  times REPEATS (inc_at 1);;
  cb2 ← make_all REPEATS;
  call_all cb2;;
  cb3 ← makeCallableMany_0_0 inc_at 3%nat;
  times REPEATS (operator0 cb3.2);;
  delete_ cb3.1.

(** [REPEATS] of the program. *)
Definition REPEATS : nat := Z.to_nat 1000000.

Definition counted (j : nat) (v : Z) (w : BW) : BW := mkWorld (<[j := mkCounter v]> (prog w)) (live w) (next_id w).

Lemma inc_at_ok j v w : prog w !! j = Some (mkCounter v) → 0 ≤ v < 2 ^ 31 - 1 → inc_at j w = Ok tt (counted j (v + 1) w).
Proof.
  intros Hj Hv. unfold inc_at. rewrite Hj. unfold Counter_inc, Counter_incBy. cbn.
  destruct (Z.leb_spec (- 2 ^ 31) (v + 1)); [|lia]. destruct (Z.ltb_spec (v + 1) (2 ^ 31)); [|lia]. done.
Qed.

Lemma counted_lookup j v w : (j < length (prog w))%nat → prog (counted j v w) !! j = Some (mkCounter v).
Proof. intros Hj. by apply list_lookup_insert_eq. Qed.

Lemma counted_twice j v v' w : counted j v' (counted j v w) = counted j v' w.
Proof. unfold counted. cbn. by rewrite list_insert_insert_eq. Qed.

Lemma counted_same j v w : prog w !! j = Some (mkCounter v) → counted j v w = w.
Proof. intros Hj. unfold counted. rewrite list_insert_id by done. by destruct w. Qed.

(** A call that counts once, repeated. *)
Lemma times_counts n (c : M BW unit) j v w (I : BW → Prop) :
  (∀ u w1, I w1 → prog w1 !! j = Some (mkCounter u) → 0 ≤ u < 2 ^ 31 - 1 → c w1 = Ok tt (counted j (u + 1) w1)) →
  (∀ u w1, I w1 → I (counted j u w1)) →
  I w → prog w !! j = Some (mkCounter v) → 0 ≤ v → v + Z.of_nat n < 2 ^ 31 →
  times n c w = Ok tt (counted j (v + Z.of_nat n) w).
Proof.
  intros Hc HI. revert v w. induction n as [|n IH]; intros v w Hw Hj Hv Hn; cbn [times].
  - rewrite Z.add_0_r, counted_same by done. done.
  - rewrite (bind_ok _ _ _ _ _ (Hc v w Hw Hj ltac:(lia))). rewrite (IH (v + 1)); [|by apply HI| |lia..].
    + rewrite counted_twice. do 2 f_equal. lia.
    + apply counted_lookup. by eapply lookup_lt_Some.
Qed.

Definition cb_of (p : nat) : Callback0 (list Counter) unit := CallableOnce_0_0 inc_at 2%nat p.

Lemma make_all_ok n w : make_all n w =
  Ok (cb_of <$> seq (next_id w) n) (mkWorld (prog w) (list_to_set (seq (next_id w) n) ∪ live w) (next_id w + n)).
Proof.
  revert w. induction n as [|n IH]; intros w; cbn [make_all].
  - cbn. rewrite (left_id_L ∅ (∪)), Nat.add_0_r. by destruct w.
  - unfold makeCallableOnce_0_0. rewrite bind_bind. rewrite (bind_ok _ _ w (next_id w) (with_new w)) by done.
    rewrite (bind_ok _ _ (with_new w) (next_id w, cb_of (next_id w)) (with_new w)) by done.
    rewrite (bind_ok _ _ _ _ _ (IH (with_new w))). unfold mret, M_ret. cbn. f_equal. f_equal; [|lia].
    by rewrite (assoc_L (∪)), (comm_L (∪) {[next_id w]}).
Qed.

Lemma call_all_ok ids v w : NoDup ids → (∀ p, p ∈ ids → p ∈ live w) → prog w !! 2%nat = Some (mkCounter v) → 0 ≤ v →
  v + Z.of_nat (length ids) < 2 ^ 31 →
  call_all (cb_of <$> ids) w =
    Ok tt (mkWorld (<[2%nat := mkCounter (v + Z.of_nat (length ids))]> (prog w)) (live w ∖ list_to_set ids) (next_id w)).
Proof.
  revert v w. induction ids as [|p ids IH]; intros v w Hnd Hl Hv Hv0 Hn.
  { cbn. rewrite Z.add_0_r, list_insert_id, difference_empty_L by done. by destruct w. }
  apply NoDup_cons in Hnd as [Hp Hnd]. rewrite fmap_cons. cbn [call_all length] in *.
  assert (Hcall : operator0 (cb_of p) w = Ok tt (without p (counted 2 (v + 1) w))).
  { unfold cb_of, CallableOnce_0_0. cbn. change (invoke true p (inc_at 2) w = Ok tt (without p (counted 2 (v + 1) w))).
    rewrite invoke_live by (apply Hl; left). rewrite (inc_at_ok 2 v w Hv) by lia. rewrite decide_True by (cbn; apply Hl; left). done. }
  rewrite (bind_ok _ _ _ _ _ Hcall). rewrite (IH (v + 1)); [|done| |by apply counted_lookup; eapply lookup_lt_Some|lia..].
  - cbn. rewrite list_insert_insert_eq. f_equal. f_equal; [do 2 f_equal; lia|]. set_solver.
  - intros q Hq. cbn. apply elem_of_difference. split; [apply Hl; by right|]. rewrite elem_of_singleton. by intros ->.
Qed.

(** All four ways count alike: after [SimpleCall] each counter has the number of repetitions,
    every call-once callback has been used up and the other one deleted. *)
Lemma simple_call_counts n w : wf w → prog w = replicate 4 Counter_init → Z.of_nat n < 2 ^ 31 →
  ∃ w', SimpleCall n w = Ok tt w' ∧ prog w' = replicate 4 (mkCounter (Z.of_nat n)) ∧ live w' = live w.
Proof.
  intros Hwf Hw Hn. set (N := Z.of_nat n) in *.
  assert (Hinc : ∀ j v w1, prog w1 !! j = Some (mkCounter v) → 0 ≤ v → v + N < 2 ^ 31 → times n (inc_at j) w1 = Ok tt (counted j (v + N) w1)).
  { intros j v w1 Hj Hv Hlt. apply (times_counts n (inc_at j) j v w1 (λ _, True)); try done. intros u w2 _. apply inc_at_ok. }
  unfold SimpleCall. rewrite (bind_ok _ _ _ _ _ (Hinc 0%nat 0 w ltac:(by rewrite Hw) ltac:(lia) ltac:(lia))).
  set (w1 := counted 0 (0 + N) w). assert (Hw1 : prog w1 = [mkCounter (0 + N); Counter_init; Counter_init; Counter_init]) by (subst w1; cbn; by rewrite Hw).
  rewrite (bind_ok _ _ _ _ _ (Hinc 1%nat 0 w1 ltac:(by rewrite Hw1) ltac:(lia) ltac:(lia))).
  set (w2 := counted 1 (0 + N) w1). assert (Hw2 : prog w2 = [mkCounter (0 + N); mkCounter (0 + N); Counter_init; Counter_init]) by (subst w2; cbn [counted prog]; by rewrite Hw1).
  rewrite (bind_ok _ _ _ _ _ (make_all_ok n w2)). change (next_id w2) with (next_id w). change (live w2) with (live w).
  set (ids := seq (next_id w) n). set (w3 := mkWorld (prog w2) (list_to_set ids ∪ live w) (next_id w + n)).
  rewrite (bind_ok _ _ _ _ _ (call_all_ok ids 0 w3 (NoDup_seq _ _) ltac:(cbn; set_solver) ltac:(change (prog w3) with (prog w2); by rewrite Hw2) ltac:(lia) ltac:(unfold ids; rewrite length_seq; lia))).
  replace (length ids) with n by (unfold ids; by rewrite length_seq). change (Z.of_nat n) with N.
  change (prog w3) with (prog w2). change (live w3) with (list_to_set ids ∪ live w). change (next_id w3) with (next_id w + n)%nat.
  assert (Hlive : (list_to_set ids ∪ live w) ∖ list_to_set ids = live w).
  { apply set_eq. intros p. rewrite elem_of_difference, elem_of_union, elem_of_list_to_set. unfold ids. rewrite elem_of_seq.
    split; [tauto|]. intros Hp. pose proof (Hwf p Hp). split; [by right|lia]. }
  rewrite Hlive, Hw2. cbn [insert list_insert]. set (w4 := mkWorld _ (live w) (next_id w + n)).
  unfold makeCallableMany_0_0. rewrite bind_bind. rewrite (bind_ok _ _ w4 (next_id w4) (with_new w4)) by done.
  rewrite (bind_ok _ _ (with_new w4) (next_id w4, CallableMany_0_0 inc_at 3%nat (next_id w4)) (with_new w4)) by done. cbn [fst snd].
  assert (Hmany : times n (operator0 (CallableMany_0_0 inc_at 3%nat (next_id w4))) (with_new w4) = Ok tt (counted 3 (0 + N) (with_new w4))).
  { apply (times_counts n _ 3%nat 0 _ (λ w5, next_id w4 ∈ live w5)); [|done|cbn; set_solver|done|lia|lia].
    intros u w5 Hl Hj Hu. change (invoke false (next_id w4) (inc_at 3) w5 = Ok tt (counted 3 (u + 1) w5)).
    rewrite invoke_live by done. by rewrite (inc_at_ok 3 u w5 Hj Hu). }
  rewrite (bind_ok _ _ _ _ _ Hmany). rewrite delete_live by (cbn; set_solver). eexists. split; [done|]. split; [done|].
  cbn. assert (next_id w + n ∉ live w)%nat by (intros Hin%Hwf; lia). set_solver.
Qed.

(** The number of repetitions of the program is small enough. *)
Lemma REPEATS_fits : Z.of_nat REPEATS < 2 ^ 31.
Proof. unfold REPEATS. rewrite Z2Nat.id; lia. Qed.
