(* ===== verification/MemBench.v ===== *)
(** * The benchmark of the allocators: [memalloc_benchmark.cpp]

    For block sizes 2^6, 2^8, ..., 2^20 the program runs a hundred rounds; in a round
    every thread runs the memory test of [BinsMgr] on its own bins.  Modelled are the
    tests of a round, the sum of the times and their average, and the loop over the
    sizes; the time stamps are given.  The threads wait for each other at a barrier
    ([Barrier]), and each runs [MallocTest]. *)
From stdpp Require Import base numbers list.
From S2P Require Import Prelude BinsMgr BinsMgrSpec.
Open Scope Z_scope.

(** The arguments with which a test is constructed. *)
Record Tester : Type := mkTester { perbinsize : Z; bins : Z; imax : Z; seed : Z }.

Definition rounds : nat := 100.

Definition testers (N_THREADS : nat) (maxsizeperbin numbins : Z) : list Tester :=
  (λ j, mkTester maxsizeperbin numbins 10000 (Z.of_nat j + Z.of_nat rounds)) <$> seq 0 N_THREADS.

(** [total] after the rounds, for the time stamps before and after each. *)
Fixpoint total_ticks (i : nat) (clock : nat → Z * Z) (total : Z) : Z :=
  match i with
  | O => total
  | S i' => let '(start, stop) := clock (rounds - i)%nat in
            total_ticks i' clock (wrap64 (total + wrap64 (stop - start)))
  end.

(** The tests of each round and the average; the number of bins is a quotient of unsigned
    numbers whose divisor may be 0, and an array with a negative number of elements cannot be made. *)
Definition memAllocBenchmark (N_THREADS maxsizeperbin : Z) (clock : nat → Z * Z) : fault + (list Tester * Z) :=
  if wrap64 (to_int32 (N_THREADS * maxsizeperbin)) =? 0 then inl DivByZero else
  if N_THREADS <? 0 then inl OutOfMemory else
  inr (testers (Z.to_nat N_THREADS) maxsizeperbin (numbins N_THREADS maxsizeperbin),
       total_ticks rounds clock 0 `div` Z.of_nat rounds).

(** The loop over the sizes, and the lines it prints; it ends at the first fault. *)
Fixpoint size_loop (fuel : nat) (N_THREADS allocsize : Z) (clock : Z → nat → Z * Z) : list (Z * (fault + (list Tester * Z))) :=
  match fuel with
  | O => []
  | S fuel' =>
      if allocsize <=? 20 then
        match memAllocBenchmark N_THREADS (Z.shiftl 1 allocsize) (clock allocsize) with
        | inl e => [(allocsize, inl e)]
        | inr r => (allocsize, inr r) :: size_loop fuel' N_THREADS (allocsize + 2) clock
        end
      else []
  end.

Definition varyAllocSize (N_THREADS : Z) (clock : Z → nat → Z * Z) : list (Z * (fault + (list Tester * Z))) :=
  size_loop 15 N_THREADS 6 clock.

(** [N_THREADS] is what [atoi] makes of the argument. *)
Definition mem_main (argc N_THREADS : Z) (clock : Z → nat → Z * Z) : list (Z * (fault + (list Tester * Z))) :=
  if argc <? 2 then [] else varyAllocSize N_THREADS clock.

(** ** The share of a thread *)

(** As long as a block for every thread fits into the limit, there is at least one bin, the
    blocks of all bins together stay within the limit, and one more bin in every thread would not. *)
Lemma numbins_share n max : 1 ≤ n → 1 ≤ max → n * max ≤ MEMORYLIMIT →
  1 ≤ numbins n max ∧ n * numbins n max * max ≤ MEMORYLIMIT < n * (numbins n max + 1) * max.
Proof.
  unfold numbins, MEMORYLIMIT. intros Hn Hm Hl. assert (0 < n * max) as Hp by nia.
  rewrite to_int32_small by lia. rewrite wrap64_small by lia.
  pose proof (Z.mul_div_le (2 ^ 26) (n * max) Hp). pose proof (Z.mul_succ_div_gt (2 ^ 26) (n * max) Hp).
  split; [apply Z.div_le_lower_bound; lia|]. set (q := 2 ^ 26 `div` (n * max)) in *. nia.
Qed.

(** The average is exact when the times fit into 64 bits. *)
Lemma total_ticks_exact clock d i total : (∀ k, (k < rounds)%nat → wrap64 ((clock k).2 - (clock k).1) = d) → (i ≤ rounds)%nat → 0 ≤ total →
  0 ≤ d → total + Z.of_nat i * d < 2 ^ 64 → total_ticks i clock total = total + Z.of_nat i * d.
Proof.
  intros Hd. revert total. induction i as [|i IH]; intros total Hi Ht Hd0 Hs; cbn [total_ticks]; [lia|].
  pose proof (Hd (rounds - S i)%nat ltac:(unfold rounds in *; lia)) as Hk. destruct (clock _) as [a b]. cbn in Hk. rewrite Hk.
  rewrite wrap64_small by nia. rewrite IH by nia. lia.
Qed.

(** The tests of a round of [n] threads for size 2^[a]: each has at least one bin, fewer than
    2^32 operations and a seed no other test of the round has, and together they stay within the limit. *)
Definition sound_round (n a : Z) (r : fault + (list Tester * Z)) : Prop :=
  ∃ ts avg, r = inr (ts, avg) ∧ Z.of_nat (length ts) = n ∧ NoDup (seed <$> ts) ∧
    Forall (λ t, perbinsize t = 2 ^ a ∧ 1 ≤ bins t ∧ 0 ≤ imax t < 2 ^ 32 ∧ n * bins t * perbinsize t ≤ MEMORYLIMIT) ts.

Lemma benchmark_round n a clock : 1 ≤ n ≤ 64 → 6 ≤ a ≤ 20 →
  ∃ r, memAllocBenchmark n (Z.shiftl 1 a) clock = inr r ∧ sound_round n a (inr r).
Proof.
  intros Hn Ha. assert (2 ^ 6 ≤ 2 ^ a ≤ 2 ^ 20) by (split; apply Z.pow_le_mono_r; lia).
  destruct (numbins_share n (2 ^ a)) as [H1 [H2 _]]; [lia..|unfold MEMORYLIMIT; nia|].
  unfold memAllocBenchmark. rewrite Z.shiftl_1_l, to_int32_small, wrap64_small by nia.
  destruct (Z.eqb_spec (n * 2 ^ a) 0); [nia|]. destruct (Z.ltb_spec n 0); [lia|].
  eexists. split; [done|]. do 2 eexists. split; [done|]. unfold testers. split_and!.
  - rewrite length_fmap, length_seq. lia.
  - rewrite <- list_fmap_compose. apply NoDup_fmap_2; [intros j k; cbn; lia|apply NoDup_seq].
  - apply Forall_fmap, Forall_forall. intros j _. cbn. split_and!; lia.
Qed.

(** With 1 to 64 threads all eight sizes are measured, and every round is sound. *)
Lemma benchmark_tests n clock : 1 ≤ n ≤ 64 →
  (varyAllocSize n clock).*1 = [6; 8; 10; 12; 14; 16; 18; 20] ∧
  Forall (λ p, sound_round n p.1 p.2) (varyAllocSize n clock).
Proof.
  intros Hn. unfold varyAllocSize.
  do 8 (cbn [size_loop];
    match goal with |- context [memAllocBenchmark n (Z.shiftl 1 ?a) (clock ?a)] => let e := eval vm_compute in a in change a with e end;
    match goal with |- context [memAllocBenchmark n (Z.shiftl 1 ?a) (clock ?a)] =>
      destruct (benchmark_round n a (clock a) Hn ltac:(lia)) as (? & -> & ?) end).
  split; [done|]. by repeat constructor.
Qed.

(** With 65 threads the last size leaves no bin; with 4096 the product wraps to 0. *)
Lemma benchmark_bad clock :
  numbins 65 (2 ^ 20) = 0 ∧ memAllocBenchmark 4096 (2 ^ 20) clock = inl DivByZero ∧ varyAllocSize 0 (λ _, clock) = [(6, inl DivByZero)].
Proof. done. Qed.
